(* ===== verification/_CoqProject ===== *)
-Q . S2P
Prelude.v
GoText.v
GoNetip.v
Policy.v
LiteralRegexp.v
Store.v
StoreConc.v
StoreConcProps.v
Fairness.v
Operators.v
Engine.v
AuditQueue.v
Decision.v
AuthzPb.v
Server.v
Metrics.v
Subscriber.v
GoJson.v
PolicyJson.v
Seeding.v
GoEnc.v
JsonText.v
Utf8.v
GoRegexp.v
JsonIndent.v
ExtAuthz.v
Pep.v
System.v
Seed.v
Wire.v
PolicyTypes.v
GrpcApi.v
ExampleAccess.v
EngineTests.v
Live.v
Proc.v
Progress.v
Programs.v
ProgramLemmas.v
SubscriberProc.v
SeedProc.v
EngineProc.v
EngineLive.v
EngineCatchUp.v
PointProc.v
PublisherProc.v
