(* ===== verification/Prelude.v ===== *)
(** A verification of the bouncer engine, an attribute-based access-control
    decision service in Go.

    * The program

    Policies are published as JSON on a Redis stream (internal/subscriber,
    publish.go).  A subscriber follows the stream and applies each entry to an
    in-memory store of two tables, allow and deny (internal/subscriber,
    redis.go; internal/store).  The engine answers a request from a snapshot of
    the store: a matching deny policy refuses, else a matching allow policy
    grants, else the request is refused (internal/engine).  A gRPC service maps
    messages to the engine and queues an audit record (internal/server,
    internal/audit) behind a metrics interceptor (internal/metrics).  Two
    enforcement points ask the service before they let a request through
    (examples/httpbin/pep, examples/envoy-jwt/extauthz), and two small programs
    seed policies and probe the result (loadtest/seed, cmd/mock-publisher).
    cmd/bouncer-engine/main.go wires the components into one process: the gRPC
    server, the subscriber's goroutine, the audit workers and the metrics
    endpoint.

    * The files

    - Prelude: Go results, maps and iteration orders, automation, lemmas on
      lists, maps and sums that several components use.
    - GoText, GoNetip, GoJson, GoEnc: the parts of strings, strconv, net/netip,
      encoding/json, encoding/base64 and net the program calls.  JsonText: a
      printer of JSON values that the scanner inverts, of which what
      [json.Marshal] writes is a case.  JsonIndent: the same for the indenting
      encoder.  Utf8: well-formed UTF-8, and that every string the JSON decoder
      returns is.  GoRegexp: an interpreter of a fragment of package regexp,
      with its language.
    - Policy: internal/store/policy.go, the data model and [Compile], over the
      interface [RegexpLib]; LiteralRegexp and GoRegexp are concrete instances
      for evaluation.
    - Store: internal/store/store.go as sequential operations, with the
      refinement to one finite map.  StoreConc: the same code as atomic steps
      of goroutines on a heap of map versions and two atomic pointers.
      StoreConcProps: its linearisability, progress and snapshot theorems.
      Fairness: under a fair infinite schedule every goroutine finishes.
    - Operators, Engine: internal/engine, the six operators and [CheckAccess],
      over the interface [PolicyProvider] that Store instantiates.  Decision:
      decisions taken while the store changes.
    - AuditQueue: internal/audit/logger.go, producers, workers and [Stop] as
      events on a bounded channel.
    - AuthzPb, Server, Metrics: pkg/gen/authzv1 (messages, getters, dispatcher),
      internal/server/grpc.go, internal/metrics/metrics.go, and a sequence of
      RPCs through all of them.  GrpcApi: the client stub, the service
      descriptor and its registration, over the interfaces [ProtoLib] and
      [GrpcLib], and the enforcement points' questions across the wire.
    - Subscriber: internal/subscriber, over the interface [PolicyDecoder];
      PolicyJson is the decoder the struct tags define.
    - Seeding: the policy loading and retry loop the two enforcement points
      share.  ExtAuthz, Pep: their request handlers.  System: stream, store,
      engine, service and enforcement points composed.  Seed: loadtest/seed and
      cmd/mock-publisher.  Wire: policies as JSON text through the stream and
      back, and the bodies of denials.  PolicyTypes: the type of what the store
      holds, whatever the stream holds.  Live: the subscriber's goroutine and the
      deciding goroutines on the concurrent store.
    - ExampleAccess: the policies of examples/envoy-jwt through the whole
      system.  EngineTests: the scenarios of internal/engine/testdata, decoded
      and run.
    - Proc: programs that call their environment, as interaction trees; their
      traces, and processes as pools of goroutines.  Progress: infinite runs of
      a process under a schedule.  Programs: the five [main]
      functions and their goroutines as such programs.  ProgramLemmas: stepping
      through them.  SubscriberProc, SeedProc, PublisherProc: their unbounded
      loops refine the ones of Subscriber, Seeding and Seed.  EngineProc,
      PointProc: the processes of cmd/bouncer-engine and of the enforcement
      points.  EngineLive: the engine process, the concurrent store and the
      stream in one statement.  EngineCatchUp: the engine process under a fair
      schedule.

    * How the code is rendered

    A Go value is its value: structs are records, slices of immutable data are
    lists, a map is a [gmap] (with [None] for a nil map), a pointer that may be
    nil is an option, a (value, error) pair is a [result], an int is a Z with
    its 64-bit range explicit.  Strings are byte strings.  [for range] over a
    map takes its order as an argument ([RangeOrder]), and every theorem holds
    for all orders.  Shared state is passed explicitly; goroutines are lists of
    atomic steps, and a theorem about concurrency quantifies over all
    schedules.  Clock readings, environment variables, the file system, Redis
    answers and network clients are arguments; what is assumed of Redis (an
    append-only stream with distinct IDs, read one entry at a time) is spelled
    out in [redis_answers] and [stream_ids_ok].  The only place where the code
    writes through shared memory, [Compile] on the conditions of a freshly
    decoded policy, happens before the policy is published to other goroutines,
    so lists stand for its slices.

    The processes are rendered once more as interaction trees: each call to the
    operating system, the network, Redis, gRPC or a component is an event
    ([goE]), [for {}] is [ITree.iter], [defer] is [deferring], and [os.Exit] and
    a panic are events without an answer.  A trace is what has been seen of a
    program when it is stopped at any moment; the answers are arbitrary, so a
    theorem about traces holds in every environment, and one about [exec] for
    every interleaving of the goroutines.  What is assumed of an environment is
    a named predicate on its answers: [fs_answer] (variables and files come from
    one machine), [grpc_documented] ([Serve] returns nil only after a shutdown),
    [clock_ok] (the clock does not run backwards, a sleep takes its time),
    [redis_obs] (reads are answered from one append-only stream), [reliable]
    (and after finitely many failures they deliver; the background context is
    never done).

    No recursion needs fuel except the retry loop of [seedPolicies], which runs
    for a given number of passes; [seedPolicies_terminates] shows that one more
    pass than the number of failing calls is enough, and [seed_copies_agree]
    that the unbounded loop has the same returning runs.  The JSON scanner is
    the byte-driven state machine of the Go package, structural on its input.

    * What the theorems show

    - Decisions: the operators mean what the condition language says
      ([EvaluateCondition_correct] and one theorem per operator), deny
      overrides allow for any provider ([CheckAccess_deny_overrides]), the
      verdict after any history of updates is that of the map the history
      denotes ([history_decision]), whatever the listing order.
    - Store: two tables refine one map ([store_refines_map]); under every
      schedule the compare-and-swap loops are linearisable, lock-free and lose
      no update, and one writer keeps one entry per ID.  A snapshot is two
      loads: [snapshot_two_instants], [concurrent_grant_justified], and the
      concrete execution [torn_snapshot_grants] in which it grants what no
      instant grants.  With the subscriber as the one writer, under every fair
      schedule the engine catches up: from some step on the store is the one the
      whole log denotes ([live_converges]).
    - Policies: [Compile_correct]; only well-formed entries change the store
      ([processMessageEntry_effect]), which stays well formed at every point of
      the loop; the stream is replayed in order and replicas agree
      ([subscriber_replays_stream], [replicas_decide_alike]); every stored policy
      is well typed whatever bytes were published ([stored_policies_typed]);
      publishing and consuming round-trip, from the policy's JSON text to the
      stored policy ([published_policy_stored]) and from a store's listing to an
      equal store ([store_restored]); and the policy ID of an UPSERT entry is
      ignored ([upsert_ignores_policy_id]).
    - Service: the fields of an RPC's response and of its audit record
      ([rpc_outcome_audited]), what an RPC grants ([rpc_grants_iff]), conservation and draining of the audit
      queue, counters that match the responses ([serve_all_accounted]).
    - Enforcement: both enforcement points fail closed, and end to end, through
      the generated stub and the registered service, a request passes exactly
      when its message can be sent (valid UTF-8, within the size limit) and the
      policies consumed from the stream grant it ([stream_to_enforcement_grpc]).
      What the ext_authz adapter asks is read from the payload header
      ([authz_request_mapping]).  With the files of examples/envoy-jwt/policies,
      byte for byte, on a stream that the adapter's loading and publishing has
      filled, the adapter permits what their descriptions say, except when a
      token repeats a role ([envoy_example_access]).  Every denial carries a JSON
      body that says so, whatever bytes the error or the reason holds
      ([denial_body_readable], [pep_body_readable]).
    - Processes: the subscriber's goroutine refines the loop of its model
      ([subscriber_goroutine_refines]) and follows the stream at every moment of
      its run ([subscriber_goroutine_follows]); while the engine serves, its server
      reads the store the subscriber writes ([engine_wiring]) and answers every
      RPC ([engine_answers_rpcs]), a response that grants is justified by the
      part of the stream delivered so far, however the goroutines interleave
      ([engine_grants_from_stream]), under every fair schedule with a Redis that
      answers in the end its store becomes the one the whole stream denotes
      ([engine_catches_up]), and its deferred cleanup never runs
      ([engine_never_cleans_up]); an enforcement point serves only after its
      policies are published, over what else the stream holds, as long as
      nobody else names them ([pep_published_before_serving],
      [extauthz_published_before_serving]), and the adapter shuts down in order
      ([extauthz_shutdown]); the publishing programs do what their models
      compute, with their own probe and exit status ([publishers_refine]), and
      end ([publishers_end]).

    * What is not modelled

    The regular-expression engine is the interface [RegexpLib] (GoRegexp
    interprets a fragment that covers the shipped policies, and is used where a
    theorem is about those); the protobuf runtime (reflection and the wire
    format) and gRPC's connection are [ProtoLib], [GrpcLib] and
    [invoke_documented], which state that a message of valid UTF-8 within the
    size limit arrives and that the registered handler answers.  Unicode's
    tables beyond ASCII, for letter case and for [strconv.Quote], are an
    interface.  The Redis, Prometheus and Envoy
    libraries are arguments, interfaces or answers of the environment
    ([url.Parse] and [filepath.Join] among them).  Contexts with their timeouts
    are calls that answer with an error.  The text of standard-library errors
    and the log lines are not modelled.  Of the implementation files what is
    left is package clauses, imports, comments and one-line wrappers of the
    standard library; of the generated files, the reflection tables.

    * Plan

    Next: the atomic steps of the store's calls inside the execution of the
    process, so that [engine_catches_up] and [live_converges] become one
    theorem about one schedule. *)
From stdpp Require Export base tactics gmap strings list fin_maps sorting pretty.
From Stdlib Require Export ZArith Lia Ascii.

#[export] Set Default Goal Selector "!".
#[export] Set Warnings "-clear-no-such-hyp".

(** ** Go results

    [result A] is the pair (value, error) of a Go call as the callers of this
    program use it: either the value with a nil error, or an error. *)
Inductive result (A : Type) : Type :=
  | Ok (a : A)
  | Err (msg : string).
Arguments Ok {A} a.
Arguments Err {A} msg.

#[export] Instance result_ret : MRet result := @Ok.
#[export] Instance result_bind : MBind result := λ A B f m,
  match m with Ok a => f a | Err e => Err e end.
#[export] Instance result_fmap : FMap result := λ A B f m,
  match m with Ok a => Ok (f a) | Err e => Err e end.
#[export] Instance result_eq_dec {A} `{EqDecision A} : EqDecision (result A).
Proof. solve_decision. Defined.

(** ** Go maps

    A Go map value is nil or a finite map; indexing a nil map reads as an
    absent key. *)
Definition GoMap (V : Type) : Type := option (gmap string V).

Definition map_index {V} (m : GoMap V) (k : string) : option V :=
  match m with None => None | Some m => m !! k end.

(** [for k, v := range m] visits the entries in an order the language leaves
    open.  A [RangeOrder] is one such choice: any function that lists each
    entry of the map once.  Every definition that ranges over a map takes the
    order as an argument, so its theorems hold for all of them. *)
Record RangeOrder (V : Type) := {
  range_list :> gmap string V → list (string * V);
  range_perm : ∀ m, range_list m ≡ₚ map_to_list m
}.
Arguments range_list {V} _ _.
Arguments range_perm {V} _ _.

Definition canonical_order {V} : RangeOrder V :=
  {| range_list := map_to_list; range_perm := λ m, reflexivity _ |}.

Definition reversed_order {V} : RangeOrder V :=
  {| range_list := λ m, rev (map_to_list m);
     range_perm := λ m, symmetry (Permutation_rev _) |}.

(** ** Machine integers *)
Definition min_int64 : Z := (- 2 ^ 63)%Z.
Definition max_int64 : Z := (2 ^ 63 - 1)%Z.
Definition in_int64 (z : Z) : bool := ((min_int64 <=? z) && (z <=? max_int64))%Z.

Lemma in_int64_spec z : in_int64 z = true ↔ (min_int64 ≤ z ≤ max_int64)%Z.
Proof. unfold in_int64. rewrite andb_true_iff, !Z.leb_le. done. Qed.

(** ** Bytes of a Go string *)
Definition byte_val (c : ascii) : Z := Z.of_N (N_of_ascii c).

Lemma string_app_nil (s : string) : ("" +:+ s)%string = s.
Proof. done. Qed.

Lemma string_app_cons c (s1 s2 : string) :
  (String c s1 +:+ s2)%string = String c (s1 +:+ s2)%string.
Proof. done. Qed.

Lemma string_app_assoc (s1 s2 s3 : string) :
  (s1 +:+ (s2 +:+ s3))%string = ((s1 +:+ s2) +:+ s3)%string.
Proof.
  induction s1 as [|c s1 IH]; [done|]. by rewrite !string_app_cons, IH.
Qed.

(** ** Automation *)
Create HintDb bouncer discriminated.
Create Rewrite HintDb bouncer.

(** Case analysis on the boolean tests of a translated guard. *)
Ltac bool_simp :=
  repeat match goal with
  | H : (_ && _) = true |- _ => apply andb_true_iff in H as [? ?]
  | H : (_ || _) = false |- _ => apply orb_false_iff in H as [? ?]
  | H : negb _ = true |- _ => apply negb_true_iff in H
  | H : negb _ = false |- _ => apply negb_false_iff in H
  | H : String.eqb _ _ = true |- _ => apply String.eqb_eq in H
  | H : String.eqb _ _ = false |- _ => apply String.eqb_neq in H
  | H : (_ =? _)%nat = true |- _ => apply Nat.eqb_eq in H
  | H : (_ =? _)%nat = false |- _ => apply Nat.eqb_neq in H
  | H : (_ =? _)%Z = true |- _ => apply Z.eqb_eq in H
  | H : (_ =? _)%Z = false |- _ => apply Z.eqb_neq in H
  | H : (_ <=? _)%Z = true |- _ => apply Z.leb_le in H
  | H : (_ <=? _)%Z = false |- _ => apply Z.leb_gt in H
  | H : (_ <? _)%Z = true |- _ => apply Z.ltb_lt in H
  | H : (_ <? _)%Z = false |- _ => apply Z.ltb_ge in H
  end.

(** Split a conjunction or equivalence and close what is immediate. *)
Ltac split_done := repeat split; try done; eauto with bouncer.

(** ** Lists *)

(** The append loop [for ... { acc = append(acc, f(x)) }] is a map. *)
Lemma foldl_snoc_map {A B} (f : A → B) (l : list A) (acc : list B) :
  foldl (λ acc x, acc ++ [f x]) acc l = acc ++ (f <$> l).
Proof.
  revert acc. induction l as [|x l IH]; intros acc; simpl.
  - by rewrite app_nil_r.
  - by rewrite IH, <-app_assoc.
Qed.

Lemma existsb_elem_of {A} (f : A → bool) (l : list A) :
  existsb f l = true ↔ ∃ x, x ∈ l ∧ f x = true.
Proof. rewrite existsb_exists. by setoid_rewrite <-list_elem_of_In. Qed.

Lemma forallb_elem_of {A} (f : A → bool) (l : list A) :
  forallb f l = true ↔ ∀ x, x ∈ l → f x = true.
Proof. rewrite forallb_forall. by setoid_rewrite <-list_elem_of_In. Qed.

(** [l] is [l1] and [l2] with their elements in between each other. *)
Inductive interleaving {A} : list A → list A → list A → Prop :=
  | il_nil : interleaving [] [] []
  | il_left x l1 l2 l : interleaving l1 l2 l → interleaving (x :: l1) l2 (x :: l)
  | il_right x l1 l2 l : interleaving l1 l2 l → interleaving l1 (x :: l2) (x :: l).

Lemma interleaving_left {A} (l : list A) : interleaving l [] l.
Proof. induction l; by constructor. Qed.

Lemma interleaving_omap {A B} (f : A → option B) l1 l2 l :
  interleaving l1 l2 l → interleaving (omap f l1) (omap f l2) (omap f l).
Proof. induction 1 as [|x l1 l2 l _ IH|x l1 l2 l _ IH]; csimpl; [constructor|..]; destruct (f x); by try constructor. Qed.

(** Membership in a ranged-over table does not depend on the order. *)
Lemma elem_of_range {V} (o : RangeOrder V) (m : gmap string V) k v :
  (k, v) ∈ o m ↔ m !! k = Some v.
Proof. rewrite (range_perm o m). apply elem_of_map_to_list. Qed.

Lemma elem_of_range_values {V} (o : RangeOrder V) (m : gmap string V) v :
  v ∈ (o m).*2 ↔ ∃ k, m !! k = Some v.
Proof.
  rewrite list_elem_of_fmap. split.
  - intros [[k v'] [-> Hin]]. exists k. by apply elem_of_range in Hin.
  - intros [k Hk]. exists (k, v). split; [done|]. by apply elem_of_range.
Qed.

Lemma length_range {V} (o : RangeOrder V) (m : gmap string V) :
  length (o m) = size m.
Proof. rewrite (range_perm o m). apply length_map_to_list. Qed.

#[export] Hint Rewrite @elem_of_range @elem_of_range_values @length_range : bouncer.

(** ** Maps *)
Lemma map_to_list_disj_union {V} (m1 m2 : gmap string V) :
  m1 ##ₘ m2 → map_to_list (m1 ∪ m2) ≡ₚ map_to_list m1 ++ map_to_list m2.
Proof.
  intros Hd. apply NoDup_Permutation.
  - apply NoDup_map_to_list.
  - apply NoDup_app. split_and!; [apply NoDup_map_to_list| |apply NoDup_map_to_list].
    intros [k v] H1%elem_of_map_to_list H2%elem_of_map_to_list.
    by apply (proj1 (map_disjoint_spec m1 m2) Hd k v v).
  - intros [k v].
    by rewrite elem_of_app, !elem_of_map_to_list, lookup_union_Some by done.
Qed.

(** ** Sums *)
Lemma sum_list_insert (l : list nat) n x y :
  l !! n = Some x → sum_list (<[n := y]> l) + x = sum_list l + y.
Proof.
  revert n. induction l as [|z l IH]; intros [|n] H; simplify_eq/=; [lia|].
  specialize (IH _ H). lia.
Qed.

(** Replacing an element of a list changes a sum over the list by the
    difference of the two terms. *)
Lemma sum_fmap_insert {A} (f : A → nat) (l : list A) n x y :
  l !! n = Some x → sum_list (f <$> <[n := y]> l) + f x = sum_list (f <$> l) + f y.
Proof.
  intros Hx. rewrite list_fmap_insert. apply sum_list_insert.
  by rewrite list_lookup_fmap, Hx.
Qed.

Lemma sum_list_bounded (l : list nat) b :
  (∀ x, x ∈ l → x ≤ b) → sum_list l ≤ b * length l.
Proof.
  induction l as [|x l IH]; intros H; simpl; [lia|].
  pose proof (H x ltac:(set_solver)). specialize (IH ltac:(set_solver)). lia.
Qed.

(** A 0/1 list with a 0 in it sums to less than its length. *)
Lemma sum_list_one_zero (l : list nat) n :
  (∀ x, x ∈ l → x ≤ 1) → l !! n = Some 0 → sum_list l ≤ length l - 1.
Proof.
  intros H Hn. pose proof (sum_list_insert l n 0 1 Hn) as Hs.
  assert (sum_list (<[n := 1]> l) ≤ 1 * length (<[n := 1]> l)) as Hb.
  { apply sum_list_bounded. intros x [k Hk]%list_elem_of_lookup.
    destruct (decide (n = k)) as [->|].
    - rewrite list_lookup_insert_eq in Hk by eauto using lookup_lt_Some. naive_solver.
    - rewrite list_lookup_insert_ne in Hk by done.
      apply H, list_elem_of_lookup. eauto. }
  rewrite length_insert in Hb. lia.
Qed.
