(* ===== verification/GoText.v ===== *)
(** What the program uses of Go's standard packages [strings] and [strconv]:
    [Cut], [ToUpper]/[ToLower], [HasSuffix], [Join], [Quote] and [Atoi] on a
    64-bit platform.  Go strings are byte sequences. *)
From S2P Require Import Prelude.
Open Scope string_scope.
Open Scope nat_scope.
Open Scope list_scope.

(** ** package strings *)

(** [strings.Cut(s, sep)] for a one-byte separator: the text before and after
    its first occurrence. *)
Fixpoint Cut (s : string) (sep : ascii) : option (string * string) :=
  match s with
  | EmptyString => None
  | String c s' =>
    if Ascii.eqb c sep then Some (EmptyString, s')
    else match Cut s' sep with
         | None => None
         | Some (before, after) => Some (String c before, after)
         end
  end.

(** The split at the last occurrence ([bytealg.LastIndexByteString]). *)
Fixpoint CutLast (s : string) (sep : ascii) : option (string * string) :=
  match s with
  | EmptyString => None
  | String c s' =>
    match CutLast s' sep with
    | Some (before, after) => Some (String c before, after)
    | None => if Ascii.eqb c sep then Some (EmptyString, s') else None
    end
  end.

Fixpoint has_byte (c : ascii) (s : string) : bool :=
  match s with
  | EmptyString => false
  | String c' s' => Ascii.eqb c' c || has_byte c s'
  end.

(** [strings.HasSuffix]. *)
Definition HasSuffix (s suffix : string) : bool :=
  (String.length suffix <=? String.length s)%nat &&
  String.eqb (String.substring (String.length s - String.length suffix)
                (String.length suffix) s) suffix.

(** [strings.Join]. *)
Fixpoint Join (elems : list string) (sep : string) : string :=
  match elems with
  | [] => ""
  | [e] => e
  | e :: rest => (e +:+ sep +:+ Join rest sep)%string
  end.

Fixpoint map_bytes (f : ascii → ascii) (s : string) : string :=
  match s with
  | EmptyString => EmptyString
  | String c s' => String (f c) (map_bytes f s')
  end.

Fixpoint is_ascii (s : string) : bool :=
  match s with
  | EmptyString => true
  | String c s' => (byte_val c <? 128)%Z && is_ascii s'
  end.

Definition lower_byte (c : ascii) : ascii :=
  if ((65 <=? byte_val c) && (byte_val c <=? 90))%Z
  then ascii_of_N (N_of_ascii c + 32) else c.

Definition upper_byte (c : ascii) : ascii :=
  if ((97 <=? byte_val c) && (byte_val c <=? 122))%Z
  then ascii_of_N (N_of_ascii c - 32) else c.

(** [ToLower] and [ToUpper] map bytes on ASCII strings and [Quote] escapes
    them; on any other string they go by runes with Go's Unicode tables, which
    are a parameter. *)
Class UnicodeLib := {
  unicode_ToLower : string → string;
  unicode_ToUpper : string → string;
  unicode_Quote : string → string
}.

Definition ToLower `{UnicodeLib} (s : string) : string :=
  if is_ascii s then map_bytes lower_byte s else unicode_ToLower s.

Definition ToUpper `{UnicodeLib} (s : string) : string :=
  if is_ascii s then map_bytes upper_byte s else unicode_ToUpper s.

(** ** package strconv *)

Definition byte_of (z : Z) : ascii := ascii_of_N (Z.to_N z).

Definition dquote : ascii := byte_of 34.

Definition hex_char (n : Z) : ascii := if (n <? 10)%Z then byte_of (48 + n) else byte_of (87 + n).

(** The letters of the escapes \a, \b, \t, \n, \v, \f and \r, by byte. *)
Definition escape_letters : list (Z * ascii) :=
  [(7, "a"); (8, "b"); (9, "t"); (10, "n"); (11, "v"); (12, "f"); (13, "r")]%Z%char.

(** [appendEscapedRune] of an ASCII byte, in double quotes. *)
Definition quote_byte (c : ascii) : string :=
  let v := byte_val c in
  if Ascii.eqb c dquote || Ascii.eqb c "\" then String "\" (String c "")
  else if ((32 <=? v) && (v <? 127))%Z then String c ""
  else match list_find (λ p, p.1 = v) escape_letters with
       | Some (_, (_, l)) => String "\" (String l "")
       | None => ("\x" +:+ String (hex_char (v / 16)) (String (hex_char (v mod 16)) ""))%string
       end.

Fixpoint quote_bytes (s : string) : string :=
  match s with
  | EmptyString => ""
  | String c s' => (quote_byte c +:+ quote_bytes s')%string
  end.

(** [strconv.Quote], the %q of package fmt. *)
Definition Quote `{UnicodeLib} (s : string) : string :=
  if is_ascii s then String dquote (quote_bytes s +:+ String dquote "")%string else unicode_Quote s.

Definition is_digit (c : ascii) : bool := ((48 <=? byte_val c) && (byte_val c <=? 57))%Z.
Definition digit_val (c : ascii) : Z := (byte_val c - 48)%Z.

Fixpoint digits_val (s : string) (acc : Z) : option Z :=
  match s with
  | EmptyString => Some acc
  | String c s' => if is_digit c then digits_val s' (acc * 10 + digit_val c)%Z else None
  end.

(** [strconv.Atoi] without the error's text: an optional sign, at least one
    decimal digit, nothing else, and a value that fits 64 bits. *)
Definition Atoi (s : string) : option Z :=
  let '(neg, ds) :=
    match s with
    | String "-" r => (true, r)
    | String "+" r => (false, r)
    | _ => (false, s)
    end in
  match ds with
  | EmptyString => None
  | _ =>
    match digits_val ds 0 with
    | None => None
    | Some n => let v := if neg : bool then (- n)%Z else n in
                if in_int64 v then Some v else None
    end
  end.

(** ** Lemmas *)

Lemma Cut_spec s sep before after :
  Cut s sep = Some (before, after) ↔
  s = (before +:+ String sep after)%string ∧ has_byte sep before = false.
Proof.
  revert before. induction s as [|c s IH]; intros before; simpl.
  - split; [done|]. destruct before; by intros [[=] _].
  - destruct (Ascii.eqb_spec c sep) as [->|Hne].
    + split; [by intros [= <- <-]|]. intros [Hs Hb].
      destruct before as [|c' b]; simpl in *; [by injection Hs as ->|].
      injection Hs as <- _. by rewrite Ascii.eqb_refl in Hb.
    + destruct (Cut s sep) as [[b a]|] eqn:Hcut; split.
      * intros [= <- <-]. destruct (proj1 (IH b)) as [-> Hb]; [done|]. split; [done|].
        simpl. apply orb_false_iff. split; [by apply Ascii.eqb_neq|done].
      * destruct before as [|c' b']; intros [Hs Hb];
          simpl in *; [by injection Hs as ->|]; injection Hs as -> ->.
        apply orb_false_iff in Hb as [_ Hb].
        by pose proof (proj2 (IH b') (conj eq_refl Hb)) as [= <- <-].
      * done.
      * destruct before as [|c' b']; intros [Hs Hb];
          simpl in *; [by injection Hs as ->|]; injection Hs as -> ->.
        apply orb_false_iff in Hb as [_ Hb]. by pose proof (proj2 (IH b') (conj eq_refl Hb)).
Qed.

Lemma Cut_None s sep : Cut s sep = None ↔ has_byte sep s = false.
Proof.
  induction s as [|c s IH]; simpl; [done|].
  destruct (Ascii.eqb c sep); simpl; [done|]. rewrite <-IH.
  destruct (Cut s sep) as [[]|]; done.
Qed.

Lemma Atoi_range s v : Atoi s = Some v → (min_int64 ≤ v ≤ max_int64)%Z.
Proof.
  unfold Atoi. intros H. repeat (case_match; simplify_eq);
    by apply in_int64_spec.
Qed.

(** *** Decimal numerals: [Atoi] inverts [pretty] *)

Lemma digits_val_app s1 s2 acc :
  digits_val (s1 +:+ s2)%string acc =
  match digits_val s1 acc with None => None | Some n => digits_val s2 n end.
Proof.
  revert acc. induction s1 as [|c s1 IH]; intros acc; [done|].
  rewrite string_app_cons. simpl. by destruct (is_digit c).
Qed.

Lemma pretty_digit (x : N) :
  (x < 10)%N →
  is_digit (pretty_N_char x) = true ∧ digit_val (pretty_N_char x) = Z.of_N x.
Proof.
  intros H. assert (x ∈ [0; 1; 2; 3; 4; 5; 6; 7; 8; 9])%N as Hin.
  { repeat (rewrite elem_of_cons). lia. }
  repeat (apply elem_of_cons in Hin as [->|Hin]; [by vm_compute|]). set_solver.
Qed.

Lemma pretty_N_go_app (x : N) s : pretty_N_go x s = (pretty_N_go x "" +:+ s)%string.
Proof.
  revert s. induction (N.lt_wf_0 x) as [x _ IH]; intros s.
  destruct (decide (0 < x)%N) as [Hx|Hx].
  - rewrite !(pretty_N_go_step x) by done.
    assert (x `div` 10 < x)%N as Hlt by (apply N.div_lt; lia).
    rewrite (IH _ Hlt (String _ s)), (IH _ Hlt (String _ "")).
    by rewrite <-string_app_assoc.
  - assert (x = 0)%N as -> by lia. by rewrite !pretty_N_go_0.
Qed.

Lemma digits_val_pretty_go (x : N) :
  digits_val (pretty_N_go x "") 0 = Some (Z.of_N x).
Proof.
  induction (N.lt_wf_0 x) as [x _ IH].
  destruct (decide (0 < x)%N) as [Hx|Hx].
  - rewrite pretty_N_go_step, pretty_N_go_app, digits_val_app by done.
    rewrite (IH (x `div` 10)%N) by (apply N.div_lt; lia). simpl.
    destruct (pretty_digit (x `mod` 10)) as [-> ->]; [by apply N.mod_lt|].
    f_equal. rewrite (N.div_mod x 10) at 3 by done. lia.
  - assert (x = 0)%N as -> by lia. by rewrite pretty_N_go_0.
Qed.

Lemma digits_val_pretty (x : N) : digits_val (pretty x) 0 = Some (Z.of_N x).
Proof.
  unfold pretty, pretty_N. case_decide; [by subst|]. apply digits_val_pretty_go.
Qed.

(** The first byte of a natural numeral is a digit. *)
Lemma pretty_N_first (x : N) : ∃ c s, pretty x = String c s ∧ is_digit c = true.
Proof.
  pose proof (digits_val_pretty x) as H. destruct (pretty x) as [|c s] eqn:Hp.
  - exfalso. unfold pretty, pretty_N in Hp. case_decide as Hx; [done|].
    rewrite pretty_N_go_step, pretty_N_go_app in Hp by lia.
    by destruct (pretty_N_go (x `div` 10) "").
  - exists c, s. split; [done|]. simpl in H. by destruct (is_digit c).
Qed.

Lemma Atoi_digit c s :
  is_digit c = true →
  Atoi (String c s) =
  match digits_val (String c s) 0 with
  | None => None
  | Some n => if in_int64 n then Some n else None
  end.
Proof.
  intros Hc. unfold Atoi.
  by destruct c as [[] [] [] [] [] [] [] []].
Qed.

Lemma Atoi_pretty (z : Z) :
  Atoi (pretty z) = if in_int64 z then Some z else None.
Proof.
  destruct z as [|x|x]; [done| |].
  - change (pretty (Z.pos x)) with (pretty (N.pos x)).
    destruct (pretty_N_first (N.pos x)) as (c&s&Hp&Hc).
    rewrite Hp, Atoi_digit, <-Hp, digits_val_pretty by done. done.
  - change (pretty (Z.neg x)) with (String "-" (pretty (N.pos x))).
    destruct (pretty_N_first (N.pos x)) as (c&s&Hp&Hc).
    unfold Atoi. rewrite Hp, <-Hp, digits_val_pretty. done.
Qed.

Example quote_samples `{UnicodeLib} :
  Quote "x-jwt-payload" = String dquote ("x-jwt-payload" +:+ String dquote "")%string ∧
  Quote (String "\" (String (byte_of 10) (String (byte_of 27) (String dquote "")))) =
    String dquote ("\\\n\x1b\" +:+ String dquote (String dquote ""))%string.
Proof. split; by vm_compute. Qed.
