(* ===== verification/GoNetip.v ===== *)
(** What the program uses of Go's standard package [net/netip]: [ParseAddr],
    [ParsePrefix] and [Prefix.Contains], with the loops of the package's
    parsers.  Addresses are big-endian integers of 32 or 128 bits; an IPv6
    address carries its zone. *)
From S2P Require Import Prelude GoText.
Open Scope string_scope.
Open Scope nat_scope.
Open Scope list_scope.

Inductive Addr :=
  | Addr4 (v : Z)
  | Addr6 (v : Z) (zone : string).

#[export] Instance Addr_eq_dec : EqDecision Addr.
Proof. solve_decision. Defined.

Record Prefix := mkPrefix { pfx_ip : Addr; pfx_bits : Z }.

Definition BitLen (a : Addr) : Z := match a with Addr4 _ => 32 | Addr6 _ _ => 128 end.

(** The integer behind an address. *)
Definition addr_val (a : Addr) : Z := match a with Addr4 v => v | Addr6 v _ => v end.

Definition hasZone (a : Addr) : bool :=
  match a with Addr4 _ => false | Addr6 _ z => negb (String.eqb z "") end.

(** Big-endian bytes to an integer. *)
Definition bytes_val (bs : list Z) : Z := foldl (λ acc b, acc * 256 + b)%Z 0%Z bs.

(** *** parseIPv4Fields: the byte loop, with the fields so far (last first). *)
Fixpoint v4_loop (s : string) (first prev_dot : bool) (val digLen : Z) (fields : list Z)
    : option (list Z) :=
  match s with
  | EmptyString => if (length fields <? 3)%nat then None else Some (rev (val :: fields))
  | String c s' =>
    if is_digit c then
      if ((digLen =? 1) && (val =? 0))%Z then None
      else let val := (val * 10 + digit_val c)%Z in
           if (255 <? val)%Z then None
           else v4_loop s' false false val (digLen + 1)%Z fields
    else if Ascii.eqb c "." then
      if first || String.eqb s' "" || prev_dot then None
      else if (length fields =? 3)%nat then None
      else v4_loop s' false true 0 0 (val :: fields)
    else None
  end.

Definition parseIPv4Fields (s : string) : option (list Z) := v4_loop s true false 0 0 [].

Definition parseIPv4 (s : string) : option Addr :=
  fs ← parseIPv4Fields s; Some (Addr4 (bytes_val fs)).

(** *** parseIPv6 *)
Definition hex_val (c : ascii) : option Z :=
  let b := byte_val c in
  if ((48 <=? b) && (b <=? 57))%Z then Some (b - 48)%Z
  else if ((97 <=? b) && (b <=? 102))%Z then Some (b - 97 + 10)%Z
  else if ((65 <=? b) && (b <=? 70))%Z then Some (b - 65 + 10)%Z
  else None.

(** The digit loop of one group: [None] is an error; otherwise the digits
    read, their value and the rest of the text. *)
Fixpoint hex_group (s : string) (off acc : Z) : option (Z * Z * string) :=
  match s with
  | EmptyString => Some (off, acc, s)
  | String c s' =>
    match hex_val c with
    | None => Some (off, acc, s)
    | Some d =>
      let acc := (acc * 16 + d)%Z in
      if (3 <? off)%Z then None
      else if (65535 <? acc)%Z then None
      else hex_group s' (off + 1)%Z acc
    end
  end.

(** The group loop.  [ip] holds the bytes parsed so far ([i] of the code is
    its length) and [groups] is how many iterations [i < 16] still allows:
    each pass that continues adds two bytes.  The result is the bytes, the
    position of the ellipsis and the text left over. *)
Fixpoint v6_loop (groups : nat) (s : string) (ip : list Z) (ellipsis : option nat)
    : option (list Z * option nat * string) :=
  match groups with
  | O => Some (ip, ellipsis, s)
  | S groups =>
    '(off, acc, s1) ← hex_group s 0 0;
    if (off =? 0)%Z then None
    else match s1 with
    | String "." _ =>
      if bool_decide (ellipsis = None) && negb (length ip =? 12)%nat then None
      else if (16 <? length ip + 4)%nat then None
      else fs ← parseIPv4Fields s; Some (ip ++ fs, ellipsis, "")
    | _ =>
      let ip := ip ++ [Z.shiftr acc 8; Z.land acc 255] in
      match s1 with
      | EmptyString => Some (ip, ellipsis, "")
      | String ":" EmptyString => None
      | String ":" (String ":" s2) =>
        match ellipsis with
        | Some _ => None
        | None =>
          match s2 with
          | EmptyString => Some (ip, Some (length ip), "")
          | _ => v6_loop groups s2 ip (Some (length ip))
          end
        end
      | String ":" s2 => v6_loop groups s2 ip ellipsis
      | _ => None
      end
    end
  end.

(** What follows the loop: no text left over, and the ellipsis expands to at
    least one group of zeros. *)
Definition v6_finish (ip : list Z) (ellipsis : option nat) (rest : string) : option (list Z) :=
  if negb (String.eqb rest "") then None
  else if (length ip <? 16)%nat then
    match ellipsis with
    | None => None
    | Some e => Some (take e ip ++ replicate (16 - length ip) 0%Z ++ drop e ip)
    end
  else match ellipsis with None => Some ip | Some _ => None end.

Definition parseIPv6 (s : string) : option Addr :=
  '(s, zone) ← match Cut s "%" with
    | None => Some (s, "")
    | Some (s, zone) => if String.eqb zone "" then None else Some (s, zone)
    end;
  match s with
  | String ":" (String ":" EmptyString) => Some (Addr6 0 zone)
  | _ =>
    let '(s, ellipsis) := match s with
      | String ":" (String ":" s) => (s, Some 0)
      | _ => (s, None)
      end in
    '(ip, ellipsis, rest) ← v6_loop 8 s [] ellipsis;
    ip ← v6_finish ip ellipsis rest;
    Some (Addr6 (bytes_val ip) zone)
  end.

(** [ParseAddr] dispatches on the first of the bytes '.', ':' and '%'. *)
Fixpoint addr_kind (s : string) : option ascii :=
  match s with
  | EmptyString => None
  | String c s' =>
    if Ascii.eqb c "." || Ascii.eqb c ":" || Ascii.eqb c "%" then Some c else addr_kind s'
  end.

Definition ParseAddr (s : string) : option Addr :=
  match addr_kind s with
  | Some "."%char => parseIPv4 s
  | Some ":"%char => parseIPv6 s
  | _ => None
  end.

(** [ParsePrefix]: an address without zone, a slash, and a bit count without
    sign or leading zero that fits the address family. *)
Definition ParsePrefix (s : string) : option Prefix :=
  '(ips, bitsStr) ← CutLast s "/";
  ip ← ParseAddr ips;
  if hasZone ip then None
  else
    let bad_start := match bitsStr with
      | String c (String _ _) => negb ((49 <=? byte_val c) && (byte_val c <=? 57))%Z
      | _ => false
      end in
    if bad_start then None
    else
      bits ← Atoi bitsStr;
      if ((bits <? 0) || (BitLen ip <? bits))%Z then None
      else Some (mkPrefix ip bits).

(** [mask6 n]: the top [n] of 128 bits. *)
Definition mask6 (n : Z) : Z := Z.shiftl (Z.ones n) (128 - n).

(** [Prefix.Contains]: xor the addresses and look at the prefix bits. *)
Definition Contains (p : Prefix) (ip : Addr) : bool :=
  if hasZone ip then false
  else match pfx_ip p, ip with
  | Addr4 a, Addr4 b =>
    (Z.land (Z.shiftr (Z.lxor b a) (Z.land (32 - pfx_bits p) 63)) (Z.ones 32) =? 0)%Z
  | Addr6 a _, Addr6 b _ => (Z.land (Z.lxor b a) (mask6 (pfx_bits p)) =? 0)%Z
  | _, _ => false
  end.

(** ** Tests of the parsers on inputs of the documentation *)
Example parse_v4_ok : ParseAddr "10.4.4.10" = Some (Addr4 168035338).
Proof. reflexivity. Qed.
Example parse_v4_zero : ParseAddr "10.04.4.10" = None.
Proof. reflexivity. Qed.
Example parse_v6_ok : ParseAddr "fd7a:115c:a1e0:ab12:4843:cd96:626b:430b" =
  Some (Addr6 0xfd7a115ca1e0ab124843cd96626b430b "").
Proof. reflexivity. Qed.
Example parse_v6_mapped : ParseAddr "::ffff:192.168.140.255" = Some (Addr6 0xffffc0a88cff "").
Proof. reflexivity. Qed.
Example parse_v6_zone : ParseAddr "fe80::1%eth0" =
  Some (Addr6 0xfe800000000000000000000000000001 "eth0").
Proof. reflexivity. Qed.
Example parse_v6_bad : ParseAddr "1:2:3:4:5:6:7:8::" = None ∧ ParseAddr "::1::" = None ∧
  ParseAddr "1:" = None ∧ ParseAddr "fe80::1%" = None ∧ ParseAddr ":::" = None ∧ ParseAddr "12345::" = None.
Proof. by vm_compute. Qed.
Example prefix_ok : ParsePrefix "10.0.0.0/8" = Some (mkPrefix (Addr4 167772160) 8).
Proof. reflexivity. Qed.
Example prefix_bad : ParsePrefix "10.0.0.0" = None ∧ ParsePrefix "10.0.0.0/33" = None ∧
  ParsePrefix "10.0.0.0/08" = None ∧ ParsePrefix "10.0.0.0/+8" = None ∧
  ParsePrefix "fe80::1%a/64" = None ∧ ParsePrefix "/8" = None ∧ ParsePrefix "10.0.0.0/" = None.
Proof. by vm_compute. Qed.
Example contains_ok : Contains (mkPrefix (Addr4 167772160) 8) (Addr4 168035338) = true.
Proof. reflexivity. Qed.

(** ** Lemmas: parsed addresses are in range *)

Definition byte (b : Z) : Prop := (0 ≤ b < 256)%Z.

Lemma bytes_val_range bs acc :
  Forall byte bs → (0 ≤ acc)%Z →
  (0 ≤ foldl (λ acc b, acc * 256 + b) acc bs < (acc + 1) * 256 ^ Z.of_nat (length bs))%Z.
Proof.
  intros Hbs. revert acc. induction Hbs as [|b bs Hb _ IH]; intros acc Hacc; simpl; [lia|].
  unfold byte in Hb. specialize (IH (acc * 256 + b)%Z ltac:(lia)).
  rewrite Nat2Z.inj_succ, Z.pow_succ_r by lia. nia.
Qed.

Lemma bytes_val_len bs n :
  Forall byte bs → length bs = n → (0 ≤ bytes_val bs < 256 ^ Z.of_nat n)%Z.
Proof. intros Hbs <-. pose proof (bytes_val_range bs 0 Hbs). unfold bytes_val. lia. Qed.

Lemma is_digit_range c : is_digit c = true → (0 ≤ digit_val c < 10)%Z.
Proof. unfold is_digit, digit_val. intros H. bool_simp. lia. Qed.

Lemma v4_loop_range s first prev val digLen fields fs :
  v4_loop s first prev val digLen fields = Some fs →
  byte val → Forall byte fields → length fields ≤ 3 →
  Forall byte fs ∧ length fs = 4.
Proof.
  revert first prev val digLen fields.
  induction s as [|c s IH]; intros first prev val digLen fields; simpl; intros H Hv Hfs Hlen.
  - case_match eqn:Hc; [done|]. apply Nat.ltb_ge in Hc. injection H as <-.
    rewrite length_app, length_rev. split; [|simpl; lia].
    apply Forall_app. split; [by apply Forall_rev|by constructor].
  - destruct (is_digit c) eqn:Hd.
    + apply is_digit_range in Hd. repeat (case_match; [done|]). bool_simp.
      eapply IH; [done| |done|done]. unfold byte in *; lia.
    + repeat (case_match; try done).
      eapply IH; [done|done|by constructor|]. bool_simp. simpl. lia.
Qed.

Lemma parseIPv4Fields_range s fs :
  parseIPv4Fields s = Some fs → Forall byte fs ∧ length fs = 4.
Proof. intros H. eapply v4_loop_range; [done|done|done|simpl; lia]. Qed.

Lemma hex_val_range c d : hex_val c = Some d → (0 ≤ d < 16)%Z.
Proof. unfold hex_val. intros H. repeat (case_match; simplify_eq); bool_simp; lia. Qed.

Lemma hex_group_range s off acc off' acc' s' :
  hex_group s off acc = Some (off', acc', s') →
  (0 ≤ acc ≤ 65535)%Z → (0 ≤ acc' ≤ 65535)%Z.
Proof.
  revert off acc. induction s as [|c s IH]; intros off acc; simpl; intros H Hacc.
  - by simplify_eq.
  - destruct (hex_val c) as [d|] eqn:Hd; [|by simplify_eq].
    apply hex_val_range in Hd. repeat (case_match; [done|]). bool_simp.
    eapply IH; [done|lia].
Qed.

Lemma group_bytes acc :
  (0 ≤ acc ≤ 65535)%Z → Forall byte [Z.shiftr acc 8; Z.land acc 255].
Proof.
  intros H. rewrite Z.shiftr_div_pow2 by lia. change 255%Z with (Z.ones 8).
  rewrite Z.land_ones by lia. unfold byte.
  repeat constructor; try (apply Z.mod_pos_bound; lia).
  - apply Z.div_pos; lia.
  - apply Z.div_lt_upper_bound; lia.
Qed.

Lemma v6_loop_range groups s ip ell ip' ell' rest :
  v6_loop groups s ip ell = Some (ip', ell', rest) →
  Forall byte ip → length ip + 2 * groups ≤ 16 →
  Forall byte ip' ∧ length ip' ≤ 16.
Proof.
  revert s ip ell. induction groups as [|groups IH]; intros s ip ell; cbn -[length];
    intros H Hip Hlen; [simplify_eq; split; [done|lia]|].
  destruct (hex_group s 0 0) as [[[off acc] s1]|] eqn:Hg; [|done]. cbn -[length] in H.
  apply hex_group_range in Hg; [|lia]. pose proof (group_bytes _ Hg) as Hb.
  assert (Forall byte (ip ++ [Z.shiftr acc 8; Z.land acc 255])) as Hip'
    by (by apply Forall_app).
  assert (length (ip ++ [Z.shiftr acc 8; Z.land acc 255]) + 2 * groups ≤ 16) as Hlen'
    by (rewrite length_app; simpl; lia).
  destruct (off =? 0)%Z; [done|].
  repeat (case_match; simplify_eq; try done).
  all: try (split; [done|lia]); try (by eapply IH).
  all: destruct (parseIPv4Fields s) as [fs|] eqn:Hf; simplify_eq/=;
    apply parseIPv4Fields_range in Hf as [Hf Hl];
    (split; [by apply Forall_app|]); rewrite length_app; lia.
Qed.

Lemma v6_finish_range ip ell rest bs :
  v6_finish ip ell rest = Some bs → Forall byte ip → length ip ≤ 16 →
  Forall byte bs ∧ length bs = 16.
Proof.
  unfold v6_finish. intros H Hip Hlen. case_match; [done|]. case_match eqn:Hc.
  - apply Nat.ltb_lt in Hc. destruct ell as [e|]; [|done]. injection H as <-. split.
    + rewrite !Forall_app. split_and!; [by apply Forall_take| |by apply Forall_drop].
      apply Forall_replicate. unfold byte; lia.
    + rewrite !length_app, length_take, length_drop, length_replicate. lia.
  - apply Nat.ltb_ge in Hc. destruct ell; simplify_eq. split; [done|lia].
Qed.

Lemma ParseAddr_range s a : ParseAddr s = Some a → (0 ≤ addr_val a < 2 ^ BitLen a)%Z.
Proof.
  assert (H4 : ∀ s a, parseIPv4 s = Some a → (0 ≤ addr_val a < 2 ^ BitLen a)%Z).
  { clear. intros s a. unfold parseIPv4. destruct (parseIPv4Fields s) as [fs|] eqn:Hf; [|done].
    intros [= <-]. apply parseIPv4Fields_range in Hf as [Hf Hl].
    by apply (bytes_val_len fs 4). }
  assert (H6 : ∀ s a, parseIPv6 s = Some a → (0 ≤ addr_val a < 2 ^ BitLen a)%Z).
  { clear. intros s a. unfold parseIPv6.
    destruct (match Cut s "%" with Some _ => _ | None => _ end) as [[s1 zone]|]; [|done].
    cbn -[v6_loop Z.pow].
    assert (Hgen : ∀ s2 ell,
      ('(ip, ellipsis, rest) ← v6_loop 8 s2 [] ell; ip0 ← v6_finish ip ellipsis rest;
       Some (Addr6 (bytes_val ip0) zone)) = Some a → (0 ≤ addr_val a < 2 ^ BitLen a)%Z).
    { intros s2 ell. destruct (v6_loop 8 s2 [] ell) as [[[ip ell'] rest]|] eqn:Hl; [|done].
      cbn -[Z.pow]. destruct (v6_finish ip ell' rest) as [bs|] eqn:Hf; [|done].
      intros [= <-]. apply v6_loop_range in Hl as [Hip Hlen]; [|done|simpl; lia].
      apply v6_finish_range in Hf as [Hbs Hl]; [|done|done].
      by apply (bytes_val_len bs 16). }
    repeat (case_match; try done); try apply Hgen. intros [= <-]; simpl; lia. }
  unfold ParseAddr. intros H. repeat (case_match; try done); eauto.
Qed.

Lemma ParsePrefix_range s p :
  ParsePrefix s = Some p →
  (0 ≤ pfx_bits p ≤ BitLen (pfx_ip p))%Z ∧ hasZone (pfx_ip p) = false ∧
  (0 ≤ addr_val (pfx_ip p) < 2 ^ BitLen (pfx_ip p))%Z.
Proof.
  unfold ParsePrefix. destruct (CutLast s "/") as [[ips bs]|]; [|done]. cbn -[Z.pow].
  destruct (ParseAddr ips) as [ip|] eqn:Hip; [|done]. cbn -[Z.pow].
  destruct (hasZone ip) eqn:Hz; [done|]. case_match; [done|].
  destruct (Atoi bs) as [bits|]; [|done]. cbn -[Z.pow].
  destruct ((bits <? 0) || (BitLen ip <? bits))%Z eqn:Hb; [done|].
  intros [= <-]. cbn -[Z.pow]. bool_simp.
  apply ParseAddr_range in Hip as [Hlo Hhi]. by split_and!.
Qed.

(** ** Lemmas: [Contains] compares the network parts *)

Lemma land_small_ones x n : (0 ≤ n)%Z → (0 ≤ x < 2 ^ n)%Z → Z.land x (Z.ones n) = x.
Proof. intros Hn Hx. rewrite Z.land_ones by done. by apply Z.mod_small. Qed.

Lemma land_lxor_distr x y z : Z.land (Z.lxor x y) z = Z.lxor (Z.land x z) (Z.land y z).
Proof.
  apply Z.bits_inj'. intros i _. rewrite Z.land_spec, !Z.lxor_spec, !Z.land_spec.
  by destruct (Z.testbit x i), (Z.testbit y i), (Z.testbit z i).
Qed.

Lemma shifted_xor_zero a b m k :
  (0 ≤ k)%Z → (0 ≤ m)%Z → (0 ≤ a < 2 ^ (m + k))%Z → (0 ≤ b < 2 ^ (m + k))%Z →
  Z.land (Z.shiftr (Z.lxor b a) k) (Z.ones m) = 0%Z ↔ (b / 2 ^ k = a / 2 ^ k)%Z.
Proof.
  intros Hk Hm Ha Hb. rewrite Z.pow_add_r in Ha, Hb by lia.
  pose proof (Z.pow_pos_nonneg 2 k ltac:(lia) Hk) as Hp.
  assert (Hs : ∀ x, (0 ≤ x < 2 ^ m * 2 ^ k)%Z → (0 ≤ x / 2 ^ k < 2 ^ m)%Z).
  { intros x Hx. split; [apply Z.div_pos; lia|]. apply Z.div_lt_upper_bound; lia. }
  rewrite Z.shiftr_lxor, !Z.shiftr_div_pow2 by done.
  rewrite land_lxor_distr, !land_small_ones by auto. apply Z.lxor_eq_0_iff.
Qed.

Lemma land_shiftl_ones x n k :
  (0 ≤ k)%Z → (0 ≤ n)%Z →
  Z.land x (Z.shiftl (Z.ones n) k) = Z.shiftl (Z.land (Z.shiftr x k) (Z.ones n)) k.
Proof.
  intros Hk Hn. apply Z.bits_inj'. intros i Hi.
  rewrite Z.land_spec, !Z.shiftl_spec by done.
  destruct (decide (k ≤ i)%Z) as [Hki|Hki].
  - rewrite Z.land_spec, Z.shiftr_spec by lia. do 2 f_equal. lia.
  - rewrite !(Z.testbit_neg_r _ (i - k)) by lia. apply andb_false_r.
Qed.

Lemma shiftl_zero x k : (0 ≤ k)%Z → Z.shiftl x k = 0%Z ↔ x = 0%Z.
Proof.
  intros Hk. rewrite Z.shiftl_mul_pow2 by done.
  pose proof (Z.pow_pos_nonneg 2 k ltac:(lia) Hk). nia.
Qed.

(** For a parsed prefix and a parsed address, [Contains] holds exactly when
    they are of one family, the address has no zone, and the bits above the
    host part agree. *)
Lemma Contains_spec p ip :
  (0 ≤ pfx_bits p ≤ BitLen (pfx_ip p))%Z →
  (0 ≤ addr_val (pfx_ip p) < 2 ^ BitLen (pfx_ip p))%Z →
  (0 ≤ addr_val ip < 2 ^ BitLen ip)%Z →
  Contains p ip = true ↔
  BitLen ip = BitLen (pfx_ip p) ∧ hasZone ip = false ∧
  let host := (BitLen ip - pfx_bits p)%Z in
  (addr_val ip / 2 ^ host = addr_val (pfx_ip p) / 2 ^ host)%Z.
Proof.
  unfold Contains. destruct p as [[a|a za] bits], ip as [b|b zb];
    cbn -[Z.pow Z.ones Z.land Z.shiftr mask6]; intros Hbits Ha Hb.
  - rewrite Z.eqb_eq. change 63%Z with (Z.ones 6).
    rewrite (land_small_ones (32 - bits) 6) by lia.
    assert (2 ^ 32 ≤ 2 ^ (32 + (32 - bits)))%Z by (apply Z.pow_le_mono_r; lia).
    rewrite shifted_xor_zero by lia. by split; intros; destruct_and?.
  - by destruct (String.eqb zb ""); split; intros; destruct_and?.
  - by split; intros; destruct_and?.
  - destruct (String.eqb zb ""); cbn -[Z.pow Z.land mask6];
      [|by split; intros; destruct_and?].
    rewrite Z.eqb_eq. unfold mask6. rewrite land_shiftl_ones, shiftl_zero by lia.
    assert (2 ^ (bits + (128 - bits)) = 2 ^ 128)%Z by (f_equal; lia).
    rewrite shifted_xor_zero by lia. by split; intros; destruct_and?.
Qed.
