(* ===== verification/Policy.v ===== *)
(** internal/store/policy.go: the policy data model and [Compile].

    The regular-expression engine is Go's standard [regexp] package.  It is
    the interface [RegexpLib] here: every theorem of the library holds for any
    compiler/matcher pair, and the file [LiteralRegexp] gives a concrete
    instance for evaluation. *)
From S2P Require Import Prelude.
Open Scope string_scope.
Open Scope nat_scope.
Open Scope list_scope.

(** What the program calls of package regexp: [Compile] and [MatchString]. *)
Class RegexpLib := {
  Regexp : Type;
  regexp_Compile : string → result Regexp;
  MatchString : Regexp → string → bool
}.

(** [Access], the outcome of a matched policy, is a string type. *)
Definition Access : Type := string.
Definition AccessAllow : Access := "ALLOW".
Definition AccessDeny : Access := "DENY".

Record Target := mkTarget {
  t_ResourceType : string;
  t_Action : string
}.

Section WithRegexp.
Context `{RE : RegexpLib}.

Record Condition := mkCondition {
  c_Attribute : string;
  c_Operator : string;
  c_Value : list string;
  c_CompiledRegex : option Regexp
}.

Record Policy := mkPolicy {
  p_ID : string;
  p_Description : string;
  p_Access : Access;
  p_Target : Target;
  p_Conditions : list Condition
}.

(** The zero values of the struct types. *)
Definition zero_Condition : Condition := mkCondition "" "" [] None.
Definition zero_Policy : Policy := mkPolicy "" "" "" (mkTarget "" "") [].

Definition with_regex (cond : Condition) (re : Regexp) : Condition :=
  mkCondition (c_Attribute cond) (c_Operator cond) (c_Value cond) (Some re).

Definition with_conditions (p : Policy) (cs : list Condition) : Policy :=
  mkPolicy (p_ID p) (p_Description p) (p_Access p) (p_Target p) cs.

(** The error of [Compile], as the arguments of its format string: the policy
    ID, the offending pattern and the wrapped error. *)
Inductive CompileError := InvalidRegex (id pattern cause : string).

(** The loop guard of [Compile]: a condition that is not a REGEX, or has no
    value, is skipped. *)
Definition regex_pattern (cond : Condition) : option string :=
  if negb (String.eqb (c_Operator cond) "REGEX") then None else head (c_Value cond).

(** The loop of [Compile].  It writes the conditions in place, so the caller
    sees the conditions before the failing one compiled even when the loop
    returns an error. *)
Fixpoint compile_conditions (id : string) (cs : list Condition)
    : list Condition * option CompileError :=
  match cs with
  | [] => ([], None)
  | cond :: rest =>
    match regex_pattern cond with
    | None =>
      let '(rest', err) := compile_conditions id rest in (cond :: rest', err)
    | Some pattern =>
      match regexp_Compile pattern with
      | Err e => (cond :: rest, Some (InvalidRegex id pattern e))
      | Ok re =>
        let '(rest', err) := compile_conditions id rest in
        (with_regex cond re :: rest', err)
      end
    end
  end.

Definition Compile (p : Policy) : Policy * option CompileError :=
  let '(cs, err) := compile_conditions (p_ID p) (p_Conditions p) in
  (with_conditions p cs, err).

(** ** Specification vocabulary *)

(** A condition is ready for evaluation when its pattern, if it has one, is
    the one its compiled expression was compiled from. *)
Definition condition_compiled (cond : Condition) : Prop :=
  match regex_pattern cond with
  | None => True
  | Some pattern => ∃ re, regexp_Compile pattern = Ok re ∧ c_CompiledRegex cond = Some re
  end.

Definition policy_compiled (p : Policy) : Prop :=
  Forall condition_compiled (p_Conditions p).

(** Two conditions (policies) that differ at most in compiled expressions. *)
Definition same_source (c c' : Condition) : Prop :=
  c_Attribute c = c_Attribute c' ∧ c_Operator c = c_Operator c' ∧ c_Value c = c_Value c'.

(** A condition whose pattern the engine rejects. *)
Definition bad_regex (c : Condition) : Prop :=
  ∃ pattern e, regex_pattern c = Some pattern ∧ regexp_Compile pattern = Err e.

#[export] Instance same_source_equiv : Equivalence same_source.
Proof.
  split.
  - by intros [].
  - by intros [] [] (?&?&?).
  - intros [] [] [] (?&?&?) (?&?&?); simpl in *; subst. by split_and!.
Qed.

(** ** Lemmas on the compile loop *)

Lemma regex_pattern_same c c' : same_source c c' → regex_pattern c = regex_pattern c'.
Proof. intros (_&H1&H2). unfold regex_pattern. by rewrite H1, H2. Qed.

Lemma with_regex_same c re : same_source c (with_regex c re).
Proof. done. Qed.

Lemma with_regex_pattern c re : regex_pattern (with_regex c re) = regex_pattern c.
Proof. done. Qed.

Lemma compile_conditions_same id cs :
  Forall2 same_source cs (compile_conditions id cs).1.
Proof.
  induction cs as [|c cs IH]; simpl; [constructor|].
  destruct (regex_pattern c); [destruct (regexp_Compile _)|];
    try destruct (compile_conditions id cs) as [cs' err];
    constructor; simpl in *; eauto using with_regex_same; try reflexivity.
Qed.

Lemma compile_conditions_ok id cs :
  (compile_conditions id cs).2 = None →
  Forall condition_compiled (compile_conditions id cs).1.
Proof.
  induction cs as [|c cs IH]; simpl; [constructor|].
  destruct (regex_pattern c) as [pat|] eqn:Hp.
  - destruct (regexp_Compile pat) as [re|e] eqn:Hre; [|done].
    destruct (compile_conditions id cs) as [cs' err]; simpl in *.
    intros ->. constructor; [|by apply IH].
    unfold condition_compiled. rewrite with_regex_pattern, Hp. by exists re.
  - destruct (compile_conditions id cs) as [cs' err]; simpl in *.
    intros ->. constructor; [|by apply IH].
    unfold condition_compiled. by rewrite Hp.
Qed.

Lemma compile_conditions_err id cs e :
  (compile_conditions id cs).2 = Some e ↔
  ∃ pre c post pattern cause,
    cs = pre ++ c :: post ∧ (∀ c', c' ∈ pre → ¬ bad_regex c') ∧
    regex_pattern c = Some pattern ∧ regexp_Compile pattern = Err cause ∧
    e = InvalidRegex id pattern cause.
Proof.
  split.
  - induction cs as [|c cs IH]; simpl; [done|].
    destruct (regex_pattern c) as [pat|] eqn:Hp;
      [destruct (regexp_Compile pat) as [re|cause] eqn:Hre|].
    2:{ intros [= <-]. exists [], c, cs, pat, cause. split_done. set_solver. }
    all: destruct (compile_conditions id cs) as [cs' err]; simpl in *; intros H.
    all: destruct (IH H) as (pre&c0&post&pt&ca&->&Hpre&?&?&?).
    all: exists (c :: pre), c0, post, pt, ca; split_done.
    all: intros c' [->|]%elem_of_cons; [|by apply Hpre].
    all: intros (?&?&?&?); congruence.
  - intros (pre&c&post&pattern&cause&->&Hpre&Hp&Hre&->).
    induction pre as [|c0 pre IH]; simpl; [by rewrite Hp, Hre|].
    assert (Hbad : ¬ bad_regex c0) by (apply Hpre; set_solver).
    specialize (IH ltac:(set_solver)).
    destruct (regex_pattern c0) as [pt|] eqn:Hp0;
      [destruct (regexp_Compile pt) as [re|ca] eqn:Hre0|].
    2:{ destruct Hbad. by exists pt, ca. }
    all: by destruct (compile_conditions id (pre ++ c :: post)).
Qed.

Lemma compile_conditions_bad id cs c :
  c ∈ cs → bad_regex c → (compile_conditions id cs).2 ≠ None.
Proof.
  intros Hin (pat&e&Hp&He). induction Hin as [x cs|c x cs _ IH]; simpl; [by rewrite Hp, He|].
  repeat case_match; simpl; try discriminate; simplify_eq/=; eauto.
Qed.

Lemma compile_conditions_noop id cs :
  Forall condition_compiled cs → compile_conditions id cs = (cs, None).
Proof.
  induction 1 as [|c cs Hc _ IH]; simpl; [done|]. unfold condition_compiled in Hc.
  destruct (regex_pattern c) as [pat|]; [|by rewrite IH].
  destruct Hc as (re&->&Hre). rewrite IH. destruct c; simpl in *. by subst.
Qed.

(** [Compile] as one equation on the conditions, for the proofs below. *)
Lemma Compile_unfold p :
  Compile p = (with_conditions p (compile_conditions (p_ID p) (p_Conditions p)).1,
               (compile_conditions (p_ID p) (p_Conditions p)).2).
Proof. unfold Compile. by destruct (compile_conditions _ _). Qed.

Lemma Compile_frame p :
  let p' := (Compile p).1 in
  p_ID p' = p_ID p ∧ p_Description p' = p_Description p ∧
  p_Access p' = p_Access p ∧ p_Target p' = p_Target p.
Proof. by rewrite Compile_unfold. Qed.

Lemma Compile_ok_compiled p : (Compile p).2 = None → policy_compiled (Compile p).1.
Proof. rewrite Compile_unfold. apply compile_conditions_ok. Qed.

(** ** Property *)

(** C30: [Compile] fails exactly when some REGEX condition has a first value
    the engine rejects, and the error names the first such condition's pattern
    and the policy; otherwise every REGEX condition with a value carries the
    expression compiled from that value, and compiling again changes nothing.
    Either way only compiled expressions change: the ID, description, access,
    target and the attribute, operator and values of each condition stay. *)
Theorem Compile_correct p :
  let '(p', err) := Compile p in
  (err = None ↔ ∀ c, c ∈ p_Conditions p → ¬ bad_regex c) ∧
  (∀ e, err = Some e ↔ ∃ pre c post pattern cause,
    p_Conditions p = pre ++ c :: post ∧ (∀ c', c' ∈ pre → ¬ bad_regex c') ∧
    regex_pattern c = Some pattern ∧ regexp_Compile pattern = Err cause ∧
    e = InvalidRegex (p_ID p) pattern cause) ∧
  (err = None → policy_compiled p' ∧ Compile p' = (p', None)) ∧
  (p_ID p' = p_ID p ∧ p_Description p' = p_Description p ∧ p_Access p' = p_Access p ∧
   p_Target p' = p_Target p ∧ Forall2 same_source (p_Conditions p) (p_Conditions p')).
Proof.
  pose proof (Compile_frame p) as Hframe. pose proof (Compile_ok_compiled p) as Hok.
  rewrite Compile_unfold in *. cbn [fst snd] in *. split_and!; try tauto.
  - destruct (compile_conditions (p_ID p) (p_Conditions p)).2 as [e|] eqn:He; split; try done.
    + intros Hno. apply compile_conditions_err in He as (pre&c&post&pt&ca&Heq&_&Hp&Hc&_).
      exfalso. apply (Hno c); [rewrite Heq; set_solver|]. by exists pt, ca.
    + intros _ c Hin Hbad. destruct (compile_conditions_bad (p_ID p) _ _ Hin Hbad). congruence.
  - apply compile_conditions_err.
  - intros Hn. specialize (Hok Hn). split; [done|]. rewrite Compile_unfold.
    revert Hok. generalize (with_conditions p (compile_conditions (p_ID p) (p_Conditions p)).1).
    intros p' Hok. rewrite compile_conditions_noop by exact Hok. by destruct p'.
  - apply compile_conditions_same.
Qed.

End WithRegexp.
