(* ===== verification/LiteralRegexp.v ===== *)
(** A concrete regular-expression engine for evaluation: Go's [regexp] on the
    fragment of ASCII literals with an optional leading '^' and trailing '$'.
    On that fragment matching is substring, prefix, suffix or equality test;
    [Compile] refuses every other pattern.  The theorems of the library do not
    depend on it; the witnesses and examples run on it. *)
From S2P Require Import Prelude GoText Policy.
Open Scope string_scope.
Open Scope nat_scope.
Open Scope list_scope.

Record LiteralRe := mkLiteralRe { lr_start : bool; lr_end : bool; lr_text : string }.

Definition is_meta (c : ascii) : bool := has_byte c "\.+*?()|[]{}^$".

Fixpoint plain (s : string) : bool :=
  match s with
  | EmptyString => true
  | String c s' => negb (is_meta c) && (byte_val c <? 128)%Z && plain s'
  end.

Fixpoint strip_dollar (s : string) : string * bool :=
  match s with
  | EmptyString => (EmptyString, false)
  | String "$" EmptyString => (EmptyString, true)
  | String c s' => let '(t, b) := strip_dollar s' in (String c t, b)
  end.

Definition literal_Compile (pattern : string) : result LiteralRe :=
  let '(s, start) := match pattern with String "^" s => (s, true) | s => (s, false) end in
  let '(text, at_end) := strip_dollar s in
  if plain text then Ok (mkLiteralRe start at_end text) else Err "error parsing regexp".

Fixpoint contains_text (text s : string) : bool :=
  String.prefix text s ||
  match s with EmptyString => false | String _ s' => contains_text text s' end.

Definition literal_MatchString (re : LiteralRe) (s : string) : bool :=
  match lr_start re, lr_end re with
  | true, true => String.eqb (lr_text re) s
  | true, false => String.prefix (lr_text re) s
  | false, true => HasSuffix s (lr_text re)
  | false, false => contains_text (lr_text re) s
  end.

#[export] Instance literal_regexp : RegexpLib := {|
  Regexp := LiteralRe;
  regexp_Compile := literal_Compile;
  MatchString := literal_MatchString
|}.

Example literal_prefix :
  literal_MatchString <$> regexp_Compile "^admin-" = Ok (literal_MatchString (mkLiteralRe true false "admin-")) ∧
  literal_MatchString (mkLiteralRe true false "admin-") "admin-dev" = true ∧
  literal_MatchString (mkLiteralRe true false "admin-") "xadmin-dev" = false ∧
  literal_MatchString (mkLiteralRe false false "in-d") "admin-dev" = true ∧
  literal_MatchString (mkLiteralRe false true "-dev") "admin-dev" = true.
Proof. by vm_compute. Qed.

Example literal_bad : regexp_Compile "(" = Err "error parsing regexp".
Proof. reflexivity. Qed.
