(* ===== verification/Store.v ===== *)
(** internal/store/store.go, read sequentially: the two policy tables and the
    operations on them, one call at a time.  [StoreConc] gives the same
    operations instruction by instruction over shared atomic pointers.

    The specification is a single finite map from policy ID to policy; the
    relation [represents] says how the two tables represent it. *)
From S2P Require Import Prelude Policy.
Open Scope string_scope.
Open Scope nat_scope.
Open Scope list_scope.

Abbreviation PolicyMap := (gmap string Policy).

(** Which of the two atomic pointers an instruction works on. *)
Inductive table := TAllow | TDeny.
#[export] Instance table_eq_dec : EqDecision table.
Proof. solve_decision. Defined.

Definition other (t : table) : table :=
  match t with TAllow => TDeny | TDeny => TAllow end.

Section WithRegexp.
Context `{RE : RegexpLib}.

Record PolicySnapshot := mkSnapshot {
  s_Allow : list Policy;
  s_Deny : list Policy
}.

Record PolicyStore := mkStore {
  st_allow : PolicyMap;
  st_deny : PolicyMap
}.

Definition table_get (t : table) (ps : PolicyStore) : PolicyMap :=
  match t with TAllow => st_allow ps | TDeny => st_deny ps end.

Definition table_set (t : table) (m : PolicyMap) (ps : PolicyStore) : PolicyStore :=
  match t with
  | TAllow => mkStore m (st_deny ps)
  | TDeny => mkStore (st_allow ps) m
  end.

Definition NewPolicyStore : PolicyStore := mkStore ∅ ∅.

Definition Count (ps : PolicyStore) : nat := size (st_allow ps) + size (st_deny ps).

(** The two append loops of [ListActivePolicies], each over its own order. *)
Definition ListActivePolicies (oa od : RangeOrder Policy) (ps : PolicyStore)
    : result PolicySnapshot :=
  let collect (o : RangeOrder Policy) m := foldl (λ acc kv, acc ++ [kv.2]) [] (o m) in
  Ok (mkSnapshot (collect oa (st_allow ps)) (collect od (st_deny ps))).

(** [newMap := make(PolicyMap, ...); maps.Copy(newMap, currentMap)]. *)
Definition maps_Copy (dst src : PolicyMap) : PolicyMap := src ∪ dst.

(** The map [upsertInto] builds from the one it loaded. *)
Definition upsert_map (currentMap : PolicyMap) (p : Policy) : PolicyMap :=
  <[p_ID p := p]> (maps_Copy ∅ currentMap).

(** The map [removeFrom] builds: every entry but [id]. *)
Definition remove_map (o : RangeOrder Policy) (currentMap : PolicyMap) (id : string)
    : PolicyMap :=
  foldl (λ newMap kv, if String.eqb kv.1 id then newMap else <[kv.1 := kv.2]> newMap)
    ∅ (o currentMap).

Definition upsertInto (t : table) (p : Policy) (ps : PolicyStore) : PolicyStore :=
  table_set t (upsert_map (table_get t ps) p) ps.

Definition removeFrom (o : RangeOrder Policy) (t : table) (id : string)
    (ps : PolicyStore) : PolicyStore :=
  match table_get t ps !! id with
  | None => ps
  | Some _ => table_set t (remove_map o (table_get t ps) id) ps
  end.

Definition UpsertPolicy (o : RangeOrder Policy) (p : Policy) (ps : PolicyStore)
    : PolicyStore :=
  if String.eqb (p_Access p) AccessAllow
  then upsertInto TAllow p (removeFrom o TDeny (p_ID p) ps)
  else upsertInto TDeny p (removeFrom o TAllow (p_ID p) ps).

Definition DeletePolicy (oa od : RangeOrder Policy) (id : string) (ps : PolicyStore)
    : PolicyStore :=
  removeFrom od TDeny id (removeFrom oa TAllow id ps).

(** A mutation of the store with the iteration orders its loops happen to
    use, and a whole history of them. *)
Inductive store_op :=
  | OpUpsert (o : RangeOrder Policy) (p : Policy)
  | OpDelete (oa od : RangeOrder Policy) (id : string).

Definition apply_op (ps : PolicyStore) (op : store_op) : PolicyStore :=
  match op with
  | OpUpsert o p => UpsertPolicy o p ps
  | OpDelete oa od id => DeletePolicy oa od id ps
  end.

Definition run_ops (ops : list store_op) (ps : PolicyStore) : PolicyStore :=
  foldl apply_op ps ops.

(** ** The specification: one map from ID to policy *)

Definition spec_op (m : PolicyMap) (op : store_op) : PolicyMap :=
  match op with
  | OpUpsert _ p => <[p_ID p := p]> m
  | OpDelete _ _ id => delete id m
  end.

Definition spec_ops (ops : list store_op) (m : PolicyMap) : PolicyMap :=
  foldl spec_op m ops.

Definition is_allow (p : Policy) : bool := String.eqb (p_Access p) AccessAllow.

(** The table a policy is routed to. *)
Definition route (p : Policy) : table := if is_allow p then TAllow else TDeny.

(** The tables represent [m] when each holds exactly the policies of [m]
    routed to it, and every policy sits under its own ID. *)
Definition represents (ps : PolicyStore) (m : PolicyMap) : Prop :=
  (∀ t id p, table_get t ps !! id = Some p ↔ m !! id = Some p ∧ route p = t) ∧
  (∀ id p, m !! id = Some p → p_ID p = id).

(** ** Lemmas *)

Lemma table_get_set t m ps : table_get t (table_set t m ps) = m.
Proof. by destruct t. Qed.

Lemma table_get_set_ne t t' m ps : t ≠ t' → table_get t (table_set t' m ps) = table_get t ps.
Proof. by destruct t, t'. Qed.

Lemma table_set_get t ps : table_set t (table_get t ps) ps = ps.
Proof. by destruct t, ps. Qed.

Lemma table_get_eq (ps ps' : PolicyStore) :
  (∀ t, table_get t ps = table_get t ps') → ps = ps'.
Proof.
  intros H. destruct ps, ps'. f_equal; [apply (H TAllow)|apply (H TDeny)].
Qed.

Lemma upsert_map_insert m p : upsert_map m p = <[p_ID p := p]> m.
Proof. unfold upsert_map, maps_Copy. by rewrite map_union_empty. Qed.

Lemma remove_loop_union id (l : list (string * Policy)) (acc : PolicyMap) :
  NoDup l.*1 →
  foldl (λ newMap kv, if String.eqb kv.1 id then newMap else <[kv.1 := kv.2]> newMap)
    acc l = delete id (list_to_map l : PolicyMap) ∪ acc.
Proof.
  revert acc. induction l as [|[k v] l IH]; intros acc Hnd; simpl in *.
  - by rewrite delete_empty, map_empty_union.
  - apply NoDup_cons in Hnd as [Hk Hnd]. rewrite IH by done.
    destruct (String.eqb_spec k id) as [->|Hne].
    + by rewrite delete_insert_eq.
    + rewrite delete_insert_ne, <-insert_union_l, insert_union_r; [done| |done].
      rewrite lookup_delete_ne by done. by apply not_elem_of_list_to_map_1.
Qed.

Lemma remove_map_delete (o : RangeOrder Policy) m id : remove_map o m id = delete id m.
Proof.
  unfold remove_map. rewrite remove_loop_union, map_union_empty.
  - f_equal. rewrite <-(list_to_map_to_list m) at 2.
    apply list_to_map_proper; [|apply range_perm].
    rewrite (range_perm o m). apply NoDup_fst_map_to_list.
  - rewrite (range_perm o m). apply NoDup_fst_map_to_list.
Qed.

(** Both operations in terms of one table update. *)
Lemma table_get_upsertInto t t' p ps :
  table_get t (upsertInto t' p ps) =
  if decide (t = t') then <[p_ID p := p]> (table_get t ps) else table_get t ps.
Proof.
  unfold upsertInto. case_decide as Ht; subst.
  - by rewrite table_get_set, upsert_map_insert.
  - by rewrite table_get_set_ne.
Qed.

Lemma table_get_removeFrom o t t' id ps :
  table_get t (removeFrom o t' id ps) =
  if decide (t = t') then delete id (table_get t ps) else table_get t ps.
Proof.
  unfold removeFrom. case_decide as Ht; subst.
  - destruct (table_get t' ps !! id) eqn:Hid.
    + by rewrite table_get_set, remove_map_delete.
    + by rewrite delete_id.
  - destruct (table_get t' ps !! id); [by rewrite table_get_set_ne|done].
Qed.

#[local] Hint Rewrite table_get_upsertInto table_get_removeFrom : bouncer.

Lemma table_get_UpsertPolicy o t p ps :
  table_get t (UpsertPolicy o p ps) =
  if decide (t = route p) then <[p_ID p := p]> (table_get t ps)
  else delete (p_ID p) (table_get t ps).
Proof.
  unfold UpsertPolicy, route, is_allow.
  by destruct (String.eqb _ _), t; autorewrite with bouncer.
Qed.

Lemma table_get_DeletePolicy oa od t id ps :
  table_get t (DeletePolicy oa od id ps) = delete id (table_get t ps).
Proof. unfold DeletePolicy. by destruct t; autorewrite with bouncer. Qed.

Lemma represents_new : represents NewPolicyStore ∅.
Proof.
  split; [|by intros id p; rewrite lookup_empty].
  intros [] id p; simpl; rewrite lookup_empty; naive_solver.
Qed.

Lemma represents_op ps m op :
  represents ps m → represents (apply_op ps op) (spec_op m op).
Proof.
  intros [Hrep Hid]. destruct op as [o p|oa od id]; simpl; split.
  - intros t id q. rewrite table_get_UpsertPolicy. case_decide as Ht; subst.
    + rewrite !lookup_insert. case_decide; [naive_solver|]. by rewrite Hrep.
    + rewrite lookup_delete, lookup_insert. case_decide; [naive_solver|]. by rewrite Hrep.
  - intros id q. rewrite lookup_insert. case_decide; naive_solver.
  - intros t k q. rewrite table_get_DeletePolicy, !lookup_delete.
    case_decide; [naive_solver|]. by rewrite Hrep.
  - intros k q. rewrite lookup_delete. case_decide; naive_solver.
Qed.

Lemma represents_run ops ps m :
  represents ps m → represents (run_ops ops ps) (spec_ops ops m).
Proof.
  revert ps m. induction ops as [|op ops IH]; intros ps m Hrep; simpl; [done|].
  by apply IH, represents_op.
Qed.

(** The represented map is a function of the tables. *)
Lemma represents_lookup ps m id p :
  represents ps m → m !! id = Some p ↔ ∃ t, table_get t ps !! id = Some p.
Proof.
  intros [Hrep _]. split; [|naive_solver]. intros Hm. exists (route p). by apply Hrep.
Qed.

Lemma represents_disjoint ps m : represents ps m → st_allow ps ##ₘ st_deny ps.
Proof.
  intros [Hrep _]. apply map_disjoint_spec. intros id p q Hp Hq.
  apply (Hrep TAllow) in Hp as [? Hp]. apply (Hrep TDeny) in Hq as [? Hq]. congruence.
Qed.

Lemma represents_union ps m : represents ps m → m = st_allow ps ∪ st_deny ps.
Proof.
  intros Hrep. apply map_eq. intros id. apply option_eq. intros p.
  rewrite (represents_lookup ps m id p Hrep), lookup_union_Some
    by eauto using represents_disjoint.
  split; [intros [[] H]; naive_solver|].
  intros [H|H]; [by exists TAllow|by exists TDeny].
Qed.

Lemma represents_size ps m : represents ps m → Count ps = size m.
Proof.
  intros Hrep. rewrite (represents_union ps m Hrep).
  symmetry. apply map_size_disj_union. eauto using represents_disjoint.
Qed.

Lemma ListActivePolicies_values oa od ps :
  ListActivePolicies oa od ps =
  Ok (mkSnapshot (oa (st_allow ps)).*2 (od (st_deny ps)).*2).
Proof. unfold ListActivePolicies. by rewrite !foldl_snoc_map. Qed.

Lemma list_active_elem oa od ps snap :
  ListActivePolicies oa od ps = Ok snap →
  (∀ p, p ∈ s_Allow snap ↔ ∃ id, st_allow ps !! id = Some p) ∧
  (∀ p, p ∈ s_Deny snap ↔ ∃ id, st_deny ps !! id = Some p).
Proof.
  rewrite ListActivePolicies_values. intros [= <-]; simpl.
  split; intros p; apply elem_of_range_values.
Qed.

(** ** Properties *)

(** C8: whatever sequence of upserts and deletes is applied to a fresh store,
    and whatever order the map loops run in, the two tables represent the
    map obtained by inserting and deleting under the policy ID in the same
    sequence: the ALLOW policies of that map are exactly the allow table, all
    others (garbage access modes included) exactly the deny table, [Count] is
    its size, and a snapshot lists each live policy once, on its side. *)
Theorem store_refines_map ops oa od :
  let ps := run_ops ops NewPolicyStore in
  let m := spec_ops ops ∅ in
  represents ps m ∧ Count ps = size m ∧
  ∃ snap, ListActivePolicies oa od ps = Ok snap ∧
    s_Allow snap ++ s_Deny snap ≡ₚ (map_to_list m).*2 ∧
    (∀ p, p ∈ s_Allow snap → p_Access p = AccessAllow) ∧
    (∀ p, p ∈ s_Deny snap → p_Access p ≠ AccessAllow).
Proof.
  intros ps m. assert (Hrep : represents ps m) by apply represents_run, represents_new.
  split; [done|]. split; [by apply represents_size|].
  eexists. split; [apply ListActivePolicies_values|]. simpl. split_and!.
  - rewrite (represents_union _ _ Hrep), map_to_list_disj_union
      by eauto using represents_disjoint.
    by rewrite fmap_app, !range_perm.
  - intros p [id Hp]%elem_of_range_values.
    apply (proj1 Hrep TAllow) in Hp as [_ Hp]. unfold route, is_allow in Hp.
    by destruct (String.eqb_spec (p_Access p) AccessAllow).
  - intros p [id Hp]%elem_of_range_values.
    apply (proj1 Hrep TDeny) in Hp as [_ Hp]. unfold route, is_allow in Hp.
    by destruct (String.eqb_spec (p_Access p) AccessAllow).
Qed.

End WithRegexp.
