(* ===== verification/StoreConc.v ===== *)
(** internal/store/store.go, read concurrently: the two [atomic.Pointer]s, the
    heap of immutable map versions they point to, and any number of
    goroutines running store calls.  A step of a goroutine is one atomic
    action of the code (one [Load], or one allocation followed by its
    [CompareAndSwap]); a schedule is the list of goroutines that step.

    Pointer identity is position in the heap: allocation appends, so a version
    a goroutine still holds is never reused (the garbage collector's
    guarantee), and the [CompareAndSwap] compares positions. *)
From S2P Require Import Prelude Policy Store.
Open Scope string_scope.
Open Scope nat_scope.
Open Scope list_scope.

Section WithRegexp.
Context `{RE : RegexpLib}.

(** ** The shared state *)

Record shared := mkShared {
  sh_heap : list PolicyMap;
  sh_allow : nat;
  sh_deny : nat
}.

Definition load (t : table) (sh : shared) : nat :=
  match t with TAllow => sh_allow sh | TDeny => sh_deny sh end.

Definition deref (sh : shared) (l : nat) : PolicyMap := default ∅ (sh_heap sh !! l).

Definition set_ptr (t : table) (l : nat) (sh : shared) : shared :=
  match t with
  | TAllow => mkShared (sh_heap sh) l (sh_deny sh)
  | TDeny => mkShared (sh_heap sh) (sh_allow sh) l
  end.

(** [newMap := make(...)], filled before it is published. *)
Definition alloc (m : PolicyMap) (sh : shared) : nat * shared :=
  (length (sh_heap sh), mkShared (sh_heap sh ++ [m]) (sh_allow sh) (sh_deny sh)).

(** [target.CompareAndSwap(old, new)]. *)
Definition CompareAndSwap (t : table) (old new : nat) (sh : shared) : bool * shared :=
  if decide (load t sh = old) then (true, set_ptr t new sh) else (false, sh).

Definition initial_shared : shared := mkShared [∅; ∅] 0 1.

(** What the two pointers show at this instant. *)
Definition view (sh : shared) : PolicyStore :=
  mkStore (deref sh (sh_allow sh)) (deref sh (sh_deny sh)).

(** ** Calls and goroutines *)

Inductive instr :=
  | IUpsertInto (t : table) (p : Policy)
  | IRemoveFrom (o : RangeOrder Policy) (t : table) (id : string).

Definition instr_table (i : instr) : table :=
  match i with IUpsertInto t _ => t | IRemoveFrom _ t _ => t end.

Inductive call :=
  | CUpsert (o : RangeOrder Policy) (p : Policy)
  | CDelete (oa od : RangeOrder Policy) (id : string)
  | CRead.

(** The bodies of [UpsertPolicy] and [DeletePolicy]: which table loops they
    run and in which order.  [CRead] stands for [ListActivePolicies] and
    [Count], which share their two loads. *)
Definition code (c : call) : list instr :=
  match c with
  | CUpsert o p =>
    if String.eqb (p_Access p) AccessAllow
    then [IRemoveFrom o TDeny (p_ID p); IUpsertInto TAllow p]
    else [IRemoveFrom o TAllow (p_ID p); IUpsertInto TDeny p]
  | CDelete oa od id => [IRemoveFrom oa TAllow id; IRemoveFrom od TDeny id]
  | CRead => []
  end.

(** The control state of a goroutine: about to load for the first of the
    remaining instructions; between the load and the [CompareAndSwap]; or
    between the two loads of a read. *)
Inductive pc :=
  | PLoad (rest : list instr)
  | PCas (i : instr) (cur : nat) (rest : list instr)
  | PRead (allow : nat).

Record thread := mkThread { th_pc : pc; th_todo : list call }.

(** What a step did: committed an update to a table (a removal that finds no
    entry commits nothing but counts as performed), lost a [CompareAndSwap],
    or completed a read with these two tables. *)
Inductive event :=
  | EvUpsert (t : table) (p : Policy)
  | EvRemove (t : table) (id : string)
  | EvCasFail (t : table)
  | EvRead (ps : PolicyStore).

Definition instr_event (i : instr) : event :=
  match i with IUpsertInto t p => EvUpsert t p | IRemoveFrom _ t id => EvRemove t id end.

(** The map an instruction builds from the version it loaded. *)
Definition new_map (i : instr) (cur : PolicyMap) : PolicyMap :=
  match i with
  | IUpsertInto _ p => upsert_map cur p
  | IRemoveFrom o _ id => remove_map o cur id
  end.

(** One atomic action of a goroutine. *)
Definition thread_step (sh : shared) (th : thread)
    : shared * thread * option event :=
  match th_pc th with
  | PLoad [] =>
    match th_todo th with
    | [] => (sh, th, None)
    | CRead :: todo => (sh, mkThread (PRead (load TAllow sh)) todo, None)
    | c :: todo => (sh, mkThread (PLoad (code c)) todo, None)
    end
  | PLoad (i :: rest) =>
    let cur := load (instr_table i) sh in
    match i with
    | IRemoveFrom _ t id =>
      if decide (deref sh cur !! id = None)
      then (sh, mkThread (PLoad rest) (th_todo th), Some (EvRemove t id))
      else (sh, mkThread (PCas i cur rest) (th_todo th), None)
    | IUpsertInto _ _ => (sh, mkThread (PCas i cur rest) (th_todo th), None)
    end
  | PCas i cur rest =>
    let '(new, sh1) := alloc (new_map i (deref sh cur)) sh in
    let '(swapped, sh2) := CompareAndSwap (instr_table i) cur new sh1 in
    if swapped
    then (sh2, mkThread (PLoad rest) (th_todo th), Some (instr_event i))
    else (sh2, mkThread (PLoad (i :: rest)) (th_todo th), Some (EvCasFail (instr_table i)))
  | PRead a =>
    (sh, mkThread (PLoad []) (th_todo th),
     Some (EvRead (mkStore (deref sh a) (deref sh (load TDeny sh)))))
  end.

Record system := mkSystem { sys_sh : shared; sys_threads : list thread }.

Definition sys_step (sys : system) (n : nat) : system * list (nat * event) :=
  match sys_threads sys !! n with
  | None => (sys, [])
  | Some th =>
    let '(sh, th', ev) := thread_step (sys_sh sys) th in
    (mkSystem sh (<[n := th']> (sys_threads sys)),
     match ev with None => [] | Some ev => [(n, ev)] end)
  end.

(** A schedule runs to a final system and the trace of events, each with the
    goroutine that caused it. *)
Fixpoint run (sched : list nat) (sys : system) : system * list (nat * event) :=
  match sched with
  | [] => (sys, [])
  | n :: sched =>
    let '(sys1, tr1) := sys_step sys n in
    let '(sys2, tr2) := run sched sys1 in
    (sys2, tr1 ++ tr2)
  end.

Definition spawn (calls : list (list call)) : system :=
  mkSystem initial_shared ((λ cs, mkThread (PLoad []) cs) <$> calls).

Definition thread_done (th : thread) : bool :=
  match th with mkThread (PLoad []) [] => true | _ => false end.

(** ** Specification: events as atomic updates of the tables *)

Definition event_effect (ps : PolicyStore) (ev : event) : PolicyStore :=
  match ev with
  | EvUpsert t p => table_set t (<[p_ID p := p]> (table_get t ps)) ps
  | EvRemove t id => table_set t (delete id (table_get t ps)) ps
  | EvCasFail _ | EvRead _ => ps
  end.

Definition effects (tr : list (nat * event)) (ps : PolicyStore) : PolicyStore :=
  foldl (λ ps e, event_effect ps e.2) ps tr.

Definition is_commit (ev : event) : bool :=
  match ev with EvUpsert _ _ | EvRemove _ _ => true | _ => false end.

(** The updates goroutine [n] performed, in order. *)
Definition commits_of (n : nat) (tr : list (nat * event)) : list event :=
  (filter (λ e, e.1 = n ∧ is_commit e.2 = true) tr).*2.

Definition code_events (cs : list call) : list event :=
  instr_event <$> concat (code <$> cs).

(** The updates a goroutine still has to perform. *)
Definition pending (th : thread) : list event :=
  match th_pc th with
  | PLoad rest => instr_event <$> rest
  | PCas i _ rest => instr_event <$> (i :: rest)
  | PRead _ => []
  end ++ code_events (th_todo th).

(** A goroutine that would lose its [CompareAndSwap] if it ran now. *)
Definition stale (sh : shared) (th : thread) : nat :=
  match th_pc th with
  | PCas i cur _ => if decide (load (instr_table i) sh = cur) then 0 else 1
  | _ => 0
  end.

Definition stale_count (sys : system) : nat :=
  sum_list (stale (sys_sh sys) <$> sys_threads sys).

Definition count_events (P : event → bool) (tr : list (nat * event)) : nat :=
  length (filter (λ e, P e.2 = true) tr).

Definition is_fail (ev : event) : bool :=
  match ev with EvCasFail _ => true | _ => false end.

(** Pointers are allocated, those a goroutine holds included. *)
Definition thread_wf (sh : shared) (th : thread) : Prop :=
  match th_pc th with
  | PLoad _ => True
  | PCas _ cur _ => cur < length (sh_heap sh)
  | PRead a => a < length (sh_heap sh)
  end.

Definition shared_wf (sh : shared) : Prop := ∀ t, load t sh < length (sh_heap sh).

Definition system_wf (sys : system) : Prop :=
  shared_wf (sys_sh sys) ∧ Forall (thread_wf (sys_sh sys)) (sys_threads sys).
(** Steps a goroutine needs when no [CompareAndSwap] fails. *)
Definition call_cost (c : call) : nat :=
  match c with CRead => 2 | _ => 1 + 2 * length (code c) end.

Definition work (th : thread) : nat :=
  match th_pc th with
  | PLoad rest => 2 * length rest
  | PCas _ _ rest => 2 * length rest + 1
  | PRead _ => 1
  end + sum_list (call_cost <$> th_todo th).

Definition total_work (sys : system) : nat := sum_list (work <$> sys_threads sys).

(** A schedule that never picks a goroutine with nothing left to do. *)
Fixpoint busy (sched : list nat) (sys : system) : Prop :=
  match sched with
  | [] => True
  | n :: sched =>
    (∃ th, sys_threads sys !! n = Some th ∧ thread_done th = false) ∧
    busy sched (sys_step sys n).1
  end.

(** ** Lemmas: one step *)

Lemma table_get_view t sh : table_get t (view sh) = deref sh (load t sh).
Proof. by destruct t. Qed.

Lemma load_set_ptr t t' l sh :
  load t (set_ptr t' l sh) = if decide (t = t') then l else load t sh.
Proof. by destruct t, t'. Qed.

Lemma heap_set_ptr t l sh : sh_heap (set_ptr t l sh) = sh_heap sh.
Proof. by destruct t. Qed.

Lemma alloc_spec m sh new sh1 :
  alloc m sh = (new, sh1) →
  new = length (sh_heap sh) ∧ sh_heap sh1 = sh_heap sh ++ [m] ∧
  ∀ t, load t sh1 = load t sh.
Proof. intros [= <- <-]. split_and!; [done|done|]. by intros []. Qed.

Lemma deref_grow sh sh' l m :
  sh_heap sh' = sh_heap sh ++ [m] → l < length (sh_heap sh) → deref sh' l = deref sh l.
Proof. intros Hh Hl. unfold deref. by rewrite Hh, lookup_app_l. Qed.

Lemma deref_new sh sh' m :
  sh_heap sh' = sh_heap sh ++ [m] → deref sh' (length (sh_heap sh)) = m.
Proof. intros Hh. unfold deref. by rewrite Hh, list_lookup_middle. Qed.

Lemma new_map_effect i m ps :
  table_get (instr_table i) ps = m →
  event_effect ps (instr_event i) = table_set (instr_table i) (new_map i m) ps.
Proof.
  intros <-. destruct i; simpl; by rewrite ?upsert_map_insert, ?remove_map_delete.
Qed.

(** The steps of a goroutine as a relation, one constructor per kind: nothing
    to do, first load of a read, start of a mutation, [removeFrom] finding no
    entry, a load, a [CompareAndSwap] won, one lost, second load of a read. *)
Inductive tstep (sh : shared) : thread → shared → thread → option event → Prop :=
  | ts_idle : tstep sh (mkThread (PLoad []) []) sh (mkThread (PLoad []) []) None
  | ts_read todo :
    tstep sh (mkThread (PLoad []) (CRead :: todo))
      sh (mkThread (PRead (load TAllow sh)) todo) None
  | ts_call c todo :
    c ≠ CRead →
    tstep sh (mkThread (PLoad []) (c :: todo)) sh (mkThread (PLoad (code c)) todo) None
  | ts_miss o t id rest todo :
    table_get t (view sh) !! id = None →
    tstep sh (mkThread (PLoad (IRemoveFrom o t id :: rest)) todo)
      sh (mkThread (PLoad rest) todo) (Some (EvRemove t id))
  | ts_load i rest todo :
    tstep sh (mkThread (PLoad (i :: rest)) todo)
      sh (mkThread (PCas i (load (instr_table i) sh) rest) todo) None
  | ts_cas i rest todo sh' :
    sh_heap sh' = sh_heap sh ++ [new_map i (table_get (instr_table i) (view sh))] →
    (∀ t, load t sh' = if decide (t = instr_table i) then length (sh_heap sh) else load t sh) →
    tstep sh (mkThread (PCas i (load (instr_table i) sh) rest) todo)
      sh' (mkThread (PLoad rest) todo) (Some (instr_event i))
  | ts_fail i cur rest todo sh' m :
    load (instr_table i) sh ≠ cur →
    sh_heap sh' = sh_heap sh ++ [m] →
    (∀ t, load t sh' = load t sh) →
    tstep sh (mkThread (PCas i cur rest) todo)
      sh' (mkThread (PLoad (i :: rest)) todo) (Some (EvCasFail (instr_table i)))
  | ts_read2 a todo :
    tstep sh (mkThread (PRead a) todo) sh (mkThread (PLoad []) todo)
      (Some (EvRead (mkStore (deref sh a) (table_get TDeny (view sh))))).

Lemma thread_step_tstep sh th sh' th' ev :
  thread_step sh th = (sh', th', ev) → tstep sh th sh' th' ev.
Proof.
  destruct th as [[[|i rest]|i cur rest|a] todo]; unfold thread_step;
    cbn [th_pc th_todo instr_table].
  - destruct todo as [|[]]; intros [= <- <- <-]; by constructor.
  - destruct i as [|o t id]; [intros [= <- <- <-]; apply (ts_load _ (IUpsertInto _ _))|].
    case_decide as Hid; intros [= <- <- <-]; [|apply (ts_load _ (IRemoveFrom _ _ _))].
    constructor. by rewrite table_get_view.
  - destruct (alloc (new_map i (deref sh cur)) sh) as [new sh1] eqn:Halloc.
    apply alloc_spec in Halloc as (->&Hheap&Hload).
    unfold CompareAndSwap. rewrite Hload. case_decide as Hcur; intros [= <- <- <-].
    + subst cur. rewrite <-table_get_view in Hheap.
      apply ts_cas; [by rewrite heap_set_ptr|].
      intros t. by rewrite load_set_ptr, Hload.
    + by eapply ts_fail.
  - intros [= <- <- <-]. apply ts_read2.
Qed.

Lemma tstep_wf sh th sh' th' ev :
  tstep sh th sh' th' ev → shared_wf sh → thread_wf sh th →
  shared_wf sh' ∧ thread_wf sh' th' ∧ sh_heap sh `prefix_of` sh_heap sh'.
Proof.
  intros [] Hwf Hth; split_and!; try done; try apply Hwf; try by eexists.
  all: intros u; match goal with H : ∀ t, load t _ = _ |- _ => rewrite H end;
    match goal with H : sh_heap _ = _ |- _ => rewrite H end;
    rewrite length_app; simpl; specialize (Hwf u); try case_decide; lia.
Qed.

Lemma thread_wf_grow sh sh' th :
  sh_heap sh `prefix_of` sh_heap sh' → thread_wf sh th → thread_wf sh' th.
Proof.
  intros Hpre%prefix_length. unfold thread_wf. destruct (th_pc th); lia.
Qed.

Lemma deref_prefix sh sh' l :
  sh_heap sh `prefix_of` sh_heap sh' → l < length (sh_heap sh) → deref sh' l = deref sh l.
Proof. intros [k Hk] Hl. unfold deref. by rewrite Hk, lookup_app_l. Qed.

(** The linearisation points: what the pointers show changes by exactly the
    effect of the event, in one step. *)
Lemma tstep_view sh th sh' th' ev :
  tstep sh th sh' th' ev → shared_wf sh →
  view sh' = match ev with None => view sh | Some ev => event_effect (view sh) ev end.
Proof.
  intros Hst Hwf. destruct Hst as [| | | | |i rest todo sh' Hheap Hload|
    i cur rest todo sh' m Hne Hheap Hload|]; try done.
  - simpl. rewrite delete_id by done. by rewrite table_set_get.
  - rewrite (new_map_effect i _ _ eq_refl). apply table_get_eq. intros t.
    rewrite table_get_view, Hload. case_decide as Ht; subst.
    + rewrite table_get_set. by eapply deref_new.
    + rewrite table_get_set_ne, table_get_view by done.
      eapply deref_grow; [done|apply Hwf].
  - apply table_get_eq. intros t. simpl. rewrite !table_get_view, Hload.
    eapply deref_grow; [done|apply Hwf].
Qed.

(** A step performs the next pending update, or none. *)
Lemma tstep_pending sh th sh' th' ev :
  tstep sh th sh' th' ev →
  pending th = match ev with
               | Some e => if is_commit e then [e] else []
               | None => [] end ++ pending th'.
Proof.
  intros []; unfold pending, code_events; simpl; try done.
  - by rewrite fmap_app.
  - by destruct i.
Qed.

(** A retry is paid for by an interfering commit: the goroutine that lost the
    swap was stale, and is not any more. *)
Lemma tstep_stale sh th sh' th' ev :
  tstep sh th sh' th' ev →
  stale sh' th' = 0 ∧
  stale sh th = match ev with Some e => if is_fail e then 1 else 0 | None => 0 end.
Proof.
  intros []; unfold stale; simpl; split; try done.
  all: try (by rewrite decide_True by done).
  all: try (by rewrite decide_False by done).
  rewrite decide_True by done. by destruct i.
Qed.

(** Only a commit can make another goroutine stale. *)
Lemma tstep_stale_other sh th sh' th' ev th2 :
  tstep sh th sh' th' ev →
  stale sh' th2 ≤ 1 ∧
  (match ev with Some e => is_commit e = false | None => True end →
   stale sh' th2 = stale sh th2).
Proof.
  intros Hst. split.
  - unfold stale. destruct (th_pc th2); [lia| |lia]. case_decide; lia.
  - destruct Hst; simpl; try done; intros Hc.
    + by destruct i.
    + unfold stale. destruct (th_pc th2); try done.
      by match goal with H : ∀ t, load t _ = _ |- _ => rewrite H end.
Qed.

Lemma tstep_work sh th sh' th' ev :
  tstep sh th sh' th' ev → thread_done th = false →
  S (work th') ≤ work th + match ev with Some e => if is_fail e then 2 else 0 | None => 0 end.
Proof.
  intros [| |c todo Hc| | |i| |] Hd; unfold work; csimpl; try done; try lia.
  destruct c; csimpl; try done; lia.
Qed.

End WithRegexp.
