(* ===== verification/StoreConcProps.v ===== *)
(** What the concurrent store guarantees: linearisability of its table
    updates, bounded retries, no lost updates, the single-writer discipline
    of the comment on [UpsertPolicy], and exactly how consistent the snapshot
    of [ListActivePolicies] is. *)
From S2P Require Import Prelude Policy LiteralRegexp Store StoreConc.
Open Scope string_scope.
Open Scope nat_scope.
Open Scope list_scope.

Section WithRegexp.
Context `{RE : RegexpLib}.

(** ** Lemmas: one step of the system *)

Lemma sys_step_inv sys n sys' tr :
  sys_step sys n = (sys', tr) →
  (sys_threads sys !! n = None ∧ sys' = sys ∧ tr = []) ∨
  ∃ th th' sh' ev,
    sys_threads sys !! n = Some th ∧ tstep (sys_sh sys) th sh' th' ev ∧
    sys' = mkSystem sh' (<[n := th']> (sys_threads sys)) ∧
    tr = match ev with None => [] | Some ev => [(n, ev)] end.
Proof.
  unfold sys_step. destruct (sys_threads sys !! n) as [th|] eqn:Hth.
  - destruct (thread_step _ _) as [[sh' th'] ev] eqn:Hst. intros [= <- <-].
    right. exists th, th', sh', ev. split_and!; try done. by apply thread_step_tstep.
  - intros [= <- <-]. by left.
Qed.

Lemma sys_step_wf sys n sys' tr :
  sys_step sys n = (sys', tr) → system_wf sys →
  system_wf sys' ∧ length (sys_threads sys') = length (sys_threads sys) ∧
  sh_heap (sys_sh sys) `prefix_of` sh_heap (sys_sh sys').
Proof.
  intros Hst [Hwf Hths]. apply sys_step_inv in Hst
    as [(_&->&_)|(th&th'&sh'&ev&Hth&Hst&->&_)]; [by split_and!|]; simpl.
  rewrite Forall_lookup in Hths.
  destruct (tstep_wf _ _ _ _ _ Hst Hwf (Hths _ _ Hth)) as (Hwf'&Hth'&Hpre).
  split_and!; [split; [done|]|by rewrite length_insert|done].
  apply Forall_insert; [|done]. apply Forall_lookup. intros k tk Htk.
  eapply thread_wf_grow; eauto.
Qed.

Lemma sys_step_view sys n sys' tr :
  sys_step sys n = (sys', tr) → system_wf sys →
  view (sys_sh sys') = effects tr (view (sys_sh sys)).
Proof.
  intros Hst [Hwf _]. apply sys_step_inv in Hst
    as [(_&->&->)|(th&th'&sh'&ev&Hth&Hst&->&->)]; [done|]; simpl.
  rewrite (tstep_view _ _ _ _ _ Hst Hwf). by destruct ev.
Qed.

Lemma commits_of_app n tr1 tr2 : commits_of n (tr1 ++ tr2) = commits_of n tr1 ++ commits_of n tr2.
Proof. unfold commits_of. by rewrite filter_app, fmap_app. Qed.

Lemma commits_of_one n n' ev :
  commits_of n [(n', ev)] = if decide (n' = n) then if is_commit ev then [ev] else [] else [].
Proof.
  unfold commits_of. rewrite filter_cons, filter_nil. simpl.
  repeat case_decide; destruct (is_commit ev); naive_solver.
Qed.

Lemma sys_step_pending sys n sys' tr k th :
  sys_step sys n = (sys', tr) → sys_threads sys !! k = Some th →
  ∃ th', sys_threads sys' !! k = Some th' ∧ pending th = commits_of k tr ++ pending th'.
Proof.
  intros Hst Hk. apply sys_step_inv in Hst
    as [(_&->&->)|(th1&th'&sh'&ev&Hth&Hst&->&->)]; [by exists th|]; simpl.
  destruct (decide (n = k)) as [->|Hne].
  - simplify_eq. exists th'. rewrite list_lookup_insert_eq by eauto using lookup_lt_Some.
    split; [done|]. rewrite (tstep_pending _ _ _ _ _ Hst).
    destruct ev as [ev|]; [|done]. rewrite commits_of_one, decide_True by done.
    by destruct (is_commit ev).
  - exists th. rewrite list_lookup_insert_ne by done. split; [done|].
    destruct ev as [ev|]; [|done]. by rewrite commits_of_one, decide_False.
Qed.

(** ** Lemmas: whole runs *)

Lemma run_cons n sched sys :
  run (n :: sched) sys =
  ((run sched (sys_step sys n).1).1, (sys_step sys n).2 ++ (run sched (sys_step sys n).1).2).
Proof. simpl. destruct (sys_step sys n) as [s1 t1]; simpl. by destruct (run sched s1). Qed.

Lemma run_app s1 s2 sys :
  run (s1 ++ s2) sys =
  ((run s2 (run s1 sys).1).1, (run s1 sys).2 ++ (run s2 (run s1 sys).1).2).
Proof.
  revert sys. induction s1 as [|n s1 IH]; intros sys.
  - simpl. by destruct (run s2 sys).
  - cbn [app]. rewrite !run_cons, IH. simpl. by rewrite app_assoc.
Qed.

Lemma run_wf sched sys :
  system_wf sys →
  system_wf (run sched sys).1 ∧
  length (sys_threads (run sched sys).1) = length (sys_threads sys) ∧
  sh_heap (sys_sh sys) `prefix_of` sh_heap (sys_sh (run sched sys).1).
Proof.
  revert sys. induction sched as [|n sched IH]; intros sys Hwf; [done|].
  rewrite run_cons; simpl. destruct (sys_step sys n) as [sys1 tr1] eqn:Hst; simpl.
  destruct (sys_step_wf _ _ _ _ Hst Hwf) as (Hwf1&Hlen&Hpre).
  destruct (IH _ Hwf1) as (?&Hlen'&Hpre'). split_and!; [done|congruence|].
  by etrans.
Qed.

Lemma effects_app tr1 tr2 ps : effects (tr1 ++ tr2) ps = effects tr2 (effects tr1 ps).
Proof. unfold effects. by rewrite foldl_app. Qed.

Lemma run_view sched sys :
  system_wf sys →
  view (sys_sh (run sched sys).1) = effects (run sched sys).2 (view (sys_sh sys)).
Proof.
  revert sys. induction sched as [|n sched IH]; intros sys Hwf; [done|].
  rewrite run_cons; simpl. destruct (sys_step sys n) as [sys1 tr1] eqn:Hst; simpl.
  rewrite IH by (by eapply sys_step_wf). rewrite effects_app.
  by rewrite (sys_step_view _ _ _ _ Hst Hwf).
Qed.

Lemma run_pending sched sys k th :
  sys_threads sys !! k = Some th →
  ∃ th', sys_threads (run sched sys).1 !! k = Some th' ∧
    pending th = commits_of k (run sched sys).2 ++ pending th'.
Proof.
  revert sys th. induction sched as [|n sched IH]; intros sys th Hk; [by exists th|].
  rewrite run_cons; simpl. destruct (sys_step sys n) as [sys1 tr1] eqn:Hst; simpl.
  destruct (sys_step_pending _ _ _ _ _ _ Hst Hk) as (th1&Hk1&->).
  destruct (IH _ _ Hk1) as (th'&Hk'&->). exists th'. split; [done|].
  by rewrite commits_of_app, app_assoc.
Qed.

Lemma spawn_wf calls : system_wf (spawn calls).
Proof.
  split; simpl; [intros []; simpl; lia|].
  apply Forall_fmap, Forall_true. by intros.
Qed.

Lemma spawn_lookup calls k :
  sys_threads (spawn calls) !! k = mkThread (PLoad []) <$> calls !! k.
Proof. apply list_lookup_fmap. Qed.

Lemma spawn_length calls : length (sys_threads (spawn calls)) = length calls.
Proof. apply length_fmap. Qed.

Lemma spawn_pending cs : pending (mkThread (PLoad []) cs) = code_events cs.
Proof. done. Qed.

Lemma spawn_view calls : view (sys_sh (spawn calls)) = NewPolicyStore.
Proof. done. Qed.

Lemma pending_done th : thread_done th = true → pending th = [].
Proof. destruct th as [[[]| |] []]; done. Qed.

(** C20: linearisability.  Under every schedule of any goroutines, the two
    tables change only by whole [upsertInto] and [removeFrom] updates, one at
    a time (the trace replayed on the sequential tables gives the final
    tables), and each goroutine performs precisely the updates of its calls,
    in program order: nothing is skipped, repeated or reordered by the
    [CompareAndSwap] loops. *)
Theorem store_linearizable calls sched :
  let '(sys', tr) := run sched (spawn calls) in
  view (sys_sh sys') = effects tr NewPolicyStore ∧
  ∀ k cs, calls !! k = Some cs →
    ∃ th', sys_threads sys' !! k = Some th' ∧
      code_events cs = commits_of k tr ++ pending th' ∧
      (thread_done th' = true → commits_of k tr = code_events cs).
Proof.
  destruct (run sched (spawn calls)) as [sys' tr] eqn:Hrun. split.
  - pose proof (run_view sched (spawn calls) (spawn_wf _)) as Hv.
    by rewrite Hrun, spawn_view in Hv.
  - intros k cs Hk.
    destruct (run_pending sched (spawn calls) k (mkThread (PLoad []) cs)) as (th'&Hth'&Hp).
    { by rewrite spawn_lookup, Hk. }
    rewrite Hrun in Hth', Hp. rewrite spawn_pending in Hp; simpl in *.
    exists th'. split_and!; [done..|].
    intros Hd. by rewrite Hp, pending_done, app_nil_r.
Qed.

(** ** Retries and termination *)

Definition total_pending (sys : system) : nat :=
  sum_list ((λ th, length (pending th)) <$> sys_threads sys).

Lemma count_events_app P tr1 tr2 :
  count_events P (tr1 ++ tr2) = count_events P tr1 + count_events P tr2.
Proof. unfold count_events. by rewrite filter_app, length_app. Qed.

Lemma count_events_one P (n : nat) ev :
  count_events P [(n, ev)] = if P ev then 1 else 0.
Proof.
  unfold count_events. rewrite filter_cons, filter_nil. simpl.
  case_decide; destruct (P ev); naive_solver.
Qed.

Lemma sys_step_stale sys n sys' tr :
  sys_step sys n = (sys', tr) →
  count_events is_fail tr + stale_count sys' ≤
  stale_count sys + (length (sys_threads sys) - 1) * count_events is_commit tr.
Proof.
  intros Hst. apply sys_step_inv in Hst
    as [(_&->&->)|(th&th'&sh'&ev&Hth&Hst&->&->)]; [unfold count_events; simpl; lia|].
  destruct (tstep_stale _ _ _ _ _ Hst) as [Hnew Hold].
  unfold stale_count; simpl.
  destruct (match ev with Some e => is_commit e | None => false end) eqn:Hc.
  - destruct ev as [ev|]; [|done]. rewrite !count_events_one, Hc.
    assert (is_fail ev = false) as -> by (by destruct ev).
    assert (sum_list (stale sh' <$> <[n:=th']> (sys_threads sys)) ≤
            length (stale sh' <$> <[n:=th']> (sys_threads sys)) - 1) as Hle.
    { apply (sum_list_one_zero _ n).
      - intros x (th2&->&_)%list_elem_of_fmap. by eapply tstep_stale_other.
      - rewrite list_lookup_fmap, list_lookup_insert_eq by eauto using lookup_lt_Some.
        simpl. by f_equal. }
    rewrite length_fmap, length_insert in Hle. lia.
  - assert (stale sh' <$> sys_threads sys = stale (sys_sh sys) <$> sys_threads sys) as Hsame.
    { apply list_fmap_ext. intros k th2 _. eapply tstep_stale_other; [done|].
      by destruct ev. }
    pose proof (sum_fmap_insert (stale sh') _ n th th' Hth) as Hs.
    rewrite Hsame, Hnew in Hs. destruct (tstep_stale_other _ _ _ _ _ th Hst) as [_ Hsth].
    rewrite Hsth, Hold in Hs by (by destruct ev).
    destruct ev as [ev|]; rewrite ?count_events_one; simpl in *; [|unfold count_events; simpl; lia].
    rewrite Hc. destruct (is_fail ev); lia.
Qed.

Lemma sys_step_totals sys n sys' tr :
  sys_step sys n = (sys', tr) →
  count_events is_commit tr + total_pending sys' = total_pending sys ∧
  ((∃ th, sys_threads sys !! n = Some th ∧ thread_done th = false) →
   S (total_work sys') ≤ total_work sys + 2 * count_events is_fail tr).
Proof.
  intros Hst. apply sys_step_inv in Hst
    as [(Hn&->&->)|(th&th'&sh'&ev&Hth&Hst&->&->)].
  { unfold count_events; simpl. split; [lia|]. rewrite Hn. by intros (?&?&?). }
  unfold total_pending, total_work; simpl. split.
  - pose proof (sum_fmap_insert (λ th, length (pending th)) _ n th th' Hth) as Hs.
    cbv beta in Hs. rewrite (tstep_pending _ _ _ _ _ Hst), length_app in Hs.
    destruct ev as [ev|]; rewrite ?count_events_one; simpl in *; [|unfold count_events; simpl; lia].
    destruct (is_commit ev); simpl in *; lia.
  - intros (th0&Hth0&Hd). simplify_eq.
    pose proof (sum_fmap_insert work _ n th th' Hth) as Hs.
    pose proof (tstep_work _ _ _ _ _ Hst Hd) as Hw.
    destruct ev as [ev|]; rewrite ?count_events_one; simpl in *; [|unfold count_events; simpl; lia].
    destruct (is_fail ev); simpl in *; lia.
Qed.

Lemma run_totals sched sys :
  let '(sys', tr) := run sched sys in
  count_events is_fail tr + stale_count sys' ≤
    stale_count sys + (length (sys_threads sys) - 1) * count_events is_commit tr ∧
  count_events is_commit tr + total_pending sys' = total_pending sys ∧
  (busy sched sys →
   length sched + total_work sys' ≤ total_work sys + 2 * count_events is_fail tr).
Proof.
  revert sys. induction sched as [|n sched IH]; intros sys.
  { simpl. unfold count_events; simpl. split_and!; try intros _; lia. }
  rewrite run_cons; simpl. destruct (sys_step sys n) as [sys1 tr1] eqn:Hst; simpl.
  specialize (IH sys1). destruct (run sched sys1) as [sys2 tr2]; simpl.
  rewrite !count_events_app.
  pose proof (sys_step_stale _ _ _ _ Hst) as H1.
  destruct (sys_step_totals _ _ _ _ Hst) as [H2 H3].
  assert (length (sys_threads sys1) = length (sys_threads sys)) as Hlen.
  { apply sys_step_inv in Hst as [(_&->&_)|(?&?&?&?&_&_&->&_)]; [done|].
    simpl. by rewrite length_insert. }
  rewrite Hlen in IH. destruct IH as (I1&I2&I3). split_and!; [nia|lia|].
  intros [Hb Hbusy]. specialize (H3 Hb). specialize (I3 Hbusy). lia.
Qed.

(** The number of calls of a whole system. *)
Definition total_calls (calls : list (list call)) : nat := sum_list (length <$> calls).

Lemma code_events_length cs : length (code_events cs) ≤ 2 * length cs.
Proof.
  unfold code_events. rewrite length_fmap.
  induction cs as [|c cs IH]; csimpl; [lia|]. rewrite length_app.
  destruct c; csimpl; [case_match; csimpl| |]; lia.
Qed.

Lemma todo_work cs : work (mkThread (PLoad []) cs) ≤ 5 * length cs.
Proof.
  unfold work; simpl. induction cs as [|c cs IH]; csimpl; [lia|].
  destruct c; csimpl; [case_match; csimpl| |]; lia.
Qed.

Lemma spawn_totals calls :
  stale_count (spawn calls) = 0 ∧
  total_pending (spawn calls) ≤ 2 * total_calls calls ∧
  total_work (spawn calls) ≤ 5 * total_calls calls.
Proof.
  unfold stale_count, total_pending, total_work, total_calls, spawn; simpl.
  induction calls as [|cs calls (I1&I2&I3)]; [simpl; lia|]. csimpl.
  pose proof (code_events_length cs). pose proof (todo_work cs).
  unfold pending in *; simpl in *. unfold stale at 1; simpl.
  split_and!; [exact I1|lia|lia].
Qed.

(** C27: lock-freedom and termination.  A [CompareAndSwap] is lost only to
    another goroutine's committed update: over any run the number of retries
    is at most (goroutines - 1) times the number of committed updates, so the
    retry loops of [upsertInto] and [removeFrom] terminate: a schedule that
    only picks goroutines with work left is no longer than a bound given by
    the calls alone.  A single goroutine never retries. *)
Theorem store_lock_free calls sched :
  busy sched (spawn calls) →
  let '(_, tr) := run sched (spawn calls) in
  count_events is_fail tr ≤ (length calls - 1) * count_events is_commit tr ∧
  count_events is_commit tr ≤ 2 * total_calls calls ∧
  length sched ≤ 5 * total_calls calls + 4 * ((length calls - 1) * total_calls calls).
Proof.
  intros Hb. pose proof (run_totals sched (spawn calls)) as H.
  destruct (run sched (spawn calls)) as [sys' tr]. destruct H as (H1&H2&H3).
  specialize (H3 Hb). destruct (spawn_totals calls) as (S1&S2&S3).
  rewrite spawn_length in H1. split_and!; nia.
Qed.

(** ** Updates of one policy ID *)

Definition event_id (ev : event) : option string :=
  match ev with
  | EvUpsert _ p => Some (p_ID p)
  | EvRemove _ id => Some id
  | EvCasFail _ | EvRead _ => None
  end.

Definition call_id (c : call) : option string :=
  match c with
  | CUpsert _ p => Some (p_ID p)
  | CDelete _ _ id => Some id
  | CRead => None
  end.

(** The updates of [id], in the order they took effect. *)
Definition events_on (id : string) (evs : list event) : list event :=
  filter (λ ev, event_id ev = Some id) evs.

Lemma event_effect_other t ps ev id :
  event_id ev ≠ Some id → table_get t (event_effect ps ev) !! id = table_get t ps !! id.
Proof.
  destruct ev as [t' p|t' i|t'|ps']; simpl; intros Hne; try done;
    (destruct (decide (t = t')) as [->|];
     [rewrite table_get_set|by rewrite table_get_set_ne]).
  - apply lookup_insert_ne. congruence.
  - apply lookup_delete_ne. congruence.
Qed.

Lemma event_effect_same ps ps' ev id :
  (∀ t, table_get t ps !! id = table_get t ps' !! id) →
  ∀ t, table_get t (event_effect ps ev) !! id = table_get t (event_effect ps' ev) !! id.
Proof.
  intros H t. destruct ev as [t' p|t' i|t'|q]; simpl; try apply H;
    (destruct (decide (t = t')) as [->|];
     [rewrite !table_get_set|by rewrite !table_get_set_ne]).
  - rewrite !lookup_insert. by case_decide.
  - rewrite !lookup_delete. by case_decide.
Qed.

(** What the tables hold under [id] depends only on the updates of [id]. *)
Lemma effects_events_on id evs ps ps' t :
  (∀ t, table_get t ps !! id = table_get t ps' !! id) →
  table_get t (foldl event_effect ps evs) !! id =
  table_get t (foldl event_effect ps' (events_on id evs)) !! id.
Proof.
  revert ps ps'. induction evs as [|ev evs IH]; intros ps ps' H; [apply H|].
  unfold events_on. rewrite filter_cons. simpl. case_decide as Hid; simpl.
  - apply IH. by apply event_effect_same.
  - apply IH. intros t'. by rewrite event_effect_other.
Qed.

Lemma effects_fold tr ps : effects tr ps = foldl event_effect ps tr.*2.
Proof.
  unfold effects. revert ps. induction tr as [|e tr IH]; intros ps; simpl; [done|]. apply IH.
Qed.

(** If only goroutine [k] updates [id], the updates of [id] in the trace are
    those among the updates of [k]. *)
Lemma events_on_single id k (tr : list (nat * event)) :
  (∀ n ev, (n, ev) ∈ tr → event_id ev = Some id → n = k) →
  events_on id tr.*2 = events_on id (commits_of k tr).
Proof.
  unfold events_on, commits_of.
  induction tr as [|[n ev] tr IH]; intros H; [done|]. csimpl.
  rewrite !filter_cons; simpl. specialize (IH ltac:(set_solver)).
  destruct (decide (event_id ev = Some id)) as [Hid|Hid].
  - assert (n = k) by (eapply H; [apply list_elem_of_here|done]).
    rewrite decide_True by (split; [done|by destruct ev]). csimpl.
    rewrite filter_cons, decide_True by done. by f_equal.
  - rewrite IH. case_decide; [|done]. csimpl. by rewrite filter_cons, decide_False.
Qed.

Lemma elem_of_commits n ev tr : (n, ev) ∈ tr → is_commit ev = true → ev ∈ commits_of n tr.
Proof.
  intros Hin Hc. unfold commits_of. apply list_elem_of_fmap. exists (n, ev).
  split; [done|]. by apply list_elem_of_filter.
Qed.

Lemma code_events_call cs ev :
  ev ∈ code_events cs → ∃ c, c ∈ cs ∧ event_id ev = call_id c.
Proof.
  unfold code_events. intros (i&->&Hi)%list_elem_of_fmap.
  apply list_elem_of_In, in_concat in Hi as (l&Hl&Hil).
  apply list_elem_of_In, list_elem_of_fmap in Hl as (c&->&Hc).
  apply list_elem_of_In in Hil. exists c. split; [done|].
  destruct c; simpl in Hil; [case_match| |]; set_solver.
Qed.

Lemma code_events_app cs1 cs2 : code_events (cs1 ++ cs2) = code_events cs1 ++ code_events cs2.
Proof. unfold code_events. by rewrite fmap_app, concat_app, fmap_app. Qed.

Lemma events_on_nil id evs : (∀ ev, ev ∈ evs → event_id ev ≠ Some id) → events_on id evs = [].
Proof.
  unfold events_on. induction evs as [|ev evs IH]; intros H; [done|].
  rewrite filter_cons, decide_False by set_solver. apply IH. set_solver.
Qed.

Lemma run_event_thread sched sys n ev :
  (n, ev) ∈ (run sched sys).2 → n < length (sys_threads sys).
Proof.
  revert sys. induction sched as [|m sched IH]; intros sys; [simpl; set_solver|].
  rewrite run_cons; simpl. destruct (sys_step sys m) as [s1 t1] eqn:Hst; simpl.
  apply sys_step_inv in Hst as [(_&->&->)|(th&th'&sh'&ev'&Hth&_&->&->)].
  - simpl. apply IH.
  - intros [Hin|Hin]%elem_of_app.
    + destruct ev' as [ev'|]; [|set_solver].
      apply list_elem_of_singleton in Hin as [= -> ->]. eauto using lookup_lt_Some.
    + specialize (IH _ Hin). simpl in IH. by rewrite length_insert in IH.
Qed.

(** The calls that do not name [id] contribute no update of [id]. *)
Definition avoids (id : string) (cs : list call) : Prop := ∀ c, c ∈ cs → call_id c ≠ Some id.

Lemma avoids_events id cs : avoids id cs → events_on id (code_events cs) = [].
Proof.
  intros H. apply events_on_nil. intros ev (c&Hc&->)%code_events_call. by apply H.
Qed.

Lemma code_events_upsert id o p pre post :
  id = p_ID p → avoids id pre → avoids id post →
  events_on id (code_events (pre ++ CUpsert o p :: post)) =
  [EvRemove (other (route p)) id; EvUpsert (route p) p].
Proof.
  intros -> Hpre Hpost. change (CUpsert o p :: post) with ([CUpsert o p] ++ post).
  rewrite !code_events_app. unfold events_on. rewrite !filter_app.
  fold (events_on (p_ID p) (code_events pre)) (events_on (p_ID p) (code_events post)).
  rewrite !avoids_events by done. rewrite app_nil_r. simpl.
  unfold code_events, route, is_allow; simpl.
  case_match; simpl; rewrite !filter_cons, !decide_True by done; done.
Qed.

(** C21: no lost updates.  However many goroutines run and however they
    interleave, once they are all done, a policy that a single call upserted
    under an ID no other call names is in the table of its access mode and
    not in the other. *)
Theorem store_no_lost_update calls sched k pre o p post :
  let sys' := (run sched (spawn calls)).1 in
  calls !! k = Some (pre ++ CUpsert o p :: post) →
  avoids (p_ID p) pre → avoids (p_ID p) post →
  (∀ k' cs, k' ≠ k → calls !! k' = Some cs → avoids (p_ID p) cs) →
  Forall (λ th, thread_done th = true) (sys_threads sys') →
  table_get (route p) (view (sys_sh sys')) !! p_ID p = Some p ∧
  table_get (other (route p)) (view (sys_sh sys')) !! p_ID p = None.
Proof.
  intros sys' Hk Hpre Hpost Hother Hdone.
  assert (Hcommits : ∀ n cs, calls !! n = Some cs →
    commits_of n (run sched (spawn calls)).2 = code_events cs).
  { intros n cs Hn.
    destruct (run_pending sched (spawn calls) n (mkThread (PLoad []) cs)) as (th'&Hth'&Hp).
    { by rewrite spawn_lookup, Hn. }
    rewrite spawn_pending in Hp. rewrite Hp, pending_done; [by rewrite app_nil_r|].
    exact (Forall_lookup_1 _ _ _ _ Hdone Hth'). }
  assert (Hev : ∀ t, table_get t (view (sys_sh sys')) !! p_ID p =
    table_get t (foldl event_effect NewPolicyStore
      [EvRemove (other (route p)) (p_ID p); EvUpsert (route p) p]) !! p_ID p).
  { intros t. unfold sys'. rewrite run_view, spawn_view, effects_fold by apply spawn_wf.
    rewrite (effects_events_on (p_ID p) _ _ NewPolicyStore) by done.
    rewrite (events_on_single _ k).
    - by rewrite (Hcommits _ _ Hk), (code_events_upsert (p_ID p)).
    - intros n ev Hin Hid. destruct (decide (n = k)) as [|Hne]; [done|exfalso].
      pose proof (run_event_thread _ _ _ _ Hin) as Hn. rewrite spawn_length in Hn.
      apply lookup_lt_is_Some_2 in Hn as [cs Hn].
      assert (Hc : is_commit ev = true) by (by destruct ev).
      pose proof (elem_of_commits _ _ _ Hin Hc) as Hin'. rewrite (Hcommits _ _ Hn) in Hin'.
      apply code_events_call in Hin' as (c&Hc'&Heq).
      eapply Hother; [done|done|done|congruence]. }
  rewrite !Hev. simpl. destruct (route p); simpl; by simplify_map_eq.
Qed.

(** ** Reads *)

Lemma run_snoc s n sys :
  run (s ++ [n]) sys =
  ((sys_step (run s sys).1 n).1, (run s sys).2 ++ (sys_step (run s sys).1 n).2).
Proof. rewrite run_app, run_cons. simpl. by rewrite app_nil_r. Qed.

(** Each event of a trace comes from a step of its goroutine in a state that
    a prefix of the schedule reaches. *)
Lemma run_event_split sched sys n ev :
  (n, ev) ∈ (run sched sys).2 →
  ∃ s1 s2 th th' sh', sched = s1 ++ n :: s2 ∧
    sys_threads (run s1 sys).1 !! n = Some th ∧
    tstep (sys_sh (run s1 sys).1) th sh' th' (Some ev).
Proof.
  induction sched as [|m sched IH] using rev_ind; [simpl; set_solver|].
  rewrite run_snoc; simpl. intros [Hin|Hin]%elem_of_app.
  - destruct (IH Hin) as (s1&s2&th&th'&sh'&->&H). exists s1, (s2 ++ [m]), th, th', sh'.
    split; [by rewrite <-app_assoc|done].
  - destruct (sys_step (run sched sys).1 m) as [sys2 tr2] eqn:Hst; simpl in *.
    apply sys_step_inv in Hst as [(_&_&->)|(th&th'&sh'&ev'&Hth&Hst&_&->)]; [set_solver|].
    destruct ev' as [ev'|]; [|set_solver].
    apply list_elem_of_singleton in Hin as [= -> ->].
    by exists sched, [], th, th', sh'.
Qed.

(** A goroutine between its two loads still holds the allow table of an
    earlier instant. *)
Lemma reading_origin calls s k a todo :
  sys_threads (run s (spawn calls)).1 !! k = Some (mkThread (PRead a) todo) →
  ∃ s1 s2, s = s1 ++ s2 ∧
    deref (sys_sh (run s (spawn calls)).1) a =
    st_allow (view (sys_sh (run s1 (spawn calls)).1)).
Proof.
  revert a todo. induction s as [|n s IH] using rev_ind; intros a todo Hk.
  { simpl in Hk. rewrite list_lookup_fmap in Hk. by destruct (calls !! k). }
  rewrite run_snoc in *; simpl in *.
  destruct (run_wf s (spawn calls) (spawn_wf _)) as (Hwf&_&_).
  set (sys1 := (run s (spawn calls)).1) in *.
  destruct (sys_step sys1 n) as [sys2 tr2] eqn:Hst; simpl in *.
  destruct (sys_step_wf _ _ _ _ Hst Hwf) as (_&_&Hpre).
  assert (Hkeep : sys_threads sys1 !! k = Some (mkThread (PRead a) todo) →
    ∃ s1 s2, s ++ [n] = s1 ++ s2 ∧
      deref (sys_sh sys2) a = st_allow (view (sys_sh (run s1 (spawn calls)).1))).
  { intros Hk1. destruct (IH _ _ Hk1) as (s1&s2&->&Hd). exists s1, (s2 ++ [n]).
    split; [by rewrite app_assoc|]. etrans; [|exact Hd]. eapply deref_prefix; [done|].
    destruct Hwf as [_ Hths]. exact (Forall_lookup_1 _ _ _ _ Hths Hk1). }
  pose proof (sys_step_inv _ _ _ _ Hst) as
    [(_&->&_)|(th&th'&sh'&ev&Hth&Hts&->&_)]; [by apply Hkeep|]; simpl in *.
  destruct (decide (n = k)) as [->|Hne];
    [|rewrite list_lookup_insert_ne in Hk by done; by apply Hkeep].
  rewrite list_lookup_insert_eq in Hk by eauto using lookup_lt_Some.
  inversion Hts; simplify_eq. exists s, [k]. by split.
Qed.

Lemma effects_quiet tr ps : Forall (λ e, is_commit e.2 = false) tr → effects tr ps = ps.
Proof. intros Hall. induction Hall as [|[n ev] tr Hc _ IH]; [done|]. by destruct ev. Qed.

(** What a completed read saw, shared with the theorems on decisions. *)
Lemma read_instants calls sched k ps :
  (k, EvRead ps) ∈ (run sched (spawn calls)).2 →
  ∃ s1 s2 s3, sched = s1 ++ s2 ++ s3 ∧
    st_allow ps = st_allow (view (sys_sh (run s1 (spawn calls)).1)) ∧
    st_deny ps = st_deny (view (sys_sh (run (s1 ++ s2) (spawn calls)).1)).
Proof.
  intros Hin. apply run_event_split in Hin as (s&s3&th&th'&sh'&->&Hth&Hst).
  assert (∃ a todo, th = mkThread (PRead a) todo ∧
    ps = mkStore (deref (sys_sh (run s (spawn calls)).1) a)
           (table_get TDeny (view (sys_sh (run s (spawn calls)).1)))) as (a&todo&->&->).
  { inversion Hst; simplify_eq; [by destruct i|]. eauto. }
  apply reading_origin in Hth as (s1&s2&->&Hd).
  exists s1, s2, (k :: s3). split_and!; [by rewrite <-app_assoc|done|done].
Qed.

(** What a snapshot is.  In every execution, a completed read saw the
    allow table of one instant of the run and the deny table of the same or a
    later instant, never anything else; with no update committed in between,
    that is the store of one instant. *)
Theorem snapshot_two_instants calls sched k ps :
  (k, EvRead ps) ∈ (run sched (spawn calls)).2 →
  ∃ s1 s2 s3, sched = s1 ++ s2 ++ s3 ∧
    st_allow ps = st_allow (view (sys_sh (run s1 (spawn calls)).1)) ∧
    st_deny ps = st_deny (view (sys_sh (run (s1 ++ s2) (spawn calls)).1)) ∧
    (Forall (λ e, is_commit e.2 = false) (run s2 (run s1 (spawn calls)).1).2 →
     ps = view (sys_sh (run s1 (spawn calls)).1)).
Proof.
  intros Hin. apply read_instants in Hin as (s1&s2&s3&->&Ha&Hd).
  exists s1, s2, s3. split_and!; [done..|]. intros Hq.
  destruct (run_wf s1 (spawn calls) (spawn_wf _)) as (Hwf&_).
  rewrite run_app in Hd. cbn [fst] in Hd. rewrite run_view, effects_quiet in Hd by done.
  by destruct ps, (view (sys_sh (run s1 (spawn calls)).1)); simplify_eq/=.
Qed.

(** ** The single-writer discipline *)

(** The "one ID, one entry" invariant of the comment on [UpsertPolicy], with
    the routing of access modes. *)
Definition tables_ok (ps : PolicyStore) : Prop :=
  st_allow ps ##ₘ st_deny ps ∧
  ∀ t id p, table_get t ps !! id = Some p → p_ID p = id ∧ route p = t.

Lemma tables_ok_new : tables_ok NewPolicyStore.
Proof.
  split; [apply map_disjoint_empty_l|].
  intros [] id p; simpl; by rewrite lookup_empty.
Qed.

Lemma tables_ok_disjoint ps t id p :
  tables_ok ps → table_get t ps !! id = Some p → table_get (other t) ps !! id = None.
Proof.
  intros [Hd _] Hp. destruct t; simpl in *;
    eapply map_disjoint_Some_l; eauto using map_disjoint_sym.
Qed.

Lemma tables_ok_intro ps :
  (∀ t id p, table_get t ps !! id = Some p →
    p_ID p = id ∧ route p = t ∧ table_get (other t) ps !! id = None) → tables_ok ps.
Proof.
  intros H. split; [|naive_solver]. apply map_disjoint_spec. intros id p q Hp Hq.
  apply (H TAllow) in Hp as (_&_&Hn). simpl in Hn. congruence.
Qed.

Lemma tables_ok_remove ps t id : tables_ok ps → tables_ok (event_effect ps (EvRemove t id)).
Proof.
  intros Hok. apply tables_ok_intro. intros u k p Hp.
  assert (Hp' : table_get u ps !! k = Some p).
  { simpl in Hp. destruct (decide (u = t)) as [->|].
    - rewrite table_get_set, lookup_delete in Hp. by case_decide.
    - by rewrite table_get_set_ne in Hp. }
  destruct (proj2 Hok _ _ _ Hp'). split_and!; [done|done|].
  pose proof (tables_ok_disjoint _ _ _ _ Hok Hp') as Hn. simpl.
  destruct (decide (other u = t)) as [<-|]; [|by rewrite table_get_set_ne].
  rewrite table_get_set, lookup_delete, Hn. by case_decide.
Qed.

Lemma tables_ok_upsert ps p :
  tables_ok ps → table_get (other (route p)) ps !! p_ID p = None →
  tables_ok (event_effect ps (EvUpsert (route p) p)).
Proof.
  intros Hok Hnone. apply tables_ok_intro. intros u k q Hq. simpl in *.
  destruct (decide (u = route p)) as [->|Hne].
  - rewrite table_get_set, lookup_insert in Hq. rewrite table_get_set_ne by (by destruct (route p)).
    case_decide as Hk; subst; simplify_eq; [done|].
    destruct (proj2 Hok _ _ _ Hq). split_and!; [done|done|].
    by eapply tables_ok_disjoint.
  - rewrite table_get_set_ne in Hq by done.
    assert (u = other (route p)) as -> by (by destruct u, (route p)).
    destruct (proj2 Hok _ _ _ Hq). split_and!; [done|done|].
    assert (other (other (route p)) = route p) as -> by (by destruct (route p)).
    rewrite table_get_set, lookup_insert_ne by (intros Heq; rewrite Heq in Hnone; congruence).
    pose proof (tables_ok_disjoint _ _ _ _ Hok Hq) as Hd.
    by destruct (route p).
Qed.

Lemma tables_ok_prefix cs n ps :
  tables_ok ps → tables_ok (foldl event_effect ps (take n (code_events cs))).
Proof.
  revert n ps. induction cs as [|c cs IH]; intros n ps Hok; [by destruct n|].
  change (c :: cs) with ([c] ++ cs). rewrite code_events_app.
  destruct c as [o p|oa od id|].
  - replace (code_events [CUpsert o p]) with
      [EvRemove (other (route p)) (p_ID p); EvUpsert (route p) p]
      by (unfold code_events, route, is_allow; simpl; by case_match).
    destruct n as [|[|n]]; cbn [take app foldl]; [done|by apply tables_ok_remove|].
    apply IH, tables_ok_upsert; [by apply tables_ok_remove|].
    simpl. by rewrite table_get_set, lookup_delete_eq.
  - change (code_events [CDelete oa od id]) with [EvRemove TAllow id; EvRemove TDeny id].
    destruct n as [|[|n]]; cbn [take app foldl]; [done|by apply tables_ok_remove|].
    by apply IH; do 2 apply tables_ok_remove.
  - by apply IH.
Qed.

Definition is_writer (cs : list call) : bool :=
  existsb (λ c, match c with CRead => false | _ => true end) cs.

Lemma reader_events cs : is_writer cs = false → code_events cs = [].
Proof.
  unfold is_writer, code_events. induction cs as [|[] cs IH]; csimpl; done.
Qed.

(** When one goroutine performs all the updates, the effects of a trace are
    those of that goroutine's updates. *)
Lemma effects_single_writer k tr ps :
  (∀ n ev, (n, ev) ∈ tr → is_commit ev = true → n = k) →
  effects tr ps = foldl event_effect ps (commits_of k tr).
Proof.
  revert ps. induction tr as [|[n ev] tr IH]; intros ps H; [done|].
  change ((n, ev) :: tr) with ([(n, ev)] ++ tr).
  rewrite effects_app, commits_of_app, foldl_app, IH by set_solver.
  f_equal. rewrite commits_of_one. simpl. destruct (is_commit ev) eqn:Hc.
  - by rewrite decide_True by (eapply H; [apply list_elem_of_here|done]).
  - by destruct ev; case_decide.
Qed.

(** C28: with at most one goroutine mutating the store, and any number
    reading, at every instant of every execution no policy ID is in both
    tables, every entry sits under its own ID, and only policies whose access
    is exactly ALLOW are in the allow table. *)
Theorem single_writer_tables_ok calls sched :
  (∀ k k' cs cs', calls !! k = Some cs → calls !! k' = Some cs' →
    is_writer cs = true → is_writer cs' = true → k = k') →
  tables_ok (view (sys_sh (run sched (spawn calls)).1)).
Proof.
  intros Hsingle. rewrite run_view, spawn_view by apply spawn_wf.
  set (tr := (run sched (spawn calls)).2).
  assert (Hsrc : ∀ n ev, (n, ev) ∈ tr → is_commit ev = true →
    ∃ cs, calls !! n = Some cs ∧ is_writer cs = true ∧ commits_of n tr `prefix_of` code_events cs).
  { intros n ev Hin Hc. pose proof (run_event_thread _ _ _ _ Hin) as Hn.
    rewrite spawn_length in Hn. apply lookup_lt_is_Some_2 in Hn as [cs Hn].
    destruct (run_pending sched (spawn calls) n (mkThread (PLoad []) cs)) as (th'&_&Hp).
    { by rewrite spawn_lookup, Hn. }
    rewrite spawn_pending in Hp. exists cs. split_and!; [done| |by eexists].
    pose proof (elem_of_commits _ _ _ Hin Hc) as Hin'.
    destruct (is_writer cs) eqn:Hw; [done|]. fold tr in Hp.
    rewrite (reader_events _ Hw) in Hp. symmetry in Hp. apply app_nil in Hp as [Hp _].
    rewrite Hp in Hin'. set_solver. }
  destruct (decide (Forall (λ e, is_commit e.2 = false) tr)) as [Hall|Hsome].
  - assert (effects tr NewPolicyStore = NewPolicyStore) as ->; [|apply tables_ok_new].
    by apply effects_quiet.
  - apply not_Forall_Exists in Hsome; [|solve_decision].
    apply Exists_exists in Hsome as ([k ev]&Hin&Hc); simpl in Hc.
    apply not_false_iff_true in Hc.
    destruct (Hsrc _ _ Hin Hc) as (cs&Hk&Hw&[rest Hpre]).
    rewrite (effects_single_writer k).
    + pose proof (tables_ok_prefix cs (length (commits_of k tr)) _ tables_ok_new) as Hok.
      by rewrite Hpre, take_app_length in Hok.
    + intros n ev' Hin' Hc'. destruct (Hsrc _ _ Hin' Hc') as (cs'&Hn&Hw'&_).
      eapply Hsingle; eauto.
Qed.

End WithRegexp.

(** ** Witnesses, on the literal regular-expression engine *)

Definition plain_policy (id access : string) : Policy :=
  mkPolicy id "" access (mkTarget "document" "read") [].

(** Two writers and a reader; the first writer loses a [CompareAndSwap] to the
    second and retries. *)
Definition sample_calls : list (list call) :=
  [[CUpsert canonical_order (plain_policy "A" "ALLOW")];
   [CUpsert canonical_order (plain_policy "B" "ALLOW")];
   [CRead]].
Definition sample_schedule : list nat := [0; 0; 0; 1; 1; 1; 1; 0; 2; 0; 0; 2].

Fixpoint busy_b `{RegexpLib} (sched : list nat) (sys : system) : bool :=
  match sched with
  | [] => true
  | n :: sched =>
    match sys_threads sys !! n with
    | Some th => negb (thread_done th) && busy_b sched (sys_step sys n).1
    | None => false
    end
  end.

Lemma busy_b_busy `{RegexpLib} sched sys : busy_b sched sys = true → busy sched sys.
Proof.
  revert sys. induction sched as [|n sched IH]; intros sys; simpl; [done|].
  destruct (sys_threads sys !! n) as [th|]; [|done]. intros Hb. bool_simp. eauto.
Qed.

Lemma store_lock_free_witness :
  busy sample_schedule (spawn sample_calls) ∧
  count_events is_fail (run sample_schedule (spawn sample_calls)).2 = 1 ∧
  count_events is_fail (run sample_schedule (spawn sample_calls)).2 ≤
    2 * count_events is_commit (run sample_schedule (spawn sample_calls)).2.
Proof.
  assert (busy sample_schedule (spawn sample_calls)) as Hb.
  { apply busy_b_busy. vm_compute. reflexivity. }
  split; [exact Hb|]. split; [vm_compute; reflexivity|].
  pose proof (store_lock_free sample_calls sample_schedule Hb) as H.
  destruct (run sample_schedule (spawn sample_calls)) as [sys tr]. exact (proj1 H).
Defined.

Lemma avoids_nil id : avoids id [].
Proof. by intros c Hc%elem_of_nil. Qed.

Lemma store_no_lost_update_witness :
  table_get TAllow (view (sys_sh (run sample_schedule (spawn sample_calls)).1)) !! "A" =
    Some (plain_policy "A" "ALLOW").
Proof.
  refine (proj1 (store_no_lost_update sample_calls sample_schedule 0 [] canonical_order
    (plain_policy "A" "ALLOW") [] eq_refl (avoids_nil _) (avoids_nil _) _ _)).
  - intros [|[|[|k]]] cs Hk Hcs; try done; simplify_eq/=;
      intros c Hc; set_unfold in Hc; destruct Hc as [->|[]]; discriminate.
  - apply (bool_decide_unpack _). vm_compute. exact I.
Defined.

Lemma snapshot_two_instants_witness :
  ∃ ps, (2, EvRead ps) ∈ (run sample_schedule (spawn sample_calls)).2 ∧
  ∃ s1 s2 s3, sample_schedule = s1 ++ s2 ++ s3 ∧
    st_allow ps = st_allow (view (sys_sh (run s1 (spawn sample_calls)).1)) ∧
    st_deny ps = st_deny (view (sys_sh (run (s1 ++ s2) (spawn sample_calls)).1)) ∧
    (Forall (λ e, is_commit e.2 = false) (run s2 (run s1 (spawn sample_calls)).1).2 →
     ps = view (sys_sh (run s1 (spawn sample_calls)).1)).
Proof.
  assert ((2, EvRead (mkStore {["B" := plain_policy "B" "ALLOW"]} ∅)) ∈
    (run sample_schedule (spawn sample_calls)).2) as Hin.
  { apply list_elem_of_lookup. exists 5. vm_compute. reflexivity. }
  eexists. split; [exact Hin|].
  exact (snapshot_two_instants sample_calls sample_schedule 2 _ Hin).
Defined.

Definition one_writer_calls : list (list call) :=
  [[CUpsert canonical_order (plain_policy "A" "ALLOW");
    CUpsert canonical_order (plain_policy "A" "DENY")]; [CRead]; [CRead]].

Lemma single_writer_tables_ok_witness :
  tables_ok (view (sys_sh (run [0; 0; 1; 0; 0; 2; 0; 0; 0; 1; 0; 2; 0]
    (spawn one_writer_calls)).1)).
Proof.
  apply (single_writer_tables_ok one_writer_calls).
  intros [|[|[|k]]] [|[|[|k']]] cs cs' H1 H2 H3 H4; simplify_eq/=; reflexivity.
Defined.
