(* ===== verification/Fairness.v ===== *)
(** Fair schedules of the store's goroutines: every goroutine finishes its
    calls, whatever the others do. *)
From S2P Require Import Prelude Policy LiteralRegexp Store StoreConc StoreConcProps.
Open Scope string_scope.
Open Scope nat_scope.
Open Scope list_scope.

Section WithRegexp.
Context `{RE : RegexpLib}.

(** Goroutine [k] has work left. *)
Definition unfinished (sys : system) (k : nat) : Prop :=
  ∃ th, sys_threads sys !! k = Some th ∧ thread_done th = false.

#[export] Instance unfinished_dec sys k : Decision (unfinished sys k).
Proof.
  refine (match sys_threads sys !! k as r return sys_threads sys !! k = r → _ with
    | Some th => λ H, match thread_done th as d return thread_done th = d → _ with
        | false => λ Hd, left _ | true => λ Hd, right _ end eq_refl
    | None => λ H, right _ end eq_refl).
  - intros (th'&?&?). congruence.
  - by exists th.
  - intros (th'&?&?). congruence.
Defined.

Definition all_done (sys : system) : Prop := Forall (λ th, thread_done th = true) (sys_threads sys).

(** An infinite schedule, and its first [n] steps. *)
Definition first_steps (sched : nat → nat) (n : nat) : list nat := sched <$> seq 0 n.

Definition at_step (sched : nat → nat) (sys : system) (n : nat) : system :=
  (run (first_steps sched n) sys).1.

(** A goroutine with work left is scheduled again. *)
Definition fair (sched : nat → nat) (sys : system) : Prop :=
  ∀ n k, unfinished (at_step sched sys n) k → ∃ m, n ≤ m ∧ sched m = k.

(** ** Lemmas *)

Lemma sys_step_idle sys k : ¬ unfinished sys k → sys_step sys k = (sys, []).
Proof.
  intros Hk. unfold sys_step. destruct sys as [sh ths]; simpl in *.
  destruct (ths !! k) as [th|] eqn:Hth; [|done].
  destruct (thread_done th) eqn:Hd; [|by destruct Hk; exists th].
  destruct th as [[[|]| |] [|]]; try done. simpl. by rewrite list_insert_id.
Qed.

Lemma unfinished_or_done sys : all_done sys ∨ ∃ k, unfinished sys k.
Proof.
  unfold all_done. destruct (decide (Forall (λ th, thread_done th = true) (sys_threads sys))) as [|Hn];
    [by left|right].
  apply not_Forall_Exists, Exists_exists in Hn as (th&Hin&Hd); [|intros ?; apply _].
  apply list_elem_of_lookup in Hin as [k Hk]. exists k, th. split; [done|]. by apply not_true_is_false.
Qed.

Lemma all_done_idle sys k : all_done sys → ¬ unfinished sys k.
Proof. intros Hall (th&Hth&Hd). apply (Forall_lookup_1 _ _ _ _ Hall) in Hth. congruence. Qed.

Section Schedule.
Context (sched : nat → nat) (sys : system).

Lemma first_steps_S n : first_steps sched (S n) = first_steps sched n ++ [sched n].
Proof. unfold first_steps. by rewrite seq_S, fmap_app. Qed.

Lemma at_step_S n : at_step sched sys (S n) = (sys_step (at_step sched sys n) (sched n)).1.
Proof.
  unfold at_step. rewrite first_steps_S, run_app, run_cons. reflexivity.
Qed.

Lemma at_step_done n m : n ≤ m → all_done (at_step sched sys n) → at_step sched sys m = at_step sched sys n.
Proof.
  intros Hm Hd. induction Hm as [|m Hm IH]; [done|].
  rewrite at_step_S, IH, sys_step_idle; [done|by apply all_done_idle].
Qed.

(** The next step that does something, if a goroutine with work is scheduled. *)
Lemma next_busy_step d n :
  unfinished (at_step sched sys n) (sched (n + d)) →
  ∃ j, at_step sched sys j = at_step sched sys n ∧ n ≤ j ∧ unfinished (at_step sched sys j) (sched j).
Proof.
  revert n. induction d as [|d IH]; intros n Hu.
  { exists n. rewrite Nat.add_0_r in Hu. done. }
  destruct (decide (unfinished (at_step sched sys n) (sched n))) as [Hn|Hn]; [by exists n|].
  assert (at_step sched sys (S n) = at_step sched sys n) as Heq by (by rewrite at_step_S, sys_step_idle).
  destruct (IH (S n)) as (j&Hj&Hle&Hu'); [by rewrite Heq, Nat.add_succ_comm|].
  exists j. split_and!; [by rewrite Hj|lia|done].
Qed.

(** With a bound on the steps that can still do something, all work is done
    at some step. *)
Lemma fair_finishes b n :
  fair sched sys → (∀ s, busy s (at_step sched sys n) → length s ≤ b) →
  ∃ m, n ≤ m ∧ all_done (at_step sched sys m).
Proof.
  intros Hfair. revert n. induction b as [|b IH]; intros n Hb;
    (destruct (unfinished_or_done (at_step sched sys n)) as [|[k Hk]]; [by exists n|]).
  { specialize (Hb [k] (conj Hk I)). simpl in Hb. lia. }
  destruct (Hfair n k Hk) as (m&Hm&<-).
  destruct (next_busy_step (m - n) n) as (j&Hj&Hle&Hu); [by replace (n + (m - n)) with m by lia|].
  destruct (IH (S j)) as (m'&Hm'&Hd).
  - intros s Hs. rewrite at_step_S in Hs. rewrite <-Hj in Hb. specialize (Hb (sched j :: s) (conj Hu Hs)).
    simpl in Hb. lia.
  - exists m'. split; [lia|done].
Qed.

End Schedule.

(** The bound of [store_lock_free]. *)
Lemma busy_bound calls sched :
  busy sched (spawn calls) →
  length sched ≤ 5 * total_calls calls + 4 * ((length calls - 1) * total_calls calls).
Proof.
  intros Hb. pose proof (run_totals sched (spawn calls)) as H.
  destruct (run sched (spawn calls)) as [sys' tr]. destruct H as (H1&H2&H3).
  specialize (H3 Hb). destruct (spawn_totals calls) as (S1&S2&S3).
  rewrite spawn_length in H1. nia.
Qed.

(** Under a fair schedule there is a step from which every goroutine has
    finished. *)
Lemma fair_all_done calls sched :
  fair sched (spawn calls) → ∃ N, ∀ n, N ≤ n → all_done (at_step sched (spawn calls) n).
Proof.
  intros Hf. destruct (fair_finishes sched (spawn calls) _ 0 Hf (busy_bound calls)) as (N&_&HN).
  exists N. intros n Hn. by rewrite (at_step_done _ _ N n Hn HN).
Qed.

(** Taking turns is fair. *)
Lemma round_robin_fair calls : fair (λ n, n mod length calls) (spawn calls).
Proof.
  intros n k (th&Hth&_). apply lookup_lt_Some in Hth. unfold at_step in Hth.
  assert (∀ s sys, length (sys_threads (run s sys).1) = length (sys_threads sys)) as Hlen.
  { intros s. induction s as [|i s IH]; intros sys; [done|]. rewrite run_cons. simpl. rewrite IH.
    destruct (sys_step sys i) as [sys' tr] eqn:Hst.
    apply sys_step_inv in Hst as [(_&->&_)|(?&?&?&?&_&_&->&_)]; [done|]. simpl. by rewrite length_insert. }
  rewrite Hlen, spawn_length in Hth. exists (n * length calls + k). split; [nia|].
  rewrite Nat.add_comm, Nat.Div0.mod_add. by apply Nat.mod_small.
Qed.

End WithRegexp.
