(* ===== verification/Operators.v ===== *)
(** internal/engine/operators.go: [EvaluateCondition] and the six condition
    operators, with a declarative meaning of a condition and the proof that
    the code decides it. *)
From S2P Require Import Prelude GoText GoNetip Policy.
Open Scope string_scope.
Open Scope nat_scope.
Open Scope list_scope.

(** internal/engine/engine.go: the request.  Attribute maps may be nil. *)
Record EvaluationRequest := mkRequest {
  r_PrincipalID : string;
  r_PrincipalAttributes : GoMap (list string);
  r_ResourceType : string;
  r_ResourceID : string;
  r_ResourceAttributes : GoMap (list string);
  r_Action : string;
  r_EnvironmentAttributes : GoMap (list string)
}.

(** ** The operators *)

(** [counts[value]++] and [counts[value]--] on a map[string]int. *)
Definition count_of (counts : gmap string Z) (v : string) : Z := default 0%Z (counts !! v).

Fixpoint equals_loop (counts : gmap string Z) (requestValues : list string) : bool :=
  match requestValues with
  | [] => true
  | value :: rest =>
    let counts := <[value := (count_of counts value - 1)%Z]> counts in
    if (count_of counts value <? 0)%Z then false else equals_loop counts rest
  end.

Definition evalEquals (condValues requestValues : list string) : bool :=
  if negb (length condValues =? length requestValues) then false
  else
    let counts := foldl (λ counts value, <[value := (count_of counts value + 1)%Z]> counts)
      ∅ condValues in
    equals_loop counts requestValues.

(** [reqMap[val] = true] for every request value, and [reqMap[value]]. *)
Definition set_of (vals : list string) : gmap string bool :=
  foldl (λ m val, <[val := true]> m) ∅ vals.

Definition set_has (m : gmap string bool) (v : string) : bool := default false (m !! v).

Definition evalContainsAll (condValues requestValues : list string) : bool :=
  if length condValues =? 0 then true
  else if length requestValues <? length condValues then false
  else
    let reqMap := set_of requestValues in
    forallb (set_has reqMap) condValues.

Definition evalContainsAny (condValues requestValues : list string) : bool :=
  if length condValues =? 0 then true
  else if length requestValues =? 0 then false
  else
    let reqMap := set_of requestValues in
    existsb (set_has reqMap) condValues.

Definition evalInCIDR (condValues requestValues : list string) : bool :=
  match condValues, requestValues with
  | _ :: _, [requestValue] =>
    match ParseAddr requestValue with
    | None => false
    | Some reqIP =>
      existsb (λ cidrStr,
        match ParsePrefix cidrStr with
        | None => false
        | Some prefix => Contains prefix reqIP
        end) condValues
    end
  | _, _ => false
  end.

Definition evalBetween (condValue requestValue : list string) : bool :=
  match condValue, requestValue with
  | [low; high], [v] =>
    match Atoi low with
    | None => false
    | Some lowVal =>
      match Atoi high with
      | None => false
      | Some highVal =>
        match Atoi v with
        | None => false
        | Some val => (lowVal <=? val)%Z && (val <=? highVal)%Z
        end
      end
    end
  | _, _ => false
  end.

Section WithRegexp.
Context `{RE : RegexpLib}.

Definition evalRegex (compiledRegex : option Regexp) (requestValues : list string) : bool :=
  match compiledRegex with
  | None => false
  | Some re =>
    if length requestValues =? 0 then false else existsb (MatchString re) requestValues
  end.

(** The routing on the attribute's prefix: [None] is the default case. *)
Definition attribute_map (prefix : string) (req : EvaluationRequest)
    : option (GoMap (list string)) :=
  if String.eqb prefix "principal" then Some (r_PrincipalAttributes req)
  else if String.eqb prefix "resource" then Some (r_ResourceAttributes req)
  else if String.eqb prefix "environment" then Some (r_EnvironmentAttributes req)
  else None.

(** The switch on the operator; an unknown operator never holds. *)
Definition eval_op (cond : Condition) (vals : list string) : bool :=
  let op := c_Operator cond in
  if String.eqb op "EQUALS" then evalEquals (c_Value cond) vals
  else if String.eqb op "CONTAINS_ALL" then evalContainsAll (c_Value cond) vals
  else if String.eqb op "CONTAINS_ANY" then evalContainsAny (c_Value cond) vals
  else if String.eqb op "IN_CIDR" then evalInCIDR (c_Value cond) vals
  else if String.eqb op "BETWEEN" then evalBetween (c_Value cond) vals
  else if String.eqb op "REGEX" then evalRegex (c_CompiledRegex cond) vals
  else false.

Definition EvaluateCondition (cond : Condition) (req : EvaluationRequest) : bool :=
  match Cut (c_Attribute cond) "." with
  | None => false
  | Some (prefix, key) =>
    match attribute_map prefix req with
    | None => false
    | Some attrs =>
      match map_index attrs key with
      | None => false
      | Some requestValues => eval_op cond requestValues
      end
    end
  end.

(** ** What a condition means *)

(** [ip] lies in the network written [cidr]: same family, no zone, and equal
    above the host bits. *)
Definition in_network (cidr : string) (ip : Addr) : Prop :=
  ∃ p, ParsePrefix cidr = Some p ∧ BitLen ip = BitLen (pfx_ip p) ∧ hasZone ip = false ∧
    let host := (BitLen ip - pfx_bits p)%Z in
    (addr_val ip / 2 ^ host = addr_val (pfx_ip p) / 2 ^ host)%Z.

(** The meaning of each operator on the condition and the request's values. *)
Inductive op_holds (cond : Condition) (vals : list string) : Prop :=
  | op_equals :
    c_Operator cond = "EQUALS" → c_Value cond ≡ₚ vals → op_holds cond vals
  | op_contains_all :
    c_Operator cond = "CONTAINS_ALL" →
    c_Value cond = [] ∨
      (length (c_Value cond) ≤ length vals ∧ ∀ v, v ∈ c_Value cond → v ∈ vals) →
    op_holds cond vals
  | op_contains_any :
    c_Operator cond = "CONTAINS_ANY" →
    c_Value cond = [] ∨ (∃ v, v ∈ c_Value cond ∧ v ∈ vals) → op_holds cond vals
  | op_in_cidr s ip cidr :
    c_Operator cond = "IN_CIDR" → vals = [s] → ParseAddr s = Some ip →
    cidr ∈ c_Value cond → in_network cidr ip → op_holds cond vals
  | op_between low high s l h n :
    c_Operator cond = "BETWEEN" → c_Value cond = [low; high] → vals = [s] →
    Atoi low = Some l → Atoi high = Some h → Atoi s = Some n →
    (l ≤ n ≤ h)%Z → op_holds cond vals
  | op_regex re s :
    c_Operator cond = "REGEX" → c_CompiledRegex cond = Some re →
    s ∈ vals → MatchString re s = true → op_holds cond vals.

(** A condition holds when its attribute is [category.key] with one of the
    three categories, the request carries that attribute, and the operator
    holds on its values. *)
Definition condition_holds (cond : Condition) (req : EvaluationRequest) : Prop :=
  ∃ prefix key attrs vals,
    c_Attribute cond = (prefix +:+ String "." key)%string ∧ has_byte "." prefix = false ∧
    attribute_map prefix req = Some attrs ∧ map_index attrs key = Some vals ∧
    op_holds cond vals.

End WithRegexp.

(** ** Lemmas *)

(** *** EQUALS: the frequency map counts occurrences *)

Definition counts_list (m : gmap string Z) (l : list string) : Prop :=
  ∀ v, count_of m v = Z.of_nat (length (filter (λ x, x = v) l)).

Lemma counts_list_nil : counts_list ∅ [].
Proof. done. Qed.

Lemma counts_list_perm m l l' : l ≡ₚ l' → counts_list m l → counts_list m l'.
Proof. intros Hp H v. by rewrite H, Hp. Qed.

Lemma counts_list_update m l v d :
  counts_list m l →
  ∀ x, count_of (<[v := (count_of m v + d)%Z]> m) x =
    (Z.of_nat (length (filter (λ y, y = x) l)) + if decide (v = x) then d else 0)%Z.
Proof.
  intros H x. unfold count_of at 1. rewrite lookup_insert. case_decide; subst; simpl.
  - by rewrite H.
  - rewrite Z.add_0_r. apply H.
Qed.

Lemma counts_list_cons m l v :
  counts_list m l → counts_list (<[v := (count_of m v + 1)%Z]> m) (v :: l).
Proof.
  intros H x. rewrite (counts_list_update m l) by done. rewrite filter_cons.
  repeat case_decide; simpl; try done; lia.
Qed.

Lemma counts_list_foldl l m acc :
  counts_list m acc →
  counts_list (foldl (λ counts value, <[value := (count_of counts value + 1)%Z]> counts) m l)
    (rev l ++ acc).
Proof.
  revert m acc. induction l as [|v l IH]; intros m acc H; simpl; [done|].
  rewrite <-app_assoc. apply (IH _ (v :: acc)). by apply counts_list_cons.
Qed.

Lemma equals_loop_submseteq r m l :
  counts_list m l → equals_loop m r = true ↔ r ⊆+ l.
Proof.
  revert m l. induction r as [|v r IH]; intros m l H; simpl.
  { split; [intros _; apply submseteq_nil_l|done]. }
  pose proof (counts_list_update m l v (-1) H) as Hu.
  change (count_of m v - 1)%Z with (count_of m v + -1)%Z.
  rewrite (Hu v), decide_True by done.
  destruct (decide (v ∈ l)) as [Hv|Hv].
  - apply elem_of_Permutation in Hv as [l' Hl].
    assert (Hm : counts_list (<[v := (count_of m v + -1)%Z]> m) l').
    { intros x. rewrite Hu, Hl, filter_cons. repeat case_decide; simpl; try done; lia. }
    rewrite Hl, filter_cons, decide_True by done. simpl.
    replace (Z.of_nat (S _) + -1 <? 0)%Z with false by (symmetry; apply Z.ltb_ge; lia).
    rewrite (IH _ _ Hm). split; [apply submseteq_skip|].
    intros Hs%submseteq_cons_l. destruct Hs as (k&Hk&Hs).
    apply Permutation_cons_inv in Hk. by rewrite Hk.
  - assert (filter (λ y, y = v) l = []) as ->.
    { apply elem_of_nil_inv. intros x [-> Hx]%list_elem_of_filter. done. }
    simpl. split; [done|]. intros Hs. destruct Hv.
    eapply elem_of_submseteq; [apply list_elem_of_here|done].
Qed.

Lemma evalEquals_spec c r : evalEquals c r = true ↔ c ≡ₚ r.
Proof.
  unfold evalEquals. destruct (Nat.eqb_spec (length c) (length r)) as [Hlen|Hlen]; simpl.
  - rewrite (equals_loop_submseteq r _ (rev c ++ []))
      by apply counts_list_foldl, counts_list_nil.
    rewrite app_nil_r, <-(Permutation_rev c). split; [|by intros ->].
    intros Hs. symmetry. by apply submseteq_length_Permutation; [|lia].
  - split; [done|]. by intros ?%Permutation_length.
Qed.

(** *** CONTAINS_ALL and CONTAINS_ANY: the request set *)

Lemma set_of_foldl vals (m : gmap string bool) v :
  set_has (foldl (λ m val, <[val := true]> m) m vals) v = true ↔
  v ∈ vals ∨ set_has m v = true.
Proof.
  revert m. induction vals as [|x vals IH]; intros m; simpl; [set_solver|].
  rewrite IH, elem_of_cons. unfold set_has at 1. rewrite lookup_insert.
  case_decide; subst; simpl; [naive_solver|]. unfold set_has. naive_solver.
Qed.

Lemma set_of_spec vals v : set_has (set_of vals) v = true ↔ v ∈ vals.
Proof. unfold set_of. rewrite set_of_foldl. unfold set_has. rewrite lookup_empty. naive_solver. Qed.

Lemma evalContainsAll_spec c r :
  evalContainsAll c r = true ↔
  c = [] ∨ (length c ≤ length r ∧ ∀ v, v ∈ c → v ∈ r).
Proof.
  unfold evalContainsAll. destruct c as [|x c]; [naive_solver|]. simpl length. cbn [Nat.eqb].
  destruct (Nat.ltb_spec (length r) (S (length c))) as [Hlt|Hle].
  - split; [done|]. intros [?|[? _]]; [done|simpl in *; lia].
  - rewrite forallb_elem_of. setoid_rewrite set_of_spec. split; [by right|].
    by intros [?|[_ ?]].
Qed.

Lemma evalContainsAny_spec c r :
  evalContainsAny c r = true ↔ c = [] ∨ ∃ v, v ∈ c ∧ v ∈ r.
Proof.
  unfold evalContainsAny. destruct c as [|x c]; [naive_solver|].
  destruct r as [|y r]; [simpl; split; [done|]; intros [?|(?&?&?)]; set_solver|].
  cbn [Nat.eqb length]. rewrite existsb_elem_of. setoid_rewrite set_of_spec.
  split; [by right|]. by intros [?|?].
Qed.

(** *** IN_CIDR, BETWEEN and REGEX *)

Lemma evalInCIDR_spec c r :
  evalInCIDR c r = true ↔
  ∃ s ip cidr, r = [s] ∧ ParseAddr s = Some ip ∧ cidr ∈ c ∧ in_network cidr ip.
Proof.
  destruct r as [|s [|s' r]].
  - split; [by destruct c|]. by intros (?&?&?&?&_).
  - destruct c as [|c0 c]; [split; [done|]; intros (?&?&?&_&_&Hin&_); set_solver|].
    unfold evalInCIDR. destruct (ParseAddr s) as [ip|] eqn:Hip;
      [|by split; [|intros (?&?&?&?&?&_)]; simplify_eq].
    rewrite existsb_elem_of. unfold in_network. split.
    + intros (cidr&Hin&Hc). exists s, ip, cidr. split_and!; try done.
      destruct (ParsePrefix cidr) as [p|] eqn:Hp; [|done]. exists p.
      apply Contains_spec in Hc; [done|..]; eauto using ParseAddr_range;
        by apply ParsePrefix_range in Hp as (?&?&?).
    + intros (s'&ip'&cidr&[= <-]&Hip'&Hin&p&Hp&H). rewrite Hip in Hip'. simplify_eq.
      exists cidr. split; [done|]. rewrite Hp.
      apply Contains_spec; [..|done]; eauto using ParseAddr_range;
        by apply ParsePrefix_range in Hp as (?&?&?).
  - split; [by destruct c|]. by intros (?&?&?&?&_).
Qed.

Lemma evalBetween_spec c r :
  evalBetween c r = true ↔
  ∃ low high s l h n, c = [low; high] ∧ r = [s] ∧
    Atoi low = Some l ∧ Atoi high = Some h ∧ Atoi s = Some n ∧ (l ≤ n ≤ h)%Z.
Proof.
  split.
  - unfold evalBetween. intros H. repeat (case_match; try done). bool_simp.
    by do 6 eexists.
  - intros (low&high&s&l&h&n&->&->&Hl&Hh&Hn&?&?). simpl. rewrite Hl, Hh, Hn.
    apply andb_true_iff. split; by apply Z.leb_le.
Qed.

Section Lemmas.
Context `{RE : RegexpLib}.

Lemma evalRegex_spec ore r :
  evalRegex ore r = true ↔ ∃ re s, ore = Some re ∧ s ∈ r ∧ MatchString re s = true.
Proof.
  unfold evalRegex. destruct ore as [re|]; [|naive_solver].
  destruct r as [|s r]; [simpl; split; [done|]; intros (?&?&_&?&_); set_solver|].
  cbn [length Nat.eqb]. rewrite existsb_elem_of. naive_solver.
Qed.

(** The operator switch decides [op_holds]. *)
Lemma eval_op_spec cond vals : eval_op cond vals = true ↔ op_holds cond vals.
Proof.
  unfold eval_op.
  repeat match goal with |- context [String.eqb ?a ?b] =>
    destruct (String.eqb_spec a b) end;
    rewrite ?evalEquals_spec, ?evalContainsAll_spec, ?evalContainsAny_spec,
      ?evalInCIDR_spec, ?evalBetween_spec, ?evalRegex_spec.
  all: split; [|inversion 1; first [congruence|naive_solver eauto]].
  - intros. by apply op_equals.
  - intros. by apply op_contains_all.
  - intros. by apply op_contains_any.
  - intros (s&ip&cidr&?&?&?&?). by eapply op_in_cidr.
  - intros (low&high&s&l&h&z&?&?&?&?&?&?). by eapply op_between.
  - intros (re&s&?&?&?). by eapply op_regex.
  - done.
Qed.

Lemma EvaluateCondition_spec cond req :
  EvaluateCondition cond req = true ↔ condition_holds cond req.
Proof.
  unfold EvaluateCondition, condition_holds.
  destruct (Cut (c_Attribute cond) ".") as [[prefix key]|] eqn:Hcut.
  - pose proof (proj1 (Cut_spec _ _ _ _) Hcut) as [Hattr Hdot]. split.
    + destruct (attribute_map prefix req) as [attrs|] eqn:Hm; [|done].
      destruct (map_index attrs key) as [vals|] eqn:Hk; [|done].
      intros H%eval_op_spec. by exists prefix, key, attrs, vals.
    + intros (prefix'&key'&attrs&vals&Ha&Hd&Hm&Hk&H).
      pose proof (proj2 (Cut_spec _ _ _ _) (conj Ha Hd)) as Hcut'. simplify_eq.
      rewrite Hm, Hk. by apply eval_op_spec.
  - split; [done|]. intros (prefix&key&_&_&Ha&Hd&_).
    pose proof (proj2 (Cut_spec _ _ _ _) (conj Ha Hd)) as Hcut'. congruence.
Qed.

End Lemmas.

(** ** Properties *)

Section Properties.
Context `{RE : RegexpLib}.

(** C7: [EvaluateCondition] decides the declarative meaning of a condition:
    the attribute splits at its first dot into one of the three categories
    and a key, the request carries that attribute, and the operator's meaning
    holds on the values; on every other input (no dot, unknown category,
    missing attribute, unknown operator, malformed values) it is false. *)
Theorem EvaluateCondition_correct cond req :
  (EvaluateCondition cond req = true ↔ condition_holds cond req) ∧
  (EvaluateCondition cond req = false ↔ ¬ condition_holds cond req).
Proof.
  rewrite <-EvaluateCondition_spec. by destruct (EvaluateCondition cond req).
Qed.

End Properties.

(** The frequency-map loop of EQUALS is multiset equality: it accepts
    exactly the request values that are a reordering of the condition values,
    multiplicities included. *)
Theorem evalEquals_permutation c r :
  evalEquals c r = bool_decide (c ≡ₚ r) ∧
  (∀ c' r', c ≡ₚ c' → r ≡ₚ r' → evalEquals c' r' = evalEquals c r) ∧
  evalEquals r c = evalEquals c r.
Proof.
  split; [|split; [intros c' r' Hc Hr|]]; apply eq_bool_prop_intro;
    rewrite ?bool_decide_spec, !Is_true_true, !evalEquals_spec.
  - done.
  - by rewrite Hc, Hr.
  - by split; symmetry.
Qed.

(** For condition values without repetition, CONTAINS_ALL is inclusion of
    the condition values in the request values, however the request values
    are ordered or repeated.  (With a repeated condition value the length test
    of the code also demands at least as many request values.) *)
Theorem evalContainsAll_inclusion c r :
  NoDup c → evalContainsAll c r = true ↔ ∀ v, v ∈ c → v ∈ r.
Proof.
  intros Hnd. rewrite evalContainsAll_spec. split; [intros [->|[_ H]]; set_solver|].
  intros H. right. split; [|done]. by apply submseteq_length, NoDup_submseteq.
Qed.

(** The inclusion fails without the hypothesis: a condition that lists a value
    twice refuses a request that has it. *)
Lemma evalContainsAll_inclusion_witness :
  NoDup ["a"; "b"] ∧
  (evalContainsAll ["a"; "b"] ["b"; "c"; "a"] = true ↔
   ∀ v, v ∈ ["a"; "b"] → v ∈ ["b"; "c"; "a"]) ∧
  evalContainsAll ["a"; "b"] ["b"; "c"; "a"] = true ∧
  evalContainsAll ["a"; "a"] ["a"] = false.
Proof.
  assert (NoDup ["a"; "b"]) as Hnd 
    by exact (bool_decide_eq_true_1 (NoDup ["a"; "b"]) eq_refl).
  split; [exact Hnd|]. split; [exact (evalContainsAll_inclusion ["a"; "b"] ["b"; "c"; "a"] Hnd)|].
  split; vm_compute; reflexivity.
Defined.

(** CONTAINS_ANY asks for a shared value, except that an empty condition
    list matches every request, even one with no values. *)
Theorem evalContainsAny_overlap c r :
  evalContainsAny c r = bool_decide (c = [] ∨ Exists (λ v, v ∈ r) c) ∧
  evalContainsAny [] r = true.
Proof.
  split; [|done]. apply eq_bool_prop_intro.
  rewrite bool_decide_spec, Is_true_true, evalContainsAny_spec, Exists_exists. done.
Qed.

(** IN_CIDR holds exactly when there is one request value, it parses as an
    address, and some condition value parses as a prefix of the same family
    whose network part (the bits above the host part) it shares; malformed
    condition values are skipped and malformed requests are refused. *)
Theorem evalInCIDR_networks c r :
  (evalInCIDR c r = true ↔
   ∃ s ip cidr, r = [s] ∧ ParseAddr s = Some ip ∧ cidr ∈ c ∧ in_network cidr ip) ∧
  (∀ s, ParseAddr s = None → evalInCIDR c [s] = false) ∧
  (∀ bad, ParsePrefix bad = None → evalInCIDR (bad :: c) r = evalInCIDR c r).
Proof.
  split; [apply evalInCIDR_spec|]. split.
  - intros s Hs. unfold evalInCIDR. rewrite Hs. by destruct c.
  - intros bad Hbad. apply eq_bool_prop_intro. rewrite !Is_true_true, !evalInCIDR_spec.
    split; intros (s&ip&cidr&?&?&Hin&Hnet); exists s, ip, cidr; split_and!; try done;
      [|by apply list_elem_of_further].
    apply elem_of_cons in Hin as [->|?]; [|done].
    destruct Hnet as (p&?&_). congruence.
Qed.

(** C31: BETWEEN on decimal numerals is the inclusive integer comparison on
    64-bit integers: [evalBetween] of the written bounds and value is true
    exactly when all three fit in an int64 and [l <= n <= h]. *)
Theorem evalBetween_numerals (l h n : Z) :
  evalBetween [pretty l; pretty h] [pretty n] =
  (in_int64 l && in_int64 h && in_int64 n && (l <=? n)%Z && (n <=? h)%Z)%bool.
Proof.
  unfold evalBetween. rewrite !Atoi_pretty.
  by destruct (in_int64 l), (in_int64 h), (in_int64 n).
Qed.
