(* ===== verification/Engine.v ===== *)
(** internal/engine/engine.go: [CheckAccess], deny-overrides over a snapshot,
    against the interface of a policy provider. *)
From S2P Require Import Prelude Policy LiteralRegexp Store Operators.
Open Scope string_scope.
Open Scope nat_scope.
Open Scope list_scope.

Section WithRegexp.
Context `{RE : RegexpLib}.

(** [EvaluationResponse]: the decision returned to the client. *)
Record EvaluationResponse := mkResponse {
  e_Allowed : bool;
  e_MatchedPolicyID : string;
  e_Reason : string;
  e_EvaluationTimeNs : Z
}.

Definition reason_deny : string := "Explicit Deny: Matched deny policy".
Definition reason_allow : string := "Matched Policy".
Definition reason_default : string := "Implict Deny: No matching polices".

(** The inner loop over the conditions of a policy, with its [break]. *)
Fixpoint all_conds_met (conds : list Condition) (req : EvaluationRequest) : bool :=
  match conds with
  | [] => true
  | cond :: rest => if EvaluateCondition cond req then all_conds_met rest req else false
  end.

(** [firstMatch]: the first policy whose target and conditions match. *)
Fixpoint firstMatch (policies : list Policy) (req : EvaluationRequest) : option Policy :=
  match policies with
  | [] => None
  | policy :: rest =>
    if negb (String.eqb (t_ResourceType (p_Target policy)) (r_ResourceType req)) ||
       negb (String.eqb (t_Action (p_Target policy)) (r_Action req))
    then firstMatch rest req
    else if all_conds_met (p_Conditions policy) req then Some policy
    else firstMatch rest req
  end.

(** [time.Since(start)] as an int64: the difference of two monotonic clock
    readings, saturated as [time.Duration] is. *)
Definition time_Since (start now : Z) : Z := Z.max min_int64 (Z.min max_int64 (now - start)).

(** [Engine.CheckAccess].  [listed] is what the provider's
    [ListActivePolicies] returned, [start] and [now] the clock readings at
    entry and at the return. *)
Definition CheckAccess (listed : result PolicySnapshot) (start now : Z)
    (req : EvaluationRequest) : result EvaluationResponse :=
  match listed with
  | Err err => Err ("failed to list policies: " +:+ err)%string
  | Ok snapshot =>
    match firstMatch (s_Deny snapshot) req with
    | Some policy =>
      Ok (mkResponse false (p_ID policy) reason_deny (time_Since start now))
    | None =>
      match firstMatch (s_Allow snapshot) req with
      | Some policy =>
        Ok (mkResponse true (p_ID policy) reason_allow (time_Since start now))
      | None => Ok (mkResponse false "" reason_default (time_Since start now))
      end
    end
  end.

(** ** The provider interface

    What [CheckAccess] relies on: a successful listing contains exactly the
    live allow and deny policies, in some order.  [provides st r] reads "in
    state [st] the call may return [r]". *)
Class PolicyProvider (St : Type) := {
  provides : St → result PolicySnapshot → Prop;
  live : St → table → Policy → Prop;
  provides_allow st snap p :
    provides st (Ok snap) → p ∈ s_Allow snap ↔ live st TAllow p;
  provides_deny st snap p :
    provides st (Ok snap) → p ∈ s_Deny snap ↔ live st TDeny p
}.

(** The store is a provider: it may list its tables in any order and never
    fails. *)
#[export] Program Instance store_provider : PolicyProvider PolicyStore := {|
  provides st r := ∃ oa od, ListActivePolicies oa od st = r;
  live st t p := ∃ id, table_get t st !! id = Some p
|}.
Next Obligation. intros st snap p (oa&od&H). by apply list_active_elem in H as [H _]. Qed.
Next Obligation. intros st snap p (oa&od&H). by apply list_active_elem in H as [_ H]. Qed.

(** ** The meaning of a policy and of a decision *)

(** A policy applies to a request when its target is the request's resource
    type and action and all its conditions hold. *)
Definition policy_applies (p : Policy) (req : EvaluationRequest) : Prop :=
  t_ResourceType (p_Target p) = r_ResourceType req ∧
  t_Action (p_Target p) = r_Action req ∧
  ∀ cond, cond ∈ p_Conditions p → condition_holds cond req.

Definition applies_b (req : EvaluationRequest) (p : Policy) : bool :=
  String.eqb (t_ResourceType (p_Target p)) (r_ResourceType req) &&
  String.eqb (t_Action (p_Target p)) (r_Action req) &&
  forallb (λ cond, EvaluateCondition cond req) (p_Conditions p).

(** ** Lemmas *)

Lemma all_conds_met_forallb conds req :
  all_conds_met conds req = forallb (λ cond, EvaluateCondition cond req) conds.
Proof. induction conds as [|c conds IH]; simpl; [done|].
  rewrite IH. by destruct (EvaluateCondition c req).
Qed.

Lemma applies_b_spec p req : applies_b req p = true ↔ policy_applies p req.
Proof.
  unfold applies_b, policy_applies.
  rewrite !andb_true_iff, !String.eqb_eq, forallb_elem_of.
  setoid_rewrite EvaluateCondition_spec. naive_solver.
Qed.

Lemma firstMatch_find policies req : firstMatch policies req = find (applies_b req) policies.
Proof.
  induction policies as [|p policies IH]; simpl; [done|].
  rewrite IH, all_conds_met_forallb.
  destruct (applies_b req p) eqn:Ha; unfold applies_b in Ha;
    destruct (String.eqb _ _), (String.eqb _ _), (forallb _ _); done.
Qed.

Lemma firstMatch_Some policies req p :
  firstMatch policies req = Some p ↔
  ∃ pre post, policies = pre ++ p :: post ∧ policy_applies p req ∧
    ∀ q, q ∈ pre → ¬ policy_applies q req.
Proof.
  rewrite firstMatch_find. setoid_rewrite <-applies_b_spec. split.
  - induction policies as [|x l IH]; simpl; [done|].
    destruct (applies_b req x) eqn:Hx.
    + intros [= <-]. exists [], l. split_and!; [done|done|set_solver].
    + intros H. destruct (IH H) as (pre&post&->&Hp&Hpre).
      exists (x :: pre), post. split_and!; [done|done|].
      intros q [->|?]%elem_of_cons; [congruence|by apply Hpre].
  - intros (pre&post&->&Hp&Hpre). induction pre as [|x pre IH]; simpl; [by rewrite Hp|].
    destruct (applies_b req x) eqn:Hx; [exfalso; eapply Hpre; [left|done]|].
    apply IH. set_solver.
Qed.

Lemma firstMatch_None policies req :
  firstMatch policies req = None ↔ ∀ p, p ∈ policies → ¬ policy_applies p req.
Proof.
  rewrite firstMatch_find. setoid_rewrite <-applies_b_spec.
  induction policies as [|x l IH]; simpl; [set_solver|].
  setoid_rewrite elem_of_cons. destruct (applies_b req x) eqn:Hx; [naive_solver|].
  rewrite IH. naive_solver congruence.
Qed.

Lemma firstMatch_is_Some policies req :
  is_Some (firstMatch policies req) ↔ ∃ p, p ∈ policies ∧ policy_applies p req.
Proof.
  split.
  - intros [p (pre&post&->&Hp&_)%firstMatch_Some]. exists p. split; [set_solver|done].
  - intros (p&Hin&Hp). destruct (firstMatch policies req) eqn:Hf; [by eexists|].
    by eapply firstMatch_None in Hf.
Qed.

Lemma time_Since_range start now :
  (min_int64 ≤ time_Since start now ≤ max_int64)%Z ∧
  (in_int64 (now - start) = true → time_Since start now = now - start)%Z.
Proof.
  unfold time_Since. rewrite in_int64_spec. unfold min_int64, max_int64. lia.
Qed.

(** The three outcomes of [CheckAccess] on a listing. *)
Lemma CheckAccess_cases snap start now req :
  let t := time_Since start now in
  (∃ d, d ∈ s_Deny snap ∧ policy_applies d req ∧
     CheckAccess (Ok snap) start now req = Ok (mkResponse false (p_ID d) reason_deny t)) ∨
  ((∀ d, d ∈ s_Deny snap → ¬ policy_applies d req) ∧
   ∃ p, p ∈ s_Allow snap ∧ policy_applies p req ∧
     CheckAccess (Ok snap) start now req = Ok (mkResponse true (p_ID p) reason_allow t)) ∨
  ((∀ d, d ∈ s_Deny snap → ¬ policy_applies d req) ∧
   (∀ p, p ∈ s_Allow snap → ¬ policy_applies p req) ∧
   CheckAccess (Ok snap) start now req = Ok (mkResponse false "" reason_default t)).
Proof.
  intros t. unfold CheckAccess.
  destruct (firstMatch (s_Deny snap) req) as [d|] eqn:Hd.
  { left. exists d. apply firstMatch_Some in Hd as (pre&post&->&?&_).
    split_and!; [set_solver|done|done]. }
  right. rewrite firstMatch_None in Hd.
  destruct (firstMatch (s_Allow snap) req) as [p|] eqn:Hp.
  - left. split; [done|]. exists p. apply firstMatch_Some in Hp as (pre&post&->&?&_).
    split_and!; [set_solver|done|done].
  - right. rewrite firstMatch_None in Hp. done.
Qed.

(** The allowed bit of a listing, as a proposition. *)
Definition granted (listed : result PolicySnapshot) (req : EvaluationRequest) : Prop :=
  ∃ resp, CheckAccess listed 0 0 req = Ok resp ∧ e_Allowed resp = true.

Lemma granted_iff snap req :
  granted (Ok snap) req ↔
  (∃ p, p ∈ s_Allow snap ∧ policy_applies p req) ∧
  (∀ d, d ∈ s_Deny snap → ¬ policy_applies d req).
Proof.
  unfold granted. destruct (CheckAccess_cases snap 0 0 req) as
    [(d&?&?&->)|[(?&p&?&?&->)|(?&Hno&->)]]; split.
  - by intros (?&[= <-]&?).
  - intros [_ Hno]. exfalso. by eapply Hno.
  - intros _. split; [by exists p|done].
  - intros _. by eexists.
  - by intros (?&[= <-]&?).
  - intros [(p&?&?) _]. exfalso. by eapply Hno.
Qed.

(** The clock has no influence on the allowed bit. *)
Lemma granted_time snap start now req :
  granted (Ok snap) req ↔
  ∃ resp, CheckAccess (Ok snap) start now req = Ok resp ∧ e_Allowed resp = true.
Proof.
  unfold granted, CheckAccess. repeat case_match; naive_solver.
Qed.

(** What the listing of a store contains, by the map the store represents. *)
Lemma represents_listing ps m oa od snap :
  represents ps m → ListActivePolicies oa od ps = Ok snap →
  (∀ p, p ∈ s_Allow snap ↔ ∃ id, m !! id = Some p ∧ is_allow p = true) ∧
  (∀ p, p ∈ s_Deny snap ↔ ∃ id, m !! id = Some p ∧ is_allow p = false).
Proof.
  intros [Hrep _] Hl. destruct (list_active_elem _ _ _ _ Hl) as [Ha Hd]. split; intros p.
  - rewrite Ha. setoid_rewrite (Hrep TAllow). unfold route.
    by destruct (is_allow p); naive_solver.
  - rewrite Hd. setoid_rewrite (Hrep TDeny). unfold route.
    by destruct (is_allow p); naive_solver.
Qed.

Lemma represents_granted ps m oa od req :
  represents ps m →
  granted (ListActivePolicies oa od ps) req ↔
  (∃ id p, m !! id = Some p ∧ p_Access p = AccessAllow ∧ policy_applies p req) ∧
  (∀ id p, m !! id = Some p → p_Access p ≠ AccessAllow → ¬ policy_applies p req).
Proof.
  intros Hrep. destruct (ListActivePolicies oa od _) as [snap|] eqn:Hl; [|done].
  destruct (represents_listing _ _ _ _ _ Hrep Hl) as [Ha Hd].
  rewrite granted_iff. setoid_rewrite Ha. setoid_rewrite Hd.
  unfold is_allow. setoid_rewrite String.eqb_eq. setoid_rewrite String.eqb_neq. naive_solver.
Qed.

(** ** Properties *)

(** C6: deny overrides.  For any provider in any state: a listing error is
    returned wrapped and nothing is decided; otherwise a decision is always
    produced, and it is an explicit deny naming a live deny policy that
    applies when there is one, else an allow naming a live allow policy that
    applies when there is one, else the default deny with an empty ID.  The
    reported time is a 64-bit integer, the clock difference when that fits. *)
Theorem CheckAccess_deny_overrides `{!PolicyProvider St} (st : St) r start now req :
  provides st r →
  let t := time_Since start now in
  (min_int64 ≤ t ≤ max_int64)%Z ∧
  match r with
  | Err err => CheckAccess r start now req = Err ("failed to list policies: " +:+ err)%string
  | Ok _ =>
    (∃ d, live st TDeny d ∧ policy_applies d req ∧
       CheckAccess r start now req = Ok (mkResponse false (p_ID d) reason_deny t)) ∨
    ((∀ d, live st TDeny d → ¬ policy_applies d req) ∧
     ∃ p, live st TAllow p ∧ policy_applies p req ∧
       CheckAccess r start now req = Ok (mkResponse true (p_ID p) reason_allow t)) ∨
    ((∀ d, live st TDeny d → ¬ policy_applies d req) ∧
     (∀ p, live st TAllow p → ¬ policy_applies p req) ∧
     CheckAccess r start now req = Ok (mkResponse false "" reason_default t))
  end.
Proof.
  intros Hr t. split; [apply time_Since_range|]. destruct r as [snap|err]; [|done].
  setoid_rewrite <-(provides_allow st snap); [|done..].
  setoid_rewrite <-(provides_deny st snap); [|done..].
  apply CheckAccess_cases.
Qed.

(** The verdict and its reason do not depend on the order in which the
    provider lists its policies, nor on the clock. *)
Theorem CheckAccess_order_independent `{!PolicyProvider St} (st : St)
    snap1 snap2 start1 now1 start2 now2 req resp1 resp2 :
  provides st (Ok snap1) → provides st (Ok snap2) →
  CheckAccess (Ok snap1) start1 now1 req = Ok resp1 →
  CheckAccess (Ok snap2) start2 now2 req = Ok resp2 →
  e_Allowed resp1 = e_Allowed resp2 ∧ e_Reason resp1 = e_Reason resp2.
Proof.
  intros H1 H2.
  pose proof (λ p, provides_allow st snap1 p H1) as Ha1.
  pose proof (λ p, provides_allow st snap2 p H2) as Ha2.
  pose proof (λ p, provides_deny st snap1 p H1) as Hd1.
  pose proof (λ p, provides_deny st snap2 p H2) as Hd2.
  destruct (CheckAccess_cases snap1 start1 now1 req) as [(?&?&?&->)|[(?&?&?&?&->)|(?&?&->)]],
    (CheckAccess_cases snap2 start2 now2 req) as [(?&?&?&->)|[(?&?&?&?&->)|(?&?&->)]];
    intros [= <-] [= <-]; simpl; try done; exfalso; naive_solver.
Qed.

(** C1: the decision of a store after any history of upserts and deletes is
    that of the map the history denotes: access is granted exactly when some
    policy of that map whose access is ALLOW applies and no policy with any
    other access mode (DENY or unrecognised) does; and the matched ID is the
    key of the policy that decided. *)
Theorem history_decision ops oa od req :
  let m := spec_ops ops ∅ in
  let listed := ListActivePolicies oa od (run_ops ops NewPolicyStore) in
  (granted listed req ↔
   (∃ id p, m !! id = Some p ∧ p_Access p = AccessAllow ∧ policy_applies p req) ∧
   (∀ id p, m !! id = Some p → p_Access p ≠ AccessAllow → ¬ policy_applies p req)) ∧
  (∀ start now resp, CheckAccess listed start now req = Ok resp →
   e_Reason resp ≠ reason_default →
   ∃ p, m !! e_MatchedPolicyID resp = Some p ∧ policy_applies p req ∧
     e_Allowed resp = is_allow p).
Proof.
  intros m listed. split; [apply represents_granted, represents_run, represents_new|]. subst listed.
  pose proof (represents_run ops _ _ represents_new) as Hrep. fold m in Hrep.
  pose proof (proj2 Hrep) as Hid.
  destruct (ListActivePolicies oa od _) as [snap|] eqn:Hl; [|done].
  destruct (represents_listing _ m _ _ _ Hrep Hl) as [Ha Hd].
  intros start now resp. destruct (CheckAccess_cases snap start now req)
    as [(d&Hin&?&->)|[(_&p&Hin&?&->)|(_&_&->)]]; intros [= <-]; simpl; [| |done]; intros _.
  - apply Hd in Hin as (id&Hm&Hal). exists d. by rewrite (Hid _ _ Hm).
  - apply Ha in Hin as (id&Hm&Hal). exists p. by rewrite (Hid _ _ Hm).
Qed.

(** C29: fail-closed updates.  In a store reached by any history, upserting a
    policy whose access is not exactly ALLOW under an ID the deny table does
    not hold, or deleting an ID the deny table does not hold, never turns a
    refused request into a granted one. *)
Theorem fail_closed_updates ops o oa od oa' od' oa'' od'' p id req :
  let ps := run_ops ops NewPolicyStore in
  p_Access p ≠ AccessAllow → st_deny ps !! p_ID p = None → st_deny ps !! id = None →
  (granted (ListActivePolicies oa' od' (UpsertPolicy o p ps)) req →
   granted (ListActivePolicies oa'' od'' ps) req) ∧
  (granted (ListActivePolicies oa' od' (DeletePolicy oa od id ps)) req →
   granted (ListActivePolicies oa'' od'' ps) req).
Proof.
  intros ps Hacc Hdeny Hid.
  destruct (ListActivePolicies oa'' od'' ps) as [snap|] eqn:Hl; [|done].
  destruct (list_active_elem _ _ _ _ Hl) as [Ha Hd].
  assert (Hmono : ∀ ps',
    (∀ k q, st_allow ps' !! k = Some q → st_allow ps !! k = Some q) →
    (∀ k q, st_deny ps !! k = Some q → st_deny ps' !! k = Some q) →
    granted (ListActivePolicies oa' od' ps') req → granted (Ok snap) req).
  { intros ps' Hsub Hsup. destruct (ListActivePolicies oa' od' ps') as [snap'|] eqn:Hl'; [|done].
    destruct (list_active_elem _ _ _ _ Hl') as [Ha' Hd']. rewrite !granted_iff.
    setoid_rewrite Ha. setoid_rewrite Hd. setoid_rewrite Ha'. setoid_rewrite Hd'.
    naive_solver. }
  assert (Hroute : route p = TDeny).
  { unfold route, is_allow. by destruct (String.eqb_spec (p_Access p) AccessAllow). }
  split; apply Hmono; intros k q.
  - change (st_allow (UpsertPolicy o p ps)) with (table_get TAllow (UpsertPolicy o p ps)).
    rewrite table_get_UpsertPolicy, Hroute, decide_False, lookup_delete by done.
    by case_decide.
  - change (st_deny (UpsertPolicy o p ps)) with (table_get TDeny (UpsertPolicy o p ps)).
    rewrite table_get_UpsertPolicy, Hroute, decide_True, lookup_insert by done.
    case_decide; simpl; congruence.
  - change (st_allow (DeletePolicy oa od id ps)) with (table_get TAllow (DeletePolicy oa od id ps)).
    rewrite table_get_DeletePolicy, lookup_delete. by case_decide.
  - change (st_deny (DeletePolicy oa od id ps)) with (table_get TDeny (DeletePolicy oa od id ps)).
    rewrite table_get_DeletePolicy, lookup_delete. case_decide; simpl; congruence.
Qed.

End WithRegexp.

(** ** Witnesses, on the literal regular-expression engine *)

Definition office_request : EvaluationRequest :=
  mkRequest "alice" (Some {["roles" := ["admin"; "dev"]]}) "document" "d1" None "read"
    (Some {["source_ip" := ["10.1.2.3"]]}).

Definition admin_allow : Policy :=
  mkPolicy "allow-admin" "" AccessAllow (mkTarget "document" "read")
    [mkCondition "principal.roles" "CONTAINS_ANY" ["admin"] None].

Definition network_deny : Policy :=
  mkPolicy "deny-net" "" AccessDeny (mkTarget "document" "read")
    [mkCondition "environment.source_ip" "IN_CIDR" ["10.0.0.0/8"] None].

Definition two_policy_store : PolicyStore :=
  run_ops [OpUpsert canonical_order admin_allow; OpUpsert canonical_order network_deny] NewPolicyStore.

Lemma CheckAccess_deny_overrides_witness :
  let listed := ListActivePolicies canonical_order reversed_order two_policy_store in
  provides two_policy_store listed ∧
  CheckAccess listed 5 17 office_request =
    Ok (mkResponse false "deny-net" reason_deny 12) ∧
  (min_int64 ≤ time_Since 5 17 ≤ max_int64)%Z.
Proof.
  intros listed.
  assert (provides two_policy_store listed) as Hp by (exists canonical_order, reversed_order; reflexivity).
  split; [exact Hp|]. split; [vm_compute; reflexivity|].
  exact (proj1 (CheckAccess_deny_overrides two_policy_store listed 5 17 office_request Hp)).
Defined.

Lemma CheckAccess_order_independent_witness :
  ∃ resp1 resp2,
    CheckAccess (ListActivePolicies canonical_order canonical_order two_policy_store) 0 1
      office_request = Ok resp1 ∧
    CheckAccess (ListActivePolicies reversed_order reversed_order two_policy_store) 7 9
      office_request = Ok resp2 ∧
    e_Allowed resp1 = e_Allowed resp2 ∧ e_Reason resp1 = e_Reason resp2.
Proof.
  eexists _, _. split; [vm_compute; reflexivity|]. split; [vm_compute; reflexivity|].
  eapply (CheckAccess_order_independent two_policy_store
    (mkSnapshot [admin_allow] [network_deny]) (mkSnapshot [admin_allow] [network_deny])
    0 1 7 9 office_request).
  - exists canonical_order, canonical_order. vm_compute. reflexivity.
  - exists reversed_order, reversed_order. vm_compute. reflexivity.
  - vm_compute. reflexivity.
  - vm_compute. reflexivity.
Defined.

Definition other_network_deny : Policy :=
  mkPolicy "deny-other" "" AccessDeny (mkTarget "document" "read")
    [mkCondition "environment.source_ip" "IN_CIDR" ["192.168.0.0/16"] None].

Lemma fail_closed_updates_witness :
  let ops := [OpUpsert canonical_order admin_allow] in
  granted (ListActivePolicies canonical_order canonical_order
    (UpsertPolicy canonical_order other_network_deny (run_ops ops NewPolicyStore))) office_request ∧
  granted (ListActivePolicies canonical_order canonical_order (run_ops ops NewPolicyStore)) office_request.
Proof.
  intros ops.
  assert (granted (ListActivePolicies canonical_order canonical_order
    (UpsertPolicy canonical_order other_network_deny (run_ops ops NewPolicyStore))) office_request) as Hg.
  { eexists. split; vm_compute; reflexivity. }
  split; [exact Hg|]. revert Hg.
  refine (proj1 (fail_closed_updates ops canonical_order canonical_order canonical_order
    canonical_order canonical_order canonical_order canonical_order other_network_deny "allow-admin"
    office_request _ _ _)).
  - discriminate.
  - vm_compute. reflexivity.
  - vm_compute. reflexivity.
Defined.
