(* ===== verification/AuditQueue.v ===== *)
(** internal/audit/logger.go: the bounded channel, its workers and [Stop].

    A channel send is modelled as Go does it: on a closed channel it panics,
    with a parked receiver it hands the record over, with room in the buffer
    it enqueues, and otherwise the [select] takes its default branch.  The
    interleaving of producers, workers and [Stop] is a list of events. *)
From S2P Require Import Prelude.
Open Scope string_scope.
Open Scope nat_scope.
Open Scope list_scope.

Record AuditLog := mkAuditLog {
  al_PrincipalID : string;
  al_Action : string;
  al_ResourceID : string;
  al_Allowed : bool;
  al_Reason : string;
  al_PolicyId : string;
  al_LatencyNs : Z
}.

(** A worker goroutine: about to receive, parked in the channel's receive
    queue, writing a record, or returned. *)
Inductive worker :=
  | WReady
  | WWaiting
  | WLogging (record : AuditLog)
  | WExited.

(** [lg_out] is what the workers have written to the log, oldest first. *)
Record AuditLogger := mkLogger {
  lg_cap : nat;
  lg_buf : list AuditLog;
  lg_closed : bool;
  lg_workers : list worker;
  lg_wg : nat;
  lg_out : list AuditLog
}.

Definition NewAuditLogger (bufferSize : nat) : AuditLogger :=
  mkLogger bufferSize [] false [] 0 [].

Definition set_worker (i : nat) (w : worker) (l : AuditLogger) : AuditLogger :=
  mkLogger (lg_cap l) (lg_buf l) (lg_closed l) (<[i := w]> (lg_workers l)) (lg_wg l) (lg_out l).

Definition set_buf (b : list AuditLog) (l : AuditLogger) : AuditLogger :=
  mkLogger (lg_cap l) b (lg_closed l) (lg_workers l) (lg_wg l) (lg_out l).

(** [Start]: each iteration does [wg.Add(1)] and spawns a worker. *)
Fixpoint Start (workers : nat) (l : AuditLogger) : AuditLogger :=
  match workers with
  | O => l
  | S n => Start n (mkLogger (lg_cap l) (lg_buf l) (lg_closed l)
             (lg_workers l ++ [WReady]) (S (lg_wg l)) (lg_out l))
  end.

Definition is_waiting (w : worker) : bool :=
  match w with WWaiting => true | _ => false end.

(** The receiver a send is handed to: the parked worker the runtime's queue
    has at its head ([hint]), or any parked worker. *)
Definition parked (l : AuditLogger) (hint : nat) : option nat :=
  if decide (is_waiting <$> lg_workers l !! hint = Some true) then Some hint
  else fst <$> list_find (λ w, is_waiting w = true) (lg_workers l).

Inductive send_result :=
  | Panicked
  | Sent (l : AuditLogger)
  | Dropped (l : AuditLogger).

(** [LogDecision]: the [select] with a default branch. *)
Definition LogDecision (hint : nat) (record : AuditLog) (l : AuditLogger) : send_result :=
  if lg_closed l then Panicked
  else match parked l hint with
  | Some i => Sent (set_worker i (WLogging record) l)
  | None =>
    if length (lg_buf l) <? lg_cap l then Sent (set_buf (lg_buf l ++ [record]) l)
    else Dropped l
  end.

(** One step of worker [i]: [None] when it is blocked or gone.  The range loop
    receives while the buffer has records, parks on an open empty channel and
    returns (running [wg.Done]) on a closed empty one. *)
Definition worker_step (i : nat) (l : AuditLogger) : option AuditLogger :=
  match lg_workers l !! i with
  | Some WReady =>
    match lg_buf l with
    | record :: b => Some (set_worker i (WLogging record) (set_buf b l))
    | [] =>
      if lg_closed l then
        Some (mkLogger (lg_cap l) (lg_buf l) (lg_closed l)
                (<[i := WExited]> (lg_workers l)) (pred (lg_wg l)) (lg_out l))
      else Some (set_worker i WWaiting l)
    end
  | Some (WLogging record) =>
    Some (mkLogger (lg_cap l) (lg_buf l) (lg_closed l)
            (<[i := WReady]> (lg_workers l)) (lg_wg l) (lg_out l ++ [record]))
  | _ => None
  end.

Definition wake (w : worker) : worker := match w with WWaiting => WReady | w => w end.

(** The first half of [Stop]: closing wakes every parked receiver; closing
    twice panics. *)
Definition close_chan (l : AuditLogger) : option AuditLogger :=
  if lg_closed l then None
  else Some (mkLogger (lg_cap l) (lg_buf l) true (wake <$> lg_workers l) (lg_wg l) (lg_out l)).

(** The second half, [wg.Wait()], returns in a state where this holds. *)
Definition wait_returns (l : AuditLogger) : bool := lg_wg l =? 0.

Inductive aevent :=
  | ELog (hint : nat) (record : AuditLog)
  | EWorker (i : nat)
  | EStart (workers : nat)
  | EClose.

(** A run: the logger with the records accepted and dropped so far; [None]
    when an event panics or a blocked worker is scheduled. *)
Definition arun_step (st : AuditLogger * list AuditLog * list AuditLog) (ev : aevent)
    : option (AuditLogger * list AuditLog * list AuditLog) :=
  let '(l, acc, dropped) := st in
  match ev with
  | ELog hint r =>
    match LogDecision hint r l with
    | Panicked => None
    | Sent l' => Some (l', acc ++ [r], dropped)
    | Dropped l' => Some (l', acc, dropped ++ [r])
    end
  | EWorker i => l' ← worker_step i l; Some (l', acc, dropped)
  | EStart n => Some (Start n l, acc, dropped)
  | EClose => l' ← close_chan l; Some (l', acc, dropped)
  end.

Fixpoint arun (evs : list aevent) (st : AuditLogger * list AuditLog * list AuditLog)
    : option (AuditLogger * list AuditLog * list AuditLog) :=
  match evs with
  | [] => Some st
  | ev :: evs => st' ← arun_step st ev; arun evs st'
  end.

(** ** Invariant *)

Definition worker_records (w : worker) : list AuditLog :=
  match w with WLogging r => [r] | _ => [] end.

(** Records received and not yet written. *)
Definition in_flight (l : AuditLogger) : list AuditLog := lg_workers l ≫= worker_records.

Definition is_live (w : worker) : bool := match w with WExited => false | _ => true end.

Definition live_count (ws : list worker) : nat :=
  length (filter (λ w, is_live w = true) ws).

Definition live_workers (l : AuditLogger) : nat := live_count (lg_workers l).

Record audit_inv (l : AuditLogger) (acc : list AuditLog) : Prop := {
  inv_bound : length (lg_buf l) ≤ lg_cap l;
  inv_parked : WWaiting ∈ lg_workers l → lg_buf l = [] ∧ lg_closed l = false;
  inv_exited : WExited ∈ lg_workers l → lg_buf l = [] ∧ lg_closed l = true;
  inv_wg : lg_wg l = live_workers l;
  inv_records : acc ≡ₚ lg_out l ++ in_flight l ++ lg_buf l;
  (** with at most one worker the log keeps the order of acceptance *)
  inv_order : length (lg_workers l) ≤ 1 → acc = lg_out l ++ in_flight l ++ lg_buf l
}.

(** ** Lemmas *)

Lemma in_flight_insert l i w w' :
  lg_workers l !! i = Some w →
  worker_records w ++ (<[i := w']> (lg_workers l) ≫= worker_records) ≡ₚ
  worker_records w' ++ in_flight l.
Proof.
  unfold in_flight. generalize (lg_workers l). intros ws. revert i.
  induction ws as [|x ws IH]; intros [|i] Hi; simplify_eq/=.
  - by rewrite !app_assoc, (Permutation_app_comm (worker_records w)).
  - specialize (IH _ Hi). rewrite (Permutation_app_swap_app (worker_records w)), IH.
    by rewrite Permutation_app_swap_app.
Qed.

Lemma live_insert (ws : list worker) i w w' :
  ws !! i = Some w →
  live_count (<[i := w']> ws) + (if is_live w then 1 else 0) =
  live_count ws + (if is_live w' then 1 else 0).
Proof.
  unfold live_count. revert i. induction ws as [|x ws IH]; intros [|i] Hi; simplify_eq/=.
  - rewrite !filter_cons. repeat case_decide; simpl;
      destruct (is_live w), (is_live w'); simpl; try lia; congruence.
  - specialize (IH _ Hi). rewrite !filter_cons. case_decide; simpl; lia.
Qed.

Lemma parked_Some l hint i : parked l hint = Some i → lg_workers l !! i = Some WWaiting.
Proof.
  unfold parked. case_decide as Hd.
  - intros [= <-]. destruct (lg_workers l !! hint) as [[]|]; naive_solver.
  - intros ([j w]&Hf&->)%fmap_Some. apply list_find_Some in Hf as (Hj&Hw&_).
    simpl. by destruct w.
Qed.

Lemma parked_None l hint : parked l hint = None → WWaiting ∉ lg_workers l.
Proof.
  unfold parked. case_decide; [done|]. intros Hf%fmap_None.
  apply list_find_None in Hf. rewrite Forall_forall in Hf.
  intros Hin. by apply (Hf _ Hin).
Qed.

Lemma elem_of_insert_worker (ws : list worker) i w x :
  x ∈ <[i := w]> ws → x = w ∨ x ∈ ws.
Proof.
  intros [j Hj]%list_elem_of_lookup. destruct (decide (i = j)) as [->|Hne].
  - destruct (decide (j < length ws)) as [Hlt|Hge].
    + rewrite list_lookup_insert_eq in Hj by done. naive_solver.
    + rewrite list_insert_ge in Hj by lia. right. apply list_elem_of_lookup. eauto.
  - rewrite list_lookup_insert_ne in Hj by done. right. apply list_elem_of_lookup. eauto.
Qed.

Lemma single_worker (ws : list worker) i w :
  length ws ≤ 1 → ws !! i = Some w → ws = [w] ∧ i = 0.
Proof.
  intros Hlen Hi. destruct ws as [|x [|y ws]]; simpl in *; [done| |lia].
  destruct i; [|done]. by simplify_eq/=.
Qed.

Lemma in_flight_single l i w w' :
  length (<[i := w']> (lg_workers l)) ≤ 1 → lg_workers l !! i = Some w →
  length (lg_workers l) ≤ 1 ∧ in_flight l = worker_records w ∧
  <[i := w']> (lg_workers l) ≫= worker_records = worker_records w'.
Proof.
  rewrite length_insert. intros Hl Hi. destruct (single_worker _ _ _ Hl Hi) as [Hws ->].
  unfold in_flight. rewrite Hws. simpl. by rewrite !app_nil_r.
Qed.

Lemma Start_inv n l acc : audit_inv l acc → audit_inv (Start n l) acc.
Proof.
  revert l. induction n as [|n IH]; intros l H; simpl; [done|].
  apply IH. destruct H as [Hb Hp He Hw Hr Ho]. split; simpl; try done.
  - set_solver.
  - set_solver.
  - unfold live_workers, live_count in *. simpl. rewrite filter_app, length_app. simpl. lia.
  - unfold in_flight in *. simpl. by rewrite bind_app, app_nil_r.
  - unfold in_flight in *. simpl. rewrite length_app. simpl. intros Hl.
    rewrite bind_app, app_nil_r. apply Ho. lia.
Qed.

(** Replacing the record list of worker [i] in the conservation equation. *)
Lemma records_insert l i w w' (o o' b b' : list AuditLog) acc acc' :
  lg_workers l !! i = Some w →
  acc ≡ₚ o ++ in_flight l ++ b →
  acc' ++ worker_records w ++ o ++ b ≡ₚ acc ++ worker_records w' ++ o' ++ b' →
  acc' ≡ₚ o' ++ (<[i := w']> (lg_workers l) ≫= worker_records) ++ b'.
Proof.
  intros Hi Hacc Heq. pose proof (in_flight_insert l i w w' Hi) as Hins.
  apply (Permutation_app_inv_l (worker_records w ++ o ++ b)).
  rewrite (Permutation_app_comm _ acc'), Heq, Hacc.
  set (x := <[i:=w']> (lg_workers l) ≫= worker_records) in *. clearbody x.
  transitivity ((worker_records w' ++ in_flight l) ++ o ++ b ++ o' ++ b').
  - solve_Permutation.
  - rewrite <-Hins. solve_Permutation.
Qed.

Lemma send_inv hint r l acc :
  audit_inv l acc →
  match LogDecision hint r l with
  | Panicked => lg_closed l = true
  | Sent l' => audit_inv l' (acc ++ [r])
  | Dropped l' => l' = l ∧ lg_cap l ≤ length (lg_buf l) ∧ WWaiting ∉ lg_workers l
  end.
Proof.
  intros [Hb Hp He Hw Hr Ho]. unfold LogDecision.
  destruct (lg_closed l) eqn:Hc; [done|].
  destruct (parked l hint) as [i|] eqn:Hpk.
  - apply parked_Some in Hpk.
    destruct Hp as [Hbuf _]; [by eapply list_elem_of_lookup_2|].
    split; unfold set_worker; simpl; try done.
    + intros [?|Hx]%elem_of_insert_worker; [done|]. destruct (He Hx). congruence.
    + unfold live_workers in *. simpl.
      pose proof (live_insert _ _ _ (WLogging r) Hpk). simpl in *. lia.
    + unfold in_flight; simpl. eapply (records_insert l i WWaiting); [done|done|].
      simpl. solve_Permutation.
    + intros Hl. destruct (in_flight_single _ _ _ _ Hl Hpk) as (Hl1&E1&E2).
      unfold in_flight at 1; simpl. rewrite E2, (Ho Hl1), E1, Hbuf. simpl. by rewrite <-?app_assoc, ?app_nil_r.
  - apply parked_None in Hpk. destruct (Nat.ltb_spec (length (lg_buf l)) (lg_cap l)).
    + split; unfold set_buf; simpl; try done.
      * rewrite length_app. simpl. lia.
      * intros Hx. destruct (He Hx). congruence.
      * rewrite Hr. unfold in_flight; simpl. by rewrite <-!app_assoc.
      * intros Hl. rewrite (Ho Hl). unfold in_flight; simpl. by rewrite <-!app_assoc.
    + split_and!; [done|lia|done].
Qed.

Lemma worker_inv i l l' acc : audit_inv l acc → worker_step i l = Some l' → audit_inv l' acc.
Proof.
  intros [Hb Hp He Hw Hr Ho]. unfold worker_step.
  destruct (lg_workers l !! i) as [w|] eqn:Hi; [|done].
  assert (Hlive : ∀ w', live_workers l + (if is_live w' then 1 else 0) =
    live_count (<[i:=w']> (lg_workers l)) + (if is_live w then 1 else 0)).
  { intros w'. by rewrite (live_insert _ _ _ w' Hi). }
  destruct w as [| |r|]; try done.
  - destruct (lg_buf l) as [|r b] eqn:Hbuf.
    + destruct (lg_closed l) eqn:Hc; intros [= <-].
      * specialize (Hlive WExited). split; simpl; try done.
        -- intros [?|Hx]%elem_of_insert_worker; [done|]. by apply Hp.
        -- unfold live_workers, set_worker in *; cbn [is_live lg_workers lg_wg set_buf] in *. lia.
        -- unfold in_flight; simpl. by eapply (records_insert l i WReady).
        -- intros Hl. destruct (in_flight_single _ _ _ _ Hl Hi) as (Hl1&E1&E2).
           unfold in_flight at 1; simpl. rewrite E2, (Ho Hl1), E1. simpl. by rewrite <-?app_assoc, ?app_nil_r.
      * specialize (Hlive WWaiting). split; simpl; try done.
        -- by rewrite Hbuf.
        -- intros [?|Hx]%elem_of_insert_worker; [done|]. by destruct (He Hx).
        -- unfold live_workers, set_worker in *; cbn [is_live lg_workers lg_wg set_buf] in *. lia.
        -- unfold in_flight; simpl. rewrite Hbuf. by eapply (records_insert l i WReady).
        -- intros Hl. destruct (in_flight_single _ _ _ _ Hl Hi) as (Hl1&E1&E2).
           unfold in_flight at 1; simpl. rewrite E2, (Ho Hl1), E1, Hbuf. simpl. by rewrite <-?app_assoc, ?app_nil_r.
    + intros [= <-]. specialize (Hlive (WLogging r)). split; simpl; try done.
      * simpl in Hb. lia.
      * intros [?|Hx]%elem_of_insert_worker; [done|]. by destruct (Hp Hx).
      * intros [?|Hx]%elem_of_insert_worker; [done|]. by destruct (He Hx).
      * unfold live_workers, set_worker in *; cbn [is_live lg_workers lg_wg set_buf] in *. lia.
      * unfold in_flight; simpl. eapply (records_insert l i WReady); [done|done|].
        simpl. solve_Permutation.
      * intros Hl. destruct (in_flight_single _ _ _ _ Hl Hi) as (Hl1&E1&E2).
        unfold in_flight at 1; simpl. rewrite E2, (Ho Hl1), E1. simpl. by rewrite <-?app_assoc, ?app_nil_r.
  - intros [= <-]. specialize (Hlive WReady). split; simpl; try done.
    + intros [?|Hx]%elem_of_insert_worker; [done|]. by apply Hp.
    + intros [?|Hx]%elem_of_insert_worker; [done|]. by apply He.
    + unfold live_workers, set_worker in *; cbn [is_live lg_workers lg_wg set_buf] in *. lia.
    + unfold in_flight; simpl. eapply (records_insert l i (WLogging r)); [done|done|].
      simpl. solve_Permutation.
    + intros Hl. destruct (in_flight_single _ _ _ _ Hl Hi) as (Hl1&E1&E2).
      unfold in_flight at 1; simpl. rewrite E2, (Ho Hl1), E1. simpl. by rewrite <-?app_assoc, ?app_nil_r.
Qed.

Lemma elem_of_wake (ws : list worker) w : w ∈ wake <$> ws → w ≠ WWaiting ∧ (w = WExited → w ∈ ws).
Proof.
  intros ([]&->&Hx)%list_elem_of_fmap; split; try done; simpl; naive_solver.
Qed.

Lemma close_inv l l' acc : audit_inv l acc → close_chan l = Some l' → audit_inv l' acc.
Proof.
  intros [Hb Hp He Hw Hr Ho]. unfold close_chan. destruct (lg_closed l) eqn:Hc; [done|].
  intros [= <-].
  assert (Hfl : (wake <$> lg_workers l) ≫= worker_records = in_flight l).
  { unfold in_flight. generalize (lg_workers l). intros ws.
    induction ws as [|[] ws IH]; csimpl; [done|..]; by rewrite IH. }
  assert (Hlv : live_count (wake <$> lg_workers l) = live_workers l).
  { unfold live_workers, live_count. generalize (lg_workers l). intros ws.
    induction ws as [|[] ws IH]; csimpl; [done|..]; rewrite ?filter_cons; simpl; by rewrite IH. }
  split; unfold live_workers, in_flight; simpl; rewrite ?Hfl, ?Hlv, ?length_fmap; try done.
  - intros [? _]%elem_of_wake. done.
  - intros [_ Hx]%elem_of_wake. destruct (He (Hx eq_refl)). congruence.
Qed.

Lemma arun_step_inv ev l acc dr l' acc' dr' :
  audit_inv l acc → arun_step (l, acc, dr) ev = Some (l', acc', dr') → audit_inv l' acc'.
Proof.
  intros H. destruct ev as [hint r|i|n|]; simpl.
  - pose proof (send_inv hint r l acc H) as Hs.
    destruct (LogDecision hint r l); intros; simplify_eq; [done|].
    by destruct Hs as [-> _].
  - intros (l1&Hs&?)%bind_Some. simplify_eq. by eapply worker_inv.
  - intros; simplify_eq. by apply Start_inv.
  - intros (l1&Hs&?)%bind_Some. simplify_eq. by eapply close_inv.
Qed.

Lemma arun_inv evs l acc dr l' acc' dr' :
  audit_inv l acc → arun evs (l, acc, dr) = Some (l', acc', dr') → audit_inv l' acc'.
Proof.
  revert l acc dr. induction evs as [|ev evs IH]; simpl; intros l acc dr H.
  - intros; by simplify_eq.
  - intros ([[l1 acc1] dr1]&Hs&Hr)%bind_Some. eapply IH; [|done]. by eapply arun_step_inv.
Qed.

Lemma NewAuditLogger_inv n : audit_inv (NewAuditLogger n) [].
Proof. split; simpl; try done; [lia|set_solver..]. Qed.

(** On an open channel a send neither panics nor closes it. *)
Lemma LogDecision_open hint r l :
  lg_closed l = false →
  match LogDecision hint r l with
  | Panicked => False
  | Sent l' | Dropped l' => lg_closed l' = false
  end.
Proof. unfold LogDecision. intros Hc. rewrite Hc. repeat case_match; simplify_eq; done. Qed.

(** The records a run hands to [LogDecision], in order. *)
Definition logged_of (evs : list aevent) : list AuditLog :=
  evs ≫= λ ev, match ev with ELog _ r => [r] | _ => [] end.

(** Only [Stop] closes the channel. *)
Lemma arun_open evs l acc dr l' acc' dr' :
  arun evs (l, acc, dr) = Some (l', acc', dr') → EClose ∉ evs → lg_closed l = false → lg_closed l' = false.
Proof.
  assert (Hstart : ∀ n l, lg_closed (Start n l) = lg_closed l).
  { induction n as [|n IH]; intros l0; simpl; [done|]. by rewrite IH. }
  revert l acc dr. induction evs as [|ev evs IH]; intros l acc dr Hrun Hno Hopen; simpl in Hrun; [by simplify_eq|].
  apply bind_Some in Hrun as ([[l1 acc1] dr1]&Hst&Hrun).
  apply (IH _ _ _ Hrun); [set_solver|].
  destruct ev as [hint r|i|n|]; simpl in Hst.
  - unfold LogDecision in Hst. rewrite Hopen in Hst. repeat case_match; simplify_eq; done.
  - apply bind_Some in Hst as (l2&Hw&?). simplify_eq. unfold worker_step in Hw.
    repeat case_match; simplify_eq; simpl; congruence.
  - simplify_eq. by rewrite Hstart.
  - set_solver.
Qed.


Lemma arun_logged evs l acc dr l' acc' dr' :
  arun evs (l, acc, dr) = Some (l', acc', dr') →
  acc' ++ dr' ≡ₚ acc ++ dr ++ logged_of evs.
Proof.
  revert l acc dr. induction evs as [|ev evs IH]; simpl; intros l acc dr.
  - intros; simplify_eq. by rewrite app_nil_r.
  - intros ([[l1 acc1] dr1]&Hs&Hr)%bind_Some. rewrite (IH _ _ _ Hr).
    unfold logged_of at 2; cbn [mbind list_bind]. fold (logged_of evs).
    destruct ev as [hint r|i|n|]; simpl in Hs |- *.
    + destruct (LogDecision hint r l); simplify_eq; solve_Permutation.
    + by apply bind_Some in Hs as (?&_&?); simplify_eq.
    + by simplify_eq.
    + by apply bind_Some in Hs as (?&_&?); simplify_eq.
Qed.

(** Worker steps left before every worker is parked or gone. *)
Definition worker_weight (w : worker) : nat :=
  match w with WReady => 1 | WLogging _ => 2 | _ => 0 end.

Definition drain_measure (l : AuditLogger) : nat :=
  2 * length (lg_buf l) + sum_list (worker_weight <$> lg_workers l).

Lemma worker_step_measure i l l' :
  worker_step i l = Some l' → S (drain_measure l') = drain_measure l.
Proof.
  unfold worker_step, drain_measure.
  destruct (lg_workers l !! i) as [w|] eqn:Hi; [|done].
  pose proof (λ w', sum_fmap_insert worker_weight _ _ _ w' Hi) as Hs.
  destruct w as [| |r|]; try done.
  - destruct (lg_buf l) as [|r b] eqn:Hbuf; [destruct (lg_closed l)|]; intros [= <-];
      unfold set_worker, set_buf; cbn [lg_buf lg_workers length];
      [specialize (Hs WExited)|rewrite Hbuf; specialize (Hs WWaiting)|specialize (Hs (WLogging r))];
      cbn [worker_weight length] in *; lia.
  - intros [= <-]. specialize (Hs WReady). cbn [lg_buf lg_workers worker_weight] in *. lia.
Qed.

Lemma workers_bounded ixs l acc dr l' acc' dr' :
  arun (EWorker <$> ixs) (l, acc, dr) = Some (l', acc', dr') →
  acc' = acc ∧ dr' = dr ∧ length ixs + drain_measure l' = drain_measure l ∧
  lg_closed l' = lg_closed l ∧ length (lg_workers l') = length (lg_workers l).
Proof.
  revert l. induction ixs as [|i ixs IH]; intros l; csimpl; [intros; by simplify_eq|].
  intros ([[l1 acc1] dr1]&Hs&Hr)%bind_Some. apply bind_Some in Hs as (l2&Hs&?); simplify_eq.
  destruct (IH _ Hr) as (->&->&Hm&Hc&Hl). pose proof (worker_step_measure _ _ _ Hs).
  assert (lg_closed l1 = lg_closed l ∧ length (lg_workers l1) = length (lg_workers l)) as [Hc1 Hl1].
  { unfold worker_step in Hs. repeat case_match; simplify_eq; simpl; by rewrite ?length_insert. }
  rewrite Hc, Hl. split_and!; [done|done|lia|done|done].
Qed.

(** On a closed channel a worker that has not returned can always step. *)
Lemma closed_progress l acc :
  audit_inv l acc → lg_closed l = true → wait_returns l = false →
  ∃ i l', worker_step i l = Some l'.
Proof.
  intros [_ Hp _ Hw _ _] Hc Hz. unfold wait_returns in Hz. bool_simp.
  unfold live_workers, live_count in Hw.
  destruct (filter (λ w, is_live w = true) (lg_workers l)) as [|w ws] eqn:Hf; [done|].
  assert (Hin : w ∈ filter (λ w, is_live w = true) (lg_workers l)) by (rewrite Hf; left).
  apply list_elem_of_filter in Hin as [Hlive Hin].
  destruct (proj1 (list_elem_of_lookup _ _) Hin) as [i Hi]. exists i.
  unfold worker_step. rewrite Hi. destruct w as [| |r|]; try done.
  - rewrite Hc. destruct (lg_buf l); eauto.
  - destruct (Hp Hin). congruence.
  - eauto.
Qed.

Lemma drained l acc :
  audit_inv l acc → wait_returns l = true → lg_workers l ≠ [] →
  lg_buf l = [] ∧ in_flight l = [] ∧ acc ≡ₚ lg_out l.
Proof.
  intros [_ Hp He Hw Hr _] Hz Hne. unfold wait_returns in Hz. bool_simp.
  assert (Hall : ∀ w, w ∈ lg_workers l → w = WExited).
  { intros w Hin. destruct (is_live w) eqn:Hl; [|by destruct w].
    assert (w ∈ filter (λ w, is_live w = true) (lg_workers l)) as Hf
      by (by apply list_elem_of_filter).
    unfold live_workers, live_count in Hw. rewrite Hz in Hw.
    destruct (filter _ (lg_workers l)); [by apply elem_of_nil in Hf|done]. }
  assert (Hfl : in_flight l = []).
  { unfold in_flight. clear -Hall. induction (lg_workers l) as [|w ws IH]; [done|].
    simpl. rewrite (Hall w) by left. simpl. apply IH. intros; apply Hall; by right. }
  assert (Hbuf : lg_buf l = []).
  { destruct (lg_workers l) as [|w ws] eqn:Hws; [done|].
    apply He. rewrite <-(Hall w) by left. left. }
  rewrite Hfl, Hbuf, app_nil_r in Hr. split_and!; [done|done|done].
Qed.

(** ** Properties *)

(** C32: in every interleaving of producers, workers and [Stop], the buffer
    stays within its bound, the wait group counts the workers that have not
    returned, every record given to [LogDecision] is either dropped or
    accepted, and every accepted record is exactly once in the log, with a
    worker, or in the buffer; with one worker the log is a prefix of the
    accepted records in their order. *)
Theorem audit_conservation evs cap l acc dr :
  arun evs (NewAuditLogger cap, [], []) = Some (l, acc, dr) →
  length (lg_buf l) ≤ lg_cap l ∧
  lg_wg l = live_workers l ∧
  logged_of evs ≡ₚ acc ++ dr ∧
  acc ≡ₚ lg_out l ++ in_flight l ++ lg_buf l ∧
  (length (lg_workers l) ≤ 1 → lg_out l `prefix_of` acc).
Proof.
  intros Hrun. pose proof (arun_logged _ _ _ _ _ _ _ Hrun) as Hlog.
  destruct (arun_inv _ _ _ _ _ _ _ (NewAuditLogger_inv cap) Hrun) as [Hb _ _ Hw Hr Ho].
  split_and!; [done|done|by symmetry|done|].
  intros Hl. rewrite (Ho Hl). by eexists.
Qed.

(** C33: once [Stop] has closed the channel, the workers return after a bounded
    number of steps whatever the schedule: a run of [n] worker steps leaves
    [drain_measure l - n] of them, and until [wg.Wait] returns some worker can
    step; when it returns and at least one worker was started, every accepted
    record has been written and none is left behind. *)
Theorem stop_drains evs cap l acc dr ixs l' acc' dr' :
  arun evs (NewAuditLogger cap, [], []) = Some (l, acc, dr) →
  lg_closed l = true →
  arun (EWorker <$> ixs) (l, acc, dr) = Some (l', acc', dr') →
  length ixs + drain_measure l' = drain_measure l ∧
  (wait_returns l' = false → ∃ i l'', worker_step i l' = Some l'') ∧
  (wait_returns l' = true → lg_workers l ≠ [] → lg_buf l' = [] ∧ acc ≡ₚ lg_out l').
Proof.
  intros Hrun Hc Hw. pose proof (arun_inv _ _ _ _ _ _ _ (NewAuditLogger_inv cap) Hrun) as Hi.
  destruct (workers_bounded _ _ _ _ _ _ _ Hw) as (->&->&Hm&Hc'&Hl).
  pose proof (arun_inv _ _ _ _ _ _ _ Hi Hw) as Hi'.
  split_and!; [done|intros; eapply closed_progress; eauto; congruence|].
  intros Hz Hne. destruct (drained l' acc Hi' Hz) as (?&_&?); [|done].
  intros Hnil. rewrite Hnil in Hl. by destruct (lg_workers l).
Qed.

(** [LogDecision] panics exactly on a closed channel, and on an open one
    it drops a record exactly when the buffer is full and no worker waits to
    receive; otherwise the record is accepted.  It never blocks. *)
Theorem LogDecision_outcome evs cap l acc dr hint r :
  arun evs (NewAuditLogger cap, [], []) = Some (l, acc, dr) →
  match LogDecision hint r l with
  | Panicked => lg_closed l = true
  | Dropped l' => lg_closed l = false ∧ l' = l ∧ length (lg_buf l) = lg_cap l ∧
                  WWaiting ∉ lg_workers l
  | Sent l' => lg_closed l = false ∧ audit_inv l' (acc ++ [r]) ∧
               (length (lg_buf l) < lg_cap l ∨ WWaiting ∈ lg_workers l)
  end.
Proof.
  intros Hrun. pose proof (arun_inv _ _ _ _ _ _ _ (NewAuditLogger_inv cap) Hrun) as Hi.
  pose proof (send_inv hint r l acc Hi) as Hs. pose proof (inv_bound _ _ Hi).
  unfold LogDecision in *. destruct (lg_closed l); [done|].
  destruct (parked l hint) as [i|] eqn:Hp.
  - split_and!; [done|done|]. right. eapply list_elem_of_lookup_2. by apply parked_Some in Hp.
  - destruct (Nat.ltb_spec (length (lg_buf l)) (lg_cap l)); [by split_and!; auto|].
    destruct Hs as (_&_&?). split_and!; [done|done|lia|done].
Qed.

(** ** Witnesses *)

Definition rec_of (n : string) : AuditLog := mkAuditLog n "read" "doc" true "r" "p" 5%Z.

(** One worker, a buffer of one: the first record is handed over, the second
    buffered, the third dropped. *)
Definition sample_events : list aevent :=
  [EStart 1; EWorker 0; ELog 0 (rec_of "a"); ELog 0 (rec_of "b"); ELog 0 (rec_of "c")].

Lemma audit_conservation_witness :
  ∃ l, arun sample_events (NewAuditLogger 1, [], []) =
         Some (l, [rec_of "a"; rec_of "b"], [rec_of "c"]) ∧ lg_out l `prefix_of` [rec_of "a"; rec_of "b"].
Proof.
  eexists. split; [vm_compute; reflexivity|].
  eapply (audit_conservation sample_events 1); [vm_compute; reflexivity|vm_compute; lia].
Defined.

Lemma stop_drains_witness :
  ∃ l l', arun (sample_events ++ [EClose]) (NewAuditLogger 1, [], []) =
            Some (l, [rec_of "a"; rec_of "b"], [rec_of "c"]) ∧
    arun (EWorker <$> [0; 0; 0; 0]) (l, [rec_of "a"; rec_of "b"], [rec_of "c"]) =
      Some (l', [rec_of "a"; rec_of "b"], [rec_of "c"]) ∧
    lg_buf l' = [] ∧ [rec_of "a"; rec_of "b"] ≡ₚ lg_out l'.
Proof.
  eexists _, _. split; [vm_compute; reflexivity|]. split; [vm_compute; reflexivity|].
  eapply (stop_drains (sample_events ++ [EClose]) 1 _ _ _ [0; 0; 0; 0]);
    [vm_compute; reflexivity..|discriminate].
Defined.

Lemma LogDecision_outcome_witness :
  ∃ l, arun sample_events (NewAuditLogger 1, [], []) =
         Some (l, [rec_of "a"; rec_of "b"], [rec_of "c"]) ∧
       LogDecision 0 (rec_of "d") l = Dropped l ∧ length (lg_buf l) = lg_cap l.
Proof.
  eexists. split; [vm_compute; reflexivity|]. split; [vm_compute; reflexivity|].
  pose proof (LogDecision_outcome sample_events 1 _ _ _ 0 (rec_of "d") eq_refl) as H.
  exact (proj1 (proj2 (proj2 H))).
Defined.
