(* ===== verification/Decision.v ===== *)
(** Decisions taken while the store changes: [CheckAccess] on the snapshots of
    [StoreConc]'s executions, and on the states in the middle of an
    [UpsertPolicy]. *)
From S2P Require Import Prelude Policy LiteralRegexp Store StoreConc StoreConcProps Operators Engine.
Open Scope string_scope.
Open Scope nat_scope.
Open Scope list_scope.

Section WithRegexp.
Context `{RE : RegexpLib}.

(** The tables at the instant a schedule prefix reaches. *)
Definition instant (calls : list (list call)) (sched : list nat) : PolicyStore :=
  view (sys_sh (run sched (spawn calls)).1).

(** A decision taken on the tables [ps], listed in the given orders. *)
Definition decides (oa od : RangeOrder Policy) (ps : PolicyStore) (req : EvaluationRequest) : Prop :=
  granted (ListActivePolicies oa od ps) req.

Lemma decides_iff oa od ps req :
  decides oa od ps req ↔
  (∃ id p, st_allow ps !! id = Some p ∧ policy_applies p req) ∧
  (∀ id d, st_deny ps !! id = Some d → ¬ policy_applies d req).
Proof.
  unfold decides. destruct (ListActivePolicies oa od ps) as [snap|] eqn:Hl; [|done].
  destruct (list_active_elem _ _ _ _ Hl) as [Ha Hd]. rewrite granted_iff.
  setoid_rewrite Ha. setoid_rewrite Hd. simpl. naive_solver.
Qed.

(** Access grows with the allow table and shrinks with the deny table. *)
Lemma decides_mono oa od oa' od' ps ps' req :
  st_allow ps ⊆ st_allow ps' → st_deny ps' ⊆ st_deny ps →
  decides oa od ps req → decides oa' od' ps' req.
Proof.
  intros Ha Hd. rewrite !decides_iff. intros [(id&p&Hp&?) Hno]. split.
  - exists id, p. split; [|done]. by eapply lookup_weaken.
  - intros i d Hi. eapply Hno. by eapply lookup_weaken.
Qed.

(** ** Properties *)

(** C22: a request granted on a snapshot taken while any number of goroutines
    mutate the store was allowed by a policy live at one instant of the run
    and denied by no policy live at a later instant; and when no deny policy
    disappears between the two instants, it would have been granted at the
    first of them. *)
Theorem concurrent_grant_justified calls sched k ps oa od req :
  (k, EvRead ps) ∈ (run sched (spawn calls)).2 →
  decides oa od ps req →
  ∃ s1 s2 s3, sched = s1 ++ s2 ++ s3 ∧
    (∃ id p, st_allow (instant calls s1) !! id = Some p ∧ policy_applies p req) ∧
    (∀ id d, st_deny (instant calls (s1 ++ s2)) !! id = Some d → ¬ policy_applies d req) ∧
    (st_deny (instant calls s1) ⊆ st_deny (instant calls (s1 ++ s2)) →
     decides oa od (instant calls s1) req).
Proof.
  intros Hin Hg. apply read_instants in Hin as (s1&s2&s3&->&Ha&Hd).
  apply decides_iff in Hg as [Hal Hno]. rewrite Ha in Hal. rewrite Hd in Hno.
  exists s1, s2, s3. split_and!; [done|done|done|].
  intros Hsub. apply decides_iff. split; [done|].
  intros id d Hid. eapply Hno. by eapply lookup_weaken.
Qed.

(** A change of access mode is fail-safe at its intermediate instant.  In
    a store reached by any history, the state between the two table updates of
    [UpsertPolicy] grants only what the state before or the state after
    grants. *)
Theorem upsert_intermediate_fail_safe ops o p oa od req :
  let before := run_ops ops NewPolicyStore in
  let middle := removeFrom o (other (route p)) (p_ID p) before in
  let after := UpsertPolicy o p before in
  after = upsertInto (route p) p middle ∧
  ∀ oa' od', decides oa od middle req → decides oa' od' before req ∨ decides oa' od' after req.
Proof.
  intros before middle after.
  assert (Hafter : after = upsertInto (route p) p middle).
  { unfold after, middle, UpsertPolicy, route, is_allow. by case_match. }
  split; [done|]. intros oa' od'. rewrite Hafter.
  pose proof (represents_disjoint _ _ (represents_run ops _ _ represents_new)) as Hdisj.
  fold before in Hdisj.
  assert (Hm : ∀ t, table_get t middle = if decide (t = other (route p))
    then delete (p_ID p) (table_get t before) else table_get t before)
    by (intros t; apply table_get_removeFrom).
  assert (Ha : ∀ t, table_get t (upsertInto (route p) p middle) = if decide (t = route p)
    then <[p_ID p := p]> (table_get t middle) else table_get t middle)
    by (intros t; apply table_get_upsertInto).
  clear Hafter. pose proof (Hm TAllow) as Hma. pose proof (Hm TDeny) as Hmd.
  pose proof (Ha TAllow) as Haa. pose proof (Ha TDeny) as Had.
  destruct (route p); simpl in *; intros Hg.
  - destruct (st_deny before !! p_ID p) as [d|] eqn:Hd.
    + right. revert Hg. apply decides_mono; rewrite ?Haa, ?Had; [|done].
      apply insert_subseteq. rewrite Hma. by eapply map_disjoint_Some_r.
    + left. revert Hg. apply decides_mono; [by rewrite Hma|]. by rewrite Hmd, delete_id.
  - left. revert Hg. apply decides_mono; [|by rewrite Hmd].
    rewrite Hma. apply delete_subseteq.
Qed.

End WithRegexp.

(** ** Concrete executions *)

Definition doc_read : EvaluationRequest :=
  mkRequest "alice" None "document" "d1" None "read" None.

Definition allow_doc (id : string) : Policy :=
  mkPolicy id "" AccessAllow (mkTarget "document" "read") [].
Definition deny_doc (id : string) : Policy :=
  mkPolicy id "" AccessDeny (mkTarget "document" "read") [].

(** One writer that adds a deny policy, then an allow policy, then deletes
    them in the reverse order; one reader. *)
Definition torn_calls : list (list call) :=
  [[CUpsert canonical_order (deny_doc "D"); CUpsert canonical_order (allow_doc "A");
    CDelete canonical_order canonical_order "A"; CDelete canonical_order canonical_order "D"];
   [CRead]].

(** The reader loads the allow table while both policies are live and the deny
    table after both are gone. *)
Definition torn_schedule : list nat :=
  repeat 0 8 ++ [1] ++ repeat 0 8 ++ [1].

(** The boolean form of [decides] on the canonical listing order. *)
Definition grants_b (ps : PolicyStore) (req : EvaluationRequest) : bool :=
  match CheckAccess (ListActivePolicies canonical_order canonical_order ps) 0 0 req with
  | Ok resp => e_Allowed resp
  | Err _ => false
  end.

Lemma grants_b_spec ps req : grants_b ps req = true ↔ decides canonical_order canonical_order ps req.
Proof.
  unfold grants_b, decides, granted. destruct (CheckAccess _ _ _ _) as [resp|e].
  - split; [by exists resp|]. by intros (?&[= <-]&?).
  - split; [done|]. by intros (?&?&_).
Qed.

Lemma torn_event :
  (1, EvRead (mkStore {["A" := allow_doc "A"]} ∅)) ∈ (run torn_schedule (spawn torn_calls)).2.
Proof. apply list_elem_of_lookup. exists 8. vm_compute. reflexivity. Qed.

(** C40: a snapshot is not the store of one instant.  Deleting an allow policy
    and then the deny policy that overrode it, while a reader is between its
    two loads, grants a request that the store refuses at every instant of the
    run. *)
Theorem torn_snapshot_grants :
  ∃ ps, (1, EvRead ps) ∈ (run torn_schedule (spawn torn_calls)).2 ∧
    decides canonical_order canonical_order ps doc_read ∧
    ∀ n, ¬ decides canonical_order canonical_order (instant torn_calls (take n torn_schedule)) doc_read.
Proof.
  eexists (mkStore {["A" := allow_doc "A"]} ∅). split_and!.
  - exact torn_event.
  - apply grants_b_spec. by vm_compute.
  - intros n. rewrite <-grants_b_spec, not_true_iff_false.
    destruct (decide (n < 18)) as [Hn|Hn].
    + do 18 (destruct n as [|n]; [by vm_compute|]). lia.
    + rewrite take_ge by (vm_compute; lia). by vm_compute.
Qed.

(** Two goroutines upsert one ID with conflicting access modes: both removals
    run before both insertions. *)
Definition conflict_calls : list (list call) :=
  [[CUpsert canonical_order (allow_doc "X")]; [CUpsert canonical_order (deny_doc "X")]].
Definition conflict_schedule : list nat := [0; 0; 1; 1; 0; 0; 1; 1].

(** Without the single-writer discipline one ID can end in both tables,
    and then the deny entry wins. *)
Theorem conflicting_writers_both_tables :
  let sys := (run conflict_schedule (spawn conflict_calls)).1 in
  Forall (λ th, thread_done th = true) (sys_threads sys) ∧
  st_allow (view (sys_sh sys)) !! "X" = Some (allow_doc "X") ∧
  st_deny (view (sys_sh sys)) !! "X" = Some (deny_doc "X") ∧
  ∀ oa od req, policy_applies (deny_doc "X") req → ¬ decides oa od (view (sys_sh sys)) req.
Proof.
  intros sys.
  assert (Hd : st_deny (view (sys_sh sys)) !! "X" = Some (deny_doc "X")) by (by vm_compute).
  split_and!; [repeat constructor|by vm_compute|done|].
  intros oa od req Happ [_ Hno]%decides_iff. by eapply Hno.
Qed.

(** ** Witnesses *)

Lemma concurrent_grant_justified_witness :
  ∃ ps, (1, EvRead ps) ∈ (run torn_schedule (spawn torn_calls)).2 ∧
  ∃ s1 s2 s3, torn_schedule = s1 ++ s2 ++ s3 ∧
    (∃ id p, st_allow (instant torn_calls s1) !! id = Some p ∧ policy_applies p doc_read) ∧
    (∀ id d, st_deny (instant torn_calls (s1 ++ s2)) !! id = Some d → ¬ policy_applies d doc_read).
Proof.
  exists (mkStore {["A" := allow_doc "A"]} ∅). split; [exact torn_event|].
  destruct (concurrent_grant_justified torn_calls torn_schedule 1 _ canonical_order canonical_order
    doc_read torn_event) as (s1&s2&s3&H1&H2&H3&_).
  - apply grants_b_spec. vm_compute. reflexivity.
  - exists s1, s2, s3. split; [exact H1|]. split; [exact H2|exact H3].
Defined.
