(* ===== verification/AuthzPb.v ===== *)
(** pkg/gen/authzv1/authz.pb.go: the messages of the gRPC API.

    A message pointer is an [option]: the getters are nil-safe.  Only the
    fields the schema declares are kept; the bookkeeping fields of the
    protobuf runtime ([state], [sizeCache], [unknownFields]) are not read by
    the program. *)
From S2P Require Import Prelude.
Open Scope string_scope.
Open Scope nat_scope.
Open Scope list_scope.

Record AttributeValues := mkAttributeValues { av_Values : list string }.

(** A map[string]*AttributeValues: nil, or entries that may be nil. *)
Definition AttrMap : Type := GoMap (option AttributeValues).

Record CheckAccessRequest := mkCheckAccessRequest {
  q_PrincipalId : string;
  q_PrincipalAttributes : AttrMap;
  q_ResourceType : string;
  q_ResourceId : string;
  q_ResourceAttributes : AttrMap;
  q_Action : string;
  q_EnvironmentAttributes : AttrMap
}.

Record CheckAccessResponse := mkCheckAccessResponse {
  a_Allowed : bool;
  a_MatchedPolicyId : string;
  a_Reason : string;
  a_EvaluationTimeNs : Z
}.

Definition zero_CheckAccessResponse : CheckAccessResponse := mkCheckAccessResponse false "" "" 0.

Definition zero_AttributeValues : AttributeValues := mkAttributeValues [].
Definition zero_CheckAccessRequest : CheckAccessRequest := mkCheckAccessRequest "" None "" "" None "" None.

(** [Reset], on a message that is not nil. *)
Definition AttributeValues_Reset (x : AttributeValues) : AttributeValues := zero_AttributeValues.
Definition CheckAccessRequest_Reset (x : CheckAccessRequest) : CheckAccessRequest := zero_CheckAccessRequest.
Definition CheckAccessResponse_Reset (x : CheckAccessResponse) : CheckAccessResponse := zero_CheckAccessResponse.

(** The getters of a possibly nil request. *)
Definition GetPrincipalId (x : option CheckAccessRequest) : string :=
  match x with Some x => q_PrincipalId x | None => "" end.
Definition GetPrincipalAttributes (x : option CheckAccessRequest) : AttrMap :=
  match x with Some x => q_PrincipalAttributes x | None => None end.
Definition GetResourceType (x : option CheckAccessRequest) : string :=
  match x with Some x => q_ResourceType x | None => "" end.
Definition GetResourceId (x : option CheckAccessRequest) : string :=
  match x with Some x => q_ResourceId x | None => "" end.
Definition GetResourceAttributes (x : option CheckAccessRequest) : AttrMap :=
  match x with Some x => q_ResourceAttributes x | None => None end.
Definition GetAction (x : option CheckAccessRequest) : string :=
  match x with Some x => q_Action x | None => "" end.
Definition GetEnvironmentAttributes (x : option CheckAccessRequest) : AttrMap :=
  match x with Some x => q_EnvironmentAttributes x | None => None end.

(** The getters of a possibly nil response. *)
Definition GetAllowed (x : option CheckAccessResponse) : bool :=
  match x with Some x => a_Allowed x | None => false end.
Definition GetMatchedPolicyId (x : option CheckAccessResponse) : string :=
  match x with Some x => a_MatchedPolicyId x | None => "" end.
Definition GetReason (x : option CheckAccessResponse) : string :=
  match x with Some x => a_Reason x | None => "" end.
Definition GetEvaluationTimeNs (x : option CheckAccessResponse) : Z :=
  match x with Some x => a_EvaluationTimeNs x | None => 0%Z end.
Definition GetValues (x : option AttributeValues) : list string :=
  match x with Some x => av_Values x | None => [] end.

(** A map literal with one entry, as the enforcement points build. *)
Definition attr_singleton (k : string) (vs : list string) : AttrMap :=
  Some {[ k := Some (mkAttributeValues vs) ]}.
