(* ===== verification/Server.v ===== *)
(** internal/server/grpc.go: the gRPC service over the engine and the audit
    logger. *)
From S2P Require Import Prelude GoText Policy LiteralRegexp Store Operators Engine AuditQueue AuthzPb.
Open Scope string_scope.
Open Scope nat_scope.
Open Scope list_scope.

(** [mapAttributes]: nil stays nil, nil values are skipped. *)
Definition mapAttributes (o : RangeOrder (option AttributeValues)) (protoAttrs : AttrMap)
    : GoMap (list string) :=
  match protoAttrs with
  | None => None
  | Some m =>
    Some (foldl (λ engineAttrs kv,
      match kv.2 with
      | Some v => <[kv.1 := av_Values v]> engineAttrs
      | None => engineAttrs
      end) ∅ (o m))
  end.

(** The iteration orders of the three attribute maps of a request. *)
Record AttrOrders := mkAttrOrders {
  o_principal : RangeOrder (option AttributeValues);
  o_resource : RangeOrder (option AttributeValues);
  o_environment : RangeOrder (option AttributeValues)
}.

Definition eval_request (os : AttrOrders) (req : CheckAccessRequest) : EvaluationRequest := {|
  r_PrincipalID := q_PrincipalId req;
  r_PrincipalAttributes := mapAttributes (o_principal os) (q_PrincipalAttributes req);
  r_ResourceType := q_ResourceType req;
  r_ResourceID := q_ResourceId req;
  r_ResourceAttributes := mapAttributes (o_resource os) (q_ResourceAttributes req);
  r_Action := q_Action req;
  r_EnvironmentAttributes := mapAttributes (o_environment os) (q_EnvironmentAttributes req)
|}.

Definition audit_record (req : CheckAccessRequest) (evalResp : EvaluationResponse) : AuditLog := {|
  al_PrincipalID := q_PrincipalId req;
  al_Action := q_Action req;
  al_ResourceID := q_ResourceId req;
  al_Allowed := e_Allowed evalResp;
  al_Reason := e_Reason evalResp;
  al_PolicyId := e_MatchedPolicyID evalResp;
  al_LatencyNs := e_EvaluationTimeNs evalResp
|}.

Definition proto_response (evalResp : EvaluationResponse) : CheckAccessResponse := {|
  a_Allowed := e_Allowed evalResp;
  a_MatchedPolicyId := e_MatchedPolicyID evalResp;
  a_Reason := e_Reason evalResp;
  a_EvaluationTimeNs := e_EvaluationTimeNs evalResp
|}.

(** What an RPC does: panic, or return a response pointer and an error with
    the audit logger left in some state. *)
Inductive rpc_outcome (A : Type) :=
  | RpcPanic
  | RpcReturn (resp : option A) (err : option string) (l : AuditLogger).
Arguments RpcPanic {A}.
Arguments RpcReturn {A} resp err l.

Section WithRegexp.
Context `{RE : RegexpLib}.

(** [AuthzServer.CheckAccess].  [listed], [start], [now] are what the engine
    reads; [hint] is the receiver the runtime would pick for the audit record. *)
Definition CheckAccess (listed : result PolicySnapshot) (start now : Z) (os : AttrOrders)
    (hint : nat) (req : CheckAccessRequest) (l : AuditLogger) : rpc_outcome CheckAccessResponse :=
  match Engine.CheckAccess listed start now (eval_request os req) with
  | Err err => RpcReturn None (Some err) l
  | Ok evalResp =>
    match LogDecision hint (audit_record req evalResp) l with
    | Panicked => RpcPanic
    | Sent l' | Dropped l' => RpcReturn (Some (proto_response evalResp)) None l'
    end
  end.

(** ** Specification *)

(** The values a protobuf attribute map holds under a key: an absent map, an
    absent key and a nil value all read as absent. *)
Definition proto_values (m : AttrMap) (k : string) : option (list string) :=
  v ← map_index m k; av ← v; Some (av_Values av).

Lemma mapAttributes_lookup o m k : map_index (mapAttributes o m) k = proto_values m k.
Proof.
  destruct m as [m|]; [|done]. simpl. unfold proto_values; simpl.
  assert (Hloop : ∀ (l : list (string * option AttributeValues)) (acc : gmap string (list string)),
    NoDup l.*1 →
    foldl (λ engineAttrs kv, match kv.2 with
      | Some v => <[kv.1 := av_Values v]> engineAttrs | None => engineAttrs end) acc l !! k =
    match (list_to_map l : gmap string (option AttributeValues)) !! k with
    | Some (Some av) => Some (av_Values av)
    | _ => acc !! k
    end).
  { induction l as [|[k' v] l IH]; intros acc Hnd; csimpl in *; [by rewrite lookup_empty|].
    apply NoDup_cons in Hnd as [Hk' Hnd]. rewrite IH by done.
    destruct (decide (k' = k)) as [->|Hne].
    - rewrite lookup_insert_eq. rewrite (not_elem_of_list_to_map_1 (M:=gmap string) l k) by done.
      destruct v as [av|]; [by rewrite lookup_insert_eq|done].
    - rewrite lookup_insert_ne by done. destruct v as [av|]; [|done].
      by rewrite lookup_insert_ne by done. }
  rewrite Hloop, lookup_empty.
  - assert ((list_to_map (o m) : gmap string (option AttributeValues)) = m) as ->.
    { rewrite <-(list_to_map_to_list m) at 2. apply list_to_map_proper; [|apply range_perm].
      rewrite (range_perm o m). apply NoDup_fst_map_to_list. }
    by destruct (m !! k) as [[]|].
  - rewrite (range_perm o m). apply NoDup_fst_map_to_list.
Qed.

Lemma mapAttributes_order o o' m : mapAttributes o m = mapAttributes o' m.
Proof.
  destruct m as [m|]; [|done]. pose proof (λ k, mapAttributes_lookup o (Some m) k) as H.
  pose proof (λ k, mapAttributes_lookup o' (Some m) k) as H'. simpl in *.
  f_equal. apply map_eq. intros k. by rewrite H, H'.
Qed.

Lemma eval_request_order os os' req : eval_request os req = eval_request os' req.
Proof.
  unfold eval_request. f_equal; apply mapAttributes_order.
Qed.

(** The engine is asked what the RPC asks. *)
Definition reads_as (r : EvaluationRequest) (req : CheckAccessRequest) : Prop :=
  r_PrincipalID r = q_PrincipalId req ∧ r_ResourceType r = q_ResourceType req ∧
  r_ResourceID r = q_ResourceId req ∧ r_Action r = q_Action req ∧
  (∀ k, map_index (r_PrincipalAttributes r) k = proto_values (q_PrincipalAttributes req) k) ∧
  (∀ k, map_index (r_ResourceAttributes r) k = proto_values (q_ResourceAttributes req) k) ∧
  (∀ k, map_index (r_EnvironmentAttributes r) k = proto_values (q_EnvironmentAttributes req) k).

Lemma eval_request_reads os req : reads_as (eval_request os req) req.
Proof. split_and!; try done; intros k; apply mapAttributes_lookup. Qed.

(** The response says what the engine decided. *)
Definition carries (resp : CheckAccessResponse) (ev : EvaluationResponse) : Prop :=
  a_Allowed resp = e_Allowed ev ∧ a_MatchedPolicyId resp = e_MatchedPolicyID ev ∧
  a_Reason resp = e_Reason ev ∧ a_EvaluationTimeNs resp = e_EvaluationTimeNs ev.

(** The record says who asked for what, and what the engine decided. *)
Definition records (rec : AuditLog) (req : CheckAccessRequest) (ev : EvaluationResponse) : Prop :=
  al_PrincipalID rec = q_PrincipalId req ∧ al_Action rec = q_Action req ∧ al_ResourceID rec = q_ResourceId req ∧
  al_Allowed rec = e_Allowed ev ∧ al_Reason rec = e_Reason ev ∧ al_PolicyId rec = e_MatchedPolicyID ev ∧
  al_LatencyNs rec = e_EvaluationTimeNs ev.

(** A policy applies to an RPC request: its target matches, and each condition
    names an attribute the request carries whose values satisfy it. *)
Definition proto_attrs (prefix : string) (req : CheckAccessRequest) : option AttrMap :=
  if String.eqb prefix "principal" then Some (q_PrincipalAttributes req)
  else if String.eqb prefix "resource" then Some (q_ResourceAttributes req)
  else if String.eqb prefix "environment" then Some (q_EnvironmentAttributes req)
  else None.

Definition proto_condition_holds (cond : Condition) (req : CheckAccessRequest) : Prop :=
  ∃ prefix key attrs vals,
    c_Attribute cond = (prefix +:+ String "." key)%string ∧ has_byte "." prefix = false ∧
    proto_attrs prefix req = Some attrs ∧ proto_values attrs key = Some vals ∧
    op_holds cond vals.

Definition proto_applies (p : Policy) (req : CheckAccessRequest) : Prop :=
  t_ResourceType (p_Target p) = q_ResourceType req ∧
  t_Action (p_Target p) = q_Action req ∧
  ∀ cond, cond ∈ p_Conditions p → proto_condition_holds cond req.

Lemma proto_condition_holds_iff os cond req :
  condition_holds cond (eval_request os req) ↔ proto_condition_holds cond req.
Proof.
  assert (Hattr : ∀ prefix key vals,
    (∃ attrs, attribute_map prefix (eval_request os req) = Some attrs ∧ map_index attrs key = Some vals) ↔
    (∃ attrs, proto_attrs prefix req = Some attrs ∧ proto_values attrs key = Some vals)).
  { intros prefix key vals. unfold attribute_map, proto_attrs; simpl.
    repeat (destruct (String.eqb _ _); [setoid_rewrite <-mapAttributes_lookup; naive_solver|]).
    naive_solver. }
  split; intros (prefix&key&attrs&vals&?&?&Ha&Hv&?).
  - destruct (proj1 (Hattr prefix key vals)) as (attrs'&?&?); [by exists attrs|].
    by exists prefix, key, attrs', vals.
  - destruct (proj2 (Hattr prefix key vals)) as (attrs'&?&?); [by exists attrs|].
    by exists prefix, key, attrs', vals.
Qed.

Lemma proto_applies_iff os p req : policy_applies p (eval_request os req) ↔ proto_applies p req.
Proof.
  unfold policy_applies, proto_applies; simpl.
  by setoid_rewrite proto_condition_holds_iff.
Qed.

(** A response allows the request exactly when the engine grants it. *)
Lemma rpc_response_granted listed start now os hint req l resp err l' :
  CheckAccess listed start now os hint req l = RpcReturn (Some resp) err l' →
  a_Allowed resp = true ↔ granted listed (eval_request os req).
Proof.
  intros H. destruct listed as [snap|]; [|done].
  rewrite (granted_time snap start now). unfold CheckAccess in H.
  destruct (Engine.CheckAccess (Ok snap) start now _) as [ev|] eqn:Hev; [|done].
  assert (resp = proto_response ev) as -> by (destruct (LogDecision _ _ _); by simplify_eq).
  simpl. split; [|by intros (?&[= <-]&?)]. intros Ha. by exists ev.
Qed.

(** ** Properties *)

(** C34: the outcome of the RPC.  With an audit logger reached by any run: a
    provider error is returned as it is, with no response and no audit record;
    otherwise the engine has been asked what the RPC asks, the response carries
    its verdict, matched policy, reason and evaluation time, and a record with
    the request's principal, action and resource and the same verdict, policy,
    reason and time has been accepted by the logger or dropped because it was
    full; the handler panics only when the logger has been stopped.  The
    iteration order of the attribute maps is irrelevant. *)
Theorem rpc_outcome_audited evs cap l acc dr listed start now os hint req :
  arun evs (NewAuditLogger cap, [], []) = Some (l, acc, dr) →
  (∀ os', CheckAccess listed start now os' hint req l = CheckAccess listed start now os hint req l) ∧
  match CheckAccess listed start now os hint req l with
  | RpcPanic => lg_closed l = true ∧ is_Some (match listed with Ok s => Some s | _ => None end)
  | RpcReturn None err l' =>
    l' = l ∧ ∃ e, listed = Err e ∧ err = Some ("failed to list policies: " +:+ e)%string
  | RpcReturn (Some resp) err l' =>
    err = None ∧ lg_closed l = false ∧
    ∃ r ev rec, reads_as r req ∧ Engine.CheckAccess listed start now r = Ok ev ∧
      carries resp ev ∧ records rec req ev ∧
      ((l' = l ∧ length (lg_buf l) = lg_cap l) ∨ audit_inv l' (acc ++ [rec]))
  end.
Proof.
  intros Hrun. split.
  { intros os'. unfold CheckAccess. by rewrite (eval_request_order os' os). }
  pose proof (arun_inv _ _ _ _ _ _ _ (NewAuditLogger_inv cap) Hrun) as Hinv.
  unfold CheckAccess. destruct (Engine.CheckAccess _ _ _ _) as [ev|e] eqn:Hev.
  - pose proof (send_inv hint (audit_record req ev) l acc Hinv) as Hs.
    unfold LogDecision in *. destruct (lg_closed l) eqn:Hc.
    { split; [done|]. destruct listed; [by eexists|done]. }
    assert (Hout : ∀ l', ((l' = l ∧ length (lg_buf l) = lg_cap l) ∨ audit_inv l' (acc ++ [audit_record req ev])) →
      ∃ r ev' rec, reads_as r req ∧ Engine.CheckAccess listed start now r = Ok ev' ∧
        carries (proto_response ev) ev' ∧ records rec req ev' ∧
        ((l' = l ∧ length (lg_buf l) = lg_cap l) ∨ audit_inv l' (acc ++ [rec]))).
    { intros l' Hl'. exists (eval_request os req), ev, (audit_record req ev).
      split_and!; try done; apply eval_request_reads. }
    destruct (parked l hint) as [i|]; [|destruct (length (lg_buf l) <? lg_cap l)];
      (split; [done|]); (split; [done|]); apply Hout; [by right|by right|left].
    pose proof (inv_bound _ _ Hinv). split; [done|]. destruct Hs as (_&?&_). lia.
  - split; [done|]. destruct listed as [snap|e']; [|naive_solver].
    destruct (CheckAccess_cases snap start now (eval_request os req))
      as [(?&?&?&H)|[(?&?&?&?&H)|(?&?&H)]]; congruence.
Qed.

(** C12: what an RPC grants.  Against a store built by any history of updates,
    a response allows the request exactly when some policy with access ALLOW
    applies to the protobuf request and no other policy does. *)
Theorem rpc_grants_iff ops oa od start now os hint req l resp err l' :
  CheckAccess (ListActivePolicies oa od (run_ops ops NewPolicyStore)) start now os hint req l
    = RpcReturn (Some resp) err l' →
  a_Allowed resp = true ↔
  (∃ id p, spec_ops ops ∅ !! id = Some p ∧ p_Access p = AccessAllow ∧ proto_applies p req) ∧
  (∀ id p, spec_ops ops ∅ !! id = Some p → p_Access p ≠ AccessAllow → ¬ proto_applies p req).
Proof.
  intros H. setoid_rewrite <-(proto_applies_iff os).
  rewrite <-(represents_granted _ _ oa od (eval_request os req) (represents_run ops _ _ represents_new)).
  by eapply rpc_response_granted.
Qed.

End WithRegexp.

(** ** Witnesses *)

Definition admin_rpc : CheckAccessRequest :=
  mkCheckAccessRequest "alice" (Some {["roles" := Some (mkAttributeValues ["admin"]); "x" := None]})
    "document" "d1" None "read" (attr_singleton "source_ip" ["192.168.0.9"]).

Definition canonical_orders : AttrOrders := mkAttrOrders canonical_order canonical_order canonical_order.

Lemma rpc_outcome_audited_witness :
  ∃ l, arun sample_events (NewAuditLogger 1, [], []) =
         Some (l, [rec_of "a"; rec_of "b"], [rec_of "c"]) ∧
    CheckAccess (ListActivePolicies canonical_order canonical_order two_policy_store) 3 8
      canonical_orders 0 admin_rpc l =
      RpcReturn (Some (mkCheckAccessResponse true "allow-admin" reason_allow 5)) None l ∧
    lg_closed l = false.
Proof.
  eexists. split; [vm_compute; reflexivity|]. split; [vm_compute; reflexivity|].
  pose proof (rpc_outcome_audited sample_events 1 _ _ _
    (ListActivePolicies canonical_order canonical_order two_policy_store) 3 8 canonical_orders 0
    admin_rpc eq_refl) as [_ H].
  destruct (CheckAccess _ _ _ _ _ _ _); reflexivity.
Defined.

Lemma rpc_grants_iff_witness :
  ∃ resp err l',
    CheckAccess (ListActivePolicies canonical_order canonical_order two_policy_store) 3 8
      canonical_orders 0 admin_rpc (NewAuditLogger 4) = RpcReturn (Some resp) err l' ∧
    a_Allowed resp = true ∧
    ∃ id p, spec_ops [OpUpsert canonical_order admin_allow; OpUpsert canonical_order network_deny] ∅
      !! id = Some p ∧ p_Access p = AccessAllow ∧ proto_applies p admin_rpc.
Proof.
  eexists _, _, _. split; [vm_compute; reflexivity|]. split; [vm_compute; reflexivity|].
  refine (proj1 (proj1 (rpc_grants_iff
    [OpUpsert canonical_order admin_allow; OpUpsert canonical_order network_deny]
    canonical_order canonical_order 3 8 canonical_orders 0 admin_rpc (NewAuditLogger 4) _ _ _ _) _)).
  - vm_compute. reflexivity.
  - reflexivity.
Defined.
