(* ===== verification/Metrics.v ===== *)
(** internal/metrics/metrics.go and the generated dispatcher of
    pkg/gen/authzv1/authz_grpc.pb.go: what one RPC does end to end.

    Prometheus is a library the program calls: the state here is the package's
    variables and the sequence of [Inc] and [Observe] calls it has issued. *)
From S2P Require Import Prelude Policy LiteralRegexp Store Operators Engine AuditQueue AuthzPb Server.
From Stdlib Require Import SpecFloat.
Open Scope string_scope.
Open Scope nat_scope.
Open Scope list_scope.

(** ** float64 *)

Definition float64 : Type := spec_float.

(** [float64(i)] of an integer, rounded to nearest even. *)
Definition float64_of_int (i : Z) : float64 := binary_normalize 53 1024 i 0 false.

Definition float64_div (x y : float64) : float64 := SFdiv 53 1024 x y.

Definition time_Second : Z := 1000000000.

(** [float64(authzResp.EvaluationTimeNs) / float64(time.Second)]. *)
Definition evaluation_seconds (ns : Z) : float64 :=
  float64_div (float64_of_int ns) (float64_of_int time_Second).

(** Two milliseconds are observed as the float64 nearest to 0.002. *)
Example evaluation_seconds_2ms :
  evaluation_seconds 2000000 = float64_div (float64_of_int 2) (float64_of_int 1000) ∧
  evaluation_seconds 2000000000 = float64_of_int 2.
Proof. split; vm_compute; reflexivity. Qed.

(** ** The package's state *)

Class PolicyCounter (St : Type) := counter_Count : St → nat.

#[export] Instance store_counter `{RegexpLib} : PolicyCounter PolicyStore := Count.

(** What the package calls of Prometheus at registration: resolving a child
    counter may fail, and [MustRegister] panics ([None]) or extends the
    registry. *)
Class PrometheusLib := {
  Registry : Type;
  GetMetricWithLabelValues : string → option string;
  MustRegister : Registry → option Registry
}.

Inductive metric_op :=
  | IncAllow
  | IncDeny
  | Observe (seconds : float64).

Section WithPrometheus.
Context `{PROM : PrometheusLib}.

(** [mt_registeredCounter]: whether the gauge's counter is set;
    [mt_allowCounter], [mt_denyCounter]: whether the child counters are
    resolved (they are nil interfaces before [Register]). *)
Record Metrics := mkMetrics {
  mt_registeredCounter : bool;
  mt_allowCounter : bool;
  mt_denyCounter : bool;
  mt_registry : Registry;
  mt_ops : list metric_op
}.

Definition metrics_init (r : Registry) : Metrics := mkMetrics false false false r [].

(** [Register]: the new state and whether it panicked on the way. *)
Definition Register (m : Metrics) : bool * Metrics :=
  match GetMetricWithLabelValues "allow" with
  | Some _ => (true, mkMetrics true false (mt_denyCounter m) (mt_registry m) (mt_ops m))
  | None =>
    match GetMetricWithLabelValues "deny" with
    | Some _ => (true, mkMetrics true true false (mt_registry m) (mt_ops m))
    | None =>
      match MustRegister (mt_registry m) with
      | None => (true, mkMetrics true true true (mt_registry m) (mt_ops m))
      | Some r => (false, mkMetrics true true true r (mt_ops m))
      end
    end
  end.

(** The gauge function, evaluated on the registered counter at each scrape. *)
Definition policyCount `{PolicyCounter St} (m : Metrics) (st : St) : float64 :=
  if mt_registeredCounter m then float64_of_int (Z.of_nat (counter_Count st))
  else float64_of_int 0.

(** ** The interceptor *)

(** The [any] a handler returns: nil, a possibly nil response pointer, or a
    value of another type. *)
Inductive any_resp :=
  | AnyNil
  | AnyResponse (p : option CheckAccessResponse)
  | AnyOther.

(** A handler's run: it panics, or returns a value and an error. *)
Inductive handled (St : Type) :=
  | HPanic
  | HReturn (resp : any_resp) (err : option string) (st : St).
Arguments HPanic {St}.
Arguments HReturn {St} resp err st.

(** [UnaryInterceptor] around a handler that has run to [h].  Calling [Inc] on
    an unresolved counter is a nil dereference. *)
Definition UnaryInterceptor {St} (h : handled St) (m : Metrics) : handled (St * Metrics) :=
  match h with
  | HPanic => HPanic
  | HReturn resp err st =>
    match err with
    | Some _ => HReturn resp err (st, m)
    | None =>
      match resp with
      | AnyResponse (Some authzResp) =>
        let counter := if a_Allowed authzResp then mt_allowCounter m else mt_denyCounter m in
        if counter then
          let inc := if a_Allowed authzResp then IncAllow else IncDeny in
          HReturn resp err (st, mkMetrics (mt_registeredCounter m) (mt_allowCounter m)
            (mt_denyCounter m) (mt_registry m)
            (mt_ops m ++ [inc; Observe (evaluation_seconds (a_EvaluationTimeNs authzResp))]))
        else HPanic
      | _ => HReturn resp err (st, m)
      end
    end
  end.

(** [_AuthorizationService_CheckAccess_Handler]: [dec] decodes the request,
    [srv] is the service method; without an interceptor it is called directly. *)
Definition CheckAccess_Handler {St} (dec : result CheckAccessRequest)
    (srv : CheckAccessRequest → handled St) (interceptor : bool) (st : St) (m : Metrics)
    : handled (St * Metrics) :=
  match dec with
  | Err e => HReturn AnyNil (Some e) (st, m)
  | Ok req =>
    if interceptor then UnaryInterceptor (srv req) m
    else match srv req with
         | HPanic => HPanic
         | HReturn resp err st' => HReturn resp err (st', m)
         end
  end.

Section WithRegexp.
Context `{RE : RegexpLib}.

(** One incoming RPC: the decoded request (or the decoder's error) and what
    the handler will read while it runs. *)
Record rpc := mkRpc {
  rpc_dec : result CheckAccessRequest;
  rpc_listed : result PolicySnapshot;
  rpc_start : Z;
  rpc_now : Z;
  rpc_orders : AttrOrders;
  rpc_hint : nat
}.

(** The service method as a handler: a typed response pointer in an [any]. *)
Definition service (c : rpc) (l : AuditLogger) (req : CheckAccessRequest) : handled AuditLogger :=
  match CheckAccess (rpc_listed c) (rpc_start c) (rpc_now c) (rpc_orders c) (rpc_hint c) req l with
  | RpcPanic => HPanic
  | RpcReturn resp err l' => HReturn (AnyResponse resp) err l'
  end.

Definition serve_rpc (c : rpc) (l : AuditLogger) (m : Metrics) : handled (AuditLogger * Metrics) :=
  CheckAccess_Handler (rpc_dec c) (service c l) true l m.

(** A sequence of RPCs, with the responses and errors in order. *)
Fixpoint serve_all (cs : list rpc) (l : AuditLogger) (m : Metrics)
    : option (list (any_resp * option string) * AuditLogger * Metrics) :=
  match cs with
  | [] => Some ([], l, m)
  | c :: cs =>
    match serve_rpc c l m with
    | HPanic => None
    | HReturn resp err (l', m') =>
      '(rs, l2, m2) ← serve_all cs l' m'; Some ((resp, err) :: rs, l2, m2)
    end
  end.

End WithRegexp.

(** ** Specification *)

(** The responses that carry a decision. *)
Definition decisions (rs : list (any_resp * option string)) : list CheckAccessResponse :=
  omap (λ r, match r with (AnyResponse (Some p), None) => Some p | _ => None end) rs.

Definition decision_ops (p : CheckAccessResponse) : list metric_op :=
  [if a_Allowed p then IncAllow else IncDeny; Observe (evaluation_seconds (a_EvaluationTimeNs p))].

Definition is_inc_allow (op : metric_op) : bool := match op with IncAllow => true | _ => false end.
Definition is_inc_deny (op : metric_op) : bool := match op with IncDeny => true | _ => false end.

Definition ready (m : Metrics) : Prop := mt_allowCounter m = true ∧ mt_denyCounter m = true.

Lemma Register_ready r m : Register (metrics_init r) = (false, m) → ready m ∧ mt_ops m = [].
Proof. unfold Register. repeat case_match; intros [= <-]; by repeat split. Qed.

Lemma interceptor_ready {St} (h : handled St) m :
  ready m →
  match h, UnaryInterceptor h m with
  | HPanic, HPanic => True
  | HReturn resp err st, HReturn resp' err' (st', m') =>
    resp' = resp ∧ err' = err ∧ st' = st ∧ ready m' ∧
    mt_ops m' = mt_ops m ++ concat (decision_ops <$> decisions [(resp, err)])
  | _, _ => False
  end.
Proof.
  intros [Ha Hd]. destruct h as [|resp err st]; simpl; [done|].
  destruct err as [e|]; [destruct resp as [|[p|]|]; by rewrite app_nil_r|].
  destruct resp as [|[p|]|]; simpl; try by rewrite app_nil_r.
  destruct (a_Allowed p) eqn:Hal; rewrite ?Ha, ?Hd; unfold decisions, decision_ops; csimpl; by rewrite ?Hal.
Qed.

(** ** Properties *)

(** The interceptor is transparent.  Once the counters are resolved, it
    hands the handler's value, error and state through unchanged, and issues
    exactly one counter increment and one observation for a successful
    response and none otherwise. *)
Theorem UnaryInterceptor_transparent {St} (h : handled St) m :
  ready m →
  match h, UnaryInterceptor h m with
  | HPanic, HPanic => True
  | HReturn resp err st, HReturn resp' err' (st', m') =>
    resp' = resp ∧ err' = err ∧ st' = st ∧
    mt_ops m' = mt_ops m ++
      match resp, err with
      | AnyResponse (Some p), None => decision_ops p
      | _, _ => []
      end
  | _, _ => False
  end.
Proof.
  intros Hr. pose proof (interceptor_ready h m Hr) as H. destruct h as [|resp err st]; [done|].
  destruct (UnaryInterceptor _ _) as [|resp' err' [st' m']]; [done|].
  destruct H as (->&->&->&_&->). split_and!; [done|done|done|]. f_equal.
  destruct resp as [|[p|]|], err; done.
Qed.

Lemma serve_all_ops `{RegexpLib} cs l m rs l' m' :
  ready m → serve_all cs l m = Some (rs, l', m') →
  mt_ops m' = mt_ops m ++ concat (decision_ops <$> decisions rs) ∧ length rs = length cs.
Proof.
  revert l m rs. induction cs as [|c cs IH]; simpl; intros l m rs Hr Hs.
  { simplify_eq. by rewrite app_nil_r. }
  assert (Hstep : ∀ resp err l1 m1, serve_rpc c l m = HReturn resp err (l1, m1) →
    ready m1 ∧ mt_ops m1 = mt_ops m ++ concat (decision_ops <$> decisions [(resp, err)])).
  { unfold serve_rpc, CheckAccess_Handler. intros resp err l1 m1 H1.
    destruct (rpc_dec c) as [req|e].
    - pose proof (interceptor_ready (service c l req) m Hr) as Hi.
      destruct (service c l req) as [|resp1 err1 l2]; [done|].
      rewrite H1 in Hi. by destruct Hi as (->&->&_&?&?).
    - simplify_eq. simpl. by rewrite app_nil_r. }
  destruct (serve_rpc c l m) as [|resp err [l1 m1]]; [done|].
  destruct (Hstep _ _ _ _ eq_refl) as [Hr1 Ho].
  apply bind_Some in Hs as ([[rs2 l2] m2]&Hs&?); simplify_eq.
  destruct (IH _ _ _ Hr1 Hs) as [-> Hlen]. split; [|simpl; by rewrite Hlen].
  rewrite Ho, <-app_assoc. f_equal. change ((resp, err) :: rs2) with ([(resp, err)] ++ rs2).
  unfold decisions. by rewrite omap_app, fmap_app, concat_app.
Qed.

Lemma decision_ops_counts (ps : list CheckAccessResponse) :
  length (filter (λ op, is_inc_allow op = true) (concat (decision_ops <$> ps))) =
    length (filter (λ p, a_Allowed p = true) ps) ∧
  length (filter (λ op, is_inc_deny op = true) (concat (decision_ops <$> ps))) =
    length (filter (λ p, a_Allowed p = false) ps).
Proof.
  induction ps as [|p ps [IHa IHd]]; [done|]. csimpl. rewrite !filter_cons.
  destruct (a_Allowed p) eqn:Ha; csimpl in *; lia.
Qed.

(** A logger that has not been stopped stays so while RPCs are served, and
    none of them panics. *)
Lemma serve_open `{RegexpLib} c l m acc :
  ready m → audit_inv l acc → lg_closed l = false →
  ∃ resp err l' m' acc', serve_rpc c l m = HReturn resp err (l', m') ∧ ready m' ∧
    audit_inv l' acc' ∧ lg_closed l' = false ∧
    (∀ p, err = None → resp = AnyResponse (Some p) → acc' = acc ∨ ∃ r, acc' = acc ++ [r] ∧
      al_Allowed r = a_Allowed p ∧ al_PolicyId r = a_MatchedPolicyId p).
Proof.
  intros Hr Hinv Hopen. unfold serve_rpc, CheckAccess_Handler.
  destruct (rpc_dec c) as [req|e]; [|by exists AnyNil, (Some e), l, m, acc].
  assert (∃ resp err l' acc', service c l req = HReturn resp err l' ∧ audit_inv l' acc' ∧
    lg_closed l' = false ∧
    (∀ p, err = None → resp = AnyResponse (Some p) → acc' = acc ∨ ∃ r, acc' = acc ++ [r] ∧
      al_Allowed r = a_Allowed p ∧ al_PolicyId r = a_MatchedPolicyId p))
    as (resp&err&l'&acc'&Hs&Hinv'&Hopen'&Hacc).
  { unfold service, CheckAccess. destruct (Engine.CheckAccess _ _ _ _) as [ev|e].
    - pose proof (send_inv (rpc_hint c) (audit_record req ev) l acc Hinv) as Hs.
      pose proof (LogDecision_open (rpc_hint c) (audit_record req ev) l Hopen) as Ho.
      destruct (LogDecision _ _ _) as [|l'|l']; [done|..].
      + eexists _, _, l', _. split_and!; [done|done|done|].
        intros p _ [= <-]. right. eauto.
      + destruct Hs as (->&_). eexists _, _, l, acc. split_and!; try done. auto.
    - eexists _, _, l, acc. split_and!; done. }
  pose proof (interceptor_ready (service c l req) m Hr) as Hi. rewrite Hs in Hi |- *.
  destruct (UnaryInterceptor _ _) as [|resp1 err1 [l1 m1]]; [done|].
  destruct Hi as (->&->&->&?&_). by exists resp, err, l', m1, acc'.
Qed.

Lemma serve_all_defined `{RegexpLib} cs l m acc :
  audit_inv l acc → lg_closed l = false → ready m →
  ∃ rs l' m', serve_all cs l m = Some (rs, l', m') ∧ lg_closed l' = false.
Proof.
  revert l m acc. induction cs as [|c cs IH]; intros l m acc Hinv Hopen Hr; simpl; [eauto|].
  destruct (serve_open c l m acc Hr Hinv Hopen) as (resp&err&l1&m1&acc1&->&Hr1&Hi1&Ho1&_).
  destruct (IH _ _ _ Hi1 Ho1 Hr1) as (rs&l2&m2&->&?). by eexists _, l2, m2.
Qed.

(** Availability and accounting of the server.  After [Register], while
    the audit logger has not been stopped, any sequence of RPCs is served
    without a panic, one answer each; the counters have been incremented once
    per allowed and once per denied response and nothing else, and the latency
    of every response has been observed, in order. *)
Theorem serve_all_accounted `{RegexpLib} cs evs cap l acc dr m :
  arun evs (NewAuditLogger cap, [], []) = Some (l, acc, dr) →
  lg_closed l = false → ready m →
  ∃ rs l' m', serve_all cs l m = Some (rs, l', m') ∧ length rs = length cs ∧
    lg_closed l' = false ∧
    mt_ops m' = mt_ops m ++ concat (decision_ops <$> decisions rs) ∧
    (mt_ops m = [] →
     length (filter (λ op, is_inc_allow op = true) (mt_ops m')) =
       length (filter (λ p, a_Allowed p = true) (decisions rs)) ∧
     length (filter (λ op, is_inc_deny op = true) (mt_ops m')) =
       length (filter (λ p, a_Allowed p = false) (decisions rs))).
Proof.
  intros Hrun Hopen Hr. pose proof (arun_inv _ _ _ _ _ _ _ (NewAuditLogger_inv cap) Hrun) as Hinv.
  destruct (serve_all_defined cs l m acc Hinv Hopen Hr) as (rs&l'&m'&Hs&Hc).
  destruct (serve_all_ops _ _ _ _ _ _ Hr Hs) as [Ho Hlen].
  exists rs, l', m'. split_and!; [done..|]. intros Hnil. rewrite Ho, Hnil. apply decision_ops_counts.
Qed.

(** [Register] must be called exactly once.  When the child counters
    resolve and the registry accepts the metrics, it returns with both counters
    resolved and the gauge reading the store's count; on a registry that
    refuses duplicates a second call panics. *)
Theorem Register_once `{PolicyCounter St} r r' (st : St) :
  (∀ label, GetMetricWithLabelValues label = None) →
  (∀ r r', MustRegister r = Some r' → MustRegister r' = None) →
  MustRegister r = Some r' →
  let '(panicked, m) := Register (metrics_init r) in
  panicked = false ∧ ready m ∧ mt_ops m = [] ∧
  policyCount (metrics_init r) st = float64_of_int 0 ∧
  policyCount m st = float64_of_int (Z.of_nat (counter_Count st)) ∧
  (Register m).1 = true.
Proof.
  intros Hg Hdup Hreg. unfold Register. rewrite !Hg. simpl. rewrite Hreg. simpl.
  split_and!; try done. by rewrite (Hdup _ _ Hreg).
Qed.

End WithPrometheus.
Arguments HPanic {St}.
Arguments HReturn {St} resp err st.

(** ** Witnesses *)

(** A registry that accepts the package's metrics once. *)
#[export] Instance once_registry : PrometheusLib := {|
  Registry := bool;
  GetMetricWithLabelValues := λ _, None;
  MustRegister := λ registered, if registered then None else Some true
|}.

Definition fresh_metrics : @Metrics once_registry := @metrics_init once_registry false.
Definition ready_metrics : @Metrics once_registry := (Register fresh_metrics).2.

Definition sample_response : CheckAccessResponse := mkCheckAccessResponse true "p" "r" 2000000.

Lemma UnaryInterceptor_transparent_witness :
  ready ready_metrics ∧
  ∃ m', UnaryInterceptor (HReturn (AnyResponse (Some sample_response)) None tt) ready_metrics =
          HReturn (AnyResponse (Some sample_response)) None (tt, m') ∧
        mt_ops m' = decision_ops sample_response.
Proof.
  assert (ready ready_metrics) as Hr by (split; reflexivity). split; [exact Hr|].
  eexists. split; [reflexivity|].
  exact (proj2 (proj2 (proj2 (UnaryInterceptor_transparent
    (HReturn (AnyResponse (Some sample_response)) None tt) ready_metrics Hr)))).
Defined.

Definition sample_rpc : rpc :=
  mkRpc (Ok admin_rpc) (ListActivePolicies canonical_order canonical_order two_policy_store)
    3 8 canonical_orders 0.

Lemma serve_all_accounted_witness :
  ∃ l, arun sample_events (NewAuditLogger 1, [], []) =
         Some (l, [rec_of "a"; rec_of "b"], [rec_of "c"]) ∧
    ∃ rs l' m', serve_all [sample_rpc; sample_rpc] l ready_metrics = Some (rs, l', m') ∧
      length rs = 2.
Proof.
  eexists. split; [vm_compute; reflexivity|].
  edestruct (serve_all_accounted [sample_rpc; sample_rpc] sample_events 1 _ _ _ ready_metrics
    eq_refl eq_refl (conj eq_refl eq_refl)) as (rs&l'&m'&Hs&Hlen&_).
  exists rs, l', m'. split; [exact Hs|exact Hlen].
Defined.

Lemma Register_once_witness :
  let '(panicked, m) := Register fresh_metrics in
  panicked = false ∧ policyCount m two_policy_store = float64_of_int 2 ∧ (Register m).1 = true.
Proof.
  pose proof (Register_once (PROM := once_registry) false true two_policy_store (λ _, eq_refl)) as H.
  assert (∀ r r' : Registry, MustRegister r = Some r' → MustRegister r' = None) as Hd.
  { intros [] r'; simpl; [discriminate|]. intros [= <-]. reflexivity. }
  specialize (H Hd eq_refl).
  unfold fresh_metrics. destruct (Register _) as [panicked m].
  destruct H as (?&_&_&_&Hc&?). split; [assumption|]. split; [|assumption].
  etransitivity; [exact Hc|]. vm_compute. reflexivity.
Defined.
