(* ===== verification/Subscriber.v ===== *)
(** internal/subscriber: the policy stream.  [Publish] appends an update to a
    Redis stream, [Start] follows the stream and applies each entry to the
    store.

    The Redis client is an argument: [Publish] is given the client's [XAdd],
    and the loop of [Start] is given, for each iteration, what the context and
    [XRead] answered.  JSON decoding is the interface [PolicyDecoder]. *)
From S2P Require Import Prelude Policy LiteralRegexp Store Operators Engine.
Open Scope string_scope.
Open Scope nat_scope.
Open Scope list_scope.

Definition StreamKey : string := "authpolicy:events".
Definition ActionUpsert : string := "UPSERT".
Definition ActionDelete : string := "DELETE".
Definition DefaultAddr : string := "localhost:6379".

(** [AddrFromEnv], in an environment. *)
Definition AddrFromEnv (getenv : string → string) : string :=
  let v := getenv "REDIS_ADDR" in
  if negb (String.eqb v "") then v else DefaultAddr.

(** An interface value as the Redis driver delivers it. *)
Inductive any_value :=
  | AnyString (s : string)
  | AnyNotString.

#[export] Instance any_value_eq_dec : EqDecision any_value.
Proof. solve_decision. Defined.

Definition EntryValues : Type := gmap string any_value.

(** ** Publishing *)

Record XAddArgs := mkXAddArgs {
  xa_Stream : string;
  xa_ID : string;
  xa_Values : EntryValues
}.

(** The [XAdd] call [Publish] makes; the payload field is left out when it is
    empty. *)
Definition publish_args (streamKey action policyID policyJSON : string) : XAddArgs :=
  let values : EntryValues :=
    <["policy_id" := AnyString policyID]> {["action" := AnyString action]} in
  let values :=
    if negb (String.eqb policyJSON "") then <["policy_json" := AnyString policyJSON]> values
    else values in
  mkXAddArgs streamKey "*" values.

(** [Publish]: [XAdd] is the client's call and its error. *)
Definition Publish (XAdd : XAddArgs → option string)
    (streamKey action policyID policyJSON : string) : option string :=
  XAdd (publish_args streamKey action policyID policyJSON).

(** ** Consuming *)

Record XMessage := mkXMessage { xm_ID : string; xm_Values : EntryValues }.

#[export] Instance XMessage_eq_dec : EqDecision XMessage.
Proof. solve_decision. Defined.

Definition getString (values : EntryValues) (key : string) : option string :=
  match values !! key with
  | None => None
  | Some (AnyString strValue) => Some strValue
  | Some AnyNotString => None
  end.

Section WithRegexp.
Context `{RE : RegexpLib}.

(** [json.Unmarshal] into a [store.Policy]. *)
Class PolicyDecoder := Unmarshal_Policy : string → result Policy.

(** How [processMessageEntry] ended: the branch it logged. *)
Inductive entry_outcome :=
  | NoAction
  | NoPolicyID
  | MissingPayload (policyID : string)
  | ParseError (policyID cause : string)
  | UnsupportedAccess (policyID : string) (access : Access)
  | CompileFailed (policyID : string) (cause : CompileError)
  | Upserted (p : Policy)
  | Deleted (policyID : string)
  | UnsupportedAction (policyID action : string).

(** The iteration orders of the store's loops. *)
Record MapOrders := mkMapOrders {
  mo_upsert : RangeOrder Policy;
  mo_delete_allow : RangeOrder Policy;
  mo_delete_deny : RangeOrder Policy
}.

Section WithDecoder.
Context `{DEC : PolicyDecoder}.

Definition processMessageEntry (os : MapOrders) (values : EntryValues) (ps : PolicyStore)
    : entry_outcome * PolicyStore :=
  match getString values "action" with
  | None => (NoAction, ps)
  | Some action =>
    match getString values "policy_id" with
    | None => (NoPolicyID, ps)
    | Some policyID =>
      if String.eqb action ActionUpsert then
        match getString values "policy_json" with
        | None => (MissingPayload policyID, ps)
        | Some policyJsonStr =>
          match Unmarshal_Policy policyJsonStr with
          | Err err => (ParseError policyID err, ps)
          | Ok p =>
            if negb (String.eqb (p_Access p) AccessAllow) && negb (String.eqb (p_Access p) AccessDeny)
            then (UnsupportedAccess policyID (p_Access p), ps)
            else
              let '(p, err) := Compile p in
              match err with
              | Some err => (CompileFailed policyID err, ps)
              | None => (Upserted p, UpsertPolicy (mo_upsert os) p ps)
              end
          end
        end
      else if String.eqb action ActionDelete then
        (Deleted policyID, DeletePolicy (mo_delete_allow os) (mo_delete_deny os) policyID ps)
      else (UnsupportedAction policyID action, ps)
    end
  end.


(** What [XRead] answered: redis.Nil, another error, or streams of messages. *)
Inductive read_outcome :=
  | XNil
  | XErr (err : string)
  | XStreams (streams : list (list XMessage)).

(** The answers one iteration of the loop gets: [ctx.Err() != nil] at its head,
    [XRead]'s, [ctx.Err() != nil] after an error, and whether [ctx.Done()] won
    the select against the timer. *)
Record iteration := mkIteration {
  it_cancelled : bool;
  it_read : read_outcome;
  it_cancelled_after : bool;
  it_done : bool;
  it_orders : MapOrders
}.

Record sub_state := mkSub {
  ss_lastID : string;
  ss_store : PolicyStore
}.

Inductive loop_state :=
  | Running (st : sub_state)
  | Returned (st : sub_state).

Definition loop_sub (ls : loop_state) : sub_state :=
  match ls with Running st | Returned st => st end.

(** The two nested loops over the messages of a read. *)
Definition process_entry (os : MapOrders) (st : sub_state) (entry : XMessage) : sub_state :=
  mkSub (xm_ID entry) (processMessageEntry os (xm_Values entry) (ss_store st)).2.

Definition process_streams (os : MapOrders) (streams : list (list XMessage)) (st : sub_state)
    : sub_state :=
  foldl (foldl (process_entry os)) st streams.

(** The body of the loop. *)
Definition loop_body (it : iteration) (st : sub_state) : loop_state :=
  if it_cancelled it then Returned st
  else match it_read it with
  | XNil => Running st
  | XErr _ =>
    if it_cancelled_after it then Returned st
    else if it_done it then Returned st
    else Running st
  | XStreams streams => Running (process_streams (it_orders it) streams st)
  end.

Fixpoint loop_run (its : list iteration) (st : sub_state) : loop_state :=
  match its with
  | [] => Running st
  | it :: its =>
    match loop_body it st with
    | Running st' => loop_run its st'
    | Returned st' => Returned st'
    end
  end.

(** [Start] reads from the beginning of the stream. *)
Definition Start (its : list iteration) (ps : PolicyStore) : loop_state :=
  loop_run its (mkSub "0" ps).

(** The arguments of the [XRead] of an iteration: stream, last ID, count and
    block time in nanoseconds. *)
Definition XReadArgs (streamKey : string) (st : sub_state) : list string * nat * Z :=
  ([streamKey; ss_lastID st], 1, 5000000000%Z).

(** ** Specification *)

(** The update an entry stands for, decided by its fields alone. *)
Inductive update :=
  | SetPolicy (p : Policy)
  | RemovePolicy (id : string).

Definition entry_update (values : EntryValues) : option update :=
  action ← getString values "action";
  policyID ← getString values "policy_id";
  if decide (action = ActionDelete) then Some (RemovePolicy policyID)
  else if decide (action = ActionUpsert) then
    json ← getString values "policy_json";
    match Unmarshal_Policy json with
    | Err _ => None
    | Ok p =>
      if decide (p_Access p = AccessAllow ∨ p_Access p = AccessDeny) then
        match Compile p with (p', None) => Some (SetPolicy p') | _ => None end
      else None
    end
  else None.

Definition apply_update (m : PolicyMap) (u : update) : PolicyMap :=
  match u with
  | SetPolicy p => <[p_ID p := p]> m
  | RemovePolicy id => delete id m
  end.

(** The policy ID an update names. *)
Definition update_id (u : update) : string :=
  match u with SetPolicy p => p_ID p | RemovePolicy id => id end.

(** The policies a stream denotes: its entries applied in order. *)
Definition stream_policies (log : list XMessage) : PolicyMap :=
  foldl apply_update ∅ (omap (λ e, entry_update (xm_Values e)) log).

(** The entries after a given ID ("0" is before them all). *)
Fixpoint after (log : list XMessage) (lastID : string) : list XMessage :=
  match log with
  | [] => []
  | e :: log => if decide (xm_ID e = lastID) then log else after log lastID
  end.

Definition unread (log : list XMessage) (lastID : string) : list XMessage :=
  if decide (lastID = "0") then log else after log lastID.

(** Redis on an append-only stream whose content at this moment is [log]: a
    read of one entry after [lastID] times out, fails, or returns the first
    such entry. *)
Definition redis_answers (log : list XMessage) (lastID : string) (r : read_outcome) : Prop :=
  match r with
  | XNil | XErr _ => True
  | XStreams streams => ∃ e rest, unread log lastID = e :: rest ∧ streams = [[e]]
  end.

(** Every read of a run is answered from a prefix of [log] as it stood then. *)
Fixpoint redis_run (log : list XMessage) (its : list iteration) (st : sub_state) : Prop :=
  match its with
  | [] => True
  | it :: its =>
    (∃ sofar, sofar `prefix_of` log ∧ redis_answers sofar (ss_lastID st) (it_read it)) ∧
    match loop_body it st with
    | Running st' => redis_run log its st'
    | Returned _ => True
    end
  end.

(** IDs as Redis assigns them: distinct, and never the "0" a reader starts at. *)
Definition stream_ids_ok (log : list XMessage) : Prop :=
  NoDup (xm_ID <$> log) ∧ "0" ∉ xm_ID <$> log.

(** ** Lemmas *)

(** A policy the stream may put in the store. *)
Definition policy_live (p : Policy) : Prop :=
  (p_Access p = AccessAllow ∨ p_Access p = AccessDeny) ∧ policy_compiled p.

Lemma process_spec os v ps :
  let '(out, ps') := processMessageEntry os v ps in
  match entry_update v with
  | None => ps' = ps ∧ (∀ p, out ≠ Upserted p) ∧ (∀ id, out ≠ Deleted id)
  | Some (SetPolicy p) =>
    out = Upserted p ∧ ps' = UpsertPolicy (mo_upsert os) p ps ∧ policy_live p
  | Some (RemovePolicy id) =>
    out = Deleted id ∧ ps' = DeletePolicy (mo_delete_allow os) (mo_delete_deny os) id ps
  end.
Proof.
  unfold processMessageEntry, entry_update.
  destruct (getString v "action") as [action|]; [|done]. simpl.
  destruct (getString v "policy_id") as [policyID|]; [|done]. simpl.
  destruct (String.eqb_spec action ActionUpsert) as [->|Hu].
  - rewrite decide_False, decide_True by done.
    destruct (getString v "policy_json") as [json|]; [|done]. simpl.
    destruct (Unmarshal_Policy json) as [p|e]; [|done].
    destruct (String.eqb_spec (p_Access p) AccessAllow), (String.eqb_spec (p_Access p) AccessDeny);
      simpl; [rewrite decide_True by auto..|by rewrite decide_False by naive_solver].
    all: pose proof (Compile_ok_compiled p) as Hc.
    all: destruct (Compile_frame p) as (_&_&Hacc&_).
    all: destruct (Compile p) as [p' [err|]]; [done|]; simpl in *.
    all: split_and!; [done|done|split; [rewrite Hacc; auto|by apply Hc]].
  - destruct (String.eqb_spec action ActionDelete) as [->|Hd].
    + by rewrite decide_True.
    + by rewrite !decide_False.
Qed.

Lemma entry_update_live v p : entry_update v = Some (SetPolicy p) → policy_live p.
Proof.
  intros H. pose proof (process_spec (mkMapOrders canonical_order canonical_order canonical_order)
    v NewPolicyStore) as Hs.
  destruct (processMessageEntry _ _ _). rewrite H in Hs. tauto.
Qed.

Definition apply_entry (m : PolicyMap) (e : XMessage) : PolicyMap :=
  match entry_update (xm_Values e) with Some u => apply_update m u | None => m end.

Lemma process_represents os v ps m :
  represents ps m →
  represents (processMessageEntry os v ps).2
    (match entry_update v with Some u => apply_update m u | None => m end).
Proof.
  intros Hrep. pose proof (process_spec os v ps) as Hs.
  destruct (processMessageEntry os v ps) as [out ps']. simpl.
  destruct (entry_update v) as [[p|id]|].
  - destruct Hs as (_&->&_). exact (represents_op _ _ (OpUpsert _ p) Hrep).
  - destruct Hs as (_&->). exact (represents_op _ _ (OpDelete _ _ id) Hrep).
  - by destruct Hs as (->&_).
Qed.

Lemma stream_policies_snoc log e :
  stream_policies (log ++ [e]) = apply_entry (stream_policies log) e.
Proof.
  unfold stream_policies, apply_entry. rewrite omap_app, foldl_app. simpl.
  by destruct (entry_update (xm_Values e)).
Qed.

(** Two stores that represent the same map are equal. *)
Lemma represents_unique ps ps' m : represents ps m → represents ps' m → ps = ps'.
Proof.
  intros [H _] [H' _]. apply table_get_eq. intros t. apply map_eq. intros id.
  apply option_eq. intros p. by rewrite H, H'.
Qed.

(** Any map a sequence of updates builds holds live policies under their IDs. *)
Definition live_map (m : PolicyMap) : Prop :=
  ∀ id p, m !! id = Some p → p_ID p = id ∧ policy_live p.

Lemma apply_entry_live m e : live_map m → live_map (apply_entry m e).
Proof.
  intros Hm id p. unfold apply_entry. pose proof (entry_update_live (xm_Values e)) as Hl.
  destruct (entry_update (xm_Values e)) as [[q|k]|]; simpl; [| |apply Hm].
  - rewrite lookup_insert. case_decide; [|apply Hm]. intros [= ->]. eauto.
  - rewrite lookup_delete. case_decide; [done|apply Hm].
Qed.

Lemma stream_policies_live log : live_map (stream_policies log).
Proof.
  induction log as [|e log IH] using rev_ind.
  - intros id p. unfold stream_policies; simpl. by rewrite lookup_empty.
  - rewrite stream_policies_snoc. by apply apply_entry_live.
Qed.

(** An invariant of the maps that entries build holds of the store at every
    point of the loop. *)
Definition store_inv (I : PolicyMap → Prop) (ps : PolicyStore) : Prop :=
  ∃ m, represents ps m ∧ I m.

Section LoopInvariant.
Context (I : PolicyMap → Prop) (I_step : ∀ m e, I m → I (apply_entry m e)).

Lemma process_entry_inv os st e :
  store_inv I (ss_store st) → store_inv I (ss_store (process_entry os st e)).
Proof using I_step.
  intros (m&Hrep&Hl). exists (apply_entry m e). split; [|by apply I_step].
  by apply process_represents.
Qed.

Lemma loop_run_inv its st :
  store_inv I (ss_store st) → store_inv I (ss_store (loop_sub (loop_run its st))).
Proof using I_step.
  revert st. induction its as [|it its IH]; intros st Hst; simpl; [done|].
  assert (Hb : store_inv I (ss_store (loop_sub (loop_body it st)))).
  { unfold loop_body. repeat case_match; simpl; try done. clear -Hst I_step.
    unfold process_streams. revert st Hst. induction streams as [|ms streams IH]; simpl; [done|].
    intros st Hst. apply IH. revert st Hst. induction ms as [|e ms IH']; simpl; [done|].
    intros st Hst. by apply IH', process_entry_inv. }
  destruct (loop_body it st) as [st'|st']; simpl in *; [by apply IH|done].
Qed.

Lemma subscriber_inv its : I ∅ → store_inv I (ss_store (loop_sub (Start its NewPolicyStore))).
Proof using I_step. intros H0. apply loop_run_inv. exists ∅. split; [exact represents_new|done]. Qed.

End LoopInvariant.

Lemma live_map_empty : live_map ∅.
Proof. intros ? ?. by rewrite lookup_empty. Qed.

(** Positions in the stream. *)
Lemma unread_drop log n :
  stream_ids_ok log → n ≤ length log →
  unread log (default "0" (xm_ID <$> (last (take n log)))) = drop n log.
Proof.
  intros [Hnd H0] Hn. unfold unread. destruct n as [|n]; [done|].
  destruct (lookup_lt_is_Some_2 log n) as [e He]; [lia|].
  rewrite (take_S_r _ _ e He), last_snoc. simpl.
  rewrite decide_False.
  2:{ intros Heq. apply H0, list_elem_of_fmap. exists e. split; [done|].
    by eapply list_elem_of_lookup_2. }
  clear H0 Hn. revert n He. induction log as [|x log IH]; intros n He; [done|]. csimpl in *.
  apply NoDup_cons in Hnd as [Hx Hnd]. destruct n as [|n]; simplify_eq/=.
  - by rewrite decide_True, drop_0.
  - rewrite decide_False; [by apply IH|]. intros Heq. apply Hx. rewrite Heq.
    apply list_elem_of_fmap. exists e. split; [done|]. by eapply list_elem_of_lookup_2.
Qed.

Lemma after_absent log x : x ∉ xm_ID <$> log → after log x = [].
Proof.
  induction log as [|e log IH]; csimpl; [done|]. rewrite not_elem_of_cons. intros [Hne Hx].
  rewrite decide_False by done. by apply IH.
Qed.

(** The redis-consistent loop stands at a position of the stream. *)
Definition at_position (log : list XMessage) (n : nat) (st : sub_state) : Prop :=
  n ≤ length log ∧
  ss_lastID st = default "0" (xm_ID <$> last (take n log)) ∧
  represents (ss_store st) (stream_policies (take n log)).

Lemma at_position_start log : at_position log 0 (mkSub "0" NewPolicyStore).
Proof. split_and!; [lia|done|exact represents_new]. Qed.

Lemma process_one log os st n e :
  at_position log n st → log !! n = Some e → at_position log (S n) (process_entry os st e).
Proof.
  intros (Hn&Hid&Hrep) He. split_and!.
  - by apply lookup_lt_Some in He.
  - by rewrite (take_S_r _ _ e He), last_snoc.
  - rewrite (take_S_r _ _ e He), stream_policies_snoc. by apply process_represents.
Qed.

(** The first unread entry of a prefix of the stream is the entry at the
    current position. *)
Lemma answer_position log sofar n st e rest :
  stream_ids_ok log → at_position log n st → sofar `prefix_of` log →
  unread sofar (ss_lastID st) = e :: rest → log !! n = Some e.
Proof.
  intros Hok (Hn&Hid&_) Hpre Hun. rewrite Hid in Hun. destruct Hpre as [later ->].
  assert (Hok' : stream_ids_ok sofar).
  { destruct Hok as [Hnd H0]. rewrite fmap_app in Hnd, H0.
    apply NoDup_app in Hnd as (?&_&_). split; [done|set_solver]. }
  destruct (decide (n ≤ length sofar)) as [Hle|Hgt].
  - rewrite take_app_le, unread_drop in Hun by done.
    rewrite lookup_app_l.
    + by rewrite <-(Nat.add_0_r n), <-lookup_drop, Hun.
    + apply (f_equal length) in Hun. rewrite length_drop in Hun. simpl in Hun. lia.
  - exfalso. destruct (lookup_lt_is_Some_2 (sofar ++ later) (pred n)) as [x Hx]; [lia|].
    replace n with (S (pred n)) in Hun by lia.
    rewrite (take_S_r _ _ x Hx), last_snoc in Hun. simpl in Hun.
    assert (Hxl : x ∈ later).
    { rewrite lookup_app_r in Hx by lia. by eapply list_elem_of_lookup_2. }
    destruct Hok as [Hnd H0]. rewrite fmap_app in Hnd. apply NoDup_app in Hnd as (_&Hdisj&_).
    unfold unread in Hun. rewrite decide_False in Hun.
    2:{ intros Heq. apply H0, list_elem_of_fmap. exists x. rewrite elem_of_app. auto. }
    rewrite after_absent in Hun; [done|]. intros Hin.
    apply (Hdisj _ Hin), list_elem_of_fmap. eauto.
Qed.

(** The reads that delivered an entry, up to where the loop returns. *)
Fixpoint deliveries (its : list iteration) (st : sub_state) : nat :=
  match its with
  | [] => 0
  | it :: its =>
    match loop_body it st with
    | Returned _ => 0
    | Running st' =>
      match it_read it with XStreams _ => 1 | _ => 0 end + deliveries its st'
    end
  end.

Lemma replay log its st n :
  stream_ids_ok log → at_position log n st → redis_run log its st →
  at_position log (n + deliveries its st) (loop_sub (loop_run its st)).
Proof.
  intros Hok. revert st n. induction its as [|it its IH]; intros st n Hpos Hrun; simpl in *.
  { by rewrite Nat.add_0_r. }
  destruct Hrun as [(sofar&Hpre&Hans) Hrun].
  assert (Hb : at_position log (n + match loop_body it st with Running _ =>
    match it_read it with XStreams _ => 1 | _ => 0 end | _ => 0 end) (loop_sub (loop_body it st))).
  { unfold loop_body. destruct (it_cancelled it); simpl; [by rewrite Nat.add_0_r|].
    destruct (it_read it) as [|err|streams]; simpl; [by rewrite Nat.add_0_r| |].
    - destruct (it_cancelled_after it), (it_done it); simpl; by rewrite Nat.add_0_r.
    - destruct Hans as (e&rest&Hun&->). rewrite Nat.add_1_r.
      apply process_one; [done|]. by eapply answer_position. }
  destruct (loop_body it st) as [st'|st']; simpl in *; [|done].
  specialize (IH _ _ Hb Hrun). by rewrite Nat.add_assoc.
Qed.

Lemma publish_update streamKey action policyID policyJSON :
  entry_update (xa_Values (publish_args streamKey action policyID policyJSON)) =
    if decide (action = ActionDelete) then Some (RemovePolicy policyID)
    else if decide (action = ActionUpsert ∧ policyJSON ≠ "") then
      match Unmarshal_Policy policyJSON with
      | Err _ => None
      | Ok p =>
        if decide (p_Access p = AccessAllow ∨ p_Access p = AccessDeny) then
          match Compile p with (p', None) => Some (SetPolicy p') | _ => None end
        else None
      end
    else None.
Proof.
  unfold entry_update, getString, publish_args.
  destruct (String.eqb_spec policyJSON "") as [->|Hj]; simpl; simplify_map_eq; simpl;
    repeat (case_decide; try done); naive_solver.
Qed.

(** A test for runs answered from the whole stream, for evaluation. *)
Fixpoint redis_run_b (log : list XMessage) (its : list iteration) (st : sub_state) : bool :=
  match its with
  | [] => true
  | it :: its =>
    match it_read it with
    | XStreams [[e]] => bool_decide (head (unread log (ss_lastID st)) = Some e)
    | XStreams _ => false
    | _ => true
    end &&
    match loop_body it st with
    | Running st' => redis_run_b log its st'
    | Returned _ => true
    end
  end.

Lemma redis_run_b_run log its st : redis_run_b log its st = true → redis_run log its st.
Proof.
  revert st. induction its as [|it its IH]; intros st; simpl; [done|].
  intros [Ha Hb]%andb_true_iff. split.
  - exists log. split; [done|]. destruct (it_read it) as [|e|[|[|e [|]] [|]]]; try done.
    apply bool_decide_eq_true in Ha. simpl.
    destruct (unread log (ss_lastID st)) as [|x rest]; simplify_eq/=. eauto.
  - destruct (loop_body it st); [by apply IH|done].
Qed.

(** ** Properties *)

(** C15: one entry.  A DELETE with a policy ID deletes that ID; an UPSERT whose
    payload decodes to a policy with access ALLOW or DENY and valid regexes
    upserts the compiled policy; anything else (a missing or non-string field,
    an unknown action, a bad payload, access mode or regex) leaves the store
    as it was. *)
Theorem processMessageEntry_effect os v ps :
  let '(out, ps') := processMessageEntry os v ps in
  match entry_update v with
  | None => ps' = ps ∧ (∀ p, out ≠ Upserted p) ∧ (∀ id, out ≠ Deleted id)
  | Some (SetPolicy p) =>
    out = Upserted p ∧ ps' = UpsertPolicy (mo_upsert os) p ps ∧
    (p_Access p = AccessAllow ∨ p_Access p = AccessDeny) ∧ policy_compiled p
  | Some (RemovePolicy id) =>
    out = Deleted id ∧ ps' = DeletePolicy (mo_delete_allow os) (mo_delete_deny os) id ps
  end.
Proof. apply process_spec. Qed.

(** C16: whatever Redis and the context answer, at every point of the loop the
    store holds one entry per ID, filed under the policy's own ID in the table
    of its access mode, with access ALLOW or DENY and every regex compiled. *)
Theorem subscriber_store_invariant its t id p :
  table_get t (ss_store (loop_sub (Start its NewPolicyStore))) !! id = Some p →
  p_ID p = id ∧ route p = t ∧ table_get (other t) (ss_store (loop_sub (Start its NewPolicyStore))) !! id = None ∧
  (p_Access p = AccessAllow ∨ p_Access p = AccessDeny) ∧ policy_compiled p.
Proof.
  destruct (subscriber_inv live_map apply_entry_live its live_map_empty) as (m&Hrep&Hl).
  intros Hp. pose proof (proj1 (proj1 Hrep _ _ _) Hp) as [Hm Hroute].
  destruct (Hl _ _ Hm) as [Hid [Hacc Hcomp]]. split_and!; [done|done| |done|done].
  pose proof (represents_disjoint _ _ Hrep) as Hd.
  destruct t; simpl in *; eauto using map_disjoint_Some_l, map_disjoint_Some_r.
Qed.

(** C9: the stream is replayed.  If Redis answers from an append-only stream,
    one entry per read, then after any mixture of timeouts, errors and reads
    the store represents the policies denoted by the first [n] entries, where
    [n] is the number of reads that delivered an entry: none is skipped,
    repeated or reordered, and exactly the later entries are unread. *)
Theorem subscriber_replays_stream log its :
  stream_ids_ok log → redis_run log its (mkSub "0" NewPolicyStore) →
  let st := loop_sub (Start its NewPolicyStore) in
  let n := deliveries its (mkSub "0" NewPolicyStore) in
  n ≤ length log ∧ represents (ss_store st) (stream_policies (take n log)) ∧
  unread log (ss_lastID st) = drop n log.
Proof.
  intros Hok Hrun. destruct (replay log its _ 0 Hok (at_position_start log) Hrun) as (Hn&Hid&Hrep).
  simpl in *. split_and!; [done|done|]. unfold Start. rewrite Hid. by apply unread_drop.
Qed.

(** A decision after replay.  The engine over the subscriber's store
    grants exactly what the consumed part of the stream says: some ALLOW
    policy it denotes applies and no DENY policy does; and two replicas that
    have consumed the same number of entries hold equal stores, whatever
    timeouts, errors and map iteration orders each went through. *)
Theorem replicas_decide_alike log its its' oa od req :
  stream_ids_ok log → redis_run log its (mkSub "0" NewPolicyStore) →
  redis_run log its' (mkSub "0" NewPolicyStore) →
  deliveries its (mkSub "0" NewPolicyStore) = deliveries its' (mkSub "0" NewPolicyStore) →
  let ps := ss_store (loop_sub (Start its NewPolicyStore)) in
  let m := stream_policies (take (deliveries its (mkSub "0" NewPolicyStore)) log) in
  ss_store (loop_sub (Start its' NewPolicyStore)) = ps ∧
  (granted (ListActivePolicies oa od ps) req ↔
   (∃ id p, m !! id = Some p ∧ p_Access p = AccessAllow ∧ policy_applies p req) ∧
   (∀ id p, m !! id = Some p → p_Access p = AccessDeny → ¬ policy_applies p req)).
Proof.
  intros Hok Hrun Hrun' Heq ps m.
  destruct (replay log its _ 0 Hok (at_position_start log) Hrun) as (_&_&Hrep).
  destruct (replay log its' _ 0 Hok (at_position_start log) Hrun') as (_&_&Hrep').
  simpl in *. rewrite <-Heq in Hrep'. split; [by eapply represents_unique|].
  unfold ps, Start. rewrite (represents_granted _ _ oa od req Hrep). fold m.
  pose proof (stream_policies_live (take (deliveries its (mkSub "0" NewPolicyStore)) log)) as Hl.
  fold m in Hl. split; intros [? Hno]; (split; [done|]); intros id p Hp Hacc.
  - apply (Hno id); [done|]. by rewrite Hacc.
  - apply (Hno id p Hp). by destruct (Hl _ _ Hp) as (_&[?|?]&_).
Qed.

(** The wire format.  [Publish] makes one [XAdd] call on its stream with an
    automatic ID, and what the subscriber reads in those fields is the update
    meant: a DELETE removes the given ID whatever the payload; an UPSERT sets
    the policy the payload decodes to, and without a payload is ignored. *)
Theorem Publish_then_consume streamKey action policyID policyJSON :
  let args := publish_args streamKey action policyID policyJSON in
  (∀ XAdd, Publish XAdd streamKey action policyID policyJSON = XAdd args) ∧
  xa_Stream args = streamKey ∧ xa_ID args = "*" ∧
  entry_update (xa_Values args) =
    if decide (action = ActionDelete) then Some (RemovePolicy policyID)
    else if decide (action = ActionUpsert ∧ policyJSON ≠ "") then
      match Unmarshal_Policy policyJSON with
      | Err _ => None
      | Ok p =>
        if decide (p_Access p = AccessAllow ∨ p_Access p = AccessDeny) then
          match Compile p with (p', None) => Some (SetPolicy p') | _ => None end
        else None
      end
    else None.
Proof. split_and!; [done|done|done|apply publish_update]. Qed.

(** The policy ID of an UPSERT entry is not used: the policy is stored
    under the ID inside its JSON, so when the two differ, a later DELETE of
    the entry's ID leaves the policy live. *)
Theorem upsert_ignores_policy_id os os' policyID json p ps :
  Unmarshal_Policy json = Ok p → json ≠ "" →
  p_Access p = AccessAllow ∨ p_Access p = AccessDeny → (Compile p).2 = None →
  p_ID p ≠ policyID →
  let upsert := xa_Values (publish_args StreamKey ActionUpsert policyID json) in
  let delete := xa_Values (publish_args StreamKey ActionDelete policyID "") in
  let ps1 := (processMessageEntry os upsert ps).2 in
  let ps2 := (processMessageEntry os' delete ps1).2 in
  table_get (route p) ps2 !! p_ID p = Some (Compile p).1.
Proof.
  intros Hj Hne Hacc Hc Hid upsert delete ps1 ps2.
  destruct (Compile_frame p) as (Hf1&_&Hf2&_).
  assert (Hps1 : ps1 = UpsertPolicy (mo_upsert os) (Compile p).1 ps).
  { unfold ps1. pose proof (process_spec os upsert ps) as H1.
    unfold upsert in *. rewrite publish_update, decide_False, decide_True, Hj, decide_True in H1 by done.
    destruct (Compile p) as [p' err]; simpl in *; subst err.
    destruct (processMessageEntry os _ ps). simpl. tauto. }
  assert (Hps2 : ps2 = DeletePolicy (mo_delete_allow os') (mo_delete_deny os') policyID ps1).
  { unfold ps2. pose proof (process_spec os' delete ps1) as H2.
    unfold delete in *. rewrite publish_update, decide_True in H2 by done.
    destruct (processMessageEntry os' _ ps1). simpl. tauto. }
  rewrite Hps2, table_get_DeletePolicy, lookup_delete_ne, Hps1 by done.
  assert (route p = route (Compile p).1) as -> by (unfold route, is_allow; by rewrite Hf2).
  rewrite table_get_UpsertPolicy, decide_True by done. rewrite <-Hf1. by rewrite lookup_insert_eq.
Qed.

End WithDecoder.
End WithRegexp.
