(* ===== verification/GoJson.v ===== *)
(** Package encoding/json, as far as the program uses it: [Unmarshal] into
    structs of strings, slices of strings and slices of structs.

    The scanner is the package's own byte-driven state machine, so it is
    structural on the input and needs no fuel.  The decoder reproduces what the
    package documents: exact then case-insensitive field names, null as a
    no-op on strings and structs, type mismatches reported after decoding
    the rest, and duplicate keys decoded over the earlier value (slices reuse
    their backing array).  The text of an error is not modelled: an error is
    one of two constants. *)
From S2P Require Import Prelude GoText.
Open Scope string_scope.
Open Scope nat_scope.
Open Scope list_scope.

#[local] Set Warnings "-register-all".

Inductive json :=
  | JNull
  | JBool (b : bool)
  | JNumber (text : string)
  | JString (s : string)
  | JArray (items : list json)
  | JObject (fields : list (string * json)).

(** ** UTF-8 and string literals *)

Definition in_range (lo hi : Z) (c : ascii) : bool := ((lo <=? byte_val c) && (byte_val c <=? hi))%Z.
Definition cont_byte (c : ascii) : bool := in_range 128 191 c.

(** The length of the well-formed UTF-8 sequence that starts here, 0 if none. *)
Definition utf8_len (s : string) : nat :=
  match s with
  | String c0 s1 =>
    if (byte_val c0 <? 128)%Z then 1
    else match s1 with
    | String c1 s2 =>
      if in_range 194 223 c0 then (if cont_byte c1 then 2 else 0)
      else match s2 with
      | String c2 s3 =>
        let ok3 :=
          if in_range 224 224 c0 then in_range 160 191 c1
          else if in_range 237 237 c0 then in_range 128 159 c1
          else in_range 225 239 c0 && cont_byte c1 in
        if ok3 then (if cont_byte c2 then 3 else 0)
        else match s3 with
        | String c3 _ =>
          let ok4 :=
            if in_range 240 240 c0 then in_range 144 191 c1
            else if in_range 244 244 c0 then in_range 128 143 c1
            else in_range 241 243 c0 && cont_byte c1 in
          if ok4 && cont_byte c2 && cont_byte c3 then 4 else 0
        | EmptyString => 0
        end
      | EmptyString => 0
      end
    | EmptyString => 0
    end
  | EmptyString => 0
  end.

(** [utf8.EncodeRune] of a valid rune. *)
Definition EncodeRune (r : Z) : string :=
  if (r <? 128)%Z then String (byte_of r) ""
  else if (r <? 2048)%Z then
    String (byte_of (192 + Z.shiftr r 6)) (String (byte_of (128 + Z.land r 63)) "")
  else if (r <? 65536)%Z then
    String (byte_of (224 + Z.shiftr r 12))
      (String (byte_of (128 + Z.land (Z.shiftr r 6) 63)) (String (byte_of (128 + Z.land r 63)) ""))
  else
    String (byte_of (240 + Z.shiftr r 18))
      (String (byte_of (128 + Z.land (Z.shiftr r 12) 63))
        (String (byte_of (128 + Z.land (Z.shiftr r 6) 63)) (String (byte_of (128 + Z.land r 63)) ""))).

Definition ReplacementChar : Z := 65533.

Definition hex_digit (c : ascii) : option Z :=
  if is_digit c then Some (digit_val c)
  else if in_range 97 102 c then Some (byte_val c - 87)%Z
  else if in_range 65 70 c then Some (byte_val c - 55)%Z
  else None.

Definition hex4 (a b c d : ascii) : option Z :=
  x ← hex_digit a; y ← hex_digit b; z ← hex_digit c; w ← hex_digit d;
  Some (((x * 16 + y) * 16 + z) * 16 + w)%Z.

Definition is_high (r : Z) : bool := ((55296 <=? r) && (r <? 56320))%Z.
Definition is_low (r : Z) : bool := ((56320 <=? r) && (r <? 57344))%Z.

(** [getu4]: the rune of a backslash-u escape at the head of the input. *)
Definition getu4 (s : string) : option Z :=
  match s with
  | String "\" (String "u" (String a (String b (String c (String d _))))) => hex4 a b c d
  | _ => None
  end.

Definition simple_escape (c : ascii) : option ascii :=
  if Ascii.eqb c dquote then Some dquote
  else if Ascii.eqb c "\" then Some "\"%char
  else if Ascii.eqb c "/" then Some "/"%char
  else if Ascii.eqb c "b" then Some (byte_of 8)
  else if Ascii.eqb c "f" then Some (byte_of 12)
  else if Ascii.eqb c "n" then Some (byte_of 10)
  else if Ascii.eqb c "r" then Some (byte_of 13)
  else if Ascii.eqb c "t" then Some (byte_of 9)
  else None.

Fixpoint drop_bytes (n : nat) (s : string) : string :=
  match n, s with
  | S n, String _ s => drop_bytes n s
  | _, _ => s
  end.

(** [unquoteBytes] on the body of a scanned literal: escapes are replaced, a
    lone surrogate and every byte of invalid UTF-8 become U+FFFD.  [skip] bytes
    belong to an escape already written, [copy] bytes to a sequence under way. *)
Fixpoint unquote (skip copy : nat) (s : string) : string :=
  match s with
  | EmptyString => EmptyString
  | String c s' =>
    match skip, copy with
    | S k, _ => unquote k 0 s'
    | O, S k => String c (unquote 0 k s')
    | O, O =>
      if Ascii.eqb c "\" then
        match getu4 s with
        | Some r =>
          if is_high r || is_low r then
            match getu4 (drop_bytes 6 s) with
            | Some r2 =>
              if is_high r && is_low r2
              then (EncodeRune (65536 + (r - 55296) * 1024 + (r2 - 56320)) +:+ unquote 11 0 s')%string
              else (EncodeRune ReplacementChar +:+ unquote 5 0 s')%string
            | None => (EncodeRune ReplacementChar +:+ unquote 5 0 s')%string
            end
          else (EncodeRune r +:+ unquote 5 0 s')%string
        | None =>
          match s' with
          | String e _ =>
            match simple_escape e with
            | Some x => String x (unquote 1 0 s')
            | None => EmptyString
            end
          | EmptyString => EmptyString
          end
        end
      else match utf8_len s with
      | O => (EncodeRune ReplacementChar +:+ unquote 0 0 s')%string
      | S k => String c (unquote 0 k s')
      end
    end
  end.

(** ** The scanner *)

Inductive frame :=
  | FArr (rev_items : list json)
  | FKey (rev_fields : list (string * json))
  | FColon (rev_fields : list (string * json)) (key : string)
  | FValue (rev_fields : list (string * json)) (key : string)
  | FNext (rev_fields : list (string * json)).

Inductive num_state := NNeg | N0 | N1 | NDot | NDot0 | NE | NESign | NE0.

Inductive jstate :=
  | SBeginValue
  | SBeginValueOrEmpty
  | SBeginStringOrEmpty
  | SBeginString
  | SEndValue
  | SEndTop (v : json)
  | SString (rev_raw : list ascii)
  | SEsc (rev_raw : list ascii)
  | SEscU (left : nat) (rev_raw : list ascii)
  | SNum (ns : num_state) (rev_raw : list ascii)
  | SLit (rest : string) (v : json).

Definition config : Type := list frame * jstate.

Definition maxNestingDepth : Z := 10000.

Definition isSpace (c : ascii) : bool :=
  Ascii.eqb c " " || Ascii.eqb c (byte_of 9) || Ascii.eqb c (byte_of 10) || Ascii.eqb c (byte_of 13).

Definition is_1_9 (c : ascii) : bool := in_range 49 57 c.

Definition of_rev (rev_raw : list ascii) : string := String.string_of_list_ascii (rev rev_raw).

Definition push (f : frame) (k : list frame) (st : jstate) : option config :=
  if (Z.of_nat (length k) <? maxNestingDepth)%Z then Some (f :: k, st) else None.

(** A value has been read in the context [k]. *)
Definition finish_value (v : json) (k : list frame) : option config :=
  match k with
  | [] => Some ([], SEndTop v)
  | FArr vs :: k => Some (FArr (v :: vs) :: k, SEndValue)
  | FKey fs :: k =>
    match v with
    | JString key => Some (FColon fs key :: k, SEndValue)
    | _ => None
    end
  | FValue fs key :: k => Some (FNext ((key, v) :: fs) :: k, SEndValue)
  | _ => None
  end.

Definition begin_value (c : ascii) (k : list frame) : option config :=
  if isSpace c then Some (k, SBeginValue)
  else if Ascii.eqb c "{" then push (FKey []) k SBeginStringOrEmpty
  else if Ascii.eqb c "[" then push (FArr []) k SBeginValueOrEmpty
  else if Ascii.eqb c dquote then Some (k, SString [])
  else if Ascii.eqb c "-" then Some (k, SNum NNeg [c])
  else if Ascii.eqb c "0" then Some (k, SNum N0 [c])
  else if is_1_9 c then Some (k, SNum N1 [c])
  else if Ascii.eqb c "t" then Some (k, SLit "rue" (JBool true))
  else if Ascii.eqb c "f" then Some (k, SLit "alse" (JBool false))
  else if Ascii.eqb c "n" then Some (k, SLit "ull" JNull)
  else None.

Definition begin_string (c : ascii) (k : list frame) : option config :=
  if isSpace c then Some (k, SBeginString)
  else if Ascii.eqb c dquote then Some (k, SString [])
  else None.

Definition end_value (c : ascii) (cfg : config) : option config :=
  match cfg with
  | (k, SEndTop v) => if isSpace c then Some (k, SEndTop v) else None
  | (k, _) =>
    if isSpace c then Some (k, SEndValue)
    else match k with
    | FColon fs key :: k => if Ascii.eqb c ":" then Some (FValue fs key :: k, SBeginValue) else None
    | FNext fs :: k =>
      if Ascii.eqb c "," then Some (FKey fs :: k, SBeginString)
      else if Ascii.eqb c "}" then finish_value (JObject (rev fs)) k
      else None
    | FArr vs :: k =>
      if Ascii.eqb c "," then Some (FArr vs :: k, SBeginValue)
      else if Ascii.eqb c "]" then finish_value (JArray (rev vs)) k
      else None
    | _ => None
    end
  end.

(** The next state of a number on a byte that continues it. *)
Definition num_next (ns : num_state) (c : ascii) : option num_state :=
  let e := Ascii.eqb c "e" || Ascii.eqb c "E" in
  match ns with
  | NNeg => if Ascii.eqb c "0" then Some N0 else if is_1_9 c then Some N1 else None
  | N1 => if is_digit c then Some N1
          else if Ascii.eqb c "." then Some NDot else if e then Some NE else None
  | N0 => if Ascii.eqb c "." then Some NDot else if e then Some NE else None
  | NDot => if is_digit c then Some NDot0 else None
  | NDot0 => if is_digit c then Some NDot0 else if e then Some NE else None
  | NE => if Ascii.eqb c "+" || Ascii.eqb c "-" then Some NESign
          else if is_digit c then Some NE0 else None
  | NESign => if is_digit c then Some NE0 else None
  | NE0 => if is_digit c then Some NE0 else None
  end.

Definition num_complete (ns : num_state) : bool :=
  match ns with N0 | N1 | NDot0 | NE0 => true | _ => false end.

(** One byte. *)
Definition scan_step (c : ascii) (cfg : config) : option config :=
  let '(k, st) := cfg in
  match st with
  | SBeginValue => begin_value c k
  | SBeginValueOrEmpty =>
    if isSpace c then Some (k, SBeginValueOrEmpty)
    else if Ascii.eqb c "]" then
      match k with FArr _ :: k => finish_value (JArray []) k | _ => None end
    else begin_value c k
  | SBeginStringOrEmpty =>
    if isSpace c then Some (k, SBeginStringOrEmpty)
    else if Ascii.eqb c "}" then
      match k with FKey _ :: k => finish_value (JObject []) k | _ => None end
    else begin_string c k
  | SBeginString => begin_string c k
  | SEndValue | SEndTop _ => end_value c cfg
  | SString raw =>
    if Ascii.eqb c dquote then finish_value (JString (unquote 0 0 (of_rev raw))) k
    else if Ascii.eqb c "\" then Some (k, SEsc (c :: raw))
    else if (byte_val c <? 32)%Z then None
    else Some (k, SString (c :: raw))
  | SEsc raw =>
    if Ascii.eqb c "u" then Some (k, SEscU 4 (c :: raw))
    else match simple_escape c with
    | Some _ => Some (k, SString (c :: raw))
    | None => None
    end
  | SEscU n raw =>
    match hex_digit c with
    | None => None
    | Some _ => Some (k, match n with
                         | S (S m) => SEscU (S m) (c :: raw)
                         | _ => SString (c :: raw)
                         end)
    end
  | SNum ns raw =>
    match num_next ns c with
    | Some ns' => Some (k, SNum ns' (c :: raw))
    | None =>
      if num_complete ns then cfg' ← finish_value (JNumber (of_rev raw)) k; end_value c cfg'
      else None
    end
  | SLit rest v =>
    match rest with
    | String c' rest' =>
      if Ascii.eqb c c' then
        match rest' with
        | EmptyString => finish_value v k
        | _ => Some (k, SLit rest' v)
        end
      else None
    | EmptyString => None
    end
  end.

(** The whole input; at its end a virtual space completes a number. *)
Fixpoint scan (s : string) (cfg : config) : option json :=
  match s with
  | EmptyString =>
    match scan_step " " cfg with
    | Some ([], SEndTop v) => Some v
    | _ => None
    end
  | String c s => cfg' ← scan_step c cfg; scan s cfg'
  end.

Definition parse_json (s : string) : option json := scan s ([], SBeginValue).

(** ** Decoding into Go values *)

(** The body of a field name for comparison: ASCII letters upper-cased, and the
    two other runes that fold to ASCII letters (U+017F and U+212A) replaced by
    them; any other non-ASCII byte matches no field of this program. *)
Definition fold_head (s : string) : ascii * nat :=
  match s with
  | EmptyString => (zero, 0)
  | String c s' =>
    match s' with
    | String c1 s2 =>
      if (byte_val c =? 197)%Z && (byte_val c1 =? 191)%Z then ("S"%char, 1)
      else match s2 with
      | String c2 _ =>
        if (byte_val c =? 226)%Z && (byte_val c1 =? 132)%Z && (byte_val c2 =? 170)%Z
        then ("K"%char, 2) else (upper_byte c, 0)
      | EmptyString => (upper_byte c, 0)
      end
    | EmptyString => (upper_byte c, 0)
    end
  end.

Fixpoint foldName_from (skip : nat) (s : string) : string :=
  match s with
  | EmptyString => EmptyString
  | String c s' =>
    match skip with
    | S k => foldName_from k s'
    | O => let '(c', k) := fold_head s in String c' (foldName_from k s')
    end
  end.

Definition foldName (s : string) : string := foldName_from 0 s.

(** The struct field a key names: an exact match first, else a folded one. *)
Definition find_field (names : list string) (key : string) : option string :=
  match find (String.eqb key) names with
  | Some n => Some n
  | None => find (λ n, String.eqb (foldName key) (foldName n)) names
  end.

(** A Go slice during decoding: the elements written to its array so far and
    its length.  Elements past the list are zero values. *)
Record slice (T : Type) := mkSlice { sl_array : list T; sl_len : nat }.
Arguments mkSlice {T} _ _.
Arguments sl_array {T} _.
Arguments sl_len {T} _.

Definition nil_slice {T} : slice T := mkSlice [] 0.
Definition slice_list {T} (s : slice T) : list T := take (sl_len s) (sl_array s).

(** A decoder reads a JSON value over the current one; the boolean tells
    whether every value had an acceptable type. *)
Definition decoder (T : Type) : Type := T → json → T * bool.

Definition decode_string : decoder string := λ cur j,
  match j with
  | JNull => (cur, true)
  | JString s => (s, true)
  | _ => (cur, false)
  end.

(** The elements of an array, decoded over those the slice's array holds. *)
Fixpoint decode_items {T} (zero : T) (dec : decoder T) (array : list T) (items : list json)
    : list T * bool :=
  match items with
  | [] => (array, true)
  | j :: items =>
    let '(cur, rest) := match array with [] => (zero, []) | x :: xs => (x, xs) end in
    let '(x, ok) := dec cur j in
    let '(xs, oks) := decode_items zero dec rest items in
    (x :: xs, ok && oks)
  end.

Definition decode_slice {T} (zero : T) (dec : decoder T) : decoder (slice T) := λ cur j,
  match j with
  | JNull => (nil_slice, true)
  | JArray [] => (nil_slice, true)
  | JArray items =>
    let '(array, ok) := decode_items zero dec (sl_array cur) items in
    (mkSlice array (length items), ok)
  | _ => (cur, false)
  end.

(** A struct, by the decoder of each of its fields. *)
Definition decode_struct {T} (names : list string) (field : string → decoder T) : decoder T := λ cur j,
  match j with
  | JNull => (cur, true)
  | JObject fields =>
    foldl (λ acc kv,
      match find_field names kv.1 with
      | None => acc
      | Some n => let '(v, ok) := field n acc.1 kv.2 in (v, acc.2 && ok)
      end) (cur, true) fields
  | _ => (cur, false)
  end.

(** [Unmarshal] into a fresh variable. *)
Definition Unmarshal {T} (zero : T) (dec : decoder T) (data : string) : result T :=
  match parse_json data with
  | None => Err "invalid JSON"
  | Some j =>
    match dec zero j with
    | (v, true) => Ok v
    | (_, false) => Err "cannot unmarshal JSON value into Go value"
    end
  end.
