(* ===== verification/PolicyJson.v ===== *)
(** The JSON form of a policy: [json.Unmarshal] into [store.Policy] by the
    struct tags of internal/store/policy.go, as the instance of the
    subscriber's decoder interface.  The [json:"-"] field stays nil. *)
From S2P Require Import Prelude GoText GoJson Policy LiteralRegexp Store Operators Engine Subscriber.
Open Scope string_scope.
Open Scope nat_scope.
Open Scope list_scope.

(** The struct types while they are being decoded: slices keep their array. *)
Record ConditionVar := mkConditionVar {
  cv_Attribute : string;
  cv_Operator : string;
  cv_Value : slice string
}.

Record PolicyVar := mkPolicyVar {
  pv_ID : string;
  pv_Description : string;
  pv_Access : string;
  pv_Target : Target;
  pv_Conditions : slice ConditionVar
}.

Definition zero_ConditionVar : ConditionVar := mkConditionVar "" "" nil_slice.
Definition zero_PolicyVar : PolicyVar := mkPolicyVar "" "" "" (mkTarget "" "") nil_slice.

Definition decode_Condition : decoder ConditionVar :=
  decode_struct ["attribute"; "operator"; "value"] (λ name cur j,
    if String.eqb name "attribute" then
      let '(s, ok) := decode_string (cv_Attribute cur) j in
      (mkConditionVar s (cv_Operator cur) (cv_Value cur), ok)
    else if String.eqb name "operator" then
      let '(s, ok) := decode_string (cv_Operator cur) j in
      (mkConditionVar (cv_Attribute cur) s (cv_Value cur), ok)
    else
      let '(v, ok) := decode_slice "" decode_string (cv_Value cur) j in
      (mkConditionVar (cv_Attribute cur) (cv_Operator cur) v, ok)).

Definition decode_Target : decoder Target :=
  decode_struct ["resource_type"; "action"] (λ name cur j,
    if String.eqb name "resource_type" then
      let '(s, ok) := decode_string (t_ResourceType cur) j in (mkTarget s (t_Action cur), ok)
    else
      let '(s, ok) := decode_string (t_Action cur) j in (mkTarget (t_ResourceType cur) s, ok)).

Definition decode_Policy : decoder PolicyVar :=
  decode_struct ["id"; "description"; "access"; "target"; "conditions"] (λ name cur j,
    let '(mkPolicyVar id desc access target conds) := cur in
    if String.eqb name "id" then
      let '(s, ok) := decode_string id j in (mkPolicyVar s desc access target conds, ok)
    else if String.eqb name "description" then
      let '(s, ok) := decode_string desc j in (mkPolicyVar id s access target conds, ok)
    else if String.eqb name "access" then
      let '(s, ok) := decode_string access j in (mkPolicyVar id desc s target conds, ok)
    else if String.eqb name "target" then
      let '(t, ok) := decode_Target target j in (mkPolicyVar id desc access t conds, ok)
    else
      let '(cs, ok) := decode_slice zero_ConditionVar decode_Condition conds j in
      (mkPolicyVar id desc access target cs, ok)).

Section WithRegexp.
Context `{RE : RegexpLib}.

Definition policy_of_var (p : PolicyVar) : Policy :=
  mkPolicy (pv_ID p) (pv_Description p) (pv_Access p) (pv_Target p)
    ((λ c, mkCondition (cv_Attribute c) (cv_Operator c) (slice_list (cv_Value c)) None) <$>
     slice_list (pv_Conditions p)).

#[export] Instance json_policy_decoder : PolicyDecoder := λ data,
  policy_of_var <$> Unmarshal zero_PolicyVar decode_Policy data.

End WithRegexp.


(** Compact JSON text for examples: an apostrophe stands for a double quote. *)
Definition jtext (s : string) : string :=
  map_bytes (λ c, if Ascii.eqb c "'" then dquote else c) s.

(** The policy cmd/mock-publisher publishes. *)
Definition mock_policy_json : string := jtext
  "{
		'id': 'pol-mock-001',
		'description': 'Allow Admin Read',
		'access': 'ALLOW',
		'target': {'resource_type': 'dashboard', 'action': 'READ'},
		'conditions': [{'attribute': 'principal.role', 'operator': 'EQUALS', 'value': ['admin']}]
	}".

Example mock_policy_decodes :
  Unmarshal_Policy mock_policy_json =
  Ok (mkPolicy "pol-mock-001" "Allow Admin Read" AccessAllow (mkTarget "dashboard" "READ")
        [mkCondition "principal.role" "EQUALS" ["admin"] None]).
Proof. vm_compute. reflexivity. Qed.

(** Field names match without regard to case, and a duplicate key is decoded
    over the earlier value: here the second array shrinks the conditions to
    one and keeps the first condition's attribute, and the third, whose name
    folds to "conditions", brings the array's second element back. *)
Example duplicate_keys_merge :
  Unmarshal_Policy (jtext
    "{'ID':'x','conditions':[{'attribute':'a','value':['u','v']},{'attribute':'b'}],'Conditions':[{'value':['w']}],'condition\u017f':[{},{'operator':'O'}],'k':[1.5e-3,{'z':[]}]}") =
  Ok (mkPolicy "x" "" "" (mkTarget "" "")
        [mkCondition "a" "" ["w"] None; mkCondition "b" "O" [] None]).
Proof. vm_compute. reflexivity. Qed.

Example mismatched_type_rejected :
  Unmarshal_Policy (jtext "{'id':'x','target':3}") =
    Err "cannot unmarshal JSON value into Go value" ∧
  Unmarshal_Policy (jtext "{'id':'x',}") = Err "invalid JSON".
Proof. split; vm_compute; reflexivity. Qed.

(** ** Witnesses for the theorems of [Subscriber] *)

Definition orders : MapOrders := mkMapOrders canonical_order canonical_order canonical_order.

Definition deny_json : string := jtext
  "{'id':'deny-1','access':'DENY','target':{'resource_type':'dashboard','action':'READ'},'conditions':[{'attribute':'principal.role','operator':'REGEX','value':['^bad']}]}".

Definition sample_log : list XMessage :=
  [mkXMessage "1-0" (xa_Values (publish_args StreamKey ActionUpsert "pol-mock-001" mock_policy_json));
   mkXMessage "2-0" (xa_Values (publish_args StreamKey ActionUpsert "broken" (jtext "{'id':")));
   mkXMessage "3-0" (xa_Values (publish_args StreamKey ActionUpsert "deny-1" deny_json));
   mkXMessage "4-0" (xa_Values (publish_args StreamKey ActionDelete "pol-mock-001" ""))].

Definition reads (e : XMessage) : iteration := mkIteration false (XStreams [[e]]) false false orders.
Definition times_out : iteration := mkIteration false XNil false false orders.
Definition fails_once : iteration := mkIteration false (XErr "connection refused") false false orders.

(** Three entries read, with a timeout and a connection error in between. *)
Definition sample_run : list iteration :=
  times_out :: fails_once ::
  omap (λ n, reads <$> sample_log !! n) [0; 1; 2].

Definition other_run : list iteration :=
  omap (λ n, reads <$> sample_log !! n) [0; 1; 2] ++ [times_out].

Lemma sample_ids_ok : stream_ids_ok sample_log.
Proof.
  split; apply (bool_decide_unpack _); vm_compute; exact I.
Qed.

Lemma sample_run_ok : redis_run sample_log sample_run (mkSub "0" NewPolicyStore).
Proof. apply redis_run_b_run. vm_compute. reflexivity. Qed.

Lemma other_run_ok : redis_run sample_log other_run (mkSub "0" NewPolicyStore).
Proof. apply redis_run_b_run. vm_compute. reflexivity. Qed.

Lemma subscriber_replays_stream_witness :
  let st := loop_sub (Start sample_run NewPolicyStore) in
  ss_lastID st = "3-0" ∧
  represents (ss_store st) (stream_policies (take 3 sample_log)) ∧
  unread sample_log (ss_lastID st) = drop 3 sample_log.
Proof.
  intros st. split; [vm_compute; reflexivity|].
  pose proof (subscriber_replays_stream sample_log sample_run sample_ids_ok sample_run_ok) as H.
  replace (deliveries sample_run (mkSub "0" NewPolicyStore)) with 3 in H by (vm_compute; reflexivity).
  exact (proj2 H).
Defined.

Definition deny_policy : Policy :=
  mkPolicy "deny-1" "" AccessDeny (mkTarget "dashboard" "READ")
    [mkCondition "principal.role" "REGEX" ["^bad"] (Some (mkLiteralRe true false "bad"))].

Lemma sample_deny_live :
  table_get TDeny (ss_store (loop_sub (Start sample_run NewPolicyStore))) !! "deny-1" = Some deny_policy.
Proof. vm_compute. reflexivity. Qed.

Lemma subscriber_store_invariant_witness :
  p_ID deny_policy = "deny-1" ∧ route deny_policy = TDeny ∧ policy_compiled deny_policy.
Proof.
  pose proof (subscriber_store_invariant sample_run TDeny "deny-1" deny_policy sample_deny_live)
    as (H1&H2&_&_&H3).
  split; [exact H1|split; [exact H2|exact H3]].
Defined.

Definition dashboard_read : EvaluationRequest :=
  mkRequest "usr-1" (Some {["role" := ["admin"]]}) "dashboard" "" None "READ" None.

Lemma replicas_decide_alike_witness :
  ss_store (loop_sub (Start other_run NewPolicyStore)) =
    ss_store (loop_sub (Start sample_run NewPolicyStore)) ∧
  granted (ListActivePolicies canonical_order canonical_order
    (ss_store (loop_sub (Start sample_run NewPolicyStore)))) dashboard_read.
Proof.
  pose proof (replicas_decide_alike sample_log sample_run other_run canonical_order canonical_order
    dashboard_read sample_ids_ok sample_run_ok other_run_ok) as H.
  assert (deliveries sample_run (mkSub "0" NewPolicyStore) =
    deliveries other_run (mkSub "0" NewPolicyStore)) as Heq by (vm_compute; reflexivity).
  split; [exact (proj1 (H Heq))|]. eexists. split; vm_compute; reflexivity.
Defined.

(** Publishing the mock policy under another ID and deleting that ID. *)
Lemma upsert_ignores_policy_id_witness :
  let upsert := xa_Values (publish_args StreamKey ActionUpsert "other-id" mock_policy_json) in
  let delete := xa_Values (publish_args StreamKey ActionDelete "other-id" "") in
  let ps2 := (processMessageEntry orders delete (processMessageEntry orders upsert NewPolicyStore).2).2 in
  is_Some (st_allow ps2 !! "pol-mock-001").
Proof.
  intros upsert delete ps2. eexists.
  refine (upsert_ignores_policy_id orders orders "other-id" mock_policy_json
    (mkPolicy "pol-mock-001" "Allow Admin Read" AccessAllow (mkTarget "dashboard" "READ")
        [mkCondition "principal.role" "EQUALS" ["admin"] None]) NewPolicyStore _ _ _ _ _).
  - vm_compute. reflexivity.
  - vm_compute. discriminate.
  - left. reflexivity.
  - reflexivity.
  - discriminate.
Defined.
