(* ===== verification/Seeding.v ===== *)
(** Policy seeding, shared by examples/httpbin/pep/main.go and
    examples/envoy-jwt/extauthz/main.go: reading the policy files of a
    directory and publishing them with retries.

    The file system and the Redis client are arguments; the order in which
    [sort.Slice] leaves files with equal IDs is not fixed by the library and
    is an argument too. *)
From S2P Require Import Prelude GoText GoJson Policy LiteralRegexp Store Operators Engine Subscriber PolicyJson.
Open Scope string_scope.
Open Scope nat_scope.
Open Scope list_scope.

(** [envOr], in an environment. *)
Definition envOr (getenv : string → string) (key def : string) : string :=
  let v := getenv key in
  if negb (String.eqb v "") then v else def.

Record policyFile := mkPolicyFile { pf_id : string; pf_json : string }.

Record dir_entry := mkDirEntry { de_name : string; de_IsDir : bool }.

(** The order on IDs: Go compares strings byte by byte. *)
Definition id_le (x y : policyFile) : Prop := String.leb (pf_id x) (pf_id y) = true.

(** [sort.Slice] by ID: some sorted permutation. *)
Record IdSorter := {
  id_sort :> list policyFile → list policyFile;
  id_sort_perm : ∀ l, id_sort l ≡ₚ l;
  id_sort_sorted : ∀ l, StronglySorted id_le (id_sort l)
}.

Lemma string_leb_cons c d s t :
  String.leb (String c s) (String d t) =
  match N.compare (N_of_ascii c) (N_of_ascii d) with
  | Lt => true | Gt => false | Eq => String.leb s t
  end.
Proof. unfold String.leb; simpl. unfold Ascii.compare. by destruct (N.compare _ _). Qed.

#[export] Instance id_le_dec : RelDecision id_le.
Proof. intros x y. unfold id_le. apply _. Defined.

#[export] Instance id_le_total : Total id_le.
Proof.
  intros [x ?] [y ?]. unfold id_le; simpl. pose proof (String.leb_total x y) as [H|H]; rewrite H; auto.
Qed.

#[export] Instance id_le_trans : Transitive id_le.
Proof.
  intros [x ?] [y ?] [z ?]. unfold id_le; simpl. revert y z.
  induction x as [|c x IH]; intros [|d y] [|e z]; try done.
  rewrite !string_leb_cons. pose proof (IH y z).
  destruct (N.compare_spec (N_of_ascii c) (N_of_ascii d)),
    (N.compare_spec (N_of_ascii d) (N_of_ascii e)),
    (N.compare_spec (N_of_ascii c) (N_of_ascii e)); try done; try lia; auto.
Qed.

(** One such sort, for evaluation. *)
Definition merge_sorter : IdSorter := {|
  id_sort := merge_sort id_le;
  id_sort_perm := merge_sort_Permutation id_le;
  id_sort_sorted := StronglySorted_merge_sort id_le
|}.

(** The anonymous struct the file is first decoded into. *)
Definition decode_meta : decoder string := decode_struct ["id"] (λ _ cur j, decode_string cur j).

(** The body of the loop over the directory. *)
Definition load_entry (ReadFile : string → result string) (e : dir_entry) : option policyFile :=
  if de_IsDir e || negb (HasSuffix (de_name e) ".json") then None
  else match ReadFile (de_name e) with
  | Err _ => None
  | Ok data =>
    match Unmarshal "" decode_meta data with
    | Err _ => None
    | Ok id => if String.eqb id "" then None else Some (mkPolicyFile id data)
    end
  end.

(** [loadPolicyFiles]: [ReadDir] of the directory, [ReadFile] of a name in it. *)
Definition loadPolicyFiles (sort : IdSorter) (ReadDir : result (list dir_entry))
    (ReadFile : string → result string) : list policyFile :=
  match ReadDir with
  | Err _ => []
  | Ok entries => sort (omap (load_entry ReadFile) entries)
  end.

Definition initial_backoff : Z := 500000000.
Definition maxBackoff : Z := 5000000000.
Definition next_backoff (backoff : Z) : Z := Z.min (backoff * 2) maxBackoff.

(** What seeding does to the outside, in order. *)
Inductive seed_event :=
  | SeedPublish (f : policyFile) (err : option string)
  | SeedSleep (d : Z).

(** One pass over the files: it stops at the first error.  [XAdd n] is the
    client's answer to the [n]-th call. *)
Fixpoint publish_files (XAdd : nat → XAddArgs → option string) (files : list policyFile) (calls : nat)
    : bool * nat * list seed_event :=
  match files with
  | [] => (false, calls, [])
  | f :: files =>
    match Publish (XAdd calls) StreamKey ActionUpsert (pf_id f) (pf_json f) with
    | Some err => (true, S calls, [SeedPublish f (Some err)])
    | None =>
      let '(failed, calls', evs) := publish_files XAdd files (S calls) in
      (failed, calls', SeedPublish f None :: evs)
    end
  end.

(** The retry loop, for at most [attempts] passes: the events and whether it
    returned. *)
Fixpoint seed_loop (XAdd : nat → XAddArgs → option string) (files : list policyFile)
    (attempts : nat) (calls : nat) (backoff : Z) : list seed_event * bool :=
  match attempts with
  | O => ([], false)
  | S attempts =>
    let '(failed, calls', evs) := publish_files XAdd files calls in
    if failed then
      let '(evs', returned) := seed_loop XAdd files attempts calls' (next_backoff backoff) in
      (evs ++ SeedSleep backoff :: evs', returned)
    else (evs, true)
  end.

Definition seedPolicies (XAdd : nat → XAddArgs → option string) (files : list policyFile)
    (attempts : nat) : list seed_event * bool :=
  if length files =? 0 then ([], true)
  else seed_loop XAdd files attempts 0 initial_backoff.

(** ** Specification *)

Definition event_file (ev : seed_event) : option policyFile :=
  match ev with SeedPublish f _ => Some f | SeedSleep _ => None end.

Definition sleeps (evs : list seed_event) : list Z :=
  omap (λ ev, match ev with SeedSleep d => Some d | _ => None end) evs.

(** The [k]-th pause: 500 ms doubled [k] times, capped at 5 s. *)
Definition backoff_at (k : nat) : Z := Z.min (500000000 * 2 ^ Z.of_nat k) 5000000000.

(** Some files were published (or reported as failed), with pauses, before a
    last pass that published every file in order. *)
Definition seeded (files : list policyFile) (evs : list seed_event) : Prop :=
  ∃ earlier, evs = earlier ++ ((λ f, SeedPublish f None) <$> files) ∧
    ∀ f, f ∈ omap event_file earlier → f ∈ files.

(** ** Lemmas *)

Lemma backoff_at_0 : backoff_at 0 = initial_backoff.
Proof. reflexivity. Qed.

Lemma backoff_at_next k : next_backoff (backoff_at k) = backoff_at (S k).
Proof.
  unfold next_backoff, backoff_at, maxBackoff. rewrite Nat2Z.inj_succ, Z.pow_succ_r by lia.
  pose proof (Z.pow_pos_nonneg 2 (Z.of_nat k)). lia.
Qed.

Lemma publish_files_spec XAdd files calls :
  let '(failed, calls', evs) := publish_files XAdd files calls in
  calls ≤ calls' ∧ (files ≠ [] → calls < calls') ∧ sleeps evs = [] ∧
  (∀ f, f ∈ omap event_file evs → f ∈ files) ∧
  (failed = false → evs = (λ f, SeedPublish f None) <$> files) ∧
  (failed = true → ∃ n args err, calls ≤ n ∧ n < calls' ∧ XAdd n args = Some err).
Proof.
  revert calls. induction files as [|f files IH]; intros calls; simpl.
  { split_and!; try done; set_solver. }
  unfold Publish. destruct (XAdd calls _) as [err|] eqn:Hx.
  - split_and!; try done; try lia; [set_solver|]. intros _. eexists calls, _, err. split_and!; [lia|lia|exact Hx].
  - specialize (IH (S calls)). destruct (publish_files XAdd files (S calls)) as [[failed calls'] evs].
    destruct IH as (H1&_&H3&H4&H5&H6). split_and!.
    + lia.
    + lia.
    + done.
    + simpl. set_solver.
    + intros Hf. csimpl. by rewrite H5.
    + intros Hf. destruct (H6 Hf) as (n&args&e&?&?&?). exists n, args, e. split_and!; [lia|done|done].
Qed.

(** If the client stops failing at its [N]-th call, the loop returns within
    [N] pauses. *)
Lemma seed_loop_returns XAdd files N attempts calls k :
  files ≠ [] → (∀ n args, N ≤ n → XAdd n args = None) → N - calls < attempts →
  let '(evs, returned) := seed_loop XAdd files attempts calls (backoff_at k) in
  returned = true ∧ seeded files evs ∧
  sleeps evs = backoff_at <$> seq k (length (sleeps evs)) ∧
  length (sleeps evs) ≤ N - calls.
Proof.
  intros Hne Hok. revert calls k. induction attempts as [|attempts IH]; intros calls k Hlt; simpl; [lia|].
  pose proof (publish_files_spec XAdd files calls) as Hp.
  destruct (publish_files XAdd files calls) as [[failed calls'] evs].
  destruct Hp as (H1&H2&H3&H4&H5&H6). specialize (H2 Hne).
  destruct failed.
  - destruct (H6 eq_refl) as (n&args&err&Hn1&Hn2&Herr).
    assert (n < N). { destruct (decide (N ≤ n)) as [Hle|]; [|lia]. by rewrite Hok in Herr. }
    rewrite backoff_at_next. specialize (IH calls' (S k) ltac:(lia)).
    destruct (seed_loop XAdd files attempts calls' (backoff_at (S k))) as [evs' ret].
    destruct IH as (->&(earlier&->&Hear)&Hs&Hl).
    set (rest := earlier ++ ((λ f, SeedPublish f None) <$> files)) in *.
    assert (Hsl : sleeps (evs ++ SeedSleep (backoff_at k) :: rest) = backoff_at k :: sleeps rest).
    { unfold sleeps in *. rewrite omap_app, H3. done. }
    split_and!; [done| | |].
    + exists (evs ++ SeedSleep (backoff_at k) :: earlier). split; [by rewrite <-app_assoc|].
      intros f. rewrite omap_app. simpl. intros [?|?]%elem_of_app; auto.
    + rewrite Hsl. csimpl. by f_equal.
    + rewrite Hsl. simpl. lia.
  - specialize (H5 eq_refl). subst evs. split_and!; [done| | |].
    + exists []. split; [done|]. set_solver.
    + by rewrite H3.
    + rewrite H3. simpl. lia.
Qed.

(** A run of the loop that returned ended with a complete pass. *)
Lemma seed_loop_seeded XAdd files attempts calls b evs :
  seed_loop XAdd files attempts calls b = (evs, true) → seeded files evs.
Proof.
  revert calls b evs. induction attempts as [|attempts IH]; intros calls b evs H; simpl in H; [done|].
  pose proof (publish_files_spec XAdd files calls) as Hp.
  destruct (publish_files XAdd files calls) as [[failed calls'] evs1].
  destruct Hp as (_&_&_&H4&H5&_). destruct failed.
  - destruct (seed_loop XAdd files attempts calls' (next_backoff b)) as [evs2 ret] eqn:Hs.
    injection H as <- ->. destruct (IH _ _ _ Hs) as (earlier&->&Hear).
    exists (evs1 ++ SeedSleep b :: earlier). split; [by rewrite <-app_assoc|].
    intros f. rewrite omap_app. simpl. intros [?|?]%elem_of_app; auto.
  - injection H as <-. exists []. rewrite H5 by done. split; [done|]. set_solver.
Qed.

Lemma seedPolicies_seeded XAdd files attempts evs :
  seedPolicies XAdd files attempts = (evs, true) → seeded files evs.
Proof.
  unfold seedPolicies. destruct files as [|f files]; simpl length; simpl Nat.eqb; cbv iota.
  - intros [= <-]. exists []. split; [done|]. set_solver.
  - apply seed_loop_seeded.
Qed.

Lemma load_entry_spec ReadFile e f :
  load_entry ReadFile e = Some f ↔
  de_IsDir e = false ∧ HasSuffix (de_name e) ".json" = true ∧
  ReadFile (de_name e) = Ok (pf_json f) ∧ Unmarshal "" decode_meta (pf_json f) = Ok (pf_id f) ∧
  pf_id f ≠ "".
Proof.
  unfold load_entry. destruct (de_IsDir e); [naive_solver|].
  destruct (HasSuffix (de_name e) ".json"); [|naive_solver]. simpl.
  destruct (ReadFile (de_name e)) as [data|]; [|naive_solver].
  destruct (Unmarshal "" decode_meta data) as [id|err] eqn:Hm.
  - destruct (String.eqb_spec id "") as [->|Hid].
    + split; [done|]. intros (_&_&[= ->]&Hm'&Hne). congruence.
    + split; [intros [= <-]; simpl; naive_solver|].
      intros (_&_&[= ->]&Hm'&_). destruct f as [i j]; simpl in *. congruence.
  - split; [done|]. intros (_&_&[= ->]&Hm'&_). congruence.
Qed.

(** Files with different IDs are sorted in one way only. *)
Lemma id_sort_unique (sort sort' : IdSorter) l : NoDup (pf_id <$> l) → sort l = sort' l.
Proof.
  intros Hnd. apply (StronglySorted_unique_strong id_le); [|apply id_sort_sorted..|by rewrite !id_sort_perm].
  intros x y Hx Hy Hxy Hyx. rewrite id_sort_perm in Hx, Hy.
  apply list_elem_of_lookup in Hx as (i&Hi). apply list_elem_of_lookup in Hy as (j&Hj).
  assert (pf_id x = pf_id y) as Heq by (by apply String.leb_antisym).
  enough (i = j) by congruence.
  eapply NoDup_lookup; [exact Hnd| |]; rewrite list_lookup_fmap; [by rewrite Hi|by rewrite Hj, Heq].
Qed.

Lemma elem_of_loadPolicyFiles sort entries ReadFile f :
  f ∈ loadPolicyFiles sort (Ok entries) ReadFile ↔ ∃ e, e ∈ entries ∧ load_entry ReadFile e = Some f.
Proof.
  simpl. rewrite (id_sort_perm sort), list_elem_of_omap. done.
Qed.

(** ** The store after seeding *)

Section WithDecoder.
Context `{RE : RegexpLib} `{DEC : !PolicyDecoder}.

(** The policy ID a file's payload is stored under, if it is accepted. *)
Definition file_update (f : policyFile) : option update :=
  entry_update (xa_Values (publish_args StreamKey ActionUpsert (pf_id f) (pf_json f))).

Definition apply_file (m : PolicyMap) (f : policyFile) : PolicyMap :=
  match file_update f with Some u => apply_update m u | None => m end.

Lemma file_update_set f u : file_update f = Some u → ∃ p, u = SetPolicy p.
Proof.
  unfold file_update. rewrite publish_update. rewrite decide_False by done.
  repeat case_match; naive_solver.
Qed.

(** Writing a key first does not matter when it is written again later. *)
Lemma apply_files_absorb files m f :
  f ∈ files → foldl apply_file (apply_file m f) files = foldl apply_file m files.
Proof.
  intros Hin. unfold apply_file at 2.
  destruct (file_update f) as [u|] eqn:Hu; [|done].
  destruct (file_update_set _ _ Hu) as [p ->]. simpl. clear -Hin Hu.
  revert m. induction files as [|g files IH]; intros m; [by apply elem_of_nil in Hin|]. simpl.
  apply elem_of_cons in Hin as [->|Hin].
  - f_equal. unfold apply_file. rewrite Hu. simpl. by rewrite insert_insert_eq.
  - unfold apply_file at 2 4. destruct (file_update g) as [u|] eqn:Hg; [|by apply IH].
    destruct (file_update_set _ _ Hg) as [r ->]. simpl.
    destruct (decide (p_ID r = p_ID p)) as [Heq|Hne].
    + by rewrite Heq, insert_insert_eq.
    + rewrite insert_insert_ne by done. by apply IH.
Qed.

Lemma apply_files_prefix files earlier m :
  (∀ f, f ∈ earlier → f ∈ files) →
  foldl apply_file m (earlier ++ files) = foldl apply_file m files.
Proof.
  revert m. induction earlier as [|f earlier IH]; intros m Hin; simpl; [done|].
  rewrite IH by set_solver. apply apply_files_absorb. set_solver.
Qed.

(** What the publishing of a run left on the stream: every call that reported
    no error, and any of those that did (an error may come after the append). *)
Inductive appended : list seed_event → list policyFile → Prop :=
  | ap_nil : appended [] []
  | ap_sleep d evs fs : appended evs fs → appended (SeedSleep d :: evs) fs
  | ap_ok f evs fs : appended evs fs → appended (SeedPublish f None :: evs) (f :: fs)
  | ap_lost f err evs fs : appended evs fs → appended (SeedPublish f (Some err) :: evs) fs
  | ap_kept f err evs fs : appended evs fs → appended (SeedPublish f (Some err) :: evs) (f :: fs).

Lemma appended_all_ok files fs : appended ((λ f, SeedPublish f None) <$> files) fs → fs = files.
Proof.
  revert fs. induction files as [|f files IH]; intros fs H; csimpl in *; inversion H; subst; [done|].
  f_equal. by apply IH.
Qed.

Lemma appended_app evs1 evs2 fs :
  appended (evs1 ++ evs2) fs →
  ∃ fs1 fs2, fs = fs1 ++ fs2 ∧ appended evs2 fs2 ∧ ∀ f, f ∈ fs1 → f ∈ omap event_file evs1.
Proof.
  revert fs. induction evs1 as [|ev evs1 IH]; intros fs H.
  { exists [], fs. split_and!; [done|done|set_solver]. }
  simpl in H. inversion H; subst;
    match goal with Ha : appended (evs1 ++ evs2) _ |- _ => destruct (IH _ Ha) as (fs1&fs2&->&?&Hin) end.
  - exists fs1, fs2. split_and!; [done|done|]. simpl. done.
  - exists (f :: fs1), fs2. split_and!; [done|done|]. simpl. set_solver.
  - exists fs1, fs2. split_and!; [done|done|]. simpl. set_solver.
  - exists (f :: fs1), fs2. split_and!; [done|done|]. simpl. set_solver.
Qed.

(** The stream entries of a list of published files, under any IDs. *)
Definition file_entries (ids : list string) (fs : list policyFile) : list XMessage :=
  zip_with (λ id f, mkXMessage id (xa_Values (publish_args StreamKey ActionUpsert (pf_id f) (pf_json f)))) ids fs.

Lemma stream_policies_files ids fs :
  length ids = length fs → stream_policies (file_entries ids fs) = foldl apply_file ∅ fs.
Proof.
  unfold stream_policies. generalize (∅ : PolicyMap). intros m Hlen. revert m ids Hlen.
  induction fs as [|f fs IH]; intros m [|id ids] Hlen; simplify_eq/=; [done|].
  unfold apply_file at 2, file_update. destruct (entry_update _); simpl; by rewrite IH.
Qed.

(** Publishing the files over [m]: their policies win. *)
Lemma apply_files_over files m : foldl apply_file m files = foldl apply_file ∅ files ∪ m.
Proof.
  induction files as [|f files IH] using rev_ind; [simpl; by rewrite (left_id_L ∅ (∪))|].
  rewrite !foldl_app. simpl. rewrite IH. unfold apply_file at 1 3.
  destruct (file_update f) as [u|] eqn:Hu; [|done]. destruct (file_update_set _ _ Hu) as [p ->].
  apply insert_union_l.
Qed.

Lemma apply_files_named files f u :
  f ∈ files → file_update f = Some u → is_Some (foldl apply_file ∅ files !! update_id u).
Proof.
  intros Hin Hu. rewrite <-(apply_files_absorb files ∅ f Hin), apply_files_over, lookup_union_is_Some.
  right. unfold apply_file. rewrite Hu. destruct (file_update_set _ _ Hu) as [p ->]. simpl.
  rewrite lookup_insert_eq. by eexists.
Qed.

(** Updates that name different policies do not interfere. *)
Lemma lookup_apply_update m m' u id :
  m !! id = m' !! id → apply_update m u !! id = apply_update m' u !! id.
Proof. intros H. destruct u as [p|i]; simpl; [rewrite !lookup_insert|rewrite !lookup_delete]; by case_decide. Qed.

Lemma lookup_apply_update_ne m u id : update_id u ≠ id → apply_update m u !! id = m !! id.
Proof. destruct u as [p|i]; simpl; intros H; [by rewrite lookup_insert_ne|by rewrite lookup_delete_ne]. Qed.

Lemma interleaved_updates (named : string → Prop) us1 us2 us m m1 m2 :
  interleaving us1 us2 us →
  (∀ u, u ∈ us1 → named (update_id u)) → (∀ u, u ∈ us2 → ¬ named (update_id u)) →
  (∀ id, named id → m !! id = m1 !! id) → (∀ id, ¬ named id → m !! id = m2 !! id) →
  ∀ id, (named id → foldl apply_update m us !! id = foldl apply_update m1 us1 !! id) ∧
        (¬ named id → foldl apply_update m us !! id = foldl apply_update m2 us2 !! id).
Proof.
  intros H. revert m m1 m2. induction H as [|u us1 us2 us _ IH|u us1 us2 us _ IH]; intros m m1 m2 Hu1 Hu2 Hm1 Hm2 id.
  - auto.
  - simpl. apply IH; [set_solver|done| |]; intros i Hi.
    + by apply lookup_apply_update, Hm1.
    + rewrite lookup_apply_update_ne by (intros <-; apply Hi, Hu1; by left). by apply Hm2.
  - simpl. apply IH; [done|set_solver| |]; intros i Hi.
    + rewrite lookup_apply_update_ne by (intros <-; apply (Hu2 u); [by left|done]). by apply Hm1.
    + by apply lookup_apply_update, Hm2.
Qed.

(** The entries of published files as updates. *)
Lemma file_entries_updates ids fs :
  length ids = length fs → omap (λ e, entry_update (xm_Values e)) (file_entries ids fs) = omap file_update fs.
Proof.
  revert ids. induction fs as [|f fs IH]; intros [|id ids] Hl; simplify_eq/=; [done|].
  csimpl. by rewrite IH.
Qed.

Lemma apply_files_updates m fs : foldl apply_update m (omap file_update fs) = foldl apply_file m fs.
Proof.
  revert m. induction fs as [|f fs IH]; intros m; [done|]. csimpl. unfold apply_file at 2.
  destruct (file_update f); apply IH.
Qed.

(** What a run that ended with a complete pass appended, over anything. *)
Lemma seeded_files files evs fs m :
  seeded files evs → appended evs fs →
  (∀ f, f ∈ fs → f ∈ files) ∧ foldl apply_file m fs = foldl apply_file m files.
Proof.
  intros (earlier&->&Hear) Happ. apply appended_app in Happ as (fs1&fs2&->&Happ&Hin).
  apply appended_all_ok in Happ as ->. split; [set_solver|]. apply apply_files_prefix. auto.
Qed.

(** The stream after such a run: what it held before, and what others appended
    meanwhile or later, with the policies of the files on top. *)
Lemma seeded_stream files evs fs ids before others log :
  seeded files evs → appended evs fs → length ids = length fs →
  interleaving (file_entries ids fs) others log →
  (∀ e u, e ∈ others → entry_update (xm_Values e) = Some u → foldl apply_file ∅ files !! update_id u = None) →
  stream_policies (before ++ log) = foldl apply_file ∅ files ∪ stream_policies (before ++ others).
Proof.
  intros Hs Happ Hl Hil Hothers. unfold stream_policies. rewrite !omap_app, !foldl_app.
  set (m := foldl apply_update ∅ (omap _ before)).
  destruct (seeded_files files evs fs m Hs Happ) as [Hin Hfs].
  apply (interleaving_omap (λ e, entry_update (xm_Values e))) in Hil. rewrite (file_entries_updates _ _ Hl) in Hil.
  set (named := λ id, is_Some (foldl apply_file ∅ files !! id)).
  apply map_eq. intros id.
  destruct (interleaved_updates named _ _ _ m m m Hil) with (id := id) as [H1 H2]; [| |done|done|].
  - intros u (f&Hf&Hu)%list_elem_of_omap. eapply apply_files_named; [by apply Hin|exact Hu].
  - intros u (e&He&Hu)%list_elem_of_omap Hn. unfold named in Hn. rewrite (Hothers _ _ He Hu) in Hn. by destruct Hn.
  - destruct (foldl apply_file ∅ files !! id) as [p|] eqn:Hid.
    + rewrite H1, apply_files_updates, Hfs, apply_files_over by (unfold named; by eexists).
      by rewrite !(lookup_union_Some_l _ _ _ _ Hid).
    + rewrite H2 by (unfold named; rewrite Hid; by intros []). by rewrite lookup_union_r.
Qed.

(** ** Properties *)

(** Seeding is idempotent under retries.  However many passes failed and
    whichever of the failed calls reached the stream, a run that ended with a
    complete pass leaves the stream denoting the same policies as publishing
    every file once, in order. *)
Theorem seeding_converges files evs fs ids ids' :
  seeded files evs → appended evs fs → length ids = length fs → length ids' = length files →
  stream_policies (file_entries ids fs) = stream_policies (file_entries ids' files).
Proof.
  intros Hs Happ Hl Hl'. rewrite !stream_policies_files by done. by eapply seeded_files.
Qed.

End WithDecoder.

(** C35: seeding terminates once Redis answers.  If the client fails at most at
    its first [N] calls, the retry loop returns after at most [N] pauses, the
    [k]-th of which is 500 ms doubled [k] times and capped at 5 s, and its last
    pass publishes every file in order.  With no files nothing is published. *)
Theorem seedPolicies_terminates XAdd files N attempts :
  (∀ n args, N ≤ n → XAdd n args = None) → N < attempts →
  let '(evs, returned) := seedPolicies XAdd files attempts in
  returned = true ∧ seeded files evs ∧ length (sleeps evs) ≤ N ∧
  sleeps evs = backoff_at <$> seq 0 (length (sleeps evs)) ∧
  (files = [] → evs = []).
Proof.
  intros Hok Hlt. unfold seedPolicies. destruct files as [|f files]; simpl length; cbn [Nat.eqb].
  { split_and!; try done; [|simpl; lia]. exists []. split; [done|set_solver]. }
  rewrite <-backoff_at_0.
  pose proof (seed_loop_returns XAdd (f :: files) N attempts 0 0 ltac:(done) Hok ltac:(lia)) as H.
  destruct (seed_loop _ _ _ _ _) as [evs ret]. destruct H as (?&?&?&?).
  split_and!; try done. lia.
Qed.

(** The files published are those of the directory whose name ends in
    ".json", that are not directories, can be read, and decode to an object
    with a non-empty ID, each with that ID and its whole content, ordered by
    ID; an unreadable directory yields none. *)
Theorem loadPolicyFiles_correct (sort : IdSorter) entries ReadFile f err :
  (f ∈ loadPolicyFiles sort (Ok entries) ReadFile ↔
   ∃ e, e ∈ entries ∧ de_IsDir e = false ∧ HasSuffix (de_name e) ".json" = true ∧
     ReadFile (de_name e) = Ok (pf_json f) ∧
     Unmarshal "" decode_meta (pf_json f) = Ok (pf_id f) ∧ pf_id f ≠ "") ∧
  StronglySorted id_le (loadPolicyFiles sort (Ok entries) ReadFile) ∧
  loadPolicyFiles sort (Err err) ReadFile = [].
Proof.
  split; [|split; [apply id_sort_sorted|done]].
  rewrite elem_of_loadPolicyFiles. setoid_rewrite load_entry_spec. naive_solver.
Qed.

(** ** Witnesses *)

Definition seed_dir : result (list dir_entry) :=
  Ok [mkDirEntry "b.json" false; mkDirEntry "a.json" false; mkDirEntry "readme.md" false;
      mkDirEntry "old.json" true; mkDirEntry "empty.json" false].

Definition seed_file (name : string) : result string :=
  if String.eqb name "b.json" then Ok mock_policy_json
  else if String.eqb name "a.json" then Ok deny_json
  else Ok "{}".

Definition seed_files : list policyFile := loadPolicyFiles merge_sorter seed_dir seed_file.

Example seed_files_sorted : pf_id <$> seed_files = ["deny-1"; "pol-mock-001"].
Proof. vm_compute. reflexivity. Qed.

(** Redis refuses the first three calls. *)
Definition late_redis (n : nat) (args : XAddArgs) : option string :=
  if n <? 3 then Some "connection refused" else None.

Lemma late_redis_ok n args : 3 ≤ n → late_redis n args = None.
Proof. intros Hn. unfold late_redis. by destruct (Nat.ltb_spec n 3); [lia|]. Qed.

Lemma seedPolicies_terminates_witness :
  let '(evs, returned) := seedPolicies late_redis seed_files 4 in
  returned = true ∧ sleeps evs = [500000000; 1000000000; 2000000000]%Z ∧ length (sleeps evs) ≤ 3.
Proof.
  pose proof (seedPolicies_terminates late_redis seed_files 3 4 late_redis_ok ltac:(lia)) as H.
  assert (sleeps (seedPolicies late_redis seed_files 4).1 = [500000000; 1000000000; 2000000000]%Z)
    as Hs by (vm_compute; reflexivity).
  destruct (seedPolicies late_redis seed_files 4) as [evs ret].
  split; [exact (proj1 H)|split; [exact Hs|exact (proj1 (proj2 (proj2 H)))]].
Defined.

(** One failed call reached the stream anyway. *)
Lemma seeding_converges_witness :
  ∃ f g, seed_files = [f; g] ∧
  stream_policies (file_entries ["1-0"; "2-0"; "3-0"; "4-0"] [f; g; f; g]) =
  stream_policies (file_entries ["1-0"; "2-0"] [f; g]).
Proof.
  eexists _, _. split; [vm_compute; reflexivity|].
  match goal with |- context [file_entries _ [?f; ?g; ?f; ?g]] =>
    apply (seeding_converges [f; g]
      [SeedPublish f None; SeedPublish g (Some "timeout"); SeedSleep 500000000;
       SeedPublish f None; SeedPublish g None]) end; [..|reflexivity|reflexivity].
  - eexists [_; _; _]. split; [reflexivity|].
    intros x Hx. simpl in Hx. set_unfold in Hx. set_unfold. tauto.
  - apply ap_ok, ap_kept, ap_sleep, ap_ok, ap_ok, ap_nil.
Defined.
