(* ===== verification/GoEnc.v ===== *)
(** The encodings of the standard library the enforcement points use: base64
    decoding with the URL alphabet, [net.SplitHostPort], and [json.Marshal] and
    an indenting [json.Encoder] on a flat map of strings, booleans and integers. *)
From S2P Require Import Prelude GoText GoJson.
Open Scope string_scope.
Open Scope nat_scope.
Open Scope list_scope.

(** ** encoding/base64, URL alphabet, without and with padding *)

Definition b64_val (c : ascii) : option Z :=
  if in_range 65 90 c then Some (byte_val c - 65)%Z
  else if in_range 97 122 c then Some (byte_val c - 71)%Z
  else if is_digit c then Some (byte_val c + 4)%Z
  else if Ascii.eqb c "-" then Some 62%Z
  else if Ascii.eqb c "_" then Some 63%Z
  else None.

(** The decoder skips line breaks wherever they stand. *)
Fixpoint skip_newlines (s : string) : string :=
  match s with
  | EmptyString => EmptyString
  | String c s =>
    if Ascii.eqb c (byte_of 10) || Ascii.eqb c (byte_of 13) then skip_newlines s
    else String c (skip_newlines s)
  end.

Definition quantum1 (x y : Z) : string := String (byte_of (x * 4 + y / 16)) "".
Definition quantum2 (x y z : Z) : string :=
  String (byte_of (x * 4 + y / 16)) (String (byte_of ((y mod 16) * 16 + z / 4)) "").
Definition quantum3 (x y z w : Z) : string :=
  String (byte_of (x * 4 + y / 16)) (String (byte_of ((y mod 16) * 16 + z / 4))
    (String (byte_of ((z mod 4) * 64 + w)) "")).

Fixpoint b64_quanta (padded : bool) (s : string) : option string :=
  match s with
  | EmptyString => Some ""
  | String a (String b (String c (String d rest))) =>
    x ← b64_val a; y ← b64_val b;
    if padded && Ascii.eqb c "=" then
      if Ascii.eqb d "=" && String.eqb rest "" then Some (quantum1 x y) else None
    else
      z ← b64_val c;
      if padded && Ascii.eqb d "=" then
        if String.eqb rest "" then Some (quantum2 x y z) else None
      else
        w ← b64_val d; t ← b64_quanta padded rest;
        Some (quantum3 x y z w +:+ t)%string
  | String a (String b (String c EmptyString)) =>
    if padded then None
    else x ← b64_val a; y ← b64_val b; z ← b64_val c; Some (quantum2 x y z)
  | String a (String b EmptyString) =>
    if padded then None else x ← b64_val a; y ← b64_val b; Some (quantum1 x y)
  | String _ EmptyString => None
  end.

(** [RawURLEncoding.DecodeString] and [URLEncoding.DecodeString]. *)
Definition RawURLEncoding_DecodeString (s : string) : result string :=
  match b64_quanta false (skip_newlines s) with
  | Some d => Ok d
  | None => Err "illegal base64 data"
  end.

Definition URLEncoding_DecodeString (s : string) : result string :=
  match b64_quanta true (skip_newlines s) with
  | Some d => Ok d
  | None => Err "illegal base64 data"
  end.

Example b64_examples :
  RawURLEncoding_DecodeString "eyJzdWIiOiJhIn0" = Ok (String "{" (String dquote "sub") +:+ String dquote (String ":" (String dquote (String "a" (String dquote "}")))))%string ∧
  URLEncoding_DecodeString "YQ==" = Ok "a" ∧ RawURLEncoding_DecodeString "YQ==" = Err "illegal base64 data" ∧
  URLEncoding_DecodeString "YQ" = Err "illegal base64 data" ∧ RawURLEncoding_DecodeString "Y" = Err "illegal base64 data".
Proof. split_and!; vm_compute; reflexivity. Qed.

(** ** net.SplitHostPort *)

Definition SplitHostPort (hostport : string) : result (string * string) :=
  match CutLast hostport ":" with
  | None => Err "missing port in address"
  | Some (before, port) =>
    match hostport with
    | String "[" inside =>
      match Cut inside "]" with
      | None => Err "missing ']' in address"
      | Some (host, behind) =>
        (* [behind] is what follows the first closing bracket: it must be the
           last colon and the port *)
        if String.eqb behind "" then Err "missing port in address"
        else if String.eqb behind (String ":" port) then
          if has_byte "[" inside then Err "unexpected '[' in address"
          else if has_byte "]" behind then Err "unexpected ']' in address"
          else Ok (host, port)
        else match behind with
        | String ":" _ => Err "too many colons in address"
        | _ => Err "missing port in address"
        end
      end
    | _ =>
      if has_byte ":" before then Err "too many colons in address"
      else if has_byte "[" hostport then Err "unexpected '[' in address"
      else if has_byte "]" hostport then Err "unexpected ']' in address"
      else Ok (before, port)
    end
  end.

Example SplitHostPort_examples :
  SplitHostPort "10.0.0.1:8080" = Ok ("10.0.0.1", "8080") ∧
  SplitHostPort "[::1]:80" = Ok ("::1", "80") ∧
  SplitHostPort "[fe80::1%eth0]:80" = Ok ("fe80::1%eth0", "80") ∧
  SplitHostPort "::1:80" = Err "too many colons in address" ∧
  SplitHostPort "10.0.0.1" = Err "missing port in address" ∧
  SplitHostPort "[::1]" = Err "missing port in address".
Proof. split_and!; vm_compute; reflexivity. Qed.

(** ** json.Marshal of a flat map *)

Inductive body_value :=
  | BBool (b : bool)
  | BString (s : string)
  | BInt (z : Z).

(** The escape of an ASCII byte; quotes, backslashes, control characters and
    the three HTML characters are escaped. *)
Definition escape_ascii (c : ascii) : string :=
  if Ascii.eqb c dquote || Ascii.eqb c "\" then String "\" (String c "")
  else if Ascii.eqb c (byte_of 8) then "\b"
  else if Ascii.eqb c (byte_of 12) then "\f"
  else if Ascii.eqb c (byte_of 10) then "\n"
  else if Ascii.eqb c (byte_of 13) then "\r"
  else if Ascii.eqb c (byte_of 9) then "\t"
  else if (byte_val c <? 32)%Z || Ascii.eqb c "<" || Ascii.eqb c ">" || Ascii.eqb c "&" then
    ("\u00" +:+ String (hex_char (byte_val c / 16)) (String (hex_char (byte_val c mod 16)) ""))%string
  else String c "".

(** Whether the bytes at the head are U+2028 or U+2029, which are escaped. *)
Definition line_separator (s : string) : option string :=
  match s with
  | String a (String b (String c _)) =>
    if in_range 226 226 a && in_range 128 128 b then
      if in_range 168 168 c then Some "\u2028"
      else if in_range 169 169 c then Some "\u2029" else None
    else None
  | _ => None
  end.

Fixpoint escape (skip copy : nat) (s : string) : string :=
  match s with
  | EmptyString => EmptyString
  | String c s' =>
    match skip, copy with
    | S k, _ => escape k 0 s'
    | O, S k => String c (escape 0 k s')
    | O, O =>
      if (byte_val c <? 128)%Z then (escape_ascii c +:+ escape 0 0 s')%string
      else match line_separator s with
      | Some e => (e +:+ escape 2 0 s')%string
      | None =>
        match utf8_len s with
        | O => ("\ufffd" +:+ escape 0 0 s')%string
        | S k => String c (escape 0 k s')
        end
      end
    end
  end.

Definition marshal_string (s : string) : string :=
  String dquote (escape 0 0 s +:+ String dquote "")%string.

Definition marshal_value (v : body_value) : string :=
  match v with
  | BBool true => "true"
  | BBool false => "false"
  | BString s => marshal_string s
  | BInt z => pretty z
  end.

Fixpoint marshal_fields (fields : list (string * body_value)) : string :=
  match fields with
  | [] => ""
  | [(k, v)] => (marshal_string k +:+ String ":" (marshal_value v))%string
  | (k, v) :: rest =>
    (marshal_string k +:+ String ":" (marshal_value v) +:+ String "," (marshal_fields rest))%string
  end.

(** [json.Marshal] of a map[string]any whose entries, listed in key order, are
    [fields]. *)
Definition Marshal (fields : list (string * body_value)) : string :=
  String "{" (marshal_fields fields +:+ "}")%string.

(** ** json.Encoder with [SetIndent("", "  ")] *)

Definition newline : ascii := byte_of 10.

Definition indent_field (kv : string * body_value) : string :=
  String newline ("  " +:+ (marshal_string kv.1 +:+ (": " +:+ marshal_value kv.2)))%string.

(** [Encode] of a map[string]any whose entries, listed in key order, are
    [fields]; it ends with a line break. *)
Definition Encode (fields : list (string * body_value)) : string :=
  match fields with
  | [] => String "{" (String "}" (String newline ""))
  | _ => String "{" (Join (indent_field <$> fields) "," +:+ String newline (String "}" (String newline "")))%string
  end.

(** The entries of a map in the order the encoders write them: by key, byte by
    byte. *)
Definition key_le (x y : string * body_value) : Prop := String.leb x.1 y.1 = true.

#[export] Instance key_le_dec : RelDecision key_le.
Proof. intros x y. unfold key_le. apply _. Defined.

Definition map_entries (body : list (string * body_value)) : list (string * body_value) :=
  merge_sort key_le body.

Example Encode_example :
  Encode (map_entries [("reason", BString "a<b"); ("allowed", BBool false); ("n", BInt 7)]) =
  map_bytes (λ c, if Ascii.eqb c "'" then dquote else if Ascii.eqb c "/" then newline else c)
    "{/  'allowed': false,/  'n': 7,/  'reason': 'a\u003cb'/}/".
Proof. vm_compute. reflexivity. Qed.
