(* ===== verification/JsonText.v ===== *)
(** JSON text and back: what [json.Marshal] writes for a string is read back by
    the scanner as the same string (invalid UTF-8 replaced), and the same for
    whole values.  The printer is the reference inverse of the scanner. *)
From S2P Require Import Prelude GoText GoJson GoEnc.
Open Scope string_scope.
Open Scope nat_scope.
Open Scope list_scope.

(** ** Specification *)

(** The string with every byte of invalid UTF-8 replaced by U+FFFD. *)
Fixpoint coerce_utf8 (copy : nat) (s : string) : string :=
  match s with
  | EmptyString => EmptyString
  | String c s' =>
    match copy with
    | S k => String c (coerce_utf8 k s')
    | O =>
      match utf8_len s with
      | O => (EncodeRune ReplacementChar +:+ coerce_utf8 0 s')%string
      | S k => String c (coerce_utf8 k s')
      end
    end
  end.

Definition valid_utf8 (s : string) : Prop := coerce_utf8 0 s = s.

(** The compact text of a value; a number is its text. *)
Fixpoint print_json (j : json) : string :=
  match j with
  | JNull => "null"
  | JBool true => "true"
  | JBool false => "false"
  | JNumber text => text
  | JString s => marshal_string s
  | JArray items => String "[" (Join (List.map print_json items) "," +:+ "]")%string
  | JObject fields =>
    String "{" (Join (List.map (λ kv,
      (marshal_string kv.1 +:+ String ":" (print_json kv.2))%string) fields) "," +:+ "}")%string
  end.

(** The value with its strings and keys coerced to valid UTF-8. *)
Fixpoint coerce_json (j : json) : json :=
  match j with
  | JString s => JString (coerce_utf8 0 s)
  | JArray items => JArray (List.map coerce_json items)
  | JObject fields => JObject (List.map (λ kv, (coerce_utf8 0 kv.1, coerce_json kv.2)) fields)
  | _ => j
  end.

Fixpoint json_depth (j : json) : nat :=
  match j with
  | JArray items => S (max_list (List.map json_depth items))
  | JObject fields => S (max_list (List.map (λ kv, json_depth kv.2) fields))
  | _ => 0
  end.

(** Running the scanner over a piece of the input. *)
Fixpoint scan_bytes (s : string) (cfg : config) : option config :=
  match s with
  | EmptyString => Some cfg
  | String c s => cfg' ← scan_step c cfg; scan_bytes s cfg'
  end.

(** ** Lemmas: strings *)

Lemma scan_bytes_app s t cfg : scan_bytes (s +:+ t)%string cfg = scan_bytes s cfg ≫= scan_bytes t.
Proof.
  revert cfg. induction s as [|c s IH]; intros cfg; [done|].
  rewrite string_app_cons. simpl. by destruct (scan_step c cfg) as [cfg'|]; simpl.
Qed.

Lemma scan_app s t cfg : scan (s +:+ t)%string cfg = scan_bytes s cfg ≫= scan t.
Proof.
  revert cfg. induction s as [|c s IH]; intros cfg; [done|].
  rewrite string_app_cons. simpl. by destruct (scan_step c cfg) as [cfg'|]; simpl.
Qed.

Lemma string_app_nil_r (s : string) : (s +:+ "")%string = s.
Proof. induction s as [|c s IH]; [done|]. by rewrite string_app_cons, IH. Qed.

Lemma length_string_app (s t : string) : String.length (s +:+ t)%string = String.length s + String.length t.
Proof. induction s as [|c s IH]; [done|]. rewrite string_app_cons. simpl. by rewrite IH. Qed.

(** A multi-byte UTF-8 sequence: recognised whatever follows it. *)
Definition multi (m : string) : Prop :=
  (∀ c, has_byte c m = true → (128 ≤ byte_val c)%Z) ∧ 2 ≤ String.length m ∧
  ∀ t, utf8_len (m +:+ t)%string = String.length m.

(** How a source string, its escaped form and its coerced form correspond. *)
Inductive encodes : string → string → string → Prop :=
  | enc_nil : encodes "" "" ""
  | enc_ascii c s e v :
    (byte_val c < 128)%Z → encodes s e v →
    encodes (String c s) (escape_ascii c +:+ e)%string (String c v)
  | enc_sep m esc r e v :
    multi m → line_separator m = Some esc → encodes r e v →
    encodes (m +:+ r)%string (esc +:+ e)%string (m +:+ v)%string
  | enc_bad c s e v :
    encodes s e v →
    encodes (String c s) ("\ufffd" +:+ e)%string (EncodeRune ReplacementChar +:+ v)%string
  | enc_multi m r e v :
    multi m → encodes r e v → encodes (m +:+ r)%string (m +:+ e)%string (m +:+ v)%string.

Lemma in_range_lo lo hi c : in_range lo hi c = true → (lo ≤ byte_val c)%Z.
Proof. unfold in_range. intros H. bool_simp. lia. Qed.

Lemma multi_2 c c1 :
  in_range 194 223 c = true → cont_byte c1 = true → multi (String c (String c1 "")).
Proof.
  intros H0 H1. pose proof (in_range_lo _ _ _ H0). pose proof (in_range_lo _ _ _ H1).
  split_and!; [|simpl; lia|].
  - intros d. simpl. rewrite !orb_true_iff, !Ascii.eqb_eq. intros [->|[->|?]]; [lia|lia|done].
  - intros t. simpl. rewrite H0, H1. by destruct (Z.ltb_spec (byte_val c) 128); [lia|].
Qed.

(** The second-byte test of a three- and of a four-byte sequence. *)
Definition ok3 (c c1 : ascii) : bool :=
  if in_range 224 224 c then in_range 160 191 c1
  else if in_range 237 237 c then in_range 128 159 c1
  else in_range 225 239 c && cont_byte c1.
Definition ok4 (c c1 : ascii) : bool :=
  if in_range 240 240 c then in_range 144 191 c1
  else if in_range 244 244 c then in_range 128 143 c1
  else in_range 241 243 c && cont_byte c1.

Lemma ok3_lo c c1 : ok3 c c1 = true → (128 ≤ byte_val c)%Z ∧ (128 ≤ byte_val c1)%Z.
Proof.
  unfold ok3. destruct (in_range 224 224 c) eqn:H1; [|destruct (in_range 237 237 c) eqn:H2];
    intros H; bool_simp; repeat match goal with Hr : _ = true |- _ => apply in_range_lo in Hr end; lia.
Qed.

Lemma ok4_lo c c1 : ok4 c c1 = true → (128 ≤ byte_val c)%Z ∧ (128 ≤ byte_val c1)%Z.
Proof.
  unfold ok4. destruct (in_range 240 240 c) eqn:H1; [|destruct (in_range 244 244 c) eqn:H2];
    intros H; bool_simp; repeat match goal with Hr : _ = true |- _ => apply in_range_lo in Hr end; lia.
Qed.

Lemma multi_3 c c1 c2 :
  in_range 194 223 c = false → ok3 c c1 = true → cont_byte c2 = true →
  multi (String c (String c1 (String c2 ""))).
Proof.
  intros H0 H1 H2. pose proof (ok3_lo _ _ H1) as [??]. pose proof (in_range_lo _ _ _ H2).
  split_and!; [|simpl; lia|].
  - intros d. simpl. rewrite !orb_true_iff, !Ascii.eqb_eq. intros [->|[->|[->|?]]]; [lia..|done].
  - intros t. simpl. fold (ok3 c c1). rewrite H0, H1, H2.
    by destruct (Z.ltb_spec (byte_val c) 128); [lia|].
Qed.

Lemma multi_4 c c1 c2 c3 :
  in_range 194 223 c = false → ok3 c c1 = false → ok4 c c1 = true →
  cont_byte c2 = true → cont_byte c3 = true →
  multi (String c (String c1 (String c2 (String c3 "")))).
Proof.
  intros H0 H1 H2 H3 H4. pose proof (ok4_lo _ _ H2) as [??].
  pose proof (in_range_lo _ _ _ H3). pose proof (in_range_lo _ _ _ H4).
  split_and!; [|simpl; lia|].
  - intros d. simpl. rewrite !orb_true_iff, !Ascii.eqb_eq. intros [->|[->|[->|[->|?]]]]; [lia..|done].
  - intros t. simpl. fold (ok3 c c1) (ok4 c c1). rewrite H0, H1, H2, H3, H4.
    by destruct (Z.ltb_spec (byte_val c) 128); [lia|].
Qed.

(** The shape of a string that starts with a valid non-ASCII sequence. *)
Lemma utf8_len_multi c s k :
  (128 ≤ byte_val c)%Z → utf8_len (String c s) = S k →
  ∃ m r, String c s = (m +:+ r)%string ∧ String.length m = S k ∧ multi m.
Proof.
  intros Hc Hlen. unfold utf8_len in Hlen.
  destruct (Z.ltb_spec (byte_val c) 128); [lia|].
  destruct s as [|c1 [|c2 s3]]; [done|..].
  - destruct (in_range 194 223 c) eqn:H2; [|done]. destruct (cont_byte c1) eqn:H1; [|done].
    simplify_eq. exists (String c (String c1 "")), "". split_and!; [done|done|by apply multi_2].
  - destruct (in_range 194 223 c) eqn:H2.
    { destruct (cont_byte c1) eqn:H1; [|done]. simplify_eq.
      exists (String c (String c1 "")), (String c2 s3). split_and!; [done|done|by apply multi_2]. }
    fold (ok3 c c1) (ok4 c c1) in Hlen. cbv zeta in Hlen.
    destruct (ok3 c c1) eqn:H3.
    { destruct (cont_byte c2) eqn:H4; [|done]. simplify_eq.
      exists (String c (String c1 (String c2 ""))), s3. split_and!; [done|done|by apply multi_3]. }
    destruct s3 as [|c3 s4]; [done|]. destruct (ok4 c c1) eqn:H4; [|done].
    destruct (cont_byte c2) eqn:H5, (cont_byte c3) eqn:H6; try done. simplify_eq.
    exists (String c (String c1 (String c2 (String c3 "")))), s4.
    split_and!; [done|done|by apply multi_4].
Qed.

(** Copying runs. *)
Lemma escape_copy m t : escape 0 (String.length m) (m +:+ t)%string = (m +:+ escape 0 0 t)%string.
Proof. induction m as [|c m IH]; [done|]. rewrite !string_app_cons. simpl. by rewrite IH. Qed.

Lemma escape_skip m t : escape (String.length m) 0 (m +:+ t)%string = escape 0 0 t.
Proof. induction m as [|c m IH]; [done|]. rewrite string_app_cons. simpl. by rewrite IH. Qed.

Lemma unquote_copy m t : unquote 0 (String.length m) (m +:+ t)%string = (m +:+ unquote 0 0 t)%string.
Proof. induction m as [|c m IH]; [done|]. rewrite !string_app_cons. simpl. by rewrite IH. Qed.

Lemma coerce_copy m t : coerce_utf8 (String.length m) (m +:+ t)%string = (m +:+ coerce_utf8 0 t)%string.
Proof. induction m as [|c m IH]; [done|]. rewrite !string_app_cons. simpl. by rewrite IH. Qed.

Lemma multi_cons m : multi m → ∃ c m', m = String c m' ∧ (128 ≤ byte_val c)%Z ∧
  ∀ t, utf8_len (String c (m' +:+ t)) = S (String.length m').
Proof.
  intros (Hb&Hl&Hu). destruct m as [|c m']; [simpl in Hl; lia|]. exists c, m'.
  split_and!; [done| |intros t; exact (Hu t)]. apply Hb. simpl. by rewrite Ascii.eqb_refl.
Qed.

(** A line separator is a three-byte sequence. *)
Lemma line_separator_shape s esc :
  line_separator s = Some esc →
  ∃ a b c r, s = (String a (String b (String c "")) +:+ r)%string ∧
    line_separator (String a (String b (String c ""))) = Some esc ∧
    multi (String a (String b (String c ""))).
Proof.
  destruct s as [|a [|b [|c r]]]; try done. intros H. exists a, b, c, r.
  split_and!; [done|exact H|]. simpl in H.
  destruct (in_range 226 226 a) eqn:Ha; [|done]. destruct (in_range 128 128 b) eqn:Hb; [|done].
  simpl in H. unfold in_range in *. bool_simp.
  assert (Hc : (128 ≤ byte_val c ≤ 191)%Z).
  { destruct ((168 <=? byte_val c)%Z && (byte_val c <=? 168)%Z) eqn:E8;
      [|destruct ((169 <=? byte_val c)%Z && (byte_val c <=? 169)%Z) eqn:E9; [|done]]; bool_simp; lia. }
  apply multi_3; unfold ok3, cont_byte, in_range.
  - apply andb_false_iff. right. apply Z.leb_gt. lia.
  - destruct (Z.leb_spec 224 (byte_val a)), (Z.leb_spec (byte_val a) 224),
      (Z.leb_spec 237 (byte_val a)), (Z.leb_spec (byte_val a) 237); simpl; try lia;
      rewrite ?andb_true_iff, ?Z.leb_le; lia.
  - rewrite andb_true_iff, !Z.leb_le. lia.
Qed.

Lemma escape_cons c s :
  escape 0 0 (String c s) =
  if (byte_val c <? 128)%Z then (escape_ascii c +:+ escape 0 0 s)%string
  else match line_separator (String c s) with
  | Some e => (e +:+ escape 2 0 s)%string
  | None =>
    match utf8_len (String c s) with
    | O => ("\ufffd" +:+ escape 0 0 s)%string
    | S k => String c (escape 0 k s)
    end
  end.
Proof. reflexivity. Qed.

Lemma coerce_cons c s :
  coerce_utf8 0 (String c s) =
  match utf8_len (String c s) with
  | O => (EncodeRune ReplacementChar +:+ coerce_utf8 0 s)%string
  | S k => String c (coerce_utf8 k s)
  end.
Proof. reflexivity. Qed.

Lemma utf8_len_ascii c s : (byte_val c < 128)%Z → utf8_len (String c s) = 1.
Proof. intros H. unfold utf8_len. by destruct (Z.ltb_spec (byte_val c) 128); [|lia]. Qed.

Lemma encodes_total s : encodes s (escape 0 0 s) (coerce_utf8 0 s).
Proof.
  remember (String.length s) as n eqn:Hn. revert s Hn.
  induction (lt_wf n) as [n _ IH]. intros s ->.
  destruct s as [|c s]; [constructor|]. simpl String.length in IH.
  rewrite escape_cons, coerce_cons.
  destruct (Z.ltb_spec (byte_val c) 128) as [Hc|Hc].
  { rewrite utf8_len_ascii by done. apply enc_ascii; [done|]. eapply IH; [|done]. lia. }
  destruct (line_separator (String c s)) as [esc|] eqn:Hsep.
  - destruct (line_separator_shape _ _ Hsep) as (a&b&d&r&Heq&Hsep'&Hm).
    destruct (multi_cons _ Hm) as (c'&m'&Hmm&_&Hlen). injection Hmm as <- <-.
    rewrite string_app_cons in Heq. injection Heq as -> ->.
    rewrite Hlen. rewrite (coerce_copy (String b (String d "")) r), <-string_app_cons.
    change 2 with (String.length (String b (String d ""))). rewrite escape_skip, <-(string_app_cons a).
    eapply enc_sep; [done|done|]. eapply IH; [|done].
    rewrite length_string_app. simpl. lia.
  - destruct (utf8_len (String c s)) as [|k] eqn:Hu.
    + apply enc_bad. eapply IH; [|done]. lia.
    + destruct (utf8_len_multi c s k Hc Hu) as (m&r&Heq&Hlen&Hm).
      destruct m as [|c' m']; [done|]. rewrite string_app_cons in Heq. injection Heq as <- ->.
      injection Hlen as <-. rewrite escape_copy, coerce_copy, <-!(string_app_cons c).
      apply enc_multi; [done|]. eapply IH; [|done]. rewrite length_string_app. lia.
Qed.

Lemma scan_bytes_cons c s cfg : scan_bytes (String c s) cfg = scan_step c cfg ≫= scan_bytes s.
Proof. reflexivity. Qed.

Lemma unquote_cons c s :
  Ascii.eqb c "\" = false →
  unquote 0 0 (String c s) =
  match utf8_len (String c s) with
  | O => (EncodeRune ReplacementChar +:+ unquote 0 0 s)%string
  | S k => String c (unquote 0 k s)
  end.
Proof. intros H. cbn [unquote]. by rewrite H. Qed.

(** What scanning a string body collects. *)
Definition collects (e : string) : Prop := ∀ k acc,
  scan_bytes e (k, SString acc) = Some (k, SString (rev (String.list_ascii_of_string e) ++ acc)).

Lemma list_of_app s t :
  String.list_ascii_of_string (s +:+ t)%string =
  String.list_ascii_of_string s ++ String.list_ascii_of_string t.
Proof. induction s as [|c s IH]; [done|]. rewrite string_app_cons. simpl. by rewrite IH. Qed.

Lemma collects_app s t : collects s → collects t → collects (s +:+ t)%string.
Proof.
  intros Hs Ht k acc. rewrite scan_bytes_app, Hs. simpl.
  by rewrite Ht, list_of_app, rev_app_distr, app_assoc.
Qed.

Lemma collects_nil : collects "".
Proof. by intros k acc. Qed.

Lemma collects_high m : (∀ c, has_byte c m = true → (128 ≤ byte_val c)%Z) → collects m.
Proof.
  induction m as [|c m IH]; intros Hm k acc; [done|].
  assert (Hc : (128 ≤ byte_val c)%Z) by (apply Hm; simpl; by rewrite Ascii.eqb_refl).
  assert (Hstep : scan_step c (k, SString acc) = Some (k, SString (c :: acc))).
  { simpl. destruct (Ascii.eqb_spec c dquote) as [->|]; [by vm_compute in Hc|].
    destruct (Ascii.eqb_spec c "\") as [->|]; [by vm_compute in Hc|].
    by destruct (Z.ltb_spec (byte_val c) 32); [lia|]. }
  rewrite scan_bytes_cons, Hstep. simpl. rewrite IH.
  - by rewrite <-app_assoc.
  - intros d Hd. apply Hm. simpl. by rewrite Hd, orb_true_r.
Qed.

Lemma escape_ascii_ok c :
  (byte_val c < 128)%Z →
  collects (escape_ascii c) ∧ ∀ t, unquote 0 0 (escape_ascii c +:+ t)%string = String c (unquote 0 0 t).
Proof.
  destruct c as [[] [] [] [] [] [] [] []]; intros Hc;
    first [by vm_compute in Hc | split; [intros k acc|intros t]; reflexivity].
Qed.

Lemma high_not_backslash c : (128 ≤ byte_val c)%Z → Ascii.eqb c "\" = false.
Proof. intros Hc. destruct (Ascii.eqb_spec c "\") as [->|]; [by vm_compute in Hc|done]. Qed.

Lemma unquote_multi m t : multi m → unquote 0 0 (m +:+ t)%string = (m +:+ unquote 0 0 t)%string.
Proof.
  intros Hm. destruct (multi_cons m Hm) as (c&m'&->&Hc&Hlen). rewrite !string_app_cons.
  rewrite unquote_cons by (by apply high_not_backslash). by rewrite Hlen, unquote_copy.
Qed.

(** The escaped separators and replacement character, and what they denote. *)
Lemma separator_ok m esc :
  line_separator m = Some esc → String.length m = 3 →
  collects esc ∧ ∀ t, unquote 0 0 (esc +:+ t)%string = (m +:+ unquote 0 0 t)%string.
Proof.
  destruct m as [|a [|b [|c [|d m]]]]; try done. simpl. intros H _.
  destruct (in_range 226 226 a) eqn:Ha; [|done]. destruct (in_range 128 128 b) eqn:Hb; [|done].
  assert (Hv : ∀ n x, in_range n n x = true → x = byte_of n).
  { intros n x Hx. unfold in_range in Hx. bool_simp. unfold byte_of.
    rewrite <-(ascii_N_embedding x) at 1. f_equal. unfold byte_val in *. lia. }
  rewrite (Hv _ _ Ha), (Hv _ _ Hb). simpl in H.
  destruct (in_range 168 168 c) eqn:H8; [|destruct (in_range 169 169 c) eqn:H9; [|done]];
    injection H as <-; [rewrite (Hv _ _ H8)|rewrite (Hv _ _ H9)];
    (split; [intros k acc|intros t]; reflexivity).
Qed.

Lemma replacement_ok :
  collects "\ufffd" ∧
  ∀ t, unquote 0 0 ("\ufffd" +:+ t)%string = (EncodeRune ReplacementChar +:+ unquote 0 0 t)%string.
Proof. split; [intros k acc|intros t]; reflexivity. Qed.

Lemma separator_length m esc : multi m → line_separator m = Some esc → String.length m = 3.
Proof.
  intros Hm Hsep. destruct (line_separator_shape _ _ Hsep) as (a&b&c&r&->&_&(_&_&Hu)).
  destruct Hm as (_&_&Hm). specialize (Hm ""). rewrite string_app_nil_r, Hu in Hm. done.
Qed.

Lemma encodes_ok s e v : encodes s e v → collects e ∧ unquote 0 0 e = v.
Proof.
  induction 1 as [|c s e v Hc _ [IH1 IH2]|m esc r e v Hm Hsep _ [IH1 IH2]|c s e v _ [IH1 IH2]
    |m r e v Hm _ [IH1 IH2]].
  - split; [apply collects_nil|done].
  - destruct (escape_ascii_ok c Hc) as [H1 H2]. split; [by apply collects_app|]. by rewrite H2, IH2.
  - destruct (separator_ok m esc Hsep (separator_length _ _ Hm Hsep)) as [H1 H2].
    split; [by apply collects_app|]. by rewrite H2, IH2.
  - destruct replacement_ok as [H1 H2]. split; [by apply collects_app|]. by rewrite H2, IH2.
  - split; [apply collects_app; [apply collects_high, Hm|done]|]. by rewrite unquote_multi, IH2.
Qed.

(** A marshalled string, scanned from where a value or a key may begin. *)
Lemma scan_string s k st :
  st = SBeginValue ∨ st = SBeginString ∨ st = SBeginValueOrEmpty ∨ st = SBeginStringOrEmpty →
  scan_bytes (marshal_string s) (k, st) = finish_value (JString (coerce_utf8 0 s)) k.
Proof.
  intros Hst. destruct (encodes_ok _ _ _ (encodes_total s)) as [Hc Hu].
  unfold marshal_string. rewrite scan_bytes_cons.
  assert (scan_step dquote (k, st) = Some (k, SString [])) as ->
    by (destruct Hst as [->|[->|[->| ->]]]; reflexivity).
  simpl mbind. rewrite scan_bytes_app, Hc. simpl mbind.
  rewrite app_nil_r. unfold of_rev.
  rewrite rev_involutive, String.string_of_list_ascii_of_string, Hu.
  by destruct (finish_value _ k).
Qed.

(** ** Lemmas: values *)

(** A byte that ends a number: a comma, a closing bracket or a space. *)
Definition ends_number (c : ascii) : Prop := ∀ ns, num_next ns c = None.

Lemma ends_comma : ends_number ",". Proof. by intros []. Qed.
Lemma ends_bracket : ends_number "]". Proof. by intros []. Qed.
Lemma ends_brace : ends_number "}". Proof. by intros []. Qed.
Lemma ends_space : ends_number " ". Proof. by intros []. Qed.

(** [text] is a number literal: scanning it from where a value begins leaves a
    complete number. *)
Definition number_text (text : string) : Prop :=
  ∀ k, ∃ ns, scan_bytes text (k, SBeginValue) = Some (k, SNum ns (rev (String.list_ascii_of_string text))) ∧
    num_complete ns = true.

(** Text that is neither empty nor starts with a space or a closing bracket. *)
Definition solid (e : string) : Prop :=
  match e with
  | EmptyString => False
  | String c _ => isSpace c = false ∧ Ascii.eqb c "]" = false ∧ Ascii.eqb c "}" = false
  end.

(** Every number in a value is a literal. *)
Fixpoint numbers_ok (j : json) : Prop :=
  match j with
  | JNumber text => number_text text ∧ solid text
  | JArray items => Forall id (List.map numbers_ok items)
  | JObject fields => Forall id (List.map (λ kv, numbers_ok kv.2) fields)
  | _ => True
  end.

(** [e] is read as [v] within a context of depth at most [10000 - d]. *)
Definition reads (e : string) (v : json) (d : nat) : Prop :=
  solid e ∧
  ∀ k c, ends_number c → (Z.of_nat (length k + d) ≤ maxNestingDepth)%Z →
    scan_bytes (e +:+ String c "")%string (k, SBeginValue) =
    (cfg ← finish_value v k; end_value c cfg).

Lemma finish_value_step v k cfg c : finish_value v k = Some cfg → scan_step c cfg = end_value c cfg.
Proof.
  destruct k as [|[] k]; simpl; intros H; simplify_eq; try done.
  destruct v; simplify_eq; done.
Qed.

(** Text after which the value is complete reads as the value. *)
Lemma reads_complete e v d :
  solid e →
  (∀ k, (Z.of_nat (length k + d) ≤ maxNestingDepth)%Z →
    scan_bytes e (k, SBeginValue) = finish_value v k) →
  reads e v d.
Proof.
  intros Hs He. split; [done|]. intros k c _ Hd. rewrite scan_bytes_app, He by done.
  destruct (finish_value v k) as [cfg|] eqn:Hf; [|done]. simpl.
  rewrite (finish_value_step _ _ _ _ Hf). by destruct (end_value c cfg).
Qed.

Lemma reads_number text : number_text text → solid text → reads text (JNumber text) 0.
Proof.
  intros Hn Hs. split; [done|]. intros k c Hc _. rewrite scan_bytes_app.
  destruct (Hn k) as (ns&->&Hcomplete). simpl. rewrite (Hc ns), Hcomplete. unfold of_rev.
  rewrite rev_involutive, String.string_of_list_ascii_of_string.
  destruct (finish_value _ k) as [cfg|]; [|done]. simpl. by destruct (end_value c cfg).
Qed.

(** Where a value, or the first item of an array, may begin. *)
Lemma scan_solid e t k :
  solid e →
  scan_bytes (e +:+ t)%string (k, SBeginValueOrEmpty) = scan_bytes (e +:+ t)%string (k, SBeginValue).
Proof.
  destruct e as [|c e]; [done|]. intros (H1&H2&_). rewrite string_app_cons, !scan_bytes_cons.
  cbn [scan_step]. by rewrite H1, H2.
Qed.

Lemma scan_key_solid s k t :
  scan_bytes (marshal_string s +:+ t)%string (k, SBeginStringOrEmpty) =
  scan_bytes (marshal_string s +:+ t)%string (k, SBeginString).
Proof. by rewrite !scan_bytes_app, !scan_string by auto. Qed.

Lemma push_ok f k st d :
  (Z.of_nat (length k + S d) ≤ maxNestingDepth)%Z → push f k st = Some (f :: k, st).
Proof. intros H. unfold push. by destruct (Z.ltb_spec (Z.of_nat (length k)) maxNestingDepth); [|lia]. Qed.

(** The items of an array, after the bracket or a comma. *)
Lemma scan_items (es : list string) (vs : list json) d k acc :
  Forall2 (λ e v, reads e v d) es vs → es ≠ [] →
  (Z.of_nat (length k + S d) ≤ maxNestingDepth)%Z →
  scan_bytes (Join es "," +:+ "]")%string (FArr acc :: k, SBeginValue) =
  finish_value (JArray (rev acc ++ vs)) k.
Proof.
  intros H Hne Hd. revert acc. induction H as [|e v es vs [_ He] H IH]; intros acc; [done|].
  destruct es as [|e' es].
  - inversion H; subst. simpl Join. rewrite He by (exact ends_bracket || (simpl; lia)).
    simpl. by destruct (finish_value _ k).
  - change (Join (e :: e' :: es) ",") with (e +:+ ("," +:+ Join (e' :: es) ","))%string.
    replace ((e +:+ ("," +:+ Join (e' :: es) ",")) +:+ "]")%string with
      ((e +:+ String "," "") +:+ (Join (e' :: es) "," +:+ "]"))%string
      by (by rewrite <-!string_app_assoc).
    rewrite scan_bytes_app, He by (exact ends_comma || (simpl; lia)). simpl mbind.
    rewrite IH by done. simpl. by rewrite <-app_assoc.
Qed.

(** The fields of an object. *)
Lemma scan_fields (ks es : list string) (vs : list json) d k acc :
  length ks = length es → Forall2 (λ e v, reads e v d) es vs → es ≠ [] →
  (Z.of_nat (length k + S d) ≤ maxNestingDepth)%Z →
  scan_bytes (Join (zip_with (λ key e, (marshal_string key +:+ String ":" e)%string) ks es) "," +:+ "}")%string
    (FKey acc :: k, SBeginString) =
  finish_value (JObject (rev acc ++ zip (coerce_utf8 0 <$> ks) vs)) k.
Proof.
  intros Hlen H Hne Hd. revert acc ks Hlen. induction H as [|e v es vs [_ He] H IH]; intros acc ks Hlen; [done|].
  destruct ks as [|key ks]; [done|]. injection Hlen as Hlen.
  assert (Hfield : ∀ c, ends_number c →
    scan_bytes ((marshal_string key +:+ String ":" e) +:+ String c "")%string (FKey acc :: k, SBeginString) =
    end_value c (FNext ((coerce_utf8 0 key, v) :: acc) :: k, SEndValue)).
  { intros c Hc. rewrite <-string_app_assoc, scan_bytes_app, scan_string by auto.
    change (scan_bytes (e +:+ String c "")%string (FValue acc (coerce_utf8 0 key) :: k, SBeginValue) =
      end_value c (FNext ((coerce_utf8 0 key, v) :: acc) :: k, SEndValue)).
    rewrite He by (done || (simpl; lia)). done. }
  destruct es as [|e' es].
  - inversion H; subst. destruct ks; [|done]. simpl Join.
    rewrite (Hfield "}"%char ends_brace). simpl. by destruct (finish_value _ k).
  - destruct ks as [|key' ks]; [done|].
    change (Join (zip_with (λ key e, (marshal_string key +:+ String ":" e)%string) (key :: key' :: ks) (e :: e' :: es)) ",")
      with ((marshal_string key +:+ String ":" e) +:+ ("," +:+
        Join (zip_with (λ key e, (marshal_string key +:+ String ":" e)%string) (key' :: ks) (e' :: es)) ","))%string.
    match goal with |- context [((?x +:+ ("," +:+ ?y)) +:+ ?z)%string] =>
      replace ((x +:+ ("," +:+ y)) +:+ z)%string with ((x +:+ String "," "") +:+ (y +:+ z))%string
        by (by rewrite <-!string_app_assoc) end.
    rewrite scan_bytes_app, (Hfield ","%char ends_comma).
    etransitivity; [exact (IH ltac:(done) ((coerce_utf8 0 key, v) :: acc) (key' :: ks) Hlen)|].
    simpl. by rewrite <-app_assoc.
Qed.

Lemma zip_with_same {A B C D} (f : B → C → D) (g : A → B) (h : A → C) (l : list A) :
  zip_with f (g <$> l) (h <$> l) = (λ x, f (g x) (h x)) <$> l.
Proof. induction l as [|x l IH]; [done|]. csimpl. by rewrite IH. Qed.

Lemma json_nested_ind (P : json → Prop) :
  P JNull → (∀ b, P (JBool b)) → (∀ t, P (JNumber t)) → (∀ s, P (JString s)) →
  (∀ items, Forall P items → P (JArray items)) →
  (∀ fields, Forall (λ kv, P kv.2) fields → P (JObject fields)) →
  ∀ j, P j.
Proof.
  intros Hnull Hb Hn Hs Ha Ho. fix IH 1.
  intros [|b|t|s|items|fields]; [done|apply Hb|apply Hn|apply Hs|..].
  - apply Ha. induction items as [|j items IHi]; constructor; [apply IH|exact IHi].
  - apply Ho. induction fields as [|[k v] fields IHf]; constructor; [apply IH|exact IHf].
Qed.

Lemma reads_weaken e v d d' : d ≤ d' → reads e v d → reads e v d'.
Proof. intros Hd [Hs He]. split; [done|]. intros k c Hc Hk. apply He; [done|lia]. Qed.

Lemma solid_app e t : solid e → solid (e +:+ t)%string.
Proof. by destruct e. Qed.

Lemma solid_Join es sep : Forall solid es → es ≠ [] → solid (Join es sep).
Proof.
  intros H Hne. destruct H as [|e es He _]; [done|]. destruct es; [done|]. by apply solid_app.
Qed.

Lemma reads_array es vs d :
  Forall2 (λ e v, reads e v d) es vs →
  reads (String "[" (Join es "," +:+ "]"))%string (JArray vs) (S d).
Proof.
  intros H. apply reads_complete; [done|]. intros k Hd.
  rewrite scan_bytes_cons.
  change (scan_step "[" (k, SBeginValue)) with (push (FArr []) k SBeginValueOrEmpty).
  rewrite (push_ok _ _ _ d) by done. cbn [mbind option_bind].
  destruct es as [|e es]; [inversion H; subst; simpl; by destruct (finish_value _ k)|].
  rewrite scan_solid; [by apply (scan_items _ vs d k [])|].
  apply solid_Join; [|done]. eapply Forall2_Forall_l; [exact H|].
  apply Forall_true. by intros x y [? _].
Qed.

Lemma reads_object (ks es : list string) vs d :
  length ks = length es → Forall2 (λ e v, reads e v d) es vs →
  reads (String "{" (Join (zip_with (λ key e, (marshal_string key +:+ String ":" e)%string) ks es) "," +:+ "}"))%string
    (JObject (zip (coerce_utf8 0 <$> ks) vs)) (S d).
Proof.
  intros Hlen H. apply reads_complete; [done|]. intros k Hd. rewrite scan_bytes_cons.
  change (scan_step "{" (k, SBeginValue)) with (push (FKey []) k SBeginStringOrEmpty).
  rewrite (push_ok _ _ _ d) by done. cbn [mbind option_bind].
  destruct es as [|e es].
  { destruct ks; [|done]. inversion H; subst. simpl. by destruct (finish_value _ k). }
  etransitivity; [|exact (scan_fields ks (e :: es) vs d k [] Hlen H ltac:(done) Hd)].
  destruct ks as [|key ks]; [done|].
  assert (∃ t, (Join (zip_with (λ key e, (marshal_string key +:+ String ":" e)%string) (key :: ks) (e :: es))
    "," +:+ "}")%string = (marshal_string key +:+ t)%string) as [t ->]; [|apply scan_key_solid].
  cbn [zip_with Join]. destruct (zip_with _ ks es); rewrite <-!string_app_assoc; by eexists.
Qed.

Lemma reads_print j : numbers_ok j → reads (print_json j) (coerce_json j) (json_depth j).
Proof.
  induction j as [|[]|t|s|items IH|fields IH] using json_nested_ind; intros Hok.
  1-3: apply reads_complete; [done|]; intros k _; simpl; by destruct (finish_value _ k).
  - destruct Hok. by apply reads_number.
  - apply reads_complete; [done|]. intros k _. simpl print_json. by rewrite scan_string by auto.
  - apply reads_array. simpl in Hok |- *. rewrite Forall_fmap in Hok.
    apply Forall2_fmap_2, Forall_Forall2_diag. rewrite Forall_forall in IH, Hok |- *. intros j Hj.
    eapply reads_weaken; [|apply IH; [done|by apply Hok]].
    apply max_list_elem_of_le, list_elem_of_fmap. eauto.
  - simpl in Hok |- *. rewrite Forall_fmap in Hok.
    pose proof (reads_object fields.*1 ((λ kv, print_json kv.2) <$> fields)
      ((λ kv, coerce_json kv.2) <$> fields) (max_list (List.map (λ kv, json_depth kv.2) fields))) as H.
    rewrite <-list_fmap_compose, !zip_with_same in H. apply H; [by rewrite !length_fmap|].
    apply Forall2_fmap_2, Forall_Forall2_diag. rewrite Forall_forall in IH, Hok |- *. intros kv Hkv.
    eapply reads_weaken; [|apply IH; [done|by apply Hok]].
    apply max_list_elem_of_le, list_elem_of_fmap. eauto.
Qed.

(** The end of the input is a virtual space. *)
Lemma scan_end s cfg :
  scan s cfg = match scan_bytes (s +:+ " ")%string cfg with
               | Some ([], SEndTop v) => Some v
               | _ => None
               end.
Proof.
  revert cfg. induction s as [|c s IH]; intros cfg.
  - simpl. by destruct (scan_step " " cfg).
  - rewrite string_app_cons. simpl. destruct (scan_step c cfg); [apply IH|done].
Qed.

Lemma parse_print j :
  numbers_ok j → (Z.of_nat (json_depth j) ≤ maxNestingDepth)%Z →
  parse_json (print_json j) = Some (coerce_json j).
Proof.
  intros Hok Hd. destruct (reads_print j Hok) as [_ H].
  unfold parse_json. rewrite scan_end, H by (exact ends_space || done). reflexivity.
Qed.

(** ** Lemmas: integers *)

Definition all_digits (s : string) : Prop := ∀ c, has_byte c s = true → is_digit c = true.

Lemma all_digits_cons c s : all_digits (String c s) → is_digit c = true ∧ all_digits s.
Proof.
  intros H. split; [apply H; simpl; by rewrite Ascii.eqb_refl|].
  intros d Hd. apply H. simpl. by rewrite Hd, orb_true_r.
Qed.

Lemma all_digits_app s t : all_digits s → all_digits t → all_digits (s +:+ t)%string.
Proof.
  intros Hs Ht. induction s as [|c s IH]; [done|]. apply all_digits_cons in Hs as [Hc Hs].
  rewrite string_app_cons. intros d. simpl. rewrite orb_true_iff, Ascii.eqb_eq.
  intros [->|Hd]; [done|]. by apply (IH Hs).
Qed.

Lemma pretty_digit_1_9 x : (0 < x < 10)%N → is_1_9 (pretty_N_char x) = true.
Proof.
  intros H. assert (x ∈ [1; 2; 3; 4; 5; 6; 7; 8; 9])%N as Hin by (repeat (rewrite elem_of_cons); lia).
  repeat (apply elem_of_cons in Hin as [->|Hin]; [by vm_compute|]). set_solver.
Qed.

(** A positive numeral: a non-zero digit, then digits. *)
Lemma pretty_go_shape x :
  (0 < x)%N → ∃ c s, pretty_N_go x "" = String c s ∧ is_1_9 c = true ∧ all_digits s.
Proof.
  induction (N.lt_wf_0 x) as [x _ IH]. intros Hx.
  rewrite pretty_N_go_step, pretty_N_go_app by done.
  assert (Hd : all_digits (String (pretty_N_char (x `mod` 10)) "")).
  { intros c. simpl. rewrite orb_false_r, Ascii.eqb_eq. intros <-. by apply pretty_digit, N.mod_lt. }
  destruct (decide (x < 10)%N) as [Hlt|Hge].
  - rewrite N.div_small, N.mod_small by done. rewrite pretty_N_go_0.
    exists (pretty_N_char x), "". split_and!; [done|apply pretty_digit_1_9; lia|by intros c].
  - assert (0 < x `div` 10)%N as Hpos by (apply N.div_str_pos; lia).
    destruct (IH (x `div` 10)%N (N.div_lt x 10 ltac:(lia) ltac:(lia)) Hpos) as (c&s&->&Hc&Hs).
    exists c, (s +:+ String (pretty_N_char (x `mod` 10)) "")%string.
    split_and!; [by rewrite string_app_cons|done|by apply all_digits_app].
Qed.

Lemma scan_digits s k raw :
  all_digits s →
  scan_bytes s (k, SNum N1 raw) = Some (k, SNum N1 (rev (String.list_ascii_of_string s) ++ raw)).
Proof.
  revert raw. induction s as [|c s IH]; intros raw Hs; [done|].
  apply all_digits_cons in Hs as [Hc Hs]. rewrite scan_bytes_cons. cbn [scan_step num_next].
  rewrite Hc. cbn [mbind option_bind]. rewrite IH by done. simpl. by rewrite <-app_assoc.
Qed.

(** From the start of a value, or after a minus sign. *)
Lemma scan_natural x k st raw :
  (st = SBeginValue ∧ raw = []) ∨ (st = SNum NNeg raw) →
  ∃ ns, scan_bytes (pretty x) (k, st) =
      Some (k, SNum ns (rev (String.list_ascii_of_string (pretty (x : N))) ++ raw)) ∧
    num_complete ns = true.
Proof.
  intros Hst. unfold pretty, pretty_N. case_decide as Hx.
  { exists N0. destruct Hst as [[-> ->]| ->]; by vm_compute. }
  destruct (pretty_go_shape x) as (c&s&->&Hc&Hs); [lia|]. exists N1. split; [|done].
  rewrite scan_bytes_cons.
  assert (scan_step c (k, st) = Some (k, SNum N1 (c :: raw))) as ->.
  { destruct c as [[] [] [] [] [] [] [] []]; try (by vm_compute in Hc);
      destruct Hst as [[-> ->]| ->]; reflexivity. }
  cbn [mbind option_bind]. rewrite scan_digits by done. simpl. by rewrite <-app_assoc.
Qed.

Lemma solid_digit c s : is_digit c = true → solid (String c s).
Proof. by destruct c as [[] [] [] [] [] [] [] []]. Qed.

Lemma integer_literal (z : Z) : number_text (pretty z) ∧ solid (pretty z).
Proof.
  assert (Hn : ∀ x : N, number_text (pretty x) ∧ solid (pretty x)).
  { intros x. split.
    - intros k. destruct (scan_natural x k SBeginValue []) as (ns&H&Hc); [by left|].
      exists ns. by rewrite app_nil_r in H.
    - destruct (pretty_N_first x) as (c&s&->&Hc). by apply solid_digit. }
  destruct z as [|x|x]; [exact (Hn 0%N)|exact (Hn (N.pos x))|].
  change (pretty (Z.neg x)) with (String "-" (pretty (N.pos x))). split; [|done].
  intros k. destruct (scan_natural (N.pos x) k (SNum NNeg ["-"%char]) ["-"%char]) as (ns&H&Hc); [by right|].
  exists ns. rewrite scan_bytes_cons. change (scan_step "-" (k, SBeginValue)) with (Some (k, SNum NNeg ["-"%char])).
  cbn [mbind option_bind]. by rewrite H.
Qed.

(** ** What [Marshal] writes is read back *)

Definition json_of_body (v : body_value) : json :=
  match v with
  | BBool b => JBool b
  | BString s => JString s
  | BInt z => JNumber (pretty z)
  end.

Definition json_of_fields (fields : list (string * body_value)) : json :=
  JObject (List.map (λ kv, (kv.1, json_of_body kv.2)) fields).

Lemma Marshal_print fields : Marshal fields = print_json (json_of_fields fields).
Proof.
  unfold Marshal, json_of_fields. simpl. f_equal. f_equal.
  induction fields as [|[k v] fields IH]; [done|].
  assert (Hv : marshal_value v = print_json (json_of_body v)) by (by destruct v as [[]| |]).
  destruct fields as [|[k' v'] fields]; [by simpl; rewrite Hv|].
  cbn [marshal_fields]. cbn [marshal_fields] in IH. rewrite IH, Hv. simpl.
  by rewrite <-!string_app_assoc.
Qed.

Lemma parse_Marshal fields :
  parse_json (Marshal fields) =
  Some (JObject ((λ kv, (coerce_utf8 0 kv.1, coerce_json (json_of_body kv.2))) <$> fields)).
Proof.
  rewrite Marshal_print, parse_print.
  - simpl. rewrite <-list_fmap_compose. done.
  - simpl. rewrite !Forall_fmap. apply Forall_true. intros [k []]; [done|done|]. apply integer_literal.
  - simpl. rewrite Nat2Z.inj_succ.
    enough (max_list (List.map (λ kv, json_depth kv.2)
      (List.map (λ kv, (kv.1, json_of_body kv.2)) fields)) = 0) as -> by done.
    induction fields as [|[k []] fields IH]; simpl; by rewrite ?IH.
Qed.
