(* ===== verification/Utf8.v ===== *)
(** Every string the JSON decoder produces is valid UTF-8: an invariant of the
    scanner's states, of the values it returns and of what a decoder stores in
    a Go variable. *)
From S2P Require Import Prelude GoText GoJson GoEnc JsonText.
Open Scope string_scope.
Open Scope nat_scope.
Open Scope list_scope.

(** ** Specification *)

(** Well-formed UTF-8 as a sequence of ASCII bytes and of multi-byte
    sequences. *)
Inductive utf8 : string → Prop :=
  | utf8_nil : utf8 ""
  | utf8_ascii c s : (byte_val c < 128)%Z → utf8 s → utf8 (String c s)
  | utf8_multi m s : multi m → utf8 s → utf8 (m +:+ s)%string.

(** A Unicode scalar value. *)
Definition scalar (r : Z) : Prop := ((0 ≤ r < 55296) ∨ (57344 ≤ r < 1114112))%Z.

Fixpoint json_utf8 (j : json) : Prop :=
  match j with
  | JString s => utf8 s
  | JArray items => foldr (λ j P, json_utf8 j ∧ P) True items
  | JObject fields => foldr (λ kv P, (utf8 kv.1 ∧ json_utf8 kv.2) ∧ P) True fields
  | _ => True
  end.

Definition fields_utf8 (fs : list (string * json)) : Prop :=
  Forall (λ kv, utf8 kv.1 ∧ json_utf8 kv.2) fs.

Definition frame_utf8 (f : frame) : Prop :=
  match f with
  | FArr vs => Forall json_utf8 vs
  | FKey fs | FNext fs => fields_utf8 fs
  | FColon fs key | FValue fs key => fields_utf8 fs ∧ utf8 key
  end.

Definition state_utf8 (st : jstate) : Prop :=
  match st with SEndTop v | SLit _ v => json_utf8 v | _ => True end.

Definition config_utf8 (cfg : config) : Prop := Forall frame_utf8 cfg.1 ∧ state_utf8 cfg.2.

(** What holds of an optional result. *)
Definition if_some {A} (P : A → Prop) (o : option A) : Prop :=
  match o with None => True | Some a => P a end.

(** A decoder that keeps an invariant of its variable. *)
Definition keeps {T} (P : T → Prop) (dec : decoder T) : Prop :=
  ∀ cur j, P cur → json_utf8 j → P (dec cur j).1.

Create HintDb utf8 discriminated.
#[export] Hint Constructors utf8 : utf8.

(** ** Lemmas: strings *)

Lemma utf8_valid s : utf8 s → valid_utf8 s.
Proof.
  unfold valid_utf8. induction 1 as [|c s Hc _ IH|m s Hm _ IH]; [done|..].
  - rewrite coerce_cons, utf8_len_ascii by done. by rewrite IH.
  - destruct (multi_cons m Hm) as (c&m'&->&_&Hlen). rewrite string_app_cons, coerce_cons, Hlen.
    by rewrite coerce_copy, IH.
Qed.

Lemma byte_val_of z : (0 ≤ z < 256)%Z → byte_val (byte_of z) = z.
Proof.
  intros Hz. unfold byte_val, byte_of. rewrite Ascii.N_ascii_embedding by lia. lia.
Qed.

Lemma in_range_of lo hi z : (0 ≤ z < 256)%Z → in_range lo hi (byte_of z) = ((lo <=? z) && (z <=? hi))%Z.
Proof. intros Hz. unfold in_range. by rewrite byte_val_of. Qed.

(** The six low bits, and a shift. *)
Lemma land_63 z : Z.land z 63 = (z mod 64)%Z.
Proof. exact (Z.land_ones z 6 ltac:(lia)). Qed.

Lemma shiftr_div z n : (0 ≤ n)%Z → Z.shiftr z n = (z / 2 ^ n)%Z.
Proof. apply Z.shiftr_div_pow2. Qed.

(** Compares the two sides of every [<=?] of the goal. *)
Ltac decide_range :=
  repeat match goal with
  | |- context [(?a <=? ?b)%Z] => destruct (Z.leb_spec a b); try (exfalso; lia); simpl
  end; try done.

Lemma in_range_true lo hi z : (0 ≤ z < 256)%Z → (lo ≤ z ≤ hi)%Z → in_range lo hi (byte_of z) = true.
Proof. intros. rewrite in_range_of by done. decide_range. Qed.

Lemma cont_true z : (0 ≤ z < 64)%Z → cont_byte (byte_of (128 + z)) = true.
Proof. intros. apply in_range_true; lia. Qed.

(** The bytes of a two-, three- and four-byte encoding, by the digits of the
    rune in base 64. *)
Lemma multi_digits2 a b :
  (2 ≤ a < 32)%Z → (0 ≤ b < 64)%Z →
  multi (String (byte_of (192 + a)) (String (byte_of (128 + b)) "")).
Proof. intros. apply multi_2; [apply in_range_true; lia|by apply cont_true]. Qed.

Lemma multi_digits3 a b c :
  (0 ≤ a < 16)%Z → (0 ≤ b < 64)%Z → (0 ≤ c < 64)%Z →
  (a = 0 → 32 ≤ b)%Z → (a = 13 → b < 32)%Z →
  multi (String (byte_of (224 + a)) (String (byte_of (128 + b)) (String (byte_of (128 + c)) ""))).
Proof.
  intros Ha Hb Hc H0 H13. apply multi_3; [| |by apply cont_true].
  - rewrite in_range_of by lia. decide_range.
  - unfold ok3, cont_byte. rewrite !in_range_of by lia. decide_range.
Qed.

Lemma multi_digits4 a b c d :
  (0 ≤ a < 5)%Z → (0 ≤ b < 64)%Z → (0 ≤ c < 64)%Z → (0 ≤ d < 64)%Z →
  (a = 0 → 16 ≤ b)%Z → (a = 4 → b < 16)%Z →
  multi (String (byte_of (240 + a)) (String (byte_of (128 + b))
    (String (byte_of (128 + c)) (String (byte_of (128 + d)) "")))).
Proof.
  intros Ha Hb Hc Hd H0 H4. apply multi_4; [| | |by apply cont_true..].
  - rewrite in_range_of by lia. decide_range.
  - unfold ok3, cont_byte. rewrite !in_range_of by lia. decide_range.
  - unfold ok4, cont_byte. rewrite !in_range_of by lia. decide_range.
Qed.

Lemma encode_multi r : (128 ≤ r)%Z → scalar r → multi (EncodeRune r).
Proof.
  intros Hr Hs. unfold EncodeRune. rewrite !shiftr_div, !land_63 by lia.
  change (2 ^ 6)%Z with 64%Z. change (2 ^ 12)%Z with 4096%Z. change (2 ^ 18)%Z with 262144%Z.
  destruct (Z.ltb_spec r 128); [lia|]. destruct (Z.ltb_spec r 2048).
  { apply multi_digits2; Z.div_mod_to_equations; lia. }
  destruct (Z.ltb_spec r 65536); [apply multi_digits3|apply multi_digits4];
    destruct Hs; Z.div_mod_to_equations; lia.
Qed.

Lemma utf8_rune r t : scalar r → utf8 t → utf8 (EncodeRune r +:+ t)%string.
Proof.
  intros Hr Ht. destruct (Z.ltb_spec r 128) as [Hlt|Hge].
  - unfold EncodeRune. rewrite (proj2 (Z.ltb_lt _ _) Hlt). apply utf8_ascii; [|done].
    destruct Hr; rewrite byte_val_of; lia.
  - apply utf8_multi; [|done]. by apply encode_multi.
Qed.

Lemma scalar_replacement : scalar ReplacementChar.
Proof. unfold scalar, ReplacementChar. lia. Qed.
#[export] Hint Resolve scalar_replacement utf8_rune : utf8.

Lemma hex_digit_bounds c x : hex_digit c = Some x → (0 ≤ x < 16)%Z.
Proof.
  unfold hex_digit, is_digit, digit_val, in_range. intros H.
  repeat case_match; simplify_eq; bool_simp; lia.
Qed.

Lemma hex4_bounds a b c d r : hex4 a b c d = Some r → (0 ≤ r < 65536)%Z.
Proof.
  unfold hex4. intros H. simplify_option_eq.
  repeat match goal with Hd : hex_digit _ = Some _ |- _ => apply hex_digit_bounds in Hd end. lia.
Qed.

Lemma getu4_bounds s r : getu4 s = Some r → (0 ≤ r < 65536)%Z.
Proof. unfold getu4. intros H. repeat case_match; try done. by eapply hex4_bounds. Qed.

Lemma scalar_pair r r2 :
  is_high r = true → is_low r2 = true → scalar (65536 + (r - 55296) * 1024 + (r2 - 56320)).
Proof. unfold is_high, is_low, scalar. intros ??. bool_simp. lia. Qed.

Lemma scalar_single r : (0 ≤ r < 65536)%Z → is_high r || is_low r = false → scalar r.
Proof.
  unfold is_high, is_low, scalar. intros Hr [H1 H2]%orb_false_iff.
  apply andb_false_iff in H1, H2. rewrite !Z.leb_gt, !Z.ltb_ge in H1, H2. lia.
Qed.

Lemma simple_escape_ascii c x : simple_escape c = Some x → (byte_val x < 128)%Z.
Proof. unfold simple_escape. intros H. repeat case_match; simplify_eq; by vm_compute. Qed.

Lemma unquote_skip k s : unquote k 0 s = unquote 0 0 (drop_bytes k s).
Proof.
  revert k. induction s as [|c s IH]; intros [|k]; try done. simpl drop_bytes. by rewrite <-IH.
Qed.

Lemma length_drop_bytes k s : String.length (drop_bytes k s) ≤ String.length s.
Proof.
  revert k. induction s as [|c s IH]; intros [|k]; simpl; [lia..|]. specialize (IH k). lia.
Qed.

(** Copying a recognised sequence. *)
Lemma utf8_copy (f : nat → string → string) c s k :
  (∀ m t, f (String.length m) (m +:+ t)%string = (m +:+ f 0 t)%string) →
  utf8_len (String c s) = S k →
  (∀ t, String.length t ≤ String.length s → utf8 (f 0 t)) →
  utf8 (String c (f k s)).
Proof.
  intros Hf Hlen Hrest. destruct (Z.ltb_spec (byte_val c) 128) as [Hc|Hc].
  - rewrite utf8_len_ascii in Hlen by done. injection Hlen as <-. by apply utf8_ascii; [|apply Hrest].
  - destruct (utf8_len_multi c s k Hc Hlen) as (m&r&Heq&Hl&Hm).
    destruct m as [|c' m']; [done|]. rewrite string_app_cons in Heq. injection Heq as <- ->.
    injection Hl as <-. rewrite Hf, <-string_app_cons. apply utf8_multi; [done|].
    apply Hrest. rewrite length_string_app. lia.
Qed.

Lemma unquote_utf8 s : utf8 (unquote 0 0 s).
Proof.
  remember (String.length s) as n eqn:Hn. revert s Hn.
  induction (lt_wf n) as [n _ IH]. intros s ->. destruct s as [|c s]; [constructor|].
  simpl String.length in IH.
  assert (Hrest : ∀ t, String.length t ≤ String.length s → utf8 (unquote 0 0 t)).
  { intros t Ht. eapply IH; [|done]. lia. }
  assert (Hskip : ∀ k, utf8 (unquote k 0 s)).
  { intros k. rewrite unquote_skip. apply Hrest, length_drop_bytes. }
  destruct (Ascii.eqb c "\") eqn:Hc.
  - cbn [unquote]. rewrite Hc. destruct (getu4 (String c s)) as [r|] eqn:Hg.
    + pose proof (getu4_bounds _ _ Hg) as Hr. destruct (is_high r || is_low r) eqn:Hsur.
      * destruct (getu4 (drop_bytes 6 (String c s))) as [r2|]; [|eauto with utf8].
        destruct (is_high r && is_low r2) eqn:Hp; [|eauto with utf8].
        apply andb_true_iff in Hp as [??]. by apply utf8_rune; [apply scalar_pair|].
      * by apply utf8_rune; [apply scalar_single|].
    + destruct s as [|e s]; [constructor|].
      destruct (simple_escape e) as [x|] eqn:He; [|constructor].
      apply utf8_ascii; [by eapply simple_escape_ascii|apply Hskip].
  - rewrite unquote_cons by done. destruct (utf8_len (String c s)) as [|k] eqn:Hu.
    + apply utf8_rune; [apply scalar_replacement|by apply Hrest].
    + eapply (utf8_copy (unquote 0)); [apply unquote_copy|done|done].
Qed.
#[export] Hint Resolve unquote_utf8 : utf8.

(** ** Lemmas: the scanner *)

Lemma json_utf8_array vs : json_utf8 (JArray vs) ↔ Forall json_utf8 vs.
Proof.
  induction vs as [|v vs IH]; simpl; [by rewrite Forall_nil|].
  simpl in IH. by rewrite IH, Forall_cons.
Qed.

Lemma json_utf8_object fs : json_utf8 (JObject fs) ↔ fields_utf8 fs.
Proof.
  unfold fields_utf8. induction fs as [|kv fs IH]; simpl; [by rewrite Forall_nil|].
  simpl in IH. by rewrite IH, Forall_cons.
Qed.

(** The states of one step, for [if_some]. *)
Lemma if_some_bind {A B} (P : A → Prop) (Q : B → Prop) (o : option A) f :
  if_some P o → (∀ a, P a → if_some Q (f a)) → if_some Q (o ≫= f).
Proof. destruct o; simpl; auto. Qed.

Lemma finish_value_utf8 v k :
  json_utf8 v → Forall frame_utf8 k → if_some config_utf8 (finish_value v k).
Proof.
  intros Hv Hk. destruct Hk as [|f k Hf Hk]; simpl; [by split|].
  destruct f as [vs|fs|fs key|fs key|fs]; simpl in *; try done.
  - split; [|done]. constructor; [by constructor|done].
  - destruct v; simpl; try done. by split; [constructor|].
  - split; [|done]. constructor; [|done]. destruct Hf as [Hf Hkey].
    constructor; [by split|done].
Qed.

Lemma push_utf8 f k st :
  frame_utf8 f → state_utf8 st → Forall frame_utf8 k → if_some config_utf8 (push f k st).
Proof. intros. unfold push. case_match; simpl; [|done]. by split; [constructor|]. Qed.

Lemma begin_value_utf8 c k : Forall frame_utf8 k → if_some config_utf8 (begin_value c k).
Proof.
  intros Hk. unfold begin_value.
  repeat case_match; simpl; try done; apply push_utf8; simpl; try done; constructor.
Qed.

Lemma begin_string_utf8 c k : Forall frame_utf8 k → if_some config_utf8 (begin_string c k).
Proof. intros Hk. unfold begin_string. by repeat case_match. Qed.

Lemma end_value_utf8 c cfg : config_utf8 cfg → if_some config_utf8 (end_value c cfg).
Proof.
  destruct cfg as [k st]. intros [Hk Hst]. simpl in Hk, Hst.
  assert (H : if_some config_utf8
    (if isSpace c then Some (k, SEndValue)
    else match k with
    | FColon fs key :: k => if Ascii.eqb c ":" then Some (FValue fs key :: k, SBeginValue) else None
    | FNext fs :: k =>
      if Ascii.eqb c "," then Some (FKey fs :: k, SBeginString)
      else if Ascii.eqb c "}" then finish_value (JObject (rev fs)) k
      else None
    | FArr vs :: k =>
      if Ascii.eqb c "," then Some (FArr vs :: k, SBeginValue)
      else if Ascii.eqb c "]" then finish_value (JArray (rev vs)) k
      else None
    | _ => None
    end)).
  { destruct (isSpace c); [by split|]. destruct Hk as [|f k Hf Hk]; [done|].
    destruct f as [vs|fs|fs key|fs key|fs]; simpl in Hf; try done; repeat case_match; simpl; try done.
    - by split; [constructor|].
    - apply finish_value_utf8; [|done]. apply json_utf8_array. by apply Forall_rev.
    - by split; [constructor|].
    - by split; [constructor|].
    - apply finish_value_utf8; [|done]. apply json_utf8_object. by apply Forall_rev. }
  destruct st; try exact H. simpl. case_match; [by split|done].
Qed.

(** The invariant of the scanner. *)
Lemma scan_step_utf8 c cfg : config_utf8 cfg → if_some config_utf8 (scan_step c cfg).
Proof.
  destruct cfg as [k st]. intros [Hk Hst]. simpl in Hk, Hst.
  destruct st as [| | | | |v|raw|raw|n raw|ns raw|rest v]; unfold scan_step.
  - by apply begin_value_utf8.
  - case_match; [by split|]. case_match; [|by apply begin_value_utf8].
    destruct Hk as [|[] k Hf Hk]; simpl; try done. by apply finish_value_utf8.
  - case_match; [by split|]. case_match; [|by apply begin_string_utf8].
    destruct Hk as [|[] k Hf Hk]; simpl; try done. by apply finish_value_utf8.
  - by apply begin_string_utf8.
  - by apply end_value_utf8.
  - by apply end_value_utf8.
  - case_match; [apply finish_value_utf8; simpl; [apply unquote_utf8|done]|].
    repeat case_match; simpl; try done; by split.
  - repeat case_match; simpl; try done; by split.
  - repeat case_match; simpl; try done; by split.
  - case_match; [by split|]. case_match; [|done].
    eapply if_some_bind; [by apply finish_value_utf8|]. intros. by apply end_value_utf8.
  - repeat case_match; simpl; try done; by apply finish_value_utf8.
Qed.

Lemma scan_utf8 s cfg : config_utf8 cfg → if_some json_utf8 (scan s cfg).
Proof.
  revert cfg. induction s as [|c s IH]; intros cfg Hcfg; cbn [scan].
  - pose proof (scan_step_utf8 " " cfg Hcfg) as H.
    destruct (scan_step " " cfg) as [[k st]|]; [|done]. destruct k, st; simpl; try done. apply H.
  - eapply if_some_bind; [by apply scan_step_utf8|done].
Qed.

Lemma parse_json_utf8 s : if_some json_utf8 (parse_json s).
Proof. apply scan_utf8. by split. Qed.

(** ** Lemmas: decoding *)

Lemma decode_string_keeps : keeps utf8 decode_string.
Proof. intros cur j Hc Hj. by destruct j. Qed.

Lemma decode_items_keeps {T} (P : T → Prop) zero (dec : decoder T) array items :
  P zero → keeps P dec → Forall P array → Forall json_utf8 items →
  Forall P (decode_items zero dec array items).1.
Proof.
  intros Hz Hdec Ha Hi. revert array Ha. induction Hi as [|j items Hj _ IH]; intros array Ha; [done|].
  simpl. destruct Ha as [|x xs Hx Hxs].
  - pose proof (Hdec zero j Hz Hj) as H. destruct (dec zero j) as [x ok].
    specialize (IH [] (Forall_nil_2 _)). destruct (decode_items zero dec [] items). by constructor.
  - pose proof (Hdec x j Hx Hj) as H. destruct (dec x j) as [x' ok].
    specialize (IH xs Hxs). destruct (decode_items zero dec xs items). by constructor.
Qed.

Lemma decode_slice_keeps {T} (P : T → Prop) zero (dec : decoder T) :
  P zero → keeps P dec → keeps (λ s, Forall P (sl_array s)) (decode_slice zero dec).
Proof.
  intros Hz Hdec cur j Hc Hj. destruct j as [| | | |items|]; try done.
  rewrite json_utf8_array in Hj. destruct items as [|i items]; [constructor|].
  pose proof (decode_items_keeps P zero dec (sl_array cur) (i :: items) Hz Hdec Hc Hj) as H.
  unfold decode_slice. by destruct (decode_items zero dec (sl_array cur) (i :: items)).
Qed.

Lemma decode_struct_keeps {T} (P : T → Prop) names (field : string → decoder T) :
  (∀ n, keeps P (field n)) → keeps P (decode_struct names field).
Proof.
  intros Hf cur j Hc Hj. destruct j as [| | | | |fields]; try done.
  rewrite json_utf8_object in Hj. unfold decode_struct. generalize true.
  revert cur Hc. induction Hj as [|kv fields [_ Hv] _ IH]; intros cur Hc b; [done|]. simpl.
  destruct (find_field names kv.1) as [n|]; [|by apply IH].
  pose proof (Hf n cur kv.2 Hc Hv) as H. simpl. destruct (field n cur kv.2). by apply IH.
Qed.

(** What [Unmarshal] leaves in a fresh variable. *)
Lemma Unmarshal_keeps {T} (P : T → Prop) zero (dec : decoder T) data v :
  P zero → keeps P dec → Unmarshal zero dec data = Ok v → P v.
Proof.
  intros Hz Hdec. unfold Unmarshal. pose proof (parse_json_utf8 data) as Hj.
  destruct (parse_json data) as [j|]; [|done]. pose proof (Hdec zero j Hz Hj) as H.
  destruct (dec zero j) as [v' []]; [|done]. by intros [= <-].
Qed.
