(* ===== verification/GoRegexp.v ===== *)
(** Package regexp on the fragment of its syntax that policies use: literals,
    the classes of a bracket or a backslash, '.', groups, alternation, the
    repetitions '*', '+' and '?', '^' and '$'.  [go_Compile] refuses patterns
    outside the fragment, among them counted repetitions, flags and named
    groups.  The matcher works by derivatives and is proved against the
    language of the expression. *)
From S2P Require Import Prelude GoText GoJson GoEnc JsonText Utf8 Policy.
Open Scope string_scope.
Open Scope nat_scope.
Open Scope list_scope.

(** ** Runes *)

(** The rune of the [len] bytes at the head, as [utf8.DecodeRune] has it. *)
Definition rune_of (len : nat) (s : string) : Z :=
  match len, s with
  | 1, String a _ => byte_val a
  | 2, String a (String b _) => ((byte_val a - 192) * 64 + (byte_val b - 128))%Z
  | 3, String a (String b (String c _)) =>
    (((byte_val a - 224) * 64 + (byte_val b - 128)) * 64 + (byte_val c - 128))%Z
  | 4, String a (String b (String c (String d _))) =>
    ((((byte_val a - 240) * 64 + (byte_val b - 128)) * 64 + (byte_val c - 128)) * 64 + (byte_val d - 128))%Z
  | _, _ => ReplacementChar
  end.

(** The runes of a string; a byte that starts no valid sequence is U+FFFD. *)
Fixpoint runes_from (skip : nat) (s : string) : list Z :=
  match s with
  | EmptyString => []
  | String _ s' =>
    match skip with
    | S k => runes_from k s'
    | O => rune_of (utf8_len s) s :: runes_from (Nat.pred (utf8_len s)) s'
    end
  end.

Definition runes (s : string) : list Z := runes_from 0 s.

(** ** Expressions *)

Inductive re :=
  | REmpty
  | RSet (neg : bool) (ranges : list (Z * Z))
  | RCat (r1 r2 : re)
  | RAlt (r1 r2 : re)
  | RStar (r : re)
  | RBegin
  | REnd
  | RNone.

Definition in_set (neg : bool) (ranges : list (Z * Z)) (c : Z) : bool :=
  xorb neg (existsb (λ r, (r.1 <=? c) && (c <=? r.2))%Z ranges).

Definition is_nil {A} (l : list A) : bool := match l with [] => true | _ => false end.

(** [Matches r b w e]: [r] matches the text [w]; [b] tells that nothing comes
    before it, [e] that nothing comes after it. *)
Inductive Matches : re → bool → list Z → bool → Prop :=
  | m_empty b e : Matches REmpty b [] e
  | m_set neg ranges c b e : in_set neg ranges c = true → Matches (RSet neg ranges) b [c] e
  | m_cat r1 r2 b w1 w2 e :
    Matches r1 b w1 (e && is_nil w2) → Matches r2 (b && is_nil w1) w2 e → Matches (RCat r1 r2) b (w1 ++ w2) e
  | m_alt_l r1 r2 b w e : Matches r1 b w e → Matches (RAlt r1 r2) b w e
  | m_alt_r r1 r2 b w e : Matches r2 b w e → Matches (RAlt r1 r2) b w e
  | m_star_nil r b e : Matches (RStar r) b [] e
  | m_star r b w1 w2 e :
    Matches r b w1 (e && is_nil w2) → Matches (RStar r) (b && is_nil w1) w2 e →
    Matches (RStar r) b (w1 ++ w2) e
  | m_begin e : Matches RBegin true [] e
  | m_end b : Matches REnd b [] true.

(** A match anywhere in the text. *)
Definition found (r : re) (s : list Z) : Prop :=
  ∃ pre w post, s = pre ++ w ++ post ∧ Matches r (is_nil pre) w (is_nil post).

(** ** The matcher *)

(** Whether [r] matches nothing, at the start and at the end or not. *)
Fixpoint nullable (r : re) (b e : bool) : bool :=
  match r with
  | REmpty | RStar _ => true
  | RSet _ _ | RNone => false
  | RCat r1 r2 => nullable r1 b e && nullable r2 b e
  | RAlt r1 r2 => nullable r1 b e || nullable r2 b e
  | RBegin => b
  | REnd => e
  end.

(** What is left to match after the rune [c]. *)
Fixpoint derive (r : re) (b : bool) (c : Z) : re :=
  match r with
  | REmpty | RBegin | REnd | RNone => RNone
  | RSet neg ranges => if in_set neg ranges c then REmpty else RNone
  | RCat r1 r2 =>
    if nullable r1 b false then RAlt (RCat (derive r1 b c) r2) (derive r2 b c) else RCat (derive r1 b c) r2
  | RAlt r1 r2 => RAlt (derive r1 b c) (derive r2 b c)
  | RStar r => RCat (derive r b c) (RStar r)
  end.

(** A match that starts here. *)
Fixpoint match_here (r : re) (b : bool) (s : list Z) : bool :=
  nullable r b (is_nil s) ||
  match s with [] => false | c :: s => match_here (derive r b c) false s end.

Fixpoint search (r : re) (b : bool) (s : list Z) : bool :=
  match_here r b s || match s with [] => false | _ :: s => search r false s end.

(** ** The parser *)

Inductive last_item := LNone | LAtom | LRepeat | LLazy.

Inductive mode :=
  | MNorm (last : last_item)
  | MOpen
  | MGroup
  | MEsc
  | MClassStart
  | MClass (neg : bool) (ranges : list (Z * Z)) (pending : option Z) (dash : bool)
  | MClassEsc (neg : bool) (ranges : list (Z * Z)).

Definition rune (c : ascii) : Z := byte_val c.

Definition RLit (c : Z) : re := RSet false [(c, c)].

(** [cat], [alts]: the items and the closed alternatives, in reverse. *)
Definition cat_of (cat : list re) : re :=
  match cat with [] => REmpty | r :: rest => foldl (λ acc x, RCat x acc) r rest end.
Definition alts_of (alts : list re) (cat : list re) : re := foldl (λ acc x, RAlt x acc) (cat_of cat) alts.

Definition digit_ranges : list (Z * Z) := [(48, 57)]%Z.
Definition word_ranges : list (Z * Z) := [(48, 57); (65, 90); (95, 95); (97, 122)]%Z.
Definition space_ranges : list (Z * Z) := [(9, 10); (12, 13); (32, 32)]%Z.

(** The Perl classes. *)
Definition perl_class (c : Z) : option (bool * list (Z * Z)) :=
  if (c =? rune "d")%Z then Some (false, digit_ranges)
  else if (c =? rune "w")%Z then Some (false, word_ranges)
  else if (c =? rune "s")%Z then Some (false, space_ranges)
  else if (c =? rune "D")%Z then Some (true, digit_ranges)
  else if (c =? rune "W")%Z then Some (true, word_ranges)
  else if (c =? rune "S")%Z then Some (true, space_ranges)
  else None.

(** A character that a backslash makes a literal: ASCII, no letter or digit. *)
Definition is_punct (c : Z) : bool :=
  (c <? 128)%Z && negb (in_set false [(48, 57); (65, 90); (97, 122)]%Z c).

(** The repetition [op] of [r]. *)
Definition repeat_of (op : Z) (r : re) : re :=
  if (op =? rune "*")%Z then RStar r
  else if (op =? rune "+")%Z then RCat r (RStar r)
  else RAlt r REmpty.

Definition is_repeat (c : Z) : bool := ((c =? rune "*") || (c =? rune "+") || (c =? rune "?"))%Z.

Definition pend (pending : option Z) (ranges : list (Z * Z)) : list (Z * Z) :=
  match pending with Some c => (c, c) :: ranges | None => ranges end.

(** What a character does outside a class; [last] is the item before it. *)
Definition norm_step (c : Z) (last : last_item) (stack : list (list re * list re)) (alts cat : list re)
    : option (mode * list (list re * list re) * list re * list re) :=
  let atom r := Some (MNorm LAtom, stack, alts, r :: cat) in
  if (c =? rune "(")%Z then Some (MOpen, (alts, cat) :: stack, [], [])
  else if (c =? rune ")")%Z then
    match stack with
    | (alts', cat') :: stack => Some (MNorm LAtom, stack, alts', alts_of alts cat :: cat')
    | [] => None
    end
  else if (c =? rune "|")%Z then Some (MNorm LNone, stack, cat_of cat :: alts, [])
  else if is_repeat c then
    match last, cat with
    | LAtom, r :: cat => Some (MNorm LRepeat, stack, alts, repeat_of c r :: cat)
    | LRepeat, _ => if (c =? rune "?")%Z then Some (MNorm LLazy, stack, alts, cat) else None
    | _, _ => None
    end
  else if (c =? rune ".")%Z then atom (RSet true [(10, 10)%Z])
  else if (c =? rune "^")%Z then atom RBegin
  else if (c =? rune "$")%Z then atom REnd
  else if (c =? rune "[")%Z then Some (MClassStart, stack, alts, cat)
  else if (c =? rune "\")%Z then Some (MEsc, stack, alts, cat)
  else if (c =? rune "{")%Z then None
  else atom (RLit c).

(** A character of a class, after its '[' and '^'. *)
Definition class_step (c : Z) (neg : bool) (ranges : list (Z * Z)) (pending : option Z) (dash : bool)
    : option (mode + re) :=
  if (c =? rune "]")%Z then
    match pend pending ranges with
    | [] => None
    | rs => Some (inr (RSet neg (if dash then (rune "-", rune "-") :: rs else rs)))
    end
  else if (c =? rune "[")%Z then None
  else if (c =? rune "\")%Z then
    if dash then None else Some (inl (MClassEsc neg (pend pending ranges)))
  else match pending, dash with
  | Some lo, true => if (lo <=? c)%Z then Some (inl (MClass neg ((lo, c) :: ranges) None false)) else None
  | Some _, false =>
    if (c =? rune "-")%Z then Some (inl (MClass neg ranges pending true))
    else Some (inl (MClass neg (pend pending ranges) (Some c) false))
  | None, _ => Some (inl (MClass neg ranges (Some c) false))
  end.

Fixpoint parse (s : list Z) (md : mode) (stack : list (list re * list re)) (alts cat : list re) : option re :=
  match s with
  | [] =>
    match md, stack with
    | MNorm _, [] => Some (alts_of alts cat)
    | _, _ => None
    end
  | c :: s =>
    let norm last :=
      '(md, stack, alts, cat) ← norm_step c last stack alts cat; parse s md stack alts cat in
    let class neg ranges pending dash :=
      match class_step c neg ranges pending dash with
      | None => None
      | Some (inl md) => parse s md stack alts cat
      | Some (inr r) => parse s (MNorm LAtom) stack alts (r :: cat)
      end in
    match md with
    | MNorm last => norm last
    | MOpen => if (c =? rune "?")%Z then parse s MGroup stack alts cat else norm LNone
    | MGroup => if (c =? rune ":")%Z then parse s (MNorm LNone) stack alts cat else None
    | MEsc =>
      match perl_class c with
      | Some (neg, ranges) => parse s (MNorm LAtom) stack alts (RSet neg ranges :: cat)
      | None => if is_punct c then parse s (MNorm LAtom) stack alts (RLit c :: cat) else None
      end
    | MClassStart =>
      if (c =? rune "^")%Z then parse s (MClass true [] None false) stack alts cat else class false [] None false
    | MClass neg ranges pending dash => class neg ranges pending dash
    | MClassEsc neg ranges =>
      match perl_class c with
      | Some (false, rs) => parse s (MClass neg (rs ++ ranges) None false) stack alts cat
      | Some (true, _) => None
      | None => if is_punct c then parse s (MClass neg ranges (Some c) false) stack alts cat else None
      end
    end
  end.

Definition go_Compile (pattern : string) : result re :=
  if decide (valid_utf8 pattern) then
    match parse (runes pattern) (MNorm LNone) [] [] [] with
    | Some r => Ok r
    | None => Err "error parsing regexp"
    end
  else Err "error parsing regexp: invalid UTF-8".

Definition go_MatchString (r : re) (s : string) : bool := search r true (runes s).

Definition go_regexp : RegexpLib := {|
  Regexp := re;
  regexp_Compile := go_Compile;
  MatchString := go_MatchString
|}.

(** ** Correctness of the matcher *)

Lemma app_nil_iff {A} (l1 l2 : list A) : l1 ++ l2 = [] ↔ l1 = [] ∧ l2 = [].
Proof. split; [apply app_nil|by intros [-> ->]]. Qed.

(** Matching, by the form of the expression. *)
Lemma matches_empty b w e : Matches REmpty b w e ↔ w = [].
Proof. split; [by inversion 1|intros ->; constructor]. Qed.

Lemma matches_none b w e : ¬ Matches RNone b w e.
Proof. by inversion 1. Qed.

Lemma matches_set neg ranges b w e : Matches (RSet neg ranges) b w e ↔ ∃ c, w = [c] ∧ in_set neg ranges c = true.
Proof. split; [inversion 1; eauto|intros (c&->&?); by constructor]. Qed.

Lemma matches_cat r1 r2 b w e :
  Matches (RCat r1 r2) b w e ↔
  ∃ w1 w2, w = w1 ++ w2 ∧ Matches r1 b w1 (e && is_nil w2) ∧ Matches r2 (b && is_nil w1) w2 e.
Proof. split; [inversion 1; eauto|intros (w1&w2&->&?&?); by constructor]. Qed.

Lemma matches_alt r1 r2 b w e : Matches (RAlt r1 r2) b w e ↔ Matches r1 b w e ∨ Matches r2 b w e.
Proof. split; [inversion 1; auto|intros [?|?]; by constructor]. Qed.

Lemma matches_begin b w e : Matches RBegin b w e ↔ b = true ∧ w = [].
Proof. split; [by inversion 1|intros [-> ->]; constructor]. Qed.

Lemma matches_end b w e : Matches REnd b w e ↔ e = true ∧ w = [].
Proof. split; [by inversion 1|intros [-> ->]; constructor]. Qed.

Lemma nullable_spec r b e : nullable r b e = true ↔ Matches r b [] e.
Proof.
  revert b e. induction r as [|neg rs|r1 IH1 r2 IH2|r1 IH1 r2 IH2|r IH| | |]; intros b e; cbn [nullable].
  - by rewrite matches_empty.
  - rewrite matches_set. split; [done|]. by intros (?&?&_).
  - rewrite matches_cat, andb_true_iff, IH1, IH2. split.
    + intros [H1 H2]. exists [], []. by rewrite !andb_true_r.
    + intros (w1&w2&Hw&H1&H2). symmetry in Hw. apply app_nil_iff in Hw as [-> ->].
      by rewrite andb_true_r in H1, H2.
  - by rewrite matches_alt, orb_true_iff, IH1, IH2.
  - split; [constructor|done].
  - rewrite matches_begin. naive_solver.
  - rewrite matches_end. naive_solver.
  - split; [done|]. by intros ?%matches_none.
Qed.

Lemma star_cons_inv r b c w e :
  Matches (RStar r) b (c :: w) e →
  ∃ w1 w2, w = w1 ++ w2 ∧ Matches r b (c :: w1) (e && is_nil w2) ∧ Matches (RStar r) false w2 e.
Proof.
  remember (RStar r) as r' eqn:Hr. remember (c :: w) as cw eqn:Hw. intros H. revert r w Hr Hw.
  induction H as [| | | | | |r1 b w1 w2 e H1 _ H2 IH2| |]; intros r' v Hr Hw; try discriminate.
  injection Hr as ->. destruct w1 as [|c' w1]; simpl in Hw.
  - rewrite andb_true_r in *. by apply IH2.
  - injection Hw as -> <-. simpl in H2. rewrite andb_false_r in H2. by exists w1, w2.
Qed.

Lemma derive_spec r b c w e : Matches (derive r b c) false w e ↔ Matches r b (c :: w) e.
Proof.
  revert b w e. induction r as [|neg rs|r1 IH1 r2 IH2|r1 IH1 r2 IH2|r IH| | |]; intros b w e; cbn [derive].
  - rewrite matches_empty. by split; [intros ?%matches_none|].
  - rewrite matches_set. destruct (in_set neg rs c) eqn:Hc.
    + rewrite matches_empty. split; [intros ->; by exists c|]. by intros (c'&[= _ ->]&_).
    + split; [by intros ?%matches_none|]. intros (c'&[= <- _]&?). congruence.
  - assert (Hleft : Matches (RCat (derive r1 b c) r2) false w e ↔
      ∃ w1 w2, w = w1 ++ w2 ∧ Matches r1 b (c :: w1) (e && is_nil w2) ∧ Matches r2 (b && is_nil (c :: w1)) w2 e).
    { rewrite matches_cat. setoid_rewrite IH1. simpl. by rewrite andb_false_r. }
    rewrite matches_cat. trans (Matches (RCat (derive r1 b c) r2) false w e ∨
      nullable r1 b false = true ∧ Matches r2 b (c :: w) e).
    { destruct (nullable r1 b false); [rewrite matches_alt, IH2; naive_solver|naive_solver]. }
    rewrite Hleft, nullable_spec. split.
    + intros [(w1&w2&->&H1&H2)|[H1 H2]]; [by exists (c :: w1), w2|].
      exists [], (c :: w). simpl. by rewrite andb_false_r, andb_true_r.
    + intros ([|c' w1]&w2&Hw&H1&H2); simpl in Hw.
      * right. subst w2. simpl in H1, H2. by rewrite andb_false_r in H1; rewrite andb_true_r in H2.
      * injection Hw as <- ->. left. by exists w1, w2.
  - by rewrite !matches_alt, IH1, IH2.
  - rewrite matches_cat. setoid_rewrite IH. split.
    + intros (w1&w2&->&H1&H2). change (c :: w1 ++ w2) with ((c :: w1) ++ w2). constructor; [done|].
      simpl. by rewrite andb_false_r.
    + intros (w1&w2&->&H1&H2)%star_cons_inv. by exists w1, w2.
  - rewrite matches_begin. split; [by intros ?%matches_none|]. by intros [_ ?].
  - rewrite matches_end. split; [by intros ?%matches_none|]. by intros [_ ?].
  - split; by intros ?%matches_none.
Qed.

Lemma match_here_spec r b s :
  match_here r b s = true ↔ ∃ w post, s = w ++ post ∧ Matches r b w (is_nil post).
Proof.
  revert r b. induction s as [|c s IH]; intros r b; cbn [match_here].
  - rewrite orb_false_r, nullable_spec. split; [intros H; by exists [], []|].
    intros (w&post&Hw&H). symmetry in Hw. by apply app_nil_iff in Hw as [-> ->].
  - rewrite orb_true_iff, nullable_spec, IH. setoid_rewrite derive_spec. split.
    + intros [H|(w&post&->&H)]; [by exists [], (c :: s)|by exists (c :: w), post].
    + intros ([|c' w]&post&Hw&H); simpl in Hw; [left; by subst|]. injection Hw as <- ->. right. by exists w, post.
Qed.

(** The matcher finds exactly the texts with a match in them. *)
Lemma search_spec r b s :
  search r b s = true ↔ ∃ pre w post, s = pre ++ w ++ post ∧ Matches r (b && is_nil pre) w (is_nil post).
Proof.
  revert b. induction s as [|c s IH]; intros b; cbn [search].
  - rewrite orb_false_r, match_here_spec. split.
    + intros (w&post&Hw&H). exists [], w, post. by rewrite andb_true_r.
    + intros (pre&w&post&Hw&H). symmetry in Hw. apply app_nil_iff in Hw as [-> Hw].
      exists w, post. by rewrite andb_true_r in H.
  - rewrite orb_true_iff, match_here_spec, IH. split.
    + intros [(w&post&->&H)|(pre&w&post&->&H)]; [exists [], w, post; by rewrite andb_true_r|].
      exists (c :: pre), w, post. split; [done|]. simpl. by rewrite andb_false_r.
    + intros ([|c' pre]&w&post&Hw&H); simpl in Hw, H; [left; exists w, post; by rewrite andb_true_r in H|].
      injection Hw as <- ->. right. exists pre, w, post. split; [done|]. by rewrite andb_false_r in H.
Qed.

Lemma search_found r s : search r true s = true ↔ found r s.
Proof. apply search_spec. Qed.

(** ** ASCII literals *)

Lemma rune_of_ge c s : (128 ≤ byte_val c)%Z → (128 ≤ rune_of (utf8_len (String c s)) (String c s))%Z.
Proof.
  intros Hc. unfold utf8_len. destruct (Z.ltb_spec (byte_val c) 128); [lia|].
  destruct s as [|c1 s2]; [done|]. destruct (in_range 194 223 c) eqn:H2.
  { unfold cont_byte, in_range in *. destruct ((128 <=? byte_val c1) && (byte_val c1 <=? 191))%Z eqn:H1; [|done].
    bool_simp. simpl. lia. }
  destruct s2 as [|c2 s3]; [done|]. cbv zeta.
  fold (ok3 c c1) (ok4 c c1). destruct (ok3 c c1) eqn:H3.
  { destruct (cont_byte c2) eqn:H1; [|done]. unfold ok3, cont_byte, in_range in *. simpl.
    repeat case_match; bool_simp; lia. }
  destruct s3 as [|c3 s4]; [done|].
  destruct (ok4 c c1 && cont_byte c2 && cont_byte c3) eqn:H4; [|done]. bool_simp.
  unfold ok4, cont_byte, in_range in *. simpl. repeat case_match; bool_simp; lia.
Qed.

Lemma byte_val_inj a b : byte_val a = byte_val b → a = b.
Proof.
  unfold byte_val. intros H%N2Z.inj. rewrite <-(Ascii.ascii_N_embedding a), <-(Ascii.ascii_N_embedding b). by f_equal.
Qed.

Lemma runes_ascii c s : (byte_val c < 128)%Z → runes (String c s) = byte_val c :: runes s.
Proof. intros Hc. unfold runes. cbn [runes_from]. by rewrite utf8_len_ascii. Qed.

(** An ASCII rune at the head is an ASCII byte. *)
Lemma runes_cons_inv s x l :
  runes s = x :: l → (x < 128)%Z → ∃ c s', s = String c s' ∧ byte_val c = x ∧ runes s' = l.
Proof.
  destruct s as [|c s]; [done|]. intros H Hx. destruct (Z.ltb_spec (byte_val c) 128) as [Hc|Hc].
  - rewrite runes_ascii in H by done. injection H as <- <-. by exists c, s.
  - unfold runes in H. cbn [runes_from] in H. injection H as <- _. destruct (Zlt_not_le _ _ Hx). by apply rune_of_ge.
Qed.

Lemma runes_nil_inv s : runes s = [] → s = "".
Proof. by destruct s. Qed.

Definition codes (t : string) : list Z := byte_val <$> String.list_ascii_of_string t.

(** The texts whose runes start with those of an ASCII literal. *)
Lemma runes_prefix t s l :
  is_ascii t = true → runes s = codes t ++ l ↔ ∃ s', s = (t +:+ s')%string ∧ runes s' = l.
Proof.
  unfold codes. revert s. induction t as [|c t IH]; intros s Ht.
  - simpl. split; [intros H; by exists s|by intros (s'&->&?)].
  - simpl in Ht. apply andb_true_iff in Ht as [Hc%Z.ltb_lt Ht]. csimpl. split.
    + intros H. apply runes_cons_inv in H as (c'&s'&->&Hb&H); [|done].
      apply byte_val_inj in Hb as ->. apply IH in H as (s''&->&?); [|done]. by exists s''.
    + intros (s'&->&Hl). rewrite string_app_cons, runes_ascii by done. f_equal. apply IH; [done|]. by exists s'.
Qed.

Lemma runes_literal t s : is_ascii t = true → runes s = codes t ↔ s = t.
Proof.
  intros Ht. pose proof (runes_prefix t s [] Ht) as H. rewrite app_nil_r in H. rewrite H. split.
  - intros (s'&->&->%runes_nil_inv). apply string_app_nil_r.
  - intros ->. exists "". by rewrite string_app_nil_r.
Qed.

Lemma matches_lit c b w e : Matches (RLit c) b w e ↔ w = [c].
Proof.
  unfold RLit. rewrite matches_set. unfold in_set. simpl. split.
  - intros (c'&->&H). f_equal. rewrite orb_false_r in H. bool_simp. lia.
  - intros ->. exists c. split; [done|]. by rewrite Z.leb_refl.
Qed.

(** The expression of a literal text. *)
Fixpoint lits (cs : list Z) (r : re) : re :=
  match cs with [] => r | c :: cs => RCat (RLit c) (lits cs r) end.

Lemma matches_lits cs r b w e :
  cs ≠ [] → Matches (lits cs r) b w e ↔ ∃ w', w = cs ++ w' ∧ Matches r false w' e.
Proof.
  revert b w. induction cs as [|c cs IH]; intros b w Hne; [done|]. cbn [lits]. rewrite matches_cat.
  setoid_rewrite matches_lit. destruct cs as [|c' cs].
  - simpl. split.
    + intros (w1&w2&->&->&H). simpl in H. rewrite andb_false_r in H. by exists w2.
    + intros (w'&->&H). exists [c], w'. simpl. by rewrite andb_false_r.
  - setoid_rewrite IH; [|done]. split.
    + intros (w1&w2&->&->&w'&->&H). by exists w'.
    + intros (w'&->&H). exists [c], ((c' :: cs) ++ w'). split; [done|]. split; [done|]. by exists w'.
Qed.
