(* ===== verification/JsonIndent.v ===== *)
(** What the indenting encoder writes is read back by the scanner: the line
    breaks and spaces between the tokens are skipped. *)
From S2P Require Import Prelude GoText GoJson GoEnc JsonText.
Open Scope string_scope.
Open Scope nat_scope.
Open Scope list_scope.

Definition json_of_entry (kv : string * body_value) : string * json :=
  (coerce_utf8 0 kv.1, coerce_json (json_of_body kv.2)).

Lemma ends_newline : ends_number newline. Proof. by intros []. Qed.

Lemma reads_body v : reads (marshal_value v) (coerce_json (json_of_body v)) 0.
Proof.
  assert (marshal_value v = print_json (json_of_body v)) as -> by (by destruct v as [[]| |]).
  assert (json_depth (json_of_body v) = 0) as <- by (by destruct v).
  apply reads_print. destruct v; [done|done|]. apply integer_literal.
Qed.

(** Space before a key is skipped. *)
Lemma scan_indent t k :
  scan_bytes (String newline ("  " +:+ t))%string (k, SBeginString) = scan_bytes t (k, SBeginString).
Proof. reflexivity. Qed.

Lemma scan_indent_first t k :
  scan_bytes (String newline ("  " +:+ t))%string (k, SBeginStringOrEmpty) =
  scan_bytes t (k, SBeginStringOrEmpty).
Proof. reflexivity. Qed.

Lemma indent_field_app kv t :
  (indent_field kv +:+ t)%string =
  String newline ("  " +:+ (marshal_string kv.1 +:+ (": " +:+ (marshal_value kv.2 +:+ t))))%string.
Proof. unfold indent_field. by rewrite (string_app_cons newline), <-!string_app_assoc. Qed.

(** One field, with the byte that ends it. *)
Lemma scan_indent_field kv c acc k :
  ends_number c → (Z.of_nat (length k + 1) ≤ maxNestingDepth)%Z →
  scan_bytes (indent_field kv +:+ String c "")%string (FKey acc :: k, SBeginString) =
  end_value c (FNext (json_of_entry kv :: acc) :: k, SEndValue).
Proof.
  intros Hc Hd. rewrite indent_field_app.
  rewrite scan_indent, scan_bytes_app, scan_string by auto.
  change (scan_bytes (marshal_value kv.2 +:+ String c "")%string
    (FValue acc (coerce_utf8 0 kv.1) :: k, SBeginValue) =
    end_value c (FNext (json_of_entry kv :: acc) :: k, SEndValue)).
  destruct (reads_body kv.2) as [_ He]. by rewrite He by (done || (simpl; lia)).
Qed.

Lemma scan_indent_fields fields k acc :
  fields ≠ [] → (Z.of_nat (length k + 1) ≤ maxNestingDepth)%Z →
  scan_bytes (Join (indent_field <$> fields) "," +:+ String newline "}")%string (FKey acc :: k, SBeginString) =
  finish_value (JObject (rev acc ++ (json_of_entry <$> fields))) k.
Proof.
  intros Hne Hd. revert acc. induction fields as [|kv fields IH]; intros acc; [done|].
  destruct fields as [|kv' fields].
  - change (Join (indent_field <$> [kv]) "," +:+ String newline "}")%string
      with (indent_field kv +:+ (String newline "" +:+ "}"))%string.
    rewrite string_app_assoc, scan_bytes_app, scan_indent_field by (done || apply ends_newline).
    simpl. by destruct (finish_value _ k).
  - change (Join (indent_field <$> kv :: kv' :: fields) ",") with
      (indent_field kv +:+ ("," +:+ Join (indent_field <$> kv' :: fields) ","))%string.
    match goal with |- context [((?x +:+ ("," +:+ ?y)) +:+ ?z)%string] =>
      replace ((x +:+ ("," +:+ y)) +:+ z)%string with ((x +:+ String "," "") +:+ (y +:+ z))%string
        by (by rewrite <-!string_app_assoc) end.
    rewrite scan_bytes_app, scan_indent_field by (done || apply ends_comma).
    etransitivity; [exact (IH ltac:(done) (json_of_entry kv :: acc))|]. simpl. by rewrite <-app_assoc.
Qed.

(** The encoder's text is the object of its entries, in their order. *)
Lemma parse_Encode fields : parse_json (Encode fields) = Some (JObject (json_of_entry <$> fields)).
Proof.
  unfold parse_json. rewrite scan_end. destruct fields as [|kv fields]; [reflexivity|].
  unfold Encode. rewrite string_app_cons, scan_bytes_cons.
  change (scan_step "{" ([], SBeginValue)) with (Some ([FKey []], SBeginStringOrEmpty)). cbn [mbind option_bind].
  set (body := Join (indent_field <$> kv :: fields) ",").
  replace ((body +:+ String newline (String "}" (String newline ""))) +:+ " ")%string
    with ((body +:+ String newline "}") +:+ String newline " ")%string by (by rewrite <-!string_app_assoc).
  assert (∃ t, (body +:+ String newline "}")%string = (String newline ("  " +:+ (marshal_string kv.1 +:+ t)))%string)
    as [t Ht].
  { subst body. csimpl. cbn [Join].
    destruct (indent_field <$> fields); rewrite <-?string_app_assoc, indent_field_app; by eexists. }
  rewrite scan_bytes_app.
  assert (scan_bytes (body +:+ String newline "}") ([FKey []], SBeginStringOrEmpty) =
    scan_bytes (body +:+ String newline "}") ([FKey []], SBeginString)) as ->.
  { rewrite Ht, scan_indent, scan_indent_first. apply scan_key_solid. }
  subst body. rewrite scan_indent_fields by (done || vm_compute; done). reflexivity.
Qed.
