(* ===== verification/ExtAuthz.v ===== *)
(** examples/envoy-jwt/extauthz/main.go: the Envoy ext_authz adapter.

    Envoy's and gRPC's generated types are read through their nil-safe getters
    only, so a request is the values the getters give.  The engine client is an
    argument. *)
From S2P Require Import Prelude GoText GoJson GoEnc AuthzPb Policy LiteralRegexp Store Operators Engine.
Open Scope string_scope.
Open Scope nat_scope.
Open Scope list_scope.

(** What the adapter reads of an authv3.CheckRequest: the HTTP headers, path
    and method, and the source socket address. *)
Record CheckRequest := mkCheckRequest {
  cr_headers : GoMap string;
  cr_path : string;
  cr_method : string;
  cr_source_address : string
}.

Record jwtClaims := mkClaims {
  jc_Subject : string;
  jc_Email : string;
  jc_Groups : list string
}.

(** The errors of [extractClaims]; [Error] is their text.  The causes are texts
    of the standard library. *)
Inductive claims_error :=
  | PayloadHeaderMissing (header : string)
  | PayloadNotBase64 (cause : string)
  | PayloadNotJSON (cause : string)
  | SubjectMissing.

(** [json.Unmarshal] into a [jwtClaims], by its tags. *)
Record claims_var := mkClaimsVar { kv_sub : string; kv_email : string; kv_groups : slice string }.

Definition decode_claims : decoder claims_var :=
  decode_struct ["sub"; "email"; "groups"] (λ name cur j,
    if String.eqb name "sub" then
      let '(s, ok) := decode_string (kv_sub cur) j in (mkClaimsVar s (kv_email cur) (kv_groups cur), ok)
    else if String.eqb name "email" then
      let '(s, ok) := decode_string (kv_email cur) j in (mkClaimsVar (kv_sub cur) s (kv_groups cur), ok)
    else
      let '(g, ok) := decode_slice "" decode_string (kv_groups cur) j in
      (mkClaimsVar (kv_sub cur) (kv_email cur) g, ok)).

Definition Unmarshal_claims (data : string) : result jwtClaims :=
  (λ v, mkClaims (kv_sub v) (kv_email v) (slice_list (kv_groups v))) <$>
  Unmarshal (mkClaimsVar "" "" nil_slice) decode_claims data.

Section WithUnicode.
Context `{UNI : UnicodeLib}.

Definition Error (e : claims_error) : string :=
  match e with
  | PayloadHeaderMissing header =>
    ("verified JWT payload header " +:+ Quote header +:+ " not present")%string
  | PayloadNotBase64 cause => ("JWT payload is not valid base64url: " +:+ cause)%string
  | PayloadNotJSON cause => ("JWT payload is not valid JSON: " +:+ cause)%string
  | SubjectMissing => "JWT payload missing 'sub' claim"
  end.

(** The range loop of [lookupHeader] over the headers in some order. *)
Fixpoint lookup_folded (lk : string) (entries : list (string * string)) : option string :=
  match entries with
  | [] => None
  | (k, v) :: rest => if String.eqb (ToLower k) lk then Some v else lookup_folded lk rest
  end.

Definition lookupHeader (o : RangeOrder string) (headers : GoMap string) (key : string)
    : option string :=
  match map_index headers key with
  | Some v => Some v
  | None =>
    match headers with
    | None => None
    | Some m => lookup_folded (ToLower key) (o m)
    end
  end.

Definition extractClaims (o : RangeOrder string) (payloadHeader : string) (headers : GoMap string)
    : jwtClaims + claims_error :=
  match lookupHeader o headers payloadHeader with
  | None => inr (PayloadHeaderMissing payloadHeader)
  | Some raw =>
    let dec := match RawURLEncoding_DecodeString raw with
               | Ok d => Ok d
               | Err _ => URLEncoding_DecodeString raw
               end in
    match dec with
    | Err err => inr (PayloadNotBase64 err)
    | Ok data =>
      match Unmarshal_claims data with
      | Err err => inr (PayloadNotJSON err)
      | Ok claims => if String.eqb (jc_Subject claims) "" then inr SubjectMissing else inl claims
      end
    end
  end.

Definition demoClaimMap : gmap string (list string) :=
  {[ "alice@bouncer.dev" := ["admin"];
     "bob@bouncer.dev" := ["user"];
     "carol@bouncer.dev" := ["admin"; "finance"];
     "mallory@bouncer.dev" := ["blocked"] ]}.

Definition enrichRoles (c : jwtClaims) : list string :=
  if (0 <? length (jc_Groups c)) then jc_Groups c
  else match demoClaimMap !! ToLower (jc_Email c) with
       | Some roles => roles
       | None => []
       end.

Definition actionForMethod (method : string) : string :=
  let m := ToUpper method in
  if String.eqb m "GET" || String.eqb m "HEAD" || String.eqb m "OPTIONS" then "READ" else "WRITE".

Definition sourceIP (req : CheckRequest) : string :=
  if String.eqb (cr_source_address req) "" then "0.0.0.0" else cr_source_address req.

(** ** Responses *)

Inductive StatusCode := Unauthorized | Forbidden | ServiceUnavailable.

Definition httpStatusCode (status : Z) : StatusCode :=
  if (status =? 401)%Z then Unauthorized
  else if (status =? 403)%Z then Forbidden
  else if (status =? 503)%Z then ServiceUnavailable
  else Forbidden.

(** A HeaderValueOption: only the header is set. *)
Definition mutableHeader (key value : string) : string * string := (key, value).

Inductive http_response :=
  | OkResponse (headers : list (string * string))
  | DeniedResponse (status : StatusCode) (body : string) (headers : list (string * string)).

Definition codes_OK : Z := 0.
Definition codes_PermissionDenied : Z := 7.

Record CheckResponse := mkCheckResponse { ck_Code : Z; ck_HttpResponse : http_response }.

(** [denyJSON]: the body's entries are listed in key order. *)
Definition denyJSON (httpStatus : Z) (body : list (string * body_value)) : CheckResponse :=
  mkCheckResponse codes_PermissionDenied
    (DeniedResponse (httpStatusCode httpStatus) (Marshal body)
      [mutableHeader "content-type" "application/json"]).

(** ** [Check] *)

Definition authz_request (claims : jwtClaims) (req : CheckRequest) : CheckAccessRequest := {|
  q_PrincipalId := jc_Subject claims;
  q_PrincipalAttributes := attr_singleton "role" (enrichRoles claims);
  q_ResourceType := "httpbin";
  q_ResourceId := cr_path req;
  q_ResourceAttributes := attr_singleton "path" [cr_path req];
  q_Action := actionForMethod (cr_method req);
  q_EnvironmentAttributes := attr_singleton "ip_address" [sourceIP req]
|}.

(** The client call: a possibly nil response, or an error. *)
Definition Client : Type := CheckAccessRequest → result (option CheckAccessResponse).

Definition Check (o : RangeOrder string) (payloadHeader : string) (client : Client)
    (req : CheckRequest) : CheckResponse :=
  match extractClaims o payloadHeader (cr_headers req) with
  | inr err =>
    denyJSON 401 [("allowed", BBool false); ("reason", BString (Error err))]
  | inl claims =>
    let roles := enrichRoles claims in
    match client (authz_request claims req) with
    | Err _ =>
      denyJSON 503 [("allowed", BBool false); ("reason", BString "authorization engine unavailable")]
    | Ok resp =>
      if negb (GetAllowed resp) then
        denyJSON 403 [("allowed", BBool false);
                      ("evaluation_time_ns", BInt (GetEvaluationTimeNs resp));
                      ("matched_policy_id", BString (GetMatchedPolicyId resp));
                      ("reason", BString (GetReason resp))]
      else
        mkCheckResponse codes_OK
          (OkResponse [mutableHeader "x-user" (jc_Subject claims);
                       mutableHeader "x-email" (jc_Email claims);
                       mutableHeader "x-roles" (Join roles ",")])
    end
  end.

(** ** Specification *)

(** The response lets the request through. *)
Definition permits (r : CheckResponse) : Prop :=
  ck_Code r = codes_OK ∧ ∃ headers, ck_HttpResponse r = OkResponse headers.

Definition denies (r : CheckResponse) (s : StatusCode) : Prop :=
  ck_Code r = codes_PermissionDenied ∧ ∃ body headers, ck_HttpResponse r = DeniedResponse s body headers.

(** ** Lemmas *)

Lemma lookup_folded_Some lk entries v :
  lookup_folded lk entries = Some v → ∃ k, (k, v) ∈ entries ∧ ToLower k = lk.
Proof.
  induction entries as [|[k w] entries IH]; simpl; [done|].
  destruct (String.eqb_spec (ToLower k) lk).
  - intros [= ->]. exists k. split; [left|done].
  - intros (k'&?&?)%IH. exists k'. split; [by right|done].
Qed.

Lemma lookup_folded_None lk entries :
  lookup_folded lk entries = None ↔ ∀ k v, (k, v) ∈ entries → ToLower k ≠ lk.
Proof.
  induction entries as [|[k w] entries IH]; simpl; [set_solver|].
  destruct (String.eqb_spec (ToLower k) lk).
  - split; [done|]. intros H. exfalso. eapply H; [left|done].
  - rewrite IH. split.
    + intros H k' v [[= -> ->]|?]%elem_of_cons; eauto.
    + intros H k' v Hin. eapply H. by right.
Qed.

Lemma lookupHeader_spec o headers key :
  match lookupHeader o headers key with
  | Some v => ∃ k, map_index headers k = Some v ∧ (k = key ∨ (map_index headers key = None ∧ ToLower k = ToLower key))
  | None => ∀ k v, map_index headers k = Some v → k ≠ key ∧ ToLower k ≠ ToLower key
  end.
Proof.
  unfold lookupHeader. destruct (map_index headers key) as [v|] eqn:Hk; [by exists key; auto|].
  destruct headers as [m|]; [|done]. simpl in *.
  destruct (lookup_folded (ToLower key) (o m)) as [v|] eqn:Hl.
  - apply lookup_folded_Some in Hl as (k&Hin&Hlow). apply elem_of_range in Hin. eauto.
  - intros k v Hkv. split; [congruence|]. eapply lookup_folded_None; [exact Hl|].
    by apply elem_of_range.
Qed.

(** Accepted claims: read from the payload header, with a subject. *)
Lemma extractClaims_inl o payloadHeader headers claims :
  extractClaims o payloadHeader headers = inl claims →
  (∃ k raw data, map_index headers k = Some raw ∧
    (k = payloadHeader ∨ (map_index headers payloadHeader = None ∧ ToLower k = ToLower payloadHeader)) ∧
    (RawURLEncoding_DecodeString raw = Ok data ∨
     ((∃ e, RawURLEncoding_DecodeString raw = Err e) ∧ URLEncoding_DecodeString raw = Ok data)) ∧
    Unmarshal_claims data = Ok claims) ∧
  jc_Subject claims ≠ "".
Proof.
  unfold extractClaims. pose proof (lookupHeader_spec o headers payloadHeader) as Hl.
  destruct (lookupHeader _ _ _) as [raw|]; [|done]. destruct Hl as (k&Hk&Hname).
  destruct (RawURLEncoding_DecodeString raw) as [d|e] eqn:Hraw;
    [|destruct (URLEncoding_DecodeString raw) as [d|e'] eqn:Hpad; [|done]];
    (destruct (Unmarshal_claims d) as [c|] eqn:Hu; [|done]);
    (destruct (String.eqb_spec (jc_Subject c) "") as [|Hs]; [done|]);
    intros [= <-]; (split; [|done]); exists k, raw, d; eauto 8.
Qed.

Lemma actionForMethod_READ method :
  actionForMethod method = "READ" ↔ ToUpper method ∈ ["GET"; "HEAD"; "OPTIONS"].
Proof.
  unfold actionForMethod. rewrite !elem_of_cons, elem_of_nil.
  destruct (String.eqb_spec (ToUpper method) "GET"), (String.eqb_spec (ToUpper method) "HEAD"),
    (String.eqb_spec (ToUpper method) "OPTIONS"); simpl; naive_solver.
Qed.

Lemma Check_permits o payloadHeader client req :
  permits (Check o payloadHeader client req) ↔
  ∃ claims resp, extractClaims o payloadHeader (cr_headers req) = inl claims ∧
    client (authz_request claims req) = Ok resp ∧ GetAllowed resp = true.
Proof.
  unfold Check, permits.
  destruct (extractClaims _ _ _) as [claims|err]; [destruct (client _) as [resp|err] eqn:Hcl|];
    [destruct (GetAllowed resp) eqn:Ha|..]; simpl; split.
  - intros _. by exists claims, resp.
  - intros _. split; [done|by eexists].
  - by intros [? _].
  - intros (c&r&[= <-]&Hr&?). congruence.
  - by intros [? _].
  - intros (c&r&[= <-]&Hr&?). congruence.
  - by intros [? _].
  - by intros (?&?&?&_).
Qed.

(** ** Properties *)

(** C25: the adapter fails closed.  It lets a request through exactly when the
    verified payload yields claims with a subject, the engine answers, and the
    answer allows; it then forwards the subject, email and roles.  Otherwise it
    denies: 401 without usable claims, 503 when the engine call fails, 403 when
    the engine does not allow (a nil answer included). *)
Theorem Check_fail_closed o payloadHeader client req :
  let r := Check o payloadHeader client req in
  (permits r ↔ ∃ claims resp, extractClaims o payloadHeader (cr_headers req) = inl claims ∧
     client (authz_request claims req) = Ok resp ∧ GetAllowed resp = true) ∧
  match extractClaims o payloadHeader (cr_headers req) with
  | inr _ => denies r Unauthorized
  | inl claims =>
    match client (authz_request claims req) with
    | Err _ => denies r ServiceUnavailable
    | Ok resp =>
      if GetAllowed resp then
        ck_HttpResponse r = OkResponse [("x-user", jc_Subject claims); ("x-email", jc_Email claims);
                                        ("x-roles", Join (enrichRoles claims) ",")]
      else denies r Forbidden
    end
  end.
Proof.
  split; [apply Check_permits|]. unfold Check, denies.
  destruct (extractClaims _ _ _) as [claims|err]; [destruct (client _) as [resp|err]|];
    [destruct (GetAllowed resp)|..]; simpl; eauto.
Qed.

(** C37: what the engine is asked.  The accepted claims are the ones the
    payload header carries: the header of exactly that name, or one that differs
    from it in case only when that one is absent; its value decodes as unpadded
    base64url, or else as padded base64url, and the bytes are the claims' JSON.
    Their subject is not empty and is the principal; the role attribute is the
    groups claim when it is not empty and else the demo map's entry for the
    lower-cased email; the resource is the httpbin path, also its path
    attribute; the action is READ for GET, HEAD and OPTIONS in any case and
    WRITE otherwise; the environment is the source address, 0.0.0.0 when there
    is none. *)
Theorem authz_request_mapping o payloadHeader req claims :
  extractClaims o payloadHeader (cr_headers req) = inl claims →
  (∃ k raw data, map_index (cr_headers req) k = Some raw ∧
    (k = payloadHeader ∨
     (map_index (cr_headers req) payloadHeader = None ∧ ToLower k = ToLower payloadHeader)) ∧
    (RawURLEncoding_DecodeString raw = Ok data ∨
     ((∃ e, RawURLEncoding_DecodeString raw = Err e) ∧ URLEncoding_DecodeString raw = Ok data)) ∧
    Unmarshal_claims data = Ok claims) ∧
  let q := authz_request claims req in
  q_PrincipalId q = jc_Subject claims ∧ jc_Subject claims ≠ "" ∧
  q_PrincipalAttributes q = attr_singleton "role"
    (match jc_Groups claims with
     | [] => default [] (demoClaimMap !! ToLower (jc_Email claims))
     | groups => groups
     end) ∧
  q_ResourceType q = "httpbin" ∧ q_ResourceId q = cr_path req ∧
  q_ResourceAttributes q = attr_singleton "path" [cr_path req] ∧
  (q_Action q = "READ" ↔ ToUpper (cr_method req) ∈ ["GET"; "HEAD"; "OPTIONS"]) ∧
  (q_Action q ≠ "READ" → q_Action q = "WRITE") ∧
  (∃ ip, q_EnvironmentAttributes q = attr_singleton "ip_address" [ip] ∧
    (cr_source_address req = "" → ip = "0.0.0.0") ∧
    (cr_source_address req ≠ "" → ip = cr_source_address req)).
Proof.
  intros Hc. apply extractClaims_inl in Hc as (Hread&Hsub). split; [exact Hread|].
  simpl. split_and!; try done.
  - unfold enrichRoles. by destruct (jc_Groups claims); [destruct (demoClaimMap !! _)|].
  - apply actionForMethod_READ.
  - unfold actionForMethod. by case_match.
  - exists (sourceIP req). unfold sourceIP.
    destruct (String.eqb_spec (cr_source_address req) ""); done.
Qed.

(** Without a source address the adapter reports 0.0.0.0, which IN_CIDR
    accepts for 0.0.0.0/0 and 0.0.0.0/8: the condition can match. *)
Theorem sourceIP_absent_matches req :
  cr_source_address req = "" →
  sourceIP req = "0.0.0.0" ∧
  evalInCIDR ["0.0.0.0/0"] [sourceIP req] = true ∧ evalInCIDR ["0.0.0.0/8"] [sourceIP req] = true ∧
  evalInCIDR ["0.0.0.0/0"] [""] = false.
Proof. intros H. unfold sourceIP. rewrite H. split_and!; [done|by vm_compute..]. Qed.

End WithUnicode.

(** ** Witnesses *)

(** Unicode tables that leave non-ASCII strings alone, for evaluation. *)
Definition ascii_unicode : UnicodeLib := {| unicode_ToLower := id; unicode_ToUpper := id; unicode_Quote := id |}.

(** The payload of a token of carol, padded. *)
Definition carol_request : CheckRequest :=
  mkCheckRequest (Some {["x-jwt-payload" := "eyJzdWIiOiJ1LTEiLCJlbWFpbCI6IkNhcm9sQGJvdW5jZXIuZGV2In0="]})
    "/get" "get" "10.1.2.3".

Definition carol_claims : jwtClaims := mkClaims "u-1" "Carol@bouncer.dev" [].

Lemma carol_claims_ok :
  extractClaims (UNI := ascii_unicode) canonical_order "x-jwt-payload" (cr_headers carol_request) =
    inl carol_claims.
Proof. vm_compute. reflexivity. Qed.

Lemma authz_request_mapping_witness :
  let q := authz_request (UNI := ascii_unicode) carol_claims carol_request in
  q_PrincipalAttributes q = attr_singleton "role" ["admin"; "finance"] ∧
  q_Action q = "READ" ∧ q_PrincipalId q = jc_Subject carol_claims.
Proof.
  intros q.
  pose proof (authz_request_mapping (UNI := ascii_unicode) canonical_order "x-jwt-payload"
    carol_request carol_claims carol_claims_ok) as (_&H1&_&H2&_).
  split; [|split; [vm_compute; reflexivity|exact H1]].
  etransitivity; [exact H2|]. vm_compute. reflexivity.
Defined.

Lemma sourceIP_absent_matches_witness :
  sourceIP (mkCheckRequest None "/" "GET" "") = "0.0.0.0" ∧
  evalInCIDR ["0.0.0.0/0"] ["0.0.0.0"] = true.
Proof.
  destruct (sourceIP_absent_matches (mkCheckRequest None "/" "GET" "") eq_refl) as (H1&H2&_).
  split; [exact H1|exact H2].
Defined.

(** End to end on an engine that refuses: the denial is JSON with its fields in
    key order. *)
Example carol_denied :
  Check (UNI := ascii_unicode) canonical_order "x-jwt-payload"
    (λ _, Ok (Some (mkCheckAccessResponse false "p<1>" "no" 7))) carol_request =
  mkCheckResponse 7 (DeniedResponse Forbidden
    (map_bytes (λ c, if Ascii.eqb c "'" then dquote else c)
      "{'allowed':false,'evaluation_time_ns':7,'matched_policy_id':'p\u003c1\u003e','reason':'no'}")
    [("content-type", "application/json")]).
Proof. vm_compute. reflexivity. Qed.
