(* ===== verification/Pep.v ===== *)
(** examples/httpbin/pep/main.go: the HTTP enforcement point in front of
    httpbin.  The engine client and the reverse proxy are outside; the handler
    either writes a JSON denial or hands the request to the proxy. *)
From S2P Require Import Prelude GoText GoJson GoEnc AuthzPb.
Open Scope string_scope.
Open Scope nat_scope.
Open Scope list_scope.

(** What the handler reads of an http.Request. *)
Record Request := mkHttpRequest {
  h_Header : GoMap (list string);
  h_Method : string;
  h_Path : string;
  h_RemoteAddr : string
}.

(** [Header.Get] and [Header.Values] with a key in canonical form. *)
Definition Header_Values (h : GoMap (list string)) (key : string) : list string :=
  default [] (map_index h key).
Definition Header_Get (h : GoMap (list string)) (key : string) : string :=
  default "" (head (Header_Values h key)).

Definition clientIP (r : Request) : string :=
  match SplitHostPort (h_RemoteAddr r) with
  | Err _ => h_RemoteAddr r
  | Ok (host, _) => host
  end.

Section WithUnicode.
Context `{UNI : UnicodeLib}.

Definition actionForMethod (method : string) : string :=
  let m := ToUpper method in
  if String.eqb m "GET" || String.eqb m "HEAD" || String.eqb m "OPTIONS" then "READ" else "WRITE".

Definition principal_of (r : Request) : string :=
  let principalID := Header_Get (h_Header r) "X-User" in
  if String.eqb principalID "" then "anonymous" else principalID.

Definition pep_request (r : Request) : CheckAccessRequest := {|
  q_PrincipalId := principal_of r;
  q_PrincipalAttributes := attr_singleton "role" (Header_Values (h_Header r) "X-Role");
  q_ResourceType := "httpbin";
  q_ResourceId := h_Path r;
  q_ResourceAttributes := None;
  q_Action := actionForMethod (h_Method r);
  q_EnvironmentAttributes := attr_singleton "ip_address" [clientIP r]
|}.

(** What the handler does with the connection: [writeJSON] of a status and a
    body, or [proxy.ServeHTTP]. *)
Inductive handled_request :=
  | WroteJSON (status : Z) (body : list (string * body_value))
  | Proxied.

(** The response [writeJSON] writes. *)
Record http_response := mkHttpResponse {
  hr_status : Z;
  hr_Header : list (string * string);
  hr_body : string
}.

Definition writeJSON (status : Z) (body : list (string * body_value)) : http_response :=
  mkHttpResponse status [("Content-Type", "application/json")] (Encode (map_entries body)).

Definition response (h : handled_request) : option http_response :=
  match h with
  | WroteJSON status body => Some (writeJSON status body)
  | Proxied => None
  end.

Definition handler (client : CheckAccessRequest → result (option CheckAccessResponse)) (r : Request)
    : handled_request :=
  match client (pep_request r) with
  | Err _ =>
    WroteJSON 503 [("allowed", BBool false); ("reason", BString "authorization engine unavailable")]
  | Ok resp =>
    if negb (GetAllowed resp) then
      WroteJSON 403 [("allowed", BBool false); ("reason", BString (GetReason resp));
                     ("matched_policy_id", BString (GetMatchedPolicyId resp));
                     ("evaluation_time_ns", BInt (GetEvaluationTimeNs resp))]
    else Proxied
  end.

(** ** Lemmas *)

Lemma handler_proxied client r :
  handler client r = Proxied ↔ ∃ resp, client (pep_request r) = Ok resp ∧ GetAllowed resp = true.
Proof.
  unfold handler. destruct (client (pep_request r)) as [resp|e].
  - destruct (GetAllowed resp) eqn:Ha; simpl.
    + split; [|done]. intros _. by exists resp.
    + split; [done|]. intros (?&[= <-]&?). congruence.
  - split; [done|]. by intros (?&?&_).
Qed.

End WithUnicode.

Lemma has_byte_app c s t : has_byte c (s +:+ t)%string = has_byte c s || has_byte c t.
Proof.
  induction s as [|d s IH]; [done|]. rewrite string_app_cons. simpl. by rewrite IH, orb_assoc.
Qed.

Lemma CutLast_none s sep : has_byte sep s = false → CutLast s sep = None.
Proof.
  induction s as [|d s IH]; simpl; [done|]. intros H. bool_simp. rewrite IH by done.
  by destruct (Ascii.eqb d sep).
Qed.

Lemma CutLast_app s sep t :
  has_byte sep t = false → CutLast (s +:+ String sep t)%string sep = Some (s, t).
Proof.
  intros Ht. induction s as [|d s IH].
  - rewrite string_app_nil. simpl. by rewrite CutLast_none, Ascii.eqb_refl by done.
  - rewrite string_app_cons. simpl. by rewrite IH.
Qed.

Lemma Cut_app s sep t :
  has_byte sep s = false → Cut (s +:+ String sep t)%string sep = Some (s, t).
Proof.
  induction s as [|d s IH]; intros H.
  - rewrite string_app_nil. simpl. by rewrite Ascii.eqb_refl.
  - rewrite string_app_cons. simpl in *. bool_simp. destruct (Ascii.eqb d sep); [done|].
    by rewrite IH.
Qed.

(** ** Properties *)

(** C26: the enforcement point fails closed: it proxies a request exactly when
    the engine answered and allowed it; an engine error gives 503 and a
    refusal (a nil answer included) 403, both with an "allowed": false body.
    The engine is asked about the X-User header or "anonymous", every X-Role
    value, the path, and READ exactly for GET, HEAD and OPTIONS. *)
Theorem handler_fail_closed `{UnicodeLib} client r :
  (handler client r = Proxied ↔
     ∃ resp, client (pep_request r) = Ok resp ∧ GetAllowed resp = true) ∧
  (handler client r ≠ Proxied → ∃ status rest,
     handler client r = WroteJSON status (("allowed", BBool false) :: rest) ∧
     (status = 503%Z ↔ ∃ e, client (pep_request r) = Err e) ∧ (status = 503 ∨ status = 403)%Z) ∧
  (q_PrincipalId (pep_request r) ≠ "") ∧
  (q_Action (pep_request r) = "READ" ↔ ToUpper (h_Method r) ∈ ["GET"; "HEAD"; "OPTIONS"]) ∧
  (q_Action (pep_request r) = "READ" ∨ q_Action (pep_request r) = "WRITE").
Proof.
  split; [apply handler_proxied|]. split_and!.
  - unfold handler. destruct (client (pep_request r)) as [resp|e]; [destruct (GetAllowed resp)|];
      simpl; [done|..]; intros _; eexists _, _; split_and!; naive_solver.
  - simpl. unfold principal_of. destruct (String.eqb_spec (Header_Get (h_Header r) "X-User") ""); done.
  - simpl. unfold actionForMethod. rewrite !elem_of_cons, elem_of_nil.
    destruct (String.eqb_spec (ToUpper (h_Method r)) "GET"),
      (String.eqb_spec (ToUpper (h_Method r)) "HEAD"),
      (String.eqb_spec (ToUpper (h_Method r)) "OPTIONS"); simpl; naive_solver.
  - simpl. unfold actionForMethod. case_match; auto.
Qed.

(** The client address is the host of "host:port" and of "[host]:port"
    (colons allowed inside the brackets), and the whole RemoteAddr when it has
    no colon. *)
Theorem clientIP_correct h m path host port :
  has_byte "[" host = false → has_byte "]" host = false →
  has_byte ":" port = false → has_byte "[" port = false → has_byte "]" port = false →
  (has_byte ":" host = false →
   clientIP (mkHttpRequest h m path (host +:+ String ":" port)) = host ∧
   clientIP (mkHttpRequest h m path host) = host) ∧
  clientIP (mkHttpRequest h m path (String "[" (host +:+ String "]" (String ":" port)))) = host.
Proof.
  intros Hl Hr Hc Hpl Hpr. unfold clientIP, SplitHostPort; cbn [h_RemoteAddr]. split.
  - intros Hcol. rewrite CutLast_app, (CutLast_none host) by done. split; [|done].
    assert (Hb : has_byte "[" (host +:+ String ":" port) = false)
      by (rewrite has_byte_app; simpl; by rewrite Hl).
    assert (Hb' : has_byte "]" (host +:+ String ":" port) = false)
      by (rewrite has_byte_app; simpl; by rewrite Hr).
    rewrite Hcol, Hb, Hb'. destruct host as [|c host]; [done|].
    rewrite string_app_cons. simpl in Hl. bool_simp.
    destruct c as [[] [] [] [] [] [] [] []]; done.
  - change (String "[" (host +:+ String "]" (String ":" port)))%string with
      (String "[" host +:+ String "]" (String ":" port))%string.
    replace (String "[" host +:+ String "]" (String ":" port))%string with
      ((String "[" (host +:+ "]")) +:+ String ":" port)%string
      by (rewrite !string_app_cons, <-string_app_assoc; done).
    rewrite CutLast_app by done. cbn [String.append].
    rewrite string_app_cons, <-string_app_assoc. cbn [String.append].
    rewrite string_app_cons, string_app_nil, Cut_app by done.
    rewrite String.eqb_refl, has_byte_app. simpl. by rewrite Hl, Hpl, Hpr.
Qed.

(** ** Witness *)

Lemma clientIP_correct_witness :
  clientIP (mkHttpRequest None "GET" "/" "10.0.0.7:51000") = "10.0.0.7" ∧
  clientIP (mkHttpRequest None "GET" "/" "[2001:db8::1]:443") = "2001:db8::1".
Proof.
  split.
  - exact (proj1 (proj1 (clientIP_correct None "GET" "/" "10.0.0.7" "51000"
      eq_refl eq_refl eq_refl eq_refl eq_refl) eq_refl)).
  - exact (proj2 (clientIP_correct None "GET" "/" "2001:db8::1" "443"
      eq_refl eq_refl eq_refl eq_refl eq_refl)).
Defined.
