(* ===== verification/System.v ===== *)
(** The system end to end: a policy published on the stream, consumed by the
    subscriber, decides what the enforcement points let through. *)
From S2P Require Import Prelude GoText GoJson GoEnc Policy LiteralRegexp Store Operators Engine AuditQueue AuthzPb Server Subscriber PolicyJson ExtAuthz Pep.
Open Scope string_scope.
Open Scope nat_scope.
Open Scope list_scope.

Section WithRegexp.
Context `{RE : RegexpLib} `{DEC : !PolicyDecoder} `{UNI : UnicodeLib}.

(** The engine as a client sees it: the service's answer, its error, or a
    broken connection when the server process panics. *)
Definition rpc_client (listed : result PolicySnapshot) (start now : Z) (os : AttrOrders)
    (hint : nat) (l : AuditLogger) : Client := λ req,
  match Server.CheckAccess listed start now os hint req l with
  | RpcPanic => Err "connection error"
  | RpcReturn _ (Some e) _ => Err e
  | RpcReturn resp None _ => Ok resp
  end.

(** The policies [m] grant the request: one with access ALLOW applies, and
    none with access DENY does. *)
Definition policies_grant (m : PolicyMap) (q : CheckAccessRequest) : Prop :=
  (∃ id p, m !! id = Some p ∧ p_Access p = AccessAllow ∧ proto_applies p q) ∧
  (∀ id p, m !! id = Some p → p_Access p = AccessDeny → ¬ proto_applies p q).

(** ** Lemmas *)

Lemma rpc_client_grants ps m oa od start now os hint l q :
  represents ps m → live_map m → lg_closed l = false →
  (∃ resp, rpc_client (ListActivePolicies oa od ps) start now os hint l q = Ok resp ∧
     GetAllowed resp = true) ↔ policies_grant m q.
Proof.
  intros Hrep Hlive Hopen. unfold rpc_client, Server.CheckAccess.
  pose proof (represents_granted ps m oa od (eval_request os q) Hrep) as Hg.
  destruct (ListActivePolicies oa od ps) as [snap|] eqn:Hl; [|done].
  rewrite (granted_time snap start now) in Hg.
  assert (Hpol : policies_grant m q ↔
    (∃ id p, m !! id = Some p ∧ p_Access p = AccessAllow ∧ policy_applies p (eval_request os q)) ∧
    (∀ id p, m !! id = Some p → p_Access p ≠ AccessAllow → ¬ policy_applies p (eval_request os q))).
  { unfold policies_grant. setoid_rewrite <-(proto_applies_iff os).
    split; intros [? Hno]; (split; [done|]); intros id p Hp Hacc.
    - apply (Hno id p Hp). by destruct (Hlive _ _ Hp) as (_&[?|?]&_).
    - apply (Hno id p Hp). by rewrite Hacc. }
  rewrite Hpol, <-Hg. clear Hpol Hg.
  destruct (Engine.CheckAccess (Ok snap) start now _) as [ev|e].
  - pose proof (LogDecision_open hint (audit_record q ev) l Hopen) as Ho.
    assert ((∃ resp, Ok (Some (proto_response ev)) = Ok resp ∧ GetAllowed resp = true) ↔
      ∃ resp, Ok ev = Ok resp ∧ e_Allowed resp = true) as <-.
    { split; [intros (?&[= <-]&?); by exists ev|]. intros (?&[= <-]&?). by eexists. }
    by destruct (LogDecision hint (audit_record q ev) l).
  - split; by intros (?&?&?).
Qed.

(** ** Property *)

(** End to end.  With the store a subscriber has built from the first [n]
    entries of a stream, and an audit logger that has not been stopped, the
    HTTP enforcement point proxies a request exactly when the policies those
    entries denote grant it, and the ext_authz adapter permits one exactly when
    moreover its claims are accepted. *)
Theorem stream_to_enforcement log its oa od start now os hint l o payloadHeader r cr :
  stream_ids_ok log → redis_run log its (mkSub "0" NewPolicyStore) → lg_closed l = false →
  let ps := ss_store (loop_sub (Subscriber.Start its NewPolicyStore)) in
  let m := stream_policies (take (deliveries its (mkSub "0" NewPolicyStore)) log) in
  let client := rpc_client (ListActivePolicies oa od ps) start now os hint l in
  (handler client r = Proxied ↔ policies_grant m (pep_request r)) ∧
  (permits (Check o payloadHeader client cr) ↔
   ∃ claims, extractClaims o payloadHeader (cr_headers cr) = inl claims ∧
     policies_grant m (authz_request claims cr)).
Proof.
  intros Hok Hrun Hopen ps m client.
  destruct (replay log its _ 0 Hok (at_position_start log) Hrun) as (_&_&Hrep). simpl in Hrep.
  pose proof (stream_policies_live (take (deliveries its (mkSub "0" NewPolicyStore)) log)) as Hlive.
  fold m in Hrep, Hlive.
  assert (Hq : ∀ q, (∃ resp, client q = Ok resp ∧ GetAllowed resp = true) ↔ policies_grant m q).
  { intros q. by apply rpc_client_grants. }
  split.
  - rewrite handler_proxied. apply Hq.
  - rewrite Check_permits. split.
    + intros (claims&resp&Hc&Hr). exists claims. split; [done|]. apply Hq. eauto.
    + intros (claims&Hc&Hg). apply Hq in Hg as (resp&?&?). by exists claims, resp.
Qed.

End WithRegexp.

(** ** The httpbin example *)

(** examples/httpbin/policies, without their descriptions. *)
Definition staff_read : string := jtext
  "{'id':'pol-allow-staff-read','access':'ALLOW','target':{'resource_type':'httpbin','action':'READ'},'conditions':[{'attribute':'principal.role','operator':'CONTAINS_ANY','value':['admin','user']}]}".
Definition blocked_read : string := jtext
  "{'id':'pol-deny-blocked-read','access':'DENY','target':{'resource_type':'httpbin','action':'READ'},'conditions':[{'attribute':'principal.role','operator':'CONTAINS_ANY','value':['blocked']}]}".

Definition httpbin_log : list XMessage :=
  [mkXMessage "1-0" (xa_Values (publish_args StreamKey ActionUpsert "pol-allow-staff-read" staff_read));
   mkXMessage "2-0" (xa_Values (publish_args StreamKey ActionUpsert "pol-deny-blocked-read" blocked_read))].

Definition httpbin_run : list iteration := omap (λ n, reads <$> httpbin_log !! n) [0; 1].

Definition http_get (roles : list string) : Request :=
  mkHttpRequest (Some {["X-User" := ["alice"]; "X-Role" := roles]}) "get" "/anything" "10.0.0.9:5000".

Definition httpbin_client (l : AuditLogger) : Client :=
  rpc_client (ListActivePolicies canonical_order reversed_order
    (ss_store (loop_sub (Subscriber.Start httpbin_run NewPolicyStore)))) 10 20 canonical_orders 0 l.

Example httpbin_decisions :
  let handle := handler (UNI := ascii_unicode) (httpbin_client (NewAuditLogger 8)) in
  handle (http_get ["user"]) = Proxied ∧
  handle (http_get ["admin"; "blocked"]) =
    WroteJSON 403 [("allowed", BBool false); ("reason", BString reason_deny);
                   ("matched_policy_id", BString "pol-deny-blocked-read");
                   ("evaluation_time_ns", BInt 10)] ∧
  handle (mkHttpRequest None "DELETE" "/" "10.0.0.9:5000") =
    WroteJSON 403 [("allowed", BBool false); ("reason", BString reason_default);
                   ("matched_policy_id", BString ""); ("evaluation_time_ns", BInt 10)].
Proof. split_and!; vm_compute; reflexivity. Qed.

Lemma httpbin_ids_ok : stream_ids_ok httpbin_log.
Proof. split; apply (bool_decide_unpack _); vm_compute; exact I. Qed.

Lemma httpbin_run_ok : redis_run httpbin_log httpbin_run (mkSub "0" NewPolicyStore).
Proof. apply redis_run_b_run. vm_compute. reflexivity. Qed.

Lemma stream_to_enforcement_witness :
  policies_grant (stream_policies (take (deliveries httpbin_run (mkSub "0" NewPolicyStore)) httpbin_log))
    (pep_request (UNI := ascii_unicode) (http_get ["user"])).
Proof.
  pose proof (stream_to_enforcement (UNI := ascii_unicode) httpbin_log httpbin_run canonical_order
    reversed_order 10 20 canonical_orders 0 (NewAuditLogger 8) canonical_order "x-jwt-payload"
    (http_get ["user"]) carol_request httpbin_ids_ok httpbin_run_ok eq_refl) as [H _].
  apply H. vm_compute. reflexivity.
Defined.
