(* ===== verification/Seed.v ===== *)
(** loadtest/seed/main.go and cmd/mock-publisher/main.go: publish a fixed set of
    policies, then probe the engine until it allows or five seconds have
    passed.  The Redis and gRPC clients and the clock are arguments. *)
From S2P Require Import Prelude GoText GoJson Policy LiteralRegexp Store Operators Engine AuditQueue AuthzPb Server Subscriber PolicyJson ExtAuthz System.
Open Scope string_scope.
Open Scope nat_scope.
Open Scope list_scope.

Definition BouncerTarget (getenv : string → string) : string :=
  let target := getenv "BOUNCER_TARGET" in
  if String.eqb target "" then "localhost:50051" else target.

(** The policies of the load test, with their raw JSON. *)
Definition seed_policies : list (string * string) :=
  [("allow-secops", jtext
      "{'id':'allow-secops','description':'Allow SecurityAdmin read of production-db-backup from corp CIDR during business hours','access':'ALLOW','target':{'resource_type':'production-db-backup','action':'READ'},'conditions':[{'attribute':'principal.roles','operator':'CONTAINS_ANY','value':['SecurityAdmin']},{'attribute':'environment.ip_address','operator':'IN_CIDR','value':['10.0.0.0/8']},{'attribute':'environment.hour','operator':'BETWEEN','value':['8','18']}]}");
   ("deny-contractor", jtext
      "{'id':'deny-contractor','description':'Explicitly deny contractors access to production-db-backup','access':'DENY','target':{'resource_type':'production-db-backup','action':'READ'},'conditions':[{'attribute':'principal.roles','operator':'CONTAINS_ANY','value':['Contractor']}]}");
   ("allow-dashboard", jtext
      "{'id':'allow-dashboard','description':'Allow admins to read the dashboard','access':'ALLOW','target':{'resource_type':'dashboard','action':'READ'},'conditions':[{'attribute':'principal.role','operator':'EQUALS','value':['admin']}]}")].

(** The probe requests of the two programs. *)
Definition seed_probe : CheckAccessRequest :=
  mkCheckAccessRequest "usr-1" (attr_singleton "roles" ["SecurityAdmin"]) "production-db-backup" ""
    None "READ"
    (Some {["ip_address" := Some (mkAttributeValues ["10.4.4.10"]);
            "hour" := Some (mkAttributeValues ["12"])]}).

Definition mock_probe : CheckAccessRequest :=
  mkCheckAccessRequest "usr-1" (attr_singleton "role" ["admin"]) "dashboard" "" None "READ" None.

(** How a program ends: success with the allowing response, [os.Exit(1)], or
    still polling when the observed polls run out. *)
Inductive outcome :=
  | Succeeded (resp : CheckAccessResponse)
  | Exit1
  | Polling.

Definition probe_timeout : Z := 5000000000.
Definition probe_pause : Z := 20000000.

(** The probe loop: each poll is the client's answer and the clock reading
    after it. *)
Fixpoint probe_loop (deadline : Z) (polls : list (result CheckAccessResponse * Z)) : outcome :=
  match polls with
  | [] => Polling
  | (answer, now) :: polls =>
    match answer with
    | Ok resp =>
      if a_Allowed resp then Succeeded resp
      else if (deadline <? now)%Z then Exit1 else probe_loop deadline polls
    | Err _ => if (deadline <? now)%Z then Exit1 else probe_loop deadline polls
    end
  end.

(** The publishing loop of the seeder: the calls made, and whether one failed. *)
Fixpoint publish_policies (XAdd : XAddArgs → option string) (policies : list (string * string))
    : list XAddArgs * bool :=
  match policies with
  | [] => ([], false)
  | (id, json) :: policies =>
    let args := publish_args StreamKey ActionUpsert id json in
    match Publish XAdd StreamKey ActionUpsert id json with
    | Some _ => ([args], true)
    | None => let '(calls, failed) := publish_policies XAdd policies in (args :: calls, failed)
    end
  end.

(** [main] of the seeder: the gRPC channel is dialled first.  [start] is the
    clock when the probing begins. *)
Definition seed_main (dial : string → option string) (getenv : string → string)
    (XAdd : XAddArgs → option string) (start : Z) (polls : list (result CheckAccessResponse * Z))
    : list XAddArgs * outcome :=
  match dial (BouncerTarget getenv) with
  | Some _ => ([], Exit1)
  | None =>
    let '(calls, failed) := publish_policies XAdd seed_policies in
    if failed then (calls, Exit1) else (calls, probe_loop (start + probe_timeout) polls)
  end.

(** [main] of the mock publisher: it publishes before it dials. *)
Definition mock_main (dial : string → option string) (getenv : string → string)
    (XAdd : XAddArgs → option string) (start : Z) (polls : list (result CheckAccessResponse * Z))
    : list XAddArgs * outcome :=
  let args := publish_args StreamKey ActionUpsert "pol-mock-001" mock_policy_json in
  match Publish XAdd StreamKey ActionUpsert "pol-mock-001" mock_policy_json with
  | Some _ => ([args], Exit1)
  | None =>
    match dial (BouncerTarget getenv) with
    | Some _ => ([args], Exit1)
    | None => ([args], probe_loop (start + probe_timeout) polls)
    end
  end.

(** ** Lemmas *)

(** The clock advances by at least the pause between two polls. *)
Fixpoint paced (last : Z) (polls : list (result CheckAccessResponse * Z)) : Prop :=
  match polls with
  | [] => True
  | (_, now) :: polls => (last <= now)%Z ∧ paced (now + probe_pause) polls
  end.

Lemma probe_loop_ends deadline last polls :
  paced last polls → (deadline < last + probe_pause * Z.of_nat (pred (length polls)))%Z →
  (0 < length polls)%nat → probe_loop deadline polls ≠ Polling.
Proof.
  revert last. induction polls as [|[answer now] polls IH]; simpl; intros last Hp Hd Hl; [lia|].
  destruct Hp as [Hnow Hp].
  assert (Hrest : (now <= deadline)%Z → probe_loop deadline polls ≠ Polling).
  { intros Hle. destruct polls as [|poll polls]; [simpl in Hd; unfold probe_pause in Hd; lia|].
    eapply IH; [exact Hp| |simpl; lia]. simpl in *. unfold probe_pause in *. lia. }
  destruct answer as [resp|err]; [destruct (a_Allowed resp); [done|]|];
    destruct (Z.ltb_spec deadline now); auto.
Qed.

Lemma probe_loop_Succeeded deadline polls resp :
  probe_loop deadline polls = Succeeded resp →
  a_Allowed resp = true ∧ ∃ now, (Ok resp, now) ∈ polls.
Proof.
  induction polls as [|[answer now] polls IH]; simpl; [done|].
  assert (Hrest : probe_loop deadline polls = Succeeded resp →
    a_Allowed resp = true ∧ ∃ n, (Ok resp, n) ∈ (answer, now) :: polls).
  { intros H. destruct (IH H) as (?&n&?). split; [done|]. exists n. by right. }
  destruct answer as [r|err]; [destruct (a_Allowed r) eqn:Ha|].
  - intros [= <-]. split; [done|]. exists now. left.
  - destruct (deadline <? now)%Z; [done|auto].
  - destruct (deadline <? now)%Z; [done|auto].
Qed.

(** ** Properties *)

(** The probe loop ends.  If the clock advances by at least the 20 ms pause
    between polls, 252 polls are enough: the loop succeeds or exits with an
    error; and it succeeds only on an answer that allows. *)
Theorem probe_loop_terminates start polls :
  paced start polls → (252 <= length polls)%nat →
  probe_loop (start + probe_timeout) polls ≠ Polling ∧
  ∀ resp, probe_loop (start + probe_timeout) polls = Succeeded resp →
    a_Allowed resp = true ∧ ∃ now, (Ok resp, now) ∈ polls.
Proof.
  intros Hp Hl. split; [|intros resp; apply probe_loop_Succeeded].
  eapply probe_loop_ends; [exact Hp| |lia]. unfold probe_timeout, probe_pause. lia.
Qed.

(** ** The seeded engine *)

(** The stream after the seeder's calls, with Redis IDs. *)
Definition entries_of (calls : list XAddArgs) : list XMessage :=
  imap (λ n args, mkXMessage (pretty (S n) +:+ "-0")%string (xa_Values args)) calls.

Definition seed_log : list XMessage :=
  entries_of (fst (publish_policies (λ _, None) seed_policies)).

Definition seed_run : list iteration := omap (λ n, reads <$> seed_log !! n) [0; 1; 2].

Definition seeded_store : PolicyStore := ss_store (loop_sub (Subscriber.Start seed_run NewPolicyStore)).

Definition seeded_client : Client :=
  rpc_client (ListActivePolicies canonical_order canonical_order seeded_store) 0 1
    canonical_orders 0 (NewAuditLogger 10).

(** A contractor who is also a security administrator. *)
Definition contractor_probe : CheckAccessRequest :=
  mkCheckAccessRequest "usr-2" (attr_singleton "roles" ["SecurityAdmin"; "Contractor"])
    "production-db-backup" "" None "READ" (q_EnvironmentAttributes seed_probe).

Lemma seeded_represents : represents seeded_store (stream_policies seed_log).
Proof.
  assert (stream_ids_ok seed_log) as Hids by (split; apply (bool_decide_unpack _); vm_compute; exact I).
  assert (redis_run seed_log seed_run (mkSub "0" NewPolicyStore)) as Hrun
    by (apply redis_run_b_run; vm_compute; reflexivity).
  destruct (replay seed_log seed_run _ 0 Hids (at_position_start _) Hrun) as (_&_&Hrep).
  replace (0 + deliveries seed_run (mkSub "0" NewPolicyStore)) with 3 in Hrep by (vm_compute; reflexivity).
  replace (take 3 seed_log) with seed_log in Hrep by (vm_compute; reflexivity).
  exact Hrep.
Qed.

(** The seeder publishes what its probe expects.  In any environment, with
    Redis and the engine reachable, its three calls leave on the stream
    policies that grant the probe request, and that refuse the same request
    from a principal who is also a contractor. *)
Theorem seeder_probe_granted getenv start polls :
  let '(calls, result) := seed_main (λ _, None) getenv (λ _, None) start polls in
  let m := stream_policies (entries_of calls) in
  result = probe_loop (start + probe_timeout) polls ∧ length calls = 3 ∧
  policies_grant m seed_probe ∧ ¬ policies_grant m contractor_probe.
Proof.
  change (seed_main (λ _, None) getenv (λ _, None) start polls) with
    (fst (publish_policies (λ _, None) seed_policies), probe_loop (start + probe_timeout) polls).
  cbn beta iota. fold seed_log.
  pose proof (λ q, rpc_client_grants seeded_store (stream_policies seed_log) canonical_order
    canonical_order 0 1 canonical_orders 0 (NewAuditLogger 10) q seeded_represents
    (stream_policies_live seed_log) eq_refl) as Hg.
  split; [reflexivity|]. split; [vm_compute; reflexivity|]. split.
  - apply Hg. eexists (Some (mkCheckAccessResponse true "allow-secops" reason_allow 1)).
    split; [vm_compute; reflexivity|reflexivity].
  - rewrite <-Hg. intros (resp&Hr&Ha).
    assert (rpc_client (ListActivePolicies canonical_order canonical_order seeded_store) 0 1
      canonical_orders 0 (NewAuditLogger 10) contractor_probe =
      Ok (Some (mkCheckAccessResponse false "deny-contractor" reason_deny 1))) as Hc
      by (vm_compute; reflexivity).
    rewrite Hc in Hr. injection Hr as <-. discriminate Ha.
Qed.

(** ** Witness *)

Definition refusals (n : nat) : list (result CheckAccessResponse * Z) :=
  (λ k, (Err "unavailable", Z.of_nat k * probe_pause)%Z) <$> seq 0 n.

Fixpoint paced_b (last : Z) (polls : list (result CheckAccessResponse * Z)) : bool :=
  match polls with
  | [] => true
  | (_, now) :: polls => (last <=? now)%Z && paced_b (now + probe_pause) polls
  end.

Lemma paced_b_paced last polls : paced_b last polls = true → paced last polls.
Proof.
  revert last. induction polls as [|[? now] polls IH]; simpl; intros last; [done|].
  intros H. bool_simp. auto.
Qed.

Lemma probe_loop_terminates_witness :
  length (refusals 252) = 252 ∧ probe_loop (0 + probe_timeout) (refusals 252) ≠ Polling.
Proof.
  split; [vm_compute; reflexivity|].
  refine (proj1 (probe_loop_terminates 0 (refusals 252) _ _)).
  - apply paced_b_paced. vm_compute. reflexivity.
  - vm_compute. lia.
Defined.
