(* ===== verification/Wire.v ===== *)
(** The program's JSON on the wire: a policy written as JSON and published is
    stored as it was, and the body of a denial is a JSON object a client can
    read. *)
From S2P Require Import Prelude GoText GoJson Policy LiteralRegexp Store Operators Engine Subscriber PolicyJson GoEnc JsonText JsonIndent AuthzPb ExtAuthz Pep.
Open Scope string_scope.
Open Scope nat_scope.
Open Scope list_scope.

(** ** Specification *)

Section WithRegexp.
Context `{RE : RegexpLib}.

(** The JSON value of the struct tags of [store.Policy]; compiled expressions
    have the tag [json:"-"]. *)
Definition condition_json (c : Condition) : json :=
  JObject [("attribute", JString (c_Attribute c)); ("operator", JString (c_Operator c));
           ("value", JArray (JString <$> c_Value c))].

Definition target_json (t : Target) : json :=
  JObject [("resource_type", JString (t_ResourceType t)); ("action", JString (t_Action t))].

Definition policy_json (p : Policy) : json :=
  JObject [("id", JString (p_ID p)); ("description", JString (p_Description p));
           ("access", JString (p_Access p)); ("target", target_json (p_Target p));
           ("conditions", JArray (condition_json <$> p_Conditions p))].

Definition policy_text (p : Policy) : string := print_json (policy_json p).

(** The slice of given items. *)
Definition slice_of {T} (xs : list T) : slice T :=
  match xs with [] => nil_slice | _ => mkSlice xs (length xs) end.

(** What of a policy the text carries: its strings as valid UTF-8, and no
    compiled expression. *)
Definition wire_condition (c : Condition) : Condition :=
  mkCondition (coerce_utf8 0 (c_Attribute c)) (coerce_utf8 0 (c_Operator c))
    (coerce_utf8 0 <$> c_Value c) None.

Definition wire_policy (p : Policy) : Policy :=
  mkPolicy (coerce_utf8 0 (p_ID p)) (coerce_utf8 0 (p_Description p)) (coerce_utf8 0 (p_Access p))
    (mkTarget (coerce_utf8 0 (t_ResourceType (p_Target p))) (coerce_utf8 0 (t_Action (p_Target p))))
    (wire_condition <$> p_Conditions p).

(** A policy of valid UTF-8 whose compiled expressions are those of its REGEX
    conditions: what the subscriber's store holds. *)
Definition condition_valid (c : Condition) : Prop :=
  valid_utf8 (c_Attribute c) ∧ valid_utf8 (c_Operator c) ∧ Forall valid_utf8 (c_Value c) ∧
  condition_compiled c ∧ (regex_pattern c = None → c_CompiledRegex c = None).

Definition policy_valid (p : Policy) : Prop :=
  valid_utf8 (p_ID p) ∧ valid_utf8 (p_Description p) ∧
  (p_Access p = AccessAllow ∨ p_Access p = AccessDeny) ∧
  valid_utf8 (t_ResourceType (p_Target p)) ∧ valid_utf8 (t_Action (p_Target p)) ∧
  Forall condition_valid (p_Conditions p).

(** ** Lemmas *)

Lemma decode_items_map {X T} (zero : T) (dec : decoder T) (f : X → json) (g : X → T) xs :
  (∀ x, dec zero (f x) = (g x, true)) →
  decode_items zero dec [] (f <$> xs) = (g <$> xs, true).
Proof. intros H. induction xs as [|x xs IH]; [done|]. csimpl. by rewrite H, IH. Qed.

Lemma decode_slice_map {X T} (zero : T) (dec : decoder T) (f : X → json) (g : X → T) xs :
  (∀ x, dec zero (f x) = (g x, true)) →
  decode_slice zero dec nil_slice (JArray (f <$> xs)) = (slice_of (g <$> xs), true).
Proof.
  intros H. destruct xs as [|x xs]; [done|]. unfold decode_slice. cbn [sl_array nil_slice].
  rewrite (decode_items_map zero dec f g) by done. csimpl. by rewrite !length_fmap.
Qed.

Lemma slice_list_of {T} (xs : list T) : slice_list (slice_of xs) = xs.
Proof. destruct xs as [|x xs]; [done|]. unfold slice_list. cbn. by rewrite take_ge. Qed.

Definition condition_var (c : Condition) : ConditionVar :=
  mkConditionVar (coerce_utf8 0 (c_Attribute c)) (coerce_utf8 0 (c_Operator c))
    (slice_of (coerce_utf8 0 <$> c_Value c)).

Lemma decode_condition_json c :
  decode_Condition zero_ConditionVar (coerce_json (condition_json c)) = (condition_var c, true).
Proof.
  change (coerce_json (condition_json c)) with
    (JObject [("attribute", JString (coerce_utf8 0 (c_Attribute c)));
              ("operator", JString (coerce_utf8 0 (c_Operator c)));
              ("value", JArray (coerce_json <$> (JString <$> c_Value c)))]).
  rewrite <-list_fmap_compose.
  pose proof (decode_slice_map "" decode_string (coerce_json ∘ JString) (coerce_utf8 0) (c_Value c)
    (λ _, eq_refl)) as Hv.
  unfold decode_Condition, decode_struct. cbn [foldl find_field].
  cbn -[decode_slice]. rewrite Hv. reflexivity.
Qed.

(** A policy's text has no numbers and nests four levels. *)
Lemma policy_json_numbers p : numbers_ok (policy_json p).
Proof.
  simpl. repeat (constructor; [exact I|]). constructor; [by repeat constructor|].
  constructor; [|constructor]. unfold id. simpl. rewrite !Forall_fmap. apply Forall_true. intros c.
  simpl. repeat (constructor; [exact I|]). constructor; [|constructor].
  unfold id. rewrite !Forall_fmap. by apply Forall_true.
Qed.

Lemma max_list_bound {X} (f : X → nat) n xs : (∀ x, f x ≤ n) → max_list (List.map f xs) ≤ n.
Proof. intros H. induction xs as [|x xs IH]; simpl; [lia|]. pose proof (H x). lia. Qed.

Lemma policy_json_depth p : json_depth (policy_json p) ≤ 4.
Proof.
  assert (Hc : ∀ c, json_depth (condition_json c) ≤ 2).
  { intros c. simpl. rewrite List.map_map.
    pose proof (max_list_bound (λ x : string, json_depth (JString x)) 0 (c_Value c) (λ _, le_n 0)). lia. }
  simpl. rewrite List.map_map.
  pose proof (max_list_bound (json_depth ∘ condition_json) 2 (p_Conditions p) Hc) as H.
  unfold compose in H. lia.
Qed.

Lemma decode_policy_text p : Unmarshal_Policy (policy_text p) = Ok (wire_policy p).
Proof.
  change (Unmarshal_Policy (policy_text p)) with
    (policy_of_var <$> Unmarshal zero_PolicyVar decode_Policy (policy_text p)).
  unfold Unmarshal, policy_text. rewrite parse_print; [| |].
  - change (coerce_json (policy_json p)) with
      (JObject [("id", JString (coerce_utf8 0 (p_ID p)));
                ("description", JString (coerce_utf8 0 (p_Description p)));
                ("access", JString (coerce_utf8 0 (p_Access p)));
                ("target", JObject [("resource_type", JString (coerce_utf8 0 (t_ResourceType (p_Target p))));
                                    ("action", JString (coerce_utf8 0 (t_Action (p_Target p))))]);
                ("conditions", JArray (coerce_json <$> (condition_json <$> p_Conditions p)))]).
    rewrite <-list_fmap_compose.
    pose proof (decode_slice_map zero_ConditionVar decode_Condition (coerce_json ∘ condition_json)
      condition_var (p_Conditions p) decode_condition_json) as Hc.
    unfold decode_Policy, decode_struct. cbn -[decode_slice decode_Condition coerce_json].
    rewrite Hc. unfold wire_policy, policy_of_var. cbn. rewrite slice_list_of, <-list_fmap_compose.
    do 2 f_equal. apply list_fmap_ext. intros _ c _. unfold wire_condition, condition_var. cbn.
    by rewrite slice_list_of.
  - apply policy_json_numbers.
  - pose proof (policy_json_depth p). unfold maxNestingDepth. lia.
Qed.

(** Compiling what the wire carries restores the expressions. *)
Lemma compile_wire_conditions id cs :
  Forall condition_valid cs → compile_conditions id (wire_condition <$> cs) = (cs, None).
Proof.
  induction 1 as [|c cs (Ha&Ho&Hv&Hc&Hn) _ IH]; [done|]. csimpl. rewrite IH.
  assert (Hvs : coerce_utf8 0 <$> c_Value c = c_Value c).
  { clear -Hv. induction Hv as [|v vs Hv _ IHv]; [done|]. csimpl. by rewrite Hv, IHv. }
  assert (Hp : regex_pattern (wire_condition c) = regex_pattern c).
  { unfold regex_pattern. cbn. by rewrite Ho, Hvs. }
  unfold condition_compiled in Hc. rewrite Hp.
  unfold wire_condition, with_regex. cbn. rewrite Ha, Ho, Hvs.
  destruct (regex_pattern c) as [pat|].
  - destruct Hc as (re&->&Hre). destruct c; cbn in *. by rewrite Hre.
  - specialize (Hn eq_refl). destruct c; cbn in *. by rewrite Hn.
Qed.

Lemma Compile_wire p : policy_valid p → Compile (wire_policy p) = (p, None).
Proof.
  intros (H1&H2&Ha&H3&H4&Hc).
  assert (H5 : coerce_utf8 0 (p_Access p) = p_Access p) by (by destruct Ha as [->| ->]).
  rewrite Compile_unfold. unfold wire_policy, with_conditions. cbn.
  rewrite compile_wire_conditions, H1, H2, H3, H4, H5 by done. cbn.
  by destruct p as [? ? ? [] ?].
Qed.

Lemma wire_entry_update id p :
  policy_valid p →
  entry_update (xa_Values (publish_args StreamKey ActionUpsert id (policy_text p))) = Some (SetPolicy p).
Proof.
  intros Hp. assert (Hacc : p_Access (wire_policy p) = AccessAllow ∨ p_Access (wire_policy p) = AccessDeny).
  { destruct Hp as (_&_&[Ha|Ha]&_); [left|right]; cbn; by rewrite Ha. }
  rewrite publish_update, decide_False, decide_True, decode_policy_text, decide_True, Compile_wire by done.
  reflexivity.
Qed.

(** The entries that publish the policies [l] under the IDs [ids]. *)
Definition upsert_values (ids : list string) (l : list Policy) : list EntryValues :=
  zip_with (λ id p, xa_Values (publish_args StreamKey ActionUpsert id (policy_text p))) ids l.

Lemma upsert_values_updates ids l log :
  Forall policy_valid l → length ids = length l → xm_Values <$> log = upsert_values ids l →
  omap (λ e, entry_update (xm_Values e)) log = SetPolicy <$> l.
Proof.
  intros Hall. revert ids log. induction Hall as [|p l Hp Hall IH]; intros [|id ids] [|e log] Hlen H; try done.
  injection Hlen as Hlen.
  change (xm_Values e :: (xm_Values <$> log) =
    xa_Values (publish_args StreamKey ActionUpsert id (policy_text p)) :: upsert_values ids l) in H.
  injection H as He H. 
  pose proof (wire_entry_update id p Hp) as Hu.
  change (xm_Values e = xa_Values (publish_args StreamKey ActionUpsert id (policy_text p))) in He.
  rewrite <-He in Hu. csimpl. rewrite Hu. f_equal. by apply (IH ids).
Qed.

(** Inserting policies of a map, and all of them, gives the map. *)
Lemma insert_policies (m : PolicyMap) l acc :
  acc ⊆ m → (∀ p, p ∈ l → m !! p_ID p = Some p) →
  foldl apply_update acc (SetPolicy <$> l) ⊆ m ∧
  ∀ p, p ∈ l ∨ acc !! p_ID p = Some p → foldl apply_update acc (SetPolicy <$> l) !! p_ID p = Some p.
Proof.
  revert acc. induction l as [|p l IH]; intros acc Hacc Hl; csimpl; [set_solver|].
  assert (Hp : m !! p_ID p = Some p) by (apply Hl; set_solver).
  destruct (IH (<[p_ID p := p]> acc)) as [H1 H2]; [by apply insert_subseteq_l|set_solver|].
  split; [done|]. intros q Hq. apply H2. destruct (decide (p_ID q = p_ID p)) as [He|Hne].
  - right. rewrite He, lookup_insert_eq. f_equal.
    assert (m !! p_ID q = Some q) as Hmq by (destruct Hq; [by apply Hl|by eapply lookup_weaken]).
    rewrite He in Hmq. by simplify_eq.
  - rewrite lookup_insert_ne by done. set_solver.
Qed.

(** The body of two entries. *)
Lemma denial_readable reason status (P : list (string * json) → string → Prop) :
  status ≠ Forbidden →
  ∃ fields reason', parse_json (Marshal [("allowed", BBool false); ("reason", BString reason)]) =
      Some (JObject fields) ∧ NoDup fields.*1 ∧
    ("allowed", JBool false) ∈ fields ∧ ("reason", JString reason') ∈ fields ∧ (status = Forbidden → P fields reason').
Proof.
  intros Hs. exists [("allowed", JBool false); ("reason", JString (coerce_utf8 0 reason))], (coerce_utf8 0 reason).
  rewrite parse_Marshal. split; [reflexivity|].
  split_and!; [|set_solver|set_solver|done]. apply (bool_decide_unpack _). vm_compute. exact I.
Qed.

(** ** Properties *)

(** The JSON round trip of a policy.  The text of any policy, the value of
    every struct tag escaped as JSON, is decoded as that policy, without its
    compiled expressions and with invalid UTF-8 replaced. *)
Theorem policy_text_roundtrip p : Unmarshal_Policy (policy_text p) = Ok (wire_policy p).
Proof. apply decode_policy_text. Qed.

(** A policy survives the stream.  Any policy a store can hold, written as
    JSON, published under any ID and consumed, is upserted exactly as it was,
    its compiled expressions included, whatever the store held. *)
Theorem published_policy_stored os id p ps :
  policy_valid p →
  processMessageEntry os (xa_Values (publish_args StreamKey ActionUpsert id (policy_text p))) ps =
    (Upserted p, UpsertPolicy (mo_upsert os) p ps).
Proof.
  intros Hp. pose proof (process_spec os
    (xa_Values (publish_args StreamKey ActionUpsert id (policy_text p))) ps) as H.
  rewrite wire_entry_update in H by done.
  destruct (processMessageEntry os _ ps) as [out ps']. by destruct H as (->&->&_).
Qed.

(** A store can be rebuilt from its listing.  The policies a store lists,
    in any order of its tables, written as JSON and published, make a stream
    that denotes the policies of that store: with [subscriber_replays_stream],
    a replica that reads it holds the same policies. *)
Theorem listing_republished oa od ps m snap ids log :
  represents ps m → (∀ id p, m !! id = Some p → policy_valid p) →
  ListActivePolicies oa od ps = Ok snap →
  length ids = length (s_Allow snap ++ s_Deny snap) →
  xm_Values <$> log = upsert_values ids (s_Allow snap ++ s_Deny snap) →
  stream_policies log = m.
Proof.
  intros Hrep Hv Hlist Hlen Hlog. destruct (represents_listing _ _ _ _ _ Hrep Hlist) as [Ha Hd].
  assert (Hl : ∀ p, p ∈ s_Allow snap ++ s_Deny snap ↔ m !! p_ID p = Some p).
  { intros p. rewrite elem_of_app, Ha, Hd. destruct Hrep as [_ Hid]. split.
    - intros [(id&Hp&_)|(id&Hp&_)]; by rewrite (Hid _ _ Hp).
    - intros Hp. destruct (is_allow p) eqn:E; eauto. }
  assert (Hu : omap (λ e, entry_update (xm_Values e)) log = SetPolicy <$> s_Allow snap ++ s_Deny snap).
  { eapply upsert_values_updates; [|done|done]. apply Forall_forall. intros p Hp.
    apply (Hv (p_ID p)). by apply Hl. }
  unfold stream_policies. rewrite Hu.
  destruct (insert_policies m (s_Allow snap ++ s_Deny snap) ∅) as [H1 H2]; [apply map_empty_subseteq|apply Hl|].
  apply map_subseteq_po; [done|]. apply map_subseteq_spec. intros id p Hp.
  rewrite <-(proj2 Hrep _ _ Hp) in Hp |- *. apply H2. left. by apply Hl.
Qed.

End WithRegexp.

Section Denials.
Context `{UNI : UnicodeLib}.

(** C36: the body of every denial of the ext_authz service, whatever the token,
    the claims and the engine's answer hold, is JSON: an object in which
    "allowed" is false and "reason" is a string, with nothing named twice; when
    the engine answered, it also names the engine's matched policy. *)
Theorem denial_body_readable o payloadHeader client req :
  match ck_HttpResponse (Check o payloadHeader client req) with
  | OkResponse _ => True
  | DeniedResponse status body _ =>
    ∃ fields reason, parse_json body = Some (JObject fields) ∧ NoDup fields.*1 ∧
      ("allowed", JBool false) ∈ fields ∧ ("reason", JString reason) ∈ fields ∧
      (status = Forbidden → ∃ claims resp,
        client (authz_request claims req) = Ok resp ∧ GetAllowed resp = false ∧
        reason = coerce_utf8 0 (GetReason resp) ∧
        ("matched_policy_id", JString (coerce_utf8 0 (GetMatchedPolicyId resp))) ∈ fields)
  end.
Proof.
  unfold Check. destruct (extractClaims o payloadHeader _) as [claims|err].
  2: by apply (denial_readable _ Unauthorized).
  destruct (client (authz_request claims req)) as [resp|err] eqn:Hc; [|by apply (denial_readable _ ServiceUnavailable)].
  destruct (GetAllowed resp) eqn:Ha; [done|]. cbn [negb denyJSON ck_HttpResponse].
  exists [("allowed", JBool false); ("evaluation_time_ns", JNumber (pretty (GetEvaluationTimeNs resp)));
          ("matched_policy_id", JString (coerce_utf8 0 (GetMatchedPolicyId resp)));
          ("reason", JString (coerce_utf8 0 (GetReason resp)))], (coerce_utf8 0 (GetReason resp)).
  rewrite parse_Marshal. split; [reflexivity|]. split_and!.
  - apply (bool_decide_unpack _). vm_compute. exact I.
  - set_solver.
  - set_solver.
  - intros _. exists claims, resp. split_and!; [done|done|done|]. set_solver.
Qed.

(** The body of every response the HTTP enforcement point writes itself,
    whatever the request and the engine's answer hold, is JSON, named as such in
    its header: an object with its keys in order and nothing named twice, in
    which "allowed" is false and "reason" is a string; a 403 repeats the
    engine's reason, matched policy and evaluation time. *)
Theorem pep_body_readable client r :
  match response (handler client r) with
  | None => True
  | Some w =>
    hr_Header w = [("Content-Type", "application/json")] ∧
    ∃ fields reason, parse_json (hr_body w) = Some (JObject fields) ∧
      NoDup fields.*1 ∧ StronglySorted (λ x y, String.leb x y = true) fields.*1 ∧
      ("allowed", JBool false) ∈ fields ∧ ("reason", JString reason) ∈ fields ∧
      (hr_status w = 403%Z → ∃ resp, client (pep_request r) = Ok resp ∧ GetAllowed resp = false ∧
        reason = coerce_utf8 0 (GetReason resp) ∧
        ("matched_policy_id", JString (coerce_utf8 0 (GetMatchedPolicyId resp))) ∈ fields ∧
        ("evaluation_time_ns", JNumber (pretty (GetEvaluationTimeNs resp))) ∈ fields)
  end.
Proof.
  unfold handler. destruct (client (pep_request r)) as [resp|err] eqn:Hc.
  - destruct (GetAllowed resp) eqn:Ha; [done|]. cbn [negb response]. split; [done|].
    exists [("allowed", JBool false); ("evaluation_time_ns", JNumber (pretty (GetEvaluationTimeNs resp)));
            ("matched_policy_id", JString (coerce_utf8 0 (GetMatchedPolicyId resp)));
            ("reason", JString (coerce_utf8 0 (GetReason resp)))], (coerce_utf8 0 (GetReason resp)).
    cbn [writeJSON hr_body]. rewrite parse_Encode. split; [reflexivity|]. split_and!.
    + apply (bool_decide_unpack _). vm_compute. exact I.
    + repeat constructor.
    + set_solver.
    + set_solver.
    + intros _. exists resp. split_and!; [done|done|done|set_solver|set_solver].
  - cbn [response]. split; [done|].
    exists [("allowed", JBool false); ("reason", JString "authorization engine unavailable")],
      "authorization engine unavailable".
    cbn [writeJSON hr_body]. rewrite parse_Encode. split; [reflexivity|]. split_and!.
    + apply (bool_decide_unpack _). vm_compute. exact I.
    + repeat constructor.
    + set_solver.
    + set_solver.
    + done.
Qed.

End Denials.

(** ** Witnesses *)

Lemma deny_policy_valid : policy_valid deny_policy.
Proof.
  refine (conj _ (conj _ (conj _ (conj _ (conj _ _))))); [| |right; reflexivity| | |];
    [vm_compute; reflexivity..|].
  constructor; [|constructor].
  refine (conj _ (conj _ (conj _ (conj _ _)))); [vm_compute; reflexivity..| | |].
  - constructor; [vm_compute; reflexivity|constructor].
  - exists (mkLiteralRe true false "bad"). split; vm_compute; reflexivity.
  - intros H. vm_compute in H. discriminate H.
Qed.

Lemma published_policy_stored_witness :
  (processMessageEntry orders
    (xa_Values (publish_args StreamKey ActionUpsert "any" (policy_text deny_policy))) NewPolicyStore).1 =
  Upserted deny_policy.
Proof.
  exact (f_equal fst (published_policy_stored orders "any" deny_policy NewPolicyStore deny_policy_valid)).
Defined.

(** Publishing the listing of a store that holds the deny policy. *)
Definition deny_store : PolicyStore := UpsertPolicy canonical_order deny_policy NewPolicyStore.
Definition deny_map : PolicyMap := <["deny-1" := deny_policy]> ∅.

Lemma deny_store_represents : represents deny_store deny_map.
Proof. exact (represents_op _ _ (OpUpsert canonical_order deny_policy) represents_new). Qed.

Lemma listing_republished_witness :
  stream_policies [mkXMessage "1-0"
    (xa_Values (publish_args StreamKey ActionUpsert "deny-1" (policy_text deny_policy)))] = deny_map.
Proof.
  apply (listing_republished canonical_order canonical_order deny_store deny_map
    (mkSnapshot [] [deny_policy]) ["deny-1"]).
  - exact deny_store_represents.
  - intros id p Hp. unfold deny_map in Hp. apply lookup_insert_Some in Hp as [[_ <-]|[_ Hp]].
    + exact deny_policy_valid.
    + rewrite lookup_empty in Hp. discriminate Hp.
  - vm_compute. reflexivity.
  - reflexivity.
  - reflexivity.
Defined.
