(* ===== verification/PolicyTypes.v ===== *)
(** The type of what a subscriber stores, and restoring a store from its
    listing: every policy in a store that the subscriber built is valid UTF-8
    with its regular expressions compiled, so its JSON text denotes it. *)
From S2P Require Import Prelude GoText GoJson Policy LiteralRegexp Store Operators Engine Subscriber PolicyJson GoEnc JsonText Utf8 Wire.
Open Scope string_scope.
Open Scope nat_scope.
Open Scope list_scope.

Section WithRegexp.
Context `{RE : RegexpLib}.

(** ** Specification *)

(** The variables of [json.Unmarshal], and the policies it returns. *)
Definition condition_var_utf8 (c : ConditionVar) : Prop :=
  utf8 (cv_Attribute c) ∧ utf8 (cv_Operator c) ∧ Forall utf8 (sl_array (cv_Value c)).

Definition target_utf8 (t : Target) : Prop := utf8 (t_ResourceType t) ∧ utf8 (t_Action t).

Definition policy_var_utf8 (p : PolicyVar) : Prop :=
  utf8 (pv_ID p) ∧ utf8 (pv_Description p) ∧ utf8 (pv_Access p) ∧ target_utf8 (pv_Target p) ∧
  Forall condition_var_utf8 (sl_array (pv_Conditions p)).

(** A condition before [Compile]. *)
Definition condition_fresh (c : Condition) : Prop :=
  utf8 (c_Attribute c) ∧ utf8 (c_Operator c) ∧ Forall utf8 (c_Value c) ∧ c_CompiledRegex c = None.

Definition policy_fresh (p : Policy) : Prop :=
  utf8 (p_ID p) ∧ utf8 (p_Description p) ∧ utf8 (p_Access p) ∧ target_utf8 (p_Target p) ∧
  Forall condition_fresh (p_Conditions p).

Definition map_valid (m : PolicyMap) : Prop := ∀ id p, m !! id = Some p → policy_valid p.

(** ** Lemmas *)

Lemma decode_Condition_keeps : keeps condition_var_utf8 decode_Condition.
Proof.
  apply decode_struct_keeps. intros n cur j (Ha&Ho&Hv) Hj. cbv beta.
  case_match; [|case_match].
  - pose proof (decode_string_keeps (cv_Attribute cur) j Ha Hj) as Hs.
    destruct (decode_string _ j). by split_and!.
  - pose proof (decode_string_keeps (cv_Operator cur) j Ho Hj) as Hs.
    destruct (decode_string _ j). by split_and!.
  - pose proof (decode_slice_keeps utf8 "" decode_string utf8_nil decode_string_keeps (cv_Value cur) j Hv Hj) as Hs.
    destruct (decode_slice _ _ _ j). by split_and!.
Qed.

Lemma decode_Target_keeps : keeps target_utf8 decode_Target.
Proof.
  apply decode_struct_keeps. intros n cur j (Hr&Ha) Hj. cbv beta. case_match.
  - pose proof (decode_string_keeps (t_ResourceType cur) j Hr Hj) as Hs.
    destruct (decode_string _ j). by split.
  - pose proof (decode_string_keeps (t_Action cur) j Ha Hj) as Hs.
    destruct (decode_string _ j). by split.
Qed.

Lemma zero_ConditionVar_utf8 : condition_var_utf8 zero_ConditionVar.
Proof. split_and!; constructor. Qed.

Lemma zero_PolicyVar_utf8 : policy_var_utf8 zero_PolicyVar.
Proof. split_and!; [constructor..|split; constructor|constructor]. Qed.

Lemma decode_Policy_keeps : keeps policy_var_utf8 decode_Policy.
Proof.
  apply decode_struct_keeps. intros n [id desc acc tgt cs] j (Hi&Hd&Ha&Ht&Hc) Hj.
  cbn in Hi, Hd, Ha, Ht, Hc. cbv beta iota.
  pose proof (λ cur H, decode_string_keeps cur j H Hj) as Hstr.
  pose proof (decode_Target_keeps tgt j Ht Hj) as Htgt.
  pose proof (decode_slice_keeps _ _ _ zero_ConditionVar_utf8 decode_Condition_keeps cs j Hc Hj) as Hcs.
  destruct (String.eqb n "id"); [|destruct (String.eqb n "description"); [|destruct (String.eqb n "access");
    [|destruct (String.eqb n "target")]]].
  - specialize (Hstr id Hi). destruct (decode_string id j). by split_and!.
  - specialize (Hstr desc Hd). destruct (decode_string desc j). by split_and!.
  - specialize (Hstr acc Ha). destruct (decode_string acc j). by split_and!.
  - destruct (decode_Target tgt j). by split_and!.
  - destruct (decode_slice _ _ cs j). by split_and!.
Qed.

Lemma slice_list_Forall {T} (P : T → Prop) s : Forall P (sl_array s) → Forall P (slice_list s).
Proof. apply Forall_take. Qed.

Lemma Unmarshal_Policy_fresh data p : Unmarshal_Policy data = Ok p → policy_fresh p.
Proof.
  unfold Unmarshal_Policy, json_policy_decoder.
  destruct (Unmarshal zero_PolicyVar decode_Policy data) as [v|e] eqn:Hu; [|done].
  intros [= <-].
  destruct (Unmarshal_keeps _ _ _ _ _ zero_PolicyVar_utf8 decode_Policy_keeps Hu) as (Hi&Hd&Ha&Ht&Hc).
  split_and!; [done..|]. cbn. apply Forall_fmap.
  eapply Forall_impl; [by apply slice_list_Forall|]. intros c (H1&H2&H3). cbn.
  split_and!; [done|done|by apply slice_list_Forall|done].
Qed.

Lemma Forall_valid_utf8 vs : Forall utf8 vs → Forall valid_utf8 vs.
Proof. intros H. eapply Forall_impl; [exact H|]. apply utf8_valid. Qed.

Lemma compile_conditions_valid id cs :
  Forall condition_fresh cs → (compile_conditions id cs).2 = None →
  Forall condition_valid (compile_conditions id cs).1.
Proof.
  induction 1 as [|c cs (Ha&Ho&Hv&Hn) _ IH]; [constructor|]. csimpl.
  apply utf8_valid in Ha, Ho. apply Forall_valid_utf8 in Hv.
  destruct (regex_pattern c) as [pat|] eqn:Hp.
  - destruct (regexp_Compile pat) as [re|e] eqn:Hre; [|done].
    destruct (compile_conditions id cs) as [cs' err]. csimpl. intros ->.
    constructor; [|by apply IH]. split_and!; [done|done|done| |].
    + unfold condition_compiled. rewrite with_regex_pattern, Hp. by exists re.
    + rewrite with_regex_pattern, Hp. done.
  - destruct (compile_conditions id cs) as [cs' err]. csimpl. intros ->.
    constructor; [|by apply IH]. split_and!; [done|done|done| |done].
    unfold condition_compiled. by rewrite Hp.
Qed.

Lemma Compile_valid p :
  policy_fresh p → p_Access p = AccessAllow ∨ p_Access p = AccessDeny →
  (Compile p).2 = None → policy_valid (Compile p).1.
Proof.
  intros (Hi&Hd&_&[Hr Ha]&Hc) Hacc Herr. rewrite Compile_unfold in *. csimpl in *.
  split_and!; cbn; auto using utf8_valid. by apply compile_conditions_valid.
Qed.

Lemma entry_update_valid v p : entry_update v = Some (SetPolicy p) → policy_valid p.
Proof.
  unfold entry_update. intros H. simplify_option_eq.
  match goal with H : match Unmarshal_Policy ?d with _ => _ end = _ |- _ =>
    destruct (Unmarshal_Policy d) as [q|] eqn:Hq; [|done] end.
  case_decide; [|done].
  pose proof (Compile_valid q (Unmarshal_Policy_fresh _ _ Hq)) as Hc.
  destruct (Compile q) as [q' [err|]]; simplify_eq. by apply Hc.
Qed.

Lemma apply_entry_valid m e : map_valid m → map_valid (apply_entry m e).
Proof.
  intros Hm id p. unfold apply_entry. pose proof (entry_update_valid (xm_Values e)) as Hl.
  destruct (entry_update (xm_Values e)) as [[q|k]|]; simpl; [| |apply Hm].
  - rewrite lookup_insert. case_decide; [|apply Hm]. intros [= ->]. by apply Hl.
  - rewrite lookup_delete. case_decide; [done|apply Hm].
Qed.

Lemma map_valid_empty : map_valid ∅.
Proof. intros ? ?. by rewrite lookup_empty. Qed.

Lemma stream_policies_valid log : map_valid (stream_policies log).
Proof.
  induction log as [|e log IH] using rev_ind; [exact map_valid_empty|].
  rewrite stream_policies_snoc. by apply apply_entry_valid.
Qed.

(** The map a subscriber's store represents is valid. *)
Lemma subscriber_map_valid its :
  ∃ m, represents (ss_store (loop_sub (Start its NewPolicyStore))) m ∧ map_valid m.
Proof. exact (subscriber_inv map_valid apply_entry_valid its map_valid_empty). Qed.

(** ** Properties *)

(** C17: the type of the store's contents.  Whatever entries the stream holds
    and whatever Redis and the context answer, at every point of the loop each
    policy in the store has valid UTF-8 in every string (invalid bytes and lone
    surrogates of the JSON were replaced), access ALLOW or DENY, the compiled
    expression of its first value in each REGEX condition with a value, and
    none elsewhere; so the policy is determined by its JSON text: decoding that text and
    compiling gives the policy back. *)
Theorem stored_policies_typed its t id p :
  table_get t (ss_store (loop_sub (Start its NewPolicyStore))) !! id = Some p →
  policy_valid p ∧ ∃ q, Unmarshal_Policy (policy_text p) = Ok q ∧ Compile q = (p, None).
Proof.
  destruct (subscriber_map_valid its) as (m&Hrep&Hv). intros Hp.
  pose proof (Hv _ _ (proj1 (proj1 (proj1 Hrep _ _ _) Hp))) as Hpv.
  split; [done|]. exists (wire_policy p). split; [apply decode_policy_text|by apply Compile_wire].
Qed.

(** C18: a subscriber's store is restored from its listing.  Take the store at
    any point of a subscriber's loop, whatever it consumed; list it in any
    order of its tables and publish each policy's JSON under any IDs.  A new
    subscriber that has consumed that stream, with any timeouts and errors in
    between, holds an equal store. *)
Theorem store_restored its its' oa od snap ids log :
  let ps := ss_store (loop_sub (Start its NewPolicyStore)) in
  ListActivePolicies oa od ps = Ok snap →
  length ids = length (s_Allow snap ++ s_Deny snap) →
  xm_Values <$> log = upsert_values ids (s_Allow snap ++ s_Deny snap) →
  stream_ids_ok log → redis_run log its' (mkSub "0" NewPolicyStore) →
  deliveries its' (mkSub "0" NewPolicyStore) = length log →
  ss_store (loop_sub (Start its' NewPolicyStore)) = ps.
Proof.
  intros ps Hlist Hlen Hlog Hok Hrun Hdel.
  destruct (subscriber_map_valid its) as (m&Hrep&Hv). fold ps in Hrep.
  pose proof (listing_republished oa od ps m snap ids log Hrep Hv Hlist Hlen Hlog) as Hm.
  destruct (replay log its' _ 0 Hok (at_position_start log) Hrun) as (_&_&Hrep').
  rewrite Hdel, Nat.add_0_l, firstn_all, Hm in Hrep'. by eapply represents_unique.
Qed.

End WithRegexp.

(** ** Witnesses *)

Lemma stored_policies_typed_witness :
  policy_valid deny_policy ∧
  ∃ q, Unmarshal_Policy (policy_text deny_policy) = Ok q ∧ Compile q = (deny_policy, None).
Proof. exact (stored_policies_typed sample_run TDeny "deny-1" deny_policy sample_deny_live). Defined.

(** The sample run's store, listed in reverse order and published again. *)
Definition sample_listing :=
  match ListActivePolicies reversed_order canonical_order
    (ss_store (loop_sub (Start sample_run NewPolicyStore))) with
  | Ok snap => snap
  | Err _ => mkSnapshot [] []
  end.

Definition backup_log : list XMessage :=
  zip_with mkXMessage ["7-0"; "7-1"]
    (upsert_values ["a"; "b"] (s_Allow sample_listing ++ s_Deny sample_listing)).

Definition restoring_run : list iteration :=
  (PolicyJson.reads <$> take 1 backup_log) ++ [times_out] ++ (PolicyJson.reads <$> drop 1 backup_log).

Lemma store_restored_witness :
  ss_store (loop_sub (Start restoring_run NewPolicyStore)) =
    ss_store (loop_sub (Start sample_run NewPolicyStore)).
Proof.
  apply (store_restored sample_run restoring_run reversed_order canonical_order sample_listing
    ["a"; "b"] backup_log).
  - vm_compute. reflexivity.
  - vm_compute. reflexivity.
  - vm_compute. reflexivity.
  - split; apply (bool_decide_unpack _); vm_compute; exact I.
  - apply redis_run_b_run. vm_compute. reflexivity.
  - vm_compute. reflexivity.
Defined.
