(* ===== verification/GrpcApi.v ===== *)
(** pkg/gen/authzv1/authz_grpc.pb.go: the client stub, the service descriptor
    and its registration; and the enforcement points' questions across the
    wire, from the stub to the engine and back.

    The gRPC and protobuf libraries are interfaces: [GrpcLib] for the registry
    of services, [ProtoLib] for a message that is marshalled, sent and
    unmarshalled, [invoke_documented] for what [Invoke] does with the two. *)
From S2P Require Import Prelude GoText GoJson Policy LiteralRegexp Store Operators Engine AuditQueue AuthzPb Server Metrics Subscriber PolicyJson JsonText Utf8 ExtAuthz Pep System Wire PolicyTypes.
Open Scope string_scope.
Open Scope nat_scope.
Open Scope list_scope.

(** ** The client *)

Definition AuthorizationService_CheckAccess_FullMethodName : string :=
  "/authz.v1.AuthorizationService/CheckAccess".

(** [ClientConnInterface.Invoke]: the method, the request and the response to
    fill; what the response then holds, and an error. *)
Definition Invoker : Type := string → CheckAccessRequest → CheckAccessResponse → CheckAccessResponse * option string.

(** [authorizationServiceClient.CheckAccess]. *)
Definition Client_CheckAccess (Invoke : Invoker) (req : CheckAccessRequest)
    : option CheckAccessResponse * option string :=
  let '(out, err) := Invoke AuthorizationService_CheckAccess_FullMethodName req zero_CheckAccessResponse in
  match err with
  | Some err => (None, Some err)
  | None => (Some out, None)
  end.

(** The stub as the enforcement points use it: they look at the response only
    without an error. *)
Definition stub (Invoke : Invoker) : Client := λ req,
  match Client_CheckAccess Invoke req with
  | (_, Some err) => Err err
  | (resp, None) => Ok resp
  end.

(** ** The server *)

Section Server.
Context `{PROM : PrometheusLib} {St : Type}.

(** An implementation of [AuthorizationServiceServer], in a state. *)
Definition Impl : Type := St → CheckAccessRequest → handled St.

(** [UnimplementedAuthorizationServiceServer.CheckAccess]. *)
Definition Unimplemented_CheckAccess : Impl := λ st _,
  HReturn (AnyResponse None) (Some "method CheckAccess not implemented") st.

Record MethodDesc := mkMethodDesc {
  md_MethodName : string;
  md_Handler : Impl → result CheckAccessRequest → bool → St → Metrics → handled (St * Metrics)
}.

Record ServiceDesc := mkServiceDesc {
  sd_ServiceName : string;
  sd_Methods : list MethodDesc
}.

Definition AuthorizationService_ServiceDesc : ServiceDesc :=
  mkServiceDesc "authz.v1.AuthorizationService"
    [mkMethodDesc "CheckAccess" (λ srv dec interceptor st m, CheckAccess_Handler dec (srv st) interceptor st m)].

(** The registry of a gRPC server: what [RegisterService] adds. *)
Class GrpcLib := {
  Registrar : Type;
  registered : Registrar → list (ServiceDesc * Impl);
  RegisterService : Registrar → ServiceDesc → Impl → Registrar;
  registered_add s sd srv : registered (RegisterService s sd srv) = (sd, srv) :: registered s
}.

(** [testEmbeddedByValue] does nothing: the server embeds the struct by value. *)
Definition RegisterAuthorizationServiceServer `{GrpcLib} (s : Registrar) (srv : Impl) : Registrar :=
  RegisterService s AuthorizationService_ServiceDesc srv.

End Server.
Arguments Impl St : clear implicits.
Arguments MethodDesc {PROM} St.
Arguments ServiceDesc {PROM} St.
Arguments GrpcLib {PROM} St.

(** ** Specification: messages on the wire *)

(** Strings that protobuf can carry in a [string] field. *)
Definition attrs_text (m : AttrMap) : Prop :=
  match m with
  | None => True
  | Some m => map_Forall (λ k v, valid_utf8 k ∧ Forall valid_utf8 (GetValues v)) m
  end.

Definition request_text (q : CheckAccessRequest) : Prop :=
  valid_utf8 (q_PrincipalId q) ∧ attrs_text (q_PrincipalAttributes q) ∧
  valid_utf8 (q_ResourceType q) ∧ valid_utf8 (q_ResourceId q) ∧ attrs_text (q_ResourceAttributes q) ∧
  valid_utf8 (q_Action q) ∧ attrs_text (q_EnvironmentAttributes q).

Definition response_text (p : CheckAccessResponse) : Prop :=
  valid_utf8 (a_MatchedPolicyId p) ∧ valid_utf8 (a_Reason p) ∧ in_int64 (a_EvaluationTimeNs p) = true.

#[export] Instance valid_utf8_dec s : Decision (valid_utf8 s).
Proof. unfold valid_utf8. apply _. Defined.
#[export] Instance attrs_text_dec m : Decision (attrs_text m).
Proof. destruct m; simpl; apply _. Defined.
#[export] Instance request_text_dec q : Decision (request_text q).
Proof. unfold request_text. apply _. Defined.
#[export] Instance response_text_dec p : Decision (response_text p).
Proof. unfold response_text. apply _. Defined.

(** No attribute has a nil message for its values. *)
Definition attrs_no_nil (m : AttrMap) : Prop := ∀ k, map_index m k ≠ Some None.

Definition request_no_nil (q : CheckAccessRequest) : Prop :=
  attrs_no_nil (q_PrincipalAttributes q) ∧ attrs_no_nil (q_ResourceAttributes q) ∧
  attrs_no_nil (q_EnvironmentAttributes q).

(** Two requests that read the same: maps may be nil or empty. *)
Definition same_request (q q' : CheckAccessRequest) : Prop :=
  q_PrincipalId q = q_PrincipalId q' ∧ q_ResourceType q = q_ResourceType q' ∧
  q_ResourceId q = q_ResourceId q' ∧ q_Action q = q_Action q' ∧
  (∀ k, proto_values (q_PrincipalAttributes q) k = proto_values (q_PrincipalAttributes q') k) ∧
  (∀ k, proto_values (q_ResourceAttributes q) k = proto_values (q_ResourceAttributes q') k) ∧
  (∀ k, proto_values (q_EnvironmentAttributes q) k = proto_values (q_EnvironmentAttributes q') k).

(** A message that is marshalled, sent and unmarshalled: it arrives as it was
    if its strings are valid UTF-8 and it is within the size limits, and fails
    otherwise. *)
Class ProtoLib := {
  transmit_request : CheckAccessRequest → result CheckAccessRequest;
  transmit_response : CheckAccessResponse → result CheckAccessResponse;
  request_fits : CheckAccessRequest → bool;
  response_fits : CheckAccessResponse → bool;
  transmit_request_ok q :
    request_text q → request_no_nil q → request_fits q = true →
    ∃ q', transmit_request q = Ok q' ∧ same_request q q';
  transmit_request_bad q :
    ¬ (request_text q ∧ request_fits q = true) → ∃ e, transmit_request q = Err e;
  transmit_response_ok p :
    response_text p → response_fits p = true → transmit_response p = Ok p
}.

(** The client's view of a call that a handler ended with [h]. *)
Definition invoke_outcome `{ProtoLib} {S} (h : handled S) (reply : CheckAccessResponse * option string) : Prop :=
  match h with
  | HPanic | HReturn _ (Some _) _ => is_Some reply.2
  | HReturn (AnyResponse (Some p)) None _ =>
    match transmit_response p with
    | Ok p' => reply = (p', None)
    | Err _ => is_Some reply.2
    end
  | HReturn _ None _ => True
  end.

(** [Invoke] on a connection to the server [s]: a request that cannot be sent
    is an error; else the handler registered under the method's full name runs,
    and its response, or an error, is the answer. *)
Definition invoke_documented `{PROM : PrometheusLib} {St} `{PROTO : ProtoLib} `{GRPC : !GrpcLib St}
    (s : Registrar) (interceptor : bool) (st : St) (m : Metrics) (Invoke : Invoker) : Prop :=
  ∀ sd srv md q out, (sd, srv) ∈ registered s → md ∈ sd_Methods sd →
    let reply := Invoke ("/" +:+ sd_ServiceName sd +:+ "/" +:+ md_MethodName md)%string q out in
    match transmit_request q with
    | Err _ => is_Some reply.2
    | Ok q' => invoke_outcome (md_Handler md srv (Ok q') interceptor st m) reply
    end.

(** ** Lemmas *)

#[export] Instance same_request_equiv : Equivalence same_request.
Proof.
  split.
  - intros q. by split_and!.
  - intros q q' (?&?&?&?&?&?&?). by split_and!.
  - intros q q' q'' (H1&H2&H3&H4&H5&H6&H7) (G1&G2&G3&G4&G5&G6&G7).
    split_and!; etrans; eauto.
Qed.

Section WithRegexp.
Context `{RE : RegexpLib}.

(** Requests that read the same are decided the same. *)
#[export] Instance proto_condition_holds_proper cond :
  Proper (same_request ==> iff) (proto_condition_holds cond).
Proof.
  assert (Himp : ∀ q q', same_request q q' → proto_condition_holds cond q → proto_condition_holds cond q').
  { intros q q' (_&_&_&_&Hp&Hr&He) (prefix&key&attrs&vals&H1&H2&Ha&Hv&Hop).
    unfold proto_attrs in Ha. exists prefix, key. unfold proto_attrs.
    destruct (String.eqb prefix "principal"); [|destruct (String.eqb prefix "resource");
      [|destruct (String.eqb prefix "environment"); [|done]]]; injection Ha as <-;
      eexists _, vals; (split_and!; [done|done|reflexivity| |done]); rewrite <-Hv; done. }
  intros q q' Hq. split; apply Himp; done.
Qed.

#[export] Instance proto_applies_proper p : Proper (same_request ==> iff) (proto_applies p).
Proof.
  intros q q' Hq. pose proof Hq as (_&Hrt&_&Hact&_).
  unfold proto_applies. rewrite Hrt, Hact. by setoid_rewrite Hq.
Qed.

#[export] Instance policies_grant_proper m : Proper (same_request ==> iff) (policies_grant m).
Proof. intros q q' Hq. unfold policies_grant. by setoid_rewrite Hq. Qed.

(** What a response of the service can hold. *)
Lemma service_no_empty_answer listed start now os hint l q l' :
  Server.CheckAccess listed start now os hint q l ≠ RpcReturn None None l'.
Proof.
  unfold Server.CheckAccess. destruct (Engine.CheckAccess _ _ _ _) as [ev|]; [|done].
  by destruct (LogDecision hint (audit_record q ev) l).
Qed.

Lemma service_response_text listed start now os hint l q resp err l' (m : PolicyMap) :
  (∀ snap, listed = Ok snap → ∀ p, p ∈ s_Allow snap ∨ p ∈ s_Deny snap → m !! p_ID p = Some p) →
  Server.CheckAccess listed start now os hint q l = RpcReturn (Some resp) err l' →
  err = None ∧ (a_MatchedPolicyId resp = "" ∨ is_Some (m !! a_MatchedPolicyId resp)) ∧
  a_Reason resp ∈ [reason_deny; reason_allow; reason_default] ∧ in_int64 (a_EvaluationTimeNs resp) = true.
Proof.
  intros Hm H. unfold Server.CheckAccess in H. destruct listed as [snap|e]; [|done].
  specialize (Hm snap eq_refl).
  assert (Hresp : ∃ ev, Engine.CheckAccess (Ok snap) start now (eval_request os q) = Ok ev ∧
    resp = proto_response ev ∧ err = None).
  { destruct (Engine.CheckAccess (Ok snap) start now (eval_request os q)) as [ev|]; [|done].
    exists ev. destruct (LogDecision hint (audit_record q ev) l); by simplify_eq. }
  destruct Hresp as (ev&Hev&->&->). split; [done|].
  assert (Ht : in_int64 (time_Since start now) = true).
  { apply in_int64_spec. unfold time_Since, min_int64, max_int64. lia. }
  destruct (CheckAccess_cases snap start now (eval_request os q))
    as [(d&Hin&_&He)|[(_&p&Hin&_&He)|(_&_&He)]]; rewrite Hev in He; injection He as ->; simpl;
    (split_and!; [|set_solver|done]); [right; exists d; auto|right; exists p; auto|by left].
Qed.

Section Wire.
Context `{PROM : PrometheusLib} `{PROTO : ProtoLib} `{GRPC : !GrpcLib AuditLogger}.

Lemma stub_error Invoke q :
  is_Some (Invoke AuthorizationService_CheckAccess_FullMethodName q zero_CheckAccessResponse).2 →
  ∃ e, stub Invoke q = Err e.
Proof.
  unfold stub, Client_CheckAccess. destruct (Invoke _ _ _) as [out err]. simpl. intros [e ->]. by exists e.
Qed.

(** The dispatcher of the registered service answers the stub's call. *)
Lemma stub_reaches_service s0 srv l mt Invoke q :
  invoke_documented (RegisterAuthorizationServiceServer s0 srv) true l mt Invoke →
  let reply := Invoke AuthorizationService_CheckAccess_FullMethodName q zero_CheckAccessResponse in
  match transmit_request q with
  | Err _ => is_Some reply.2
  | Ok q' => invoke_outcome (UnaryInterceptor (srv l q') mt) reply
  end.
Proof.
  intros Hinv. apply (Hinv AuthorizationService_ServiceDesc srv
    (mkMethodDesc "CheckAccess" (λ srv dec interceptor st m, CheckAccess_Handler dec (srv st) interceptor st m))).
  - unfold RegisterAuthorizationServiceServer. rewrite registered_add. set_solver.
  - set_solver.
Qed.

(** A response about policies of valid UTF-8 can be sent. *)
Lemma response_sent (m : PolicyMap) resp :
  live_map m → map_valid m →
  (a_MatchedPolicyId resp = "" ∨ is_Some (m !! a_MatchedPolicyId resp)) →
  a_Reason resp ∈ [reason_deny; reason_allow; reason_default] →
  in_int64 (a_EvaluationTimeNs resp) = true → response_fits resp = true →
  transmit_response resp = Ok resp.
Proof.
  intros Hlive Hvalid Hid Hreason Htime Hfit. apply transmit_response_ok; [|done]. split_and!; [| |done].
  - destruct Hid as [->|[p Hp]]; [done|]. destruct (Hlive _ _ Hp) as [<- _]. by apply (Hvalid _ _ Hp).
  - rewrite !elem_of_cons, elem_of_nil in Hreason. destruct Hreason as [->|[->|[->|[]]]]; by vm_compute.
Qed.

Lemma listed_in_map ps (m : PolicyMap) oa od snap p :
  represents ps m → ListActivePolicies oa od ps = Ok snap →
  p ∈ s_Allow snap ∨ p ∈ s_Deny snap → m !! p_ID p = Some p.
Proof.
  intros Hrep Hlist. destruct (represents_listing _ _ _ _ _ Hrep Hlist) as [Ha Hd].
  destruct Hrep as [_ Hids]. rewrite Ha, Hd. intros [(id&Hp&_)|(id&Hp&_)]; by rewrite (Hids _ _ Hp).
Qed.

(** Every response the service can give about the policies [m] is within the
    size limits. *)
Definition responses_fit (m : PolicyMap) : Prop := ∀ p,
  a_MatchedPolicyId p = "" ∨ is_Some (m !! a_MatchedPolicyId p) →
  a_Reason p ∈ [reason_deny; reason_allow; reason_default] → response_fits p = true.

(** The stub's answer to a request, against the service over a store that
    represents [m]: a grant exactly when the request can be sent and the
    policies of [m] grant it. *)
Lemma stub_grants ps (m : PolicyMap) oa od start now os hint l mt s0 Invoke q :
  represents ps m → live_map m → map_valid m → lg_closed l = false → ready mt → responses_fit m →
  let c := mkRpc (Err "") (ListActivePolicies oa od ps) start now os hint in
  invoke_documented (RegisterAuthorizationServiceServer s0 (service c)) true l mt Invoke →
  request_no_nil q →
  (∃ resp, stub Invoke q = Ok resp ∧ GetAllowed resp = true) ↔
  request_text q ∧ request_fits q = true ∧ policies_grant m q.
Proof.
  intros Hrep Hlive Hvalid Hopen [Hready1 Hready2] Hfit c Hinv Hnil.
  apply stub_reaches_service with (q := q) in Hinv.
  destruct (transmit_request q) as [q'|e] eqn:Hsend.
  2:{ destruct (stub_error _ _ Hinv) as [e' ->]. split; [by intros (?&?&_)|]. intros (Ht&Hf&_).
      destruct (transmit_request_ok q Ht Hnil Hf) as (?&?&_). congruence. }
  assert (Hok : request_text q ∧ request_fits q = true).
  { apply dec_stable. intros Hn. destruct (transmit_request_bad q Hn). congruence. }
  destruct (transmit_request_ok q (proj1 Hok) Hnil (proj2 Hok)) as (q''&Hq''&Hsame).
  rewrite Hsend in Hq''. injection Hq'' as <-.
  rewrite (policies_grant_proper m _ _ Hsame), <-(rpc_client_grants ps m oa od start now os hint l q') by done.
  unfold rpc_client. unfold service in Hinv. cbn [rpc_listed c rpc_start rpc_now rpc_orders rpc_hint] in Hinv.
  pose proof (λ snap H p, listed_in_map ps m oa od snap p Hrep H) as Hlisted.
  destruct (Server.CheckAccess (ListActivePolicies oa od ps) start now os hint q' l)
    as [|[resp|] [err|] l'] eqn:Hsrv.
  - destruct (stub_error _ _ Hinv) as [e' ->]. naive_solver.
  - by destruct (service_response_text _ _ _ _ _ _ _ _ _ _ _ Hlisted Hsrv).
  - destruct (service_response_text _ _ _ _ _ _ _ _ _ _ _ Hlisted Hsrv) as (_&Hid&Hreason&Htime).
    pose proof (response_sent m resp Hlive Hvalid Hid Hreason Htime (Hfit _ Hid Hreason)) as Hsent.
    assert (Hreply : Invoke AuthorizationService_CheckAccess_FullMethodName q zero_CheckAccessResponse = (resp, None)).
    { unfold UnaryInterceptor, invoke_outcome in Hinv.
      destruct (a_Allowed resp); rewrite ?Hready1, ?Hready2 in Hinv; cbv beta iota zeta in Hinv;
        by rewrite Hsent in Hinv. }
    unfold stub, Client_CheckAccess. rewrite Hreply. naive_solver.
  - destruct (stub_error _ _ Hinv) as [e' ->]. naive_solver.
  - by destruct (service_no_empty_answer _ _ _ _ _ _ _ _ Hsrv).
Qed.

(** The attributes the enforcement points build are never nil messages. *)
Lemma singleton_no_nil k vs : attrs_no_nil (attr_singleton k vs).
Proof.
  intros k'. unfold attr_singleton. simpl. rewrite lookup_singleton. by case_decide.
Qed.

Lemma absent_no_nil : attrs_no_nil None.
Proof. done. Qed.

Context `{UNI : UnicodeLib}.

Lemma pep_request_no_nil r : request_no_nil (pep_request r).
Proof. split_and!; (apply singleton_no_nil || apply absent_no_nil). Qed.

Lemma authz_request_no_nil claims cr : request_no_nil (authz_request claims cr).
Proof. split_and!; apply singleton_no_nil. Qed.

(** ** Property *)

(** C2: end to end, over the wire.  A subscriber has built the engine's store
    from the first [n] entries of a stream; the service is registered on a gRPC
    server with the metrics interceptor, its audit logger not stopped, and the
    enforcement points call it through the generated stub over a connection to
    that server.  The HTTP enforcement point proxies a request exactly when the
    message it sends is valid UTF-8 within the size limit and the policies
    those entries denote grant it; the ext_authz adapter permits a request
    exactly when moreover its claims are accepted.  In particular a header or a
    path that is not valid UTF-8 is refused, and no policy that reached the
    store can make a response that cannot be sent. *)
Theorem stream_to_enforcement_grpc log its oa od start now os hint l mt s0 Invoke o payloadHeader r cr :
  stream_ids_ok log → redis_run log its (mkSub "0" NewPolicyStore) → lg_closed l = false → ready mt →
  let ps := ss_store (loop_sub (Subscriber.Start its NewPolicyStore)) in
  let m := stream_policies (take (deliveries its (mkSub "0" NewPolicyStore)) log) in
  let c := mkRpc (Err "") (ListActivePolicies oa od ps) start now os hint in
  responses_fit m →
  invoke_documented (RegisterAuthorizationServiceServer s0 (service c)) true l mt Invoke →
  let passes q := request_text q ∧ request_fits q = true ∧ policies_grant m q in
  (handler (stub Invoke) r = Proxied ↔ passes (pep_request r)) ∧
  (permits (Check o payloadHeader (stub Invoke) cr) ↔
   ∃ claims, extractClaims o payloadHeader (cr_headers cr) = inl claims ∧ passes (authz_request claims cr)).
Proof.
  intros Hok Hrun Hopen Hready ps m c Hfit Hinv passes.
  destruct (replay log its _ 0 Hok (at_position_start log) Hrun) as (_&_&Hrep). simpl in Hrep. fold m in Hrep.
  pose proof (stream_policies_live (take (deliveries its (mkSub "0" NewPolicyStore)) log)) as Hlive.
  pose proof (stream_policies_valid (take (deliveries its (mkSub "0" NewPolicyStore)) log)) as Hvalid.
  fold m in Hlive, Hvalid.
  assert (Hq : ∀ q, request_no_nil q → (∃ resp, stub Invoke q = Ok resp ∧ GetAllowed resp = true) ↔ passes q).
  { intros q. by apply stub_grants with (1 := Hrep) (s0 := s0) (mt := mt) (l := l) (oa := oa) (od := od)
      (start := start) (now := now) (os := os) (hint := hint). }
  split.
  - rewrite handler_proxied. apply Hq, pep_request_no_nil.
  - rewrite Check_permits. split.
    + intros (claims&resp&Hc&Hr). exists claims. split; [done|]. apply Hq; [apply authz_request_no_nil|]. eauto.
    + intros (claims&Hc&Hg). apply Hq in Hg as (resp&?&?); [|apply authz_request_no_nil]. by exists claims, resp.
Qed.

End Wire.
End WithRegexp.

(** ** Witness *)

(** Messages of valid UTF-8 arrive as they are, of any size. *)
#[export] Program Instance exact_proto : ProtoLib := {|
  transmit_request q := if decide (request_text q) then Ok q else Err "string field contains invalid UTF-8";
  transmit_response p := if decide (response_text p) then Ok p else Err "string field contains invalid UTF-8";
  request_fits _ := true;
  response_fits _ := true
|}.
Next Obligation. intros q Ht _ _. simpl. rewrite decide_True by done. by exists q. Qed.
Next Obligation. intros q Hn. simpl. rewrite decide_False by naive_solver. by eexists. Qed.
Next Obligation. intros p Ht _. simpl. by rewrite decide_True. Qed.

#[export] Program Instance list_grpc `{PROM : PrometheusLib} St : GrpcLib St := {|
  Registrar := list (ServiceDesc St * Impl St);
  registered s := s;
  RegisterService s sd srv := (sd, srv) :: s
|}.
Next Obligation. done. Qed.

(** A connection to a server in a state: the first method of that name. *)
Definition connection `{PROM : PrometheusLib} {St} (s : list (ServiceDesc St * Impl St))
    (interceptor : bool) (st : St) (mt : Metrics) : Invoker := λ method q out,
  match transmit_request q with
  | Err e => (out, Some e)
  | Ok q' =>
    match find (λ x, String.eqb method ("/" +:+ x.1.1 +:+ "/" +:+ md_MethodName x.1.2))
      (concat ((λ x, (λ md, (sd_ServiceName x.1, md, x.2)) <$> sd_Methods x.1) <$> s)) with
    | None => (out, Some "unknown service or method")
    | Some (_, md, srv) =>
      match md_Handler md srv (Ok q') interceptor st mt with
      | HPanic => (out, Some "error reading from server: EOF")
      | HReturn _ (Some e) _ => (out, Some e)
      | HReturn (AnyResponse (Some p)) None _ =>
        match transmit_response p with Ok p' => (p', None) | Err e => (out, Some e) end
      | HReturn _ None _ => (out, Some "error while marshaling")
      end
    end
  end.

Lemma connection_documented `{PROM : PrometheusLib} {St} (srv : Impl St) interceptor st mt :
  invoke_documented (GRPC := list_grpc St) (RegisterAuthorizationServiceServer [] srv) interceptor st mt
    (connection [(AuthorizationService_ServiceDesc, srv)] interceptor st mt).
Proof.
  intros sd srv' md q out Hsd Hmd. apply list_elem_of_singleton in Hsd as [= -> ->].
  apply list_elem_of_singleton in Hmd as ->. unfold connection.
  destruct (transmit_request q) as [q'|e]; [|by eexists].
  cbn -[CheckAccess_Handler transmit_response]. rewrite String.eqb_refl. cbn -[CheckAccess_Handler transmit_response].
  unfold invoke_outcome.
  destruct (CheckAccess_Handler (Ok q') (srv st) interceptor st mt) as [|[|[p|]|] [e|] st']; try done; try by eexists.
  destruct (transmit_response p) as [p'|e]; [done|by eexists].
Qed.

Definition httpbin_service : Impl AuditLogger :=
  service (mkRpc (Err "") (ListActivePolicies canonical_order reversed_order
    (ss_store (loop_sub (Subscriber.Start httpbin_run NewPolicyStore)))) 10 20 canonical_orders 0).

Definition httpbin_connection : Invoker :=
  connection (PROM := once_registry) [(AuthorizationService_ServiceDesc, httpbin_service)] true
    (NewAuditLogger 8) ready_metrics.

(** A path with a byte that is not UTF-8. *)
Definition bad_get : Request :=
  mkHttpRequest (Some {["X-User" := ["alice"]; "X-Role" := ["user"]]}) "get" (String (byte_of 255) "") "10.0.0.9:5000".

Lemma stream_to_enforcement_grpc_witness :
  policies_grant (stream_policies (take (deliveries httpbin_run (mkSub "0" NewPolicyStore)) httpbin_log))
    (pep_request (UNI := ascii_unicode) (http_get ["user"])) ∧
  handler (UNI := ascii_unicode) (stub httpbin_connection) bad_get ≠ Proxied.
Proof.
  pose proof (λ r, stream_to_enforcement_grpc (PROM := once_registry) (UNI := ascii_unicode)
    httpbin_log httpbin_run canonical_order reversed_order 10 20 canonical_orders 0 (NewAuditLogger 8)
    ready_metrics [] httpbin_connection canonical_order "x-jwt-payload" r carol_request
    httpbin_ids_ok httpbin_run_ok eq_refl (conj eq_refl eq_refl) (λ _ _ _, eq_refl)
    (connection_documented (PROM := once_registry) httpbin_service true (NewAuditLogger 8) ready_metrics)) as H.
  split.
  - apply (proj1 (H (http_get ["user"]))). vm_compute. reflexivity.
  - intros Hp. apply (proj1 (H bad_get)) in Hp as [Ht _]. revert Ht.
    apply (bool_decide_unpack (¬ request_text (pep_request (UNI := ascii_unicode) bad_get))). vm_compute. exact I.
Defined.
