(* ===== verification/ExampleAccess.v ===== *)
(** What the policies of examples/envoy-jwt permit, through the adapter's loader
    and publisher, the stream, the engine and the ext_authz adapter, with the
    regular expressions of package regexp. *)
From S2P Require Import Prelude GoText GoJson GoEnc Policy LiteralRegexp Store Operators Engine AuditQueue AuthzPb Server Subscriber PolicyJson Seeding JsonText Utf8 GoRegexp ExtAuthz System Wire PolicyTypes.
Open Scope string_scope.
Open Scope nat_scope.
Open Scope list_scope.

#[local] Existing Instance go_regexp | 0.

(** ** The policies *)

(** The bytes of a file: a backtick stands for a double quote. *)
Definition file_text (s : string) : string :=
  map_bytes (λ c, if Ascii.eqb c "`" then dquote else c) s.

(** The files of examples/envoy-jwt/policies. *)
Definition allow_admin_write : string := file_text
"{
  `id`: `pol-allow-admin-write`,
  `description`: `Allow WRITE to standard endpoints only to principals whose role set is exactly ['admin']. EQUALS compares the full multi-value set, so carol (admin+finance) is NOT granted write by this policy -- she is scoped to /anything/finance/* via pol-allow-finance-write. The path REGEX restricts this to httpbin's standard write endpoints so it doesn't shadow the finance policy.`,
  `access`: `ALLOW`,
  `target`: {
    `resource_type`: `httpbin`,
    `action`: `WRITE`
  },
  `conditions`: [
    {
      `attribute`: `resource.path`,
      `operator`: `REGEX`,
      `value`: [`^/(post|put|patch|delete)$`]
    },
    {
      `attribute`: `principal.role`,
      `operator`: `EQUALS`,
      `value`: [`admin`]
    }
  ]
}
".

Definition allow_finance_write : string := file_text
"{
  `id`: `pol-allow-finance-write`,
  `description`: `Allow WRITE to /anything/finance/* only to principals who hold BOTH 'admin' and 'finance'. Demonstrates a multi-condition ABAC rule combining a resource attribute (path REGEX) with a principal attribute (role CONTAINS_ALL). carol (admin+finance) is granted; alice (admin only) is denied. The /anything/finance/ prefix uses httpbin's catch-all endpoint, which stands in for a real finance service's routes.`,
  `access`: `ALLOW`,
  `target`: {
    `resource_type`: `httpbin`,
    `action`: `WRITE`
  },
  `conditions`: [
    {
      `attribute`: `resource.path`,
      `operator`: `REGEX`,
      `value`: [`^/anything/finance/`]
    },
    {
      `attribute`: `principal.role`,
      `operator`: `CONTAINS_ALL`,
      `value`: [`admin`, `finance`]
    }
  ]
}
".

Definition allow_staff_read : string := file_text
"{
  `id`: `pol-allow-staff-read`,
  `description`: `Allow READ to staff principals. Matches when principal.role contains 'admin' or 'user'. A blocked principal is rejected by pol-deny-blocked-read before this allow policy is considered.`,
  `access`: `ALLOW`,
  `target`: {
    `resource_type`: `httpbin`,
    `action`: `READ`
  },
  `conditions`: [
    {
      `attribute`: `principal.role`,
      `operator`: `CONTAINS_ANY`,
      `value`: [`admin`, `user`]
    }
  ]
}
".

Definition deny_blocked_read : string := file_text
"{
  `id`: `pol-deny-blocked-read`,
  `description`: `Deny READ to any principal whose roles include 'blocked'. Deny policies override allow policies in bouncer-engine, so a blocked principal is rejected even if they also hold a staff role.`,
  `access`: `DENY`,
  `target`: {
    `resource_type`: `httpbin`,
    `action`: `READ`
  },
  `conditions`: [
    {
      `attribute`: `principal.role`,
      `operator`: `CONTAINS_ANY`,
      `value`: [`blocked`]
    }
  ]
}
".

Definition policy_files : list (string * string) :=
  [("pol-allow-admin-write.json", allow_admin_write);
   ("pol-allow-finance-write.json", allow_finance_write);
   ("pol-allow-staff-read.json", allow_staff_read);
   ("pol-deny-blocked-read.json", deny_blocked_read)].

(** The directory the adapter is given, and the reading of a file in it. *)
Definition policies_dir : list dir_entry := (λ f, mkDirEntry f.1 false) <$> policy_files.

Definition read_policy (name : string) : result string :=
  match (list_to_map policy_files : gmap string string) !! name with
  | Some text => Ok text
  | None => Err "no such file"
  end.

(** What the adapter loads. *)
Definition envoy_files (sort : IdSorter) : list policyFile :=
  loadPolicyFiles sort (Ok policies_dir) read_policy.

(** A stream only the adapter has written: what earlier runs of it left of these
    files, and what a run appended whose publishing came to its end, retried
    passes and calls that failed after the append included.  The loading and the
    publishing are those of Seeding, which SeedProc relates to the adapter's
    copy. *)
Inductive adapter_stream (sort : IdSorter) : list XMessage → Prop :=
  | adapter_wrote XAdd attempts evs earlier fs ids :
      seedPolicies XAdd (envoy_files sort) attempts = (evs, true) → appended evs fs →
      (∀ f, f ∈ earlier → f ∈ envoy_files sort) → length ids = length (earlier ++ fs) →
      adapter_stream sort (file_entries ids (earlier ++ fs)).

(** ** Specification *)

(** The roles of a principal: its groups, or what the demo map has for its
    email. *)
Definition roles_of `{UNI : UnicodeLib} (claims : jwtClaims) : list string :=
  match jc_Groups claims with
  | [] => default [] (demoClaimMap !! ToLower (jc_Email claims))
  | groups => groups
  end.

Definition is_read `{UNI : UnicodeLib} (cr : CheckRequest) : Prop :=
  ToUpper (cr_method cr) ∈ ["GET"; "HEAD"; "OPTIONS"].

(** Who may do what, [admin_only] saying who has the role admin and no other. *)
Definition access_by `{UNI : UnicodeLib} (admin_only : list string → Prop) (cr : CheckRequest)
    (roles : list string) : Prop :=
  (is_read cr ∧ ("admin" ∈ roles ∨ "user" ∈ roles) ∧ "blocked" ∉ roles) ∨
  (¬ is_read cr ∧ cr_path cr ∈ ["/post"; "/put"; "/patch"; "/delete"] ∧ admin_only roles) ∨
  (¬ is_read cr ∧ String.prefix "/anything/finance/" (cr_path cr) = true ∧ "admin" ∈ roles ∧ "finance" ∈ roles).

(** As the descriptions of the policies have it: a role set exactly admin. *)
Definition described_access `{UNI : UnicodeLib} : CheckRequest → list string → Prop :=
  access_by (λ roles, ∀ r, r ∈ roles ↔ r = "admin").

(** As it is: the role admin, listed once. *)
Definition may_access `{UNI : UnicodeLib} : CheckRequest → list string → Prop :=
  access_by (λ roles, roles = ["admin"]).

(** ** Lemmas: the two patterns *)

Definition write_re : re :=
  RCat RBegin (RCat (RLit 47) (RCat (RAlt (lits (codes "pos") (RLit 116)) (RAlt (lits (codes "pu") (RLit 116))
    (RAlt (lits (codes "patc") (RLit 104)) (lits (codes "delet") (RLit 101))))) REnd)).
Definition finance_re : re := RCat RBegin (lits (codes "/anything/finance") (RLit 47)).

Lemma write_re_compiles : go_Compile "^/(post|put|patch|delete)$" = Ok write_re.
Proof. vm_compute. reflexivity. Qed.

Lemma finance_re_compiles : go_Compile "^/anything/finance/" = Ok finance_re.
Proof. vm_compute. reflexivity. Qed.

Lemma matches_text cs c b w e : cs ≠ [] → Matches (lits cs (RLit c)) b w e ↔ w = cs ++ [c].
Proof.
  intros Hcs. rewrite matches_lits by done. setoid_rewrite matches_lit. split.
  - by intros (w'&->&->).
  - intros ->. by exists [c].
Qed.

(** An expression that starts with '^' is looked for at the start only. *)
Lemma found_begin r s : found (RCat RBegin r) s ↔ ∃ w post, s = w ++ post ∧ Matches r true w (is_nil post).
Proof.
  unfold found. setoid_rewrite matches_cat. setoid_rewrite matches_begin. split.
  - intros (pre&w&post&->&w1&w2&->&[Hb ->]&H). destruct pre; [|done]. by exists w2, post.
  - intros (w&post&->&H). exists [], w, post. split; [done|]. by exists [], w.
Qed.

Lemma write_re_matches s :
  go_MatchString write_re s = true ↔ s ∈ ["/post"; "/put"; "/patch"; "/delete"].
Proof.
  unfold go_MatchString. rewrite search_found. unfold write_re. rewrite found_begin.
  trans (runes s ∈ [codes "/post"; codes "/put"; codes "/patch"; codes "/delete"]).
  - setoid_rewrite matches_cat. setoid_rewrite matches_lit. setoid_rewrite matches_cat.
    setoid_rewrite matches_alt. setoid_rewrite matches_alt. setoid_rewrite matches_alt.
    setoid_rewrite matches_text; [|done..]. setoid_rewrite matches_end.
    rewrite !elem_of_cons, elem_of_nil. split.
    + intros (w&post&->&w1&w2&->&->&w3&w4&->&Hw&He&->). destruct post; [|done].
      rewrite !app_nil_r. destruct Hw as [->|[->|[->| ->]]]; auto.
    + intros [->|[->|[->|[->|[]]]]]; eexists _, []; rewrite app_nil_r; (split; [done|]);
        eexists [_], _; (split; [reflexivity|]); (split; [reflexivity|]); eexists _, [];
        rewrite app_nil_r; (split; [reflexivity|]); (split; [|done]); auto.
  - rewrite !elem_of_cons, !elem_of_nil, !runes_literal by done. done.
Qed.

Lemma prefix_iff t s : String.prefix t s = true ↔ ∃ s', s = (t +:+ s')%string.
Proof.
  revert s. induction t as [|c t IH]; intros s; simpl.
  - split; [intros _; by exists s|]. intros _. by destruct s.
  - destruct s as [|c' s]; [split; [done|]; by intros (?&?)|].
    change (String.prefix (String c t) (String c' s)) with (if ascii_dec c c' then String.prefix t s else false).
    destruct (ascii_dec c c') as [->|Hne].
    + rewrite IH. split; intros (s'&H); exists s'; [by rewrite H|]. rewrite string_app_cons in H. by injection H.
    + split; [done|]. intros (s'&H). rewrite string_app_cons in H. congruence.
Qed.

Lemma finance_re_matches s :
  go_MatchString finance_re s = true ↔ String.prefix "/anything/finance/" s = true.
Proof.
  unfold go_MatchString. rewrite search_found. unfold finance_re. rewrite found_begin.
  setoid_rewrite matches_text; [|done]. rewrite prefix_iff. split.
  - intros (w&post&H&->). change (codes _ ++ [_]) with (codes "/anything/finance/") in H.
    apply runes_prefix in H as (s'&->&_); [|done]. by exists s'.
  - intros (s'&->). exists (codes "/anything/finance/"), (runes s'). split; [|done].
    by apply runes_prefix; [|exists s'].
Qed.

(** ** Lemmas: conditions *)

Lemma op_holds_regex (cond : Condition) vals r :
  c_Operator cond = "REGEX" → c_CompiledRegex cond = Some r →
  op_holds cond vals ↔ ∃ s, s ∈ vals ∧ MatchString r s = true.
Proof.
  intros Hop Hr. split; [inversion 1; try congruence|intros (s&?&?); by eapply op_regex].
  assert (re = r) as -> by congruence. eauto.
Qed.

Lemma op_holds_equals (cond : Condition) vals :
  c_Operator cond = "EQUALS" → op_holds cond vals ↔ c_Value cond ≡ₚ vals.
Proof. intros Hop. split; [inversion 1; congruence || done|by apply op_equals]. Qed.

Lemma op_holds_contains_any (cond : Condition) vals :
  c_Operator cond = "CONTAINS_ANY" → c_Value cond ≠ [] →
  op_holds cond vals ↔ ∃ v, v ∈ c_Value cond ∧ v ∈ vals.
Proof.
  intros Hop Hne. split; [inversion 1; try congruence; naive_solver|intros H; by apply op_contains_any; [|right]].
Qed.

(** For values without repetition the length test is implied. *)
Lemma op_holds_contains_all (cond : Condition) vals :
  c_Operator cond = "CONTAINS_ALL" → c_Value cond ≠ [] → NoDup (c_Value cond) →
  op_holds cond vals ↔ ∀ v, v ∈ c_Value cond → v ∈ vals.
Proof.
  intros Hop Hne Hnd. split; [inversion 1; try congruence; naive_solver|].
  intros H. apply op_contains_all; [done|]. right. split; [|done].
  by apply submseteq_length, NoDup_submseteq.
Qed.

(** A condition on an attribute the request carries. *)
Lemma proto_condition_at (cond : Condition) q prefix key attrs vals :
  c_Attribute cond = (prefix +:+ String "." key)%string → has_byte "." prefix = false →
  proto_attrs prefix q = Some attrs → proto_values attrs key = Some vals →
  proto_condition_holds cond q ↔ op_holds cond vals.
Proof.
  intros Ha Hb Hattrs Hvals. split; [|by exists prefix, key, attrs, vals].
  intros (prefix'&key'&attrs'&vals'&Ha'&Hb'&Hattrs'&Hvals'&Hop).
  pose proof (proj2 (Cut_spec _ "." _ _) (conj Ha Hb)) as Hc.
  pose proof (proj2 (Cut_spec _ "." _ _) (conj Ha' Hb')) as Hc'.
  rewrite Hc in Hc'. injection Hc' as <- <-. congruence.
Qed.

Section Requests.
Context `{UNI : UnicodeLib} (claims : jwtClaims) (cr : CheckRequest).

Lemma role_condition (cond : Condition) :
  c_Attribute cond = "principal.role" →
  proto_condition_holds cond (authz_request claims cr) ↔ op_holds cond (enrichRoles claims).
Proof. intros Ha. by apply proto_condition_at with "principal" "role" (attr_singleton "role" (enrichRoles claims)). Qed.

Lemma path_condition (cond : Condition) :
  c_Attribute cond = "resource.path" →
  proto_condition_holds cond (authz_request claims cr) ↔ op_holds cond [cr_path cr].
Proof. intros Ha. by apply proto_condition_at with "resource" "path" (attr_singleton "path" [cr_path cr]). Qed.

(** ** Lemmas: the four policies *)

Definition role_in (operator : string) (roles : list string) : Condition :=
  mkCondition "principal.role" operator roles None.

(** The description a file gives. *)
Definition description (text : string) : string :=
  match Unmarshal_Policy text with Ok p => p_Description p | Err _ => "" end.

Definition admin_write : Policy :=
  mkPolicy "pol-allow-admin-write" (description allow_admin_write) AccessAllow (mkTarget "httpbin" "WRITE")
    [mkCondition "resource.path" "REGEX" ["^/(post|put|patch|delete)$"] (Some write_re); role_in "EQUALS" ["admin"]].
Definition finance_write : Policy :=
  mkPolicy "pol-allow-finance-write" (description allow_finance_write) AccessAllow (mkTarget "httpbin" "WRITE")
    [mkCondition "resource.path" "REGEX" ["^/anything/finance/"] (Some finance_re);
     role_in "CONTAINS_ALL" ["admin"; "finance"]].
Definition read_staff : Policy :=
  mkPolicy "pol-allow-staff-read" (description allow_staff_read) AccessAllow (mkTarget "httpbin" "READ")
    [role_in "CONTAINS_ANY" ["admin"; "user"]].
Definition read_blocked : Policy :=
  mkPolicy "pol-deny-blocked-read" (description deny_blocked_read) AccessDeny (mkTarget "httpbin" "READ")
    [role_in "CONTAINS_ANY" ["blocked"]].

Definition envoy_rules : list Policy := [admin_write; finance_write; read_staff; read_blocked].

Lemma applies_at (p : Policy) :
  t_ResourceType (p_Target p) = "httpbin" →
  proto_applies p (authz_request claims cr) ↔
  t_Action (p_Target p) = actionForMethod (cr_method cr) ∧
  Forall (λ c, proto_condition_holds c (authz_request claims cr)) (p_Conditions p).
Proof. intros Hr. unfold proto_applies. rewrite Hr, Forall_forall. naive_solver. Qed.

Lemma admin_write_applies :
  proto_applies admin_write (authz_request claims cr) ↔
  actionForMethod (cr_method cr) = "WRITE" ∧ cr_path cr ∈ ["/post"; "/put"; "/patch"; "/delete"] ∧
  enrichRoles claims = ["admin"].
Proof.
  rewrite applies_at by done. cbn [admin_write p_Target t_Action p_Conditions].
  rewrite !Forall_cons, Forall_nil, path_condition, role_condition by done.
  rewrite (op_holds_regex _ _ write_re), op_holds_equals by done. cbn [role_in c_Value].
  setoid_rewrite list_elem_of_singleton. split.
  - intros (<-&(s&->&Hs)&Hr&_). split; [done|]. split; [by apply write_re_matches|].
    by apply Permutation_singleton_l in Hr.
  - intros (->&Hs&->). split_and!; [done| |done|done]. exists (cr_path cr). split; [done|]. by apply write_re_matches.
Qed.

Lemma finance_write_applies :
  proto_applies finance_write (authz_request claims cr) ↔
  actionForMethod (cr_method cr) = "WRITE" ∧ String.prefix "/anything/finance/" (cr_path cr) = true ∧
  "admin" ∈ enrichRoles claims ∧ "finance" ∈ enrichRoles claims.
Proof.
  rewrite applies_at by done. cbn [finance_write p_Target t_Action p_Conditions].
  rewrite !Forall_cons, Forall_nil, path_condition, role_condition by done.
  rewrite (op_holds_regex _ _ finance_re), op_holds_contains_all
    by (done || (apply (bool_decide_unpack _); vm_compute; exact I)).
  cbn [role_in c_Value]. setoid_rewrite list_elem_of_singleton. split.
  - intros (<-&(s&->&Hs)&Hr&_). split; [done|]. split; [by apply finance_re_matches|]. split; apply Hr; set_solver.
  - intros (->&Hs&H1&H2). split_and!; [done| |set_solver|done].
    exists (cr_path cr). split; [done|]. by apply finance_re_matches.
Qed.

Lemma read_applies vs id d acc :
  vs ≠ [] →
  proto_applies (mkPolicy id d acc (mkTarget "httpbin" "READ") [role_in "CONTAINS_ANY" vs]) (authz_request claims cr) ↔
  actionForMethod (cr_method cr) = "READ" ∧ ∃ v, v ∈ vs ∧ v ∈ enrichRoles claims.
Proof.
  intros Hne. rewrite applies_at by done. cbn [p_Target t_Action p_Conditions].
  rewrite !Forall_cons, Forall_nil, role_condition, op_holds_contains_any by done. cbn [role_in c_Value]. naive_solver.
Qed.

End Requests.

(** ** Lemmas: the stream *)

#[local] Instance re_eq_dec : EqDecision re.
Proof. solve_decision. Defined.
#[local] Instance Regexp_eq_dec : EqDecision Regexp := re_eq_dec.
#[local] Instance Condition_eq_dec : EqDecision Condition.
Proof. solve_decision. Defined.
#[local] Instance Target_eq_dec : EqDecision Target.
Proof. solve_decision. Defined.
#[local] Instance Policy_eq_dec : EqDecision Policy.
Proof. solve_decision. Defined.
#[local] Instance update_eq_dec : EqDecision update.
Proof. solve_decision. Defined.

Definition envoy_map : PolicyMap := foldl apply_update ∅ (SetPolicy <$> envoy_rules).

Lemma envoy_files_sorted sort : envoy_files sort = envoy_files merge_sorter.
Proof.
  unfold envoy_files, loadPolicyFiles. apply id_sort_unique.
  apply (bool_decide_unpack _). vm_compute. exact I.
Qed.

(** The loaded files, as the subscriber reads their entries. *)
Lemma envoy_files_updates : omap file_update (envoy_files merge_sorter) = SetPolicy <$> envoy_rules.
Proof. apply (bool_decide_unpack _). vm_compute. exact I. Qed.

Lemma envoy_stream sort log : adapter_stream sort log → stream_policies log = envoy_map.
Proof.
  intros [XAdd attempts evs earlier fs ids Hseed Happ Hin Hl].
  apply seedPolicies_seeded in Hseed.
  rewrite stream_policies_files, foldl_app by done.
  rewrite (proj2 (seeded_files _ _ _ _ Hseed Happ)), <-foldl_app, apply_files_prefix by done.
  by rewrite <-apply_files_updates, envoy_files_sorted, envoy_files_updates.
Qed.

Lemma set_policies_lookup (l : list Policy) id p :
  NoDup (p_ID <$> l) →
  foldl apply_update ∅ (SetPolicy <$> l) !! id = Some p ↔ p ∈ l ∧ p_ID p = id.
Proof.
  induction l as [|q l IH] using rev_ind; intros Hnd.
  { simpl. rewrite lookup_empty, elem_of_nil. naive_solver. }
  rewrite fmap_app in Hnd. apply NoDup_app in Hnd as (Hnd&Hq&_).
  rewrite fmap_app, foldl_app. cbn [foldl fmap list_fmap apply_update].
  rewrite lookup_insert_Some, (IH Hnd), elem_of_app, list_elem_of_singleton. split.
  - intros [[<- ->]|[Hne [Hp <-]]]; auto.
  - intros [[Hp| ->] <-]; [right|by left]. split; [|done]. intros Heq.
    apply (Hq (p_ID p)); [by apply list_elem_of_fmap_2|]. rewrite <-Heq. set_solver.
Qed.

Lemma envoy_lookup id p : envoy_map !! id = Some p ↔ p ∈ envoy_rules ∧ p_ID p = id.
Proof. apply set_policies_lookup. apply (bool_decide_unpack _). vm_compute. exact I. Qed.

Lemma enrichRoles_roles `{UNI : UnicodeLib} claims : enrichRoles claims = roles_of claims.
Proof. unfold enrichRoles, roles_of. by destruct (jc_Groups claims); [destruct (demoClaimMap !! _)|]. Qed.

Lemma actionForMethod_is_read `{UNI : UnicodeLib} cr : actionForMethod (cr_method cr) = "READ" ↔ is_read cr.
Proof. apply actionForMethod_READ. Qed.

(** What the rules grant. *)
Lemma envoy_grant `{UNI : UnicodeLib} claims cr :
  policies_grant envoy_map (authz_request claims cr) ↔ may_access cr (roles_of claims).
Proof.
  pose proof (admin_write_applies claims cr) as H1. pose proof (finance_write_applies claims cr) as H2.
  pose proof (read_applies claims cr ["admin"; "user"] "pol-allow-staff-read" (description allow_staff_read)
    AccessAllow ltac:(done)) as H3.
  pose proof (read_applies claims cr ["blocked"] "pol-deny-blocked-read" (description deny_blocked_read)
    AccessDeny ltac:(done)) as H4.
  fold read_staff in H3. fold read_blocked in H4.
  assert (Hallow : (∃ id p, envoy_map !! id = Some p ∧ p_Access p = AccessAllow ∧
      proto_applies p (authz_request claims cr)) ↔
    proto_applies admin_write (authz_request claims cr) ∨ proto_applies finance_write (authz_request claims cr) ∨
    proto_applies read_staff (authz_request claims cr)).
  { setoid_rewrite envoy_lookup. unfold envoy_rules. setoid_rewrite elem_of_cons. setoid_rewrite elem_of_cons.
    setoid_rewrite elem_of_cons. setoid_rewrite list_elem_of_singleton. split.
    - intros (id&p&[[->|[->|[->| ->]]] _]&Hacc&Hp); auto. discriminate Hacc.
    - intros [Hp|[Hp|Hp]]; [exists (p_ID admin_write), admin_write|exists (p_ID finance_write), finance_write|
        exists (p_ID read_staff), read_staff];
        (split; [split; [|reflexivity]; auto|by split]). }
  assert (Hdeny : (∀ id p, envoy_map !! id = Some p → p_Access p = AccessDeny →
      ¬ proto_applies p (authz_request claims cr)) ↔ ¬ proto_applies read_blocked (authz_request claims cr)).
  { setoid_rewrite envoy_lookup. split.
    - intros H. by apply (H "pol-deny-blocked-read"); [split; [unfold envoy_rules; set_solver|]|].
    - intros Hno id p [Hin _] Hacc. unfold envoy_rules in Hin. rewrite !elem_of_cons, elem_of_nil in Hin.
      destruct Hin as [->|[->|[->|[->|[]]]]]; try discriminate Hacc. done. }
  unfold policies_grant, may_access, access_by. rewrite Hallow, Hdeny, H1, H2, H3, H4.
  rewrite <-!enrichRoles_roles, <-!actionForMethod_is_read.
  setoid_rewrite list_elem_of_singleton.
  assert (Hor : (∃ v, v ∈ ["admin"; "user"] ∧ v ∈ enrichRoles claims) ↔
    "admin" ∈ enrichRoles claims ∨ "user" ∈ enrichRoles claims) by set_solver.
  assert (Hblocked : (∃ v, v = "blocked" ∧ v ∈ enrichRoles claims) ↔ "blocked" ∈ enrichRoles claims) by naive_solver.
  rewrite Hor, Hblocked. clear.
  assert (actionForMethod (cr_method cr) = "READ" ∨ actionForMethod (cr_method cr) = "WRITE") as [->| ->]
    by (unfold actionForMethod; case_match; auto); naive_solver.
Qed.

(** For roles listed once each, the descriptions say what holds. *)
Lemma may_access_described `{UNI : UnicodeLib} cr roles :
  NoDup roles → may_access cr roles ↔ described_access cr roles.
Proof.
  intros Hnd. unfold may_access, described_access, access_by.
  enough (roles = ["admin"] ↔ ∀ r, r ∈ roles ↔ r = "admin") as -> by done. split.
  - intros ->. intros r. apply list_elem_of_singleton.
  - intros H. apply Permutation_singleton_r, NoDup_Permutation; [done|apply NoDup_singleton|].
    intros r. by rewrite H, list_elem_of_singleton.
Qed.

(** ** Property *)

(** C19: what the envoy-jwt example permits.  The stream is one the adapter
    itself has filled from the four files of examples/envoy-jwt/policies, byte
    for byte, by its own loading and publishing, whatever retries that took, in
    this and in earlier runs.  Once the engine's subscriber has consumed it,
    whatever timeouts and errors came in between, the adapter permits a request
    exactly when its claims are accepted and: its method reads and the roles
    have admin or user and not blocked; or it writes to /post, /put, /patch or
    /delete and the role list is admin, once; or it writes below
    /anything/finance/ and the roles have admin and finance.  For roles listed
    once each that is what the descriptions in the files promise.  It is not
    when a token repeats a role: the role set of admin, admin is exactly admin,
    and the write the first description promises it is refused. *)
Theorem envoy_example_access `{UNI : UnicodeLib} sort log its oa od start now os hint l o payloadHeader cr :
  adapter_stream sort log → stream_ids_ok log →
  redis_run log its (mkSub "0" NewPolicyStore) → deliveries its (mkSub "0" NewPolicyStore) = length log →
  lg_closed l = false →
  let ps := ss_store (loop_sub (Subscriber.Start its NewPolicyStore)) in
  let client := rpc_client (ListActivePolicies oa od ps) start now os hint l in
  let permitted := permits (Check o payloadHeader client cr) in
  (permitted ↔ ∃ claims, extractClaims o payloadHeader (cr_headers cr) = inl claims ∧
    may_access cr (roles_of claims)) ∧
  ∀ claims, extractClaims o payloadHeader (cr_headers cr) = inl claims →
    (NoDup (roles_of claims) → permitted ↔ described_access cr (roles_of claims)) ∧
    (roles_of claims = ["admin"; "admin"] → ¬ is_read cr → cr_path cr = "/post" →
     described_access cr (roles_of claims) ∧ ¬ permitted).
Proof.
  intros Hlog Hok Hrun Hall Hopen ps client permitted.
  assert (Hrep : represents ps envoy_map).
  { destruct (replay log its _ 0 Hok (at_position_start log) Hrun) as (_&_&Hrep). simpl in Hrep.
    by rewrite Hall, firstn_all, (envoy_stream sort) in Hrep. }
  assert (Hlive : live_map envoy_map) by (rewrite <-(envoy_stream sort log Hlog); apply stream_policies_live).
  assert (permitted ↔ ∃ claims, extractClaims o payloadHeader (cr_headers cr) = inl claims ∧
    may_access cr (roles_of claims)) as Hp.
  { unfold permitted. rewrite Check_permits. setoid_rewrite <-envoy_grant.
    pose proof (λ q, rpc_client_grants ps envoy_map oa od start now os hint l q Hrep Hlive Hopen) as Hq.
    split.
    - intros (claims&resp&Hc&Hr). exists claims. split; [done|]. apply Hq. eauto.
    - intros (claims&Hc&Hg). apply Hq in Hg as (resp&?&?). by exists claims, resp. }
  split; [exact Hp|]. intros claims Hc.
  assert (permitted ↔ may_access cr (roles_of claims)) as Hiff.
  { rewrite Hp, Hc. split; [by intros (?&[= <-]&?)|eauto]. }
  split; [intros Hnd; by rewrite Hiff, may_access_described|].
  intros Htwice Hwrite Hpath. rewrite Hiff, Htwice. unfold may_access, described_access, access_by. rewrite Hpath. split.
  - right. left. split; [done|]. split; [by left|]. set_solver.
  - intros [[Hr _]|[(_&_&Hr)|(_&Hf&_)]]; [exact (Hwrite Hr)|discriminate Hr|discriminate Hf].
Qed.

(** ** Witness *)

(** A run whose second call failed before and whose fourth failed after the
    append, on a stream an earlier run had filled. *)
Definition flaky_redis (n : nat) (args : XAddArgs) : option string :=
  if (n =? 1) || (n =? 3) then Some "i/o timeout" else None.

Definition flaky_evs : list seed_event := (seedPolicies flaky_redis (envoy_files merge_sorter) 3).1.

(** What the calls left, by the number of the call. *)
Definition flaky_left : list policyFile :=
  omap (λ '(n, f), if n =? 1 then None else Some f) (imap pair (omap event_file flaky_evs)).

Definition envoy_log : list XMessage :=
  let fs := envoy_files merge_sorter ++ flaky_left in
  file_entries (imap (λ i _, (pretty i +:+ "-1")%string) fs) fs.

Lemma envoy_log_written : adapter_stream merge_sorter envoy_log.
Proof.
  apply (adapter_wrote merge_sorter flaky_redis 3 flaky_evs (envoy_files merge_sorter) flaky_left).
  - vm_compute. reflexivity.
  - vm_compute. apply ap_ok, ap_lost, ap_sleep, ap_ok, ap_kept, ap_sleep. repeat apply ap_ok. apply ap_nil.
  - done.
  - vm_compute. reflexivity.
Qed.

Definition envoy_run : list iteration :=
  (λ e, mkIteration false (XStreams [[e]]) false false
    (mkMapOrders canonical_order canonical_order canonical_order)) <$> envoy_log.

Definition envoy_permits (cr : CheckRequest) : Prop :=
  permits (Check (UNI := ascii_unicode) canonical_order "x-jwt-payload"
    (rpc_client (ListActivePolicies canonical_order reversed_order
      (ss_store (loop_sub (Subscriber.Start envoy_run NewPolicyStore)))) 3 8 canonical_orders 0 (NewAuditLogger 4)) cr).

(** carol, by the demo map, holds admin and finance: she may not POST /post, and
    may write below /anything/finance/.  A token with the groups admin, admin
    may not POST /post either. *)
Definition carol_writes (path : string) : CheckRequest :=
  mkCheckRequest (cr_headers carol_request) path "post" "10.1.2.3".

(** The payload of a token with the groups admin, admin. *)
Definition twice_admin : CheckRequest :=
  mkCheckRequest (Some {["x-jwt-payload" := "eyJzdWIiOiJ1LTIiLCJncm91cHMiOlsiYWRtaW4iLCJhZG1pbiJdfQ"]})
    "/post" "POST" "10.1.2.3".

Lemma envoy_example_access_witness :
  envoy_permits (carol_writes "/anything/finance/q3") ∧ ¬ envoy_permits (carol_writes "/post") ∧
  ¬ envoy_permits twice_admin.
Proof.
  assert (Hids : stream_ids_ok envoy_log) by (split; apply (bool_decide_unpack _); vm_compute; exact I).
  assert (Hrun : redis_run envoy_log envoy_run (mkSub "0" NewPolicyStore)) by (apply redis_run_b_run; vm_compute; reflexivity).
  assert (Hall : deliveries envoy_run (mkSub "0" NewPolicyStore) = length envoy_log) by (vm_compute; reflexivity).
  pose proof (λ cr, envoy_example_access (UNI := ascii_unicode) merge_sorter envoy_log envoy_run canonical_order
    reversed_order 3 8 canonical_orders 0 (NewAuditLogger 4) canonical_order "x-jwt-payload" cr
    envoy_log_written Hids Hrun Hall eq_refl) as H.
  assert (Hroles : roles_of (UNI := ascii_unicode) carol_claims = ["admin"; "finance"]) by (vm_compute; reflexivity).
  assert (Hnd : NoDup (roles_of (UNI := ascii_unicode) carol_claims)) by (apply (bool_decide_unpack _); vm_compute; exact I).
  assert (Hw : ∀ path, ¬ is_read (UNI := ascii_unicode) (carol_writes path))
    by (intros path; unfold is_read; apply (bool_decide_unpack _); vm_compute; exact I).
  split; [|split].
  - apply (proj1 (proj2 (H (carol_writes "/anything/finance/q3")) carol_claims carol_claims_ok) Hnd).
    rewrite Hroles. right. right. split; [apply Hw|]. split; [reflexivity|].
    split; apply (bool_decide_unpack _); vm_compute; exact I.
  - intros Hp. apply (proj1 (proj2 (H (carol_writes "/post")) carol_claims carol_claims_ok) Hnd) in Hp.
    rewrite Hroles in Hp. destruct Hp as [[Hr _]|[(_&_&Hr)|(_&Hf&_)]]; [exact (Hw _ Hr)| |discriminate Hf].
    discriminate (proj1 (Hr "finance")). right. left.
  - refine (proj2 (proj2 (proj2 (H twice_admin) (mkClaims "u-2" "" ["admin"; "admin"]) _) _ _ _)); try reflexivity;
      try (vm_compute; reflexivity).
    unfold is_read. apply (bool_decide_unpack _). vm_compute. exact I.
Defined.

(** The walkthrough of the example's README, request by request: [None] for a
    request let through, and else the status.  The tokens name the users by
    email. *)
Definition as_user (payload method path : string) : CheckRequest :=
  mkCheckRequest (Some {["x-jwt-payload" := payload]}) path method "10.1.2.3".

Definition alice : string := "eyJzdWIiOiJhbGljZS1pZCIsImVtYWlsIjoiYWxpY2VAYm91bmNlci5kZXYifQ".
Definition bob : string := "eyJzdWIiOiJib2ItaWQiLCJlbWFpbCI6ImJvYkBib3VuY2VyLmRldiJ9".
Definition carol : string := "eyJzdWIiOiJjYXJvbC1pZCIsImVtYWlsIjoiY2Fyb2xAYm91bmNlci5kZXYifQ".
Definition mallory : string := "eyJzdWIiOiJtYWxsb3J5LWlkIiwiZW1haWwiOiJtYWxsb3J5QGJvdW5jZXIuZGV2In0".

Definition refusal (cr : CheckRequest) : option StatusCode :=
  match ck_HttpResponse (Check (UNI := ascii_unicode) canonical_order "x-jwt-payload"
    (rpc_client (ListActivePolicies canonical_order reversed_order
      (ss_store (loop_sub (Subscriber.Start envoy_run NewPolicyStore)))) 3 8 canonical_orders 0 (NewAuditLogger 4)) cr)
  with OkResponse _ => None | DeniedResponse status _ _ => Some status end.

Example readme_walkthrough :
  refusal <$> [as_user alice "GET" "/get"; as_user bob "GET" "/get"; mkCheckRequest None "/get" "GET" "10.1.2.3";
    as_user mallory "GET" "/get"; as_user alice "POST" "/post"; as_user bob "POST" "/post";
    as_user carol "POST" "/post"; as_user carol "POST" "/anything/finance/budget";
    as_user alice "POST" "/anything/finance/budget"] =
  [None; None; Some Unauthorized; Some Forbidden; None; Some Forbidden; Some Forbidden; None; Some Forbidden].
Proof. vm_compute. reflexivity. Qed.
