(* ===== verification/EngineTests.v ===== *)
(** The engine on the repository's own scenarios: the JSON files of
    internal/engine/testdata, read by the decoder of the library as
    internal/engine/engine_test.go reads them, and run. *)
From S2P Require Import Prelude GoText GoJson Policy LiteralRegexp Store Operators Engine Subscriber PolicyJson GoEnc JsonText Utf8 GoRegexp.
Open Scope string_scope.
Open Scope nat_scope.
Open Scope list_scope.

#[local] Existing Instance go_regexp | 0.

(** ** Reading a file *)

(** A map[string][]string, each element decoded into a fresh slice. *)
Definition decode_attributes : decoder (GoMap (list string)) := λ cur j,
  match j with
  | JNull => (None, true)
  | JObject fields =>
    let '(m, ok) := foldl (λ acc kv,
      let '(vs, ok) := decode_slice "" decode_string nil_slice kv.2 in
      (<[kv.1 := slice_list vs]> acc.1, acc.2 && ok)) (default ∅ cur, true) fields in (Some m, ok)
  | _ => (cur, false)
  end.

Definition zero_request : EvaluationRequest := mkRequest "" None "" "" None "" None.

Definition decode_request : decoder EvaluationRequest :=
  decode_struct ["principal_id"; "principal_attributes"; "resource_type"; "resource_id"; "resource_attributes";
                 "action"; "environment_attributes"] (λ name cur j,
    let '(mkRequest pid pa rt rid ra act ea) := cur in
    if String.eqb name "principal_id" then let '(s, ok) := decode_string pid j in (mkRequest s pa rt rid ra act ea, ok)
    else if String.eqb name "principal_attributes" then
      let '(m, ok) := decode_attributes pa j in (mkRequest pid m rt rid ra act ea, ok)
    else if String.eqb name "resource_type" then
      let '(s, ok) := decode_string rt j in (mkRequest pid pa s rid ra act ea, ok)
    else if String.eqb name "resource_id" then
      let '(s, ok) := decode_string rid j in (mkRequest pid pa rt s ra act ea, ok)
    else if String.eqb name "resource_attributes" then
      let '(m, ok) := decode_attributes ra j in (mkRequest pid pa rt rid m act ea, ok)
    else if String.eqb name "action" then
      let '(s, ok) := decode_string act j in (mkRequest pid pa rt rid ra s ea, ok)
    else let '(m, ok) := decode_attributes ea j in (mkRequest pid pa rt rid ra act m, ok)).

Definition decode_bool : decoder bool := λ cur j,
  match j with JNull => (cur, true) | JBool b => (b, true) | _ => (cur, false) end.

(** [testCase], without the fields no file sets. *)
Record testCase := mkTestCase {
  tc_Name : string;
  tc_Policies : slice PolicyVar;
  tc_Request : EvaluationRequest;
  tc_WantAllowed : bool;
  tc_WantPolicyID : string;
  tc_WantReason : string
}.

Definition zero_testCase : testCase := mkTestCase "" nil_slice zero_request false "" "".

Definition decode_testCase : decoder testCase :=
  decode_struct ["name"; "policies"; "request"; "want_allowed"; "want_policy_id"; "want_reason"] (λ name cur j,
    let '(mkTestCase n ps req wa wp wr) := cur in
    if String.eqb name "name" then let '(s, ok) := decode_string n j in (mkTestCase s ps req wa wp wr, ok)
    else if String.eqb name "policies" then
      let '(s, ok) := decode_slice zero_PolicyVar decode_Policy ps j in (mkTestCase n s req wa wp wr, ok)
    else if String.eqb name "request" then
      let '(r, ok) := decode_request req j in (mkTestCase n ps r wa wp wr, ok)
    else if String.eqb name "want_allowed" then
      let '(b, ok) := decode_bool wa j in (mkTestCase n ps req b wp wr, ok)
    else if String.eqb name "want_policy_id" then
      let '(s, ok) := decode_string wp j in (mkTestCase n ps req wa s wr, ok)
    else let '(s, ok) := decode_string wr j in (mkTestCase n ps req wa wp s, ok)).

(** ** Running a case *)

(** A fresh store with the compiled policies, or nothing if one is rejected. *)
Definition load_policies (ps : list PolicyVar) : option PolicyStore :=
  foldl (λ st p, st ← st;
    match Compile (policy_of_var p) with
    | (p, None) => Some (UpsertPolicy canonical_order p st)
    | _ => None
    end) (Some NewPolicyStore) ps.

(** [runTestCase]. *)
Definition run_case (tc : testCase) : bool :=
  match load_policies (slice_list (tc_Policies tc)) with
  | None => false
  | Some st =>
    match CheckAccess (ListActivePolicies canonical_order canonical_order st) 0 0 (tc_Request tc) with
    | Err _ => false
    | Ok resp =>
      Bool.eqb (e_Allowed resp) (tc_WantAllowed tc) && String.eqb (e_MatchedPolicyID resp) (tc_WantPolicyID tc) &&
      (String.eqb (tc_WantReason tc) "" || String.eqb (e_Reason resp) (tc_WantReason tc))
    end
  end.

(** The number of cases of a file, if it reads and each of them passes. *)
Definition run_file (data : string) : option nat :=
  match Unmarshal nil_slice (decode_slice zero_testCase decode_testCase) (jtext data) with
  | Ok cases => if forallb run_case (slice_list cases) then Some (length (slice_list cases)) else None
  | Err _ => None
  end.

(** ** The files *)

Definition basic_operators : string :=
  "[{'name': 'Equals allow', 'policies': [{'id': 'basic-equals', 'description': 'Internal zones may read endpoint metrics', 'access': 'ALLOW', 'target': {'resource_type': 'endpoint-metrics-log', 'action': 'READ'}, 'conditions': [{'attribute': 'environment.network_zone', 'operator': 'EQUALS', 'value': ['internal-data', 'backup-mgmt']}]}], 'request': {'resource_type': 'endpoint-metrics-log', 'action': 'READ', 'principal_attributes': {'roles': ['DevOps', 'Admin']}, 'environment_attributes': {'network_zone': ['internal-data', 'backup-mgmt']}}, 'want_allowed': true, 'want_policy_id': 'basic-equals'},
   {'name': 'Equals allow, value order reversed', 'policies': [{'id': 'basic-equals', 'description': 'Internal zones may read endpoint metrics', 'access': 'ALLOW', 'target': {'resource_type': 'endpoint-metrics-log', 'action': 'READ'}, 'conditions': [{'attribute': 'environment.network_zone', 'operator': 'EQUALS', 'value': ['internal-data', 'backup-mgmt']}]}], 'request': {'resource_type': 'endpoint-metrics-log', 'action': 'READ', 'principal_attributes': {'roles': ['DevOps', 'Admin']}, 'environment_attributes': {'network_zone': ['backup-mgmt', 'internal-data']}}, 'want_allowed': true, 'want_policy_id': 'basic-equals'},
   {'name': 'CONTAINS_ALL single value', 'policies': [{'id': 'basic-contains-all', 'description': 'Admins may read audit logs', 'access': 'ALLOW', 'target': {'resource_type': 'audit-log', 'action': 'READ'}, 'conditions': [{'attribute': 'principal.roles', 'operator': 'CONTAINS_ALL', 'value': ['Admin']}]}], 'request': {'resource_type': 'audit-log', 'action': 'READ', 'principal_attributes': {'roles': ['DevOps', 'Admin']}, 'resource_attributes': {'network_zone': ['internal-vpn']}}, 'want_allowed': true, 'want_policy_id': 'basic-contains-all'},
   {'name': 'CONTAINS_ALL multi value', 'policies': [{'id': 'basic-contains-all-multi', 'description': 'Internal backup zones may read backups', 'access': 'ALLOW', 'target': {'resource_type': 'backup-database', 'action': 'READ'}, 'conditions': [{'attribute': 'resource.network_zone', 'operator': 'CONTAINS_ALL', 'value': ['internal-data', 'backup-mgmt']}]}], 'request': {'resource_type': 'backup-database', 'action': 'READ', 'principal_attributes': {'roles': ['DevOps', 'Admin']}, 'resource_attributes': {'network_zone': ['internal-data', 'backup-mgmt', 'internal-vpn']}}, 'want_allowed': true, 'want_policy_id': 'basic-contains-all-multi'},
   {'name': 'CONTAINS_ANY overlapping value', 'policies': [{'id': 'basic-contains-any', 'description': 'Internal zones may read internal databases', 'access': 'ALLOW', 'target': {'resource_type': 'internal-database', 'action': 'READ'}, 'conditions': [{'attribute': 'resource.network_zone', 'operator': 'CONTAINS_ANY', 'value': ['internal-data', 'backup-mgmt']}]}], 'request': {'resource_type': 'internal-database', 'action': 'READ', 'principal_attributes': {'roles': ['DevOps', 'Admin']}, 'resource_attributes': {'network_zone': ['internal-data']}}, 'want_allowed': true, 'want_policy_id': 'basic-contains-any'},
   {'name': 'IN_CIDR basic test', 'policies': [{'id': 'basic-in-cidr', 'description': 'Database access restricted to internal VPN', 'access': 'ALLOW', 'target': {'resource_type': 'customer-database', 'action': 'WRITE'}, 'conditions': [{'attribute': 'environment.ip_address', 'operator': 'IN_CIDR', 'value': ['10.50.0.0/16']}]}], 'request': {'resource_type': 'customer-database', 'action': 'WRITE', 'principal_attributes': {'roles': ['SalesDept']}, 'environment_attributes': {'ip_address': ['10.50.0.40']}}, 'want_allowed': true, 'want_policy_id': 'basic-in-cidr'},
   {'name': 'BETWEEN basic test', 'policies': [{'id': 'basic-between', 'description': 'Database access restricted to business hours', 'access': 'ALLOW', 'target': {'resource_type': 'inventory-database', 'action': 'WRITE'}, 'conditions': [{'attribute': 'environment.hour_of_day', 'operator': 'BETWEEN', 'value': ['9', '16']}]}], 'request': {'resource_type': 'inventory-database', 'action': 'WRITE', 'principal_attributes': {'roles': ['Admin']}, 'environment_attributes': {'hour_of_day': ['12']}}, 'want_allowed': true, 'want_policy_id': 'basic-between'}]".

Definition deny_scenarios : string :=
  "[{'name': 'Authorized, all conditions met', 'policies': [{'id': 'pol-threat-001', 'description': 'Security Admins can read endpoint threat logs from the internal VPN', 'access': 'ALLOW', 'target': {'resource_type': 'endpoint-threat-log', 'action': 'READ'}, 'conditions': [{'attribute': 'environment.network_zone', 'operator': 'EQUALS', 'value': ['internal-vpn']}]}], 'request': {'resource_type': 'endpoint-threat-log', 'action': 'READ', 'principal_attributes': {'roles': ['User', 'SecurityAdmin', 'DevOps']}, 'environment_attributes': {'network_zone': ['internal-vpn']}}, 'want_allowed': true, 'want_policy_id': 'pol-threat-001'},
   {'name': 'Implicit deny, wrong network zone', 'policies': [{'id': 'pol-threat-001', 'description': 'Security Admins can read endpoint threat logs from the internal VPN', 'access': 'ALLOW', 'target': {'resource_type': 'endpoint-threat-log', 'action': 'READ'}, 'conditions': [{'attribute': 'environment.network_zone', 'operator': 'EQUALS', 'value': ['internal-vpn']}]}], 'request': {'resource_type': 'endpoint-threat-log', 'action': 'READ', 'principal_attributes': {'roles': ['SecurityAdmin']}, 'environment_attributes': {'network_zone': ['public-internet']}}, 'want_allowed': false, 'want_policy_id': '', 'want_reason': 'Implict Deny: No matching polices'},
   {'name': 'Implicit deny, non-matching resource type', 'policies': [{'id': 'pol-threat-001', 'description': 'Security Admins can read endpoint threat logs from the internal VPN', 'access': 'ALLOW', 'target': {'resource_type': 'endpoint-threat-log', 'action': 'READ'}, 'conditions': [{'attribute': 'environment.network_zone', 'operator': 'EQUALS', 'value': ['internal-vpn']}]}], 'request': {'resource_type': 'billing-system', 'action': 'READ', 'principal_attributes': {'roles': ['SecurityAdmin']}, 'environment_attributes': {'network_zone': ['internal-vpn']}}, 'want_allowed': false, 'want_policy_id': ''},
   {'name': 'Explicit DENY policy matched', 'policies': [{'id': 'pol-deny-001', 'description': 'Block writes from the public internet', 'access': 'DENY', 'target': {'resource_type': 'internal-database', 'action': 'WRITE'}, 'conditions': [{'attribute': 'environment.network_zone', 'operator': 'EQUALS', 'value': ['public-internet']}]}], 'request': {'resource_type': 'internal-database', 'action': 'WRITE', 'environment_attributes': {'network_zone': ['public-internet']}}, 'want_allowed': false, 'want_policy_id': 'pol-deny-001'},
   {'name': 'Explicit deny overrides matching allow', 'policies': [{'id': 'pol-allow-002', 'description': 'Contractors may read internal docs', 'access': 'ALLOW', 'target': {'resource_type': 'internal-docs', 'action': 'READ'}, 'conditions': [{'attribute': 'principal.role', 'operator': 'EQUALS', 'value': ['contractor']}]}, {'id': 'pol-deny-002', 'description': 'Block contractors from internal docs', 'access': 'DENY', 'target': {'resource_type': 'internal-docs', 'action': 'READ'}, 'conditions': [{'attribute': 'principal.role', 'operator': 'EQUALS', 'value': ['contractor']}]}], 'request': {'resource_type': 'internal-docs', 'action': 'READ', 'principal_attributes': {'role': ['contractor']}}, 'want_allowed': false, 'want_policy_id': 'pol-deny-002'},
   {'name': 'Allow applies when deny does not match', 'policies': [{'id': 'pol-allow-003', 'description': 'Engineers may write to the config service', 'access': 'ALLOW', 'target': {'resource_type': 'config-service', 'action': 'WRITE'}, 'conditions': [{'attribute': 'principal.role', 'operator': 'EQUALS', 'value': ['engineer']}]}, {'id': 'pol-deny-003', 'description': 'Block public-internet writes to the config service', 'access': 'DENY', 'target': {'resource_type': 'config-service', 'action': 'WRITE'}, 'conditions': [{'attribute': 'environment.network_zone', 'operator': 'EQUALS', 'value': ['public-internet']}]}], 'request': {'resource_type': 'config-service', 'action': 'WRITE', 'principal_attributes': {'role': ['engineer']}, 'environment_attributes': {'network_zone': ['internal-vpn']}}, 'want_allowed': true, 'want_policy_id': 'pol-allow-003'}]".

Definition regex_scenarios : string :=
  "[{'name': 'REGEX basic match', 'policies': [{'id': 'pol-regex-001', 'description': 'Admin-prefixed principals may read audit logs', 'access': 'ALLOW', 'target': {'resource_type': 'audit-log', 'action': 'READ'}, 'conditions': [{'attribute': 'principal.username', 'operator': 'REGEX', 'value': ['^admin-.*']}]}], 'request': {'resource_type': 'audit-log', 'action': 'READ', 'principal_attributes': {'username': ['admin-dev']}}, 'want_allowed': true, 'want_policy_id': 'pol-regex-001'},
   {'name': 'REGEX no match', 'policies': [{'id': 'pol-regex-001', 'description': 'Admin-prefixed principals may read audit logs', 'access': 'ALLOW', 'target': {'resource_type': 'audit-log', 'action': 'READ'}, 'conditions': [{'attribute': 'principal.username', 'operator': 'REGEX', 'value': ['^admin-.*']}]}], 'request': {'resource_type': 'audit-log', 'action': 'READ', 'principal_attributes': {'username': ['user-dev']}}, 'want_allowed': false, 'want_policy_id': ''},
   {'name': 'REGEX case sensitivity', 'policies': [{'id': 'pol-regex-002', 'description': 'Admin (capital A) principals only', 'access': 'ALLOW', 'target': {'resource_type': 'audit-log', 'action': 'READ'}, 'conditions': [{'attribute': 'principal.username', 'operator': 'REGEX', 'value': ['^Admin']}]}], 'request': {'resource_type': 'audit-log', 'action': 'READ', 'principal_attributes': {'username': ['admin-dev']}}, 'want_allowed': false, 'want_policy_id': ''},
   {'name': 'REGEX email-like pattern', 'policies': [{'id': 'pol-regex-003', 'description': 'Allow example.com email users to read audit logs', 'access': 'ALLOW', 'target': {'resource_type': 'audit-log', 'action': 'READ'}, 'conditions': [{'attribute': 'principal.email', 'operator': 'REGEX', 'value': ['^[a-z]+@example\\.com$']}]}], 'request': {'resource_type': 'audit-log', 'action': 'READ', 'principal_attributes': {'email': ['devops@example.com']}}, 'want_allowed': true, 'want_policy_id': 'pol-regex-003'},
   {'name': 'REGEX special characters', 'policies': [{'id': 'pol-regex-004', 'description': 'Allow requests from 10.50.x.x IPs', 'access': 'ALLOW', 'target': {'resource_type': 'customer-database', 'action': 'READ'}, 'conditions': [{'attribute': 'environment.ip_address', 'operator': 'REGEX', 'value': ['10\\.50\\..*']}]}], 'request': {'resource_type': 'customer-database', 'action': 'READ', 'environment_attributes': {'ip_address': ['10.50.0.40']}}, 'want_allowed': true, 'want_policy_id': 'pol-regex-004'},
   {'name': 'REGEX with DENY policy', 'policies': [{'id': 'pol-regex-deny-001', 'description': 'Block test and staging environments from production writes', 'access': 'DENY', 'target': {'resource_type': 'production-database', 'action': 'WRITE'}, 'conditions': [{'attribute': 'environment.name', 'operator': 'REGEX', 'value': ['^(test|staging)-.*']}]}], 'request': {'resource_type': 'production-database', 'action': 'WRITE', 'environment_attributes': {'name': ['staging-api']}}, 'want_allowed': false, 'want_policy_id': 'pol-regex-deny-001'}]".

(** Every scenario passes. *)
Example engine_testdata :
  run_file basic_operators = Some 7 ∧ run_file deny_scenarios = Some 6 ∧ run_file regex_scenarios = Some 6.
Proof. split_and!; vm_compute; reflexivity. Qed.
