(* ===== verification/Live.v ===== *)
(** The engine at work: the subscriber's goroutine applies the stream to the
    store while any number of goroutines take snapshots to decide requests. *)
From S2P Require Import Prelude Policy LiteralRegexp Store StoreConc StoreConcProps Fairness Operators Engine Decision Subscriber PolicyJson.
Open Scope string_scope.
Open Scope nat_scope.
Open Scope list_scope.

Section WithRegexp.
Context `{RE : RegexpLib} `{DEC : !PolicyDecoder}.

(** ** The subscriber's store calls *)

(** The call [processMessageEntry] makes for an entry, if any. *)
Definition entry_calls (os : MapOrders) (v : EntryValues) : list call :=
  match (processMessageEntry os v NewPolicyStore).1 with
  | Upserted p => [CUpsert (mo_upsert os) p]
  | Deleted id => [CDelete (mo_delete_allow os) (mo_delete_deny os) id]
  | _ => []
  end.

(** The calls for a log, each entry with the iteration orders its map loops
    happen to use. *)
Definition log_calls (os : XMessage → MapOrders) (log : list XMessage) : list call :=
  concat ((λ e, entry_calls (os e) (xm_Values e)) <$> log).

(** The goroutines of the engine: one runs the subscriber on [log], every other
    one only reads. *)
Definition engine_calls (os : XMessage → MapOrders) (log : list XMessage) (w : nat)
    (calls : list (list call)) : Prop :=
  calls !! w = Some (log_calls os log) ∧
  ∀ k cs, k ≠ w → calls !! k = Some cs → is_writer cs = false.

(** ** Lemmas: updates as pairs of table updates *)

Definition update_events (u : update) : list event :=
  match u with
  | SetPolicy p => [EvRemove (other (route p)) (p_ID p); EvUpsert (route p) p]
  | RemovePolicy id => [EvRemove TAllow id; EvRemove TDeny id]
  end.

Definition update_map (us : list update) : PolicyMap := foldl apply_update ∅ us.

Lemma entry_calls_events os v :
  code_events (entry_calls os v) =
  match entry_update v with Some u => update_events u | None => [] end.
Proof.
  unfold entry_calls. pose proof (process_spec os v NewPolicyStore) as H.
  destruct (processMessageEntry os v NewPolicyStore) as [out ps']; cbn [fst].
  destruct (entry_update v) as [[p|id]|].
  - destruct H as [-> _]. unfold code_events, update_events, route, is_allow. csimpl.
    by destruct (String.eqb (p_Access p) AccessAllow).
  - by destruct H as [-> _].
  - destruct H as (_&Hu&Hd). destruct out; try done; [by destruct (Hu p)|by destruct (Hd policyID)].
Qed.

Lemma log_calls_events os log :
  code_events (log_calls os log) =
  concat (update_events <$> omap (λ e, entry_update (xm_Values e)) log).
Proof.
  unfold log_calls. induction log as [|e log IH]; [done|]. csimpl.
  rewrite code_events_app, IH, entry_calls_events. by destruct (entry_update (xm_Values e)).
Qed.

(** One call run alone is the step of the sequential subscriber. *)
Lemma entry_calls_sequential os v ps :
  (processMessageEntry os v ps).2 = foldl event_effect ps (code_events (entry_calls os v)).
Proof.
  rewrite entry_calls_events. pose proof (process_spec os v ps) as H.
  destruct (processMessageEntry os v ps) as [out ps']; cbn [snd].
  destruct (entry_update v) as [[p|id]|].
  - destruct H as (_&->&_). apply table_get_eq. intros t. rewrite table_get_UpsertPolicy. simpl.
    by destruct t, (route p).
  - destruct H as [_ ->]. apply table_get_eq. intros t. rewrite table_get_DeletePolicy. simpl. by destruct t.
  - by destruct H as (->&_).
Qed.

(** ** Lemmas: the tables at every instant *)

Lemma update_events_length us : length (concat (update_events <$> us)) = 2 * length us.
Proof.
  induction us as [|u us IH]; [done|]. csimpl. rewrite length_app, IH. destruct u; simpl; lia.
Qed.

Lemma update_map_snoc us u : update_map (us ++ [u]) = apply_update (update_map us) u.
Proof. unfold update_map. by rewrite foldl_app. Qed.

(** Both events of an update are the update of the map. *)
Lemma update_whole u ps m :
  represents ps m → represents (foldl event_effect ps (update_events u)) (apply_update m u).
Proof.
  intros Hrep. destruct u as [p|id].
  - pose proof (represents_op _ _ (OpUpsert canonical_order p) Hrep) as H. simpl in H.
    replace (foldl event_effect ps (update_events (SetPolicy p))) with (UpsertPolicy canonical_order p ps); [done|].
    apply table_get_eq. intros t. rewrite table_get_UpsertPolicy. simpl. by destruct t, (route p).
  - pose proof (represents_op _ _ (OpDelete canonical_order canonical_order id) Hrep) as H. simpl in H.
    replace (foldl event_effect ps (update_events (RemovePolicy id)))
      with (DeletePolicy canonical_order canonical_order id ps); [done|].
    apply table_get_eq. intros t. rewrite table_get_DeletePolicy. simpl. by destruct t.
Qed.

Lemma updates_whole us : represents (foldl event_effect NewPolicyStore (concat (update_events <$> us))) (update_map us).
Proof.
  induction us as [|u us IH] using rev_ind; [exact represents_new|].
  rewrite fmap_app, concat_app, foldl_app, update_map_snoc. csimpl. rewrite app_nil_r.
  by apply update_whole.
Qed.

(** The tables [ps] between the maps [m] and [m']: every allowed policy is one
    of [m], and the denied ones are those of [m']. *)
Definition between (ps : PolicyStore) (m m' : PolicyMap) : Prop :=
  (∀ id p, st_allow ps !! id = Some p → m !! id = Some p ∧ route p = TAllow) ∧
  (∀ id p, st_deny ps !! id = Some p ↔ m' !! id = Some p ∧ route p = TDeny).

Lemma represents_between ps m : represents ps m → between ps m m.
Proof. intros [H _]. split; intros id p; [apply (H TAllow)|apply (H TDeny)]. Qed.

(** After the first event alone, the denied policies are those before or those
    after the update. *)
Lemma update_half u ps m :
  represents ps m →
  ∃ e e', update_events u = [e; e'] ∧
    (between (event_effect ps e) m m ∨ between (event_effect ps e) m (apply_update m u)).
Proof.
  intros Hrep. pose proof (represents_between _ _ Hrep) as [Ha Hd].
  assert (Hallow : ∀ id, between (event_effect ps (EvRemove TAllow id)) m m).
  { intros id. split; [|done]. simpl. intros i p [_ Hp]%lookup_delete_Some. by apply Ha. }
  destruct u as [p|id]; (eexists _, _; split; [done|]); [|by left].
  destruct (route p) eqn:Hr; simpl other; [right|by left]. split; [done|]. simpl. intros i q.
  rewrite lookup_delete_Some, lookup_insert_Some, Hd. split; [naive_solver|].
  intros [[[<- <-]|[??]] Hq]; [congruence|done].
Qed.

Lemma instant_between us c :
  let u := Nat.min (c / 2) (length us) in
  ∃ d, u ≤ d ≤ length us ∧
    between (foldl event_effect NewPolicyStore (take c (concat (update_events <$> us))))
      (update_map (take u us)) (update_map (take d us)).
Proof.
  induction us as [|x us IH] using rev_ind; intros u.
  { exists 0. subst u. split; [simpl; lia|]. csimpl. rewrite !take_nil.
    apply represents_between, represents_new. }
  rewrite fmap_app, concat_app. csimpl. rewrite app_nil_r.
  pose proof (update_events_length us) as Hlen. subst u. rewrite length_app. simpl length.
  destruct (decide (c ≤ 2 * length us)) as [Hle|Hgt].
  - destruct IH as (d&Hd&Hb).
    assert (c `div` 2 ≤ length us) as Hc by (apply Nat.Div0.div_le_upper_bound; lia).
    rewrite Nat.min_l in Hd, Hb by lia. rewrite Nat.min_l by lia.
    exists d. split; [lia|]. rewrite !take_app_le by lia. exact Hb.
  - pose proof (updates_whole us) as Hw.
    destruct (decide (c = 2 * length us + 1)) as [->|Hne].
    + assert ((2 * length us + 1) `div` 2 = length us) as -> by (symmetry; apply (Nat.div_unique _ _ _ 1); lia).
      rewrite Nat.min_l, take_app_length by lia.
      destruct (update_half x _ _ Hw) as (e&e'&->&Hb).
      rewrite take_app_ge by lia. replace (2 * length us + 1 - _) with 1 by lia.
      cbn [take]. rewrite foldl_app.
      destruct Hb as [Hb|Hb]; [exists (length us)|exists (length us + 1)]; (split; [lia|]).
      * by rewrite take_app_length.
      * rewrite (take_ge (us ++ [x])) by (rewrite length_app; simpl; lia).
        by rewrite update_map_snoc.
    + assert (length us + 1 ≤ c `div` 2) as Hc by (apply Nat.div_le_lower_bound; lia).
      rewrite Nat.min_r by lia. exists (length us + 1). split; [lia|].
      rewrite (take_ge (us ++ [x])) by (rewrite length_app; simpl; lia).
      rewrite take_ge by (rewrite length_app, Hlen; destruct x; simpl; lia).
      pose proof (updates_whole (us ++ [x])) as Hw'.
      rewrite fmap_app, concat_app in Hw'. csimpl in Hw'. rewrite app_nil_r in Hw'.
      by apply represents_between.
Qed.

(** ** Lemmas: one writer *)

Lemma writer_instant calls w cs s :
  calls !! w = Some cs → (∀ k cs, k ≠ w → calls !! k = Some cs → is_writer cs = false) →
  instant calls s =
    foldl event_effect NewPolicyStore (take (length (commits_of w (run s (spawn calls)).2)) (code_events cs)).
Proof.
  intros Hw Hread. unfold instant. rewrite run_view, spawn_view by apply spawn_wf.
  destruct (run_pending s (spawn calls) w (mkThread (PLoad []) cs)) as (th'&_&Hp).
  { by rewrite spawn_lookup, Hw. }
  rewrite spawn_pending in Hp. rewrite Hp, take_app_length. apply effects_single_writer.
  intros n ev Hin Hc. destruct (decide (n = w)) as [|Hne]; [done|]. exfalso.
  pose proof (run_event_thread _ _ _ _ Hin) as Hn. rewrite spawn_length in Hn.
  apply lookup_lt_is_Some_2 in Hn as [cs' Hn].
  destruct (run_pending s (spawn calls) n (mkThread (PLoad []) cs')) as (th2&_&Hp2).
  { by rewrite spawn_lookup, Hn. }
  rewrite spawn_pending, (reader_events _ (Hread _ _ Hne Hn)) in Hp2.
  symmetry in Hp2. apply app_nil in Hp2 as [Hp2 _].
  pose proof (elem_of_commits _ _ _ Hin Hc) as Hin'. rewrite Hp2 in Hin'. set_solver.
Qed.

Lemma commits_grow w s1 s2 sys :
  length (commits_of w (run s1 sys).2) ≤ length (commits_of w (run (s1 ++ s2) sys).2).
Proof. rewrite run_app. cbn [snd]. rewrite commits_of_app, length_app. lia. Qed.

(** Splitting the updates of a log splits the log. *)
Lemma log_split (log : list XMessage) us1 us2 :
  omap (λ e, entry_update (xm_Values e)) log = us1 ++ us2 →
  ∃ log1 log2, log = log1 ++ log2 ∧
    omap (λ e, entry_update (xm_Values e)) log1 = us1 ∧
    omap (λ e, entry_update (xm_Values e)) log2 = us2.
Proof.
  revert us1. induction log as [|e log IH]; intros us1 H.
  { exists [], []. symmetry in H. apply app_nil in H as [-> ->]. done. }
  destruct us1 as [|u us1]; [by exists [], (e :: log)|]. csimpl in H.
  destruct (entry_update (xm_Values e)) as [u'|] eqn:He.
  - injection H as -> H. destruct (IH _ H) as (l1&l2&->&<-&<-).
    exists (e :: l1), l2. csimpl. by rewrite He.
  - destruct (IH (u :: us1) H) as (l1&l2&->&H1&<-).
    exists (e :: l1), l2. csimpl. by rewrite He.
Qed.

Lemma log_positions (log : list XMessage) u d :
  let us := omap (λ e, entry_update (xm_Values e)) log in
  u ≤ d →
  ∃ log1 log2 log3, log = log1 ++ log2 ++ log3 ∧
    stream_policies log1 = update_map (take u us) ∧
    stream_policies (log1 ++ log2) = update_map (take d us).
Proof.
  intros us Hd.
  destruct (log_split log (take d us) (drop d us)) as (l12&l3&->&H12&_); [by rewrite take_drop|].
  destruct (log_split l12 (take u us) (drop u (take d us))) as (l1&l2&->&H1&_).
  { rewrite H12. rewrite <-(take_drop u (take d us)) at 1. by rewrite take_take, Nat.min_l. }
  exists l1, l2, l3. split; [by rewrite <-app_assoc|]. unfold stream_policies, update_map. by rewrite H1, H12.
Qed.

(** ** Properties *)

(** Decisions while the stream is being applied.  However the subscriber's
    goroutine and the goroutines deciding requests interleave, a grant names
    two positions of the stream, the second at or after the first: an ALLOW
    policy of the entries up to the first position applies to the request, and
    no DENY policy of the entries up to the second does. *)
Theorem live_grant_positions os log calls w sched k ps oa od req :
  engine_calls os log w calls →
  (k, EvRead ps) ∈ (run sched (spawn calls)).2 → decides oa od ps req →
  ∃ log1 log2 log3, log = log1 ++ log2 ++ log3 ∧
    (∃ id p, stream_policies log1 !! id = Some p ∧ p_Access p = AccessAllow ∧ policy_applies p req) ∧
    (∀ id p, stream_policies (log1 ++ log2) !! id = Some p → p_Access p = AccessDeny → ¬ policy_applies p req).
Proof.
  intros [Hw Hread] Hin Hg. apply read_instants in Hin as (s1&s2&s3&_&Ha&Hd).
  apply decides_iff in Hg as [(id&p&Hp&Happ) Hno]. rewrite Ha in Hp. rewrite Hd in Hno.
  fold (instant calls s1) in Hp. fold (instant calls (s1 ++ s2)) in Hno.
  rewrite (writer_instant _ w _ s1 Hw Hread), log_calls_events in Hp.
  rewrite (writer_instant _ w _ (s1 ++ s2) Hw Hread), log_calls_events in Hno.
  pose proof (commits_grow w s1 s2 (spawn calls)) as Hc.
  set (c1 := length (commits_of w (run s1 (spawn calls)).2)) in *.
  set (c2 := length (commits_of w (run (s1 ++ s2) (spawn calls)).2)) in *.
  set (us := omap (λ e, entry_update (xm_Values e)) log) in *.
  destruct (instant_between us c1) as (d1&_&Hb1&_).
  destruct (instant_between us c2) as (d2&Hd2&_&Hb2).
  assert (c1 `div` 2 ≤ c2 `div` 2) by (apply Nat.Div0.div_le_mono; lia).
  destruct (log_positions log (Nat.min (c1 `div` 2) (length us)) d2) as (l1&l2&l3&->&H1&H2); [lia|].
  exists l1, l2, l3. split; [done|]. fold us in H1, H2. rewrite H1, H2. split.
  - apply Hb1 in Hp as [Hp Hr]. exists id, p. split_and!; [done| |done].
    unfold route, is_allow in Hr. by destruct (String.eqb_spec (p_Access p) AccessAllow).
  - intros i q Hq Hacc. apply (Hno i q). apply Hb2. split; [done|].
    unfold route, is_allow. by rewrite Hacc.
Qed.

(** When the subscriber's goroutine has applied the whole log, the store is
    the one the log denotes, whatever the readers did in between; so every
    decision from then on is that of the published policies. *)
Lemma live_caught_up os log calls w sched th oa od req :
  engine_calls os log w calls →
  sys_threads (run sched (spawn calls)).1 !! w = Some th → thread_done th = true →
  represents (instant calls sched) (stream_policies log) ∧
  (decides oa od (instant calls sched) req ↔
    (∃ id p, stream_policies log !! id = Some p ∧ p_Access p = AccessAllow ∧ policy_applies p req) ∧
    (∀ id p, stream_policies log !! id = Some p → p_Access p = AccessDeny → ¬ policy_applies p req)).
Proof.
  intros [Hw Hread] Hth Hdone.
  assert (Hrep : represents (instant calls sched) (stream_policies log)).
  { rewrite (writer_instant _ w _ sched Hw Hread).
    destruct (run_pending sched (spawn calls) w (mkThread (PLoad []) (log_calls os log))) as (th'&Hth'&Hp).
    { by rewrite spawn_lookup, Hw. }
    rewrite Hth in Hth'. injection Hth' as <-. rewrite (pending_done th), app_nil_r in Hp by done.
    rewrite <-Hp, spawn_pending, take_ge by lia. rewrite log_calls_events. apply updates_whole. }
  split; [done|]. unfold decides. rewrite (represents_granted _ _ oa od req Hrep).
  pose proof (stream_policies_live log) as Hl.
  split; intros [? Hno]; (split; [done|]); intros id p Hp Hacc.
  - apply (Hno id p Hp). by rewrite Hacc.
  - apply (Hno id p Hp). by destruct (Hl _ _ Hp) as (_&[?|?]&_).
Qed.

(** C5: the engine catches up.  Under every schedule, in which a goroutine
    with work left is scheduled again, there is a step from which every
    goroutine has finished and the store is the one the whole log denotes; so
    every decision from then on is that of the published policies. *)
Theorem live_converges os log calls w sched :
  engine_calls os log w calls → fair sched (spawn calls) →
  ∃ N, ∀ n, N ≤ n →
    all_done (at_step sched (spawn calls) n) ∧
    represents (instant calls (first_steps sched n)) (stream_policies log) ∧
    ∀ oa od req, decides oa od (instant calls (first_steps sched n)) req ↔
      (∃ id p, stream_policies log !! id = Some p ∧ p_Access p = AccessAllow ∧ policy_applies p req) ∧
      (∀ id p, stream_policies log !! id = Some p → p_Access p = AccessDeny → ¬ policy_applies p req).
Proof.
  intros Hc Hf. destruct (fair_all_done calls sched Hf) as [N HN]. exists N. intros n Hn.
  specialize (HN n Hn). split; [done|].
  destruct (run_pending (first_steps sched n) (spawn calls) w (mkThread (PLoad []) (log_calls os log)))
    as (th&Hth&_).
  { by rewrite spawn_lookup, (proj1 Hc). }
  pose proof (Forall_lookup_1 _ _ _ _ HN Hth) as Hd.
  split; [by eapply (live_caught_up _ _ _ _ _ th canonical_order canonical_order (mkRequest "" None "" "" None "" None))|].
  intros oa od req. by eapply live_caught_up.
Qed.

End WithRegexp.

(** ** Witnesses *)

(** The subscriber on the sample stream and one goroutine that takes two
    snapshots. *)
Definition live_calls : list (list call) := [log_calls (λ _, orders) sample_log; [CRead; CRead]].
Definition live_schedule : list nat := [0; 0; 0; 0; 1; 0; 0; 1; 0; 0].

Lemma live_engine : engine_calls (λ _, orders) sample_log 0 live_calls.
Proof.
  split; [reflexivity|]. intros [|[|k]] cs Hk Hcs; [done| |done]. by injection Hcs as <-.
Qed.

Definition mock_policy : Policy :=
  mkPolicy "pol-mock-001" "Allow Admin Read" AccessAllow (mkTarget "dashboard" "READ")
    [mkCondition "principal.role" "EQUALS" ["admin"] None].

Lemma live_event :
  (1, EvRead (mkStore {["pol-mock-001" := mock_policy]} ∅)) ∈ (run live_schedule (spawn live_calls)).2.
Proof.
  assert ((run live_schedule (spawn live_calls)).2 !! 3 =
    Some (1, EvRead (mkStore {["pol-mock-001" := mock_policy]} ∅))) as H by (vm_compute; reflexivity).
  by apply list_elem_of_lookup_2 in H.
Qed.

Lemma live_grant_positions_witness :
  ∃ log1 log2 log3, sample_log = log1 ++ log2 ++ log3 ∧
    ∃ id p, stream_policies log1 !! id = Some p ∧ p_Access p = AccessAllow ∧ policy_applies p dashboard_read.
Proof.
  destruct (live_grant_positions (λ _, orders) sample_log live_calls 0 live_schedule 1 _
    canonical_order canonical_order dashboard_read live_engine live_event) as (l1&l2&l3&H1&H2&_).
  - apply grants_b_spec. vm_compute. reflexivity.
  - exists l1, l2, l3. split; [exact H1|exact H2].
Defined.

(** The subscriber and the deciding goroutine take turns. *)
Lemma live_converges_witness :
  ∃ N, ∀ n, N ≤ n →
    represents (instant live_calls (first_steps (λ n, n mod 2) n)) (stream_policies sample_log).
Proof.
  destruct (live_converges (λ _, orders) sample_log live_calls 0 (λ n, n mod 2) live_engine
    (round_robin_fair live_calls)) as [N HN].
  exists N. intros n Hn. exact (proj1 (proj2 (HN n Hn))).
Defined.
