(* ===== verification/Proc.v ===== *)
(** Programs as interaction trees: what a Go program asks of its environment,
    in order, with the answers it gets.

    A trace is what has been seen of a run when it is stopped at any moment;
    the environment's answers are arbitrary.  A process is a pool of such
    programs, one per goroutine, of which any may take the next step. *)
From S2P Require Import Prelude.
From ITree Require Import ITree Eq.Shallow.
Open Scope string_scope.
Open Scope nat_scope.
Open Scope list_scope.

#[export] Instance itree_mret {E} : MRet (itree E) := λ A x, Ret x.
#[export] Instance itree_mbind {E} : MBind (itree E) := λ A B k t, ITree.bind t k.

(** [defer d] followed by [rest]: [d] runs when [rest] returns.  A call that
    never returns, [os.Exit] among them, leaves it out. *)
Definition deferring {E A} (d : itree E unit) (rest : itree E A) : itree E A :=
  a ← rest; _ ← d; mret a.

(** [for _, x := range xs] with an effectful body. *)
Fixpoint for_each {E A} (xs : list A) (body : A → itree E unit) : itree E unit :=
  match xs with
  | [] => mret tt
  | x :: xs => _ ← body x; for_each xs body
  end.

(** ** Traces *)

(** A call to the environment without and with its answer. *)
Inductive obs (E : Type → Type) : Type :=
  | Called {X : Type} (e : E X)
  | Answered {X : Type} (e : E X) (x : X).
Arguments Called {E X} e.
Arguments Answered {E X} e x.

(** [trace (observe t) l o]: [t] does [l]; [o] is its result if it has
    returned. *)
Inductive trace {E : Type → Type} {R : Type} : itree' E R → list (obs E) → option R → Prop :=
  | tr_stop ot : trace ot [] None
  | tr_ret r : trace (RetF r) [] (Some r)
  | tr_tau t l o : trace (observe t) l o → trace (TauF t) l o
  | tr_call {X : Type} (e : E X) k : trace (VisF e k) [Called e] None
  | tr_vis {X : Type} (e : E X) k x l o :
    trace (observe (k x)) l o → trace (VisF e k) (Answered e x :: l) o.

Definition traces {E R} (t : itree E R) (l : list (obs E)) (o : option R) : Prop := trace (observe t) l o.

(** [leads ot l ot']: [ot] has done [l] and [ot'] is left of it. *)
Inductive leads {E : Type → Type} {R : Type} : itree' E R → list (obs E) → itree' E R → Prop :=
  | ld_here ot : leads ot [] ot
  | ld_tau t l ot : leads (observe t) l ot → leads (TauF t) l ot
  | ld_vis {X : Type} (e : E X) k x l ot :
    leads (observe (k x)) l ot → leads (VisF e k) (Answered e x :: l) ot.

(** ** Lemmas: inversion *)

Section Traces.
Context {E : Type → Type}.

Lemma trace_ret_inv {R} (r : R) l o : trace (E := E) (RetF r) l o → l = [] ∧ (o = None ∨ o = Some r).
Proof. intros H. inversion H; auto. Qed.

Lemma trace_tau_inv {R} (t : itree E R) l o : trace (TauF t) l o → traces t l o ∨ l = [] ∧ o = None.
Proof. intros H. inversion H; auto. Qed.

Lemma trace_vis_inv {R X} (e : E X) (k : X → itree E R) l o :
  trace (VisF e k) l o →
  (l = [] ∧ o = None) ∨ (l = [Called e] ∧ o = None) ∨
  ∃ x l', l = Answered e x :: l' ∧ traces (k x) l' o.
Proof.
  intros H.
  refine (match H in trace ot l o return
    match ot with
    | VisF e k => (l = [] ∧ o = None) ∨ (l = [Called e] ∧ o = None) ∨
        ∃ x l', l = Answered e x :: l' ∧ traces (k x) l' o
    | _ => True
    end with
  | tr_stop ot => _ | tr_ret r => I | tr_tau t l o H => I
  | tr_call e k => _ | tr_vis e k x l o H => _ end).
  - destruct ot; auto.
  - auto.
  - right. right. eauto.
Qed.

Lemma leads_trace {R} (ot ot' : itree' E R) l l' o :
  leads ot l ot' → trace ot' l' o → trace ot (l ++ l') o.
Proof. induction 1 as [|t l ot _ IH|X e k x l ot _ IH]; intros H; [done|..]; constructor; by apply IH. Qed.

Lemma leads_app {R} (ot1 ot2 ot3 : itree' E R) l l' :
  leads ot1 l ot2 → leads ot2 l' ot3 → leads ot1 (l ++ l') ot3.
Proof. induction 1 as [|t l ot _ IH|X e k x l ot _ IH]; intros H; [done|..]; constructor; by apply IH. Qed.

Lemma observe_mbind {R S} (t : itree E S) (k : S → itree E R) :
  observe (t ≫= k) =
  match observe t with
  | RetF s => observe (k s)
  | TauF t' => TauF (t' ≫= k)
  | VisF e ke => VisF e (λ x, ke x ≫= k)
  end.
Proof.
  change (t ≫= k) with (ITree.bind t k). rewrite observe_bind. by destruct (observe t).
Qed.

Lemma traces_stop {R} (t : itree E R) : traces t [] None.
Proof. constructor. Qed.

Lemma traces_bind_inv {R S} (t : itree E S) (k : S → itree E R) l o :
  traces (t ≫= k) l o →
  (traces t l None ∧ o = None) ∨
  ∃ s l1 l2, l = l1 ++ l2 ∧ traces t l1 (Some s) ∧ traces (k s) l2 o.
Proof.
  unfold traces. intros H. remember (observe (t ≫= k)) as ot eqn:Hot. revert t Hot.
  assert (Hret : ∀ t s ot l o, observe t = RetF s → ot = observe (t ≫= k) → trace ot l o →
    ∃ s l1 l2, l = l1 ++ l2 ∧ trace (observe t) l1 (Some s) ∧ trace (observe (k s)) l2 o).
  { intros t s ot' l' o' Ht -> Htr. rewrite observe_mbind, Ht in Htr.
    exists s, [], l'. rewrite Ht. split_and!; [done|constructor|done]. }
  induction H as [ot|r|t' l o H IH|X e k'|X e k' x l o H IH]; intros t Hot;
    destruct (observe t) as [s|t0|Y e0 k0] eqn:Ht;
    try (right; rewrite <-Ht; eapply Hret; [exact Ht|exact Hot|by econstructor]);
    rewrite observe_mbind, Ht in Hot; try discriminate.
  - left. split; [constructor|done].
  - left. split; [constructor|done].
  - injection Hot as ->. destruct (IH t0 eq_refl) as [[??]|(s&l1&l2&->&?&?)].
    + left. split; [by constructor|done].
    + right. exists s, l1, l2. split_and!; [done|by constructor|done].
  - apply eq_inv_VisF_weak in Hot as [-> [He Hk]]. cbn in *. subst.
    left. split; [constructor|done].
  - apply eq_inv_VisF_weak in Hot as [-> [He Hk]]. cbn in *. subst.
    destruct (IH (k0 x) eq_refl) as [[??]|(s&l1&l2&->&?&?)].
    + left. split; [by constructor|done].
    + right. exists s, (Answered e0 x :: l1), l2. split_and!; [done|by constructor|done].
Qed.

Lemma traces_bind {R S} (t : itree E S) (k : S → itree E R) l1 s l2 o :
  traces t l1 (Some s) → traces (k s) l2 o → traces (t ≫= k) (l1 ++ l2) o.
Proof.
  unfold traces. intros Ht Hk. remember (Some s) as os eqn:Hs. remember (observe t) as ot eqn:Hot.
  revert t Hot. induction Ht as [ot|r|t' l o' H IH|X e k'|X e k' x l o' H IH]; intros t Hot;
    try discriminate; simplify_eq; rewrite observe_mbind, <-Hot; simpl.
  - done.
  - constructor. by apply IH.
  - constructor. by apply IH.
Qed.

Lemma traces_bind_cut {R S} (t : itree E S) (k : S → itree E R) l :
  traces t l None → traces (t ≫= k) l None.
Proof.
  unfold traces. intros Ht. remember None as os eqn:Hs. remember (observe t) as ot eqn:Hot.
  revert t Hot. induction Ht as [ot|r|t' l o' H IH|X e k'|X e k' x l o' H IH]; intros t Hot;
    try discriminate; rewrite ?observe_mbind, <-?Hot; constructor; by apply IH.
Qed.

Lemma traces_bind_assoc {R S T} (t : itree E S) (f : S → itree E T) (k : T → itree E R) l o :
  traces ((t ≫= f) ≫= k) l o → traces (t ≫= λ x, f x ≫= k) l o.
Proof.
  intros [[H ->]|(y&l1&l2&->&H&Hk)]%traces_bind_inv.
  - apply traces_bind_inv in H as [[H _]|(x&l1&l2&->&H1&H2)]; [by apply traces_bind_cut|].
    eapply traces_bind; [exact H1|]. by apply traces_bind_cut.
  - apply traces_bind_inv in H as [[_ ?]|(x&l3&l4&->&H1&H2)]; [done|].
    rewrite <-app_assoc. eapply traces_bind; [exact H1|]. by eapply traces_bind.
Qed.

Lemma traces_ret {R} (r : R) : traces (E := E) (mret r) [] (Some r).
Proof. constructor. Qed.

Lemma traces_ret_inv {R} (r : R) l o : traces (E := E) (mret r) l o → l = [] ∧ (o = None ∨ o = Some r).
Proof. apply trace_ret_inv. Qed.

(** A run that is stopped just before its result is seen. *)
Lemma traces_forget {R} (t : itree E R) l o : traces t l o → traces t l None.
Proof.
  unfold traces. generalize (observe t). clear t. intros ot H.
  induction H as [ot|r|t' l o H IH|X e k'|X e k' x l o H IH]; constructor; done.
Qed.

(** A run that has returned is in no call. *)
Definition in_progress (ob : obs E) : bool := match ob with Called _ => true | Answered _ _ => false end.

Lemma traces_returned {R} (t : itree E R) l r :
  traces t l (Some r) → Forall (λ ob, in_progress ob = false) l.
Proof.
  unfold traces. generalize (observe t). clear t. intros ot H. remember (Some r) as o eqn:Ho.
  induction H as [ot|r'|t' l o H IH|X e k'|X e k' x l o H IH]; try done; auto.
Qed.

Lemma traces_trigger_inv {R X} (e : E X) (k : X → itree E R) l o :
  traces (ITree.trigger e ≫= k) l o →
  (l = [] ∧ o = None) ∨ (l = [Called e] ∧ o = None) ∨
  ∃ x l', l = Answered e x :: l' ∧ traces (k x) l' o.
Proof.
  unfold traces. rewrite observe_mbind.
  unfold ITree.trigger. cbn [observe _observe].
  intros H. apply trace_vis_inv in H as [?|[?|(x&l'&->&H)]]; auto.
  right. right. exists x, l'. split; [done|]. unfold traces in H. by rewrite observe_mbind in H.
Qed.

Lemma traces_trigger {R X} (e : E X) (k : X → itree E R) x l o :
  traces (k x) l o → traces (ITree.trigger e ≫= k) (Answered e x :: l) o.
Proof.
  intros H. change (Answered e x :: l) with ([Answered e x] ++ l). eapply traces_bind; [|exact H].
  apply tr_vis. constructor.
Qed.

Lemma traces_call {R X} (e : E X) (k : X → itree E R) : traces (ITree.trigger e ≫= k) [Called e] None.
Proof. apply traces_bind_cut, tr_call. Qed.

(** ** Lemmas: loops *)

(** The passes of a loop: complete ones, then one that returns or is cut. *)
Inductive passes {I R} (body : I → itree E (I + R)) : I → list (obs E) → option R → Prop :=
  | ps_cut i l : traces (body i) l None → passes body i l None
  | ps_done i l r : traces (body i) l (Some (inr r)) → passes body i l (Some r)
  | ps_next i j l l' o :
    traces (body i) l (Some (inl j)) → passes body j l' o → passes body i (l ++ l') o.

(** What [ITree.iter] does after a pass. *)
Definition iter_next {I R} (body : I → itree E (I + R)) (lr : I + R) : itree E R :=
  match lr with inl j => Tau (ITree.iter body j) | inr r => Ret r end.

Lemma observe_iter {I R} (body : I → itree E (I + R)) i :
  observe (ITree.iter body i) = observe (body i ≫= iter_next body).
Proof. exact (observing_observe (unfold_aloop_ body i)). Qed.

(** From within a pass [t]: it is cut, it is the last one, or others follow. *)
Lemma iter_traces {I R} (body : I → itree E (I + R)) ot l o :
  trace ot l o → ∀ t, ot = observe (t ≫= iter_next body) →
  (traces t l None ∧ o = None) ∨
  (∃ r, traces t l (Some (inr r)) ∧ (o = Some r ∨ o = None)) ∨
  ∃ j l1 l2, l = l1 ++ l2 ∧ traces t l1 (Some (inl j)) ∧ passes body j l2 o.
Proof.
  unfold traces. intros H. induction H as [ot|r|t' l o H IH|X e k'|X e k' x l o H IH]; intros t Hot.
  - left. split; [constructor|done].
  - rewrite observe_mbind in Hot. destruct (observe t) as [[j|r']|t0|Y e0 k0]; try discriminate.
    injection Hot as ->. right. left. exists r'. split; [constructor|auto].
  - rewrite observe_mbind in Hot. destruct (observe t) as [[j|r']|t0|Y e0 k0]; try discriminate.
    + injection Hot as ->. right. right. exists j, [], l. split_and!; [done|constructor|].
      destruct (IH (body j) (observe_iter body j)) as [[? ->]|[(r&?&[-> | ->])|(j'&l1&l2&->&?&?)]].
      * by apply ps_cut.
      * by apply ps_done.
      * apply ps_cut. by apply traces_forget with (Some (inr r)).
      * by eapply ps_next.
    + injection Hot as ->. destruct (IH t0 eq_refl) as [[??]|[(r&?&?)|(j&l1&l2&->&?&?)]].
      * left. split; [by constructor|done].
      * right. left. exists r. split; [by constructor|done].
      * right. right. exists j, l1, l2. split_and!; [done|by constructor|done].
  - rewrite observe_mbind in Hot. destruct (observe t) as [[j|r']|t0|Y e0 k0]; try discriminate.
    apply eq_inv_VisF_weak in Hot as [-> [He Hk]]. cbn in *. subst. left. split; [constructor|done].
  - rewrite observe_mbind in Hot. destruct (observe t) as [[j|r']|t0|Y e0 k0]; try discriminate.
    apply eq_inv_VisF_weak in Hot as [-> [He Hk]]. cbn in *. subst.
    destruct (IH (k0 x) eq_refl) as [[??]|[(r&?&?)|(j&l1&l2&->&?&?)]].
    + left. split; [by constructor|done].
    + right. left. exists r. split; [by constructor|done].
    + right. right. exists j, (Answered e0 x :: l1), l2. split_and!; [done|by constructor|done].
Qed.

Lemma traces_iter_inv {I R} (body : I → itree E (I + R)) i l o :
  traces (ITree.iter body i) l o → passes body i l o.
Proof.
  intros H. destruct (iter_traces body _ _ _ H (body i) (observe_iter body i)) as [[? ->]|[(r&?&[-> | ->])|(j'&l1&l2&->&?&?)]].
  - by apply ps_cut.
  - by apply ps_done.
  - apply ps_cut. by apply traces_forget with (Some (inr r)).
  - by eapply ps_next.
Qed.

Lemma traces_iter {I R} (body : I → itree E (I + R)) i l o :
  passes body i l o → traces (ITree.iter body i) l o.
Proof.
  induction 1 as [i l H|i l r H|i j l l' o H _ IH]; unfold traces; rewrite observe_iter.
  - by apply traces_bind_cut.
  - rewrite <-(app_nil_r l). eapply traces_bind; [exact H|]. constructor.
  - eapply traces_bind; [exact H|]. apply tr_tau. exact IH.
Qed.

End Traces.

(** ** What a program may ask for *)

Definition obs_event {E} (P : ∀ X, E X → Prop) (ob : obs E) : Prop :=
  match ob with Called e => P _ e | Answered e _ => P _ e end.

(** Every event of every run of [t] satisfies [P]. *)
Definition emits {E R} (P : ∀ X, E X → Prop) (t : itree E R) : Prop :=
  ∀ l o, traces t l o → Forall (obs_event P) l.

Section Emits.
Context {E : Type → Type} (P : ∀ X, E X → Prop).

Lemma emits_ret {R} (r : R) : emits P (mret r).
Proof. intros l o H. apply traces_ret_inv in H as [-> _]. constructor. Qed.

Lemma emits_trigger {X} (e : E X) : P X e → emits P (ITree.trigger e).
Proof.
  intros He l o H. unfold traces, ITree.trigger in H. cbn [observe _observe] in H.
  apply trace_vis_inv in H as [[-> _]|[[-> _]|(x&l'&->&H)]]; repeat constructor; try done.
  apply trace_ret_inv in H as [-> _]. constructor.
Qed.

Lemma emits_bind {R S} (t : itree E S) (k : S → itree E R) :
  emits P t → (∀ s, emits P (k s)) → emits P (t ≫= k).
Proof.
  intros Ht Hk l o H. apply traces_bind_inv in H as [[H _]|(s&l1&l2&->&H1&H2)]; [by eapply Ht|].
  apply Forall_app. split; [by eapply Ht|by eapply Hk].
Qed.

Lemma emits_iter {I R} (body : I → itree E (I + R)) i :
  (∀ i, emits P (body i)) → emits P (ITree.iter body i).
Proof.
  intros Hb l o H. apply traces_iter_inv in H.
  induction H as [i l H|i l r H|i j l l' o H _ IH]; [by eapply Hb..|].
  apply Forall_app. split; [by eapply Hb|done].
Qed.

Lemma emits_for_each {A} (xs : list A) (body : A → itree E unit) :
  (∀ x, x ∈ xs → emits P (body x)) → emits P (for_each xs body).
Proof.
  induction xs as [|x xs IH]; intros Hb; simpl; [apply emits_ret|].
  apply emits_bind; [apply Hb; set_solver|]. intros _. apply IH. set_solver.
Qed.

Lemma emits_deferring {A} (d : itree E unit) (rest : itree E A) :
  emits P d → emits P rest → emits P (deferring d rest).
Proof.
  intros Hd Hr. apply emits_bind; [done|]. intros a. apply emits_bind; [done|]. intros _. apply emits_ret.
Qed.

End Emits.

(** ** Processes *)

Section Pool.
Context {E : Type → Type}.
(** The goroutines an event starts, and whether it ends the process. *)
Context (spawned : ∀ X, E X → list (itree E unit)) (exits : ∀ X, E X → bool).

#[local] Abbreviation pool := (list (itree' E unit)).

(** The process lives until [main], the first goroutine, has returned. *)
Definition running (p : pool) : Prop := p !! 0 ≠ Some (RetF tt).

(** Goroutine [i] is inside the call [e]. *)
Definition in_call (p : pool) (i : nat) {X} (e : E X) : Prop := ∃ k, p !! i = Some (VisF e k).

(** The call a goroutine is inside, as a value. *)
Definition pending_call (p : pool) (i : nat) : option {X : Type & E X} :=
  match p !! i with Some (@VisF _ _ _ X e _) => Some (existT X e) | _ => None end.

Lemma pending_in_call p i call : pending_call p i = Some call → in_call p i (projT2 call).
Proof.
  unfold pending_call, in_call. destruct (p !! i) as [[r|t|X e k]|]; try done.
  intros [= <-]. by exists k.
Qed.

Inductive pool_step : pool → list (nat * obs E) → pool → Prop :=
  | po_tau p i t : running p → p !! i = Some (TauF t) → pool_step p [] (<[i := observe t]> p)
  | po_answer p i X (e : E X) k x :
    running p → p !! i = Some (VisF e k) → exits X e = false →
    pool_step p [(i, Answered e x)] (<[i := observe (k x)]> p ++ (observe <$> spawned X e))
  | po_exit p i X (e : E X) k :
    running p → p !! i = Some (VisF e k) → exits X e = true → pool_step p [(i, Called e)] [].

Inductive exec (main : itree E unit) : list (nat * obs E) → pool → Prop :=
  | ex_start : exec main [] [observe main]
  | ex_step tr p tr' p' : exec main tr p → pool_step p tr' p' → exec main (tr ++ tr') p'.

(** The events of one goroutine. *)
Definition of_thread (i : nat) (tr : list (nat * obs E)) : list (obs E) :=
  (filter (λ ev, ev.1 = i) tr).*2.

(** The program of a goroutine: [main], or one that an event started. *)
Definition origin (main : itree E unit) (i : nat) (tr : list (nat * obs E)) (t : itree E unit) : Prop :=
  (i = 0 ∧ t = main) ∨
  (i ≠ 0 ∧ ∃ j X (e : E X) x, (j, Answered e x) ∈ tr ∧ t ∈ spawned X e).

Lemma of_thread_app i tr1 tr2 : of_thread i (tr1 ++ tr2) = of_thread i tr1 ++ of_thread i tr2.
Proof. unfold of_thread. by rewrite filter_app, fmap_app. Qed.

Lemma of_thread_one i j ob : of_thread i [(j, ob)] = if decide (j = i) then [ob] else [].
Proof. unfold of_thread. rewrite filter_cons. simpl. by case_decide. Qed.

Lemma origin_grow main i tr tr' t : origin main i tr t → origin main i (tr ++ tr') t.
Proof. intros [?|(?&j&X&e&x&Hin&?)]; [by left|right]. split; [done|]. exists j, X, e, x. set_solver. Qed.

(** No goroutine has events before it exists. *)
Definition threads_bounded (n : nat) (tr : list (nat * obs E)) : Prop := ∀ ev, ev ∈ tr → ev.1 < n.

Lemma of_thread_fresh i n tr : threads_bounded n tr → n ≤ i → of_thread i tr = [].
Proof.
  intros Hb Hi. unfold of_thread. induction tr as [|ev tr IH]; [done|].
  rewrite filter_cons, decide_False; [apply IH; intros e' He'; apply Hb; set_solver|].
  pose proof (Hb ev ltac:(set_solver)). lia.
Qed.

(** The programs of the goroutines in the order they were started: [main], and
    what the events of the trace started. *)
Definition started_by (ob : obs E) : list (itree E unit) :=
  match ob with Answered e _ => spawned _ e | Called _ => [] end.

Definition programs (main : itree E unit) (tr : list (nat * obs E)) : list (itree E unit) :=
  main :: concat (started_by <$> tr.*2).

Lemma programs_app main tr tr' :
  programs main (tr ++ tr') = programs main tr ++ concat (started_by <$> tr'.*2).
Proof. unfold programs. by rewrite !fmap_app, concat_app. Qed.

Lemma programs_origin main tr i t : programs main tr !! i = Some t → origin main i tr t.
Proof.
  unfold programs. destruct i as [|i]; intros Hi; [injection Hi as ->; by left|right; split; [done|]].
  simpl in Hi. apply list_elem_of_lookup_2, list_elem_of_In, in_concat in Hi as (ts&Hts&Ht).
  apply list_elem_of_In, list_elem_of_fmap in Hts as (ob&->&Hob).
  apply list_elem_of_fmap in Hob as ([j ob']&->&Hob). apply list_elem_of_In in Ht.
  destruct ob' as [X e|X e x]; [by apply elem_of_nil in Ht|]. by exists j, X, e, x.
Qed.

(** In every execution goroutine [i] runs the [i]-th program: it has done its
    events and its state in the pool is what is left. *)
Lemma exec_programs main tr p :
  exec main tr p →
  p = [] ∨ length p = length (programs main tr) ∧ threads_bounded (length p) tr ∧
    ∀ i ot, p !! i = Some ot →
      ∃ t, programs main tr !! i = Some t ∧ leads (observe t) (of_thread i tr) ot.
Proof.
  induction 1 as [|tr p tr' p' Hex IH Hst].
  { right. split_and!; [done|by intros ? ?%elem_of_nil|]. intros [|i] ot Hi; [|done].
    injection Hi as <-. exists main. split; [done|constructor]. }
  destruct IH as [->|(Hlen&Hb&Hp)]; [by inversion Hst; simplify_eq|].
  destruct Hst as [p i t Hrun Hi|p i X e k x Hrun Hi Hex'|p i X e k Hrun Hi Hex']; [..|by left]; right;
    pose proof (lookup_lt_Some _ _ _ Hi) as Hlt; destruct (Hp _ _ Hi) as (t'&Ht'&Htr).
  - rewrite app_nil_r, length_insert. split_and!; [done|done|]. intros j ot Hj.
    destruct (decide (i = j)) as [<-|Hne]; [|rewrite list_lookup_insert_ne in Hj by done; by apply Hp].
    rewrite list_lookup_insert_eq in Hj by done. injection Hj as <-.
    exists t'. split; [done|]. rewrite <-(app_nil_r (of_thread i tr)).
    apply (leads_app _ _ _ _ _ Htr). apply ld_tau, ld_here.
  - assert (Hprog : programs main (tr ++ [(i, Answered e x)]) = programs main tr ++ spawned X e).
    { rewrite programs_app. simpl concat. by rewrite app_nil_r. }
    rewrite Hprog, !length_app, length_insert, length_fmap.
    split_and!; [by rewrite Hlen| |].
    + intros ev [Hin| ->%list_elem_of_singleton]%elem_of_app; simpl; [pose proof (Hb _ Hin); lia|lia].
    + intros j ot [Hj|[Hge Hj]]%lookup_app_Some.
      * rewrite of_thread_app, of_thread_one. destruct (decide (i = j)) as [<-|Hne].
        -- rewrite list_lookup_insert_eq in Hj by done. injection Hj as <-.
           exists t'. split; [by apply lookup_app_l_Some|].
           apply (leads_app _ _ _ _ _ Htr). apply ld_vis, ld_here.
        -- rewrite list_lookup_insert_ne in Hj by done. destruct (Hp _ _ Hj) as (t2&Ht2&Htr2).
           exists t2. rewrite app_nil_r. split; [by apply lookup_app_l_Some|done].
      * rewrite length_insert in Hge, Hj. rewrite list_lookup_fmap in Hj.
        apply fmap_Some in Hj as (t2&Ht2&->). exists t2. rewrite lookup_app_r, <-Hlen by lia. split; [done|].
        rewrite of_thread_app, of_thread_one, decide_False, (of_thread_fresh _ (length p)) by (done || lia).
        constructor.
Qed.

(** What a goroutine of a process that is alive can still do continues its
    events to a trace of its program. *)
Lemma exec_alive main tr p i ot :
  exec main tr p → p !! i = Some ot →
  ∃ t, origin main i tr t ∧ ∀ l o, trace ot l o → traces t (of_thread i tr ++ l) o.
Proof.
  intros Hex Hi. destruct (exec_programs _ _ _ Hex) as [->|(_&_&Hp)]; [done|].
  destruct (Hp _ _ Hi) as (t&Ht&Hl). exists t. split; [by apply programs_origin|].
  intros l o. by apply leads_trace.
Qed.

Lemma exec_event_alive main tr p i ob :
  exec main tr p → p ≠ [] → (i, ob) ∈ tr → is_Some (p !! i).
Proof.
  intros Hex Hne Hin. destruct (exec_programs _ _ _ Hex) as [->|(_&Hb&_)]; [done|].
  apply lookup_lt_is_Some_2. exact (Hb _ Hin).
Qed.

(** In every execution each goroutine runs its program: its events and what it
    can still do form a trace of it. *)
Lemma exec_threads main tr p :
  exec main tr p →
  (p = [] ∨ threads_bounded (length p) tr) ∧
  (∀ i ot, p !! i = Some ot →
    ∃ t, origin main i tr t ∧ ∀ l o, trace ot l o → traces t (of_thread i tr ++ l) o) ∧
  (∀ i ob, (i, ob) ∈ tr → ∃ t, origin main i tr t ∧ traces t (of_thread i tr) None).
Proof.
  intros Hex. split_and!.
  - destruct (exec_programs _ _ _ Hex) as [->|(_&Hb&_)]; auto.
  - intros i ot. by apply exec_alive.
  - assert (Halive : ∀ tr p i ob, exec main tr p → p ≠ [] → (i, ob) ∈ tr →
      ∃ t, origin main i tr t ∧ traces t (of_thread i tr) None).
    { clear tr p Hex. intros tr p i ob Hex Hne Hin.
      destruct (exec_event_alive _ _ _ _ _ Hex Hne Hin) as [ot Hi].
      destruct (exec_alive _ _ _ _ _ Hex Hi) as (t&Ho&Ht). exists t. split; [done|].
      rewrite <-(app_nil_r (of_thread i tr)). apply Ht, tr_stop. }
    intros i ob Hin. destruct p as [|q p]; [|by eapply Halive].
    remember [] as p eqn:Hp. destruct Hex as [|tr p1 tr' p2 Hex Hst]; [done|].
    destruct Hst as [p1 j t _ Hj|p1 j X e k x _ Hj _|p1 j X e k _ Hj _];
      [apply (f_equal length) in Hp; rewrite ?length_app, length_insert in Hp;
       apply lookup_lt_Some in Hj; simpl in Hp; lia..|].
    destruct (decide (i = j)) as [->|Hne].
    + destruct (exec_alive _ _ _ _ _ Hex Hj) as (t&Ho&Ht). exists t. split; [by apply origin_grow|].
      rewrite of_thread_app, of_thread_one, decide_True by done. apply Ht, tr_call.
    + rewrite elem_of_app, list_elem_of_singleton in Hin. destruct Hin as [Hin|[= -> ->]]; [|done].
      destruct (Halive tr p1 i ob Hex) as (t&Ho&Ht); [by intros ->|done|].
      exists t. split; [by apply origin_grow|].
      by rewrite of_thread_app, of_thread_one, decide_False, app_nil_r.
Qed.

Lemma exec_main_traces main tr p :
  exec main tr p → is_Some (p !! 0) → traces main (of_thread 0 tr) None.
Proof.
  intros Hex [ot H0]. destruct (exec_threads _ _ _ Hex) as (_&Hp&_).
  destruct (Hp _ _ H0) as (t&[[_ ->]|[? _]]&Ht); [|done].
  specialize (Ht [] None (tr_stop ot)). by rewrite app_nil_r in Ht.
Qed.

(** What all the programs of a process avoid, the process avoids; only the
    goroutines that its own events start count. *)
Lemma exec_emits (P : ∀ X, E X → Prop) main tr p :
  exec main tr p → emits P main →
  (∀ X (e : E X) t, P X e → t ∈ spawned X e → emits P t) →
  ∀ i ob, (i, ob) ∈ tr → obs_event P ob.
Proof.
  intros Hex Hm Hs. induction Hex as [|tr p tr' p' Hex IH Hst]; [by intros i ob ?%elem_of_nil|].
  destruct (exec_threads _ _ _ Hex) as (_&Hp&_).
  assert (Hnew : ∀ i q ob, p !! i = Some q → trace q [ob] None → obs_event P ob).
  { intros i q ob Hi Hq. destruct (Hp _ _ Hi) as (t&Ho&Ht). specialize (Ht _ _ Hq).
    assert (emits P t) as He.
    { destruct Ho as [[_ ->]|(_&j&X&e&x&Hin&Hsp)]; [done|]. exact (Hs _ _ _ (IH _ _ Hin) Hsp). }
    apply He, Forall_app in Ht as [_ Ht]. apply Forall_cons in Ht as [Ht _]. exact Ht. }
  intros i ob [Hin|Hin]%elem_of_app; [by eapply IH|].
  destruct Hst as [p i' t Hrun Hi|p i' X e k x Hrun Hi _|p i' X e k Hrun Hi _];
    [by apply elem_of_nil in Hin|..]; apply list_elem_of_singleton in Hin; injection Hin as -> ->;
    (eapply Hnew; [exact Hi|]); [apply tr_vis, tr_stop|apply tr_call].
Qed.

(** A process that is gone ended by an event that ends processes. *)
Lemma exec_gone main tr :
  exec main tr [] → ∃ tr' i X (e : E X), tr = tr' ++ [(i, Called e)] ∧ exits X e = true.
Proof.
  assert (Hne : ∀ tr p, exec main tr p → p = [] →
    ∃ tr' i X (e : E X), tr = tr' ++ [(i, Called e)] ∧ exits X e = true); [|intros H; by eapply Hne].
  intros tr' p Hex Hp. destruct Hex as [|tr1 p1 tr2 p2 _ Hst]; [done|].
  destruct Hst as [p i t _ Hi|p i X e k x _ Hi _|p i X e k _ _ He].
  - apply lookup_lt_Some in Hi. apply (f_equal length) in Hp. rewrite length_insert in Hp. simpl in Hp. lia.
  - apply lookup_lt_Some in Hi. apply (f_equal length) in Hp.
    rewrite length_app, length_insert in Hp. simpl in Hp. lia.
  - by exists tr1, i, X, e.
Qed.

(** ** Executions by evaluation *)

(** The environment's answer to an event, given the events so far; [None]
    while the call does not return. *)
Context (answers : list (nat * obs E) → ∀ X, E X → option X).

(** One step of goroutine [i], if it can take one. *)
Definition advance (i : nat) (tr : list (nat * obs E)) (p : pool) : option (list (nat * obs E) * pool) :=
  if p !! 0 is Some (RetF _) then None else
  match p !! i with
  | Some (TauF t) => Some (tr, <[i := observe t]> p)
  | Some (@VisF _ _ _ X e k) =>
    if exits X e then Some (tr ++ [(i, Called e)], []) else
    x ← answers tr X e;
    Some (tr ++ [(i, Answered e x)], <[i := observe (k x)]> p ++ (observe <$> spawned X e))
  | _ => None
  end.

(** The run of a schedule; a goroutine that cannot step loses its turn. *)
Fixpoint play (sched : list nat) (tr : list (nat * obs E)) (p : pool) : list (nat * obs E) * pool :=
  match sched with
  | [] => (tr, p)
  | i :: sched =>
    match advance i tr p with
    | Some (tr', p') => play sched tr' p'
    | None => play sched tr p
    end
  end.

Lemma advance_inv i tr p tr' p' :
  advance i tr p = Some (tr', p') →
  running p ∧
  ((∃ t, p !! i = Some (TauF t) ∧ tr' = tr ∧ p' = <[i := observe t]> p) ∨
   (∃ X (e : E X) k x, p !! i = Some (VisF e k) ∧ exits X e = false ∧ answers tr X e = Some x ∧
      tr' = tr ++ [(i, Answered e x)] ∧ p' = <[i := observe (k x)]> p ++ (observe <$> spawned X e)) ∨
   (∃ X (e : E X) k, p !! i = Some (VisF e k) ∧ exits X e = true ∧ tr' = tr ++ [(i, Called e)] ∧ p' = [])).
Proof.
  intros H. unfold advance in H. unfold running.
  destruct (p !! 0) as [[[]|t0|Y e0 k0]|] eqn:H0; [done|..];
    (split; [done|]);
    destruct (p !! i) as [[u|t|X e k]|] eqn:Hi; try done; clear H0;
    (injection H as <- <-; left; by exists t) ||
    (destruct (exits X e) eqn:He; [injection H as <- <-; right; right; by exists X, e, k|];
     destruct (answers tr X e) as [x|] eqn:Hx; [|done]; injection H as <- <-; right; left; by exists X, e, k, x).
Qed.

Lemma advance_step i tr p tr' p' :
  advance i tr p = Some (tr', p') → ∃ tr1, tr' = tr ++ tr1 ∧ pool_step p tr1 p'.
Proof.
  intros (Hrun&[(t&Hi&->&->)|[(X&e&k&x&Hi&He&_&->&->)|(X&e&k&Hi&He&->&->)]])%advance_inv.
  - exists []. rewrite app_nil_r. split; [done|]. by apply po_tau.
  - eexists. split; [done|]. by apply po_answer.
  - eexists. split; [done|]. by eapply po_exit.
Qed.

Lemma play_exec main sched tr p :
  exec main tr p → exec main (play sched tr p).1 (play sched tr p).2.
Proof.
  revert tr p. induction sched as [|i sched IH]; intros tr p H; simpl; [done|].
  destruct (advance i tr p) as [[tr' p']|] eqn:Ha; [|by apply IH].
  apply advance_step in Ha as (tr1&->&Hst). apply IH. by eapply ex_step.
Qed.

(** Every answer of a played run is one the environment gives. *)
Lemma play_forall (P : obs E → Prop) sched tr p :
  (∀ X (e : E X), P (Called e)) → (∀ tr X (e : E X) x, answers tr X e = Some x → P (Answered e x)) →
  Forall P tr.*2 → Forall P (play sched tr p).1.*2.
Proof.
  intros Hc Ha. revert tr p. induction sched as [|i sched IH]; intros tr p H; simpl; [done|].
  destruct (advance i tr p) as [[tr' p']|] eqn:Hadv; [|by apply IH]. apply IH.
  assert (∀ ob, P ob → Forall P (tr ++ [(i, ob)]).*2) as Hone.
  { intros ob Hob. rewrite fmap_app. apply Forall_app. split; [done|]. by repeat constructor. }
  apply advance_inv in Hadv as (_&[(t&_&->&_)|[(X&e&k&x&_&_&Hx&->&_)|(X&e&k&_&_&->&_)]]); [done|..];
    apply Hone; [by eapply Ha|apply Hc].
Qed.

End Pool.
