(* ===== verification/Progress.v ===== *)
(** Progress of a goroutine in a process: a program that is never silent for
    ever, scheduled again and again in an environment that answers it, gets
    through any number of calls. *)
From ITree Require Import ITree Eq.Shallow.
From S2P Require Import Prelude StoreConcProps Fairness Proc.
Open Scope string_scope.
Open Scope nat_scope.
Open Scope list_scope.

(** ** Programs that are never silent for ever *)

Section Settles.
Context {E : Type → Type}.

(** After finitely many silent steps: a call or the result; a call. *)
Inductive settles {R : Type} : itree' E R → Prop :=
  | se_ret r : settles (RetF r)
  | se_vis {X : Type} (e : E X) k : settles (VisF e k)
  | se_tau t : settles (observe t) → settles (TauF t).

Inductive asks {R : Type} : itree' E R → Prop :=
  | as_vis {X : Type} (e : E X) k : asks (VisF e k)
  | as_tau t : asks (observe t) → asks (TauF t).

(** At every moment of every run. *)
Definition calm {R} (t : itree E R) : Prop := ∀ l ot, leads (observe t) l ot → settles ot.

Lemma leads_vis_inv {R X} (e : E X) (k : X → itree E R) l ot :
  leads (VisF e k) l ot → settles ot ∨ ∃ x l', leads (observe (k x)) l' ot.
Proof.
  intros H. remember (VisF e k) as ot0 eqn:Hot.
  destruct H as [ot|t l ot H|Y e' k' x l ot H]; [subst; left; constructor|discriminate|right].
  apply eq_inv_VisF_weak in Hot as [-> [He Hk]]. cbn in *. subst. eauto.
Qed.

Lemma calm_ret {R} (r : R) : calm (mret r).
Proof. intros l ot H. cbn in H. inversion H; subst. constructor. Qed.

Lemma calm_trigger {X} (e : E X) : calm (ITree.trigger e).
Proof.
  intros l ot H. unfold ITree.trigger in H. cbn [observe _observe] in H.
  apply leads_vis_inv in H as [?|(x&l'&H)]; [done|]. by apply calm_ret in H.
Qed.

Lemma calm_tau {R} (t t' : itree E R) : calm t → observe t = TauF t' → calm t'.
Proof. intros Hc Ht l ot Hl. apply (Hc l). rewrite Ht. by constructor. Qed.

Lemma calm_vis {R X} (t : itree E R) (e : E X) k x : calm t → observe t = VisF e k → calm (k x).
Proof. intros Hc Ht l ot Hl. apply (Hc (Answered e x :: l)). rewrite Ht. by constructor. Qed.

Lemma settles_bind {R S} (t : itree E S) (k : S → itree E R) :
  settles (observe t) → (∀ s, settles (observe (k s))) → settles (observe (t ≫= k)).
Proof.
  intros Ht Hk. remember (observe t) as ot eqn:Hot. revert t Hot.
  induction Ht as [s|X e k'|t' _ IH]; intros t Hot; rewrite observe_mbind, <-Hot; [done|constructor..].
  by apply IH.
Qed.

Lemma asks_bind {R S} (t : itree E S) (k : S → itree E R) : asks (observe t) → settles (observe (t ≫= k)).
Proof.
  intros Ht. remember (observe t) as ot eqn:Hot. revert t Hot.
  induction Ht as [X e k'|t' _ IH]; intros t Hot; rewrite observe_mbind, <-Hot; constructor.
  by apply IH.
Qed.

(** From within [t], followed by [k]. *)
Lemma leads_continue {R S} (k : S → itree E R) ot0 l ot :
  leads ot0 l ot → (∀ s, settles (observe (k s))) →
  ∀ t, ot0 = observe (t ≫= k) → calm t → settles ot ∨ ∃ s l', leads (observe (k s)) l' ot.
Proof.
  intros H Hk. induction H as [ot|t' l ot H IH|X e k' x l ot H IH]; intros t Hot Hc.
  - left. subst. apply settles_bind; [|done]. apply (Hc []). constructor.
  - rewrite observe_mbind in Hot. destruct (observe t) as [s|t0|Y e0 k0] eqn:Ht; [|injection Hot as ->|discriminate].
    + right. exists s, l. rewrite <-Hot. by constructor.
    + apply (IH t0 eq_refl). by apply (calm_tau t).
  - rewrite observe_mbind in Hot. destruct (observe t) as [s|t0|Y e0 k0] eqn:Ht; [|discriminate|].
    + right. exists s, (Answered e x :: l). rewrite <-Hot. by constructor.
    + apply eq_inv_VisF_weak in Hot as [-> [He Hk']]. cbn in *. subst.
      apply (IH (k0 x) eq_refl). by apply (calm_vis t e0).
Qed.

Lemma calm_bind {R S} (t : itree E S) (k : S → itree E R) : calm t → (∀ s, calm (k s)) → calm (t ≫= k).
Proof.
  intros Ht Hk l ot H.
  destruct (leads_continue k _ _ _ H (λ s, Hk s [] _ (ld_here _)) t eq_refl Ht) as [?|(s&l'&Hs)]; [done|].
  by apply Hk in Hs.
Qed.

Lemma calm_for_each {A} (xs : list A) (body : A → itree E unit) :
  (∀ x, calm (body x)) → calm (for_each xs body).
Proof.
  intros Hb. induction xs as [|x xs IH]; simpl; [apply calm_ret|]. by apply calm_bind.
Qed.

Lemma calm_iter {I R} (body : I → itree E (I + R)) i :
  (∀ i, calm (body i)) → (∀ i, asks (observe (body i))) → calm (ITree.iter body i).
Proof.
  intros Hb Ha l ot H.
  assert (Hnext : ∀ s, settles (observe (iter_next body s))).
  { intros [j|r]; constructor. rewrite observe_iter. by apply asks_bind. }
  assert (Hgen : ∀ ot0 l ot, leads ot0 l ot → ∀ t, ot0 = observe (t ≫= iter_next body) → calm t → settles ot);
    [|exact (Hgen _ _ _ H (body i) (observe_iter body i) (Hb i))].
  clear H i l ot. intros ot0 l ot H. induction H as [ot|t' l ot H IH|X e k' x l ot H IH]; intros t Hot Hc.
  - subst. apply settles_bind; [|done]. apply (Hc []). constructor.
  - rewrite observe_mbind in Hot. destruct (observe t) as [[j|r]|t0|Y e0 k0] eqn:Ht; try discriminate;
      injection Hot as ->.
    + apply (IH (body j) (observe_iter body j)). apply Hb.
    + apply (IH t0 eq_refl). by apply (calm_tau t).
  - rewrite observe_mbind in Hot. destruct (observe t) as [[j|r]|t0|Y e0 k0] eqn:Ht; try discriminate.
    apply eq_inv_VisF_weak in Hot as [-> [He Hk']]. cbn in *. subst.
    apply (IH (k0 x) eq_refl). by apply (calm_vis t e0).
Qed.

End Settles.

(** ** Infinite runs *)

Section Runs.
Context {E : Type → Type} (spawned : ∀ X, E X → list (itree E unit)) (exits : ∀ X, E X → bool).
Context (answers : list (nat * obs E) → ∀ X, E X → option X).

#[local] Abbreviation play := (play spawned exits answers).
#[local] Abbreviation advance := (advance spawned exits answers).

Lemma play_app s1 s2 tr p : play (s1 ++ s2) tr p = play s2 (play s1 tr p).1 (play s1 tr p).2.
Proof.
  revert tr p. induction s1 as [|i s1 IH]; intros tr p; simpl; [done|].
  destruct (advance i tr p) as [[tr' p']|]; apply IH.
Qed.

(** Goroutine [i] leaves the other ones as they are. *)
Lemma advance_other i j tr p tr' p' :
  advance i tr p = Some (tr', p') → i ≠ j → is_Some (p !! j) → p' ≠ [] →
  p' !! j = p !! j ∧ of_thread j tr' = of_thread j tr.
Proof.
  intros (_&[(t&_&->&->)|[(X&e&k&x&_&_&_&->&->)|(X&e&k&_&_&->&->)]])%advance_inv Hne [ot Hj] Hp; [..|done].
  - by rewrite list_lookup_insert_ne.
  - rewrite of_thread_app, of_thread_one, decide_False, app_nil_r by done.
    by rewrite lookup_app_l, list_lookup_insert_ne by (done || (rewrite length_insert; by eapply lookup_lt_Some)).
Qed.

(** A goroutine that can step does. *)
Lemma advance_self i tr p :
  running p → is_Some (p !! i) →
  (∀ X (e : E X) k, p !! i = Some (VisF e k) → exits X e = false ∧ is_Some (answers tr X e)) →
  (∃ r, p !! i = Some (RetF r)) ∨
  (∃ t p', p !! i = Some (TauF t) ∧ advance i tr p = Some (tr, p') ∧ p' !! i = Some (observe t)) ∨
  ∃ ob p', advance i tr p = Some (tr ++ [(i, ob)], p').
Proof.
  intros Hrun [ot Hi] Hans. unfold advance, Proc.advance, running in *.
  assert (∀ A (a b : A), (if p !! 0 is Some (RetF _) then a else b) = b) as Hif.
  { intros A a b. destruct (p !! 0) as [[[]|t|X e k]|]; done. }
  rewrite Hif. rewrite Hi in Hans |- *. destruct ot as [r|t|X e k]; [eauto|right; left|right; right].
  - exists t, (<[i := observe t]> p). split_and!; [done|done|].
    by rewrite list_lookup_insert_eq by (by eapply lookup_lt_Some).
  - destruct (Hans X e k eq_refl) as [-> [x ->]]. eauto.
Qed.

Section Turns.
Context (sched : nat → nat) (tr0 : list (nat * obs E)) (p0 : list (itree' E unit)).

(** The state after [n] steps. *)
Definition turn (n : nat) : list (nat * obs E) * list (itree' E unit) := play (first_steps sched n) tr0 p0.

Lemma turn_S n : turn (S n) = default (turn n) (advance (sched n) (turn n).1 (turn n).2).
Proof.
  unfold turn. rewrite first_steps_S, play_app. simpl.
  destruct (advance _ _ _) as [[tr p]|]; [done|]. by destruct (play _ _ _).
Qed.

(** Something holds at every step that holds at first and is kept. *)
Lemma turn_ind (P : list (nat * obs E) → list (itree' E unit) → Prop) :
  P tr0 p0 →
  (∀ n tr p, P (turn n).1 (turn n).2 → advance (sched n) (turn n).1 (turn n).2 = Some (tr, p) → P tr p) →
  ∀ n, P (turn n).1 (turn n).2.
Proof.
  intros H0 HS n. induction n as [|n IH]; [done|]. rewrite turn_S.
  destruct (advance _ _ _) as [[tr p]|] eqn:Ha; [|done]. by apply (HS n).
Qed.

Context (i : nat).
Hypothesis Hcalm : ∀ n ot, (turn n).2 !! i = Some ot → settles ot ∧ ∀ r, ot ≠ RetF r.
Hypothesis Hlive : ∀ n, running (turn n).2 ∧ is_Some ((turn n).2 !! i).
Hypothesis Hans : ∀ n X (e : E X) k,
  (turn n).2 !! i = Some (VisF e k) → exits X e = false ∧ is_Some (answers (turn n).1 X e).
Hypothesis Hfair : ∀ n, ∃ m, n ≤ m ∧ sched m = i.

Lemma turn_other n :
  sched n ≠ i → (turn (S n)).2 !! i = (turn n).2 !! i ∧ of_thread i (turn (S n)).1 = of_thread i (turn n).1.
Proof.
  intros Hn. pose proof (proj2 (Hlive (S n))) as Hi. rewrite turn_S in Hi |- *.
  destruct (advance _ _ _) as [[tr p]|] eqn:Ha; [|done].
  apply (advance_other _ _ _ _ _ _ Ha Hn (proj2 (Hlive n))). intros ->. by destruct Hi.
Qed.

Lemma turn_grows n m : n ≤ m → length (of_thread i (turn n).1) ≤ length (of_thread i (turn m).1).
Proof.
  induction 1 as [|m _ IH]; [done|]. etrans; [exact IH|]. rewrite turn_S.
  destruct (advance _ _ _) as [[tr p]|] eqn:Ha; [|done]. apply advance_step in Ha as (tr1&->&_).
  simpl. rewrite of_thread_app, length_app. lia.
Qed.

(** The next turn of the goroutine finds it as it is. *)
Lemma turn_next n :
  ∃ m, n ≤ m ∧ sched m = i ∧ (turn m).2 !! i = (turn n).2 !! i ∧ of_thread i (turn m).1 = of_thread i (turn n).1.
Proof.
  destruct (Hfair n) as (m&Hm&Hi). remember (m - n) as d eqn:Hd.
  revert n Hm Hd. induction d as [|d IH]; intros n Hm Hd.
  { replace m with n in Hi by lia. by exists n. }
  destruct (decide (sched n = i)) as [Hn|Hn]; [by exists n|].
  destruct (IH (S n)) as (m'&Hm'&Hs&H1&H2); [lia..|]. destruct (turn_other n Hn) as [G1 G2].
  exists m'. rewrite H1, H2. split_and!; [lia|done..].
Qed.

(** The goroutine gets through one more call. *)
Lemma turn_event n : ∃ m, length (of_thread i (turn n).1) < length (of_thread i (turn m).1).
Proof.
  destruct (proj2 (Hlive n)) as [ot Hot]. pose proof (proj1 (Hcalm n ot Hot)) as Hset. revert n Hot.
  assert (Hself : ∀ n, ∃ m, of_thread i (turn m).1 = of_thread i (turn n).1 ∧ (turn m).2 !! i = (turn n).2 !! i ∧
    ((∃ t, (turn n).2 !! i = Some (TauF t) ∧ of_thread i (turn (S m)).1 = of_thread i (turn n).1 ∧
        (turn (S m)).2 !! i = Some (observe t)) ∨
      length (of_thread i (turn n).1) < length (of_thread i (turn (S m)).1))).
  { intros n. destruct (turn_next n) as (m&_&Hs&H1&H2). exists m. split_and!; [done|done|].
    rewrite <-H1, <-H2, turn_S, Hs.
    destruct (advance_self i (turn m).1 (turn m).2 (proj1 (Hlive m)) (proj2 (Hlive m)) (Hans m))
      as [[r Hr]|[(t&p&Ht&Ha&Hp)|(ob&p&Ha)]].
    - by destruct (proj2 (Hcalm m _ Hr) r).
    - left. exists t. by rewrite Ha.
    - right. rewrite Ha. simpl. rewrite of_thread_app, of_thread_one, decide_True, length_app by done.
      simpl. lia. }
  induction Hset as [r|X e k|t _ IH]; intros n Hot; destruct (Hself n) as (m&_&_&[(t'&Ht&Hl&Ht')|Hlt]);
    try (by exists (S m)); rewrite Hot in Ht; try discriminate.
  injection Ht as <-. destruct (IH (S m) Ht') as (m'&Hm'). exists m'. by rewrite <-Hl.
Qed.

Lemma turn_unbounded b : ∃ N, ∀ n, N ≤ n → b ≤ length (of_thread i (turn n).1).
Proof.
  assert (∃ N, b ≤ length (of_thread i (turn N).1)) as [N HN].
  { induction b as [|b [N HN]]; [exists 0; lia|]. destruct (turn_event N) as [m Hm]. exists m. lia. }
  exists N. intros n Hn. pose proof (turn_grows N n Hn). lia.
Qed.

End Turns.
End Runs.
