(* ===== verification/Programs.v ===== *)
(** The programs of the repository as processes: cmd/bouncer-engine,
    examples/httpbin/pep, examples/envoy-jwt/extauthz, cmd/mock-publisher and
    loadtest/seed, from the package variables to the last call of [main], with
    their goroutines.

    An event is one call out of the code modelled elsewhere: to the operating
    system, the network, Redis, gRPC and Prometheus, or to a component of this
    library, which is named by a reference. *)
From S2P Require Import Prelude GoText GoJson AuthzPb Policy Store Subscriber PolicyJson Seeding Seed Live Proc.
From ITree Require Import ITree.
Open Scope string_scope.
Open Scope nat_scope.
Open Scope list_scope.

Section WithRegexp.
Context `{RE : RegexpLib} `{DEC : !PolicyDecoder} `{UNI : UnicodeLib}.

(** A pointer to a policy store or to an audit logger. *)
Definition ref : Type := nat.

(** [engine.Engine] and [server.AuthzServer], by the pointers they hold. *)
Record Engine := mkEngine { en_provider : ref }.
Definition New (p : ref) : Engine := mkEngine p.

Record AuthzServer := mkAuthzServer { as_engine : Engine; as_audit : ref }.
Definition NewAuthzServer (e : Engine) (a : ref) : AuthzServer := mkAuthzServer e a.

(** [subscriber.PolicyUpdateSubscriber], without its Redis client. *)
Record PolicyUpdateSubscriber := mkSubscriber { ps_streamKey : string; ps_store : ref }.
Definition NewPolicyUpdateSubscriber (streamKey : string) (store : ref) : PolicyUpdateSubscriber :=
  mkSubscriber streamKey store.

(** What a gRPC server serves: whether [metrics.UnaryInterceptor] is installed
    and the service registered on it. *)
Inductive grpc_service :=
  | AuthorizationService (srv : AuthzServer)
  | ExtAuthzService (payloadHeader : string).
Record grpc_server := mkGrpcServer { gs_interceptor : bool; gs_service : grpc_service }.

Inductive http_handler :=
  | MetricsMux
  | PepHandler (httpbinTarget : string).

Inductive goroutine :=
  | SubscriberStart (sub : PolicyUpdateSubscriber)
  | MetricsEndpoint (metricsAddr : string)
  | AwaitShutdown.

Inductive goE : Type → Type :=
  (* the operating system *)
  | Getenv (key : string) : goE string
  | Exit (code : Z) : goE void
  | Panic : goE void
  | Sleep (d : Z) : goE unit
  | ReadDir (dir : string) : goE (result (list dir_entry))
  | ReadFile (dir name : string) : goE (result string)
  | SignalReceived : goE unit
  (* the network, gRPC and Redis *)
  | Listen (addr : string) : goE (option string)
  | Dial (addr : string) : goE (option string)
  | CloseConn : goE unit
  | Serve (srv : grpc_server) (addr : string) : goE (option string)
  | GracefulStop : goE unit
  | ListenAndServe (addr : string) (h : http_handler) : goE (option string)
  | ParseURL (target : string) : goE (option string)
  | NewRedisClient (addr : string) : goE unit
  | CloseRedis : goE unit
  | XAdd (args : XAddArgs) : goE (option string)
  | XRead (args : list string * nat * Z) : goE read_outcome
  | CtxErr : goE bool
  | RpcCheckAccess (req : CheckAccessRequest) : goE (result CheckAccessResponse)
  | Now : goE Z
  | DoneBefore (d : Z) : goE bool
  (* the components *)
  | NewStore : goE ref
  | MetricsRegister (store : ref) : goE bool
  | NewAudit (bufferSize : nat) : goE ref
  | StartAudit (a : ref) (workers : nat) : goE unit
  | StopAudit (a : ref) : goE unit
  | StoreCall (store : ref) (c : StoreConc.call) : goE unit
  | Go (g : goroutine) : goE unit.

Definition do {X} (e : goE X) : itree goE X := ITree.trigger e.

(** [os.Exit] and a panic do not return. *)
Definition exit {A} (code : Z) : itree goE A := v ← do (Exit code); match (v : void) with end.
Definition panic {A} : itree goE A := v ← do Panic; match (v : void) with end.

(** ** internal/subscriber: the consumer goroutine *)

(** [Start]: one pass of the loop; [inr tt] when the context is done. *)
Definition subscriber_pass (os : XMessage → MapOrders) (sub : PolicyUpdateSubscriber) (lastID : string)
    : itree goE (string + unit) :=
  done ← do CtxErr;
  if (done : bool) then mret (inr tt) else
  out ← do (XRead ([ps_streamKey sub; lastID], 1, 5000000000%Z));
  match out with
  | XNil => mret (inl lastID)
  | XErr _ =>
    done ← do CtxErr;
    if (done : bool) then mret (inr tt) else
    done ← do (DoneBefore 1000000000);
    if (done : bool) then mret (inr tt) else mret (inl lastID)
  | XStreams streams =>
    _ ← for_each (concat streams) (λ entry,
      for_each (entry_calls (os entry) (xm_Values entry)) (λ c, do (StoreCall (ps_store sub) c)));
    mret (inl (List.last (xm_ID <$> concat streams) lastID))
  end.

Definition subscriber_tree (os : XMessage → MapOrders) (sub : PolicyUpdateSubscriber) : itree goE unit :=
  ITree.iter (subscriber_pass os sub) "0".

(** ** cmd/bouncer-engine *)

Definition metrics_endpoint (metricsAddr : string) : itree goE unit :=
  _ ← do (ListenAndServe metricsAddr MetricsMux); mret tt.

Definition engine_main : itree goE unit :=
  policyStore ← do NewStore;
  panicked ← do (MetricsRegister policyStore);
  if (panicked : bool) then panic else
  let abacEngine := New policyStore in
  let port := ":50051" in
  err ← do (Listen port);
  if err is Some _ then exit 1 else
  auditLogger ← do (NewAudit (Z.to_nat 10000));
  _ ← do (StartAudit auditLogger 5);
  deferring (do (StopAudit auditLogger)) (
    v ← do (Getenv "REDIS_ADDR");
    let redisAddr := AddrFromEnv (λ _, v) in
    _ ← do (NewRedisClient redisAddr);
    deferring (do CloseRedis) (
      _ ← do (Go (SubscriberStart (NewPolicyUpdateSubscriber StreamKey policyStore)));
      let authzServer := NewAuthzServer abacEngine auditLogger in
      let grpcServer := mkGrpcServer true (AuthorizationService authzServer) in
      _ ← do (Go (MetricsEndpoint ":9090"));
      err ← do (Serve grpcServer port);
      if err is Some _ then exit 1 else mret tt)).

(** ** Policy seeding *)

Definition envOr (key def : string) : itree goE string :=
  v ← do (Getenv key); mret (if negb (String.eqb v "") then v else def).

(** The loop of [loadPolicyFiles]; [out] is the slice so far. *)
Fixpoint load_entries (dir : string) (entries : list dir_entry) (out : list policyFile)
    : itree goE (list policyFile) :=
  match entries with
  | [] => mret out
  | e :: entries =>
    if de_IsDir e || negb (HasSuffix (de_name e) ".json") then load_entries dir entries out else
    data ← do (ReadFile dir (de_name e));
    match data with
    | Err _ => load_entries dir entries out
    | Ok data =>
      match Unmarshal "" decode_meta data with
      | Err _ => load_entries dir entries out
      | Ok id =>
        if String.eqb id "" then load_entries dir entries out
        else load_entries dir entries (out ++ [mkPolicyFile id data])
      end
    end
  end.

Definition loadPolicyFiles (sort : IdSorter) (dir : string) : itree goE (list policyFile) :=
  entries ← do (ReadDir dir);
  match entries with
  | Err _ => mret []
  | Ok entries => out ← load_entries dir entries []; mret (sort out)
  end.

(** One pass of [seedPolicies] over the files: whether it failed. *)
Fixpoint publish_pass (files : list policyFile) : itree goE bool :=
  match files with
  | [] => mret false
  | f :: files =>
    err ← do (XAdd (publish_args StreamKey ActionUpsert (pf_id f) (pf_json f)));
    if err is Some _ then mret true else publish_pass files
  end.

Definition seed_pass (files : list policyFile) (backoff : Z) : itree goE (Z + unit) :=
  failed ← publish_pass files;
  if (failed : bool) then _ ← do (Sleep backoff); mret (inl (Z.min (backoff * 2) maxBackoff))
  else mret (inr tt).

Definition seedPolicies (sort : IdSorter) (dir : string) : itree goE unit :=
  files ← loadPolicyFiles sort dir;
  if length files =? 0 then mret tt
  else ITree.iter (seed_pass files) initial_backoff.

(** ** examples/envoy-jwt/extauthz *)

Record ext_vars := mkExtVars {
  ev_engineAddr : string;
  ev_redisAddr : string;
  ev_listenAddr : string;
  ev_policiesDir : string;
  ev_payloadHeader : string
}.

(** The package variables, initialised in order before [main]. *)
Definition extauthz_vars : itree goE ext_vars :=
  engineAddr ← envOr "BOUNCER_ENGINE_ADDR" "bouncer-engine:50051";
  redisAddr ← envOr "REDIS_ADDR" DefaultAddr;
  listenAddr ← envOr "EXTAUTHZ_LISTEN_ADDR" ":9191";
  policiesDir ← envOr "POLICIES_DIR" "/policies";
  payloadHeader ← envOr "JWT_PAYLOAD_HEADER" "x-jwt-payload";
  mret (mkExtVars engineAddr redisAddr listenAddr policiesDir (ToLower payloadHeader)).

Definition await_shutdown : itree goE unit :=
  _ ← do SignalReceived; do GracefulStop.

Definition extauthz_main (sort : IdSorter) (vars : ext_vars) : itree goE unit :=
  err ← do (Dial (ev_engineAddr vars));
  if err is Some _ then exit 1 else
  deferring (do CloseConn) (
    _ ← do (NewRedisClient (ev_redisAddr vars));
    deferring (do CloseRedis) (
      _ ← seedPolicies sort (ev_policiesDir vars);
      let grpcSrv := mkGrpcServer false (ExtAuthzService (ev_payloadHeader vars)) in
      err ← do (Listen (ev_listenAddr vars));
      if err is Some _ then exit 1 else
      _ ← do (Go AwaitShutdown);
      err ← do (Serve grpcSrv (ev_listenAddr vars));
      if err is Some _ then exit 1 else mret tt)).

Definition extauthz_process (sort : IdSorter) : itree goE unit :=
  vars ← extauthz_vars; extauthz_main sort vars.

(** ** examples/httpbin/pep *)

Record pep_vars := mkPepVars {
  pv_engineAddr : string;
  pv_redisAddr : string;
  pv_httpbinTarget : string;
  pv_listenAddr : string;
  pv_policiesDir : string
}.

Definition httpbin_vars : itree goE pep_vars :=
  engineAddr ← envOr "BOUNCER_ENGINE_ADDR" "bouncer-engine:50051";
  redisAddr ← envOr "REDIS_ADDR" DefaultAddr;
  httpbinTarget ← envOr "HTTPBIN_TARGET" "http://httpbin";
  listenAddr ← envOr "PEP_LISTEN_ADDR" ":8080";
  policiesDir ← envOr "POLICIES_DIR" "/policies";
  mret (mkPepVars engineAddr redisAddr httpbinTarget listenAddr policiesDir).

(** [main] after the handler is built. *)
Definition pep_serve (vars : pep_vars) : itree goE unit :=
  err ← do (ListenAndServe (pv_listenAddr vars) (PepHandler (pv_httpbinTarget vars)));
  if err is Some _ then exit 1 else mret tt.

Definition pep_main (sort : IdSorter) (vars : pep_vars) : itree goE unit :=
  err ← do (Dial (pv_engineAddr vars));
  if err is Some _ then exit 1 else
  deferring (do CloseConn) (
    _ ← do (NewRedisClient (pv_redisAddr vars));
    deferring (do CloseRedis) (
      _ ← seedPolicies sort (pv_policiesDir vars);
      err ← do (ParseURL (pv_httpbinTarget vars));
      if err is Some _ then exit 1 else pep_serve vars)).

Definition pep_process (sort : IdSorter) : itree goE unit :=
  vars ← httpbin_vars; pep_main sort vars.

(** ** cmd/mock-publisher and loadtest/seed *)

Definition bouncer_target : itree goE string :=
  target ← do (Getenv "BOUNCER_TARGET");
  mret (if String.eqb target "" then "localhost:50051" else target).

Definition redis_addr : itree goE string :=
  v ← do (Getenv "REDIS_ADDR"); mret (AddrFromEnv (λ _, v)).

(** One pass of the probe loop, after the answer. *)
Definition probe_retry (deadline : Z) : itree goE (unit + CheckAccessResponse) :=
  now ← do Now;
  if (deadline <? now)%Z then exit 1 else
  _ ← do (Sleep probe_pause); mret (inl tt).

Definition probe_pass (req : CheckAccessRequest) (deadline : Z) (_ : unit)
    : itree goE (unit + CheckAccessResponse) :=
  answer ← do (RpcCheckAccess req);
  match answer with
  | Ok resp => if a_Allowed resp then mret (inr resp) else probe_retry deadline
  | Err _ => probe_retry deadline
  end.

Definition probe (req : CheckAccessRequest) : itree goE unit :=
  start ← do Now;
  _ ← ITree.iter (probe_pass req (start + probe_timeout)) tt; mret tt.

Definition mock_process : itree goE unit :=
  redisAddr ← redis_addr;
  _ ← do (NewRedisClient redisAddr);
  deferring (do CloseRedis) (
    err ← do (XAdd (publish_args StreamKey ActionUpsert "pol-mock-001" mock_policy_json));
    if err is Some _ then exit 1 else
    target ← bouncer_target;
    err ← do (Dial target);
    if err is Some _ then exit 1 else
    deferring (do CloseConn) (probe mock_probe)).

Fixpoint publish_or_exit (policies : list (string * string)) : itree goE unit :=
  match policies with
  | [] => mret tt
  | (id, json) :: policies =>
    err ← do (XAdd (publish_args StreamKey ActionUpsert id json));
    if err is Some _ then exit 1 else publish_or_exit policies
  end.

Definition seed_process : itree goE unit :=
  target ← bouncer_target;
  redisAddr ← redis_addr;
  _ ← do (NewRedisClient redisAddr);
  deferring (do CloseRedis) (
    err ← do (Dial target);
    if err is Some _ then exit 1 else
    deferring (do CloseConn) (
      _ ← publish_or_exit seed_policies;
      probe seed_probe)).

(** ** The goroutines an event starts, and the events that end a process *)

Definition goroutine_tree (os : XMessage → MapOrders) (g : goroutine) : itree goE unit :=
  match g with
  | SubscriberStart sub => subscriber_tree os sub
  | MetricsEndpoint addr => metrics_endpoint addr
  | AwaitShutdown => await_shutdown
  end.

Definition spawned (os : XMessage → MapOrders) (X : Type) (e : goE X) : list (itree goE unit) :=
  match e with Go g => [goroutine_tree os g] | _ => [] end.

Definition exits (X : Type) (e : goE X) : bool :=
  match e with Exit _ | Panic => true | _ => false end.

End WithRegexp.
