(* ===== verification/ProgramLemmas.v ===== *)
(** Stepping through the programs of [Programs]: inversion tactics and lemmas,
    and the call a goroutine is in. *)
From S2P Require Import Prelude GoText GoJson Policy Store StoreConc Subscriber Seeding Live Proc Programs.
From ITree Require Import ITree.
Open Scope string_scope.
Open Scope nat_scope.
Open Scope list_scope.

(** Stepping a trace hypothesis through the calls of a program: each call may
    not have happened, be in progress, or have been answered. *)
Ltac trace_step H :=
  let x := fresh "x" in let l := fresh "l" in
  first
    [ apply traces_ret_inv in H as [-> H]
    | apply traces_trigger_inv in H as [[-> ?]|[[-> ?]|(x&l&->&H)]]; [try discriminate; subst..|] ].

(** The events of a program, through its structure. *)
Ltac solve_emits :=
  repeat lazymatch goal with
    | |- emits _ (mret _) => apply emits_ret
    | |- emits _ (ITree.trigger _) => apply emits_trigger; first [exact I|reflexivity]
    | |- emits _ (do _) => apply emits_trigger; first [exact I|reflexivity]
    | |- emits _ (for_each _ _) => apply emits_for_each; intros ? _
    | |- emits _ (deferring _ _) => apply emits_deferring
    | |- emits _ (ITree.iter _ _) => apply emits_iter; intros ?
    | |- emits _ (_ ≫= _) => apply emits_bind; [|intros ?]
    | |- emits _ (if ?b then _ else _) => destruct b
    | |- emits _ (match ?x with _ => _ end) => destruct x
    | |- emits _ (let _ := _ in _) => cbv zeta
    | |- emits _ ?t => let h := head t in unfold h
    end
with head t := lazymatch t with ?f _ => head f | _ => t end.

Section WithRegexp.
Context `{RE : RegexpLib} `{DEC : !PolicyDecoder} `{UNI : UnicodeLib}.

(** ** Lemmas: exit *)

Lemma traces_exit_inv {A} code l o :
  traces (exit (A := A) code) l o → o = None ∧ (l = [] ∨ l = [Called (Exit code)]).
Proof. intros H. trace_step H; auto. destruct x. Qed.

Lemma traces_panic_inv {A} l o : traces (panic (A := A)) l o → o = None ∧ (l = [] ∨ l = [Called Panic]).
Proof. intros H. trace_step H; auto. destruct x. Qed.

(** [rest] returned before the deferred call. *)
Lemma traces_deferring_inv {A} (d : itree goE unit) (rest : itree goE A) l o :
  traces (deferring d rest) l o →
  (traces rest l None ∧ o = None) ∨
  ∃ a l1 l2, l = l1 ++ l2 ∧ traces rest l1 (Some a) ∧ traces (_ ← d; mret a) l2 o.
Proof. apply traces_bind_inv. Qed.

(** ** Environments *)

(** The environment variables, the directories and the files of the machine. *)
Record machine := mkMachine {
  mc_Getenv : string → string;
  mc_ReadDir : string → result (list dir_entry);
  mc_ReadFile : string → string → result string
}.

(** The environment answers from the machine [mc]. *)
Definition fs_answer (mc : machine) (ob : obs goE) : Prop :=
  match ob with
  | Called _ => True
  | Answered e x =>
    match e in goE X return X → Prop with
    | Getenv key => λ r, r = mc_Getenv mc key
    | ReadDir d => λ r, r = mc_ReadDir mc d
    | ReadFile d n => λ r, r = mc_ReadFile mc d n
    | _ => λ _, True
    end x
  end.

(** The answers of the [XAdd] calls. *)
Definition xadd_answer (ob : obs goE) : option (option string) :=
  match ob with
  | Called _ => None
  | Answered e x =>
    match e in goE X return X → option (option string) with
    | XAdd _ => λ r, Some r
    | _ => λ _, None
    end x
  end.

(** A concrete environment: the machine [mc], a Redis whose stream stays empty
    and whose [XAdd] calls are answered by their number, and servers that
    return [serve], or do not return. *)
Definition world (mc : machine) (xadd : nat → option string) (serve : option (option string))
    (tr : list (nat * obs goE)) (X : Type) (e : goE X) : option X :=
  match e in goE X return option X with
  | Getenv key => Some (mc_Getenv mc key)
  | ReadDir dir => Some (mc_ReadDir mc dir)
  | ReadFile dir name => Some (mc_ReadFile mc dir name)
  | XAdd _ => Some (xadd (length (omap xadd_answer tr.*2)))
  | Serve _ _ | ListenAndServe _ _ => serve
  | Listen _ | Dial _ | ParseURL _ => Some None
  | XRead _ => Some XNil
  | MetricsRegister _ | CtxErr | DoneBefore _ => Some false
  | NewStore | NewAudit _ => Some 0
  | RpcCheckAccess _ => Some (Err "unavailable")
  | Now => Some 0%Z
  | Exit _ | Panic | SignalReceived => None
  | Sleep _ | CloseConn | GracefulStop | NewRedisClient _ | CloseRedis | StartAudit _ _ | StopAudit _
  | StoreCall _ _ | Go _ => Some tt
  end.

Lemma world_fs mc xadd serve tr X (e : goE X) x :
  world mc xadd serve tr X e = Some x → fs_answer mc (Answered e x).
Proof. by destruct e; simpl; try done; intros [= ->]. Qed.

(** ** Calls in progress *)

(** The network server a call runs, with its address. *)
Definition serving (ob : obs goE) : option (grpc_server * string + string * http_handler) :=
  match ob with
  | Called e | Answered e _ =>
    match e with
    | Serve srv addr => Some (inl (srv, addr))
    | ListenAndServe addr h => Some (inr (addr, h))
    | _ => None
    end
  end.

Lemma in_call_traces os main tr p i X (e : goE X) :
  exec (spawned os) exits main tr p → in_call p i e →
  ∃ t, origin (spawned os) main i tr t ∧ traces t (of_thread i tr ++ [Called e]) None.
Proof.
  intros Hex [k Hk]. destruct (exec_threads _ _ _ _ _ Hex) as (_&Hp&_).
  destruct (Hp _ _ Hk) as (t&Ho&Ht). exists t. split; [done|]. apply Ht, tr_call.
Qed.

Lemma Forall_of_thread (P : obs goE → Prop) i tr :
  (∀ j ob, (j, ob) ∈ tr → P ob) → Forall P (of_thread i tr).
Proof.
  intros H. apply Forall_forall. intros ob Hin. apply list_elem_of_fmap in Hin as ([j ob']&->&Hin).
  apply list_elem_of_filter in Hin as [_ Hin]. by eapply H.
Qed.

Lemma Forall_thread0 (P : obs goE → Prop) tr : Forall P tr.*2 → Forall P (of_thread 0 tr).
Proof.
  intros H. apply Forall_of_thread. intros j ob Hin. rewrite Forall_forall in H. apply H.
  apply list_elem_of_fmap. by exists (j, ob).
Qed.

Lemma of_thread_elem (tr : list (nat * obs goE)) i ob : ob ∈ of_thread i tr → (i, ob) ∈ tr.
Proof.
  intros Hob. apply list_elem_of_fmap in Hob as ([j ob']&->&Hob).
  apply list_elem_of_filter in Hob as [Hj Hob]. simpl in Hj. by subst.
Qed.

(** ** A server call in progress *)

Definition is_serving {X} (e : goE X) : bool := bool_decide (is_Some (serving (Called e))).

Lemma called_trigger_inv {A X Y} (e : goE X) (k : X → itree goE A) (e' : goE Y) l :
  traces (do e ≫= k) (l ++ [Called e']) None →
  (l = [] ∧ Called e' = Called e) ∨
  ∃ x l', l = Answered e x :: l' ∧ traces (k x) (l' ++ [Called e']) None.
Proof.
  intros H. apply traces_trigger_inv in H as [[Hl _]|[[Hl _]|(x&l'&Hl&H)]].
  - by destruct l.
  - change [Called e] with ([] ++ [Called e]) in Hl. apply app_inj_tail in Hl as [-> Hl]. by left.
  - right. destruct l as [|ob l]; simpl in Hl; [discriminate Hl|]. injection Hl as -> <-. by exists x, l.
Qed.

Lemma called_exit {A Y} code (e : goE Y) l :
  traces (exit (A := A) code) (l ++ [Called e]) None → is_serving e = false.
Proof.
  intros H. apply called_trigger_inv in H as [[_ H]|(x&_)]; [|destruct x].
  unfold is_serving. by rewrite H.
Qed.

Lemma called_emits {A Y} (t : itree goE A) (e : goE Y) l :
  emits (λ X e, is_serving e = false) t → traces t (l ++ [Called e]) None → is_serving e = false.
Proof. intros He H. apply He, Forall_app in H as [_ H]. by apply Forall_cons in H as [H _]. Qed.

Lemma called_deferring {A Y} (d : itree goE unit) (rest : itree goE A) (e : goE Y) l :
  emits (λ X e, is_serving e = false) d → is_serving e = true →
  traces (deferring d rest) (l ++ [Called e]) None → traces rest (l ++ [Called e]) None.
Proof.
  intros Hd He H. apply traces_deferring_inv in H as [[H _]|(a&l1&l2&Hl&H1&H2)]; [done|].
  destruct l2 as [|ob l2 _] using rev_ind.
  { rewrite app_nil_r in Hl. rewrite Hl. by eapply traces_forget. }
  rewrite app_assoc in Hl. apply app_inj_tail in Hl as [_ <-].
  enough (is_serving e = false) by congruence. eapply called_emits; [|exact H2].
  apply emits_bind; [done|]. intros ?. apply emits_ret.
Qed.

Lemma called_bind {A B Y} (t : itree goE A) (k : A → itree goE B) (e : goE Y) l :
  emits (λ X e, is_serving e = false) t → is_serving e = true →
  traces (t ≫= k) (l ++ [Called e]) None →
  ∃ a l1 l2, l = l1 ++ l2 ∧ traces t l1 (Some a) ∧ traces (k a) (l2 ++ [Called e]) None.
Proof.
  intros Ht He H. apply traces_bind_inv in H as [[H _]|(a&l1&l2&Hl&H1&H2)].
  { apply called_emits in H; [congruence|done]. }
  destruct l2 as [|ob l2 _] using rev_ind.
  - rewrite app_nil_r in Hl. subst l1. apply Ht, Forall_app in H1 as [_ H1].
    apply Forall_cons in H1 as [H1 _]. simpl in H1. congruence.
  - rewrite app_assoc in Hl. apply app_inj_tail in Hl as [-> <-]. by exists a, l1, l2.
Qed.

(** A server call after [seedPolicies] comes after a complete seeding. *)

End WithRegexp.
