(* ===== verification/SubscriberProc.v ===== *)
(** The subscriber's goroutine: the unbounded loop of [Programs] does what the
    iterations of [Subscriber.Start] do. *)
From ITree Require Import ITree.
From S2P Require Import Prelude Policy LiteralRegexp Store StoreConc Subscriber PolicyJson Live Proc Programs ProgramLemmas.
Open Scope string_scope.
Open Scope nat_scope.
Open Scope list_scope.

Section WithRegexp.
Context `{RE : RegexpLib} `{DEC : !PolicyDecoder}.

(** ** What a trace did to the store and asked of Redis *)

Definition store_call (ob : obs goE) : option (ref * call) :=
  match ob with
  | Called _ => None
  | Answered e _ => match e with StoreCall r c => Some (r, c) | _ => None end
  end.

(** The same with the call in progress, if any. *)
Definition started_call (ob : obs goE) : option (ref * call) :=
  match ob with
  | Called e | Answered e _ => match e with StoreCall r c => Some (r, c) | _ => None end
  end.

Definition xread (ob : obs goE) : option ((list string * nat * Z) * read_outcome) :=
  match ob with
  | Called _ => None
  | Answered e x =>
    match e in goE X return X → option ((list string * nat * Z) * read_outcome) with
    | XRead args => λ out, Some (args, out)
    | _ => λ _, None
    end x
  end.

Definition apply_call (ps : PolicyStore) (c : call) : PolicyStore :=
  match c with
  | CUpsert o p => UpsertPolicy o p ps
  | CDelete oa od id => DeletePolicy oa od id ps
  | CRead => ps
  end.

(** The calls of a trace on the store [r], applied in order. *)
Definition store_after (r : ref) (l : list (obs goE)) (ps : PolicyStore) : PolicyStore :=
  foldl (λ ps rc, if decide (rc.1 = r) then apply_call ps rc.2 else ps) ps (omap store_call l).

(** The reads of the iterations that [loop_run] reaches. *)
Fixpoint loop_reads (key : string) (its : list iteration) (st : sub_state)
    : list ((list string * nat * Z) * read_outcome) :=
  match its with
  | [] => []
  | it :: its =>
    (if it_cancelled it then [] else [(XReadArgs key st, it_read it)]) ++
    match loop_body it st with
    | Running st' => loop_reads key its st'
    | Returned _ => []
    end
  end.

(** A read of which only the first messages have been processed yet. *)
Definition processed (model seen : (list string * nat * Z) * read_outcome) : Prop :=
  model.1 = seen.1 ∧
  match model.2, seen.2 with
  | XStreams part, XStreams whole => ∃ n, concat part = take n (concat whole)
  | a, b => a = b
  end.

(** ** Lemmas *)

Lemma store_after_app r l1 l2 ps : store_after r (l1 ++ l2) ps = store_after r l2 (store_after r l1 ps).
Proof. unfold store_after. by rewrite omap_app, foldl_app. Qed.

Lemma store_after_skip r ob l ps : store_call ob = None → store_after r (ob :: l) ps = store_after r l ps.
Proof. unfold store_after. csimpl. by intros ->. Qed.

Lemma store_after_none r l ps : omap store_call l = [] → store_after r l ps = ps.
Proof. unfold store_after. by intros ->. Qed.

Lemma processed_refl x : processed x x.
Proof.
  split; [done|]. destruct x.2 as [| |streams]; [done..|]. exists (length (concat streams)). by rewrite firstn_all.
Qed.

(** The iteration orders make no difference to the store. *)
Lemma entry_calls_apply os os' v ps :
  foldl apply_call ps (entry_calls os v) = (processMessageEntry os' v ps).2.
Proof.
  unfold entry_calls. pose proof (process_spec os v NewPolicyStore) as H.
  pose proof (process_spec os' v ps) as H'.
  destruct (processMessageEntry os v NewPolicyStore) as [out ps0].
  destruct (processMessageEntry os' v ps) as [out' ps']; cbn [fst snd].
  destruct (entry_update v) as [[p|id]|].
  - destruct H as [-> _], H' as (_&->&_). simpl. apply table_get_eq. intros t.
    by rewrite !table_get_UpsertPolicy.
  - destruct H as [-> _], H' as [_ ->]. simpl. apply table_get_eq. intros t.
    by rewrite !table_get_DeletePolicy.
  - destruct H as (_&Hu&Hd), H' as (->&_).
    destruct out; try done; [by destruct (Hu p)|by destruct (Hd policyID)].
Qed.

Lemma entry_calls_cases os v : entry_calls os v = [] ∨ ∃ c, entry_calls os v = [c].
Proof. unfold entry_calls. destruct (_.1); eauto. Qed.

Lemma process_streams_concat os streams st :
  process_streams os streams st = foldl (process_entry os) st (concat streams).
Proof.
  unfold process_streams. revert st. induction streams as [|es streams IH]; intros st; simpl; [done|].
  by rewrite foldl_app, IH.
Qed.

Lemma last_default {A} (x d d' : A) l : List.last (x :: l) d = List.last (x :: l) d'.
Proof. revert x. induction l as [|y l IH]; intros x; [done|]. exact (IH y). Qed.

Lemma process_entries_lastID os es st :
  ss_lastID (foldl (process_entry os) st es) = List.last (xm_ID <$> es) (ss_lastID st).
Proof.
  revert st. induction es as [|e es IH]; intros st; [done|]. simpl foldl. rewrite IH. csimpl.
  destruct es as [|e' es]; [done|]. csimpl. apply last_default.
Qed.

(** The store call of one message: made, or not yet. *)
Lemma message_traces os r v l o ps :
  traces (for_each (entry_calls os v) (λ c, do (StoreCall r c))) l o →
  omap xread l = [] ∧
  ((store_after r l ps = ps ∧ o = None) ∨ store_after r l ps = foldl apply_call ps (entry_calls os v)).
Proof.
  intros H. destruct (entry_calls_cases os v) as [Hc|[c Hc]]; rewrite Hc in H |- *; simpl in H.
  - apply traces_ret_inv in H as [-> _]. split; [done|by right].
  - apply traces_trigger_inv in H as [[-> ->]|[[-> ->]|(x&l'&->&H)]];
      [split; [done|by left]..|].
    apply traces_ret_inv in H as [-> _]. split; [done|right]. unfold store_after. simpl.
    by rewrite decide_True.
Qed.

(** The loop over the messages of a read: it has processed a prefix. *)
Lemma messages_traces os os' r es l o st :
  traces (for_each es (λ e, for_each (entry_calls (os e) (xm_Values e)) (λ c, do (StoreCall r c)))) l o →
  omap xread l = [] ∧
  ∃ n, store_after r l (ss_store st) = ss_store (foldl (process_entry os') st (take n es)) ∧
    (o = Some tt → n = length es).
Proof.
  revert l st. induction es as [|e es IH]; intros l st H; simpl in H.
  { apply traces_ret_inv in H as [-> _]. split; [done|]. by exists 0. }
  assert (Hone : store_after r l (ss_store st) = foldl apply_call (ss_store st) (entry_calls (os e) (xm_Values e)) →
    store_after r l (ss_store st) = ss_store (process_entry os' st e)).
  { intros ->. apply entry_calls_apply. }
  apply traces_bind_inv in H as [[H ->]|([]&l1&l2&->&H1&H2)].
  - destruct (message_traces _ _ _ _ _ (ss_store st) H) as [Hx [[Hs _]|Hs]]; (split; [done|]).
    + by exists 0.
    + exists 1. split; [|done]. rewrite (Hone Hs). simpl. by destruct es.
  - destruct (message_traces _ _ _ _ _ (ss_store st) H1) as [Hx1 [[_ ?]|Hs]]; [done|].
    destruct (IH l2 (process_entry os' st e) H2) as [Hx2 (n&Hn&Ho)].
    rewrite omap_app, Hx1, Hx2. split; [done|]. exists (S n). split; [|intros ->; simpl; by rewrite Ho].
    rewrite store_after_app. simpl. rewrite <-Hn. f_equal. rewrite Hs. apply entry_calls_apply.
Qed.

(** What one pass has done, as at most one iteration of the loop. *)
Definition simulates (sub : PolicyUpdateSubscriber) (its : list iteration) (st : sub_state)
    (l : list (obs goE)) : Prop :=
  store_after (ps_store sub) l (ss_store st) = ss_store (loop_sub (loop_run its st)) ∧
  Forall2 processed (loop_reads (ps_streamKey sub) its st) (omap xread l).

Definition orders0 : MapOrders := mkMapOrders canonical_order canonical_order canonical_order.

Definition read_obs (sub : PolicyUpdateSubscriber) (st : sub_state) (out : read_outcome) : list (obs goE) :=
  [Answered CtxErr false; Answered (XRead ([ps_streamKey sub; ss_lastID st], 1, 5000000000%Z)) out].

Lemma simulates_nothing sub st l :
  omap store_call l = [] → omap xread l = [] → simulates sub [] st l.
Proof. intros Hs Hx. split; [by apply store_after_none|]. rewrite Hx. constructor. Qed.

(** A read that failed, whatever came next. *)
Lemma simulates_error sub st err cancelled done l :
  omap store_call l = [] → omap xread l = [] →
  simulates sub [mkIteration false (XErr err) cancelled done orders0] st (read_obs sub st (XErr err) ++ l).
Proof.
  intros Hs Hx. split.
  - unfold read_obs. cbn [app]. rewrite !store_after_skip, store_after_none by done. by destruct cancelled, done.
  - csimpl. rewrite Hx. constructor; [by apply processed_refl|]. by destruct cancelled, done.
Qed.

(** A read of which [n] messages have been processed. *)
Lemma simulates_messages sub st streams n l :
  store_after (ps_store sub) l (ss_store st) =
    ss_store (foldl (process_entry orders0) st (take n (concat streams))) →
  omap xread l = [] →
  simulates sub [mkIteration false (XStreams [take n (concat streams)]) false false orders0] st
    (read_obs sub st (XStreams streams) ++ l).
Proof.
  intros Hs Hx. split.
  - unfold read_obs. cbn [app]. rewrite !store_after_skip by done. by rewrite Hs.
  - csimpl. rewrite Hx. constructor; [|constructor]. split; [done|]. simpl. exists n. by rewrite app_nil_r.
Qed.

(** The outcome of a pass and of the iterations it was. *)
Definition same_outcome (its : list iteration) (st : sub_state) (o : option (string + unit)) : Prop :=
  match o with
  | None => True
  | Some (inl lastID) => ∃ st', loop_run its st = Running st' ∧ ss_lastID st' = lastID
  | Some (inr _) => ∃ st', loop_run its st = Returned st'
  end.

Lemma error_traces sub st err l o :
  traces (done ← do CtxErr; if (done : bool) then mret (inr tt) else
    done ← do (DoneBefore 1000000000); if (done : bool) then mret (inr tt) else mret (inl (ss_lastID st))) l o →
  ∃ its, simulates sub its st (read_obs sub st (XErr err) ++ l) ∧ same_outcome its st o.
Proof.
  intros H.
  apply traces_trigger_inv in H as [[-> ->]|[[-> ->]|(c&l3&->&H)]];
    [by eexists [_]; split; [by apply (simulates_error _ _ _ false false)|]..|].
  destruct c.
  { apply traces_ret_inv in H as [-> Ho]. eexists [_]. split; [by apply (simulates_error _ _ _ true false)|].
    destruct Ho as [-> | ->]; [done|]. by exists st. }
  apply traces_trigger_inv in H as [[-> ->]|[[-> ->]|(d&l4&->&H)]];
    [by eexists [_]; split; [by apply (simulates_error _ _ _ false false)|]..|].
  destruct d; apply traces_ret_inv in H as [-> Ho]; eexists [_];
    [split; [by apply (simulates_error _ _ _ false true)|]|split; [by apply (simulates_error _ _ _ false false)|]];
    destruct Ho as [-> | ->]; try done; by exists st.
Qed.

Lemma streams_traces os sub st streams l o :
  traces (_ ← for_each (concat streams) (λ entry,
      for_each (entry_calls (os entry) (xm_Values entry)) (λ c, do (StoreCall (ps_store sub) c)));
    mret (inl (List.last (xm_ID <$> concat streams) (ss_lastID st)))) l o →
  ∃ its, simulates sub its st (read_obs sub st (XStreams streams) ++ l) ∧ same_outcome its st o.
Proof.
  intros H. apply traces_bind_inv in H as [[H ->]|([]&l3&l4&->&H1&H2)].
  - destruct (messages_traces _ orders0 _ _ _ _ st H) as [Hx (n&Hn&_)].
    eexists [_]. split; [by apply simulates_messages|done].
  - destruct (messages_traces _ orders0 _ _ _ _ st H1) as [Hx (n&Hn&Ho)]. specialize (Ho eq_refl).
    apply traces_ret_inv in H2 as [-> Hret]. rewrite app_nil_r.
    eexists [_]. split; [by apply simulates_messages|]. destruct Hret as [-> | ->]; [done|].
    eexists. split; [reflexivity|]. simpl. rewrite Ho, firstn_all. apply process_entries_lastID.
Qed.

Lemma pass_traces os sub st l o :
  traces (subscriber_pass os sub (ss_lastID st)) l o →
  ∃ its, simulates sub its st l ∧ same_outcome its st o.
Proof.
  intros H. unfold subscriber_pass in H.
  apply traces_trigger_inv in H as [[-> ->]|[[-> ->]|(c&l1&->&H)]];
    [exists []; split; [by apply simulates_nothing|done]..|].
  destruct c.
  { apply traces_ret_inv in H as [-> Ho]. exists [mkIteration true XNil false false orders0]. split.
    - split; [done|]. constructor.
    - destruct Ho as [-> | ->]; [done|]. by exists st. }
  apply traces_trigger_inv in H as [[-> ->]|[[-> ->]|(out&l2&->&H)]];
    [exists []; split; [by apply simulates_nothing|done]..|].
  destruct out as [|err|streams]; [|by apply (error_traces sub st err) in H|by apply (streams_traces os sub) in H].
  apply traces_ret_inv in H as [-> Ho]. exists [mkIteration false XNil false false orders0]. split.
  - split; [done|]. repeat constructor.
  - destruct Ho as [-> | ->]; [done|]. by exists st.
Qed.

Lemma loop_run_app its1 its2 st st' :
  loop_run its1 st = Running st' → loop_run (its1 ++ its2) st = loop_run its2 st'.
Proof.
  revert st. induction its1 as [|it its1 IH]; intros st H; simpl in *; [by simplify_eq|].
  destruct (loop_body it st); [by apply IH|done].
Qed.

Lemma loop_reads_app key its1 its2 st st' :
  loop_run its1 st = Running st' →
  loop_reads key (its1 ++ its2) st = loop_reads key its1 st ++ loop_reads key its2 st'.
Proof.
  revert st. induction its1 as [|it its1 IH]; intros st H; simpl in *; [by simplify_eq|].
  destruct (loop_body it st); [|done]. by rewrite (IH _ H), app_assoc.
Qed.

(** ** Lemmas: following a stream *)

(** Redis answers every read from a prefix of [log], as it stood then. *)
Definition redis_obs (log : list XMessage) (ob : obs goE) : Prop :=
  match xread ob with
  | Some (args, out) => ∃ sofar, sofar `prefix_of` log ∧ redis_answers sofar (List.last args.1.1 "0") out
  | None => True
  end.

(** The reads that delivered entries. *)
Definition delivery (ob : obs goE) : option (list (list XMessage)) :=
  match xread ob with Some (_, XStreams streams) => Some streams | _ => None end.

Definition delivered (l : list (obs goE)) : nat := length (omap delivery l).

Lemma delivered_app l1 l2 : delivered (l1 ++ l2) = delivered l1 + delivered l2.
Proof. unfold delivered. by rewrite omap_app, length_app. Qed.

Lemma delivered_none l : omap xread l = [] → delivered l = 0.
Proof.
  unfold delivered. induction l as [|ob l IH]; [done|]. csimpl. unfold delivery at 1.
  destruct (xread ob) as [[args out]|]; [done|]. exact IH.
Qed.

Lemma started_none l : omap started_call l = [] → omap store_call l = [].
Proof.
  induction l as [|ob l IH]; csimpl; [done|].
  destruct ob as [X e|X e x]; destruct e; simpl; intros H; try discriminate H; by apply IH.
Qed.

(** A pass that delivered nothing, or the processing of what it delivered. *)
Lemma pass_cases os sub lastID l o :
  traces (subscriber_pass os sub lastID) l o →
  (omap started_call l = [] ∧ delivered l = 0 ∧ ∀ id, o = Some (inl id) → id = lastID) ∨
  ∃ streams l', l = Answered CtxErr false ::
      Answered (XRead ([ps_streamKey sub; lastID], 1, 5000000000%Z)) (XStreams streams) :: l' ∧
    traces (_ ← for_each (concat streams) (λ entry,
        for_each (entry_calls (os entry) (xm_Values entry)) (λ c, do (StoreCall (ps_store sub) c)));
      mret (inl (List.last (xm_ID <$> concat streams) lastID))) l' o.
Proof.
  intros H. unfold subscriber_pass in H.
  apply traces_trigger_inv in H as [[-> ->]|[[-> ->]|(c&l1&->&H)]]; [by left..|].
  destruct c; [left; by apply traces_ret_inv in H as [-> [-> | ->]]|].
  apply traces_trigger_inv in H as [[-> ->]|[[-> ->]|(out&l2&->&H)]]; [by left..|].
  destruct out as [|err|streams]; [left..|right; by exists streams, l2].
  { apply traces_ret_inv in H as [-> [-> | ->]]; (split_and!; [done|done|]); [done|]. by intros id [= <-]. }
  apply traces_trigger_inv in H as [[-> ->]|[[-> ->]|(c&l3&->&H)]]; [done..|].
  destruct c; [by apply traces_ret_inv in H as [-> [-> | ->]]|].
  apply traces_trigger_inv in H as [[-> ->]|[[-> ->]|(d&l4&->&H)]]; [done..|].
  destruct d; apply traces_ret_inv in H as [-> [-> | ->]]; (split_and!; [done|done|]); try done.
  by intros id [= <-].
Qed.

(** A pass from position [n]: it stands at [n], or at [n + 1] if an entry was
    delivered and applied. *)
Lemma pass_position os sub log n st l o :
  stream_ids_ok log → at_position log n st →
  traces (subscriber_pass os sub (ss_lastID st)) l o → Forall (redis_obs log) l →
  ∃ k st', at_position log (n + k) st' ∧ store_after (ps_store sub) l (ss_store st) = ss_store st' ∧
    k ≤ delivered l ≤ k + 1 ∧ ∀ lastID, o = Some (inl lastID) → ss_lastID st' = lastID ∧ k = delivered l.
Proof.
  intros Hok Hpos H Hredis. apply pass_cases in H as [(Hs%started_none&Hd&Ho)|(streams&l'&->&H)].
  { exists 0, st. rewrite Nat.add_0_r, Hd. split_and!; [done|by apply store_after_none|lia|lia|].
    intros lastID ->. by rewrite (Ho _ eq_refl). }
  apply Forall_cons in Hredis as [_ Hredis]. apply Forall_cons in Hredis as [Hans _].
  destruct Hans as (sofar&Hpre&e&rest&Hun&->). simpl in Hun.
  pose proof (answer_position _ _ _ _ _ _ Hok Hpos Hpre Hun) as He.
  pose proof (process_one _ orders0 _ _ _ Hpos He) as Hnext.
  assert (Hmsg : ∀ l1 o1, traces (for_each (concat [[e]]) (λ entry,
      for_each (entry_calls (os entry) (xm_Values entry)) (λ c, do (StoreCall (ps_store sub) c)))) l1 o1 →
    delivered l1 = 0 ∧ ∃ k st', k ≤ 1 ∧ at_position log (n + k) st' ∧
      store_after (ps_store sub) l1 (ss_store st) = ss_store st' ∧
      (o1 = Some tt → ss_lastID st' = xm_ID e ∧ k = 1)).
  { intros l1 o1 H1. destruct (messages_traces _ orders0 _ _ _ _ st H1) as [Hx (k&Hk&Hret)].
    split; [by apply delivered_none|]. destruct k as [|k].
    - exists 0, st. rewrite Nat.add_0_r. split_and!; [lia|done|done|]. intros Ho. by specialize (Hret Ho).
    - exists 1, (process_entry orders0 st e). rewrite Nat.add_1_r.
      split_and!; [done|done| |done]. rewrite Hk. simpl. by destruct k. }
  apply traces_bind_inv in H as [[H ->]|([]&l1&l2&->&H1&H2)].
  - destruct (Hmsg _ _ H) as [Hd (k&st'&Hk&Hat&Hst&_)]. exists k, st'.
    rewrite !store_after_skip by done. change (delivered _) with (S (delivered l')). rewrite Hd.
    split_and!; [done|done|lia|lia|done].
  - destruct (Hmsg _ _ H1) as [Hd (k&st'&Hk&Hat&Hst&Hret)]. destruct (Hret eq_refl) as [Hid ->].
    apply traces_ret_inv in H2 as [-> Ho]. rewrite app_nil_r. exists 1, st'.
    rewrite !store_after_skip by done. change (delivered _) with (S (delivered l1)). rewrite Hd.
    split_and!; [done|done|lia|lia|]. intros lastID ->. destruct Ho as [?|[= ->]]; [done|]. done.
Qed.

(** ** Property *)

(** C10: the subscriber's goroutine refines the loop.  Against any environment,
    at any moment, what the unbounded loop of the goroutine has done to its
    store is what some list of iterations of [Subscriber.Start] does, its reads
    had the arguments those iterations have (so each read asks for what comes
    after the last entry applied) and the same answers, the last one up to
    messages still to be processed; and it returns only where they return. *)
Theorem subscriber_goroutine_refines os sub ps l o :
  traces (subscriber_tree os sub) l o →
  ∃ its, store_after (ps_store sub) l ps = ss_store (loop_sub (Subscriber.Start its ps)) ∧
    Forall2 processed (loop_reads (ps_streamKey sub) its (mkSub "0" ps)) (omap xread l) ∧
    (o = Some tt → ∃ st, Subscriber.Start its ps = Returned st).
Proof.
  intros H%traces_iter_inv. unfold Subscriber.Start.
  assert (∃ its, simulates sub its (mkSub "0" ps) l ∧
    (o = Some tt → ∃ st, loop_run its (mkSub "0" ps) = Returned st)) as (its&[Hs Hr]&Ho); [|by exists its].
  change "0" with (ss_lastID (mkSub "0" ps)) in H at 1. revert H. generalize (mkSub "0" ps). intros st H.
  remember (ss_lastID st) as lastID eqn:Hid. revert st Hid.
  induction H as [i l H|i l r H|i j l l' o H _ IH]; intros st ->; apply pass_traces in H as (its&Hsim&Hout).
  - by exists its.
  - exists its. split; [done|]. intros _. done.
  - destruct Hout as (st'&Hrun&Hid). destruct (IH st' (eq_sym Hid)) as (its'&[Hs' Hr']&Ho').
    destruct Hsim as [Hs Hr]. exists (its ++ its'). rewrite (loop_run_app _ _ _ _ Hrun). split; [|done].
    split.
    + rewrite store_after_app, (loop_run_app _ _ _ _ Hrun), <-Hs'. f_equal. by rewrite Hs, Hrun.
    + rewrite (loop_reads_app _ _ _ _ _ Hrun), omap_app. by apply Forall2_app.
Qed.

(** C11: the subscriber's goroutine follows the stream.  Against a Redis that
    answers each read from the append-only [log] as it stood then, at any
    moment of its unbounded run, whatever timeouts, errors and schedules, the
    calls it has made on its store leave exactly the policies that the first
    [n] entries denote, where [n] entries have been delivered, or one more
    whose call is still to be made. *)
Theorem subscriber_goroutine_follows os sub log l o :
  stream_ids_ok log → traces (subscriber_tree os sub) l o → Forall (redis_obs log) l →
  ∃ n, n ≤ length log ∧ n ≤ delivered l ≤ n + 1 ∧
    represents (store_after (ps_store sub) l NewPolicyStore) (stream_policies (take n log)).
Proof.
  intros Hok H%traces_iter_inv Hredis.
  assert (Hgen : ∀ id n st, passes (subscriber_pass os sub) id l o → at_position log n st → ss_lastID st = id →
    ∃ k st', at_position log (n + k) st' ∧ store_after (ps_store sub) l (ss_store st) = ss_store st' ∧
      k ≤ delivered l ≤ k + 1).
  2:{ destruct (Hgen _ 0 _ H (at_position_start log) eq_refl) as (k&st'&(Hk&_&Hrep)&Hst&Hd).
      simpl in *. exists k. by rewrite Hst. }
  clear H. intros id n st H. revert n st Hredis.
  induction H as [id l H|id l r H|id id' l l' o H _ IH]; intros n st Hredis Hpos Hid.
  - rewrite <-Hid in H. destruct (pass_position _ _ _ _ _ _ _ Hok Hpos H Hredis) as (k&st'&?&?&?&_). by exists k, st'.
  - rewrite <-Hid in H. destruct (pass_position _ _ _ _ _ _ _ Hok Hpos H Hredis) as (k&st'&?&?&?&_). by exists k, st'.
  - apply Forall_app in Hredis as [Hr1 Hr2]. rewrite <-Hid in H.
    destruct (pass_position _ _ _ _ _ _ _ Hok Hpos H Hr1) as (k&st1&Hat&Hst&_&Hnext).
    destruct (Hnext _ eq_refl) as [Hid1 Hk].
    destruct (IH _ _ Hr2 Hat Hid1) as (k'&st2&Hat2&Hst2&Hd2).
    exists (k + k'), st2. rewrite Nat.add_assoc, store_after_app, Hst, delivered_app, <-Hk.
    split_and!; [done|done|lia|lia].
Qed.

End WithRegexp.

(** ** Witnesses *)

(** A Redis that holds the sample stream and fails every third read. *)
Definition sample_redis (tr : list (nat * obs goE)) (X : Type) (e : goE X) : option X :=
  match e in goE X return option X with
  | XRead args => Some (
      if length (omap xread tr.*2) mod 3 =? 1 then XErr "connection refused" else
      match unread sample_log (List.last args.1.1 "0") with
      | e :: _ => XStreams [[e]]
      | [] => XNil
      end)
  | CtxErr | DoneBefore _ => Some false
  | StoreCall _ _ => Some tt
  | _ => None
  end.

Definition sample_subscriber : itree goE unit := subscriber_tree (λ _, orders) (mkSubscriber StreamKey 0).

Definition subscriber_run :=
  play (spawned (λ _, orders)) exits sample_redis (repeat 0 17) [] [observe sample_subscriber].

Lemma subscriber_run_traces : traces sample_subscriber (of_thread 0 subscriber_run.1) None.
Proof.
  apply (exec_main_traces (spawned (λ _, orders)) exits _ _ subscriber_run.2).
  - apply play_exec, ex_start.
  - apply lookup_lt_is_Some_2, Nat.ltb_lt. vm_compute. reflexivity.
Qed.

Lemma subscriber_run_redis : Forall (redis_obs sample_log) (of_thread 0 subscriber_run.1).
Proof.
  assert (Forall (redis_obs sample_log) subscriber_run.1.*2) as H.
  { apply play_forall; [done| |constructor]. intros tr X e x Hx. destruct e; try done.
    simpl in Hx. injection Hx as <-. exists sample_log. split; [done|].
    destruct (_ =? 1); [exact I|].
    destruct (unread sample_log _) as [|e rest] eqn:Hun; [exact I|]. by exists e, rest. }
  by apply Forall_thread0.
Qed.

Lemma subscriber_goroutine_follows_witness :
  let l := of_thread 0 subscriber_run.1 in
  delivered l = 3 ∧ ∃ n, 2 ≤ n ≤ 3 ∧
    represents (store_after 0 l NewPolicyStore) (stream_policies (take n sample_log)).
Proof.
  intros l. assert (delivered l = 3) as Hd by (vm_compute; reflexivity). split; [exact Hd|].
  destruct (subscriber_goroutine_follows (λ _, orders) (mkSubscriber StreamKey 0) sample_log l None
    sample_ids_ok subscriber_run_traces subscriber_run_redis) as (n&_&Hn&Hrep).
  rewrite Hd in Hn. exists n. split; [lia|exact Hrep].
Defined.

Lemma subscriber_goroutine_refines_witness :
  let l := of_thread 0 subscriber_run.1 in
  length (omap xread l) = 4 ∧
  size (st_deny (store_after 0 l NewPolicyStore)) = 1 ∧
  ∃ its, store_after 0 l NewPolicyStore = ss_store (loop_sub (Subscriber.Start its NewPolicyStore)) ∧
    Forall2 processed (loop_reads StreamKey its (mkSub "0" NewPolicyStore)) (omap xread l).
Proof.
  intros l. split; [vm_compute; reflexivity|]. split; [vm_compute; reflexivity|].
  destruct (subscriber_goroutine_refines _ _ NewPolicyStore _ _ subscriber_run_traces) as (its&H1&H2&_).
  exists its. split; [exact H1|exact H2].
Defined.
