(* ===== verification/SeedProc.v ===== *)
(** The policy loader and the seeding loop of the processes: they do what
    [Seeding] computes. *)
From S2P Require Import Prelude GoText GoJson Policy Store StoreConc Subscriber Seeding Live Proc Programs ProgramLemmas.
From ITree Require Import ITree.
Open Scope string_scope.
Open Scope nat_scope.
Open Scope list_scope.

Section WithRegexp.
Context `{RE : RegexpLib} `{DEC : !PolicyDecoder} `{UNI : UnicodeLib}.

(** ** The policy loader and the seeding loop *)

(** The policy files of a directory, as [Seeding] loads them. *)
Definition machine_files (mc : machine) (sort : IdSorter) (dir : string) : list policyFile :=
  Seeding.loadPolicyFiles sort (mc_ReadDir mc dir) (mc_ReadFile mc dir).

(** A seeding event of the fuelled model as a call and its answer. *)
Definition event_obs (ev : seed_event) : obs goE :=
  match ev with
  | SeedPublish f err => Answered (XAdd (publish_args StreamKey ActionUpsert (pf_id f) (pf_json f))) err
  | SeedSleep d => Answered (Sleep d) tt
  end.

Lemma load_entries_returns mc dir entries out l files :
  traces (load_entries dir entries out) l (Some files) → Forall (fs_answer mc) l →
  files = out ++ omap (load_entry (mc_ReadFile mc dir)) entries.
Proof.
  revert out l. induction entries as [|e entries IH]; intros out l H Hfs; simpl in H |- *.
  { apply traces_ret_inv in H as [-> [?|[= ->]]]; [done|]. by rewrite app_nil_r. }
  unfold load_entry at 1. destruct (de_IsDir e || negb (HasSuffix (de_name e) ".json")); [by eapply IH|].
  apply traces_trigger_inv in H as [[_ ?]|[[_ ?]|(data&l'&->&H)]]; [done..|].
  apply Forall_cons in Hfs as [Hd Hfs]. simpl in Hd. rewrite <-Hd.
  destruct data as [data|]; [|by eapply IH].
  destruct (Unmarshal "" decode_meta data) as [id|]; [|by eapply IH].
  destruct (String.eqb id ""); [by eapply IH|].
  rewrite (IH _ _ H Hfs). by rewrite <-app_assoc.
Qed.

(** The loader of the processes computes [Seeding.loadPolicyFiles]. *)
Lemma loadPolicyFiles_returns mc sort dir l files :
  traces (loadPolicyFiles sort dir) l (Some files) → Forall (fs_answer mc) l →
  files = machine_files mc sort dir.
Proof.
  intros H Hfs.
  apply traces_trigger_inv in H as [[_ ?]|[[_ ?]|(entries&l'&->&H)]]; [done..|].
  apply Forall_cons in Hfs as [Hd Hfs]. simpl in Hd. unfold machine_files. rewrite <-Hd.
  destruct entries as [entries|]; simpl.
  - apply traces_bind_inv in H as [[_ ?]|(out&l1&l2&->&H1&H2)]; [done|].
    apply traces_ret_inv in H2 as [-> [?|[= ->]]]; [done|].
    rewrite app_nil_r in Hfs. by rewrite (load_entries_returns _ _ _ _ _ _ H1 Hfs).
  - by apply traces_ret_inv in H as [-> [?|[= ->]]].
Qed.

(** An environment that answers the [XAdd] calls from a list. *)
Definition answer_nth (answers : list (option string)) (n : nat) (_ : XAddArgs) : option string :=
  default None (answers !! n).

Lemma publish_pass_returns files pre post l failed :
  traces (publish_pass files) l (Some failed) →
  ∃ evs, l = event_obs <$> evs ∧
    publish_files (answer_nth (pre ++ omap xadd_answer l ++ post)) files (length pre) =
      (failed, length (pre ++ omap xadd_answer l), evs).
Proof.
  revert pre l. induction files as [|f files IH]; intros pre l H; simpl in H.
  { apply traces_ret_inv in H as [-> [?|[= ->]]]; [done|]. exists []. split; [done|].
    simpl. by rewrite app_nil_r. }
  apply traces_trigger_inv in H as [[_ ?]|[[_ ?]|(err&l'&->&H)]]; [done..|].
  set (evf := SeedPublish f err).
  assert (Hhd : ∀ l', answer_nth (pre ++ omap xadd_answer (event_obs evf :: l') ++ post) (length pre)
    (publish_args StreamKey ActionUpsert (pf_id f) (pf_json f)) = err).
  { intros l0. change (omap xadd_answer (event_obs evf :: l0) ++ post)
      with (err :: (omap xadd_answer l0 ++ post)). unfold answer_nth. by rewrite list_lookup_middle. }
  change (Answered (XAdd _) err) with (event_obs evf).
  cbn [publish_files]. unfold Publish. rewrite Hhd. destruct err as [e|].
  - apply traces_ret_inv in H as [-> [?|[= ->]]]; [done|]. exists [evf]. split; [done|].
    simpl. rewrite length_app. simpl. by rewrite Nat.add_1_r.
  - destruct (IH (pre ++ [None]) l' H) as (evs&->&Hp). exists (evf :: evs). split; [done|].
    change (omap xadd_answer (event_obs evf :: (event_obs <$> evs)))
      with (None :: omap xadd_answer (event_obs <$> evs)).
    rewrite <-!app_assoc, length_app, Nat.add_1_r in Hp.
    rewrite <-app_comm_cons. cbn [app] in Hp. by rewrite Hp.
Qed.

Lemma publish_files_traces XAdd files calls failed calls' evs :
  publish_files XAdd files calls = (failed, calls', evs) →
  traces (publish_pass files) (event_obs <$> evs) (Some failed).
Proof.
  revert calls calls' evs. induction files as [|f files IH]; intros calls calls' evs H; simpl in H |- *.
  { injection H as <- <- <-. constructor. }
  unfold Publish in H. destruct (XAdd calls _) as [err|].
  - injection H as <- <- <-. apply traces_trigger. constructor.
  - destruct (publish_files XAdd files (S calls)) as [[failed' calls2] evs2] eqn:Hp.
    injection H as <- <- <-. apply traces_trigger. by eapply IH.
Qed.

Lemma seed_iter_returns files pre b l :
  passes (seed_pass files) b l (Some tt) →
  ∃ evs attempts, l = event_obs <$> evs ∧
    seed_loop (answer_nth (pre ++ omap xadd_answer l)) files attempts (length pre) b = (evs, true).
Proof.
  intros H. remember (Some tt) as o eqn:Ho. revert pre.
  induction H as [b l H|b l r H|b b' l l' o H Hrest IH]; intros pre; [done|..].
  - apply traces_bind_inv in H as [[_ ?]|(failed&l1&l2&->&H1&H2)]; [done|]. destruct failed.
    + apply traces_trigger_inv in H2 as [[_ ?]|[[_ ?]|(x&l'&->&H2)]]; [done..|].
      apply traces_ret_inv in H2 as [_ [?|?]]; done.
    + apply traces_ret_inv in H2 as [-> _]. rewrite app_nil_r.
      destruct (publish_pass_returns _ pre [] _ _ H1) as (evs&->&Hp). rewrite app_nil_r in Hp.
      exists evs, 1. split; [done|]. simpl. by rewrite Hp.
  - apply traces_bind_inv in H as [[_ ?]|(failed&l1&l2&->&H1&H2)]; [done|]. destruct failed.
    2:{ apply traces_ret_inv in H2 as [_ [?|?]]; done. }
    apply traces_trigger_inv in H2 as [[_ ?]|[[_ ?]|(x&l2'&->&H2)]]; [done..|]. destruct x.
    apply traces_ret_inv in H2 as [-> [?|[= ->]]]; [done|]. rewrite <-app_assoc.
    destruct (publish_pass_returns _ pre (omap xadd_answer l') _ _ H1) as (evs&->&Hp).
    destruct (IH Ho (pre ++ omap xadd_answer (event_obs <$> evs))) as (evs'&attempts&->&Hs).
    exists (evs ++ SeedSleep b :: evs'), (S attempts). rewrite fmap_app. split; [done|].
    rewrite omap_app.
    change (omap xadd_answer ([Answered (Sleep b) tt] ++ (event_obs <$> evs')))
      with (omap xadd_answer (event_obs <$> evs')).
    rewrite <-app_assoc in Hs. cbn [seed_loop]. rewrite Hp.
    unfold next_backoff. by rewrite Hs.
Qed.

Lemma seed_loop_passes XAdd files attempts calls b evs :
  seed_loop XAdd files attempts calls b = (evs, true) →
  passes (seed_pass files) b (event_obs <$> evs) (Some tt).
Proof.
  revert calls b evs. induction attempts as [|attempts IH]; intros calls b evs H; simpl in H; [done|].
  destruct (publish_files XAdd files calls) as [[failed calls'] evs1] eqn:Hp.
  apply publish_files_traces in Hp. destruct failed.
  - destruct (seed_loop XAdd files attempts calls' (next_backoff b)) as [evs2 ret] eqn:Hs.
    injection H as <- ->. rewrite fmap_app. csimpl. change (event_obs (SeedSleep b)) with (Answered (Sleep b) tt).
    rewrite cons_middle, app_assoc. eapply ps_next; [|by eapply IH].
    eapply traces_bind; [exact Hp|]. apply traces_trigger. constructor.
  - injection H as <-. apply ps_done. rewrite <-(app_nil_r (_ <$> _)).
    eapply traces_bind; [exact Hp|]. constructor.
Qed.

(** The retry loop of the ext_authz adapter, an unbounded loop against any
    environment, does exactly what the loop of the HTTP enforcement point does
    in the fuelled model: the returning runs of the two are the same. *)
Theorem seed_copies_agree files b l :
  traces (ITree.iter (seed_pass files) b) l (Some tt) ↔
  ∃ XAdd attempts evs, seed_loop XAdd files attempts 0 b = (evs, true) ∧ l = event_obs <$> evs.
Proof.
  split.
  - intros H%traces_iter_inv. destruct (seed_iter_returns _ [] _ _ H) as (evs&attempts&->&Hs).
    eexists _, attempts, evs. split; [exact Hs|done].
  - intros (XAdd&attempts&evs&Hs&->). apply traces_iter. by eapply seed_loop_passes.
Qed.

(** What [seedPolicies] has done when it returns: it read the directory, then
    published as the fuelled model does. *)
Lemma seedPolicies_returns mc sort dir l :
  traces (seedPolicies sort dir) l (Some tt) → Forall (fs_answer mc) l →
  ∃ l1 XAdd attempts evs, l = l1 ++ (event_obs <$> evs) ∧
    traces (loadPolicyFiles sort dir) l1 (Some (machine_files mc sort dir)) ∧
    Seeding.seedPolicies XAdd (machine_files mc sort dir) attempts = (evs, true).
Proof.
  intros H Hfs. apply traces_bind_inv in H as [[_ ?]|(files&l1&l2&->&H1&H2)]; [done|].
  apply Forall_app in Hfs as [Hfs1 _].
  pose proof (loadPolicyFiles_returns _ _ _ _ _ H1 Hfs1) as Hfiles. subst files.
  set (files := machine_files mc sort dir) in *.
  unfold Seeding.seedPolicies. destruct (length files =? 0).
  - apply traces_ret_inv in H2 as [-> _]. by exists l1, (λ _ _, None), 0, [].
  - apply traces_iter_inv in H2. destruct (seed_iter_returns _ [] _ _ H2) as (evs&attempts&->&Hs).
    by eexists l1, _, attempts, evs.
Qed.

(** ** Lemmas: the events of the seeding *)

Definition no_xadd (l : list (obs goE)) : Prop := Forall (λ ob, xadd_answer ob = None) l.

Lemma no_xadd_emits {A} (t : itree goE A) l o :
  emits (λ X e, match e with XAdd _ => False | _ => True end) t → traces t l o → no_xadd l.
Proof.
  intros He H. eapply Forall_impl; [by eapply He|]. intros [X e|X e x]; [done|]. by destruct e.
Qed.

Lemma load_entries_emits (P : ∀ X, goE X → Prop) dir entries out :
  (∀ name, P _ (ReadFile dir name)) → emits P (load_entries dir entries out).
Proof.
  intros HP. revert out. induction entries as [|e entries IH]; intros out; simpl; [apply emits_ret|].
  destruct (_ || _); [done|]. apply emits_bind; [by apply emits_trigger|].
  intros [data|]; [|done]. destruct (Unmarshal _ _ _) as [id|]; [|done]. by destruct (String.eqb id "").
Qed.

Lemma loadPolicyFiles_emits (P : ∀ X, goE X → Prop) sort dir :
  P _ (ReadDir dir) → (∀ name, P _ (ReadFile dir name)) → emits P (loadPolicyFiles sort dir).
Proof.
  intros Hd HP. apply emits_bind; [by apply emits_trigger|]. intros [entries|]; [|apply emits_ret].
  apply emits_bind; [by apply load_entries_emits|]. intros. apply emits_ret.
Qed.

Lemma publish_pass_emits (P : ∀ X, goE X → Prop) files :
  (∀ args, P _ (XAdd args)) → emits P (publish_pass files).
Proof.
  intros HP. induction files as [|f files IH]; simpl; [apply emits_ret|].
  apply emits_bind; [by apply emits_trigger|]. intros [err|]; [apply emits_ret|done].
Qed.

Lemma seedPolicies_emits sort dir : emits (λ X e, is_serving e = false) (seedPolicies sort dir).
Proof.
  apply emits_bind; [by apply loadPolicyFiles_emits|]. intros files.
  destruct (length files =? 0); [apply emits_ret|]. apply emits_iter. intros b.
  apply emits_bind; [by apply publish_pass_emits|]. intros [|]; [|apply emits_ret].
  apply emits_bind; [by apply emits_trigger|]. intros. apply emits_ret.
Qed.

Lemma seeded_then {A Y} mc sort dir (k : unit → itree goE A) (e : goE Y) l :
  traces (seedPolicies sort dir ≫= k) (l ++ [Called e]) None → is_serving e = true →
  Forall (fs_answer mc) l →
  ∃ l1 evs l2, l = l1 ++ (event_obs <$> evs) ++ l2 ∧ no_xadd l1 ∧
    seeded (machine_files mc sort dir) evs ∧ traces (k tt) (l2 ++ [Called e]) None.
Proof.
  intros H He Hfs. apply called_bind in H as ([]&l1&l2&->&H1&H2); [|apply seedPolicies_emits|done].
  apply Forall_app in Hfs as [Hfs _].
  destruct (seedPolicies_returns _ _ _ _ H1 Hfs) as (l3&XAdd&attempts&evs&->&H3&Hs).
  exists l3, evs, l2. rewrite <-app_assoc. split_and!; [done| |by eapply seedPolicies_seeded|done].
  eapply no_xadd_emits; [|exact H3]. by apply loadPolicyFiles_emits.
Qed.

(** The package variables on a machine. *)

End WithRegexp.
