(* ===== verification/EngineProc.v ===== *)
(** The process of cmd/bouncer-engine, whatever its environment answers and
    however its goroutines interleave. *)
From S2P Require Import Prelude GoText GoJson AuthzPb Policy Store StoreConc Subscriber Seeding PolicyJson LiteralRegexp Live AuditQueue Metrics Proc Programs ProgramLemmas.
From ITree Require Import ITree.
Open Scope string_scope.
Open Scope nat_scope.
Open Scope list_scope.

Section WithRegexp.
Context `{RE : RegexpLib} `{DEC : !PolicyDecoder} `{UNI : UnicodeLib}.

(** The events of the engine process: it starts two goroutines, and nothing in
    it shuts the gRPC server down. *)
Definition engine_event (X : Type) (e : goE X) : Prop :=
  match e with GracefulStop | Go AwaitShutdown => False | _ => True end.

(** Goroutines run no gRPC server. *)
Definition goroutine_event (X : Type) (e : goE X) : Prop :=
  match e with
  | CtxErr | XRead _ | DoneBefore _ | StoreCall _ _ | ListenAndServe _ MetricsMux => True
  | SignalReceived | GracefulStop => True
  | _ => False
  end.

Lemma goroutine_emits os g : emits goroutine_event (goroutine_tree os g).
Proof.
  destruct g as [sub|addr|]; cbn [goroutine_tree]; solve_emits.
Qed.

Lemma subscriber_emits os sub : emits engine_event (subscriber_tree os sub).
Proof. solve_emits. Qed.

Lemma engine_main_emits : emits engine_event engine_main.
Proof. solve_emits. Qed.

Lemma engine_spawned os X (e : goE X) t :
  engine_event X e → t ∈ spawned os X e → emits engine_event t.
Proof.
  destruct e; simpl; try (intros _ ?%elem_of_nil; done).
  destruct g; intros He Ht%list_elem_of_singleton; subst; [apply subscriber_emits|solve_emits|done].
Qed.

(** An answer that [Serve] gives while nothing shuts the server down: an
    error.  (It returns nil after [Stop] or [GracefulStop].) *)
Definition serve_fails (ob : obs goE) : Prop :=
  match ob with
  | Called _ => True
  | Answered e x =>
    match e in goE X return X → Prop with
    | Serve _ _ => λ err, is_Some err
    | _ => λ _, True
    end x
  end.

(** [Serve] of the gRPC library: nil only after a shutdown was asked for. *)
Definition grpc_documented (tr : list (nat * obs goE)) : Prop :=
  ∀ tr1 i ob tr2, tr = tr1 ++ (i, ob) :: tr2 → serve_fails ob ∨ ∃ j, (j, Answered GracefulStop tt) ∈ tr1.

Definition cleanup (ob : obs goE) : bool :=
  match ob with
  | Called e | Answered e _ => match e with StopAudit _ | CloseRedis | CloseConn => true | _ => false end
  end.

(** The steps of [engine_main] up to its last call. *)
Definition engine_setup (store audit : ref) (v : string) : list (obs goE) :=
  [Answered NewStore store; Answered (MetricsRegister store) false; Answered (Listen ":50051") None;
   Answered (NewAudit (Z.to_nat 10000)) audit; Answered (StartAudit audit 5) tt;
   Answered (Getenv "REDIS_ADDR") v; Answered (NewRedisClient (AddrFromEnv (λ _, v))) tt;
   Answered (Go (SubscriberStart (NewPolicyUpdateSubscriber StreamKey store))) tt;
   Answered (Go (MetricsEndpoint ":9090")) tt].

Definition engine_server (store audit : ref) : grpc_server :=
  mkGrpcServer true (AuthorizationService (NewAuthzServer (New store) audit)).

(** While nothing shuts a server down: programs that do not return, and
    programs that do no cleanup. *)
Definition never_returns {A} (t : itree goE A) : Prop :=
  ∀ l a, traces t l (Some a) → Forall serve_fails l → False.

Definition no_cleanup {A} (t : itree goE A) : Prop :=
  ∀ l o, traces t l o → Forall serve_fails l → Forall (λ ob, cleanup ob = false) l.

Lemma never_returns_bind {A B} (t : itree goE A) (k : A → itree goE B) :
  (∀ a, never_returns (k a)) → never_returns (t ≫= k).
Proof.
  intros Hk l b H Hs. apply traces_bind_inv in H as [[_ ?]|(a&l1&l2&->&_&H)]; [done|].
  apply Forall_app in Hs as [_ Hs]. by eapply Hk.
Qed.

Lemma never_returns_deferring {A} d (rest : itree goE A) :
  never_returns rest → never_returns (deferring d rest).
Proof.
  intros Hr l a H Hs. apply traces_deferring_inv in H as [[_ ?]|(b&l1&l2&->&H&_)]; [done|].
  apply Forall_app in Hs as [Hs _]. by eapply Hr.
Qed.

Lemma never_returns_exit {A} code : never_returns (exit (A := A) code).
Proof. intros l a H _. by apply traces_exit_inv in H as [? _]. Qed.

Lemma never_returns_panic {A} : never_returns (panic (A := A)).
Proof. intros l a H _. by apply traces_panic_inv in H as [? _]. Qed.

(** A server that is never shut down, then [os.Exit] on its error. *)
Lemma never_returns_serve srv addr :
  never_returns (err ← do (Serve srv addr); if err is Some _ then exit 1 else mret tt).
Proof.
  intros l a H Hs. trace_step H. apply Forall_cons in Hs as [[err ->] Hs].
  by eapply never_returns_exit.
Qed.

Lemma no_cleanup_emits {A} (t : itree goE A) :
  emits (λ X e, cleanup (Called e) = false) t → no_cleanup t.
Proof. intros He l o H _. eapply Forall_impl; [by eapply He|]. by intros []. Qed.

Lemma no_cleanup_bind {A B} (t : itree goE A) (k : A → itree goE B) :
  no_cleanup t → (∀ a, no_cleanup (k a)) → no_cleanup (t ≫= k).
Proof.
  intros Ht Hk l o H Hs. apply traces_bind_inv in H as [[H _]|(a&l1&l2&->&H1&H2)]; [by eapply Ht|].
  apply Forall_app in Hs as [Hs1 Hs2]. apply Forall_app. split; [by eapply Ht|by eapply Hk].
Qed.

(** Deferred cleanup is not reached when what it waits for does not return. *)
Lemma no_cleanup_deferring {A} d (rest : itree goE A) :
  never_returns rest → no_cleanup rest → no_cleanup (deferring d rest).
Proof.
  intros Hr Hc l o H Hs. apply traces_deferring_inv in H as [[H _]|(b&l1&l2&->&H&_)]; [by eapply Hc|].
  apply Forall_app in Hs as [Hs _]. by destruct (Hr _ _ H Hs).
Qed.

Ltac solve_stuck :=
  repeat lazymatch goal with
    | |- never_returns (err ← do (Serve _ _); _) => apply never_returns_serve
    | |- never_returns (exit _) => apply never_returns_exit
    | |- never_returns panic => apply never_returns_panic
    | |- never_returns (deferring _ _) => apply never_returns_deferring
    | |- never_returns (if ?b then _ else _) => destruct b
    | |- never_returns (match ?x with _ => _ end) => destruct x
    | |- never_returns (_ ≫= _) => apply never_returns_bind; intros ?
    | |- never_returns _ => cbv zeta
    | |- no_cleanup (deferring _ _) => apply no_cleanup_deferring
    | |- no_cleanup (do _ ≫= _) =>
        apply no_cleanup_bind; [apply no_cleanup_emits, emits_trigger; reflexivity|intros ?]
    | |- no_cleanup (if ?b then _ else _) => destruct b
    | |- no_cleanup (match ?x with _ => _ end) => destruct x
    | |- no_cleanup (mret _) => apply no_cleanup_emits, emits_ret
    | |- no_cleanup (exit _) => unfold exit
    | |- no_cleanup panic => unfold panic
    | |- no_cleanup _ => cbv zeta
    end.

Lemma grpc_documented_intro tr : Forall serve_fails tr.*2 → grpc_documented tr.
Proof.
  intros H tr1 i ob tr2 ->. left. rewrite fmap_app in H. apply Forall_app in H as [_ H].
  by apply Forall_cons in H as [H _].
Qed.

Lemma engine_main_stuck : never_returns engine_main.
Proof. unfold engine_main. solve_stuck. Qed.

Lemma engine_main_clean : no_cleanup engine_main.
Proof. unfold engine_main. solve_stuck. Qed.

Lemma goroutine_clean os g : no_cleanup (goroutine_tree os g).
Proof. apply no_cleanup_emits. destruct g; cbn [goroutine_tree]; solve_emits. Qed.

(** The only exit code of the programs is 1. *)
Definition exit_1 (X : Type) (e : goE X) : Prop := match e with Exit code => code = 1%Z | _ => True end.

Lemma goroutine_exit_1 os X (e : goE X) t : t ∈ spawned os X e → emits exit_1 t.
Proof.
  destruct e; simpl; try (intros ?%elem_of_nil; done). intros ->%list_elem_of_singleton.
  destruct g; cbn [goroutine_tree]; solve_emits.
Qed.

(** In the engine process nothing shuts a server down, so [Serve] only fails. *)
Lemma engine_serve_fails os tr p :
  exec (spawned os) exits engine_main tr p → grpc_documented tr → ∀ i ob, (i, ob) ∈ tr → serve_fails ob.
Proof.
  intros Hex Hdoc i ob (tr1&tr2&->)%list_elem_of_split.
  destruct (Hdoc tr1 i ob tr2 eq_refl) as [?|[j Hj]]; [done|].
  pose proof (exec_emits _ _ engine_event _ _ _ Hex engine_main_emits (λ X e t, engine_spawned os X e t)
    j (Answered GracefulStop tt)) as H.
  destruct H; set_solver.
Qed.

Lemma engine_clean os tr p :
  exec (spawned os) exits engine_main tr p → grpc_documented tr → ∀ i ob, (i, ob) ∈ tr → cleanup ob = false.
Proof.
  intros Hex Hdoc i ob Hin. pose proof (engine_serve_fails os tr p Hex Hdoc) as Hs.
  destruct (exec_threads _ _ _ _ _ Hex) as (_&_&Hev). destruct (Hev _ _ Hin) as (t&Ho&Ht).
  assert (no_cleanup t) as Hc.
  { destruct Ho as [[_ ->]|(_&j&X&e&x&_&Hsp)]; [apply engine_main_clean|].
    destruct e; simpl in Hsp; try (by apply elem_of_nil in Hsp).
    apply list_elem_of_singleton in Hsp as ->. apply goroutine_clean. }
  specialize (Hc _ _ Ht (Forall_of_thread _ _ _ Hs)). rewrite Forall_forall in Hc. apply Hc.
  apply list_elem_of_fmap. exists (i, ob). split; [done|]. by apply list_elem_of_filter.
Qed.

(** C24: the engine never cleans up.  In every execution of the
    cmd/bouncer-engine process, for every schedule of its goroutines and all
    answers of its environment, no deferred call runs: the audit logger is
    never stopped, so records it still buffers at the end are not written, and
    the Redis client is never closed.  [main] does not return; the process
    ends only by [os.Exit(1)] or a panic of [metrics.Register]. *)
Theorem engine_never_cleans_up os tr p :
  exec (spawned os) exits engine_main tr p → grpc_documented tr →
  (∀ i ob, (i, ob) ∈ tr → cleanup ob = false) ∧
  p !! 0 ≠ Some (RetF tt) ∧
  (p = [] → ∃ tr' i, tr = tr' ++ [(i, Called (Exit 1))] ∨ tr = tr' ++ [(i, Called Panic)]).
Proof.
  intros Hex Hdoc. pose proof (engine_serve_fails os tr p Hex Hdoc) as Hs.
  destruct (exec_threads _ _ _ _ _ Hex) as (_&Hp&_).
  split_and!; [by eapply engine_clean|..].
  - intros H0. destruct (Hp _ _ H0) as (t&[[_ ->]|[? _]]&Ht); [|done].
    specialize (Ht [] (Some tt) (tr_ret tt)). rewrite app_nil_r in Ht.
    exact (engine_main_stuck _ _ Ht (Forall_of_thread _ _ _ Hs)).
  - intros ->. destruct (exec_gone _ _ _ _ Hex) as (tr'&i&X&e&->&He). exists tr', i.
    pose proof (exec_emits _ _ exit_1 _ _ _ Hex ltac:(solve_emits)
      (λ X e t _, goroutine_exit_1 os X e t) i (Called e) ltac:(set_solver)) as H1.
    destruct e; simpl in He, H1; try discriminate; [left|right]; by subst.
Qed.

(** [main] in the call of its gRPC server. *)
Lemma engine_main_serving Y (e : goE Y) l :
  traces engine_main (l ++ [Called e]) None → is_serving e = true →
  ∃ store audit v, l = engine_setup store audit v ∧
    serving (Called e) = Some (inl (engine_server store audit, ":50051")).
Proof.
  intros H He. unfold engine_main in H.
  assert (Hno : ∀ X (e' : goE X), is_serving e' = false → Called e = Called e' → False).
  { intros X e' He' Heq. unfold is_serving in *. by rewrite Heq, He' in He. }
  apply called_trigger_inv in H as [[_ H]|(store&l1&->&H)]; [by eapply Hno in H|].
  apply called_trigger_inv in H as [[_ H]|([]&l2&->&H)]; [by eapply Hno in H|..].
  { apply called_trigger_inv in H as [[_ H]|(x&_)]; [by eapply Hno in H|destruct x]. }
  apply called_trigger_inv in H as [[_ H]|([err|]&l3&->&H)]; [by eapply Hno in H|..].
  { apply called_exit in H. congruence. }
  apply called_trigger_inv in H as [[_ H]|(audit&l4&->&H)]; [by eapply Hno in H|].
  apply called_trigger_inv in H as [[_ H]|([]&l5&->&H)]; [by eapply Hno in H|].
  apply called_deferring in H; [|by apply emits_trigger|done].
  apply called_trigger_inv in H as [[_ H]|(v&l6&->&H)]; [by eapply Hno in H|].
  apply called_trigger_inv in H as [[_ H]|([]&l7&->&H)]; [by eapply Hno in H|].
  apply called_deferring in H; [|by apply emits_trigger|done].
  apply called_trigger_inv in H as [[_ H]|([]&l8&->&H)]; [by eapply Hno in H|].
  apply called_trigger_inv in H as [[_ H]|([]&l9&->&H)]; [by eapply Hno in H|].
  apply called_trigger_inv in H as [[-> H]|([err|]&l10&->&H)].
  - exists store, audit, v. by rewrite H.
  - apply called_exit in H. congruence.
  - apply traces_ret_inv in H as [H _]. by destruct l10.
Qed.

(** The calls on the audit logger [a] that the wiring makes. *)
Definition lifecycle (a : ref) (ob : obs goE) : option aevent :=
  match ob with
  | Called _ => None
  | Answered e _ =>
    match e with
    | StartAudit a' n => if decide (a' = a) then Some (EStart n) else None
    | StopAudit a' => if decide (a' = a) then Some EClose else None
    | _ => None
    end
  end.

Definition is_lifecycle (ev : aevent) : bool :=
  match ev with EStart _ | EClose => true | _ => false end.

(** Only [main] runs the gRPC server, and only after the whole setup. *)
Lemma engine_serving os tr p i Y (e : goE Y) srv addr :
  exec (spawned os) exits engine_main tr p → in_call p i e → serving (Called e) = Some (inl (srv, addr)) →
  i = 0 ∧ addr = ":50051" ∧ ∃ store audit v,
    of_thread 0 tr = engine_setup store audit v ∧ srv = engine_server store audit.
Proof.
  intros Hex Hin Hsrv. destruct (in_call_traces _ _ _ _ _ _ _ Hex Hin) as (t&Ho&Ht).
  assert (Hi : i = 0 ∧ t = engine_main).
  { destruct Ho as [?|(_&j&X&e'&x&_&Hsp)]; [done|exfalso].
    destruct e'; simpl in Hsp; try (by apply elem_of_nil in Hsp).
    apply list_elem_of_singleton in Hsp as ->.
    apply goroutine_emits, Forall_app in Ht as [_ Ht]. apply Forall_cons in Ht as [Ht _].
    destruct e; simpl in Ht, Hsrv; done. }
  destruct Hi as [-> ->].
  destruct (engine_main_serving _ _ _ Ht) as (store&audit&v&Hl&Hs).
  { unfold is_serving. rewrite Hsrv. done. }
  rewrite Hs in Hsrv. injection Hsrv as <- <-. split_and!; [done|done|]. eauto.
Qed.

(** C13: the wiring of the engine.  Whenever the process is in [Serve], it is
    [main] serving port 50051 with the metrics interceptor installed, the
    metrics registered, the listener bound and the audit workers running; the
    store that the served engine reads is the one registered for the gauge and
    the one the running subscriber writes; and the metrics endpoint is up. *)
Theorem engine_wiring os tr p i Y (e : goE Y) srv addr :
  exec (spawned os) exits engine_main tr p → in_call p i e → serving (Called e) = Some (inl (srv, addr)) →
  i = 0 ∧ addr = ":50051" ∧ gs_interceptor srv = true ∧ ∃ store audit,
    gs_service srv = AuthorizationService (mkAuthzServer (mkEngine store) audit) ∧
    Forall (λ ob, (0, ob) ∈ tr)
      [Answered NewStore store; Answered (MetricsRegister store) false; Answered (Listen ":50051") None;
       Answered (NewAudit (Z.to_nat 10000)) audit; Answered (StartAudit audit 5) tt;
       Answered (Go (SubscriberStart (mkSubscriber StreamKey store))) tt;
       Answered (Go (MetricsEndpoint ":9090")) tt].
Proof.
  intros Hex Hin Hsrv. destruct (engine_serving _ _ _ _ _ _ _ _ Hex Hin Hsrv) as (->&->&store&audit&v&Hl&->).
  split_and!; [done|done|done|]. exists store, audit. split; [done|].
  repeat constructor; apply of_thread_elem; rewrite Hl; unfold engine_setup; rewrite !elem_of_cons; tauto.
Qed.

(** C23: the engine answers every RPC.  While the process is in [Serve], with
    the audit logger in any state that the calls of this execution and its
    traffic can have left it in and the metrics as [Register] left them, any
    sequence of RPCs is answered without a panic, one answer each; the counters
    are then incremented once per allowed and once per denied response, and the
    latency of every response has been observed, in order. *)
Theorem engine_answers_rpcs `{PROM : PrometheusLib} os tr p i Y (e : goE Y) s addr evs l acc dr r m cs :
  exec (spawned os) exits engine_main tr p → grpc_documented tr → in_call p i e →
  serving (Called e) = Some (inl (mkGrpcServer true (AuthorizationService s), addr)) →
  arun evs (NewAuditLogger (Z.to_nat 10000), [], []) = Some (l, acc, dr) →
  filter (λ ev, is_lifecycle ev = true) evs = omap (lifecycle (as_audit s)) tr.*2 →
  (∀ store panicked, (0, Answered (MetricsRegister store) panicked) ∈ tr →
    Register (metrics_init r) = (panicked, m)) →
  ∃ rs l' m', serve_all cs l m = Some (rs, l', m') ∧ length rs = length cs ∧
    mt_ops m' = concat (decision_ops <$> decisions rs) ∧
    length (filter (λ op, is_inc_allow op = true) (mt_ops m')) =
      length (filter (λ p, a_Allowed p = true) (decisions rs)) ∧
    length (filter (λ op, is_inc_deny op = true) (mt_ops m')) =
      length (filter (λ p, a_Allowed p = false) (decisions rs)).
Proof.
  intros Hex Hdoc Hin Hsrv Hrun Hlc Hreg.
  destruct (engine_serving _ _ _ _ _ _ _ _ Hex Hin Hsrv) as (->&_&store&audit&v&Hl&Hs).
  assert (Hready : ready m ∧ mt_ops m = []).
  { apply Register_ready with r. apply (Hreg store). apply of_thread_elem. rewrite Hl.
    unfold engine_setup. rewrite !elem_of_cons. tauto. }
  destruct Hready as [Hready Hops].
  assert (Hopen : lg_closed l = false).
  { eapply arun_open; [exact Hrun| |done]. intros Hclose.
    assert (EClose ∈ filter (λ ev, is_lifecycle ev = true) evs) as Hf by (by apply list_elem_of_filter).
    rewrite Hlc in Hf. apply list_elem_of_omap in Hf as (ob&Hob&Heq).
    apply list_elem_of_fmap in Hob as ([j ob']&->&Hob).
    pose proof (engine_clean _ _ _ Hex Hdoc _ _ Hob) as Hc.
    destruct ob' as [|X e' x]; [done|]. destruct e'; simpl in *; try done. by case_decide. }
  pose proof (arun_inv _ _ _ _ _ _ _ (NewAuditLogger_inv _) Hrun) as Hinv.
  destruct (serve_all_defined cs l m acc Hinv Hopen Hready) as (rs&l'&m'&Hserve&_).
  destruct (serve_all_ops _ _ _ _ _ _ Hready Hserve) as [Ho Hlen]. rewrite Hops in Ho.
  exists rs, l', m'. split_and!; [done|done|done|..]; rewrite Ho; apply decision_ops_counts.
Qed.

End WithRegexp.

(** ** Witnesses *)

Definition bare_machine : machine := mkMachine (λ _, "") (λ _, Err "no such directory") (λ _ _, Err "no such file").

(** The setup of [main], while the subscriber polls and the metrics endpoint
    starts; then [Serve]. *)
Definition engine_schedule : list nat := repeat 0 8 ++ [1; 1; 1] ++ [0; 2] ++ [1].

Definition engine_run (serve : option (option string)) (sched : list nat) :=
  play (spawned (λ _, orders)) exits (world bare_machine (λ _, None) serve) sched [] [observe engine_main].

Lemma engine_run_exec serve sched :
  exec (spawned (λ _, orders)) exits engine_main (engine_run serve sched).1 (engine_run serve sched).2.
Proof. apply play_exec, ex_start. Qed.

Lemma engine_run_in_Serve :
  in_call (engine_run None engine_schedule).2 0 (Serve (engine_server 0 0) ":50051").
Proof.
  refine (pending_in_call _ 0 (existT _ (Serve (engine_server 0 0) ":50051")) _). vm_compute. reflexivity.
Qed.

Lemma engine_run_documented serve sched :
  serve ≠ Some None → grpc_documented (engine_run serve sched).1.
Proof.
  intros Hs. apply grpc_documented_intro. apply play_forall; [done| |constructor].
  intros tr X e x Hx. destruct e; try done. simpl in *. subst. by destruct x.
Qed.

(** [Serve] fails at once, and the process exits. *)
Lemma engine_never_cleans_up_witness :
  let run := engine_run (Some (Some "listener closed")) (engine_schedule ++ [0; 0]) in
  run.2 = [] ∧ length run.1 = 15 ∧
  (∀ i ob, (i, ob) ∈ run.1 → cleanup ob = false) ∧
  ∃ tr' i, run.1 = tr' ++ [(i, Called (Exit 1))] ∨ run.1 = tr' ++ [(i, Called Panic)].
Proof.
  intros run. assert (run.2 = []) as Hp by (vm_compute; reflexivity).
  split; [exact Hp|]. split; [vm_compute; reflexivity|].
  destruct (engine_never_cleans_up (λ _, orders) run.1 run.2) as (H1&_&H2).
  - apply engine_run_exec.
  - apply engine_run_documented. discriminate.
  - split; [exact H1|]. exact (H2 Hp).
Defined.

Lemma engine_wiring_witness :
  ∃ store audit, gs_service (engine_server 0 0) = AuthorizationService (mkAuthzServer (mkEngine store) audit) ∧
    (0, Answered (Go (SubscriberStart (mkSubscriber StreamKey store))) tt) ∈ (engine_run None engine_schedule).1.
Proof.
  destruct (engine_wiring (λ _, orders) _ _ 0 _ _ (engine_server 0 0) ":50051"
    (engine_run_exec None engine_schedule) engine_run_in_Serve eq_refl) as (_&_&_&store&audit&Hs&Hall).
  exists store, audit. split; [exact Hs|].
  rewrite Forall_forall in Hall. apply Hall. rewrite !elem_of_cons. tauto.
Defined.

Definition register_ok (ob : obs goE) : Prop :=
  match ob with
  | Called _ => True
  | Answered e x => match e in goE X return X → Prop with MetricsRegister _ => λ b, b = false | _ => λ _, True end x
  end.

Lemma engine_run_registered serve sched : Forall register_ok (engine_run serve sched).1.*2.
Proof.
  apply play_forall; [done| |constructor]. intros tr X e x Hx. destruct e; try done. by injection Hx as <-.
Qed.

Lemma engine_answers_rpcs_witness :
  ∃ rs l' m', serve_all [sample_rpc; sample_rpc] (AuditQueue.Start 5 (NewAuditLogger (Z.to_nat 10000)))
    ready_metrics = Some (rs, l', m') ∧ length rs = 2.
Proof.
  assert (Hregistered : ∀ store panicked, (0, Answered (MetricsRegister store) panicked) ∈
    (engine_run None engine_schedule).1 → Register (metrics_init false) = (panicked, ready_metrics)).
  { intros store panicked Hin. apply (list_elem_of_fmap_2 snd) in Hin.
    pose proof (proj1 (Forall_forall _ _) (engine_run_registered None engine_schedule) _ Hin) as Hb.
    simpl in Hb. subst panicked. reflexivity. }
  assert (Hlc : filter (λ ev, is_lifecycle ev = true) [EStart 5] =
    omap (lifecycle 0) (engine_run None engine_schedule).1.*2) by (vm_compute; reflexivity).
  destruct (engine_answers_rpcs (PROM := once_registry) (λ _, orders) _ _ 0 _ _ (mkAuthzServer (mkEngine 0) 0)
    ":50051" [EStart 5] _ [] [] false _ [sample_rpc; sample_rpc] (engine_run_exec None engine_schedule)
    (engine_run_documented None engine_schedule ltac:(discriminate)) engine_run_in_Serve eq_refl eq_refl Hlc
    Hregistered) as (rs&l'&m'&Hs&Hlen&_).
  exists rs, l', m'. split; [exact Hs|exact Hlen].
Defined.
