(* ===== verification/EngineLive.v ===== *)
(** The process of cmd/bouncer-engine on the concurrent store: its goroutines
    make exactly the store calls of a prefix of the stream, from one goroutine,
    so what an RPC grants is justified by the stream. *)
From ITree Require Import ITree.
From S2P Require Import Prelude GoText GoJson AuthzPb Policy LiteralRegexp Store StoreConc StoreConcProps Operators Engine AuditQueue Server Decision Subscriber PolicyJson Seeding Live Proc Programs ProgramLemmas SubscriberProc EngineProc.
Open Scope string_scope.
Open Scope nat_scope.
Open Scope list_scope.

Section WithRegexp.
Context `{RE : RegexpLib} `{DEC : !PolicyDecoder} `{UNI : UnicodeLib}.

(** ** The store calls of a process *)

(** The events of goroutine [i], with the call it is inside. *)
Definition thread_obs (tr : list (nat * obs goE)) (p : list (itree' goE unit)) (i : nat) : list (obs goE) :=
  of_thread i tr ++ match p !! i with Some (VisF e _) => [Called e] | _ => [] end.

(** The calls on the store [r] that goroutine [i] has started. *)
Definition store_calls (r : ref) (tr : list (nat * obs goE)) (p : list (itree' goE unit)) (i : nat) : list call :=
  omap (λ rc, if decide (rc.1 = r) then Some rc.2 else None) (omap started_call (thread_obs tr p i)).

(** ** Lemmas: the calls of the subscriber's goroutine *)

Lemma log_calls_app os l1 l2 : log_calls os (l1 ++ l2) = log_calls os l1 ++ log_calls os l2.
Proof. unfold log_calls. by rewrite fmap_app, concat_app. Qed.

Lemma log_calls_cons os e l : log_calls os (e :: l) = entry_calls (os e) (xm_Values e) ++ log_calls os l.
Proof. done. Qed.

Lemma message_started os r v l o :
  traces (for_each (entry_calls os v) (λ c, do (StoreCall r c))) l o →
  omap started_call l = [] ∧ o = None ∨ omap started_call l = (r,.) <$> entry_calls os v.
Proof.
  intros H. destruct (entry_calls_cases os v) as [Hc|[c Hc]]; rewrite Hc in H |- *; simpl in H.
  - apply traces_ret_inv in H as [-> _]. by right.
  - apply traces_trigger_inv in H as [[-> ->]|[[-> ->]|(x&l'&->&H)]]; [by left|by right|].
    apply traces_ret_inv in H as [-> _]. by right.
Qed.

(** The messages of a read: the calls of the first [n] have been started. *)
Lemma messages_started os r es l o :
  traces (for_each es (λ e, for_each (entry_calls (os e) (xm_Values e)) (λ c, do (StoreCall r c)))) l o →
  ∃ n, n ≤ length es ∧ omap started_call l = (r,.) <$> log_calls os (take n es) ∧
    (o = Some tt → n = length es).
Proof.
  revert l. induction es as [|e es IH]; intros l H; simpl in H.
  { apply traces_ret_inv in H as [-> _]. by exists 0. }
  apply traces_bind_inv in H as [[H ->]|([]&l1&l2&->&H1&H2)].
  - destruct (message_started _ _ _ _ _ H) as [[Hs _]|Hs]; [exists 0|exists 1]; simpl;
      (split_and!; [lia| |done]); [by rewrite Hs|].
    by rewrite Hs, take_0, log_calls_cons, app_nil_r.
  - destruct (message_started _ _ _ _ _ H1) as [[_ ?]|Hs]; [done|].
    destruct (IH l2 H2) as (n&Hn&Hl&Ho). exists (S n). simpl. split_and!; [lia| |intros ->; by rewrite Ho].
    by rewrite omap_app, Hs, Hl, log_calls_cons, fmap_app.
Qed.

(** A pass from position [n] of the log: the calls of the entry it delivered,
    if any, have been started or not. *)
Lemma pass_started os sub log n st l o :
  stream_ids_ok log → at_position log n st →
  traces (subscriber_pass os sub (ss_lastID st)) l o → Forall (redis_obs log) l →
  ∃ k, n + k ≤ length log ∧ k ≤ delivered l ∧
    omap started_call l = (ps_store sub,.) <$> log_calls os (take k (drop n log)) ∧
    ∀ lastID, o = Some (inl lastID) → ∃ st', at_position log (n + k) st' ∧ ss_lastID st' = lastID.
Proof.
  intros Hok Hpos H Hredis. pose proof (proj1 Hpos) as Hn.
  pose proof H as H0. apply pass_cases in H0 as [(Hs&Hd&Ho)|(streams&l'&->&H1)].
  { exists 0. rewrite Nat.add_0_r, take_0. split_and!; [done|lia|done|].
    intros lastID ->. exists st. split; [done|]. by rewrite (Ho _ eq_refl). }
  destruct (pass_position _ _ _ _ _ _ _ Hok Hpos H Hredis) as (k&st'&Hat&_&_&Hnext).
  apply Forall_cons in Hredis as [_ Hredis]. apply Forall_cons in Hredis as [Hans _].
  destruct Hans as (sofar&Hpre&e&rest&Hun&->). simpl in Hun.
  pose proof (answer_position _ _ _ _ _ _ Hok Hpos Hpre Hun) as He.
  assert (Hdrop : drop n log = e :: drop (S n) log) by (by apply drop_S).
  apply lookup_lt_Some in He. rewrite Hdrop.
  assert (Hmsg : ∀ l1 o1, traces (for_each (concat [[e]]) (λ entry,
      for_each (entry_calls (os entry) (xm_Values entry)) (λ c, do (StoreCall (ps_store sub) c)))) l1 o1 →
    ∃ k, k ≤ 1 ∧ omap started_call l1 = (ps_store sub,.) <$> log_calls os (take k (e :: drop (S n) log)) ∧
      (o1 = Some tt → k = 1)).
  { intros l1 o1 Hm. destruct (messages_started _ _ _ _ _ Hm) as (j&Hj&Hl&Hret). simpl in Hj, Hret.
    exists j. split_and!; [done| |done]. rewrite Hl. destruct j as [|[|j]]; [done..|lia]. }
  assert (Hdel : ∀ a b l', delivered (Answered CtxErr a :: Answered (XRead b) (XStreams [[e]]) :: l') = S (delivered l'))
    by done.
  rewrite Hdel in *.
  apply traces_bind_inv in H1 as [[H1 ->]|([]&l1&l2&->&H1&H2)].
  - destruct (Hmsg _ _ H1) as (j&Hj&Hl&_). exists j. split_and!; [lia|lia|exact Hl|done].
  - destruct (Hmsg _ _ H1) as (j&Hj&Hl&Hret). specialize (Hret eq_refl) as ->.
    apply traces_ret_inv in H2 as [-> Ho]. rewrite app_nil_r in *. exists 1.
    split_and!; [lia|lia|exact Hl|]. intros lastID ->. destruct (Hnext _ eq_refl) as [Hid Hk].
    destruct (messages_traces _ orders0 _ _ _ _ st H1) as [Hx _].
    rewrite (delivered_none _ Hx) in Hk. subst k. by exists st'.
Qed.

(** At every moment of its run the goroutine has started exactly the calls of
    the first [n] entries, all of them delivered. *)
Lemma subscriber_started os sub log l o :
  stream_ids_ok log → traces (subscriber_tree os sub) l o → Forall (redis_obs log) l →
  ∃ n, n ≤ length log ∧ n ≤ delivered l ∧
    omap started_call l = (ps_store sub,.) <$> log_calls os (take n log).
Proof.
  intros Hok H%traces_iter_inv Hredis.
  assert (Hgen : ∀ id n st, passes (subscriber_pass os sub) id l o → at_position log n st → ss_lastID st = id →
    ∃ k, n + k ≤ length log ∧ k ≤ delivered l ∧
      omap started_call l = (ps_store sub,.) <$> log_calls os (take k (drop n log))).
  2:{ exact (Hgen _ 0 _ H (at_position_start log) eq_refl). }
  clear H. intros id n st H. revert n st Hredis.
  induction H as [id l H|id l r H|id id' l l' o H _ IH]; intros n st Hredis Hpos Hid; rewrite <-Hid in H.
  - destruct (pass_started _ _ _ _ _ _ _ Hok Hpos H Hredis) as (k&?&?&?&_). by exists k.
  - destruct (pass_started _ _ _ _ _ _ _ Hok Hpos H Hredis) as (k&?&?&?&_). by exists k.
  - apply Forall_app in Hredis as [Hr1 Hr2].
    destruct (pass_started _ _ _ _ _ _ _ Hok Hpos H Hr1) as (k&Hk&Hd&Hs&Hnext).
    destruct (Hnext _ eq_refl) as (st'&Hat&Hid').
    destruct (IH _ _ Hr2 Hat Hid') as (k'&Hk'&Hd'&Hs').
    exists (k + k'). rewrite delivered_app, omap_app, Hs, Hs', <-fmap_app, <-log_calls_app.
    split_and!; [lia|lia|]. by rewrite <-drop_drop, take_take_drop.
Qed.

(** ** Lemmas: the goroutines of the engine *)

Definition no_store_event (X : Type) (e : goE X) : Prop :=
  match e with StoreCall _ _ => False | _ => True end.

Lemma emits_started {A} (t : itree goE A) l o :
  emits no_store_event t → traces t l o → omap started_call l = [].
Proof.
  intros He H. specialize (He _ _ H). clear H.
  induction He as [|ob l Hob _ IH]; [done|]. csimpl.
  destruct ob as [X e|X e x]; destruct e; simpl in *; done.
Qed.

Lemma goroutine_starts_nothing os X (e : goE X) : goroutine_event X e → spawned os X e = [].
Proof. by destruct e. Qed.

(** What the goroutines other than [main] do starts none. *)
Lemma engine_others_start_nothing os tr p i ob :
  exec (spawned os) exits engine_main tr p → (i, ob) ∈ tr → i ≠ 0 → started_by (spawned os) ob = [].
Proof.
  intros Hex Hin Hi. destruct ob as [X e|X e x]; [done|]. simpl.
  destruct (exec_threads _ _ _ _ _ Hex) as (_&_&Hev). destruct (Hev _ _ Hin) as (t&Ho&Ht).
  destruct Ho as [[? _]|(_&j&Y&e'&y&_&Hsp)]; [done|].
  apply goroutine_starts_nothing.
  assert (emits goroutine_event t) as He.
  { destruct e'; simpl in Hsp; try (by apply elem_of_nil in Hsp).
    apply list_elem_of_singleton in Hsp as ->. apply goroutine_emits. }
  specialize (He _ _ Ht). rewrite Forall_forall in He.
  apply (He (Answered e x)). apply list_elem_of_fmap. exists (i, Answered e x).
  split; [done|]. by apply list_elem_of_filter.
Qed.

Lemma started_of_main os (tr : list (nat * obs goE)) :
  (∀ i ob, (i, ob) ∈ tr → i ≠ 0 → started_by (spawned os) ob = []) →
  concat (started_by (spawned os) <$> tr.*2) = concat (started_by (spawned os) <$> of_thread 0 tr).
Proof.
  induction tr as [|[i ob] tr IH]; intros H; [done|]. unfold of_thread. rewrite filter_cons. csimpl.
  rewrite IH by (intros j ob' Hin; apply (H j); set_solver).
  case_decide as Hi; [done|]. by rewrite (H i ob) by (set_solver || done).
Qed.

(** While the engine serves, it runs [main], the subscriber of its store and the
    metrics endpoint, and nothing else. *)
Lemma engine_programs os tr p store audit v :
  exec (spawned os) exits engine_main tr p → of_thread 0 tr = engine_setup store audit v →
  programs (spawned os) engine_main tr =
    [engine_main; subscriber_tree os (mkSubscriber StreamKey store); metrics_endpoint ":9090"].
Proof.
  intros Hex Hsetup. unfold programs. rewrite started_of_main, Hsetup; [done|].
  intros i ob. by apply (engine_others_start_nothing os tr p).
Qed.

(** The events of a goroutine and its call in progress are a trace of its
    program. *)
Lemma thread_obs_traces os main tr p i ot :
  exec (spawned os) exits main tr p → p !! i = Some ot →
  ∃ t, programs (spawned os) main tr !! i = Some t ∧ traces t (thread_obs tr p i) None.
Proof.
  intros Hex Hi. destruct (exec_programs _ _ _ _ _ Hex) as [->|(_&_&Hp)]; [done|].
  destruct (Hp _ _ Hi) as (t&Ht&Htr). exists t. split; [done|]. unfold thread_obs. rewrite Hi.
  apply (leads_trace _ _ _ _ _ Htr). destruct ot as [r|t'|X e k]; [apply tr_stop..|apply tr_call].
Qed.

Lemma thread_obs_redis log tr p i :
  Forall (redis_obs log) tr.*2 → Forall (redis_obs log) (thread_obs tr p i).
Proof.
  intros H. apply Forall_app. split.
  - apply Forall_of_thread. intros j ob Hin. rewrite Forall_forall in H. apply H.
    apply list_elem_of_fmap. by exists (j, ob).
  - destruct (p !! i) as [[r|t|X e k]|]; repeat constructor.
Qed.

Lemma thread_obs_delivered tr p i : delivered (thread_obs tr p i) = delivered (of_thread i tr).
Proof.
  unfold thread_obs. rewrite delivered_app. destruct (p !! i) as [[r|t|X e k]|]; unfold delivered; simpl; lia.
Qed.

Lemma calls_on_ref (r : ref) (cs : list call) :
  omap (λ rc : ref * call, if decide (rc.1 = r) then Some rc.2 else None) ((r,.) <$> cs) = cs.
Proof. induction cs as [|c cs IH]; [done|]. csimpl. by rewrite decide_True, IH. Qed.

(** While the engine serves, its three goroutines have made the store calls of
    a delivered prefix of the stream, all from the subscriber's. *)
Lemma engine_store_calls os tr p store audit v log :
  exec (spawned os) exits engine_main tr p → p ≠ [] → of_thread 0 tr = engine_setup store audit v →
  stream_ids_ok log → Forall (redis_obs log) tr.*2 →
  length p = 3 ∧ store_calls store tr p 0 = [] ∧ store_calls store tr p 2 = [] ∧
  ∃ n, n ≤ length log ∧ n ≤ delivered (of_thread 1 tr) ∧
    store_calls store tr p 1 = log_calls os (take n log).
Proof.
  intros Hex Hp Hsetup Hok Hredis.
  pose proof (engine_programs _ _ _ _ _ _ Hex Hsetup) as Hprog.
  assert (Hlen : length p = 3).
  { destruct (exec_programs _ _ _ _ _ Hex) as [?|[Hlen _]]; [done|]. by rewrite Hlen, Hprog. }
  assert (Htr : ∀ i, i < 3 → ∃ t, programs (spawned os) engine_main tr !! i = Some t ∧
    traces t (thread_obs tr p i) None).
  { intros i Hi. destruct (lookup_lt_is_Some_2 p i) as [ot Hot]; [lia|]. by eapply thread_obs_traces. }
  rewrite Hprog in Htr. unfold store_calls. split; [done|]. split_and!.
  - destruct (Htr 0) as (t&[= <-]&Ht); [lia|]. by rewrite (emits_started engine_main _ None) by (done || solve_emits).
  - destruct (Htr 2) as (t&[= <-]&Ht); [lia|].
    by rewrite (emits_started (metrics_endpoint ":9090") _ None) by (done || solve_emits).
  - destruct (Htr 1) as (t&[= <-]&Ht); [lia|].
    destruct (subscriber_started _ _ _ _ _ Hok Ht (thread_obs_redis _ _ _ _ Hredis)) as (n&Hn&Hd&Hs).
    rewrite thread_obs_delivered in Hd. exists n. rewrite Hs. split_and!; [done|done|apply calls_on_ref].
Qed.

(** ** Property *)

(** C3: what the running engine grants.  Take any execution of the
    cmd/bouncer-engine process against a Redis that answers from an append-only
    stream, stopped while [main] is in [Serve].  Its goroutines have called the
    served store only from the subscriber's goroutine, and exactly for the
    first [n] entries of the stream, all delivered.  However the atomic steps
    of those calls interleave with those of any RPC handlers reading the store,
    a response of the service that allows a request is justified by the stream:
    an ALLOW policy of a prefix of those entries applies to the request, and no
    DENY policy of the same or a longer prefix does. *)
Theorem engine_grants_from_stream os tr p i Y (e : goE Y) srv addr log :
  exec (spawned os) exits engine_main tr p → in_call p i e → serving (Called e) = Some (inl (srv, addr)) →
  stream_ids_ok log → Forall (redis_obs log) tr.*2 →
  ∃ store audit n, gs_service srv = AuthorizationService (mkAuthzServer (mkEngine store) audit) ∧
    n ≤ length log ∧ n ≤ delivered (of_thread 1 tr) ∧
    let calls := store_calls store tr p <$> seq 0 (length p) in
    concat calls = log_calls os (take n log) ∧
    ∀ readers sched k ps oa od start now ao hint req l resp err l',
      Forall (λ cs, is_writer cs = false) readers →
      (k, EvRead ps) ∈ (run sched (spawn (calls ++ readers))).2 →
      CheckAccess (ListActivePolicies oa od ps) start now ao hint req l = RpcReturn (Some resp) err l' →
      a_Allowed resp = true →
      ∃ log1 log2 log3, take n log = log1 ++ log2 ++ log3 ∧
        (∃ id p, stream_policies log1 !! id = Some p ∧ p_Access p = AccessAllow ∧ proto_applies p req) ∧
        (∀ id p, stream_policies (log1 ++ log2) !! id = Some p → p_Access p = AccessDeny → ¬ proto_applies p req).
Proof.
  intros Hex Hin Hsrv Hok Hredis.
  destruct (engine_serving _ _ _ _ _ _ _ _ Hex Hin Hsrv) as (->&_&store&audit&v&Hsetup&->).
  assert (p ≠ []) as Hp by (intros ->; by destruct Hin).
  destruct (engine_store_calls _ _ _ _ _ _ _ Hex Hp Hsetup Hok Hredis) as (Hlen&H0&H2&n&Hn&Hd&H1).
  exists store, audit, n. split_and!; [done|done|done|]. intros calls.
  assert (Hcalls : calls = [[]; log_calls os (take n log); []]).
  { unfold calls. rewrite Hlen. csimpl. by rewrite H0, H1, H2. }
  clearbody calls. subst calls. split; [by rewrite concat_cons; csimpl; rewrite app_nil_r|].
  intros readers sched k ps oa od start now ao hint req l resp err l' Hread Hev Hrpc Hallow.
  setoid_rewrite <-(proto_applies_iff ao).
  eapply (live_grant_positions os (take n log) _ 1); [|exact Hev|].
  - split; [done|]. intros [|[|[|j]]] cs Hj Hcs; csimpl in Hcs; simplify_eq; try done.
    by eapply Forall_lookup_1 in Hread.
  - unfold decides. by apply (rpc_response_granted _ _ _ _ _ _ _ _ _ _ Hrpc).
Qed.

End WithRegexp.

(** ** Witness *)

(** A machine without files, whose Redis holds the sample stream. *)
Definition engine_world (tr : list (nat * obs goE)) (X : Type) (e : goE X) : option X :=
  match e in goE X return option X with
  | XRead args => sample_redis tr _ (XRead args)
  | e => world bare_machine (λ _, None) None tr _ e
  end.

(** [main] reaches [Serve], then the subscriber reads the first entries. *)
Definition live_run :=
  play (spawned (λ _, orders)) exits engine_world (repeat 0 10 ++ repeat 1 12) [] [observe engine_main].

Lemma live_run_exec : exec (spawned (λ _, orders)) exits engine_main live_run.1 live_run.2.
Proof. apply play_exec, ex_start. Qed.

Lemma live_run_serves : in_call live_run.2 0 (Serve (engine_server 0 0) ":50051").
Proof.
  refine (pending_in_call _ 0 (existT _ (Serve (engine_server 0 0) ":50051")) _). vm_compute. reflexivity.
Qed.

Lemma live_run_redis : Forall (redis_obs sample_log) live_run.1.*2.
Proof.
  apply play_forall; [done| |constructor]. intros tr X e x Hx. destruct e; try done.
  simpl in Hx. injection Hx as <-. exists sample_log. split; [done|].
  destruct (_ =? 1); [exact I|].
  destruct (unread sample_log _) as [|e rest] eqn:Hun; [exact I|]. by exists e, rest.
Qed.

Definition dashboard_rpc : CheckAccessRequest :=
  mkCheckAccessRequest "usr-1" (attr_singleton "role" ["admin"]) "dashboard" "" None "READ" None.

(** The RPC handler loads the allow table after the first upsert. *)
Definition rpc_schedule : list nat := [1; 1; 1; 1; 3; 1; 1; 3].

Definition live_store : PolicyStore := mkStore {["pol-mock-001" := mock_policy]} ∅.

Lemma engine_grants_from_stream_witness :
  ∃ n log1 log2 log3, n ≤ 4 ∧ take n sample_log = log1 ++ log2 ++ log3 ∧
    ∃ id p, stream_policies log1 !! id = Some p ∧ p_Access p = AccessAllow ∧ proto_applies p dashboard_rpc.
Proof.
  destruct (engine_grants_from_stream (λ _, orders) live_run.1 live_run.2 0 _ _ (engine_server 0 0) ":50051"
    sample_log live_run_exec live_run_serves eq_refl sample_ids_ok live_run_redis)
    as (store&audit&n&Hs&Hn&_&_&Hgrants).
  injection Hs as <- _.
  assert ((run rpc_schedule (spawn ((store_calls 0 live_run.1 live_run.2 <$> seq 0 (length live_run.2)) ++
    [[CRead]]))).2 !! 2 = Some (3, EvRead live_store)) as Hev by (vm_compute; reflexivity).
  apply list_elem_of_lookup_2 in Hev.
  destruct (Hgrants [[CRead]] rpc_schedule 3 live_store canonical_order canonical_order 3%Z 8%Z
    canonical_orders 0 dashboard_rpc (NewAuditLogger 4)
    (mkCheckAccessResponse true "pol-mock-001" reason_allow 5) None
    (mkLogger 4 [audit_record dashboard_rpc (mkResponse true "pol-mock-001" reason_allow 5)] false [] 0 []))
    as (l1&l2&l3&H1&H2&_).
  - constructor; [reflexivity|constructor].
  - exact Hev.
  - vm_compute. reflexivity.
  - reflexivity.
  - exists n, l1, l2, l3. split; [exact Hn|]. split; [exact H1|exact H2].
Defined.
