(* ===== verification/EngineCatchUp.v ===== *)
(** The process of cmd/bouncer-engine catches up with its stream: under every
    fair schedule, once Redis answers. *)
From ITree Require Import ITree.
From S2P Require Import Prelude GoText GoJson AuthzPb Policy LiteralRegexp Store StoreConc StoreConcProps Operators Engine AuditQueue Server Fairness Subscriber PolicyJson Seeding System Live Proc Progress Programs ProgramLemmas SubscriberProc EngineProc EngineLive.
Open Scope string_scope.
Open Scope nat_scope.
Open Scope list_scope.

Section WithRegexp.
Context `{RE : RegexpLib} `{DEC : !PolicyDecoder} `{UNI : UnicodeLib}.

(** ** Specification: the environment *)

(** [context.Background()], which [main] passes to the subscriber, is never
    done. *)
Definition background (ob : obs goE) : Prop :=
  match ob with
  | Called _ => True
  | Answered e x =>
    match e in goE X return X → Prop with
    | CtxErr | DoneBefore _ => λ done, done = false
    | _ => λ _, True
    end x
  end.

(** A read that did not deliver although the log has more. *)
Definition withheld (log : list XMessage) (ob : obs goE) : Prop :=
  match xread ob with
  | Some (args, out) => unread log (List.last args.1.1 "0") ≠ [] ∧ ∀ streams, out ≠ XStreams streams
  | None => False
  end.

(** After [r] reads, only the first [b] reads withhold anything. *)
Fixpoint steady (b : nat) (log : list XMessage) (r : nat) (l : list (obs goE)) : Prop :=
  match l with
  | [] => True
  | ob :: l => (b ≤ r → ¬ withheld log ob) ∧ steady b log (r + length (omap xread [ob])) l
  end.

(** An environment for the subscriber: its calls return, the context is never
    done, Redis answers from [log] and, after [b] reads of the process, always
    delivers what is there. *)
Record reliable (log : list XMessage) (b : nat)
    (answers : list (nat * obs goE) → ∀ X, goE X → option X) : Prop := {
  rel_returns tr X (e : goE X) :
    match e with StoreCall _ _ | CtxErr | DoneBefore _ | XRead _ => True | _ => False end →
    is_Some (answers tr X e);
  rel_answers tr X (e : goE X) x :
    answers tr X e = Some x → background (Answered e x) ∧ redis_obs log (Answered e x);
  rel_delivers tr args out :
    b ≤ length (omap xread tr.*2) → answers tr _ (XRead args) = Some out →
    ¬ withheld log (Answered (XRead args) out)
}.

(** ** Lemmas: counting reads *)

Lemma steady_app b log r l1 l2 :
  steady b log r (l1 ++ l2) ↔ steady b log r l1 ∧ steady b log (r + length (omap xread l1)) l2.
Proof.
  revert r. induction l1 as [|ob l1 IH]; intros r; cbn [app steady].
  { simpl. rewrite Nat.add_0_r. tauto. }
  rewrite IH. replace (length (omap xread (ob :: l1))) with (length (omap xread [ob]) + length (omap xread l1)).
  - rewrite Nat.add_assoc. tauto.
  - csimpl. destruct (xread ob); simpl; lia.
Qed.

Lemma steady_early b log r l : r + length (omap xread l) < b → steady b log r l.
Proof.
  revert r. induction l as [|ob l IH]; intros r H; [done|]. cbn [steady].
  assert (r + length (omap xread [ob]) + length (omap xread l) < b).
  { revert H. csimpl. destruct (xread ob); simpl; lia. }
  split; [lia|by apply IH].
Qed.

(** Among the events of a whole process, those of one goroutine. *)
Lemma steady_of_thread b log i r r' (tr : list (nat * obs goE)) :
  steady b log r tr.*2 → r' ≤ r → steady b log r' (of_thread i tr).
Proof.
  revert r r'. induction tr as [|[j ob] tr IH]; intros r r' H Hr; [done|].
  destruct H as [Hob H]. fold (@fmap list _) in H. unfold of_thread. rewrite filter_cons. simpl.
  case_decide; [split; [intros ?; apply Hob; lia|]|]; (eapply IH; [exact H|]); lia.
Qed.

(** ** Lemmas: the passes of the subscriber's loop *)

Lemma message_short os r v l o :
  traces (for_each (entry_calls os v) (λ c, do (StoreCall r c))) l o → length l ≤ 1 ∧ omap xread l = [].
Proof.
  intros H. split; [|by apply (message_traces _ _ _ _ _ NewPolicyStore) in H as [? _]].
  destruct (entry_calls_cases os v) as [Hc|[c Hc]]; rewrite Hc in H; simpl in H.
  - apply traces_ret_inv in H as [-> _]. simpl. lia.
  - apply traces_trigger_inv in H as [[-> _]|[[-> _]|(x&l'&->&H)]]; [simpl; lia..|].
    apply traces_ret_inv in H as [-> _]. simpl. lia.
Qed.

(** A pass makes at most four calls, returns only when the context is done,
    and reads once if it completes. *)
Lemma pass_short os sub log lastID l o :
  traces (subscriber_pass os sub lastID) l o → Forall background l → Forall (redis_obs log) l →
  length l ≤ 4 ∧ (∀ r, o ≠ Some (inr r)) ∧
  ∀ id, o = Some (inl id) → ∃ out l1 l2,
    l = l1 ++ Answered (XRead ([ps_streamKey sub; lastID], 1, 5000000000%Z)) out :: l2 ∧
    omap xread l1 = [] ∧ omap xread l2 = [] ∧ delivered l = match out with XStreams _ => 1 | _ => 0 end.
Proof.
  intros H Hb Hr. unfold subscriber_pass in H.
  apply traces_trigger_inv in H as [[-> ->]|[[-> ->]|(c&l1&->&H)]]; [by split_and!; [simpl; lia|..]..|].
  apply Forall_cons in Hb as [Hc Hb]. simpl in Hc. subst c. apply Forall_cons in Hr as [_ Hr].
  apply traces_trigger_inv in H as [[-> ->]|[[-> ->]|(out&l2&->&H)]]; [by split_and!; [simpl; lia|..]..|].
  apply Forall_cons in Hb as [_ Hb]. apply Forall_cons in Hr as [Hans Hr].
  destruct out as [|err|streams].
  - apply traces_ret_inv in H as [-> [-> | ->]]; (split_and!; [simpl; lia|done|]); [done|].
    intros id _. by exists XNil, [Answered CtxErr false], [].
  - apply traces_trigger_inv in H as [[-> ->]|[[-> ->]|(c&l3&->&H)]]; [by split_and!; [simpl; lia|..]..|].
    apply Forall_cons in Hb as [Hc Hb]. simpl in Hc. subst c.
    apply traces_trigger_inv in H as [[-> ->]|[[-> ->]|(c&l4&->&H)]]; [by split_and!; [simpl; lia|..]..|].
    apply Forall_cons in Hb as [Hc Hb]. simpl in Hc. subst c.
    apply traces_ret_inv in H as [-> [-> | ->]]; (split_and!; [simpl; lia|done|]); [done|].
    intros id _. by exists (XErr err), [Answered CtxErr false], [Answered CtxErr false; Answered (DoneBefore 1000000000) false].
  - destruct Hans as (sofar&_&e&rest&_&->).
    apply traces_bind_inv in H as [[H ->]|([]&l3&l4&->&H1&H2)].
    + apply traces_bind_inv in H as [[H _]|([]&l3&l4&->&H1&H2)].
      * apply message_short in H as [H _]. split_and!; [simpl; lia|done|done].
      * apply message_short in H1 as [H1 _]. apply traces_ret_inv in H2 as [-> _].
        rewrite app_nil_r. split_and!; [simpl; lia|done|done].
    + apply traces_bind_inv in H1 as [[_ ?]|([]&l5&l6&->&H3&H4)]; [done|].
      apply message_short in H3 as [H3 Hx]. apply traces_ret_inv in H4 as [-> _].
      apply traces_ret_inv in H2 as [-> Ho]. rewrite !app_nil_r.
      split_and!; [simpl; lia|intros r ->; by destruct Ho|].
      intros id _. exists (XStreams [[e]]), [Answered CtxErr false], l5. split_and!; [done|done|done|].
      change (delivered _) with (S (delivered l5)). by rewrite delivered_none.
Qed.

(** At position [n] with the log longer, a read that withholds nothing
    delivers. *)
Lemma position_delivers log n st key out :
  stream_ids_ok log → at_position log n st → n < length log →
  ¬ withheld log (Answered (XRead ([key; ss_lastID st], 1, 5000000000%Z)) out) →
  ∃ streams, out = XStreams streams.
Proof.
  intros Hok (Hn&Hid&_) Hlt Hw.
  assert (Hun : unread log (ss_lastID st) ≠ []).
  { rewrite Hid, unread_drop by done. intros Hd%(f_equal length). rewrite length_drop in Hd. simpl in Hd. lia. }
  destruct out as [|err|streams]; [destruct Hw; by split..|by eexists].
Qed.

(** Enough calls of the loop, after [r] reads and from position [n], reach the
    end of the log. *)
Lemma passes_catch_up os sub log b id l o n st r :
  stream_ids_ok log → passes (subscriber_pass os sub) id l o → at_position log n st → ss_lastID st = id →
  Forall (redis_obs log) l → Forall background l → steady b log r l →
  ∃ k st', at_position log (n + k) st' ∧ store_after (ps_store sub) l (ss_store st) = ss_store st' ∧
    (5 * S ((b - r) + (length log - n)) ≤ length l → n + k = length log).
Proof.
  intros Hok H. revert n st r.
  induction H as [id l H|id l x H|id id' l l' o H _ IH]; intros n st r Hpos <- Hr Hb Hs.
  - destruct (pass_position _ _ _ _ _ _ _ Hok Hpos H Hr) as (k&st'&Hat&Hst&_&_). exists k, st'.
    destruct (pass_short _ _ _ _ _ _ H Hb Hr) as [Hlen _]. split_and!; [done|done|lia].
  - by destruct (pass_short _ _ _ _ _ _ H Hb Hr) as (_&Hret&_); destruct (Hret x).
  - apply Forall_app in Hr as [Hr1 Hr2]. apply Forall_app in Hb as [Hb1 Hb2].
    apply steady_app in Hs as [Hs1 Hs2].
    destruct (pass_position _ _ _ _ _ _ _ Hok Hpos H Hr1) as (k&st1&Hat&Hst&_&Hnext).
    destruct (Hnext _ eq_refl) as [Hid1 Hk].
    destruct (pass_short _ _ _ _ _ _ H Hb1 Hr1) as (Hlen&_&Hread).
    destruct (Hread _ eq_refl) as (out&l1&l2&Hl&Hl1&Hl2&Hd).
    assert (Hone : length (omap xread l) = 1).
    { rewrite Hl, omap_app, Hl1. csimpl. by rewrite Hl2. }
    rewrite Hone in Hs2.
    destruct (IH _ _ _ Hat Hid1 Hr2 Hb2 Hs2) as (k'&st2&Hat2&Hst2&Hend).
    exists (k + k'), st2. rewrite Nat.add_assoc, store_after_app, Hst.
    pose proof (proj1 Hpos) as Hn. pose proof (proj1 Hat2) as Hn2.
    split_and!; [done|done|]. rewrite length_app. intros Hlong.
    destruct (decide (n = length log)) as [->|Hne]; [lia|]. apply Hend.
    destruct (decide (b ≤ r)) as [Hbr|Hbr]; [|lia].
    assert (k = 1) as ->; [|lia].
    rewrite Hl in Hs1. apply steady_app in Hs1 as [_ Hs1]. rewrite Hl1, Nat.add_0_r in Hs1.
    destruct Hs1 as [Hw _]. specialize (Hw Hbr).
    destruct (position_delivers _ _ _ _ _ Hok Hpos ltac:(lia) Hw) as [streams ->]. by rewrite Hk, Hd.
Qed.

Lemma subscriber_catches_up os sub log b l o :
  stream_ids_ok log → traces (subscriber_tree os sub) l o →
  Forall (redis_obs log) l → Forall background l → steady b log 0 l → 5 * S (b + length log) ≤ length l →
  represents (store_after (ps_store sub) l NewPolicyStore) (stream_policies log).
Proof.
  intros Hok H%traces_iter_inv Hr Hb Hs Hlen.
  destruct (passes_catch_up _ _ _ _ _ _ _ 0 (mkSub "0" NewPolicyStore) 0 Hok H (at_position_start log) eq_refl Hr Hb Hs)
    as (k&st'&(_&_&Hrep)&Hst&Hk). cbn [ss_store] in Hst.
  rewrite Hst. rewrite Hk, firstn_all in Hrep; [done|]. by rewrite !Nat.sub_0_r.
Qed.

(** With a context that is never done the loop does not return. *)
Lemma subscriber_never_returns os sub log l o :
  traces (subscriber_tree os sub) l o → Forall background l → Forall (redis_obs log) l → o = None.
Proof.
  intros H%traces_iter_inv. induction H as [id l H|id l x H|id id' l l' o H _ IH]; intros Hb Hr; [done|..].
  - by destruct (pass_short _ _ _ _ _ _ H Hb Hr) as (_&Hret&_); destruct (Hret x).
  - apply Forall_app in Hr as [_ Hr]. apply Forall_app in Hb as [_ Hb]. by apply IH.
Qed.

(** What it asks for. *)
Definition subscriber_event (X : Type) (e : goE X) : Prop :=
  match e with StoreCall _ _ | CtxErr | DoneBefore _ | XRead _ => True | _ => False end.

Lemma subscriber_asks os sub : emits subscriber_event (subscriber_tree os sub).
Proof. solve_emits. Qed.

(** It is never silent for ever. *)
Lemma subscriber_calm os sub : calm (subscriber_tree os sub).
Proof.
  apply calm_iter; intros id; [|unfold subscriber_pass; rewrite observe_mbind; apply as_vis].
  assert (Hmsg : ∀ es (id' : string), calm (_ ← for_each es (λ e : XMessage,
      for_each (entry_calls (os e) (xm_Values e)) (λ c, do (StoreCall (ps_store sub) c)));
    mret (M := itree goE) (inl (B := unit) id'))).
  { intros es id'. apply calm_bind; [|intros _; apply calm_ret].
    apply calm_for_each. intros e. apply calm_for_each. intros c. apply calm_trigger. }
  apply calm_bind; [apply calm_trigger|]. intros [|]; [apply calm_ret|].
  apply calm_bind; [apply calm_trigger|]. intros [|err|streams]; [apply calm_ret| |apply Hmsg].
  apply calm_bind; [apply calm_trigger|]. intros [|]; [apply calm_ret|].
  apply calm_bind; [apply calm_trigger|]. intros [|]; apply calm_ret.
Qed.

(** ** Lemmas: the process while it serves *)

(** A goroutine of the engine does not end the process. *)
Lemma engine_goroutine_stays os tr p j X (e : goE X) k :
  exec (spawned os) exits engine_main tr p → p !! j = Some (VisF e k) → j ≠ 0 → exits X e = false.
Proof.
  intros Hex Hj Hne.
  destruct (in_call_traces _ _ _ _ j _ e Hex (ex_intro _ k Hj)) as (t&[[? _]|(_&i&Z&e'&x&_&Hsp)]&Ht); [done|].
  destruct e'; simpl in Hsp; try (by apply elem_of_nil in Hsp).
  apply list_elem_of_singleton in Hsp as ->.
  apply goroutine_emits, Forall_app in Ht as [_ Ht]. apply Forall_cons in Ht as [Ht _]. by destruct e.
Qed.

(** While it serves, only the subscriber's goroutine has called a store. *)
Lemma engine_store_events os tr p store audit v :
  exec (spawned os) exits engine_main tr p → p ≠ [] → of_thread 0 tr = engine_setup store audit v →
  omap store_call tr.*2 = omap store_call (of_thread 1 tr).
Proof.
  intros Hex Hp Hsetup.
  pose proof (engine_programs _ _ _ _ _ _ Hex Hsetup) as Hprog.
  assert (Hother : ∀ i ob, (i, ob) ∈ tr → i ≠ 1 → store_call ob = None).
  { intros i ob Hin Hi. destruct (exec_event_alive _ _ _ _ _ _ _ Hex Hp Hin) as [ot Hot].
    destruct (thread_obs_traces _ _ _ _ _ _ Hex Hot) as (t&Ht&Htr). rewrite Hprog in Ht.
    assert (emits no_store_event t) as He.
    { destruct i as [|[|[|i]]]; csimpl in Ht; simplify_eq; solve_emits. }
    apply He, Forall_app in Htr as [Htr _]. rewrite Forall_forall in Htr.
    specialize (Htr ob). destruct ob as [X e|X e x]; [done|]. destruct e; try done. destruct Htr.
    apply list_elem_of_fmap. exists (i, Answered (StoreCall store0 c) x). split; [done|].
    by apply list_elem_of_filter. }
  clear Hex Hsetup Hprog Hp. unfold of_thread. induction tr as [|[i ob] tr IH]; [done|].
  assert (IH' : omap store_call tr.*2 = omap store_call (filter (λ ev, ev.1 = 1) tr).*2).
  { apply IH. intros j ob' Hin. apply (Hother j). set_solver. }
  rewrite filter_cons, fmap_cons. change (omap store_call ((i, ob).2 :: tr.*2)) with
    (match store_call ob with Some c => c :: omap store_call tr.*2 | None => omap store_call tr.*2 end).
  rewrite IH'. case_decide as Hi; [done|]. by rewrite (Hother i ob) by (set_solver || done).
Qed.

Section Serving.
Context (os : XMessage → MapOrders) (log : list XMessage) (b : nat) (sched : nat → nat).
Context (answers : list (nat * obs goE) → ∀ X, goE X → option X).
Context (tr0 : list (nat * obs goE)) (p0 : list (itree' goE unit)).
Context (Y : Type) (e : goE Y) (srv : grpc_server) (addr : string).
Hypothesis Hexec : exec (spawned os) exits engine_main tr0 p0.
Hypothesis Hcall : in_call p0 0 e.
Hypothesis Hserving : serving (Called e) = Some (inl (srv, addr)).
Hypothesis Hredis : Forall (redis_obs log) tr0.*2.
Hypothesis Hback : Forall background tr0.*2.
Hypothesis Hrel : reliable log b answers.
Hypothesis Hserve : ∀ tr, answers tr Y e = None.

#[local] Abbreviation turn := (turn (spawned os) exits answers sched tr0 p0).

(** [main] stays in [Serve]. *)
Lemma turn_serving n :
  exec (spawned os) exits engine_main (turn n).1 (turn n).2 ∧
  (turn n).2 !! 0 = p0 !! 0 ∧ of_thread 0 (turn n).1 = of_thread 0 tr0.
Proof.
  apply (turn_ind _ _ _ _ _ _ (λ tr p, exec (spawned os) exits engine_main tr p ∧
    p !! 0 = p0 !! 0 ∧ of_thread 0 tr = of_thread 0 tr0)); [done|].
  clear n. intros n tr p (Hex&H0&Ht) Ha. destruct Hcall as [k Hk]. rewrite Hk in H0.
  destruct (decide (sched n = 0)) as [Hs|Hs].
  { exfalso. unfold advance in Ha. rewrite Hs, H0, Hserve in Ha. by destruct e. }
  assert (p ≠ []) as Hne.
  { destruct (advance_inv _ _ _ _ _ _ _ _ Ha) as (_&[(t&Hi&_&->)|[(X&e'&k'&x&Hi&_&_&_&->)|(X&e'&k'&Hi&He&_)]]).
    - intros Hp%(f_equal length). rewrite length_insert in Hp. apply lookup_lt_Some in Hi. simpl in Hp. lia.
    - intros Hp%(f_equal length). rewrite length_app, length_insert in Hp. apply lookup_lt_Some in Hi.
      simpl in Hp. lia.
    - rewrite (engine_goroutine_stays _ _ _ _ _ _ _ Hex Hi Hs) in He. done. }
  destruct (advance_other _ _ _ _ 0 _ _ _ _ Ha Hs (ex_intro _ _ H0) Hne) as [-> ->].
  apply advance_step in Ha as (tr1&->&Hst). split_and!; [by eapply ex_step|by rewrite H0, Hk|done].
Qed.

(** What is assumed of the environment holds of the whole execution. *)
Lemma turn_answers n :
  Forall (redis_obs log) (turn n).1.*2 ∧ Forall background (turn n).1.*2 ∧
  steady (b + S (length (omap xread tr0.*2))) log 0 (turn n).1.*2.
Proof.
  apply (turn_ind _ _ _ _ _ _ (λ tr p, Forall (redis_obs log) tr.*2 ∧ Forall background tr.*2 ∧
    steady (b + S (length (omap xread tr0.*2))) log 0 tr.*2)).
  { split_and!; [done|done|]. apply steady_early. lia. }
  clear n. intros n tr p (Hr&Hb&Hs) (_&[(t&_&->&_)|[(X&e'&k&x&_&_&Hx&->&_)|(X&e'&k&_&_&->&_)]])%advance_inv;
    [done|..]; rewrite fmap_app; cbn [fmap list_fmap snd]; rewrite !Forall_app, steady_app, !Forall_singleton.
  - destruct (rel_answers _ _ _ Hrel _ _ _ _ Hx) as [G1 G2]. split_and!; try done.
    split; [|done]. intros Hle. destruct e'; try (intros []; done). eapply (rel_delivers _ _ _ Hrel); [|exact Hx]. lia.
  - split_and!; try done. split; [by intros _ []|done].
Qed.

(** The subscriber's goroutine and what it has done. *)
Lemma turn_subscriber store audit v n :
  of_thread 0 tr0 = engine_setup store audit v →
  ∃ ot, (turn n).2 !! 1 = Some ot ∧
    leads (observe (subscriber_tree os (mkSubscriber StreamKey store))) (of_thread 1 (turn n).1) ot.
Proof.
  intros Hsetup. destruct (turn_serving n) as (Hex&H0&Ht). rewrite <-Ht in Hsetup.
  destruct Hcall as [k Hk].
  destruct (exec_programs _ _ _ _ _ Hex) as [Hp|(Hlen&_&Hp)]; [by rewrite Hp, Hk in H0|].
  rewrite (engine_programs _ _ _ _ _ _ Hex Hsetup) in Hp, Hlen.
  destruct (lookup_lt_is_Some_2 (turn n).2 1) as [ot Hot]; [rewrite Hlen; simpl; lia|].
  exists ot. split; [done|]. by destruct (Hp _ _ Hot) as (t&[= <-]&Hl).
Qed.

Lemma turn_thread i n :
  Forall (redis_obs log) (of_thread i (turn n).1) ∧ Forall background (of_thread i (turn n).1) ∧
  steady (b + S (length (omap xread tr0.*2))) log 0 (of_thread i (turn n).1).
Proof.
  destruct (turn_answers n) as (Hr&Hb&Hs). rewrite Forall_fmap, Forall_forall in Hr, Hb.
  split_and!; [apply Forall_of_thread; intros j ob Hj; by apply (Hr (j, ob))|
    apply Forall_of_thread; intros j ob Hj; by apply (Hb (j, ob))|by eapply steady_of_thread].
Qed.

(** It gets through any number of calls, if it always has another turn. *)
Lemma subscriber_progress store audit v K :
  of_thread 0 tr0 = engine_setup store audit v → (∀ n, ∃ m, n ≤ m ∧ sched m = 1) →
  ∃ N, ∀ n, N ≤ n → K ≤ length (of_thread 1 (turn n).1).
Proof.
  intros Hsetup Hfair. pose proof (λ n, turn_subscriber _ _ _ n Hsetup) as Hsub.
  apply turn_unbounded; [..|exact Hfair].
  - intros n ot Hot. destruct (Hsub n) as (ot'&Hot'&Hl). rewrite Hot in Hot'. injection Hot' as <-.
    split; [by apply (subscriber_calm _ _ _ _ Hl)|]. intros [] ->. destruct (turn_thread 1 n) as (Hr&Hb&_).
    pose proof (leads_trace _ _ _ _ _ Hl (tr_ret tt)) as Ht. rewrite app_nil_r in Ht.
    by apply (subscriber_never_returns _ _ log) in Ht.
  - intros n. destruct (turn_serving n) as (_&H0&_), Hcall as [k Hk], (Hsub n) as (ot&Hot&_).
    split; [unfold running; by rewrite H0, Hk|by exists ot].
  - intros n X e' k Hc. destruct (turn_serving n) as (Hex'&_&_).
    split; [by eapply engine_goroutine_stays|]. apply (rel_returns _ _ _ Hrel).
    destruct (Hsub n) as (ot&Hot&Hl). rewrite Hc in Hot. injection Hot as <-.
    pose proof (leads_trace _ _ _ _ _ Hl (tr_call e' k)) as Ht.
    apply subscriber_asks, Forall_app in Ht as [_ Ht]. by apply Forall_cons in Ht as [Ht _].
Qed.

End Serving.

(** ** Property *)

(** C4: the engine catches up.  Take an execution of the cmd/bouncer-engine
    process stopped while [main] is in [Serve], and continue it for ever: under
    a schedule in which the subscriber's goroutine always gets another turn,
    with whatever turns for the others, while [Serve] does not return, and
    with a Redis that holds the stream [log] and, after finitely many timeouts
    and errors, answers.  From some step on the process is still in [Serve], the
    calls it has made on the served store leave exactly the policies that the
    whole stream denotes, and the service allows a request if and only if
    those policies grant it. *)
Theorem engine_catches_up os tr p Y (e : goE Y) srv addr log b answers sched :
  exec (spawned os) exits engine_main tr p → in_call p 0 e → serving (Called e) = Some (inl (srv, addr)) →
  stream_ids_ok log → Forall (redis_obs log) tr.*2 → Forall background tr.*2 →
  reliable log b answers → (∀ tr, answers tr Y e = None) → (∀ n, ∃ m, n ≤ m ∧ sched m = 1) →
  ∃ store audit N, gs_service srv = AuthorizationService (mkAuthzServer (mkEngine store) audit) ∧
    ∀ n, N ≤ n →
    let '(tr', p') := turn (spawned os) exits answers sched tr p n in
    let ps := store_after store tr'.*2 NewPolicyStore in
    in_call p' 0 e ∧ represents ps (stream_policies log) ∧
    ∀ oa od start now ao hint l req, lg_closed l = false →
      (∃ resp, rpc_client (ListActivePolicies oa od ps) start now ao hint l req = Ok resp ∧
         GetAllowed resp = true) ↔
      policies_grant (stream_policies log) req.
Proof.
  intros Hex Hin Hsrv Hok Hredis Hback Hrel Hserve Hfair.
  destruct (engine_serving _ _ _ _ _ _ _ _ Hex Hin Hsrv) as (_&_&store&audit&v&Hsetup&->).
  destruct (subscriber_progress os log b sched answers tr p Y e _ _ Hex Hin Hsrv Hredis Hback Hrel Hserve
    store audit v (5 * S (b + S (length (omap xread tr.*2)) + length log)) Hsetup Hfair) as [N HN].
  exists store, audit, N. split; [done|]. intros n Hn. specialize (HN n Hn).
  destruct (turn_serving os sched answers tr p Y e _ _ Hex Hin Hsrv Hserve n) as (Hex'&H0&Ht0).
  destruct (turn_thread os log b sched answers tr p Hredis Hback Hrel 1 n) as (Hr&Hb&Hs).
  destruct (turn_subscriber os sched answers tr p Y e _ _ Hex Hin Hsrv Hserve store audit v n Hsetup) as (ot&Hot&Hl).
  destruct (turn _ _ _ _ _ _ n) as [tr' p']. simpl in *.
  pose proof (leads_trace _ _ _ _ _ Hl (tr_stop ot)) as Ht. rewrite app_nil_r in Ht.
  pose proof (subscriber_catches_up _ _ _ _ _ _ Hok Ht Hr Hb Hs HN) as Hrep.
  assert (store_after store tr'.*2 NewPolicyStore = store_after store (of_thread 1 tr') NewPolicyStore) as ->.
  { unfold store_after. erewrite engine_store_events; [done|exact Hex'|by intros ->|by rewrite Ht0]. }
  split; [by destruct Hin as [k Hk]; exists k; rewrite H0|]. split; [exact Hrep|].
  intros oa od start now ao hint l req Hopen. apply rpc_client_grants; [done|apply stream_policies_live|done].
Qed.

End WithRegexp.

(** ** Witness *)

(** A machine without files, whose Redis fails the first three reads and then
    serves the sample stream. *)
Definition recovering_world (tr : list (nat * obs goE)) (X : Type) (e : goE X) : option X :=
  match e in goE X return option X with
  | XRead args => Some (
      if length (omap xread tr.*2) <? 3 then XErr "connection refused" else
      match unread sample_log (List.last args.1.1 "0") with
      | e :: _ => XStreams [[e]]
      | [] => XNil
      end)
  | e => world bare_machine (λ _, None) None tr _ e
  end.

Lemma recovering_reliable : reliable sample_log 3 recovering_world.
Proof.
  split.
  - intros tr X e. destruct e; try done; by eexists.
  - intros tr X e x Hx. destruct e; try done; simpl in Hx; injection Hx as <-; (split; [done|]); try done.
    exists sample_log. split; [done|]. destruct (_ <? 3); [exact I|].
    destruct (unread sample_log _) as [|e rest] eqn:Hun; [exact I|]. by exists e, rest.
  - intros tr args out Hle [= <-]. rewrite (proj2 (Nat.ltb_ge _ _) Hle). intros [Hun Hno].
    destruct (unread sample_log _) as [|e rest]; [done|]. by apply (Hno [[e]]).
Qed.

Definition start_run :=
  play (spawned (λ _, orders)) exits recovering_world (repeat 0 10) [] [observe engine_main].

Lemma start_run_exec : exec (spawned (λ _, orders)) exits engine_main start_run.1 start_run.2.
Proof. apply play_exec, ex_start. Qed.

Lemma start_run_serves : in_call start_run.2 0 (Serve (engine_server 0 0) ":50051").
Proof.
  refine (pending_in_call _ 0 (existT _ (Serve (engine_server 0 0) ":50051")) _). vm_compute. reflexivity.
Qed.

Lemma start_run_obs : Forall (redis_obs sample_log) start_run.1.*2 ∧ Forall background start_run.1.*2.
Proof.
  split; apply play_forall; try done; intros tr X e x Hx;
    by apply (rel_answers _ _ _ recovering_reliable) in Hx as [? ?].
Qed.

Lemma engine_catches_up_witness :
  size (stream_policies sample_log) = 1 ∧
  ∃ store N, ∀ n, N ≤ n →
    represents (store_after store
      (turn (spawned (λ _, orders)) exits recovering_world (λ n, n mod 3) start_run.1 start_run.2 n).1.*2
      NewPolicyStore) (stream_policies sample_log).
Proof.
  split; [vm_compute; reflexivity|].
  destruct (engine_catches_up (λ _, orders) start_run.1 start_run.2 _ _ (engine_server 0 0) ":50051"
    sample_log 3 recovering_world (λ n, n mod 3) start_run_exec start_run_serves eq_refl sample_ids_ok
    (proj1 start_run_obs) (proj2 start_run_obs) recovering_reliable (λ _, eq_refl))
    as (store&audit&N&_&HN).
  - intros n. exists (3 * n + 1). split; [lia|]. rewrite Nat.add_comm, Nat.mul_comm, Nat.Div0.mod_add. reflexivity.
  - exists store, N. intros n Hn. specialize (HN n Hn).
    destruct (turn _ _ _ _ _ _ n) as [tr' p']. exact (proj1 (proj2 HN)).
Defined.
