(* ===== verification/PointProc.v ===== *)
(** The processes of the enforcement points, whatever their environment answers
    and however their goroutines interleave. *)
From S2P Require Import Prelude GoText GoJson Policy Store StoreConc Subscriber Seeding PolicyJson LiteralRegexp ExtAuthz Live Proc Programs ProgramLemmas SeedProc.
From ITree Require Import ITree.
Open Scope string_scope.
Open Scope nat_scope.
Open Scope list_scope.

Section WithRegexp.
Context `{RE : RegexpLib} `{DEC : !PolicyDecoder} `{UNI : UnicodeLib}.

Definition machine_pep_vars (mc : machine) : pep_vars :=
  let env := Seeding.envOr (mc_Getenv mc) in
  mkPepVars (env "BOUNCER_ENGINE_ADDR" "bouncer-engine:50051") (env "REDIS_ADDR" DefaultAddr)
    (env "HTTPBIN_TARGET" "http://httpbin") (env "PEP_LISTEN_ADDR" ":8080") (env "POLICIES_DIR" "/policies").

Definition machine_ext_vars (mc : machine) : ext_vars :=
  let env := Seeding.envOr (mc_Getenv mc) in
  mkExtVars (env "BOUNCER_ENGINE_ADDR" "bouncer-engine:50051") (env "REDIS_ADDR" DefaultAddr)
    (env "EXTAUTHZ_LISTEN_ADDR" ":9191") (env "POLICIES_DIR" "/policies")
    (ToLower (env "JWT_PAYLOAD_HEADER" "x-jwt-payload")).

Lemma envOr_bind {A} mc key def (k : string → itree goE A) l o a :
  o = Some a → traces (envOr key def ≫= k) l o → Forall (fs_answer mc) l →
  ∃ l', traces (k (Seeding.envOr (mc_Getenv mc) key def)) l' o ∧ Forall (fs_answer mc) l'.
Proof.
  intros -> H Hfs. apply traces_bind_inv in H as [[_ ?]|(v&l1&l2&->&H1&H2)]; [done|].
  apply Forall_app in Hfs as [Hfs1 Hfs2]. trace_step H1.
  apply Forall_cons in Hfs1 as [Hx _]. simpl in Hx. subst x.
  apply traces_ret_inv in H1 as [_ [?|[= ->]]]; [done|]. by exists l2.
Qed.

Lemma httpbin_vars_returns mc l vars :
  traces httpbin_vars l (Some vars) → Forall (fs_answer mc) l → vars = machine_pep_vars mc.
Proof.
  intros H Hfs. unfold httpbin_vars in H.
  do 5 (eapply envOr_bind in H as (?&H&?); [|done|eassumption]).
  by apply traces_ret_inv in H as [_ [?|[= ->]]].
Qed.

Lemma extauthz_vars_returns mc l vars :
  traces extauthz_vars l (Some vars) → Forall (fs_answer mc) l → vars = machine_ext_vars mc.
Proof.
  intros H Hfs. unfold extauthz_vars in H.
  do 5 (eapply envOr_bind in H as (?&H&?); [|done|eassumption]).
  by apply traces_ret_inv in H as [_ [?|[= ->]]].
Qed.

(** [main] has published the policy files of [dir], the last pass without an
    error, and nothing else.  Whichever of the failed calls reached Redis,
    whatever the stream held [before], and whatever [others] have appended among
    the entries of [main] or after them, as long as it names no policy of the
    files: the stream denotes the policies of the files over what it denotes
    without them. *)
Definition published (mc : machine) (sort : IdSorter) (dir : string) (l : list (obs goE)) : Prop :=
  let files := machine_files mc sort dir in
  ∃ l1 evs l2, l = l1 ++ (event_obs <$> evs) ++ l2 ∧ no_xadd l1 ∧ no_xadd l2 ∧ seeded files evs ∧
    ∀ fs ids before others log,
      appended evs fs → length ids = length fs → interleaving (file_entries ids fs) others log →
      (∀ e u, e ∈ others → entry_update (xm_Values e) = Some u →
        foldl apply_file ∅ files !! update_id u = None) →
      stream_policies (before ++ log) = foldl apply_file ∅ files ∪ stream_policies (before ++ others).

Lemma published_intro mc sort dir l0 l1 evs l2 :
  no_xadd l0 → no_xadd l1 → no_xadd l2 → seeded (machine_files mc sort dir) evs →
  published mc sort dir (l0 ++ l1 ++ (event_obs <$> evs) ++ l2).
Proof.
  intros H0 H1 H2 Hs. exists (l0 ++ l1), evs, l2. rewrite <-app_assoc.
  split_and!; [done|by apply Forall_app|done|done|]. intros fs ids before others log. by apply seeded_stream.
Qed.

Lemma pep_serving mc sort Y (e : goE Y) l :
  traces (pep_process sort) (l ++ [Called e]) None → is_serving e = true → Forall (fs_answer mc) l →
  let vars := machine_pep_vars mc in
  serving (Called e) = Some (inr (pv_listenAddr vars, PepHandler (pv_httpbinTarget vars))) ∧
  published mc sort (pv_policiesDir vars) l.
Proof.
  intros H He Hfs vars.
  assert (Hno : ∀ X (e' : goE X), is_serving e' = false → Called e = Called e' → False).
  { intros X e' He' Heq. unfold is_serving in *. by rewrite Heq, He' in He. }
  apply called_bind in H as (vars'&lv&l1&->&Hv&H); [|unfold httpbin_vars; solve_emits|done].
  apply Forall_app in Hfs as [Hfsv Hfs]. rewrite (httpbin_vars_returns mc _ _ Hv Hfsv) in H. fold vars in H.
  apply no_xadd_emits in Hv; [|unfold httpbin_vars; solve_emits].
  apply called_trigger_inv in H as [[_ H]|([err|]&l2&->&H)]; [by eapply Hno in H|..].
  { apply called_exit in H. congruence. }
  apply called_deferring in H; [|by apply emits_trigger|done].
  apply called_trigger_inv in H as [[_ H]|([]&l3&->&H)]; [by eapply Hno in H|].
  apply called_deferring in H; [|by apply emits_trigger|done].
  apply Forall_cons in Hfs as [_ Hfs]. apply Forall_cons in Hfs as [_ Hfs].
  destruct (seeded_then mc _ _ _ _ _ H He Hfs) as (l4&evs&l5&->&H4&Hs&H5).
  apply called_trigger_inv in H5 as [[_ H5]|([err|]&l6&->&H5)]; [by eapply Hno in H5|..].
  { apply called_exit in H5. congruence. }
  apply called_trigger_inv in H5 as [[-> H5]|([err|]&l7&->&H5)].
  - rewrite H5. split; [done|]. apply (published_intro mc sort _ lv (_ :: _ :: l4));
      [done|by repeat constructor|by repeat constructor|done].
  - apply called_exit in H5. congruence.
  - apply traces_ret_inv in H5 as [H5 _]. by destruct l7.
Qed.

Lemma extauthz_serving mc sort Y (e : goE Y) l :
  traces (extauthz_process sort) (l ++ [Called e]) None → is_serving e = true → Forall (fs_answer mc) l →
  let vars := machine_ext_vars mc in
  serving (Called e) =
    Some (inl (mkGrpcServer false (ExtAuthzService (ev_payloadHeader vars)), ev_listenAddr vars)) ∧
  published mc sort (ev_policiesDir vars) l.
Proof.
  intros H He Hfs vars.
  assert (Hno : ∀ X (e' : goE X), is_serving e' = false → Called e = Called e' → False).
  { intros X e' He' Heq. unfold is_serving in *. by rewrite Heq, He' in He. }
  apply called_bind in H as (vars'&lv&l1&->&Hv&H); [|unfold extauthz_vars; solve_emits|done].
  apply Forall_app in Hfs as [Hfsv Hfs]. rewrite (extauthz_vars_returns mc _ _ Hv Hfsv) in H. fold vars in H.
  apply no_xadd_emits in Hv; [|unfold extauthz_vars; solve_emits].
  apply called_trigger_inv in H as [[_ H]|([err|]&l2&->&H)]; [by eapply Hno in H|..].
  { apply called_exit in H. congruence. }
  apply called_deferring in H; [|by apply emits_trigger|done].
  apply called_trigger_inv in H as [[_ H]|([]&l3&->&H)]; [by eapply Hno in H|].
  apply called_deferring in H; [|by apply emits_trigger|done].
  apply Forall_cons in Hfs as [_ Hfs]. apply Forall_cons in Hfs as [_ Hfs].
  destruct (seeded_then mc _ _ _ _ _ H He Hfs) as (l4&evs&l5&->&H4&Hs&H5).
  apply called_trigger_inv in H5 as [[_ H5]|([err|]&l6&->&H5)]; [by eapply Hno in H5|..].
  { apply called_exit in H5. congruence. }
  apply called_trigger_inv in H5 as [[_ H5]|([]&l7&->&H5)]; [by eapply Hno in H5|].
  apply called_trigger_inv in H5 as [[-> H5]|([err|]&l8&->&H5)].
  - rewrite H5. split; [done|]. apply (published_intro mc sort _ lv (_ :: _ :: l4));
      [done|by repeat constructor|by repeat constructor|done].
  - apply called_exit in H5. congruence.
  - apply traces_ret_inv in H5 as [H5 _]. by destruct l8.
Qed.

(** The enforcement points start at most the goroutine that waits for a
    shutdown signal. *)
Definition pep_event (X : Type) (e : goE X) : Prop :=
  match e with Go (SubscriberStart _) | Go (MetricsEndpoint _) => False | _ => True end.

Lemma seedPolicies_pep_event sort dir : emits pep_event (seedPolicies sort dir).
Proof.
  apply emits_bind; [by apply loadPolicyFiles_emits|]. intros files.
  destruct (length files =? 0); [apply emits_ret|]. apply emits_iter. intros b.
  apply emits_bind; [by apply publish_pass_emits|]. intros [|]; [|apply emits_ret].
  apply emits_bind; [by apply emits_trigger|]. intros. apply emits_ret.
Qed.

(** A server call of an enforcement point is in [main]. *)
Lemma serving_in_main os main tr p i Y (e : goE Y) :
  exec (spawned os) exits main tr p → emits pep_event main → in_call p i e → is_serving e = true →
  i = 0 ∧ traces main (of_thread 0 tr ++ [Called e]) None.
Proof.
  intros Hex Hm Hin He. destruct (in_call_traces _ _ _ _ _ _ _ Hex Hin) as (t&Ho&Ht).
  destruct Ho as [[-> ->]|(_&j&X&e'&x&Hj&Hsp)]; [done|exfalso].
  assert (pep_event X e') as Hpe.
  { eapply (exec_emits _ _ pep_event _ _ _ Hex Hm) with (i := j) (ob := Answered e' x); [|done].
    intros X0 e0 t0 H0 Ht0. destruct e0; simpl in Ht0; try (by apply elem_of_nil in Ht0).
    apply list_elem_of_singleton in Ht0 as ->. destruct g; try done. cbn [goroutine_tree]. solve_emits. }
  destruct e'; simpl in Hsp; try (by apply elem_of_nil in Hsp).
  apply list_elem_of_singleton in Hsp as ->. destruct g; try done.
  apply called_emits in Ht; [congruence|]. cbn [goroutine_tree]. solve_emits.
Qed.

Lemma pep_process_emits sort : emits pep_event (pep_process sort).
Proof.
  apply emits_bind; [unfold httpbin_vars; solve_emits|]. intros vars. unfold pep_main.
  apply emits_bind; [by apply emits_trigger|]. intros [err|]; [unfold exit; solve_emits|].
  apply emits_deferring; [by apply emits_trigger|]. apply emits_bind; [by apply emits_trigger|]. intros _.
  apply emits_deferring; [by apply emits_trigger|]. apply emits_bind; [apply seedPolicies_pep_event|].
  intros _. solve_emits.
Qed.

Lemma extauthz_process_emits sort : emits pep_event (extauthz_process sort).
Proof.
  apply emits_bind; [unfold extauthz_vars; solve_emits|]. intros vars. unfold extauthz_main.
  apply emits_bind; [by apply emits_trigger|]. intros [err|]; [unfold exit; solve_emits|].
  apply emits_deferring; [by apply emits_trigger|]. apply emits_bind; [by apply emits_trigger|]. intros _.
  apply emits_deferring; [by apply emits_trigger|]. apply emits_bind; [apply seedPolicies_pep_event|].
  intros _. solve_emits.
Qed.

(** C14: no request before the policies are out.  Whenever a process of the
    HTTP enforcement point is in [ListenAndServe], every policy file of its
    directory has been accepted by Redis, in order, after the last failed
    attempt.  So the stream, which may hold entries of earlier runs and of other
    publishers, denotes the policies of those files over what the other entries
    denote, whichever failed attempts reached it, unless another publisher has
    meanwhile or since named a policy of the files. *)
Theorem pep_published_before_serving mc os sort tr p i Y (e : goE Y) :
  exec (spawned os) exits (pep_process sort) tr p → Forall (fs_answer mc) tr.*2 →
  in_call p i e → is_serving e = true →
  let vars := machine_pep_vars mc in
  i = 0 ∧ serving (Called e) = Some (inr (pv_listenAddr vars, PepHandler (pv_httpbinTarget vars))) ∧
  published mc sort (pv_policiesDir vars) (of_thread 0 tr).
Proof.
  intros Hex Hmc Hin He vars.
  destruct (serving_in_main _ _ _ _ _ _ _ Hex (pep_process_emits sort) Hin He) as [-> Ht].
  destruct (pep_serving mc sort _ _ _ Ht He (Forall_thread0 _ _ Hmc)) as [Hs Hp]. done.
Qed.

(** The same for the ext_authz adapter: whenever its process is in [Serve],
    the policies of its directory are published. *)
Theorem extauthz_published_before_serving mc os sort tr p i Y (e : goE Y) :
  exec (spawned os) exits (extauthz_process sort) tr p → Forall (fs_answer mc) tr.*2 →
  in_call p i e → is_serving e = true →
  let vars := machine_ext_vars mc in
  i = 0 ∧ serving (Called e) =
    Some (inl (mkGrpcServer false (ExtAuthzService (ev_payloadHeader vars)), ev_listenAddr vars)) ∧
  published mc sort (ev_policiesDir vars) (of_thread 0 tr).
Proof.
  intros Hex Hmc Hin He vars.
  destruct (serving_in_main _ _ _ _ _ _ _ Hex (extauthz_process_emits sort) Hin He) as [-> Ht].
  destruct (extauthz_serving mc sort _ _ _ Ht He (Forall_thread0 _ _ Hmc)) as [Hs Hp]. done.
Qed.

(** Graceful shutdown of the ext_authz adapter.  A process whose [main]
    has returned was in [Serve] until the shutdown, and then closed the Redis
    client and the connection to the engine, in this order, and nothing else. *)
Theorem extauthz_shutdown os sort tr p :
  exec (spawned os) exits (extauthz_process sort) tr p → p !! 0 = Some (RetF tt) →
  ∃ l vars, of_thread 0 tr = l ++
    [Answered (Serve (mkGrpcServer false (ExtAuthzService (ev_payloadHeader vars))) (ev_listenAddr vars)) None;
     Answered CloseRedis tt; Answered CloseConn tt].
Proof.
  intros Hex H0. destruct (exec_threads _ _ _ _ _ Hex) as (_&Hp&_).
  destruct (Hp _ _ H0) as (t&[[_ ->]|[? _]]&Ht); [|done].
  specialize (Ht [] (Some tt) (tr_ret tt)). rewrite app_nil_r in Ht. revert Ht.
  generalize (of_thread 0 tr). intros l H.
  apply traces_bind_inv in H as [[_ ?]|(vars&l1&l2&->&_&H)]; [done|]. unfold extauthz_main in H.
  trace_step H. destruct x; [by apply traces_exit_inv in H as [? _]|].
  apply traces_deferring_inv in H as [[_ ?]|(u&l3&l4&->&H&Hc)]; [done|]. trace_step H.
  apply traces_deferring_inv in H as [[_ ?]|(u'&l5&l6&->&H&Hr)]; [done|].
  trace_step Hc. trace_step Hc. trace_step Hr. trace_step Hr.
  apply traces_bind_inv in H as [[_ ?]|(u2&l7&l8&->&_&H)]; [done|].
  trace_step H. destruct x2; [by apply traces_exit_inv in H as [? _]|]. trace_step H. trace_step H.
  destruct x3; [by apply traces_exit_inv in H as [? _]|]. trace_step H.
  destruct x0, x1. eexists (l1 ++ _ :: _ :: l7 ++ [_; _]), vars.
  repeat (rewrite <-app_assoc; simpl). reflexivity.
Qed.

End WithRegexp.

(** ** Witnesses *)

Definition seed_machine : machine := mkMachine (λ _, "") (λ _, seed_dir) (λ _, seed_file).

(** Redis refuses the first call; servers return [serve] if they do. *)
Definition point_run (serve : option (option string)) (main : itree goE unit) :=
  play (spawned (λ _, orders)) exits (world seed_machine (λ n, if n <? 1 then Some "timeout" else None) serve)
    (repeat 0 40) [] [observe main].

Lemma point_run_exec serve main :
  exec (spawned (λ _, orders)) exits main (point_run serve main).1 (point_run serve main).2.
Proof. apply play_exec, ex_start. Qed.

Lemma point_run_fs serve main : Forall (fs_answer seed_machine) (point_run serve main).1.*2.
Proof. apply play_forall; [done| |constructor]. intros tr X e x. apply world_fs. Qed.

Definition sample_pep : itree goE unit := pep_process merge_sorter.
Definition sample_extauthz : itree goE unit := extauthz_process (UNI := ascii_unicode) merge_sorter.

Lemma sample_pep_serves :
  in_call (point_run None sample_pep).2 0 (ListenAndServe ":8080" (PepHandler "http://httpbin")).
Proof.
  refine (pending_in_call _ 0 (existT _ (ListenAndServe ":8080" (PepHandler "http://httpbin"))) _).
  vm_compute. reflexivity.
Qed.

Definition ext_server : grpc_server := mkGrpcServer false (ExtAuthzService "x-jwt-payload").

Lemma sample_extauthz_serves : in_call (point_run None sample_extauthz).2 0 (Serve ext_server ":9191").
Proof.
  refine (pending_in_call _ 0 (existT _ (Serve ext_server ":9191")) _). vm_compute. reflexivity.
Qed.

(** The first publication is refused; the second pass succeeds. *)
Lemma pep_published_before_serving_witness :
  omap xadd_answer (point_run None sample_pep).1.*2 = [Some "timeout"; None; None] ∧
  pf_id <$> machine_files seed_machine merge_sorter "/policies" = ["deny-1"; "pol-mock-001"] ∧
  published seed_machine merge_sorter "/policies" (of_thread 0 (point_run None sample_pep).1).
Proof.
  split; [vm_compute; reflexivity|]. split; [vm_compute; reflexivity|].
  exact (proj2 (proj2 (pep_published_before_serving seed_machine (λ _, orders) merge_sorter _ _ 0 _ _
    (point_run_exec None sample_pep) (point_run_fs None sample_pep) sample_pep_serves eq_refl))).
Defined.

Lemma extauthz_published_before_serving_witness :
  omap xadd_answer (point_run None sample_extauthz).1.*2 = [Some "timeout"; None; None] ∧
  published seed_machine merge_sorter "/policies" (of_thread 0 (point_run None sample_extauthz).1).
Proof.
  split; [vm_compute; reflexivity|].
  exact (proj2 (proj2 (extauthz_published_before_serving (UNI := ascii_unicode) seed_machine (λ _, orders)
    merge_sorter _ _ 0 _ _ (point_run_exec None sample_extauthz) (point_run_fs None sample_extauthz)
    sample_extauthz_serves eq_refl))).
Defined.

(** The server stops without an error, and [main] returns. *)
Lemma extauthz_shutdown_witness :
  let run := point_run (Some None) sample_extauthz in
  run.2 !! 0 = Some (RetF tt) ∧
  ∃ l server addr, of_thread 0 run.1 =
    l ++ [Answered (Serve server addr) None; Answered CloseRedis tt; Answered CloseConn tt].
Proof.
  intros run. assert (run.2 !! 0 = Some (RetF tt)) as H by (vm_compute; reflexivity). split; [exact H|].
  destruct (extauthz_shutdown (UNI := ascii_unicode) (λ _, orders) merge_sorter run.1 run.2) as (l&vars&Hl).
  - apply point_run_exec.
  - exact H.
  - exists l, (mkGrpcServer false (ExtAuthzService (ev_payloadHeader vars))), (ev_listenAddr vars). exact Hl.
Defined.
