(* ===== verification/PublisherProc.v ===== *)
(** The processes of cmd/mock-publisher and loadtest/seed: their unbounded
    probe loops do what [Seed] computes, and end. *)
From S2P Require Import Prelude GoText GoJson AuthzPb Policy LiteralRegexp Store Subscriber PolicyJson Seeding Seed Live Proc Programs ProgramLemmas.
From ITree Require Import ITree.
Open Scope string_scope.
Open Scope nat_scope.
Open Scope list_scope.

Section WithRegexp.
Context `{RE : RegexpLib} `{DEC : !PolicyDecoder}.

(** ** What a trace shows of the calls *)

#[export] Instance XAddArgs_eq_dec : EqDecision XAddArgs.
Proof. solve_decision. Defined.

(** The publishing calls that were answered. *)
Definition xadd_call (ob : obs goE) : option XAddArgs :=
  match ob with Answered (XAdd args) _ => Some args | _ => None end.

(** The answers to the probes. *)
Definition poll (ob : obs goE) : option (result CheckAccessResponse) :=
  match ob with
  | Called _ => None
  | Answered e x =>
    match e in goE X return X → option (result CheckAccessResponse) with
    | RpcCheckAccess _ => λ answer, Some answer
    | _ => λ _, None
    end x
  end.

(** A clock reading, or time slept. *)
Definition tick (ob : obs goE) : option (Z + Z) :=
  match ob with
  | Called _ => None
  | Answered e x =>
    match e in goE X return X → option (Z + Z) with
    | Now => λ now, Some (inl now)
    | Sleep d => λ _, Some (inr d)
    | _ => λ _, None
    end x
  end.

(** The clock readings. *)
Definition reading (ob : obs goE) : option Z :=
  match tick ob with Some (inl now) => Some now | _ => None end.

(** The clock does not run backwards, and a sleep takes at least its time. *)
Fixpoint clock_ok (last : Z) (l : list (obs goE)) : Prop :=
  match l with
  | [] => True
  | ob :: l =>
    match tick ob with
    | Some (inl now) => (last ≤ now)%Z ∧ clock_ok now l
    | Some (inr d) => clock_ok (last + d) l
    | None => clock_ok last l
    end
  end.


(** [os.Exit] was called. *)
Definition exited (l : list (obs goE)) : bool :=
  existsb (λ ob, match ob with Called (Exit _) => true | _ => false end) l.

(** How a finished trace ended. *)
Definition ended (l : list (obs goE)) (o : option unit) (r : outcome) : Prop :=
  match o with
  | Some _ => ∃ resp, r = Succeeded resp
  | None => exited l = true → r = Exit1
  end.

(** ** Lemmas: the probe loop *)

Lemma retry_traces deadline l o :
  traces (probe_retry deadline) l o →
  omap poll l = [] ∧ omap xadd_call l = [] ∧ length l ≤ 2 ∧ length (omap reading l) ≤ 1 ∧
  (o = None ∧ (exited l = true → ∃ now, (deadline < now)%Z ∧ l = [Answered Now now; Called (Exit 1)]) ∨
   ∃ now, (now ≤ deadline)%Z ∧ o = Some (inl tt) ∧ l = [Answered Now now; Answered (Sleep probe_pause) tt]).
Proof.
  intros H. unfold probe_retry in H.
  apply traces_trigger_inv in H as [[-> ->]|[[-> ->]|(now&l1&->&H)]]; [by split_and!; try left; simpl; try lia..|].
  destruct (Z.ltb_spec deadline now) as [Hlt|Hge].
  - apply traces_exit_inv in H as [-> [-> | ->]]; split_and!; try (simpl; lia); try done; left; (split; [done|]);
      [done|]. intros _. by exists now.
  - apply traces_trigger_inv in H as [[-> ->]|[[-> ->]|([]&l2&->&H)]]; [by split_and!; try left; simpl; try lia..|].
    apply traces_ret_inv in H as [-> [-> | ->]]; (split_and!; [done|done|simpl; lia|simpl; lia|]); [by left|].
    right. by exists now.
Qed.

Definition refused (answer : result CheckAccessResponse) : bool :=
  match answer with Ok resp => negb (a_Allowed resp) | Err _ => true end.

Lemma refused_poll deadline answer now polls :
  refused answer = true →
  probe_loop deadline ((answer, now) :: polls) =
    if (deadline <? now)%Z then Exit1 else probe_loop deadline polls.
Proof. destruct answer as [resp|err]; simpl; [by destruct (a_Allowed resp)|done]. Qed.

(** One pass: cut before an answer, an answer that allows, or a refusal. *)
Lemma probe_pass_traces req deadline u l o :
  traces (probe_pass req deadline u) l o →
  (o = None ∧ exited l = false ∧ omap poll l = [] ∧ omap xadd_call l = [] ∧ omap reading l = [] ∧
    length l ≤ 1) ∨
  ∃ answer rest, l = Answered (RpcCheckAccess req) answer :: rest ∧
    ((∃ resp, answer = Ok resp ∧ a_Allowed resp = true ∧ rest = [] ∧ (o = None ∨ o = Some (inr resp))) ∨
     (refused answer = true ∧ traces (probe_retry deadline) rest o)).
Proof.
  intros H. unfold probe_pass in H.
  apply traces_trigger_inv in H as [[-> ->]|[[-> ->]|(answer&l1&->&H)]]; [by left; split_and!; simpl; try lia..|].
  right. exists answer, l1. split; [done|]. destruct answer as [resp|err]; [|by right].
  simpl. destruct (a_Allowed resp) eqn:Ha; [left|by right].
  apply traces_ret_inv in H as [-> Ho]. by exists resp.
Qed.

(** The probe loop of the processes is that of [Seed] on the answers it gets. *)
Lemma probe_passes req deadline u l o :
  passes (probe_pass req deadline) u l o →
  ∃ polls, polls.*1 = omap poll l ∧ omap xadd_call l = [] ∧ omap reading l `prefix_of` polls.*2 ∧
    match o with
    | Some resp => probe_loop deadline polls = Succeeded resp
    | None => exited l = true → probe_loop deadline polls = Exit1
    end ∧
    length l ≤ 3 * length polls + 1 ∧
    ∀ last, clock_ok last l → 2 ≤ length polls →
      (last + probe_pause * (Z.of_nat (length polls) - 2) ≤ deadline)%Z.
Proof.
  assert (Hlast : ∀ u l (o : option (unit + CheckAccessResponse)), traces (probe_pass req deadline u) l o →
    o ≠ Some (inl tt) →
    ∃ polls, polls.*1 = omap poll l ∧ omap xadd_call l = [] ∧ omap reading l `prefix_of` polls.*2 ∧
      match o with
      | Some (inr resp) => probe_loop deadline polls = Succeeded resp
      | _ => exited l = true → probe_loop deadline polls = Exit1
      end ∧ length l ≤ 3 * length polls + 1 ∧ length polls ≤ 1).
  { clear. intros u l o H Ho.
    apply probe_pass_traces in H as [(->&He&Hp&Hx&Hc&Hlen)|(answer&rest&->&[(resp&->&Ha&->&H)|[Hr H]])].
    - exists []. rewrite Hp, He, Hx, Hc. by split_and!; simpl; try lia.
    - exists [(Ok resp, 0%Z)]. split_and!; [done|done|apply prefix_nil| |simpl; lia|done].
      destruct H as [-> | ->]; [done|]. simpl. by rewrite Ha.
    - apply retry_traces in H as (Hp&Hx&Hlen&Hread&[[-> He]|(now&_&->&_)]); [|done].
      destruct (exited rest) eqn:Hexit.
      + destruct (He eq_refl) as (now&Hlt&->). exists [(answer, now)].
        split_and!; [done|done|done| |simpl; lia|done]. intros _. rewrite refused_poll by done.
        by destruct (Z.ltb_spec deadline now); [|lia].
      + exists [(answer, default 0%Z (head (omap reading rest)))]. csimpl. rewrite Hp, Hx.
        split_and!; [done|done| | |lia|done].
        { destruct (omap reading rest) as [|now [|]]; simpl in *; [apply prefix_nil|done|lia]. }
        unfold exited in *. simpl. by rewrite Hexit. }
  induction 1 as [u l H|u l resp H|u [] l l' o H _ (polls&Hp&Hx&Hread&Ho&Hlen&Hc)].
  - destruct (Hlast _ _ _ H) as (polls&?&?&?&?&?&?); [done|]. exists polls. split_and!; try done. intros; lia.
  - destruct (Hlast _ _ _ H) as (polls&?&?&?&?&?&?); [done|]. exists polls. split_and!; try done. intros; lia.
  - apply probe_pass_traces in H as [(?&_)|(answer&rest&->&[(resp&_&_&_&[?|?])|[Hr H]])]; [done..|].
    apply retry_traces in H as (_&_&_&_&[[? _]|(now&Hle&_&->)]); [done|].
    exists ((answer, now) :: polls).
    assert (probe_loop deadline ((answer, now) :: polls) = probe_loop deadline polls) as Hstep.
    { rewrite refused_poll by done. by destruct (Z.ltb_spec deadline now); [lia|]. }
    rewrite Hstep. split_and!;
      [csimpl; by rewrite Hp|done|by apply prefix_cons|by destruct o|simpl in *; lia|].
    + intros last [Hnow Hclock] _. destruct polls as [|p1 [|p2 polls]].
      * simpl. unfold probe_pause. lia.
      * simpl. unfold probe_pause. lia.
      * specialize (Hc _ Hclock ltac:(simpl; lia)). simpl length in *. unfold probe_pause in *. lia.
Qed.

(** ** Lemmas: the programs *)




Lemma exited_returned {A} (t : itree goE A) l r : traces t l (Some r) → exited l = false.
Proof.
  intros H%traces_returned. induction H as [|ob l Hob _ IH]; [done|].
  unfold exited in *. simpl. rewrite IH. by destruct ob.
Qed.


Lemma probe_traces req l o :
  traces (probe req) l o →
  ∃ start polls, polls.*1 = omap poll l ∧ omap xadd_call l = [] ∧
    omap reading l `prefix_of` start :: polls.*2 ∧
    ended l o (probe_loop (start + probe_timeout) polls) ∧
    length l ≤ 3 * length polls + 2 ∧
    ∀ last, clock_ok last l → length polls ≤ 252.
Proof.
  intros H. unfold probe in H.
  apply traces_trigger_inv in H as [[-> ->]|[[-> ->]|(start&l1&->&H)]];
    [exists 0%Z, []; split_and!; try done; simpl; try intros; try lia; apply prefix_nil..|].
  assert (∃ o', passes (probe_pass req (start + probe_timeout)) tt l1 o' ∧
    (o = Some tt → is_Some o') ∧ (is_Some o' → exited l1 = false)) as (o'&Hp&Ho&Hex).
  { apply traces_bind_inv in H as [[H ->]|(resp&l2&l3&->&H1&H2)].
    - exists None. split_and!; [by apply traces_iter_inv|done|by intros []].
    - apply traces_ret_inv in H2 as [-> _]. rewrite app_nil_r.
      exists (Some resp). split_and!; [by apply traces_iter_inv|done|]. intros _. by eapply exited_returned. }
  apply probe_passes in Hp as (polls&Hpolls&Hx&Hread&Hout&Hlen&Hclock).
  exists start, polls. split_and!; [done|done|by apply prefix_cons| |simpl; lia|].
  - unfold ended. destruct o as [[]|].
    + destruct (Ho eq_refl) as [resp ->]. by exists resp.
    + intros He. change (exited (Answered Now start :: l1)) with (exited l1) in He.
      destruct o'; [|by apply Hout]. rewrite Hex in He by done. done.
  - intros last [_ Hc]. destruct (decide (2 ≤ length polls)) as [H2|]; [|lia].
    specialize (Hclock _ Hc H2). unfold probe_pause, probe_timeout in *. lia.
Qed.




Section Runs.
Context (mc : machine).


















End Runs.

(** ** Lemmas: how long a run is *)

Lemma clock_ok_app last l1 l2 : clock_ok last (l1 ++ l2) → clock_ok last l1 ∧ ∃ last', clock_ok last' l2.
Proof.
  revert last. induction l1 as [|ob l1 IH]; intros last H; [split; [done|by exists last]|]. simpl in *.
  destruct (tick ob) as [[now|d]|]; [destruct H as [? H]|..]; apply IH in H as (?&?&?); eauto.
Qed.

(** At most [n] events, none of them a probe. *)
Definition short {A} (n : nat) (t : itree goE A) : Prop :=
  ∀ l o, traces t l o → length l ≤ n ∧ omap poll l = [].

(** At most [n] events and 252 probes, if the clock advances with the sleeps. *)
Definition bounded {A} (n : nat) (t : itree goE A) : Prop :=
  ∀ l o last, traces t l o → clock_ok last l → length l ≤ n ∧ length (omap poll l) ≤ 252.

Definition no_probe (X : Type) (e : goE X) : bool := match e with RpcCheckAccess _ => false | _ => true end.

Lemma short_ret {A} (a : A) : short 0 (mret a).
Proof. intros l o [-> _]%traces_ret_inv. split; [simpl; lia|done]. Qed.

Lemma short_do {X} (e : goE X) : no_probe X e = true → short 1 (do e).
Proof.
  intros He l o H. unfold traces, do, ITree.trigger in H. cbn [observe _observe] in H.
  apply trace_vis_inv in H as [[-> _]|[[-> _]|(x&l'&->&H)]]; [split; [simpl; lia|done]..|].
  apply trace_ret_inv in H as [-> _]. split; [simpl; lia|]. by destruct e.
Qed.

Lemma short_bind {A B} n m (t : itree goE A) (k : A → itree goE B) :
  short n t → (∀ a, short m (k a)) → short (n + m) (t ≫= k).
Proof.
  intros Ht Hk l o [[H _]|(a&l1&l2&->&H1&H2)]%traces_bind_inv.
  - destruct (Ht _ _ H). split; [lia|done].
  - destruct (Ht _ _ H1) as [? E1], (Hk _ _ _ H2) as [? E2]. rewrite length_app, omap_app, E1, E2.
    split; [lia|done].
Qed.

Lemma short_exit {A} code : short 1 (exit (A := A) code).
Proof. apply (short_bind 1 0); [by apply short_do|intros []]. Qed.

Lemma bounded_short {A} n m (t : itree goE A) : n ≤ m → short n t → bounded m t.
Proof. intros Hm Ht l o last H _. destruct (Ht _ _ H) as [? ->]. simpl. split; lia. Qed.

(** A short program before one that may probe, or after it. *)
Lemma bounded_bind {A B} n m (t : itree goE A) (k : A → itree goE B) :
  short n t → (∀ a, bounded m (k a)) → bounded (n + m) (t ≫= k).
Proof.
  intros Ht Hk l o last [[H _]|(a&l1&l2&->&H1&H2)]%traces_bind_inv Hc.
  - destruct (Ht _ _ H) as [? ->]. simpl. split; lia.
  - apply clock_ok_app in Hc as [_ [last' Hc]].
    destruct (Ht _ _ H1) as [? E1], (Hk _ _ _ _ H2 Hc). rewrite length_app, omap_app, E1. split; simpl; lia.
Qed.

Lemma bounded_deferring n (d rest : itree goE unit) :
  short 1 d → bounded n rest → bounded (n + 1) (deferring d rest).
Proof.
  intros Hd Hr l o last [[H _]|(a&l1&l2&->&H1&H2)]%traces_bind_inv Hc.
  - destruct (Hr _ _ _ H Hc). split; lia.
  - apply clock_ok_app in Hc as [Hc _]. destruct (Hr _ _ _ H1 Hc).
    destruct (short_bind 1 0 d (λ _, mret a) Hd (λ _, short_ret a) _ _ H2) as [? E2].
    rewrite length_app, omap_app, E2, app_nil_r. split; lia.
Qed.

Lemma bounded_probe req : bounded 758 (probe req).
Proof.
  intros l o last H Hc. apply probe_traces in H as (start&polls&Hp&_&_&_&Hlen&Hclock).
  specialize (Hclock _ Hc). rewrite <-Hp, length_fmap. split; lia.
Qed.

Lemma short_publish policies : short (length policies + 1) (publish_or_exit policies).
Proof.
  induction policies as [|[id json] policies IH]; simpl.
  - intros l o [-> _]%traces_ret_inv. split; [simpl; lia|done].
  - apply (short_bind 1); [by apply short_do|]. intros [err|]; [|done].
    intros l o H. destruct (short_exit _ _ _ H). split; [lia|done].
Qed.

(** ** Properties *)

Section Programs.
Context (mc : machine).










(** *** Events and their order *)












(** ** Specification: a run of a publisher *)



(** *** The two programs *)












End Programs.

(** C39: the publishing programs end.  If the clock does not run backwards and a
    sleep takes at least its time, every run of either program, whatever the
    other answers, makes at most 252 probes and at most 768 calls. *)
Theorem publishers_end l o last :
  traces mock_process l o ∨ traces seed_process l o → clock_ok last l →
  length (omap poll l) ≤ 252 ∧ length l ≤ 768.
Proof.
  assert (Hb : bounded 765 mock_process ∧ bounded 768 seed_process).
  { split.
    - apply (bounded_bind 1); [by apply (short_bind 1 0); [apply short_do|intros; apply short_ret]|]. intros addr.
      apply (bounded_bind 1); [by apply short_do|]. intros _.
      apply (bounded_deferring 762); [by apply short_do|]. apply (bounded_bind 1); [by apply short_do|].
      intros [err|]; [apply (bounded_short 1); [lia|apply short_exit]|].
      apply (bounded_bind 1); [by apply (short_bind 1 0); [apply short_do|intros; apply short_ret]|]. intros target.
      apply (bounded_bind 1); [by apply short_do|].
      intros [err|]; [apply (bounded_short 1); [lia|apply short_exit]|].
      apply (bounded_deferring 758); [by apply short_do|apply bounded_probe].
    - apply (bounded_bind 1); [by apply (short_bind 1 0); [apply short_do|intros; apply short_ret]|]. intros target.
      apply (bounded_bind 1); [by apply (short_bind 1 0); [apply short_do|intros; apply short_ret]|]. intros addr.
      apply (bounded_bind 1); [by apply short_do|]. intros _.
      apply (bounded_deferring 764); [by apply short_do|]. apply (bounded_bind 1); [by apply short_do|].
      intros [err|]; [apply (bounded_short 1); [lia|apply short_exit]|].
      apply (bounded_deferring 762); [by apply short_do|].
      apply (bounded_bind 4); [apply (short_publish seed_policies)|]. intros _. apply bounded_probe. }
  intros [H|H] Hc; [destruct (proj1 Hb _ _ _ H Hc)|destruct (proj2 Hb _ _ _ H Hc)]; split; lia.
Qed.

End WithRegexp.

(** ** Witness *)

(** An engine that is reachable from the second probe on and allows from the
    third; every event takes 20 ms. *)
Definition slow_engine (tr : list (nat * obs goE)) (X : Type) (e : goE X) : option X :=
  match e in goE X return option X with
  | RpcCheckAccess _ => Some (
      match length (omap poll tr.*2) with
      | 0 => Err "unavailable"
      | 1 => Ok (mkCheckAccessResponse false "" "no matching policy" 5)
      | _ => Ok (mkCheckAccessResponse true "pol-mock-001" "allowed" 5)
      end)
  | Now => Some (Z.of_nat (length tr) * probe_pause)%Z
  | Getenv _ => Some ""
  | Dial _ | XAdd _ => Some None
  | Sleep _ | NewRedisClient _ | CloseRedis | CloseConn => Some tt
  | _ => None
  end.

Definition mock_run : list (nat * obs goE) * list (itree' goE unit) :=
  play (spawned (λ _, orders)) exits slow_engine (repeat 0 30) [] [observe mock_process].

Lemma mock_run_clock : clock_ok 0 (of_thread 0 mock_run.1).
Proof. vm_compute. repeat first [exact I|split; [discriminate|]]. Qed.





Lemma publishers_end_witness :
  let l := of_thread 0 mock_run.1 in
  length (omap poll l) = 3 ∧ mock_run.2 !! 0 = Some (RetF tt) ∧
  length (omap poll l) ≤ 252 ∧ length l ≤ 768.
Proof.
  intros l. split; [vm_compute; reflexivity|]. split; [vm_compute; reflexivity|].
  apply (publishers_end l None 0%Z).
  - left. apply (exec_main_traces (spawned (λ _, orders)) exits _ _ mock_run.2).
    + apply play_exec, ex_start.
    + apply lookup_lt_is_Some_2, Nat.ltb_lt. vm_compute. reflexivity.
  - exact mock_run_clock.
Defined.
